(* ===== verification/_CoqProject ===== *)
-Q . S2P
Prelude.v
Threads.v
Decimal.v
Base64.v
Contract.v
OutputRing.v
Readers.v
Observer.v
Stream.v
StoreFeed.v
Inventory.v
Environment.v
ProcessTree.v
ProcessWatch.v
WatchLoop.v
Windows.v
Store.v
StoreLocks.v
StoreAlone.v
Session.v
UnixProcess.v
Flow.v
Monitor.v
Registry.v
Restore.v
StoreRaces.v
Control.v
Pipeline.v
Arrival.v
Connection.v
Daemon.v
Startup.v
Serving.v
Platforms.v
