(* ===== verification/Prelude.v ===== *)
(** * soksak-sidecar-pty: a verified model of the pty daemon

    The daemon owns login shells.  Each session is a shell on a pseudo terminal, a ring that
    retains the end of its output, the observers that follow it and, with a store, a record
    and two output segments from which a later start stands it up again.  Clients speak to
    it over one socket, one request per line, until a stream command turns the connection
    into a stream of output or events.  This library models that program as pure functions
    on records of its state, and proves what makes its parts correct.

    ** How the code is modelled

    A method that runs under a lock is a function from the state to the state and the answer;
    the calls it makes on its surroundings are logged as values ([Session.action],
    [Registry.reg_action], [Restore.restore_action]) in the order of the code. Goroutines are
    step relations over such critical sections (Readers, StoreFeed, Inventory, Flow, Monitor,
    WatchLoop, UnixProcess, Windows, Pipeline, Arrival, Daemon, Serving), and an invariant is
    proved by induction over the steps. Where a goroutine takes locks of its own or several
    start the same code, it is a program of Threads, a turn at every call and every lock
    (StoreLocks, Startup). A call of the file system is a step of the monad [Store.io], which
    may fail at any call and records every state the directory passes through, so that a crash
    can be asked about at each of them. A [uint64] is a [Z] with the wrap-around written out
    (Prelude); a Go map is a [gmap], and an operation that ranges over one takes the order as
    an argument. Pointers that the code shares are numbers into a heap ([Session.heap],
    [Control.prepared], [Monitor.monitors]). The constants and payloads of the contract
    packages are the classes [Contract.PtyContract] and [Control.ControlContract], with the
    laws the code relies on; JSON is [Store.Platform] for the records of the store and
    [Control.Wire] for the payloads of requests. The witnesses run on
    [Contract.sample_contract], [Contract.wide_contract] (whose window is that of the daemon
    where one needs it), [Connection.sample_control], [Connection.sample_wire] and
    [Store.Concrete].

    ** The files

    - Threads: programs of calls and locks, a machine that runs them in any order, and what
      keeps them out of a circle of locks and makes them end.
    - Decimal, Base64: ids as decimal text, bytes as base64 and hexadecimal, read back.
    - Contract: the constants and the payload structs of the contract.
    - OutputRing (ring.go [ring]): the retained output in the coordinates of the whole
      output, trimming, leases, acknowledgements.  [ring_ok] relates a ring to everything
      the shell ever printed; any traffic keeps it, a lease holds what it promised or is
      broken, an attach reads on without a hole or is told it restarted.
    - Readers (ring.go [read], stream.go [deliver]): readers that park on channels and are
      woken; under any interleaving none is parked while there is something to read, each was
      given the history but for the ranges the ring had dropped, and after the end each
      finishes.
    - Observer (observer.go [observer]): the bounded queue of events, with gaps for what did
      not fit; what an observer is given covers the output from where it joined.
    - Stream (stream.go [deliver], [deliverObservations]): batching and frames; the peer can
      decode a prefix of what was sent, and delivery sends what arrived in order.
    - StoreFeed (feed.go [storeFeed]): the queue between a shell and its store, its
      goroutine and its bounded close; chunks arrive in order, every drop is reported.
    - Inventory (process_inventory_state.go): the process ledger and its subscribers; what a
      subscriber received replays its snapshot into the ledger.
    - Environment (environment.go): the lines a shell starts with, from the four sources.
    - ProcessTree (process_tree_unix.go [Descendants], process_monitor.go [foregroundOf]):
      the descendants of a shell from the process table.
    - ProcessWatch (process_tree_events.go, process_tree_events_darwin.go): the interface
      [ProcessTreeWatch] and the kqueue watch that implements it.
    - WatchLoop (process_tree_events_darwin.go [run], [Close]): the goroutine that waits on a
      kqueue by its number; while its watch is open it goes on and misses no event, unless
      the number is given out again or a wait fails with another error than EBADF or an
      interruption, and [reused_number_steals_events] is a run in which the number is.
    - Windows (process_windows.go): starting a shell in a console and a job, and ending it
      from two goroutines; a start that fails leaks nothing, a reaped shell leaves nothing,
      and a resize does not look whether the console was closed.
    - Store (store.go): records replaced whole by a rename, two segments appended in turn.
      A record write is atomic, a removal leaves no orphan, and output that was appended is
      read back after a crash at any point of a later append.
    - StoreLocks (store.go, the locks): every operation as goroutines that take turns under
      the locks of the writers and the records.  They never wait in a circle and all end, a
      record changes only as a whole, and writers and records are touched under their locks.
    - StoreAlone: an operation that no other one disturbs is the operation of Store, for each
      of them and for any sequence of them.
    - StoreRaces: a stop beside an append that rolls, followed to the session that the next
      start stands up, which has lost the newest output and counts the rest wrongly.
    - Session (session.go [session]): output, renderers, observers, presence, reaping.  Its
      observers cover the output; it is called abandoned exactly when nothing shows it, it
      was last shown before the moment and it has been silent since, where the display of an
      observer that was adopted by an unseen session may not count.
    - UnixProcess (process_unix.go): the shell as the leader of a group and a session among
      the processes of the machine; a reap reaches nothing outside that session, and does
      not wait, and a job in a group of its own outlives it.
    - Flow (session.go [pump], [shouldPause], [resume]): the pump and its pause; a pump that
      waits has a reader that is behind, and runs on once it caught up or left.
    - Monitor (process_monitor.go): starts, notifications and ends of the monitors over any
      [ProcessTreeWatch]; a session whose end returned stays out of the ledger.
    - Registry (session.go [registry]): issuing ids, opening, sweeping, stopping.
    - Restore (restore.go): standing sessions up again, the report, closing by name; what a
      previous life stored comes back at exactly its coordinates, a start accounts for every
      record whatever fails, and from a start on a named pane has one session unless the
      store had two records of it.
    - Control (control.go, sort.go): every command handler, over the registry, the store, the
      leases, the prepared observers and the ledger.
    - Pipeline (session.go, feed.go, store.go, restore.go together): the way of the output from
      the shell through session, feed and store to the session a next start stands up, over any
      number of lives.  As long as nothing was complained of and no stop crossed a roll, what
      was printed comes back at the same coordinates; a hole behind a roll is not seen.
    - Arrival (session.go [openWithObserver], [close]): an open between its locks.  Undisturbed
      it is the open of Registry; a session closed before its record is written comes back.
    - Connection (control.go [serveControl], [answer], [greet], the stream handlers): the loop
      over the lines of a connection; without the token it has no effect.
    - Daemon: all of it over the daemon's life, one step at a time; the ledger follows the
      registry, and a prepared observer is adopted once.
    - Startup (main.go, listen_unix.go, limits_unix.go, process_label.go): a start from the
      flags to the announcement with any call failing, and several starts at once.  A daemon
      that announced itself answers and had stood its sessions up before; later starts are
      refused, but only after they restored the sessions; two starts at once both serve and
      one is lost.
    - Serving (main.go [run], [accept], [sweepAbandoned]): the accept loop, the sweeps and the
      stop around the daemon.  A stop leaves no session; one failed accept leaves a daemon
      that nobody reaches.
    - Platforms (process_tree_windows.go, process_tree_events.go and its build for other
      systems, listen_windows.go, limits_windows.go): what the builds differ in.  Without a
      source of process events the ledger stays at what each start found; a pipe answers for
      one daemon.

    A file requires the files of the components it calls.  Flow and Registry are proved over
    Session, Restore over Store and Registry, Control over all of these; Monitor is proved
    against [ProcessTreeWatch] and run on the kqueue watch; StoreAlone relates StoreLocks to
    Store, and Startup runs [Restore.restore] between the token and the socket.  Pipeline
    composes the operations of Session, StoreFeed, Store and Restore and keeps no state of its
    own but what is on the way between them; Serving is proved over the steps of Daemon, and
    Platforms over the interfaces of Monitor.

    ** Bounds and fuel

    [OutputRing.read_once] is one turn of the loop of a read, which Readers repeats without a
    bound.  The two goroutines that end a shell on Windows have at most eight turns together
    ([Windows.turns_left]).  [Registry.issue_loop] has one turn more than
    there are sessions, which [Registry.issued_id_is_fresh] proves enough below 2^64
    sessions.  [ProcessTree.walk] has fuel for each row of the table, and
    [ProcessTree.descendants_of_the_shell] proves that it ends.  The decoder of frames,
    which is part of the specification, has fuel for each byte ([Stream.read_frames_fuel]).
    The goroutine of a closed feed returns within two turns for each chunk it has and two more
    ([Pipeline.closed_feed_runs_out]); a signal makes [run] return in three turns
    ([Serving.runs_left]).
    A program of Threads has no loop, so every schedule of it ends ([Threads.schedules_end]).
    Theorems that speak of output in coordinates assume that it stays below 2^64 bytes and
    say so; sequences and generations wrap where the code lets them.

    ** Not modelled

    - In Windows the calls that end a process or a job are taken to work.  On every platform a
      read or a write of the terminal has no state; what it answers is an argument of the
      session operations.  The package that makes a named pipe is a class of the laws the
      listener relies on ([Platforms.NamedPipes]).
    - In Startup [restore] is one turn, directories are only counted, and what is at the paths
      of the token and the socket is a file or a socket.  In Serving a connection is a number:
      what it asks is a step of Daemon.
    - In Pipeline a call of the store is one step, but for the write of a stop, which is two
      as it lets go of its writer in between; a step may be cut by a crash at any state the
      directory passes through.  A stop that writes back a segment that an append has left is
      excluded there and is StoreRaces; what else lies between the locks of these calls is in
      StoreLocks.
    - [Session.reap] is one step.  In the code it closes the session, waits for the feed, ends
      the ledger's records, removes the files and ends the shell, and only then ends the ring
      and wakes the pump, so that readers may wait that long after the session is closed.  [Daemon.sweep]
      likewise takes sessions out of the registry and reaps them in one step, while
      [endAbandoned] reaps them after it let go of the registry, on a goroutine that a stop
      does not wait for.  Session operations that signal the pump ([ack], the detaches) do it
      in their step; the code does after it released the lock.
    - [Connection.observePrepared] marks an observer ready before the answer is written, as
      the code does, and it stays so when the write fails: ready does not mean that the peer
      has its answer.
    - [Store.PlatformLaws] lets every record be read back as it was written, which of
      encoding/json holds for strings that are valid UTF-8; it replaces others.
    - The texts of errors and the JSON of requests and answers.
    - In Daemon one request is one step, and an operation on the store is one; how requests of
      several connections interleave is modelled where it shows, in
      [Registry.interleaved_opens_give_two_shells] and Arrival. In Monitor a notification of
      the kqueue watch is a step that may happen at any time.
    - In StoreLocks [list] is left out, which takes no lock; a segment that was removed while
      a writer has it open is written to without any name showing it. *)

From Stdlib Require Export ZArith Lia.
From Stdlib Require Strings.Byte Strings.String.
From stdpp Require Export base tactics numbers list gmap strings sorting fin_maps.

#[global] Open Scope Z_scope.

(** ** Record update

    [r <| field := v |>] is the record [r] with one field replaced, which is how an
    assignment [r.field = v] of the source reads in the model.  A record type that
    declares a [Settable] instance (its constructor applied to its own projections)
    gets a setter for each of its fields. *)

Class Settable (R : Type) := rebuild : R -> R.

Class FieldSetter {R T : Type} (field : R -> T) := assign : (T -> T) -> R -> R.

Ltac derive_setter :=
  match goal with
  | |- @FieldSetter ?R ?T ?field =>
      let whole := constr:(@rebuild R _) in
      let body := eval cbv [rebuild] in whole in
      let body := eval hnf in body in
      match eval pattern field in body with
      | ?abstracted _ => exact (fun f => abstracted (fun r => f (field r)))
      end
  end.

#[export] Hint Extern 1 (FieldSetter _) => derive_setter : typeclass_instances.

Declare Scope pty_scope.
Delimit Scope pty_scope with pty.
#[global] Open Scope pty_scope.

Notation "r <| f := v |>" := (assign (field := f) (fun _ => v) r)
  (at level 1, left associativity, format "r  <| f  :=  v |>") : pty_scope.

(** ** Machine integers

    A [uint64] of the source is a [Z] kept in [0, 2^64) with the wrap-around of Go's
    arithmetic written out.  An [int] (a length, a queue depth, a capacity) is a [Z]. *)

Definition two64 : Z := 18446744073709551616.

Definition wrap64 (z : Z) : Z := z mod two64.

Definition add64 (a b : Z) : Z := wrap64 (a + b).

Definition sub64 (a b : Z) : Z := wrap64 (a - b).

Definition is_u64 (z : Z) : Prop := 0 <= z < two64.

Notation "a '+64' b" := (add64 a b) (at level 50, left associativity) : pty_scope.
Notation "a '-64' b" := (sub64 a b) (at level 50, left associativity) : pty_scope.

(** ** Byte strings *)

Abbreviation octets := (list Byte.byte).

(** A byte string written as text. *)
Definition text (s : string) : octets := String.list_byte_of_string s.

(** A byte as a number, and the byte a number converts to. *)
Definition byte_val (b : Byte.byte) : Z := Z.of_N (Byte.to_N b).

Definition byte_of (z : Z) : Byte.byte := default Byte.x00 (Byte.of_N (Z.to_N (z mod 256))).

(** The length of a slice, as the [int] the source computes with. *)
Definition zlen {A} (l : list A) : Z := Z.of_nat (length l).

(** [l[n:]] and [l[:n]] of a Go slice, for an [n] within the slice. *)
Definition slice_from {A} (n : Z) (l : list A) : list A := drop (Z.to_nat n) l.

Definition slice_to {A} (n : Z) (l : list A) : list A := take (Z.to_nat n) l.

(** [l[lo:hi]] of a coordinate range. *)
Definition range {A} (lo hi : Z) (l : list A) : list A := slice_to (hi - lo) (slice_from lo l).

(** The last element of a slice, where the source writes [l[len(l)-1]] behind a
    length test, and the slice without it. *)
Definition slice_init {A} (l : list A) : list A := take (Nat.pred (length l)) l.

#[global] Arguments zlen : simpl never.
#[global] Arguments slice_from : simpl never.
#[global] Arguments slice_to : simpl never.
#[global] Arguments range : simpl never.
#[global] Arguments slice_init : simpl never.
#[global] Arguments add64 : simpl never.
#[global] Arguments sub64 : simpl never.
#[global] Arguments wrap64 : simpl never.

(** ** Arithmetic lemmas *)

Lemma wrap64_small z : is_u64 z -> wrap64 z = z.
Proof. intros H. apply Z.mod_small, H. Qed.

Lemma wrap64_range z : is_u64 (wrap64 z).
Proof. apply Z.mod_pos_bound. done. Qed.

Lemma add64_small a b : is_u64 (a + b) -> a +64 b = a + b.
Proof. apply wrap64_small. Qed.

Lemma sub64_small a b : is_u64 (a - b) -> a -64 b = a - b.
Proof. apply wrap64_small. Qed.

Lemma add64_range a b : is_u64 (a +64 b).
Proof. apply wrap64_range. Qed.

Lemma sub64_range a b : is_u64 (a -64 b).
Proof. apply wrap64_range. Qed.

(** A subtraction that goes below zero wraps to a value near the top of the range. *)
Lemma sub64_underflow a b : is_u64 a -> is_u64 b -> a < b -> a -64 b = a - b + two64.
Proof.
  unfold is_u64, sub64, wrap64. intros Ha Hb Hab.
  rewrite <- (Z.mod_add _ 1 two64) by (unfold two64; lia).
  rewrite Z.mod_small; lia.
Qed.

(** ** Bytes *)

Lemma byte_val_of z : byte_val (byte_of z) = z mod 256.
Proof.
  unfold byte_of, byte_val. pose proof (Z.mod_pos_bound z 256 ltac:(lia)) as Hb.
  destruct (Byte.of_N (Z.to_N (z mod 256))) as [b|] eqn:E; cbn.
  - apply Byte.to_of_N in E. rewrite E. lia.
  - apply Byte.of_N_None_iff in E. lia.
Qed.

Lemma byte_val_range b : 0 <= byte_val b < 256.
Proof. unfold byte_val. pose proof (Byte.to_N_bounded b). lia. Qed.

Lemma byte_of_val b : byte_of (byte_val b) = b.
Proof.
  unfold byte_of. pose proof (byte_val_range b) as Hb. rewrite Z.mod_small by lia. unfold byte_val.
  by rewrite N2Z.id, Byte.of_to_N.
Qed.

(** ** Length lemmas *)

Lemma zlen_nonneg {A} (l : list A) : 0 <= zlen l.
Proof. unfold zlen. lia. Qed.

Lemma zlen_nil {A} : zlen (@nil A) = 0.
Proof. done. Qed.

Lemma zlen_app {A} (l k : list A) : zlen (l ++ k) = zlen l + zlen k.
Proof. unfold zlen. rewrite length_app. lia. Qed.

Lemma zlen_cons {A} (x : A) l : zlen (x :: l) = zlen l + 1.
Proof. unfold zlen. simpl. lia. Qed.

Lemma zlen_slice_from {A} n (l : list A) :
  0 <= n <= zlen l -> zlen (slice_from n l) = zlen l - n.
Proof. unfold zlen, slice_from. intros H. rewrite length_drop. lia. Qed.

Lemma zlen_slice_to {A} n (l : list A) :
  0 <= n <= zlen l -> zlen (slice_to n l) = n.
Proof. unfold zlen, slice_to. intros H. rewrite length_take. lia. Qed.

Lemma zlen_pos_nil {A} (l : list A) : zlen l = 0 <-> l = [].
Proof. unfold zlen. destruct l; simpl; split; intros; try done; lia. Qed.

Lemma slice_from_0 {A} (l : list A) : slice_from 0 l = l.
Proof. done. Qed.

Lemma slice_from_app {A} n (l k : list A) :
  0 <= n <= zlen l -> slice_from n (l ++ k) = slice_from n l ++ k.
Proof.
  unfold zlen, slice_from. intros H. rewrite drop_app_le by lia. done.
Qed.

Lemma slice_from_from {A} n m (l : list A) :
  0 <= n -> 0 <= m -> slice_from m (slice_from n l) = slice_from (n + m) l.
Proof.
  unfold slice_from. intros Hn Hm. rewrite drop_drop. f_equal. lia.
Qed.

Lemma slice_from_all {A} n (l : list A) : zlen l <= n -> slice_from n l = [].
Proof. unfold zlen, slice_from. intros H. apply drop_ge. lia. Qed.

Lemma range_full {A} lo (l : list A) :
  0 <= lo <= zlen l -> range lo (zlen l) l = slice_from lo l.
Proof.
  intros H. unfold range, slice_to. apply take_ge.
  pose proof (zlen_slice_from lo l H). unfold zlen in *. lia.
Qed.

Lemma zlen_range {A} lo hi (l : list A) :
  0 <= lo <= hi -> hi <= zlen l -> zlen (range lo hi l) = hi - lo.
Proof.
  intros H1 H2. unfold range. rewrite zlen_slice_to; [done|].
  rewrite zlen_slice_from; lia.
Qed.

(** Two adjacent ranges concatenate. *)
Lemma range_app {A} lo mid hi (l : list A) :
  0 <= lo <= mid -> mid <= hi -> hi <= zlen l ->
  range lo mid l ++ range mid hi l = range lo hi l.
Proof.
  intros H1 H2 H3. unfold range, slice_to, slice_from.
  replace (Z.to_nat (hi - lo)) with (Z.to_nat (mid - lo) + Z.to_nat (hi - mid))%nat by lia.
  rewrite <- (take_take_drop (drop (Z.to_nat lo) l)). rewrite drop_drop.
  by replace (Z.to_nat lo + Z.to_nat (mid - lo))%nat with (Z.to_nat mid) by lia.
Qed.

(** A range of a prefix is the same range of any extension of it. *)
Lemma range_app_l {A} lo hi (l k : list A) :
  0 <= lo <= hi -> hi <= zlen l -> range lo hi (l ++ k) = range lo hi l.
Proof.
  intros H1 H2. unfold range. rewrite slice_from_app by lia.
  unfold slice_to. rewrite take_app_le; [done|].
  pose proof (zlen_slice_from lo l). unfold zlen in *. lia.
Qed.

(** What an append adds is the range from the old length to the new one. *)
Lemma range_appended {A} (l k : list A) : range (zlen l) (zlen (l ++ k)) (l ++ k) = k.
Proof.
  rewrite range_full by (rewrite zlen_app; pose proof (zlen_nonneg l); pose proof (zlen_nonneg k); lia).
  rewrite slice_from_app by (pose proof (zlen_nonneg l); lia).
  by rewrite slice_from_all by lia.
Qed.

Lemma slice_init_snoc {A} (l : list A) x : slice_init (l ++ [x]) = l.
Proof.
  unfold slice_init. rewrite length_app. simpl.
  replace (Nat.pred (length l + 1)) with (length l) by lia. apply take_app_length.
Qed.

(** ** Automation *)

Create HintDb pty.
#[global] Create Rewrite HintDb ptylen.

#[export] Hint Rewrite @zlen_app @zlen_nil @zlen_cons : ptylen.
#[export] Hint Resolve zlen_nonneg add64_range sub64_range wrap64_range : pty.

(** Close an arithmetic goal about lengths and coordinates. *)
Ltac zsolve :=
  unfold is_u64, two64 in *; autorewrite with ptylen in *;
  repeat match goal with
  | |- context [zlen ?l] =>
      lazymatch goal with H : 0 <= zlen l |- _ => fail | _ => pose proof (zlen_nonneg l) end
  | _ : context [zlen ?l] |- _ =>
      lazymatch goal with H : 0 <= zlen l |- _ => fail | _ => pose proof (zlen_nonneg l) end
  end; lia.

(** Unfold a record update to the record it builds. *)
Ltac fields := cbv [assign] in *; cbn in *.

(** Case on the boolean tests of the source, keeping what they decide. *)
Ltac split_tests :=
  repeat match goal with
  | |- context [Z.ltb ?a ?b] => destruct (Z.ltb_spec a b)
  | |- context [Z.leb ?a ?b] => destruct (Z.leb_spec a b)
  | |- context [Z.eqb ?a ?b] => destruct (Z.eqb_spec a b)
  end.
