(* ===== verification/Threads.v ===== *)
(** * Goroutines that take turns under locks

    A goroutine is a program: calls on what it shares with the others, and the taking and
    giving back of locks, each of which is one turn.  [machine] runs a list of programs in
    any order.  Programs that keep to a [discipline] - what a call asks of the goroutine
    that makes it, and an order in which locks are taken - keep the invariant of the
    discipline, never wait in a circle, and end. *)

From S2P Require Import Prelude.

(** ** Programs *)

(** [act A] is a call that answers an [A]; what a program does after it may depend on the
    answer. *)
Inductive prog (act : Type -> Type) (lock A : Type) : Type :=
| Done (x : A)
| Call (B : Type) (c : act B) (k : B -> prog act lock A)
| Acquire (l : lock) (k : prog act lock A)
| Release (l : lock) (k : prog act lock A).

Arguments Done {act lock A} x.
Arguments Call {act lock A B} c k.
Arguments Acquire {act lock A} l k.
Arguments Release {act lock A} l k.

Section programs.
Context {act : Type -> Type} {lock : Type}.

Fixpoint andThen {A B} (p : prog act lock A) (f : A -> prog act lock B) : prog act lock B :=
  match p with
  | Done x => f x
  | Call c k => Call c (fun x => andThen (k x) f)
  | Acquire l k => Acquire l (andThen k f)
  | Release l k => Release l (andThen k f)
  end.

(** [mu.Lock(); defer mu.Unlock()] around [p]. *)
Definition holding {A} (l : lock) (p : prog act lock A) : prog act lock A :=
  Acquire l (andThen p (fun x => Release l (Done x))).

(** [q] is what is left of [p] after a turn. *)
Definition nearer {A} (q p : prog act lock A) : Prop :=
  match p with
  | Done _ => False
  | Call c k => exists x, q = k x
  | Acquire _ k | Release _ k => q = k
  end.

Lemma nearer_ends {A} (p : prog act lock A) : Acc nearer p.
Proof.
  induction p as [x|B c k IH|l k IH|l k IH]; constructor; intros q Hq; cbn in Hq;
    [done|by destruct Hq as [x ->]|by subst..].
Qed.

End programs.

(** ** The machine *)

Section machine.
Context {act : Type -> Type} {lock : Type} `{Countable lock} {state kind R : Type}.
Context (run : forall B, act B -> state -> state * B).

(** What the goroutines share, who holds which lock, and what is left of each goroutine
    with the kind of operation it was started for. *)
Record machine := mkMachine {
  shared : state;
  locks : gmap lock nat;
  threads : list (kind * prog act lock R)
}.

#[export] Instance machine_settable : Settable machine :=
  fun m => mkMachine (shared m) (locks m) (threads m).

Definition goes_on (t : nat) (k : kind) (p : prog act lock R) (m : machine) : machine :=
  m <| threads := <[t := (k, p)]> (threads m) |>.

(** The turn of goroutine [t]: there is none while it waits for a lock, or at its end. *)
Definition turn (t : nat) (m : machine) : option machine :=
  match (threads m !! t : option (kind * prog act lock R)) with
  | Some (k, Call c next) =>
      let '(s, x) := run _ c (shared m) in Some (goes_on t k (next x) (m <| shared := s |>))
  | Some (k, Acquire l next) =>
      match locks m !! l with
      | None => Some (goes_on t k next (m <| locks := <[l := t]> (locks m) |>))
      | Some _ => None
      end
  | Some (k, Release l next) => Some (goes_on t k next (m <| locks := delete l (locks m) |>))
  | Some (_, Done _) | None => None
  end.

Definition starts (k : kind) (p : prog act lock R) (m : machine) : machine :=
  m <| threads := threads m ++ [(k, p)] |>.

(** The turns of a schedule, a turn that cannot be taken skipped. *)
Fixpoint turns (schedule : list nat) (m : machine) : machine :=
  match schedule with
  | [] => m
  | t :: schedule => turns schedule (default m (turn t m))
  end.

Definition moves (m m' : machine) : Prop := exists t, turn t m = Some m'.

Definition finished (m : machine) : Prop := forall t k p, threads m !! t = Some (k, p) -> exists x, p = Done x.

Definition is_done (p : prog act lock R) : bool := match p with Done _ => true | _ => false end.

Lemma finished_or_not m : finished m \/ exists t k p, threads m !! t = Some (k, p) /\ is_done p = false.
Proof.
  destruct (decide (Forall (fun kp => is_done kp.2 = true) (threads m))) as [Hf|Hf].
  - left. intros t k p Et. pose proof (Forall_lookup_1 _ _ _ _ Hf Et) as Hp.
    destruct p as [x|B c next|l next|l next]; [by exists x|cbn in Hp; congruence..].
  - right. apply not_Forall_Exists, Exists_exists in Hf as ([k p] & (t & Et)%list_elem_of_lookup & Hp); [|apply _].
    exists t, k, p. split; [done|]. by apply not_true_is_false.
Qed.

Lemma turns_moves schedule : forall m, rtc moves m (turns schedule m).
Proof.
  induction schedule as [|t schedule IH]; intros m; [apply rtc_refl|]. cbn.
  destruct (turn t m) as [m'|] eqn:E; cbn; [|apply IH]. apply (rtc_l _ _ m'); [by exists t|apply IH].
Qed.

(** A turn changes the goroutine that takes it and brings it nearer to its end. *)
Lemma turn_nearer t m m' : turn t m = Some m' -> exists k p q, threads m !! t = Some (k, p) /\
  nearer q p /\ threads m' = <[t := (k, q)]> (threads m).
Proof.
  unfold turn. destruct (threads m !! t) as [[k [x|B c next|l next|l next]]|] eqn:Et; try done.
  - destruct (run B c (shared m)) as [s x]. intros [= <-]. exists k, (Call c next), (next x). split_and!; [done|by exists x|done].
  - destruct (locks m !! l); [done|]. intros [= <-]. by exists k, (Acquire l next), next.
  - intros [= <-]. by exists k, (Release l next), next.
Qed.

(** The turns one by one. *)
Lemma turn_asks m t k {B} (c : act B) next s x : threads m !! t = Some (k, Call c next) -> run B c (shared m) = (s, x) ->
  turn t m = Some (mkMachine s (locks m) (<[t := (k, next x)]> (threads m))).
Proof. intros Et Er. unfold turn. by rewrite Et, Er. Qed.

Lemma turn_takes m t k l next : threads m !! t = Some (k, Acquire l next) -> locks m !! l = None ->
  turn t m = Some (mkMachine (shared m) (<[l := t]> (locks m)) (<[t := (k, next)]> (threads m))).
Proof. intros Et El. unfold turn. by rewrite Et, El. Qed.

Lemma turn_gives m t k l next : threads m !! t = Some (k, Release l next) ->
  turn t m = Some (mkMachine (shared m) (delete l (locks m)) (<[t := (k, next)]> (threads m))).
Proof. intros Et. unfold turn. by rewrite Et. Qed.

Lemma turns_ask t schedule m k {B} (c : act B) next s x : threads m !! t = Some (k, Call c next) -> run B c (shared m) = (s, x) ->
  turns (t :: schedule) m = turns schedule (mkMachine s (locks m) (<[t := (k, next x)]> (threads m))).
Proof. intros Et Er. cbn. by rewrite (turn_asks m t k c next s x Et Er). Qed.

(** A program that no other one disturbs. *)
Fixpoint alone {A} (p : prog act lock A) (s : state) : state * A :=
  match p with
  | Done x => (s, x)
  | Call c k => let '(s, x) := run _ c s in alone (k x) s
  | Acquire _ k | Release _ k => alone k s
  end.

Lemma alone_andThen {A B} (p : prog act lock A) (f : A -> prog act lock B) : forall s,
  alone (andThen p f) s = let '(s, x) := alone p s in alone (f x) s.
Proof.
  induction p as [x|C c k IH|l k IH|l k IH]; intros s; cbn; [done| |apply IH..].
  destruct (run C c s) as [s' x]. apply IH.
Qed.

(** [I] of what the program shares, in every state it passes through when it runs alone. *)
Fixpoint passes {A} (I : state -> Prop) (p : prog act lock A) (s : state) : Prop :=
  I s /\
  match p with
  | Done _ => True
  | Call c k => let '(s, x) := run _ c s in passes I (k x) s
  | Acquire _ k | Release _ k => passes I k s
  end.

(** Every call it may make is one of [K]. *)
Fixpoint only {A} (K : forall B, act B -> Prop) (p : prog act lock A) : Prop :=
  match p with
  | Done _ => True
  | Call c k => K _ c /\ forall x, only K (k x)
  | Acquire _ k | Release _ k => only K k
  end.

Lemma only_andThen {A B} K (p : prog act lock A) (f : A -> prog act lock B) :
  only K p -> (forall x, only K (f x)) -> only K (andThen p f).
Proof. induction p as [x|C c k IH|l k IH|l k IH]; cbn; [by intros|intros [Hc Hk] Hf; split; [done|by intros x; apply IH]|auto..]. Qed.

(** Calls that keep [J], then the rest of the program. *)
Lemma passes_then {A B} (K : forall B, act B -> Prop) (I J : state -> Prop) (p : prog act lock A) (f : A -> prog act lock B) :
  (forall s, J s -> I s) -> (forall C (c : act C) s, K _ c -> J s -> J (fst (run C c s))) -> only K p ->
  (forall s x, J s -> passes I (f x) s) -> forall s, J s -> passes I (andThen p f) s.
Proof.
  intros Hi Hk. induction p as [x|C c k IH|l k IH|l k IH]; cbn; [by auto|intros [Hc Hp]|intros Hp|intros Hp]; intros Hf s Hs;
    (split; [by apply Hi|]); [|by apply IH..].
  pose proof (Hk C c s Hc Hs) as Hs'. destruct (run C c s) as [s' x]. by apply IH.
Qed.

Lemma passes_only {A} (K : forall B, act B -> Prop) (I J : state -> Prop) (p : prog act lock A) :
  (forall s, J s -> I s) -> (forall C (c : act C) s, K _ c -> J s -> J (fst (run C c s))) -> only K p ->
  forall s, J s -> passes I p s.
Proof.
  intros Hi Hk. induction p as [x|C c k IH|l k IH|l k IH]; cbn; [by auto|intros [Hc Hp]|intros Hp|intros Hp]; intros s Hs;
    (split; [by apply Hi|]); [|by apply IH..].
  pose proof (Hk C c s Hc Hs) as Hs'. destruct (run C c s) as [s' x]. by apply IH.
Qed.

Lemma alone_holding {A} l (p : prog act lock A) s : alone (holding l p) s = alone p s.
Proof. cbn. rewrite alone_andThen. by destruct (alone p s). Qed.

(** *** Every schedule ends *)

Definition one_nearer (ts' ts : list (kind * prog act lock R)) : Prop :=
  exists t k p q, ts !! t = Some (k, p) /\ nearer q p /\ ts' = <[t := (k, q)]> ts.

Lemma one_nearer_ends ts : Acc one_nearer ts.
Proof.
  induction ts as [|[k p] ts IH].
  { constructor. intros ts' (t & k & p & q & Ht & _). by rewrite lookup_nil in Ht. }
  revert k ts IH. induction (nearer_ends p) as [p _ IHp]. intros k ts Hts.
  induction Hts as [ts Hacc IHts]. constructor. intros ts' (t & k' & p' & q & Ht & Hq & ->).
  destruct t as [|t]; cbn in *.
  - injection Ht as -> ->. apply IHp; [done|]. by constructor.
  - apply IHts. by exists t, k', p', q.
Qed.

Lemma schedules_end m : Acc (flip moves) m.
Proof.
  remember (threads m) as ts eqn:E. revert m E. induction (one_nearer_ends ts) as [ts _ IH]. intros m ->.
  constructor. intros m' [t Ht]. destruct (turn_nearer t m m' Ht) as (k & p & q & Hp & Hq & E).
  apply (IH (threads m')); [by exists t, k, p, q|done].
Qed.

End machine.

(** ** Discipline *)

Section discipline.
Context {act : Type -> Type} {lock : Type} `{Countable lock} {state kind R view : Type}.
Context (run : forall B, act B -> state -> state * B).

(** The order in which locks are taken. *)
Context (rank : lock -> nat).

(** What a goroutine knows is a [view]: it grows by what calls answer and shrinks with a
    lock that is given back.  A call asks for locks and knowledge, and answers only what is
    [plausible]. *)
Context (allowed : kind -> forall B, act B -> gset lock -> view -> Prop)
        (plausible : forall B, act B -> gset lock -> view -> B -> Prop)
        (after : forall B, act B -> B -> gset lock -> view -> view)
        (forget : lock -> view -> view).

Fixpoint safe {A} (k : kind) (h : gset lock) (v : view) (p : prog act lock A) (Q : gset lock -> view -> A -> Prop) : Prop :=
  match p with
  | Done x => Q h v x
  | Call c next => allowed k _ c h v /\ forall x, plausible _ c h v x -> safe k h (after _ c x h v) (next x) Q
  | Acquire l next => (forall l', l' ∈ h -> (rank l' < rank l)%nat) /\ safe k ({[l]} ∪ h) v next Q
  | Release l next => l ∈ h /\ safe k (h ∖ {[l]}) (forget l v) next Q
  end.

Lemma safe_mono {A} k (p : prog act lock A) Q Q' : (forall h v x, Q h v x -> Q' h v x) ->
  forall h v, safe k h v p Q -> safe k h v p Q'.
Proof.
  intros HQ. induction p as [x|B c next IH|l next IH|l next IH]; intros h v; cbn.
  - apply HQ.
  - intros [Ha Hx]. split; [done|]. intros x Hp. by apply IH, Hx.
  - intros [Ha Hx]. split; [done|]. by apply IH.
  - intros [Ha Hx]. split; [done|]. by apply IH.
Qed.

Lemma safe_andThen {A B} k (p : prog act lock A) (f : A -> prog act lock B) Q : forall h v,
  safe k h v p (fun h' v' x => safe k h' v' (f x) Q) -> safe k h v (andThen p f) Q.
Proof.
  induction p as [x|C c next IH|l next IH|l next IH]; intros h v; cbn; [done|..]; intros [Ha Hx]; (split; [done|]).
  - intros x Hp. by apply IH, Hx.
  - by apply IH.
  - by apply IH.
Qed.

Lemma safe_holding {A} k l (p : prog act lock A) h v Q : l ∉ h -> (forall l', l' ∈ h -> (rank l' < rank l)%nat) ->
  safe k ({[l]} ∪ h) v p (fun h' v' x => h' = {[l]} ∪ h /\ Q h (forget l v') x) -> safe k h v (holding l p) Q.
Proof.
  intros Hl Hr Hp. cbn. split; [done|]. apply safe_andThen. revert Hp. apply safe_mono.
  intros h' v' x [-> HQ]. cbn. split; [set_solver|]. by replace (({[l]} ∪ h) ∖ {[l]}) with h by set_solver.
Qed.

(** The invariant speaks of what the goroutines hold and know; [changes] is what a turn of
    a goroutine may do to what is shared. *)
Abbreviation standing := (list (gset lock * view)).

Context (inv : state -> standing -> Prop) (changes : kind -> state -> state -> Prop).

Definition apart (hs : standing) : Prop := forall l t1 t2 h1 v1 h2 v2,
  hs !! t1 = Some (h1, v1) -> hs !! t2 = Some (h2, v2) -> l ∈ h1 -> l ∈ h2 -> t1 = t2.

Record discipline_laws : Prop := {
  law_call : forall k B (c : act B) s hs t h v, inv s hs -> apart hs -> hs !! t = Some (h, v) -> allowed k _ c h v ->
    let '(s', x) := run _ c s in
    plausible _ c h v x /\ inv s' (<[t := (h, after _ c x h v)]> hs) /\ changes k s s';
  law_acquire : forall s hs t h v l, inv s hs -> hs !! t = Some (h, v) -> inv s (<[t := ({[l]} ∪ h, v)]> hs);
  law_release : forall s hs t h v l, inv s hs -> hs !! t = Some (h, v) -> inv s (<[t := (h ∖ {[l]}, forget l v)]> hs);
  law_same : forall k s, changes k s s
}.

Context (laws : discipline_laws).

Definition ends_free (h : gset lock) (v : view) (x : R) : Prop := h = ∅.

(** Every goroutine keeps to the discipline, and [locks] says who holds what. *)
Definition machine_ok (m : machine (act := act) (lock := lock) (state := state) (kind := kind) (R := R)) : Prop := exists hs,
  inv (shared m) hs /\
  Forall2 (fun kp hv => safe kp.1 hv.1 hv.2 kp.2 ends_free) (threads m) hs /\
  forall l t, locks m !! l = Some t <-> exists h v, hs !! t = Some (h, v) /\ l ∈ h.

Lemma held_apart (ls : gmap lock nat) (hs : standing) : (forall l t, ls !! l = Some t <-> exists h v, hs !! t = Some (h, v) /\ l ∈ h) -> apart hs.
Proof.
  intros Hl l t1 t2 h1 v1 h2 v2 H1 H2 L1 L2.
  assert (E1 : ls !! l = Some t1) by (apply Hl; by exists h1, v1).
  assert (E2 : ls !! l = Some t2) by (apply Hl; by exists h2, v2). congruence.
Qed.

(** What a goroutine holds changes with its turn, the others' stays. *)
Lemma held_turn (ls ls' : gmap lock nat) (hs : standing) t h v h' v' : hs !! t = Some (h, v) ->
  (forall l u, ls !! l = Some u <-> exists h v, hs !! u = Some (h, v) /\ l ∈ h) ->
  (forall l, ls' !! l = Some t <-> l ∈ h') -> (forall l u, u <> t -> ls' !! l = Some u <-> ls !! l = Some u) ->
  forall l u, ls' !! l = Some u <-> exists h v, <[t := (h', v')]> hs !! u = Some (h, v) /\ l ∈ h.
Proof.
  intros Ht Hl Hown Hother l u. destruct (decide (u = t)) as [->|Hne].
  - rewrite Hown, list_lookup_insert_eq by (by eapply lookup_lt_Some). split; [intros Hin; by exists h', v'|].
    by intros (? & ? & [= <- <-] & ?).
  - rewrite Hother, Hl by done. by rewrite list_lookup_insert_ne by done.
Qed.

Lemma turn_ok t m m' : machine_ok m -> turn run t m = Some m' ->
  machine_ok m' /\ exists k p, threads m !! t = Some (k, p) /\ changes k (shared m) (shared m').
Proof.
  intros (hs & Hinv & Hsafe & Hlocks) Ht. unfold turn in Ht.
  destruct (threads m !! t) as [[k p]|] eqn:Et; [|done].
  destruct (Forall2_lookup_l _ _ _ t (k, p) Hsafe Et) as ([h v] & Eh & Hp). cbn in Hp.
  assert (Hown : forall l, locks m !! l = Some t <-> l ∈ h).
  { intros l. rewrite Hlocks. split; [intros (? & ? & E & ?); by simplify_eq|intros Hin; by exists h, v]. }
  assert (Hnext : forall h' v' next s ls, inv s (<[t := (h', v')]> hs) -> safe k h' v' next ends_free ->
    (forall l, ls !! l = Some t <-> l ∈ h') -> (forall l u, u <> t -> ls !! l = Some u <-> locks m !! l = Some u) ->
    machine_ok (mkMachine s ls (<[t := (k, next)]> (threads m)))).
  { intros h' v' next s ls Hi Hs H1 H2. exists (<[t := (h', v')]> hs). split; [done|]. split.
    - by apply Forall2_insert.
    - by apply (held_turn (locks m) _ _ _ h v). }
  destruct p as [x|B c next|l next|l next]; [done|..].
  - pose proof (law_call laws k B c _ _ _ _ _ Hinv (held_apart _ _ Hlocks) Eh (proj1 Hp)) as Hc.
    destruct (run B c (shared m)) as [s x]. destruct Hc as (Hx & Hi & Hc). injection Ht as <-.
    split; [|by exists k, (Call c next)]. apply (Hnext h (after _ c x h v)); [done|by apply Hp|done|done].
  - destruct (locks m !! l) eqn:El; [done|]. injection Ht as <-. destruct Hp as [_ Hp].
    split; [|exists k, (Acquire l next); split; [done|apply (law_same laws)]].
    apply (Hnext ({[l]} ∪ h) v); [by apply (law_acquire laws)|done|..].
    + intros l'. cbn. destruct (decide (l' = l)) as [->|Hne]; [rewrite lookup_insert_eq; set_solver|].
      rewrite lookup_insert_ne, Hown by done. set_solver.
    + intros l' u Hu. cbn. destruct (decide (l' = l)) as [->|Hne]; [rewrite lookup_insert_eq, El; split; congruence|].
      by rewrite lookup_insert_ne.
  - injection Ht as <-. destruct Hp as [Hl Hp].
    split; [|exists k, (Release l next); split; [done|apply (law_same laws)]].
    apply (Hnext (h ∖ {[l]}) (forget l v)); [by apply (law_release laws)|done|..].
    + intros l'. cbn. destruct (decide (l' = l)) as [->|Hne]; [rewrite lookup_delete_eq; set_solver|].
      rewrite lookup_delete_ne, Hown by done. set_solver.
    + intros l' u Hu. cbn. destruct (decide (l' = l)) as [->|Hne]; [|by rewrite lookup_delete_ne].
      rewrite lookup_delete_eq. apply Hown in Hl. rewrite Hl. split; congruence.
Qed.

(** A new operation: it holds and knows nothing. *)
Lemma starts_ok k p v0 m : (forall s hs, inv s hs -> inv s (hs ++ [(∅, v0)])) -> safe k ∅ v0 p ends_free ->
  machine_ok m -> machine_ok (starts k p m).
Proof.
  clear laws. intros Harrive Hp (hs & Hinv & Hsafe & Hlocks). exists (hs ++ [(∅, v0)]). split; [by apply Harrive|]. split.
  - apply Forall2_app; [done|]. by constructor.
  - intros l t. cbn. rewrite Hlocks. split.
    + intros (h & v & E & Hin). exists h, v. split; [|done]. by apply lookup_app_l_Some.
    + intros (h & v & [E|[_ E]]%lookup_app_Some & Hin); [by exists h, v|].
      destruct (t - length hs)%nat; [|done]. injection E as <- <-. set_solver.
Qed.

(** *** No circle of goroutines that wait for each other *)

Context (ranks : nat) (ranks_bound : forall l, (rank l < ranks)%nat).

(** A goroutine that waits for a lock of a high rank waits for one that can go on. *)
Lemma waiting_can_go n m t k l next : machine_ok m -> (ranks <= rank l + n)%nat ->
  threads m !! t = Some (k, Acquire l next) -> exists u m', turn run u m = Some m'.
Proof.
  intros Hok. pose proof Hok as (hs & Hinv & Hsafe & Hlocks).
  revert t k l next. induction n as [|n IH]; intros t k l next Hn Et.
  { pose proof (ranks_bound l). lia. }
  destruct (locks m !! l) as [u|] eqn:El; [|exists t; unfold turn; rewrite Et, El; by eexists].
  apply Hlocks in El as (h & v & Eh & Hin).
  destruct (Forall2_lookup_r _ _ _ u (h, v) Hsafe Eh) as ([k' p] & Ep & Hp). cbn in Hp.
  destruct p as [x|B c next'|l' next'|l' next'].
  - unfold ends_free in Hp. cbn in Hp. set_solver.
  - exists u. destruct (run B c (shared m)) as [s x] eqn:E. eexists. unfold turn. rewrite Ep, E. done.
  - destruct Hp as [Hr _]. apply (IH u k' l' next'); [|done]. specialize (Hr l Hin). lia.
  - exists u. eexists. unfold turn. by rewrite Ep.
Qed.

Lemma can_go_on m t k p : machine_ok m -> threads m !! t = Some (k, p) -> is_done p = false ->
  exists u m', turn run u m = Some m'.
Proof.
  intros Hok Et Hp. destruct p as [x|B c next|l next|l next]; [done|..].
  - exists t. destruct (run B c (shared m)) as [s x] eqn:E. eexists. unfold turn. rewrite Et, E. done.
  - by apply (waiting_can_go ranks m t k l next); [|lia|].
  - exists t. eexists. unfold turn. by rewrite Et.
Qed.

(** Left alone the goroutines end, each at the end of its program. *)
Lemma all_end m : machine_ok m -> exists m', rtc (moves run) m m' /\ finished m' /\ machine_ok m'.
Proof.
  intros Hok. induction (schedules_end run m) as [m _ IH].
  destruct (finished_or_not m) as [Hf|(t & k & p & Et & Hp)].
  - exists m. split; [apply rtc_refl|done].
  - destruct (can_go_on m t k p Hok Et Hp) as (u & m1 & Hu). destruct (turn_ok u m m1 Hok Hu) as [Hok1 _].
    destruct (IH m1 (ex_intro _ u Hu) Hok1) as (m' & Hrun & Hm'). exists m'. split; [|done].
    apply (rtc_l _ _ m1); [by exists u|done].
Qed.

(** *** A goroutine while no other one takes a turn *)

(** From [m], whose goroutine [t] is at [p], to the end of [p] as if [p] were alone. *)
Definition runs_to (t : nat) (k : kind) (p : prog act lock R) (s : state)
    (m : machine (act := act) (lock := lock) (state := state) (kind := kind) (R := R)) : Prop := exists m',
  rtc (moves run) m m' /\ machine_ok m' /\ shared m' = fst (alone run p s) /\ locks m' = ∅ /\
  threads m' = <[t := (k, Done (snd (alone run p s)))]> (threads m).

(** No lock is in the hands of another goroutine. *)
Definition unhindered (t : nat) (m : machine (act := act) (lock := lock) (state := state) (kind := kind) (R := R)) : Prop :=
  machine_ok m /\ forall l u, locks m !! l = Some u -> u = t.

Lemma runs_after_turn t k p q s m m1 : unhindered t m -> threads m !! t = Some (k, p) -> turn run t m = Some m1 ->
  threads m1 = <[t := (k, q)]> (threads m) -> (forall l u, locks m1 !! l = Some u -> u = t) ->
  (unhindered t m1 -> threads m1 !! t = Some (k, q) -> runs_to t k q s m1) -> runs_to t k q s m.
Proof.
  intros [Hok _] Et Ht Eq Hmine Hrest. destruct (turn_ok t m m1 Hok Ht) as [Hok1 _].
  destruct Hrest as (m' & Hrun & Hok' & Es & El & Ets); [done|rewrite Eq; apply list_lookup_insert_eq; by eapply lookup_lt_Some|].
  exists m'. split; [by apply (rtc_l _ _ m1); [by exists t|]|]. split_and!; [done..|].
  rewrite Ets, Eq. apply list_insert_insert_eq.
Qed.

(** What goroutine [t] holds it does not ask for again, and at its end it holds nothing. *)
Lemma held_by_itself t k p m l : unhindered t m -> threads m !! t = Some (k, p) -> is_Some (locks m !! l) ->
  match p with Done _ => False | Acquire l' _ => l' <> l | _ => True end.
Proof.
  intros [(hs & _ & Hsafe & Hlocks) Hmine] Et [u El]. pose proof (Hmine l u El) as ->.
  apply Hlocks in El as (h & v & Eh & Hin). destruct (Forall2_lookup_r _ _ _ t (h, v) Hsafe Eh) as ([k' p'] & Ep & Hp).
  rewrite Et in Ep. injection Ep as <- <-. destruct p as [x|B c next|l' next|l' next]; [|done| |done].
  - cbn in Hp. unfold ends_free in Hp. set_solver.
  - intros ->. destruct Hp as [Hr _]. specialize (Hr l Hin). lia.
Qed.

Lemma runs_alone t k p : forall m s, unhindered t m -> threads m !! t = Some (k, p) -> shared m = s -> runs_to t k p s m.
Proof.
  induction p as [x|B c next IH|l next IH|l next IH]; intros m s Hm Et <-.
  - exists m. split_and!; [apply rtc_refl|apply Hm|done| |by rewrite list_insert_id].
    apply map_eq. intros l. rewrite lookup_empty. destruct (locks m !! l) as [u|] eqn:El; [|done].
    destruct (held_by_itself t k _ m l Hm Et); by eexists.
  - unfold runs_to. cbn [alone]. destruct (run B c (shared m)) as [s x] eqn:Er.
    apply (runs_after_turn t k _ (next x) s m (goes_on t k (next x) (m <| shared := s |>)) Hm Et); [|done|apply Hm|].
    + unfold turn. by rewrite Et, Er.
    + intros Hm1 E1. by apply IH.
  - assert (El : locks m !! l = None).
    { destruct (locks m !! l) as [u|] eqn:El; [|done]. destruct (held_by_itself t k _ m l Hm Et); [by eexists|done]. }
    apply (runs_after_turn t k _ next (shared m) m (goes_on t k next (m <| locks := <[l := t]> (locks m) |>)) Hm Et); [|done|..].
    + unfold turn. by rewrite Et, El.
    + cbn. intros l' u [[_ <-]|[_ Hu]]%lookup_insert_Some; [done|]. by apply (proj2 Hm l').
    + intros Hm1 E1. by apply IH.
  - apply (runs_after_turn t k _ next (shared m) m (goes_on t k next (m <| locks := delete l (locks m) |>)) Hm Et); [|done|..].
    + unfold turn. by rewrite Et.
    + cbn. intros l' u [_ Hu]%lookup_delete_Some. by apply (proj2 Hm l').
    + intros Hm1 E1. by apply IH.
Qed.

End discipline.
