(* ===== verification/Decimal.v ===== *)
(** * Numbers as decimal text (the [strconv] calls of the source)

    The daemon writes ids in decimal ([strconv.FormatUint]) into file names and answers and
    reads them back with [strconv.ParseUint] in base 10.  [FormatUint] is stdpp's [pretty];
    [ParseUint] is written out here, and reads back what [FormatUint] wrote. *)

From Stdlib Require Import Strings.Ascii.
From stdpp Require Import pretty.
From S2P Require Import Prelude.

Definition code (c : ascii) : Z := Z.of_nat (nat_of_ascii c).

(** [strconv.FormatUint(n, 10)], of an [n] that is not negative. *)
Definition number (n : Z) : string := pretty n.

(** The value of a run of digits after [value]; [None] for anything else. *)
Fixpoint parse_digits (s : string) (value : Z) : option Z :=
  match s with
  | EmptyString => Some value
  | String c rest =>
      if (48 <=? code c) && (code c <=? 57)
      then parse_digits rest (value * 10 + (code c - 48)) else None
  end.

(** [strconv.ParseUint(s, 10, bits)]; [None] for an error. *)
Definition ParseUint (bits : Z) (s : string) : option Z :=
  if String.eqb s "" then None
  else match parse_digits s 0 with
       | Some value => if value <? 2 ^ bits then Some value else None
       | None => None
       end.

(** ** Reading back *)

Lemma code_digit (n : N) : (n < 10)%N -> code (pretty_N_char n) = 48 + Z.of_N n.
Proof.
  intros Hn. unfold code. assert (Hc : n ∈ [0;1;2;3;4;5;6;7;8;9]%N).
  { rewrite !elem_of_cons. lia. }
  repeat (apply elem_of_cons in Hc as [->|Hc]; [reflexivity|]). by apply not_elem_of_nil in Hc.
Qed.

Lemma parse_go (x : N) : forall s, parse_digits (pretty_N_go x s) 0 = parse_digits s (Z.of_N x).
Proof.
  induction (N.lt_wf_0 x) as [x _ IH]. intros s. destruct (decide (0 < x)%N) as [Hx|Hx].
  - rewrite pretty_N_go_step by done. rewrite IH by (apply N.div_lt; lia). cbn [parse_digits].
    assert (Hm : (x mod 10 < 10)%N) by (apply N.mod_lt; lia). rewrite code_digit by done.
    pose proof (N.div_mod x 10 ltac:(lia)) as Hdm. set (m := (x mod 10)%N) in *. set (q := (x / 10)%N) in *.
    destruct (Z.leb_spec 48 (48 + Z.of_N m)), (Z.leb_spec (48 + Z.of_N m) 57); try lia.
    cbn [andb]. f_equal. lia.
  - assert (x = 0%N) as -> by lia. done.
Qed.

Lemma number_N n : 0 <= n -> number n = pretty (Z.to_N n).
Proof. intros Hn. unfold number. destruct n; [done|done|lia]. Qed.

Lemma parse_number bits n : 0 <= n < 2 ^ bits -> ParseUint bits (number n) = Some n.
Proof.
  intros Hn. rewrite number_N by lia. unfold ParseUint.
  assert (Hd : parse_digits (pretty (Z.to_N n)) 0 = Some n /\ pretty (Z.to_N n) <> ""%string).
  { destruct (decide (Z.to_N n = 0)%N) as [E|E].
    - rewrite E. split; [|done]. assert (n = 0) as -> by lia. reflexivity.
    - unfold pretty, pretty_N. rewrite decide_False by done. split.
      + rewrite parse_go. cbn. f_equal. lia.
      + intros Hnil. pose proof (parse_go (Z.to_N n) "") as Hp. rewrite Hnil in Hp. cbn in Hp.
        injection Hp as Hp. lia. }
  destruct Hd as [-> Hne]. destruct (String.eqb_spec (pretty (Z.to_N n)) ""); [done|].
  by destruct (Z.ltb_spec n (2 ^ bits)); [|lia].
Qed.

(** Nothing but a number in range is read. *)
Lemma parse_range bits s n : ParseUint bits s = Some n -> n < 2 ^ bits.
Proof.
  unfold ParseUint. destruct (String.eqb s ""); [done|]. destruct (parse_digits s 0) as [v|]; [|done].
  destruct (Z.ltb_spec v (2 ^ bits)); [|done]. by intros [= <-].
Qed.

(** ** Prefixes and suffixes (the [strings] calls of the source) *)

Fixpoint cut_prefix (p s : string) : option string :=
  match p, s with
  | EmptyString, _ => Some s
  | String a p, String b s => if Ascii.eqb a b then cut_prefix p s else None
  | String _ _, EmptyString => None
  end.

Fixpoint cut_suffix (p s : string) : option string :=
  if String.eqb s p then Some EmptyString
  else match s with
       | EmptyString => None
       | String c s => String c <$> cut_suffix p s
       end.

Definition HasPrefix (s p : string) : bool := match cut_prefix p s with Some _ => true | None => false end.
Definition HasSuffix (s p : string) : bool := match cut_suffix p s with Some _ => true | None => false end.
Definition TrimPrefix (s p : string) : string := default s (cut_prefix p s).
Definition TrimSuffix (s p : string) : string := default s (cut_suffix p s).

Lemma cut_prefix_app p s : cut_prefix p (p ++ s) = Some s.
Proof. induction p as [|c p IH]; [by destruct s|]. change ((if Ascii.eqb c c then cut_prefix p (p ++ s)%string else None) = Some s). by rewrite Ascii.eqb_refl. Qed.

Lemma length_append a b : String.length (a ++ b)%string = (String.length a + String.length b)%nat.
Proof. induction a as [|c a IH]; [done|]. cbn. by rewrite <- IH. Qed.

Lemma cut_suffix_app p s : cut_suffix p (s ++ p) = Some s.
Proof.
  induction s as [|c s IH].
  - change (("" ++ p)%string) with p. destruct p as [|a p]; cbn [cut_suffix]; by rewrite String.eqb_refl.
  - change ((String c s ++ p)%string) with (String c (s ++ p)%string). cbn [cut_suffix].
    destruct (String.eqb_spec (String c (s ++ p)%string) p) as [E|_].
    + apply (f_equal String.length) in E. cbn in E. rewrite length_append in E. lia.
    + by rewrite IH.
Qed.

Lemma cut_suffix_inv p s x : cut_suffix p s = Some x -> s = (x ++ p)%string.
Proof.
  revert x. induction s as [|c s IH]; intros x; cbn [cut_suffix].
  - destruct (String.eqb_spec "" p) as [<-|]; [|done]. by intros [= <-].
  - destruct (String.eqb_spec (String c s) p) as [<-|]; [by intros [= <-]|].
    destruct (cut_suffix p s) as [y|]; [|done]. intros [= <-]. by rewrite (IH y eq_refl) at 1.
Qed.

Lemma HasPrefix_app p s : HasPrefix (p ++ s) p = true.
Proof. unfold HasPrefix. by rewrite cut_prefix_app. Qed.

Lemma HasSuffix_app p s : HasSuffix (s ++ p) p = true.
Proof. unfold HasSuffix. by rewrite cut_suffix_app. Qed.

Lemma TrimPrefix_app p s : TrimPrefix (p ++ s) p = s.
Proof. unfold TrimPrefix. by rewrite cut_prefix_app. Qed.

Lemma TrimSuffix_app p s : TrimSuffix (s ++ p) p = s.
Proof. unfold TrimSuffix. by rewrite cut_suffix_app. Qed.
