(* ===== verification/Base64.v ===== *)
(** * Bytes as text (the [base64] and [hex] calls of the source)

    Shell input and output travel in JSON as padded base64 ([base64.StdEncoding]); tokens
    are random bytes in hexadecimal ([hex.EncodeToString]).  A decode reads back what was
    encoded. *)

From Stdlib Require Import Strings.Ascii.
From S2P Require Import Prelude Decimal.

Definition alphabet : string := "ABCDEFGHIJKLMNOPQRSTUVWXYZabcdefghijklmnopqrstuvwxyz0123456789+/".

Definition pad : ascii := "="%char.

Definition digit (n : Z) : ascii := default pad (String.get (Z.to_nat n) alphabet).

(** The value of a digit. *)
Definition digit_val (c : ascii) : option Z :=
  let n := code c in
  if (65 <=? n) && (n <=? 90) then Some (n - 65)
  else if (97 <=? n) && (n <=? 122) then Some (n - 71)
  else if (48 <=? n) && (n <=? 57) then Some (n + 4)
  else if n =? 43 then Some 62
  else if n =? 47 then Some 63
  else None.

(** [EncodeToString]. *)
Fixpoint encode (data : octets) : string :=
  match data with
  | [] => EmptyString
  | [a] =>
      let a := byte_val a in
      String (digit (a / 4)) (String (digit (a mod 4 * 16)) (String pad (String pad EmptyString)))
  | [a; b] =>
      let a := byte_val a in let b := byte_val b in
      String (digit (a / 4)) (String (digit (a mod 4 * 16 + b / 16))
        (String (digit (b mod 16 * 4)) (String pad EmptyString)))
  | a :: b :: c :: data =>
      let x := byte_val a in let y := byte_val b in let z := byte_val c in
      String (digit (x / 4)) (String (digit (x mod 4 * 16 + y / 16))
        (String (digit (y mod 16 * 4 + z / 64)) (String (digit (z mod 64)) (encode data))))
  end.

(** Line ends are skipped wherever they stand. *)
Fixpoint without_lines (s : string) : string :=
  match s with
  | EmptyString => EmptyString
  | String c rest => if (code c =? 10) || (code c =? 13) then without_lines rest else String c (without_lines rest)
  end.

Fixpoint decode_quads (s : string) : option octets :=
  match s with
  | EmptyString => Some []
  | String c1 (String c2 (String c3 (String c4 rest))) =>
      match digit_val c1, digit_val c2 with
      | Some p, Some q =>
          let first := byte_of (p * 4 + q / 16) in
          match digit_val c3 with
          | None => if Ascii.eqb c3 pad && Ascii.eqb c4 pad && String.eqb rest "" then Some [first] else None
          | Some r =>
              let second := byte_of (q mod 16 * 16 + r / 4) in
              match digit_val c4 with
              | None => if Ascii.eqb c4 pad && String.eqb rest "" then Some [first; second] else None
              | Some t =>
                  match decode_quads rest with
                  | None => None
                  | Some more => Some (first :: second :: byte_of (r mod 4 * 64 + t) :: more)
                  end
              end
          end
      | _, _ => None
      end
  | _ => None
  end.

(** [DecodeString]. *)
Definition decode (s : string) : option octets := decode_quads (without_lines s).

Definition hex_digit (n : Z) : ascii := default pad (String.get (Z.to_nat n) "0123456789abcdef").

(** [hex.EncodeToString]. *)
Fixpoint hex (data : octets) : string :=
  match data with
  | [] => EmptyString
  | b :: data => String (hex_digit (byte_val b / 16)) (String (hex_digit (byte_val b mod 16)) (hex data))
  end.

(** ** Reading back *)

Lemma digit_reads n : 0 <= n < 64 ->
  digit_val (digit n) = Some n /\ code (digit n) <> 10 /\ code (digit n) <> 13.
Proof.
  intros Hn. assert (Hall : Forall (fun k => digit_val (digit k) = Some k /\ code (digit k) <> 10 /\ code (digit k) <> 13)
    (map Z.of_nat (seq 0 64))).
  { apply (bool_decide_unpack _). vm_compute. exact I. }
  rewrite Forall_forall in Hall. apply Hall. apply list_elem_of_fmap. exists (Z.to_nat n). split; [lia|].
  apply elem_of_seq. lia.
Qed.

Lemma without_digit n s : 0 <= n < 64 -> without_lines (String (digit n) s) = String (digit n) (without_lines s).
Proof.
  intros Hn. destruct (digit_reads n Hn) as (_ & E1 & E2). cbn [without_lines].
  by rewrite (proj2 (Z.eqb_neq _ _) E1), (proj2 (Z.eqb_neq _ _) E2).
Qed.

Ltac sextets := repeat match goal with
  | |- context [byte_val ?b] => lazymatch goal with H : 0 <= byte_val b < 256 |- _ => fail | _ => pose proof (byte_val_range b) end
  end; try (Z.to_euclidean_division_equations; lia).

Lemma without_encode data : without_lines (encode data) = encode data.
Proof.
  induction data as [data IH] using (induction_ltof1 _ length). unfold ltof in IH.
  destruct data as [|a [|b [|c data]]]; cbn [encode]; [done|..];
    rewrite ?without_digit by sextets; [done|done|]. rewrite IH by (cbn; lia). done.
Qed.

Lemma byte_of_is z b : z = byte_val b -> byte_of z = b.
Proof. intros ->. apply byte_of_val. Qed.

Lemma decode_quads_encode data : decode_quads (encode data) = Some data.
Proof.
  induction data as [data IH] using (induction_ltof1 _ length). unfold ltof in IH.
  assert (Hd : forall n, 0 <= n < 64 -> digit_val (digit n) = Some n) by (intros n Hn; by apply digit_reads).
  destruct data as [|a [|b [|c data]]]; cbn [encode decode_quads]; [done|..]; rewrite ?Hd by sextets.
  - cbn. do 2 f_equal. apply byte_of_is. sextets.
  - cbn. do 2 f_equal; [|f_equal]; apply byte_of_is; sextets.
  - rewrite IH by (cbn; lia). do 2 f_equal; [|f_equal; [|f_equal]]; apply byte_of_is; sextets.
Qed.

Lemma decode_encode data : decode (encode data) = Some data.
Proof. unfold decode. rewrite without_encode. apply decode_quads_encode. Qed.

Example encode_hello : encode (text "hello") = "aGVsbG8="%string /\ decode "aGVs bG8=" = None /\ hex (text "az") = "617a"%string.
Proof. vm_compute. done. Qed.
