(* ===== verification/Contract.v ===== *)
(** * The contract packages the daemon is written against

    The daemon imports two packages whose source is not in this repository,
    [soksak-contract-pty] and [soksak-contract-control].  What it uses of them is a
    parameter here: the constants are the fields of the class [PtyContract], what the
    code relies on about them is the class [PtyContractLaws], and the payload structs
    are records with the fields the daemon reads and writes.  [sample_contract] is a
    small concrete contract that satisfies the laws; the witnesses run on it. *)

From S2P Require Import Prelude.

(** ** Constants *)

Class PtyContract := {
  HighWatermark : Z;
  LowWatermark : Z;
  LeaseBufferBytes : Z;
  ObserverBufferBytes : Z;
  DeliveryBatchBytes : Z;
  DeliveryMinHoldBytes : Z;
  ObservationFrameHeaderBytes : Z;
  ObservationOutputMetadataBytes : Z;
  ObservationGapPayloadBytes : Z;
  ObservationResizePayloadBytes : Z;
  ObservationEndPayloadBytes : Z;
  ObservationOpenedPayloadBytes : Z;
  ObservationFrameOutput : Byte.byte;
  ObservationFrameGap : Byte.byte;
  ObservationFrameResize : Byte.byte;
  ObservationFrameEnd : Byte.byte;
  ObservationFrameOpened : Byte.byte;
  ModeResumed : string;
  ModeRestarted : string;
  ProcessStarted : string;
  ProcessUpdated : string;
  ProcessEnded : string
}.

(** What the code relies on: the watermarks are a window, the buffer sizes are sizes,
    the payload sizes are those of the fields the frames carry, the frame kinds and
    the process event kinds tell the cases apart. *)
Class PtyContractLaws `{PtyContract} : Prop := {
  high_watermark_size : 0 < HighWatermark < 9223372036854775808;
  low_watermark_below : 0 <= LowWatermark < HighWatermark;
  lease_buffer_size : 0 <= LeaseBufferBytes < 9223372036854775808;
  header_size : ObservationFrameHeaderBytes = 5;
  output_metadata_size : ObservationOutputMetadataBytes = 24;
  gap_payload_size : ObservationGapPayloadBytes = 32;
  resize_payload_size : ObservationResizePayloadBytes = 12;
  end_payload_size : ObservationEndPayloadBytes = 12;
  opened_payload_size : ObservationOpenedPayloadBytes = 32;
  frame_kinds_distinct :
    NoDup [ObservationFrameOutput; ObservationFrameGap; ObservationFrameResize;
           ObservationFrameEnd; ObservationFrameOpened];
  process_kinds_distinct : NoDup [ProcessStarted; ProcessUpdated; ProcessEnded];
  modes_distinct : ModeResumed <> ModeRestarted
}.

(** ** Payload structs *)

Record OutputObservation := mkOutput {
  EventSequence : Z;
  FromSequence : Z;
  ThroughSequence : Z;
  Bytes : octets
}.

Record GapObservation := mkGap {
  FromEventSequence : Z;
  ThroughEventSequence : Z;
  GapFromSequence : Z;
  GapThroughSequence : Z
}.

Record ResizeObservation := mkResize {
  ResizeEventSequence : Z;
  ResizeCols : Z;
  ResizeRows : Z
}.

Record EndObservation := mkEnd {
  EndEventSequence : Z;
  ExitCode : Z
}.

Record OpenedObservation := mkOpened {
  OpenedSession : Z;
  OpenedGeneration : Z;
  OpenedEventSequence : Z;
  OpenedOutputSequence : Z
}.

Record Observed := mkObserved {
  ObservedSession : Z;
  ObservedGeneration : Z;
  StartEventSequence : Z;
  StartOutputSequence : Z
}.

Record Process := mkProcess {
  ID : string;
  Owner : string;
  Window : option string;
  Pane : option string;
  CWD : string;
  PID : Z;
  ParentPID : Z;
  Command : string;
  State : string;
  StartedAtUnixMs : Z;
  EndedAtUnixMs : option Z
}.

Record ProcessEvent := mkProcessEvent {
  Revision : Z;
  Kind : string;
  EventProcess : Process
}.

Record ProcessInventory := mkProcessInventory {
  InventoryRevision : Z;
  Processes : list Process
}.

#[export] Instance Process_settable : Settable Process :=
  fun p => mkProcess (ID p) (Owner p) (Window p) (Pane p) (CWD p) (PID p) (ParentPID p)
                     (Command p) (State p) (StartedAtUnixMs p) (EndedAtUnixMs p).
#[export] Instance OutputObservation_settable : Settable OutputObservation :=
  fun o => mkOutput (EventSequence o) (FromSequence o) (ThroughSequence o) (Bytes o).
#[export] Instance GapObservation_settable : Settable GapObservation :=
  fun g => mkGap (FromEventSequence g) (ThroughEventSequence g) (GapFromSequence g)
                 (GapThroughSequence g).

#[export] Instance byte_eq_dec : EqDecision Byte.byte := Byte.byte_eq_dec.
#[export] Instance OutputObservation_eq_dec : EqDecision OutputObservation.
Proof. solve_decision. Defined.
#[export] Instance Process_eq_dec : EqDecision Process.
Proof. solve_decision. Defined.
#[export] Instance ProcessEvent_eq_dec : EqDecision ProcessEvent.
Proof. solve_decision. Defined.
#[export] Instance GapObservation_eq_dec : EqDecision GapObservation.
Proof. solve_decision. Defined.
#[export] Instance ResizeObservation_eq_dec : EqDecision ResizeObservation.
Proof. solve_decision. Defined.
#[export] Instance EndObservation_eq_dec : EqDecision EndObservation.
Proof. solve_decision. Defined.
#[export] Instance OpenedObservation_eq_dec : EqDecision OpenedObservation.
Proof. solve_decision. Defined.

(** ** A concrete contract *)

(** The watermarks are given, the rest is small. *)
Definition contract_with (high low : Z) : PtyContract := {|
  HighWatermark := high;
  LowWatermark := low;
  LeaseBufferBytes := 16;
  ObserverBufferBytes := 12;
  DeliveryBatchBytes := 6;
  DeliveryMinHoldBytes := 3;
  ObservationFrameHeaderBytes := 5;
  ObservationOutputMetadataBytes := 24;
  ObservationGapPayloadBytes := 32;
  ObservationResizePayloadBytes := 12;
  ObservationEndPayloadBytes := 12;
  ObservationOpenedPayloadBytes := 32;
  ObservationFrameOutput := Byte.x01;
  ObservationFrameGap := Byte.x02;
  ObservationFrameResize := Byte.x03;
  ObservationFrameEnd := Byte.x04;
  ObservationFrameOpened := Byte.x05;
  ModeResumed := "resumed";
  ModeRestarted := "restarted";
  ProcessStarted := "started";
  ProcessUpdated := "updated";
  ProcessEnded := "ended"
|}.

Lemma contract_with_laws high low : 0 < high < 9223372036854775808 -> 0 <= low < high -> @PtyContractLaws (contract_with high low).
Proof. intros Hh Hl. constructor; simpl; try lia; try done; apply (bool_decide_unpack _); vm_compute; exact I. Defined.

Definition sample_contract : PtyContract := contract_with 8 2.

Lemma sample_contract_laws : @PtyContractLaws sample_contract.
Proof. apply contract_with_laws; lia. Defined.

(** One with a window of a mebibyte. *)
Definition wide_contract : PtyContract := contract_with 1048576 262144.

Lemma wide_contract_laws : @PtyContractLaws wide_contract.
Proof. apply contract_with_laws; lia. Defined.
