(* ===== verification/OutputRing.v ===== *)
(** * The output ring (ring.go)

    One session's retained output: a byte tail, the sequence its first byte carries,
    the snapshot leases that hold the floor back, and the readers parked for more.
    The abstract specification is the session's whole output, a list that only
    grows: a ring [represents] a history when it holds exactly its suffix from
    [floor].  The theorems state every operation against that history. *)

From S2P Require Import Prelude Contract.

(** ** State *)

Record ringLease := mkLease {
  after : Z;
  broken : bool
}.

(** [bytes] to [leases] are the fields of the source's struct.  [closedChans] and
    [madeChans] are the heap of the waiter channels: the ones closed so far, and how
    many were made, which names the next one. *)
Record ring := mkRing {
  bytes : octets;
  floor : Z;
  capacity : Z;
  acked : Z;
  waiters : list nat;
  ended : bool;
  leases : gmap string ringLease;
  closedChans : gset nat;
  madeChans : nat
}.

#[export] Instance ring_settable : Settable ring :=
  fun r => mkRing (bytes r) (floor r) (capacity r) (acked r) (waiters r) (ended r)
                  (leases r) (closedChans r) (madeChans r).

#[export] Instance ringLease_eq_dec : EqDecision ringLease.
Proof. solve_decision. Defined.

(** [floor+len(bytes)], the sequence the next byte will carry. *)
Definition live (r : ring) : Z := floor r +64 zlen (bytes r).

(** ** Operations *)

Section operations.
Context `{PtyContract}.

Definition newRing (cap : Z) : ring :=
  let cap := if cap <=? 0 then HighWatermark else cap in
  mkRing [] 0 cap 0 [] false ∅ ∅ 0.

(** The loop of [trimLocked] over the leases.  Go leaves the iteration order of a map
    open, so the keys are an argument in some order; [trim_loop_order] shows that the
    order does not matter. *)
Fixpoint trim_loop (at_live : Z) (keys : list string) (held : gmap string ringLease)
    (targetFloor : Z) : gmap string ringLease * Z :=
  match keys with
  | [] => (held, targetFloor)
  | token :: keys =>
      match held !! token with
      | None => trim_loop at_live keys held targetFloor
      | Some lease =>
          if broken lease || (targetFloor <=? after lease)
          then trim_loop at_live keys held targetFloor
          else if LeaseBufferBytes <? at_live -64 after lease
          then trim_loop at_live keys (<[token := mkLease (after lease) true]> held) targetFloor
          else trim_loop at_live keys held (after lease)
      end
  end.

Definition lease_keys (r : ring) : list string := (map_to_list (leases r)).*1.

Definition trimLocked (r : ring) : ring :=
  let at_live := live r in
  let targetFloor := if capacity r <? at_live then at_live -64 capacity r else 0 in
  let '(held, targetFloor) := trim_loop at_live (lease_keys r) (leases r) targetFloor in
  let r := r <| leases := held |> in
  if floor r <? targetFloor then
    let overflow := targetFloor -64 floor r in
    r <| bytes := slice_from overflow (bytes r) |> <| floor := targetFloor |>
  else r.

Definition restore (data : octets) (through : Z) (r : ring) : ring :=
  let through := if through <? zlen data then zlen data else through in
  let data := if capacity r <? zlen data
              then slice_from (zlen data - capacity r) data else data in
  trimLocked (r <| bytes := data |> <| floor := through -64 zlen data |>).

Definition wakeLocked (r : ring) : ring :=
  r <| closedChans := list_to_set (waiters r) ∪ closedChans r |> <| waiters := [] |>.

Definition write (data : octets) (r : ring) : ring * Z :=
  let r := trimLocked (r <| bytes := bytes r ++ data |>) in
  let next := floor r +64 zlen (bytes r) in
  (wakeLocked r, next).

Definition lease (token : string) (from : Z) (r : ring) : ring * bool :=
  if (from <? floor r) || (live r <? from) then (r, false)
  else (r <| leases := <[token := mkLease from false]> (leases r) |>, true).

Inductive lease_error := NoLease | LeaseBroken.

Definition consumeLease (token : string) (r : ring) : ring * (Z + lease_error) :=
  match leases r !! token with
  | None => (r, inr NoLease)
  | Some l =>
      let r := r <| leases := delete token (leases r) |> in
      if broken l || (after l <? floor r) then (trimLocked r, inr LeaseBroken)
      else (trimLocked r, inl (after l))
  end.

Definition expireLease (token : string) (r : ring) : ring :=
  trimLocked (r <| leases := delete token (leases r) |>).

Definition end_ring (r : ring) : ring := wakeLocked (r <| ended := true |>).

Definition resolve (from : option Z) (r : ring) : Z * string :=
  match from with
  | None => (live r, ModeResumed)
  | Some from =>
      if from <? floor r then (floor r, ModeRestarted)
      else if live r <? from then (floor r, ModeRestarted)
      else (from, ModeResumed)
  end.

(** One turn of the loop in [read]: it answers with bytes, with the end of the
    session, or it parks the reader on a fresh channel at the position it reached. *)
Inductive read_turn :=
| ReadBytes (out : octets) (next : Z)
| ReadEnded (at_ : Z)
| ReadParked (waiter : nat) (at_ : Z).

Definition read_once (at_ : Z) (r : ring) : ring * read_turn :=
  let at_ := if at_ <? floor r then floor r else at_ in
  if at_ <? live r then (r, ReadBytes (slice_from (at_ -64 floor r) (bytes r)) (live r))
  else if ended r then (r, ReadEnded at_)
  else
    let waiter := madeChans r in
    (r <| madeChans := S waiter |> <| waiters := waiters r ++ [waiter] |>,
     ReadParked waiter at_).

Definition state (r : ring) : Z * Z := (acked r, zlen (bytes r)).

Definition snapshot (r : ring) : Z * Z * octets := (floor r, live r, bytes r).

Definition ack (throughSeq : Z) (r : ring) : ring :=
  if acked r <? throughSeq then r <| acked := throughSeq |> else r.

Definition paused (written : Z) (r : ring) : bool :=
  let outstanding := written -64 acked r in HighWatermark <=? outstanding.

Definition resumed (written : Z) (r : ring) : bool :=
  written -64 acked r <=? LowWatermark.

End operations.

#[global] Arguments trimLocked : simpl never.
#[global] Arguments wakeLocked : simpl never.
#[global] Arguments write : simpl never.
#[global] Arguments read_once : simpl never.

(** ** Specification *)

(** The coordinates are in range and no live lease is behind the floor. *)
Record coords_ok (r : ring) : Prop := {
  floor_nonneg : 0 <= floor r;
  live_bound : floor r + zlen (bytes r) < two64;
  capacity_pos : 0 < capacity r < 9223372036854775808;
  leases_ahead : forall token l, leases r !! token = Some l -> broken l = false ->
    floor r <= after l <= floor r + zlen (bytes r)
}.

(** Retention is bounded by the window, or by what a lease may hold back. *)
Definition ring_wf `{PtyContract} (r : ring) : Prop :=
  coords_ok r /\ zlen (bytes r) <= Z.max (capacity r) LeaseBufferBytes.

(** The ring holds the suffix of [hist] that starts at its floor. *)
Definition represents (hist : octets) (r : ring) : Prop :=
  zlen hist = floor r + zlen (bytes r) /\ bytes r = slice_from (floor r) hist.

(** A ring that is well formed and holds the suffix of a history. *)
Definition ring_ok `{PtyContract} (hist : octets) (r : ring) : Prop := ring_wf r /\ represents hist r.

(** A lease of a ring whose live edge is [at_live] and whose window starts at [target]:
    one that would hold the floor further back than a lease may is broken. *)
Definition breaks `{PtyContract} (at_live target : Z) (l : ringLease) : bool :=
  negb (broken l) && (after l <? target) && (LeaseBufferBytes <? at_live - after l).

Definition holds_back `{PtyContract} (at_live target : Z) (l : ringLease) : bool :=
  negb (broken l) && (after l <? target) && negb (LeaseBufferBytes <? at_live - after l).

Definition after_trim `{PtyContract} (at_live target : Z) (l : ringLease) : ringLease :=
  if breaks at_live target l then mkLease (after l) true else l.

Definition leases_before (at_live : Z) (held : gmap string ringLease) : Prop :=
  forall token l, held !! token = Some l -> broken l = false -> 0 <= after l <= at_live.

(** The operations another connection may run on the ring of a session, a lease's
    own token aside. *)
Inductive ring_op :=
| OpWrite (data : octets)
| OpLease (token : string) (from : Z)
| OpConsume (token : string)
| OpExpire (token : string)
| OpAck (throughSeq : Z)
| OpRead (at_ : Z)
| OpEnd.

Definition apply_op `{PtyContract} (op : ring_op) (r : ring) : ring :=
  match op with
  | OpWrite data => fst (write data r)
  | OpLease token from => fst (lease token from r)
  | OpConsume token => fst (consumeLease token r)
  | OpExpire token => expireLease token r
  | OpAck throughSeq => ack throughSeq r
  | OpRead at_ => fst (read_once at_ r)
  | OpEnd => end_ring r
  end.

Definition apply_ops `{PtyContract} (ops : list ring_op) (r : ring) : ring :=
  fold_left (fun r op => apply_op op r) ops r.

Definition op_output (op : ring_op) : octets :=
  match op with OpWrite data => data | _ => [] end.

Definition ops_output (ops : list ring_op) : octets := concat (map op_output ops).

Definition op_token (op : ring_op) : option string :=
  match op with
  | OpLease token _ | OpConsume token | OpExpire token => Some token
  | _ => None
  end.

(** What the trim loop over [keys] has to leave behind: every lease it visits becomes its
    [after_trim], and the target is the least position of those that hold it back. *)
Record trimmed `{PtyContract} (at_live target0 : Z) (keys : list string)
    (held : gmap string ringLease) (target : Z)
    (held' : gmap string ringLease) (target' : Z) : Prop := {
  visited_leases : forall k, k ∈ keys -> held' !! k = after_trim at_live target0 <$> held !! k;
  other_leases : forall k, k ∉ keys -> held' !! k = held !! k;
  target_falls : target' <= target;
  target_below : forall k l, k ∈ keys -> held !! k = Some l ->
    holds_back at_live target0 l = true -> target' <= after l;
  target_reached : target' = target \/ exists k l, k ∈ keys /\ held !! k = Some l /\
    holds_back at_live target0 l = true /\ target' = after l
}.

(** A lease on [from] is in the ring, unbroken unless the output went further past it
    than a lease may hold back. *)
Definition lease_at `{PtyContract} (token : string) (from through : Z) (r : ring) : Prop :=
  exists l, leases r !! token = Some l /\ after l = from /\
    (broken l = true -> LeaseBufferBytes < through - from).

(** A target the loop can be at: the one it started from, or the position of a lease
    within the retention budget. *)
Definition target_ok `{PtyContract} (at_live target0 target : Z) : Prop :=
  target = target0 \/ target <= target0 /\ at_live - target <= LeaseBufferBytes.

(** Where the window of [capacity] bytes begins. *)
Definition window (r : ring) : Z :=
  if capacity r <? floor r + zlen (bytes r)
  then floor r + zlen (bytes r) - capacity r else 0.

(** What [trimLocked] does to a ring, in one record. *)
Record trim_result `{PtyContract} (r r' : ring) : Prop := {
  trim_capacity : capacity r' = capacity r;
  trim_acked : acked r' = acked r;
  trim_waiters : waiters r' = waiters r;
  trim_ended : ended r' = ended r;
  trim_closed : closedChans r' = closedChans r;
  trim_made : madeChans r' = madeChans r;
  trim_forward : floor r <= floor r' <= floor r + zlen (bytes r);
  trim_keeps_window : floor r' <= Z.max (floor r) (window r);
  trim_bound : floor r + zlen (bytes r) - floor r' <= Z.max (capacity r) LeaseBufferBytes;
  trim_bytes : bytes r' = slice_from (floor r' - floor r) (bytes r);
  trim_leases : forall k, leases r' !! k =
    after_trim (floor r + zlen (bytes r)) (window r) <$> leases r !! k;
  trim_ahead : forall k l, leases r' !! k = Some l -> broken l = false -> floor r' <= after l
}.

(** ** The trim loop *)

Ltac case_loop :=
  match goal with |- context [trim_loop ?a ?b ?c ?d] => destruct (trim_loop a b c d) end.

Section trim.
Context `{PtyContract}.
Context (at_live target0 : Z).

Lemma trimmed_nil held target : trimmed at_live target0 [] held target held target.
Proof.
  constructor; [by intros k ?%elem_of_nil|done|lia|by intros k l ?%elem_of_nil|by left].
Qed.

(** The loop passes over a lease that neither breaks nor lowers the target. *)
Lemma trimmed_keep token keys held target held' target' :
  token ∉ keys ->
  (forall l, held !! token = Some l -> after_trim at_live target0 l = l /\
    (holds_back at_live target0 l = true -> target <= after l)) ->
  trimmed at_live target0 keys held target held' target' ->
  trimmed at_live target0 (token :: keys) held target held' target'.
Proof.
  intros Hnin Hkeep [Hv Ho Hf Hb Hr]. constructor.
  - intros k [->|Hk]%elem_of_cons; [|by apply Hv]. rewrite Ho by done.
    destruct (held !! token) as [l|]; simpl; [|done]. by rewrite (proj1 (Hkeep l eq_refl)).
  - intros k [_ Hk]%not_elem_of_cons. by apply Ho.
  - done.
  - intros k l [->|Hk]%elem_of_cons Hl Hh; [|by eapply Hb].
    pose proof (proj2 (Hkeep l Hl) Hh). lia.
  - destruct Hr as [->|(k & l & Hk & Hrest)]; [by left|right].
    exists k, l. split; [by apply elem_of_cons; right|done].
Qed.

(** The loop breaks a lease. *)
Lemma trimmed_break token keys held target l held' target' :
  token ∉ keys -> held !! token = Some l -> breaks at_live target0 l = true ->
  trimmed at_live target0 keys (<[token := mkLease (after l) true]> held) target held' target' ->
  trimmed at_live target0 (token :: keys) held target held' target'.
Proof.
  intros Hnin Hl Hbk [Hv Ho Hf Hb Hr].
  assert (Hne : forall k, k ∈ keys -> <[token := mkLease (after l) true]> held !! k = held !! k).
  { intros k Hk. apply lookup_insert_ne. by intros ->. }
  constructor.
  - intros k [->|Hk]%elem_of_cons; [|rewrite Hv, Hne by done; done].
    rewrite Ho, lookup_insert_eq, Hl by done; simpl. unfold after_trim. by rewrite Hbk.
  - intros k [Hkt Hk]%not_elem_of_cons. rewrite Ho by done. by apply lookup_insert_ne.
  - done.
  - intros k x [->|Hk]%elem_of_cons Hx Hh; [|rewrite <- Hne in Hx by done; by eapply Hb].
    exfalso. rewrite Hl in Hx. injection Hx as <-. unfold breaks, holds_back in *.
    destruct (broken l), (after l <? target0), (LeaseBufferBytes <? at_live - after l); done.
  - destruct Hr as [->|(k & x & Hk & Hx & Hrest)]; [by left|right].
    rewrite Hne in Hx by done. exists k, x. split; [by apply elem_of_cons; right|done].
Qed.

(** The loop lowers the target to a lease it keeps. *)
Lemma trimmed_lower token keys held target l held' target' :
  token ∉ keys -> held !! token = Some l -> breaks at_live target0 l = false ->
  holds_back at_live target0 l = true -> after l <= target ->
  trimmed at_live target0 keys held (after l) held' target' ->
  trimmed at_live target0 (token :: keys) held target held' target'.
Proof.
  intros Hnin Hl Hbk Hh Hle [Hv Ho Hf Hb Hr]. constructor.
  - intros k [->|Hk]%elem_of_cons; [|by apply Hv].
    rewrite Ho, Hl by done; simpl. unfold after_trim. by rewrite Hbk.
  - intros k [_ Hk]%not_elem_of_cons. by apply Ho.
  - lia.
  - intros k x [->|Hk]%elem_of_cons Hx Hhx; [simplify_eq; lia|by eapply Hb].
  - right. destruct Hr as [->|(k & x & Hk & Hrest)].
    + exists token, l. split_and!; [by left|done..].
    + exists k, x. split; [by apply elem_of_cons; right|done].
Qed.

Hypothesis live_u64 : is_u64 at_live.

Lemma trim_turn target l :
  0 <= after l <= at_live -> target_ok at_live target0 target -> broken l = false -> after l < target ->
  (LeaseBufferBytes <? at_live -64 after l) = breaks at_live target0 l /\
  holds_back at_live target0 l = negb (breaks at_live target0 l).
Proof.
  intros Hl Ht Hb Hlt. unfold breaks, holds_back, target_ok in *. rewrite Hb; simpl.
  rewrite sub64_small by zsolve.
  destruct (Z.ltb_spec (after l) target0); simpl; [done|lia].
Qed.

Lemma trim_skip target l :
  target_ok at_live target0 target -> broken l = true \/ target <= after l ->
  after_trim at_live target0 l = l /\ (holds_back at_live target0 l = true -> target <= after l).
Proof.
  unfold target_ok, after_trim, breaks, holds_back. intros Ht Hor.
  destruct (broken l); simpl; [done|]. destruct Hor as [?|Hle]; [done|].
  split; [|done]. destruct (Z.ltb_spec (after l) target0); simpl; [|done].
  destruct (Z.ltb_spec LeaseBufferBytes (at_live - after l)); [lia|done].
Qed.

Lemma trim_loop_char keys : forall held target,
  leases_before at_live held -> NoDup keys -> target_ok at_live target0 target ->
  let '(held', target') := trim_loop at_live keys held target in
  trimmed at_live target0 keys held target held' target'.
Proof.
  induction keys as [|token keys IH]; intros held target Hb Hnd Ht; simpl; [apply trimmed_nil|].
  apply NoDup_cons in Hnd as [Hnin Hnd]. pose proof (IH held target Hb Hnd Ht) as IHsame.
  destruct (held !! token) as [l|] eqn:El.
  2: { case_loop. apply trimmed_keep; [done|intros; congruence|done]. }
  destruct (broken l) eqn:Ebr; simpl.
  { case_loop. apply trimmed_keep; [done| |done].
    intros ? ?. simplify_eq. apply trim_skip; auto. }
  pose proof (Hb token l El Ebr) as Hrange.
  destruct (Z.leb_spec target (after l)) as [Hle|Hlt].
  { case_loop. apply trimmed_keep; [done| |done].
    intros ? ?. simplify_eq. apply trim_skip; auto. }
  destruct (trim_turn target l Hrange Ht Ebr Hlt) as [-> Hholds].
  destruct (breaks at_live target0 l) eqn:Ebk.
  - set (held1 := <[token := mkLease (after l) true]> held).
    assert (Hb1 : leases_before at_live held1).
    { intros k x [[_ <-]|[_ Hk]]%lookup_insert_Some Hx; [done|eauto]. }
    pose proof (IH held1 target Hb1 Hnd Ht). case_loop.
    by apply (trimmed_break token keys held target l).
  - assert (Hok : target_ok at_live target0 (after l)).
    { unfold target_ok, breaks in *. rewrite Ebr in Ebk; simpl in Ebk.
      destruct (Z.ltb_spec (after l) target0), (Z.ltb_spec LeaseBufferBytes (at_live - after l));
        try done; destruct Ht as [->|?]; lia. }
    pose proof (IH held (after l) Hb Hnd Hok). case_loop.
    by apply (trimmed_lower token keys held target l); [..|lia|].
Qed.

End trim.

Lemma trimmed_unique `{PtyContract} at_live target0 keys keys' held target h1 t1 h2 t2 :
  keys ≡ₚ keys' ->
  trimmed at_live target0 keys held target h1 t1 ->
  trimmed at_live target0 keys' held target h2 t2 -> (h1, t1) = (h2, t2).
Proof.
  intros Hperm [Hv1 Ho1 Hf1 Hb1 Hr1] [Hv2 Ho2 Hf2 Hb2 Hr2].
  assert (Hin : forall k, k ∈ keys <-> k ∈ keys') by (intros; by rewrite Hperm).
  f_equal.
  - apply map_eq. intros k. destruct (decide (k ∈ keys)) as [Hk|Hk].
    + by rewrite Hv1, Hv2 by (done || by apply Hin).
    + by rewrite Ho1, Ho2 by (done || by rewrite <- Hin).
  - destruct Hr1 as [->|(k1 & l1 & Hk1 & Hl1 & Hh1 & ->)],
      Hr2 as [->|(k2 & l2 & Hk2 & Hl2 & Hh2 & ->)]; [done| | |].
    + apply Hin in Hk2. pose proof (Hb1 k2 l2 Hk2 Hl2 Hh2). lia.
    + apply Hin in Hk1. pose proof (Hb2 k1 l1 Hk1 Hl1 Hh1). lia.
    + apply Hin in Hk1, Hk2. pose proof (Hb1 k2 l2 Hk2 Hl2 Hh2).
      pose proof (Hb2 k1 l1 Hk1 Hl1 Hh1). lia.
Qed.

(** ** Trimming *)

Lemma live_eq r : coords_ok r -> live r = floor r + zlen (bytes r).
Proof. intros [? ? ? ?]. unfold live. apply add64_small. zsolve. Qed.

Lemma lease_keys_in r k : k ∈ lease_keys r <-> is_Some (leases r !! k).
Proof.
  unfold lease_keys. rewrite list_elem_of_fmap. split.
  - intros ([k' l] & -> & Hin%elem_of_map_to_list). by exists l.
  - intros [l Hl]. exists (k, l). split; [done|]. by apply elem_of_map_to_list.
Qed.

Lemma lease_keys_nodup r : NoDup (lease_keys r).
Proof. apply NoDup_fst_map_to_list. Qed.

Lemma trimmed_all `{PtyContract} at_live target0 r target held' target' :
  trimmed at_live target0 (lease_keys r) (leases r) target held' target' ->
  forall k, held' !! k = after_trim at_live target0 <$> leases r !! k.
Proof.
  intros [Hv Ho _ _ _] k. destruct (decide (k ∈ lease_keys r)) as [Hk|Hk]; [by apply Hv|].
  rewrite Ho by done. rewrite lease_keys_in in Hk. by destruct (leases r !! k); [destruct Hk|].
Qed.

Lemma after_trim_kept `{PtyContract} at_live target0 l :
  broken (after_trim at_live target0 l) = false ->
  after_trim at_live target0 l = l /\ broken l = false /\
  (after l < target0 -> holds_back at_live target0 l = true).
Proof.
  unfold after_trim, breaks, holds_back.
  destruct (broken l) eqn:E; simpl; [by rewrite E|].
  destruct (Z.ltb_spec (after l) target0); simpl; [|intros _; split_and!; [done..|lia]].
  by destruct (LeaseBufferBytes <? at_live - after l); simpl; rewrite ?E.
Qed.

Section trimming.
Context `{PtyContractLaws}.

Lemma trimLocked_result r : coords_ok r -> trim_result r (trimLocked r).
Proof.
  intros Hok. pose proof (live_eq r Hok) as Hlive. destruct Hok as [Hf Hb Hc Hl].
  unfold trimLocked. rewrite Hlive. clear Hlive.
  assert (Hw : (if capacity r <? floor r + zlen (bytes r)
    then (floor r + zlen (bytes r)) -64 capacity r else 0) = window r).
  { unfold window. split_tests; [|done]. by rewrite sub64_small by zsolve. }
  rewrite Hw. set (L := floor r + zlen (bytes r)) in *.
  assert (HL : is_u64 L) by (unfold L; zsolve).
  assert (floor r <= L) by (unfold L; zsolve).
  assert (Hbefore : leases_before L (leases r)) by (intros k l E1 E2; specialize (Hl k l E1 E2); lia).
  assert (Hok0 : target_ok L (window r) (window r)) by by left.
  pose proof (trim_loop_char L (window r) HL (lease_keys r) (leases r) (window r)
    Hbefore (lease_keys_nodup r) Hok0) as Hloop.
  case_loop; rename g into held', z into target'.
  pose proof (trimmed_all _ _ _ _ _ _ Hloop) as Hleases. destruct Hloop as [Hv Ho Hfall Hbelow Hreach].
  assert (Hwin : window r <= Z.max 0 (L - capacity r) /\ L - capacity r <= window r).
  { unfold window. fold L. split_tests; lia. }
  assert (Hahead : forall k l, held' !! k = Some l -> broken l = false ->
    target' <= after l /\ floor r <= after l).
  { intros k l Hk Hbr. rewrite Hleases in Hk. destruct (leases r !! k) as [l0|] eqn:E; [|done].
    simpl in Hk. injection Hk as <-. destruct (after_trim_kept _ _ _ Hbr) as (-> & Hbr0 & Hh).
    specialize (Hl k l0 E Hbr0). split; [|lia].
    destruct (Z.lt_ge_cases (after l0) (window r)) as [Hlt|?]; [|lia].
    apply (Hbelow k l0); [apply lease_keys_in; by eexists|done|auto]. }
  assert (Hlow : L - target' <= Z.max (capacity r) LeaseBufferBytes /\ target' <= L).
  { split; [|unfold L in *; pose proof (zlen_nonneg (bytes r)); lia].
    destruct Hreach as [->|(k & l & _ & Hkl & Hh & ->)]; [lia|].
    unfold holds_back in Hh. rewrite !andb_true_iff, !negb_true_iff in Hh.
    destruct Hh as [[_ _] Hh%Z.ltb_ge]. lia. }
  cbv [assign]; cbn. split_tests; cbn.
  - rewrite sub64_small by (unfold L in *; zsolve).
    constructor; cbn; fold L; try done; try lia. intros k l Hk Hbr. by apply (Hahead k l).
  - constructor; cbn; fold L; try done; try lia; [|intros k l Hk Hbr; by apply (Hahead k l)].
    by replace (floor r - floor r) with 0 by lia.
Qed.

Lemma trim_result_wf r r' : coords_ok r -> trim_result r r' -> ring_wf r'.
Proof.
  intros [Hf Hb Hc Hl] []. 
  assert (Hz : zlen (bytes r') = floor r + zlen (bytes r) - floor r').
  { rewrite trim_bytes0, zlen_slice_from; lia. }
  split; [constructor|]; rewrite ?trim_capacity0; try lia.
  intros k l Hk Hbr. split; [by eapply trim_ahead0|].
  rewrite trim_leases0 in Hk. destruct (leases r !! k) as [l0|] eqn:E; [|done].
  simpl in Hk. injection Hk as <-. destruct (after_trim_kept _ _ _ Hbr) as (-> & Hbr0 & _).
  specialize (Hl k l0 E Hbr0). lia.
Qed.

Lemma trim_result_live r r' : coords_ok r -> trim_result r r' -> live r' = live r.
Proof.
  intros Hok Ht. pose proof (trim_result_wf r r' Hok Ht) as [Hok' _].
  rewrite (live_eq r), (live_eq r') by done. destruct Hok, Ht.
  rewrite trim_bytes0, zlen_slice_from; lia.
Qed.

Lemma trim_result_represents hist r r' :
  coords_ok r -> trim_result r r' -> represents hist r -> represents hist r'.
Proof.
  intros Hok Ht [Hh1 Hh2]. destruct Hok, Ht. unfold represents.
  rewrite trim_bytes0, zlen_slice_from by lia. split; [lia|].
  rewrite Hh2, slice_from_from by lia. f_equal. lia.
Qed.

End trimming.

(** ** Every operation keeps the ring well formed and true to its history *)

Section preservation.
Context `{PtyContractLaws}.

Lemma ring_ok_live hist r : ring_ok hist r -> live r = zlen hist.
Proof. intros [[Hok _] [Hl _]]. rewrite live_eq by done. by rewrite Hl. Qed.

Lemma trim_ok hist r : coords_ok r -> represents hist r -> ring_ok hist (trimLocked r).
Proof.
  intros Hok Hr. pose proof (trimLocked_result r Hok) as Ht.
  split; [by eapply trim_result_wf|by eapply trim_result_represents].
Qed.

Lemma ring_ok_fields hist r r' :
  bytes r' = bytes r -> floor r' = floor r -> capacity r' = capacity r -> leases r' = leases r ->
  ring_ok hist r -> ring_ok hist r'.
Proof.
  intros E1 E2 E3 E4 [[[] ?] []]. split; [split; [constructor|]|split];
    rewrite ?E1, ?E2, ?E3, ?E4; done.
Qed.

Lemma coords_ok_delete r token :
  coords_ok r -> coords_ok (r <| leases := delete token (leases r) |>).
Proof.
  intros []. constructor; fields; [done..|].
  intros k l [_ Hk]%lookup_delete_Some. by apply (leases_ahead0 k).
Qed.

Lemma wake_ok hist r : ring_ok hist r -> ring_ok hist (wakeLocked r).
Proof. by apply ring_ok_fields. Qed.

Lemma appended_ok hist data r :
  ring_ok hist r -> zlen hist + zlen data < two64 ->
  coords_ok (r <| bytes := bytes r ++ data |>) /\
  represents (hist ++ data) (r <| bytes := bytes r ++ data |>).
Proof.
  intros [[[Hf Hb Hc Hl] _] [Hh1 Hh2]] Hlen. split.
  - constructor; fields; [done|zsolve|done|].
    intros k l Hk Hbr. specialize (Hl k l Hk Hbr). zsolve.
  - unfold represents. fields. split; [zsolve|].
    rewrite slice_from_app, <- Hh2; [done|zsolve].
Qed.

Lemma write_ok hist data r :
  ring_ok hist r -> zlen hist + zlen data < two64 ->
  ring_ok (hist ++ data) (fst (write data r)) /\ snd (write data r) = zlen (hist ++ data).
Proof.
  intros Hok Hlen. destruct (appended_ok hist data r Hok Hlen) as [Hc Hr].
  pose proof (trim_ok _ _ Hc Hr) as Ht. unfold write. cbn [fst snd]. split; [by apply wake_ok|].
  fold (live (trimLocked (r <| bytes := bytes r ++ data |>))). by apply ring_ok_live.
Qed.

Lemma lease_ok hist token from r :
  ring_ok hist r -> ring_ok hist (fst (lease token from r)).
Proof.
  intros Hok. pose proof (ring_ok_live hist r Hok) as Hlive. unfold lease. rewrite Hlive.
  destruct (Z.ltb_spec from (floor r)); [done|].
  destruct (Z.ltb_spec (zlen hist) from); [done|]. cbn.
  destruct Hok as [[[Hf Hb Hc Hl] Hret] [Hh1 Hh2]].
  split; [split; [constructor|]|split]; fields; try done.
  intros k l [[_ <-]|[_ Hk]]%lookup_insert_Some Hbr; [cbn; lia|by apply (Hl k)].
Qed.

Lemma consume_ok hist token r :
  ring_ok hist r -> ring_ok hist (fst (consumeLease token r)).
Proof.
  intros Hok. unfold consumeLease. destruct (leases r !! token) as [l|]; [|done].
  assert (ring_ok hist (trimLocked (r <| leases := delete token (leases r) |>))).
  { destruct Hok as [[Hc _] Hr]. apply trim_ok; [by apply coords_ok_delete|done]. }
  by destruct (_ || _).
Qed.

Lemma expire_ok hist token r : ring_ok hist r -> ring_ok hist (expireLease token r).
Proof. intros [[Hc _] Hr]. apply trim_ok; [by apply coords_ok_delete|done]. Qed.

Lemma ack_ok hist throughSeq r : ring_ok hist r -> ring_ok hist (ack throughSeq r).
Proof. intros Hok. unfold ack. destruct (_ <? _); [|done]. by eapply ring_ok_fields; [..|exact Hok]. Qed.

Lemma read_ok hist at_ r : ring_ok hist r -> ring_ok hist (fst (read_once at_ r)).
Proof.
  intros Hok. unfold read_once. destruct (_ <? live r), (ended r); try done.
  by eapply ring_ok_fields; [..|exact Hok].
Qed.

Lemma end_ok hist r : ring_ok hist r -> ring_ok hist (end_ring r).
Proof. intros Hok. apply wake_ok. by eapply ring_ok_fields; [..|exact Hok]. Qed.

Lemma apply_op_ok hist op r :
  ring_ok hist r -> zlen hist + zlen (op_output op) < two64 ->
  ring_ok (hist ++ op_output op) (apply_op op r).
Proof.
  intros Hok Hlen. destruct op; cbn in *; rewrite ?app_nil_r;
    auto using lease_ok, consume_ok, expire_ok, ack_ok, read_ok, end_ok.
  by apply write_ok.
Qed.

Lemma apply_ops_ok ops : forall hist r,
  ring_ok hist r -> zlen hist + zlen (ops_output ops) < two64 ->
  ring_ok (hist ++ ops_output ops) (apply_ops ops r).
Proof.
  induction ops as [|op ops IH]; intros hist r Hok Hlen.
  - by rewrite app_nil_r.
  - cbn in *. unfold ops_output in *. cbn in *. rewrite app_assoc.
    apply IH; [apply apply_op_ok; [done|]|]; zsolve.
Qed.

Lemma newRing_ok cap :
  cap < 9223372036854775808 -> ring_ok [] (newRing cap) /\ 0 < capacity (newRing cap).
Proof.
  intros Hcap. pose proof high_watermark_size. unfold newRing.
  split; [split; [split; [constructor|]|done]|]; cbn; try done; split_tests; try zsolve.
Qed.

End preservation.

#[export] Hint Resolve lease_ok consume_ok expire_ok ack_ok read_ok end_ok wake_ok : pty.

(** ** Leases over a session's traffic *)

Section lease_traffic.
Context `{PtyContractLaws}.

Lemma trim_lease_at hist token from r :
  coords_ok r -> represents hist r ->
  lease_at token from (zlen hist) r -> lease_at token from (zlen hist) (trimLocked r).
Proof.
  intros Hok [Hh _] (l & Hl & Ha & Hb). destruct (trimLocked_result r Hok).
  exists (after_trim (zlen hist) (window r) l).
  rewrite trim_leases0, Hl, <- Hh; simpl. split; [done|].
  unfold after_trim, breaks. destruct (broken l) eqn:E; simpl; [by rewrite E|].
  destruct (after l <? window r), (Z.ltb_spec LeaseBufferBytes (zlen hist - after l)); simpl;
    rewrite ?E; split; try done; intros; congruence || lia.
Qed.

Lemma lease_at_later token from through through' r :
  through <= through' -> lease_at token from through r -> lease_at token from through' r.
Proof. intros Hle (l & Hl & Ha & Hb). exists l. split_and!; [done..|]. intros E. specialize (Hb E). lia. Qed.

Lemma lease_at_fields token from through r r' :
  leases r' !! token = leases r !! token ->
  lease_at token from through r -> lease_at token from through r'.
Proof. intros E (l & Hl & Hrest). exists l. by rewrite E. Qed.

Lemma apply_op_lease_at hist token from op r :
  ring_ok hist r -> zlen hist + zlen (op_output op) < two64 -> op_token op <> Some token ->
  lease_at token from (zlen hist) r ->
  lease_at token from (zlen (hist ++ op_output op)) (apply_op op r).
Proof.
  intros Hok Hlen Htok Hat.
  assert (Hat' : lease_at token from (zlen (hist ++ op_output op)) r)
    by (eapply lease_at_later; [|exact Hat]; zsolve).
  destruct op; cbn in *; rewrite ?app_nil_r in *.
  - destruct (appended_ok hist data r Hok Hlen) as [Hc Hr]. by apply trim_lease_at.
  - unfold lease. destruct (_ || _); [done|].
    eapply lease_at_fields; [|exact Hat]. cbn. apply lookup_insert_ne. congruence.
  - unfold consumeLease. destruct (leases r !! token0) as [l|]; [|done].
    assert (lease_at token from (zlen hist) (trimLocked (r <| leases := delete token0 (leases r) |>))).
    { destruct Hok as [[Hc _] Hr]. apply trim_lease_at; [by apply coords_ok_delete|done|].
      eapply lease_at_fields; [|exact Hat]. cbn. apply lookup_delete_ne. congruence. }
    by destruct (_ || _).
  - destruct Hok as [[Hc _] Hr]. apply trim_lease_at; [by apply coords_ok_delete|done|].
    eapply lease_at_fields; [|exact Hat]. cbn. apply lookup_delete_ne. congruence.
  - unfold ack. by destruct (_ <? _).
  - unfold read_once. by destruct (_ <? live r), (ended r).
  - done.
Qed.

Lemma apply_ops_lease_at token from ops : forall hist r,
  ring_ok hist r -> zlen hist + zlen (ops_output ops) < two64 ->
  Forall (fun op => op_token op <> Some token) ops ->
  lease_at token from (zlen hist) r ->
  lease_at token from (zlen (hist ++ ops_output ops)) (apply_ops ops r).
Proof.
  induction ops as [|op ops IH]; intros hist r Hok Hlen Hall Hat.
  - by rewrite app_nil_r.
  - apply Forall_cons in Hall as [Hop Hall]. unfold ops_output in *. cbn in *.
    rewrite app_assoc.
    apply IH; [apply apply_op_ok; [done|]| |done|apply apply_op_lease_at; [done| |done..]]; zsolve.
Qed.

End lease_traffic.

(** ** Reading against the history *)

Section reading.
Context `{PtyContractLaws}.

Lemma read_once_spec hist at_ r : ring_ok hist r -> 0 <= at_ ->
  snd (read_once at_ r) =
    let at_ := Z.max at_ (floor r) in
    if at_ <? zlen hist then ReadBytes (slice_from at_ hist) (zlen hist)
    else if ended r then ReadEnded at_ else ReadParked (madeChans r) at_.
Proof.
  intros Hok Hat. unfold read_once. rewrite (ring_ok_live hist r Hok).
  destruct Hok as [[[Hf Hb Hc Hl] _] [Hh1 Hh2]].
  replace (if at_ <? floor r then floor r else at_) with (Z.max at_ (floor r)) by (split_tests; lia).
  cbn. destruct (Z.ltb_spec (Z.max at_ (floor r)) (zlen hist)); [|by destruct (ended r)].
  cbn. rewrite sub64_small by zsolve. f_equal. rewrite Hh2 at 1.
  rewrite slice_from_from by lia. f_equal. lia.
Qed.

Lemma trim_no_leases r : coords_ok r -> leases r = ∅ ->
  floor (trimLocked r) = Z.max (floor r) (window r).
Proof.
  intros Hok He. pose proof (live_eq r Hok) as Hlive. destruct Hok as [Hf Hb Hc _].
  unfold trimLocked. rewrite Hlive. unfold lease_keys. rewrite He, map_to_list_empty. cbn.
  unfold window. destruct (Z.ltb_spec (capacity r) (floor r + zlen (bytes r))).
  - rewrite sub64_small by zsolve. split_tests; cbn; lia.
  - split_tests; cbn; lia.
Qed.

Lemma represents_suffix pre data r :
  bytes r = data -> floor r = zlen pre -> represents (pre ++ data) r.
Proof.
  intros <- Hf. unfold represents. rewrite Hf. split; [zsolve|].
  rewrite slice_from_app by zsolve. by rewrite slice_from_all.
Qed.

End reading.

(** ** The ring's contract *)

Section theorems.
Context `{PtyContractLaws}.

(** [write] appends to the history and answers the sequence the next byte will
    carry; the floor never goes back, and never past the last [capacity] bytes. *)
Theorem write_appends_history hist data r :
  ring_ok hist r -> zlen hist + zlen data < two64 ->
  let '(r', next) := write data r in
  ring_ok (hist ++ data) r' /\ next = zlen (hist ++ data) /\
  floor r <= floor r' <= Z.max (floor r) (zlen (hist ++ data) - capacity r).
Proof.
  intros Hok Hlen. destruct (write_ok hist data r Hok Hlen) as [Hok' Hnext].
  destruct (appended_ok hist data r Hok Hlen) as [Hc [Hh _]].
  destruct (trimLocked_result _ Hc) as [_ _ _ _ _ _ [Hfwd _] Hkeep _ _ _ _].
  destruct (write data r) as [r' next] eqn:E.
  unfold write in E. injection E as <- _. split_and!; [done..|exact Hfwd|].
  destruct Hok as [[[] _] _]. etransitivity; [exact Hkeep|].
  revert Hh. unfold window. cbn. split_tests; lia.
Qed.

(** The order in which [trimLocked] meets the leases, which Go leaves open, changes
    neither which leases break nor where the floor goes. *)
Theorem trim_loop_order at_live target keys keys' held :
  is_u64 at_live -> leases_before at_live held -> NoDup keys -> keys ≡ₚ keys' ->
  trim_loop at_live keys held target = trim_loop at_live keys' held target.
Proof.
  intros Hlive Hb Hnd Hperm. assert (NoDup keys') by by rewrite <- Hperm.
  assert (Hok : target_ok at_live target target) by by left.
  pose proof (trim_loop_char at_live target Hlive keys held target Hb Hnd Hok).
  pose proof (trim_loop_char at_live target Hlive keys' held target Hb ltac:(done) Hok).
  destruct (trim_loop at_live keys held target) as [h1 t1], (trim_loop at_live keys' held target) as [h2 t2].
  by apply (trimmed_unique at_live target keys keys' held target).
Qed.

(** Whatever the other connections do to the ring, a lease is answered with the
    position it was taken at, still retained, or refused because the output went past
    that position by more than [LeaseBufferBytes]. *)
Theorem lease_outcome hist token from r r1 ops :
  ring_ok hist r -> lease token from r = (r1, true) ->
  Forall (fun op => op_token op <> Some token) ops ->
  zlen hist + zlen (ops_output ops) < two64 ->
  let hist2 := hist ++ ops_output ops in
  let r2 := apply_ops ops r1 in
  (snd (consumeLease token r2) = inl from /\ floor r2 <= from <= zlen hist2) \/
  (snd (consumeLease token r2) = inr LeaseBroken /\ LeaseBufferBytes < zlen hist2 - from).
Proof.
  intros Hok Hlease Hops Hlen hist2 r2.
  pose proof (lease_ok hist token from r Hok) as Hok1. rewrite Hlease in Hok1; cbn in Hok1.
  assert (Hat : lease_at token from (zlen hist) r1).
  { unfold lease in Hlease. destruct (_ || _); [done|]. injection Hlease as <-.
    exists (mkLease from false). cbn. by rewrite lookup_insert_eq. }
  pose proof (apply_ops_ok ops hist r1 Hok1 Hlen) as Hok2. fold hist2 r2 in Hok2.
  destruct (apply_ops_lease_at token from ops hist r1 Hok1 Hlen Hops Hat) as (l & Hl & Ha & Hb).
  fold hist2 r2 in Hl, Hb. unfold consumeLease. rewrite Hl.
  destruct (broken l) eqn:Ebr; cbn; [by right; auto|].
  destruct Hok2 as [[[_ _ _ Hahead] _] [Hh _]]. specialize (Hahead token l Hl Ebr).
  destruct (Z.ltb_spec (after l) (floor r2)); cbn; [lia|left]. split; [congruence|lia].
Qed.

(** Consuming the last lease drops the bytes it held back before they are read.
    The answer names the leased position, and the next read from it starts
    [capacity] bytes behind the live edge instead. *)
Theorem consumed_lease_gap hist token from r :
  ring_ok hist r -> leases r = {[token := mkLease from false]} ->
  from < zlen hist - capacity r ->
  let '(r', answer) := consumeLease token r in
  answer = inl from /\ from < floor r' /\
  snd (read_once from r') = ReadBytes (slice_from (zlen hist - capacity r) hist) (zlen hist).
Proof.
  intros Hok He Hfrom. pose proof (consume_ok hist token r Hok) as Hok'. revert Hok'.
  destruct Hok as [[Hc _] [Hh _]].
  assert (Hahead : floor r <= from).
  { apply (leases_ahead r Hc token (mkLease from false)); [|done]. by rewrite He, lookup_singleton_eq. }
  unfold consumeLease. rewrite He, lookup_singleton_eq. cbn.
  destruct (Z.ltb_spec from (floor r)); [lia|]. cbn. intros Hok'.
  assert (Hempty : delete token ({[token := mkLease from false]} : gmap string ringLease) = ∅)
    by by rewrite delete_singleton_eq.
  rewrite Hempty in *.
  assert (Hc1 : coords_ok (r <| leases := ∅ |>))
    by (destruct Hc; constructor; cbn; [done..|by intros ? ? ?%lookup_empty_Some]).
  pose proof (trim_no_leases _ Hc1 eq_refl) as Hfloor.
  destruct Hc as [? ? ? _].
  unfold window in Hfloor. cbn in Hfloor.
  destruct (Z.ltb_spec (capacity r) (floor r + zlen (bytes r))); [|lia].
  split_and!; [done|lia|]. rewrite (read_once_spec hist) by (done || lia). cbn.
  rewrite Hfloor, <- Hh.
  replace (Z.max from (Z.max (floor r) (zlen hist - capacity r)))
    with (zlen hist - capacity r) by lia.
  by destruct (Z.ltb_spec (zlen hist - capacity r) (zlen hist)); [|lia].
Qed.

(** What [resolve] answers an attaching client is served exactly: a resumed client
    reads on from the byte it stopped at, a restarted one from the floor, and one that
    names no position from the live edge. *)
Theorem attach_reads_on hist from r :
  ring_ok hist r -> match from with None => True | Some from => 0 <= from end ->
  let '(start, mode) := resolve from r in
  floor r <= start <= zlen hist /\
  (mode = ModeResumed <->
    match from with None => True | Some from => floor r <= from <= zlen hist end) /\
  (mode = ModeResumed -> start = default (zlen hist) from) /\
  (mode = ModeRestarted -> start = floor r) /\
  (start < zlen hist -> exists out,
    snd (read_once start r) = ReadBytes out (zlen hist) /\ slice_to start hist ++ out = hist).
Proof.
  intros Hok Hfrom. pose proof (ring_ok_live hist r Hok) as Hlive.
  pose proof modes_distinct as Hmodes.
  assert (Hserve : forall start, floor r <= start <= zlen hist -> start < zlen hist ->
    exists out, snd (read_once start r) = ReadBytes out (zlen hist) /\ slice_to start hist ++ out = hist).
  { intros start Hs Hlt. assert (0 <= start) by (destruct Hok as [[[] _] _]; lia).
    exists (slice_from start hist). split; [|apply take_drop].
    rewrite (read_once_spec hist) by done. cbn. rewrite Z.max_l by lia.
    by destruct (Z.ltb_spec start (zlen hist)); [|lia]. }
  assert (floor r <= zlen hist) by (destruct Hok as [[[] _] [Hh _]]; zsolve).
  unfold resolve. rewrite Hlive. destruct from as [from|]; cbn.
  - assert (Hrestart : ~ floor r <= from <= zlen hist ->
      floor r <= floor r <= zlen hist /\ (ModeRestarted = ModeResumed <-> floor r <= from <= zlen hist) /\
      (ModeRestarted = ModeResumed -> floor r = from) /\ (ModeRestarted = ModeRestarted -> floor r = floor r) /\
      (floor r < zlen hist -> exists out, snd (read_once (floor r) r) = ReadBytes out (zlen hist) /\
        slice_to (floor r) hist ++ out = hist)).
    { intros Hout. split_and!; [lia|lia|split; [congruence|done]|congruence|done|]. apply Hserve; lia. }
    destruct (Z.ltb_spec from (floor r)); [apply Hrestart; lia|].
    destruct (Z.ltb_spec (zlen hist) from); [apply Hrestart; lia|].
    split_and!; [lia|lia|done|done|congruence|]. apply Hserve; lia.
  - split_and!; [lia|lia|done|done|congruence|lia].
Qed.

(** A restored ring stands at the coordinate the session had reached, or at the
    length of its output when that coordinate is behind it, and holds the tail its
    window can serve. *)
Lemma restored_ring cap pre data through :
  cap < 9223372036854775808 -> zlen pre + zlen data < two64 ->
  zlen pre + zlen data = Z.max through (zlen data) ->
  let r := restore data through (newRing cap) in
  ring_ok (pre ++ data) r /\ live r = Z.max through (zlen data) /\
  zlen (bytes r) = Z.min (zlen data) (capacity r).
Proof.
  intros Hcap Hlen Hthrough. destruct (newRing_ok cap Hcap) as [_ Hpos].
  assert (Hc63 : capacity (newRing cap) < 9223372036854775808).
  { pose proof high_watermark_size. unfold newRing; cbn. split_tests; lia. }
  unfold restore. set (c := capacity (newRing cap)) in *.
  replace (if through <? zlen data then zlen data else through) with (zlen pre + zlen data)
    by (split_tests; lia).
  set (kept := if c <? zlen data then slice_from (zlen data - c) data else data).
  assert (Hkept : exists cut, data = cut ++ kept /\ zlen kept = Z.min (zlen data) c).
  { unfold kept. destruct (Z.ltb_spec c (zlen data)).
    - exists (slice_to (zlen data - c) data). split; [symmetry; apply take_drop|].
      rewrite zlen_slice_from; lia.
    - exists []. split; [done|]. lia. }
  destruct Hkept as (cut & Hcut & Hk).
  assert (Hz : zlen data = zlen cut + zlen kept) by (rewrite Hcut at 1; zsolve).
  rewrite sub64_small by zsolve. set (r0 := _ <| floor := _ |>).
  assert (Hc0 : coords_ok r0).
  { constructor; unfold r0; fields; fold c; [zsolve..|by intros ? ? ?%lookup_empty_Some]. }
  assert (Hr0 : represents (pre ++ data) r0).
  { rewrite Hcut, app_assoc. apply represents_suffix; unfold r0; fields; [done|zsolve]. }
  pose proof (trim_ok _ _ Hc0 Hr0) as Hok. pose proof (trimLocked_result r0 Hc0) as Ht.
  split_and!; [done|rewrite (ring_ok_live _ _ Hok); zsolve|].
  destruct Ht. rewrite trim_bytes0, trim_capacity0.
  pose proof (trim_no_leases r0 Hc0 eq_refl) as Hfl. unfold window, r0 in *. fields. fold c in Hfl |- *.
  rewrite zlen_slice_from; rewrite Hfl; split_tests; zsolve.
Qed.

(** C28: from a new ring, any traffic leaves the ring well formed, holding exactly the
    suffix of everything written from its floor on, and never more than the window or
    what a lease may hold back. *)
Theorem traffic_keeps_ring cap ops :
  cap < 9223372036854775808 -> zlen (ops_output ops) < two64 ->
  let r := apply_ops ops (newRing cap) in
  ring_wf r /\ bytes r = slice_from (floor r) (ops_output ops) /\
  live r = zlen (ops_output ops) /\
  zlen (bytes r) <= Z.max (capacity r) LeaseBufferBytes.
Proof.
  intros Hcap Hlen r. destruct (newRing_ok cap Hcap) as [Hok _].
  pose proof (apply_ops_ok ops [] (newRing cap) Hok Hlen) as Hok'. cbn in Hok'. fold r in Hok'.
  pose proof (ring_ok_live _ _ Hok'). destruct Hok' as [Hwf [? ?]]. split_and!; try done. apply Hwf.
Qed.

End theorems.

(** ** Witnesses, on the sample contract *)

#[local] Existing Instance sample_contract.
#[local] Existing Instance sample_contract_laws.

Lemma sample_ring_ok ops :
  zlen (ops_output ops) < two64 -> ring_ok (ops_output ops) (apply_ops ops (newRing 4)).
Proof. intros Hlen. apply (apply_ops_ok ops [] (newRing 4)); [by apply newRing_ok|done]. Qed.


Lemma lease_outcome_witness :
  let r := apply_ops [OpWrite (text "abcd")] (newRing 4) in
  let r2 := apply_ops [OpWrite (text "efgh"); OpRead 0] (fst (lease "t" 2 r)) in
  (snd (consumeLease "t" r2) = inl 2 /\ floor r2 <= 2 <= zlen (text "abcdefgh")) \/
  (snd (consumeLease "t" r2) = inr LeaseBroken /\ LeaseBufferBytes < zlen (text "abcdefgh") - 2).
Proof.
  apply (lease_outcome (text "abcd") "t" 2 (apply_ops [OpWrite (text "abcd")] (newRing 4))
    (fst (lease "t" 2 (apply_ops [OpWrite (text "abcd")] (newRing 4))))
    [OpWrite (text "efgh"); OpRead 0]).
  - apply (sample_ring_ok [OpWrite (text "abcd")]). reflexivity.
  - reflexivity.
  - repeat constructor; discriminate.
  - reflexivity.
Defined.

Lemma consumed_lease_gap_witness :
  let r := apply_ops [OpWrite (text "abcd"); OpLease "t" 2; OpWrite (text "efgh")] (newRing 4) in
  let '(r', answer) := consumeLease "t" r in
  answer = inl 2 /\ 2 < floor r' /\ snd (read_once 2 r') = ReadBytes (text "efgh") 8.
Proof.
  apply (consumed_lease_gap (text "abcdefgh")); [|reflexivity|reflexivity].
  apply (sample_ring_ok [OpWrite (text "abcd"); OpLease "t" 2; OpWrite (text "efgh")]). reflexivity.
Defined.

Lemma attach_reads_on_witness :
  let r := apply_ops [OpWrite (text "abcdef")] (newRing 4) in
  let '(start, mode) := resolve (Some 3) r in
  floor r <= start <= 6 /\ (mode = ModeResumed <-> floor r <= 3 <= 6) /\
  (mode = ModeResumed -> start = 3) /\ (mode = ModeRestarted -> start = floor r) /\
  (start < 6 -> exists out,
    snd (read_once start r) = ReadBytes out 6 /\ slice_to start (text "abcdef") ++ out = text "abcdef").
Proof.
  apply (attach_reads_on (text "abcdef") (Some 3)); [|discriminate].
  apply (sample_ring_ok [OpWrite (text "abcdef")]). reflexivity.
Defined.

Lemma traffic_keeps_ring_witness :
  let ops := [OpWrite (text "abcd"); OpLease "t" 2; OpWrite (text "efgh"); OpConsume "t"] in
  let r := apply_ops ops (newRing 4) in
  ring_wf r /\ bytes r = slice_from (floor r) (ops_output ops) /\ 
  live r = zlen (ops_output ops) /\ zlen (bytes r) <= Z.max (capacity r) LeaseBufferBytes.
Proof.
  apply (traffic_keeps_ring 4
    [OpWrite (text "abcd"); OpLease "t" 2; OpWrite (text "efgh"); OpConsume "t"]); reflexivity.
Defined.
