(* ===== verification/Readers.v ===== *)
(** * Readers parked on a ring (ring.go [read], [wakeLocked], [end]; stream.go [deliver])

    Each attached stream has a goroutine that calls [read] in a loop.  [read] takes the
    ring's lock once per turn, and between two turns it may be parked on a channel that
    [write] or [end] closes.  The system below is a ring, the session's history and any
    number of such readers; a step is one critical section.  The theorems say that no
    reader stays parked while there is something for it, and that what a reader has been
    given is the history from where it started but for the ranges it skipped, each of which
    the ring had dropped. *)

From S2P Require Import Prelude Contract OutputRing.

(** ** State *)

Inductive reader_pc :=
| Turning
| Waiting (waiter : nat)
| Done.

(** [start] and [cursor] are positions, [got] the bytes handed on so far, and [skips] the
    ranges over which turns that found the cursor below the floor went ahead, in order. *)
Record reader := mkReader {
  start : Z;
  cursor : Z;
  got : octets;
  skips : list (Z * Z);
  pc : reader_pc
}.

Record system := mkSystem {
  hist : octets;
  the_ring : ring;
  readers : gmap nat reader
}.

(** ** Steps *)

Section steps.
Context `{PtyContract}.

(** The reader goroutine of [deliver] at [at_]. *)
Definition start_reader (at_ : Z) : reader := mkReader at_ at_ [] [] Turning.

(** One turn of [read], and what the goroutine does with its answer. *)
Definition reader_turn (rd : reader) (r : ring) : reader * ring :=
  let skips' := skips rd ++ if cursor rd <? floor r then [(cursor rd, floor r)] else [] in
  let '(r', turn) := read_once (cursor rd) r in
  match turn with
  | ReadBytes out next => (mkReader (start rd) next (got rd ++ out) skips' Turning, r')
  | ReadEnded at_ => (mkReader (start rd) at_ (got rd) skips' Done, r')
  | ReadParked waiter at_ => (mkReader (start rd) at_ (got rd) skips' (Waiting waiter), r')
  end.

(** A reader may take a turn when it is running, or when its channel was closed. *)
Definition can_turn (rd : reader) (r : ring) : Prop :=
  match pc rd with
  | Turning => True
  | Waiting waiter => waiter ∈ closedChans r
  | Done => False
  end.

Definition not_a_read (op : ring_op) : Prop :=
  match op with OpRead _ => False | _ => True end.

Inductive step : system -> system -> Prop :=
| step_op op s :
    not_a_read op -> zlen (hist s) + zlen (op_output op) < two64 ->
    step s (mkSystem (hist s ++ op_output op) (apply_op op (the_ring s)) (readers s))
| step_join id at_ s :
    readers s !! id = None -> 0 <= at_ <= live (the_ring s) ->
    step s (mkSystem (hist s) (the_ring s) (<[id := start_reader at_]> (readers s)))
| step_turn id rd s :
    readers s !! id = Some rd -> can_turn rd (the_ring s) ->
    step s (mkSystem (hist s) (snd (reader_turn rd (the_ring s)))
                     (<[id := fst (reader_turn rd (the_ring s))]> (readers s))).

Definition initial (cap : Z) : system := mkSystem [] (newRing cap) ∅.

(** The reader of an ended session, left alone for [fuel] turns. *)
Fixpoint run_reader (fuel : nat) (rd : reader) (r : ring) : reader :=
  match fuel, pc rd with
  | O, _ | _, Done => rd
  | S fuel, _ => run_reader fuel (fst (reader_turn rd r)) (snd (reader_turn rd r))
  end.

(** ** Invariant *)

(** The history from [at_] to [to_] without the ranges [skipped], which lie in it in order. *)
Fixpoint outside (at_ : Z) (skipped : list (Z * Z)) (to_ : Z) (h : octets) : octets :=
  match skipped with
  | [] => range at_ to_ h
  | (a, b) :: skipped => range at_ a h ++ outside b skipped to_ h
  end.

Fixpoint in_order (at_ : Z) (skipped : list (Z * Z)) (to_ : Z) : Prop :=
  match skipped with
  | [] => at_ <= to_
  | (a, b) :: skipped => at_ <= a /\ a < b /\ in_order b skipped to_
  end.

(** Nothing that the ring still has was skipped. *)
Definition dropped (r : ring) (skipped : list (Z * Z)) : Prop := Forall (fun range => snd range <= floor r) skipped.

Record reader_ok (h : octets) (r : ring) (rd : reader) : Prop := {
  positions : 0 <= start rd /\ in_order (start rd) (skips rd) (cursor rd) /\ cursor rd <= zlen h;
  stream : got rd = outside (start rd) (skips rd) (cursor rd) h;
  overtaken : dropped r (skips rd);
  parked : forall waiter, pc rd = Waiting waiter ->
    (waiter ∈ waiters r \/ waiter ∈ closedChans r) /\ (waiter < madeChans r)%nat /\
    (waiter ∉ closedChans r -> cursor rd = zlen h /\ ended r = false)
}.

Record system_ok (s : system) : Prop := {
  ring_part : ring_ok (hist s) (the_ring s);
  chans_part : forall waiter,
    waiter ∈ waiters (the_ring s) \/ waiter ∈ closedChans (the_ring s) ->
    (waiter < madeChans (the_ring s))%nat;
  readers_part : forall id rd, readers s !! id = Some rd ->
    reader_ok (hist s) (the_ring s) rd
}.

End steps.

(** ** How the operations treat the waiters *)

Section invariant.
Context `{PtyContractLaws}.

Lemma trimLocked_chans r : coords_ok r ->
  waiters (trimLocked r) = waiters r /\ closedChans (trimLocked r) = closedChans r /\
  madeChans (trimLocked r) = madeChans r /\ ended (trimLocked r) = ended r.
Proof. intros Hok. by destruct (trimLocked_result r Hok). Qed.

Lemma wakeLocked_chans r :
  madeChans (wakeLocked r) = madeChans r /\ waiters (wakeLocked r) = [] /\
  closedChans (wakeLocked r) = list_to_set (waiters r) ∪ closedChans r.
Proof. done. Qed.

(** What an operation does to the channels: it leaves them alone and adds no output, or
    it closes every waiter. *)
Lemma apply_op_chans h op r :
  ring_ok h r -> zlen h + zlen (op_output op) < two64 -> not_a_read op ->
  let r' := apply_op op r in
  madeChans r' = madeChans r /\
  ((waiters r' = waiters r /\ closedChans r' = closedChans r /\ ended r' = ended r /\
    op_output op = []) \/
   (waiters r' = [] /\ closedChans r' = list_to_set (waiters r) ∪ closedChans r)).
Proof.
  intros Hok Hlen Hop. destruct op; cbn in *; try done.
  - destruct (appended_ok h data r Hok Hlen) as [Hc _].
    destruct (trimLocked_chans _ Hc) as (E1 & E2 & E3 & E4).
    unfold write. cbn [fst]. destruct (wakeLocked_chans (trimLocked (r <| bytes := bytes r ++ data |>))) as (-> & -> & ->).
    rewrite E1, E2, E3. split; [done|by right].
  - split; unfold lease; destruct (_ || _); [done|done|by left|by left].
  - destruct Hok as [[Hc _] _]. unfold consumeLease. destruct (leases r !! token) as [l|]; [|by split; [|left]].
    destruct (trimLocked_chans _ (coords_ok_delete r token Hc)) as (E1 & E2 & E3 & E4).
    destruct (_ || _); cbn; rewrite E1, E2, E3, E4; (split; [done|by left]).
  - destruct Hok as [[Hc _] _]. unfold expireLease.
    destruct (trimLocked_chans _ (coords_ok_delete r token Hc)) as (E1 & E2 & E3 & E4).
    rewrite E1, E2, E3, E4; (split; [done|by left]).
  - unfold ack. by destruct (_ <? _); (split; [|left]).
  - split; [done|by right].
Qed.

Lemma apply_op_floor h op r : ring_ok h r -> zlen h + zlen (op_output op) < two64 -> floor r <= floor (apply_op op r).
Proof.
  intros Hok Hlen. pose proof Hok as [[Hc _] _].
  assert (Htrim : forall r', coords_ok r' -> floor r' = floor r -> floor r <= floor (trimLocked r')).
  { intros r' Hr' <-. pose proof (trim_forward _ _ (trimLocked_result r' Hr')). lia. }
  destruct op; cbn in *; try lia.
  - destruct (appended_ok h data r Hok Hlen) as [Hc' _]. unfold write. cbn. by apply Htrim.
  - unfold lease. destruct (_ || _); [cbn; lia|]. by cbn.
  - unfold consumeLease. destruct (leases r !! token); [|cbn; lia].
    pose proof (Htrim _ (coords_ok_delete r token Hc) eq_refl). destruct (_ || _); done.
  - by apply (Htrim _ (coords_ok_delete r token Hc)).
  - unfold ack. by destruct (_ <? _).
  - unfold read_once. destruct (_ <? live r); [done|]. by destruct (ended r).
  - done.
Qed.

(** *** Ranges that were skipped *)

Lemma in_order_le at_ skipped to_ : in_order at_ skipped to_ -> at_ <= to_.
Proof. revert at_. induction skipped as [|[a b] skipped IH]; intros at_; cbn; [done|]. intros (? & ? & ?%IH). lia. Qed.

Lemma in_order_more at_ skipped to_ to' : in_order at_ skipped to_ -> to_ <= to' -> in_order at_ skipped to'.
Proof.
  revert at_. induction skipped as [|[a b] skipped IH]; intros at_; cbn; [lia|]. intros (? & ? & Hin) Hle.
  split_and!; [done..|by apply IH].
Qed.

Lemma in_order_skip at_ skipped a b : in_order at_ skipped a -> a < b -> in_order at_ (skipped ++ [(a, b)]) b.
Proof.
  revert at_. induction skipped as [|[c d] skipped IH]; intros at_; cbn; [lia|]. intros (? & ? & Hin) Hlt.
  split_and!; [done..|by apply IH].
Qed.

Lemma outside_skip at_ skipped a b h : outside at_ (skipped ++ [(a, b)]) b h = outside at_ skipped a h.
Proof.
  revert at_. induction skipped as [|[c d] skipped IH]; intros at_; cbn.
  - unfold range at 2. by rewrite Z.sub_diag, app_nil_r.
  - by rewrite IH.
Qed.

Lemma outside_more at_ skipped to_ to' h : 0 <= at_ -> in_order at_ skipped to_ -> to_ <= to' <= zlen h ->
  outside at_ skipped to_ h ++ range to_ to' h = outside at_ skipped to' h.
Proof.
  revert at_. induction skipped as [|[a b] skipped IH]; intros at_ Hat; cbn.
  - intros Hle Hto. apply range_app; lia.
  - intros (? & ? & Hin) Hto. rewrite <- app_assoc. f_equal. apply IH; [lia|done|done].
Qed.

Lemma outside_app at_ skipped to_ h data : 0 <= at_ -> in_order at_ skipped to_ -> to_ <= zlen h ->
  outside at_ skipped to_ (h ++ data) = outside at_ skipped to_ h.
Proof.
  revert at_. induction skipped as [|[a b] skipped IH]; intros at_ Hat; cbn.
  - intros Hle Hto. apply range_app_l; lia.
  - intros (? & ? & Hin) Hto. pose proof (in_order_le _ _ _ Hin). f_equal; [apply range_app_l; lia|apply IH; [lia|done|done]].
Qed.

(** A cursor that is taken to the floor when it is below it. *)
Lemma skip_ok h at_ skipped c f : 0 <= at_ -> in_order at_ skipped c ->
  let skipped' := skipped ++ if c <? f then [(c, f)] else [] in
  in_order at_ skipped' (Z.max c f) /\ outside at_ skipped' (Z.max c f) h = outside at_ skipped c h.
Proof.
  intros Hat Hin skipped'. subst skipped'. destruct (Z.ltb_spec c f).
  - rewrite Z.max_r by lia. split; [by apply in_order_skip|apply outside_skip].
  - by rewrite app_nil_r, Z.max_l by lia.
Qed.

Lemma reader_ok_op h op r rd :
  ring_ok h r -> zlen h + zlen (op_output op) < two64 -> not_a_read op ->
  reader_ok h r rd -> reader_ok (h ++ op_output op) (apply_op op r) rd.
Proof.
  intros Hok Hlen Hop [Hp Hs Hd Hw].
  destruct (apply_op_chans h op r Hok Hlen Hop) as [Hmade Hcases]. constructor.
  - destruct Hp as (? & ? & ?). split_and!; [done|done|zsolve].
  - by rewrite outside_app by apply Hp.
  - pose proof (apply_op_floor h op r Hok Hlen). eapply list.Forall_impl; [exact Hd|]. cbn. intros [a b] ?. cbn in *. lia.
  - intros waiter Hpc. destruct (Hw waiter Hpc) as (Hin & Hlt & Hidle). rewrite Hmade.
    destruct Hcases as [(-> & -> & -> & ->)|(-> & ->)]; [by rewrite app_nil_r|].
    split_and!; [|done|]; [|intros Hn; exfalso; apply Hn]; try right;
      apply elem_of_union; rewrite elem_of_list_to_set; tauto.
Qed.

(** A turn of one reader only adds its own fresh waiter. *)
Lemma reader_turn_chans rd r :
  let r' := snd (reader_turn rd r) in
  closedChans r' = closedChans r /\ ended r' = ended r /\
  ((waiters r' = waiters r /\ madeChans r' = madeChans r) \/
   (waiters r' = waiters r ++ [madeChans r] /\ madeChans r' = S (madeChans r))).
Proof.
  unfold reader_turn, read_once.
  destruct (_ <? live r); cbn; [auto|]. destruct (ended r) eqn:E; cbn; rewrite ?E; auto.
Qed.

Lemma reader_turn_floor rd r : floor (snd (reader_turn rd r)) = floor r.
Proof. unfold reader_turn, read_once. destruct (_ <? live r); cbn; [done|]. by destruct (ended r). Qed.

Lemma reader_turn_ring h rd r : ring_ok h r -> ring_ok h (snd (reader_turn rd r)).
Proof.
  intros Hok. pose proof (read_ok h (cursor rd) r Hok) as Hr. unfold reader_turn.
  destruct (read_once (cursor rd) r) as [r' turn]. by destruct turn.
Qed.

Lemma reader_ok_other h rd r other :
  (forall waiter, waiter ∈ closedChans r -> (waiter < madeChans r)%nat) ->
  reader_ok h r other -> reader_ok h (snd (reader_turn rd r)) other.
Proof.
  intros Hclosed [Hp Hs Hd Hw]. destruct (reader_turn_chans rd r) as (E1 & E2 & Hcases).
  constructor; [done..|by unfold dropped; rewrite reader_turn_floor|]. intros waiter Hpc. destruct (Hw waiter Hpc) as (Hin & Hlt & Hidle).
  rewrite E1, E2. destruct Hcases as [(-> & ->)|(-> & ->)]; [done|].
  split_and!; [|lia|done]. rewrite elem_of_app. tauto.
Qed.

Lemma reader_ok_turn h rd r :
  ring_ok h r -> (forall waiter, waiter ∈ closedChans r -> (waiter < madeChans r)%nat) ->
  reader_ok h r rd -> reader_ok h (snd (reader_turn rd r)) (fst (reader_turn rd r)).
Proof.
  intros Hok Hclosed [(Hstart & Hin & Hle) Hs Hd _]. pose proof (reader_turn_floor rd r) as Hfloor. unfold reader_turn in *.
  pose proof (in_order_le _ _ _ Hin) as Hcur.
  pose proof (read_once_spec h (cursor rd) r Hok ltac:(lia)) as Hread. cbn in Hread.
  pose proof Hok as [[[Hf _ _ _] _] [Hh _]].
  assert (Hfl : floor r <= zlen h) by zsolve.
  assert (Hring : fst (read_once (cursor rd) r) =
    if Z.max (cursor rd) (floor r) <? zlen h then r else if ended r then r
    else r <| madeChans := S (madeChans r) |> <| waiters := waiters r ++ [madeChans r] |>).
  { unfold read_once. rewrite (ring_ok_live h r Hok).
    replace (if cursor rd <? floor r then floor r else cursor rd)
      with (Z.max (cursor rd) (floor r)) by (split_tests; lia). cbn.
    by destruct (_ <? zlen h), (ended r). }
  destruct (skip_ok h (start rd) (skips rd) (cursor rd) (floor r) Hstart Hin) as [Hin' Hs'].
  set (skips' := skips rd ++ if cursor rd <? floor r then [(cursor rd, floor r)] else []) in *.
  assert (Hd' : dropped r skips').
  { apply Forall_app. split; [done|]. destruct (_ <? _); [|constructor]. constructor; [cbn; lia|constructor]. }
  destruct (read_once (cursor rd) r) as [r' turn]. cbn in Hread, Hring.
  destruct (Z.ltb_spec (Z.max (cursor rd) (floor r)) (zlen h)) as [Hlt|Hge]; subst turn; cbn in Hfloor.
  { constructor; cbn; [|rewrite Hs, <- Hs'|by unfold dropped; rewrite Hfloor|done].
    - split_and!; [done| |lia]. eapply in_order_more; [exact Hin'|lia].
    - rewrite <- (range_full (Z.max (cursor rd) (floor r))) by lia. by apply outside_more; [| |lia]. }
  destruct (ended r) eqn:Eend; cbn in *; subst r'; (constructor; cbn; [split_and!; [done|done|lia]|by rewrite Hs, Hs'|done|]); [done|].
  intros waiter [= <-]. split_and!; [left; apply elem_of_app; right; by apply list_elem_of_singleton|lia|].
  split; [lia|done].
Qed.

Lemma reader_step_ok s s' : step s s' -> system_ok s -> system_ok s'.
Proof.
  intros Hstep [Hr Hc Hrd]. destruct Hstep as [op s Hop Hlen|id at_ s Hfree Hat|id rd s Hid Hturn].
  - destruct (apply_op_chans (hist s) op (the_ring s) Hr Hlen Hop) as [Hmade Hcases].
    constructor; cbn.
    + by apply apply_op_ok.
    + intros waiter. rewrite Hmade.
      destruct Hcases as [(-> & -> & _)|(-> & ->)]; [apply Hc|].
      rewrite elem_of_union, elem_of_list_to_set, elem_of_nil. intros ?. apply Hc. tauto.
    + intros id rd Hid. apply reader_ok_op; [done..|by eapply Hrd].
  - rewrite (ring_ok_live _ _ Hr) in Hat. constructor; cbn; [done..|].
    intros id' rd [[_ <-]|[_ Hid]]%lookup_insert_Some; [|by eapply Hrd].
    constructor; cbn; [lia| |constructor|done]. unfold range. by rewrite Z.sub_diag.
  - assert (Hclosed : forall waiter, waiter ∈ closedChans (the_ring s) ->
      (waiter < madeChans (the_ring s))%nat) by (intros; apply Hc; by right).
    destruct (reader_turn_chans rd (the_ring s)) as (E1 & E2 & Hcases).
    constructor; cbn; [by apply reader_turn_ring| |].
    + intros waiter. rewrite E1. destruct Hcases as [(-> & ->)|(-> & ->)]; [apply Hc|].
      rewrite elem_of_app, list_elem_of_singleton. intros [[?| ->]|?]; [|lia|];
        (etransitivity; [apply Hc; auto|lia]).
    + intros id' rd' [[_ <-]|[_ Hid']]%lookup_insert_Some.
      * apply reader_ok_turn; [done..|by eapply Hrd].
      * apply reader_ok_other; [done|by eapply Hrd].
Qed.

Lemma reader_system_reachable cap s :
  cap < 9223372036854775808 -> rtc step (initial cap) s -> system_ok s.
Proof.
  intros Hcap Hsteps. assert (H1 : system_ok (initial cap)).
  { constructor; cbn; [by apply newRing_ok| |by intros ? ? ?%lookup_empty_Some].
    intros waiter [?%elem_of_nil|?%elem_of_empty]; done. }
  induction Hsteps; [done|eauto using reader_step_ok].
Qed.

(** A turn on an ended ring: everything retained ahead of the reader, then the end. *)
Lemma ended_turn h rd r : ring_ok h r -> ended r = true -> 0 <= cursor rd <= zlen h ->
  snd (reader_turn rd r) = r /\ start (fst (reader_turn rd r)) = start rd /\
  cursor (fst (reader_turn rd r)) = zlen h /\
  pc (fst (reader_turn rd r)) =
    if Z.max (cursor rd) (floor r) <? zlen h then Turning else Done.
Proof.
  intros Hok Hend Hcur. pose proof (read_once_spec h (cursor rd) r Hok ltac:(lia)) as Hread.
  cbn in Hread. rewrite Hend in Hread.
  assert (Hring : fst (read_once (cursor rd) r) = r)
    by (unfold read_once; rewrite Hend; by destruct (_ <? live r)).
  pose proof Hok as [[[Hf _ _ _] _] [Hh _]]. unfold reader_turn.
  destruct (read_once (cursor rd) r) as [r' turn]. cbn in Hread, Hring. subst r'.
  destruct (Z.ltb_spec (Z.max (cursor rd) (floor r)) (zlen h)); subst turn; cbn; [done|].
  split_and!; [done..| |done]. zsolve.
Qed.

End invariant.

(** ** Theorems *)

Section theorems.
Context `{PtyContractLaws}.

(** C8: whatever the writers and the other readers do, a reader parked on a channel that
    is still open has nothing to read and its session has not ended; and a reader has been
    given the history from where it started to where it stands, in order and each byte once,
    but for the ranges it skipped.  These are the ranges by which a turn found it behind the
    floor: they follow one another, and all that was skipped the ring had dropped.  A reader
    that skipped nothing was given exactly the history. *)
Theorem readers_never_stranded cap s id rd :
  cap < 9223372036854775808 -> rtc step (initial cap) s -> readers s !! id = Some rd ->
  (forall waiter, pc rd = Waiting waiter -> waiter ∉ closedChans (the_ring s) ->
    cursor rd = zlen (hist s) /\ ended (the_ring s) = false) /\
  got rd = outside (start rd) (skips rd) (cursor rd) (hist s) /\
  in_order (start rd) (skips rd) (cursor rd) /\ cursor rd <= zlen (hist s) /\
  Forall (fun range => snd range <= floor (the_ring s)) (skips rd) /\
  (skips rd = [] -> got rd = range (start rd) (cursor rd) (hist s)).
Proof.
  intros Hcap Hsteps Hid. destruct (reader_system_reachable cap s Hcap Hsteps) as [_ _ Hrd].
  destruct (Hrd id rd Hid) as [(_ & Hin & Hle) Hs Hd Hw]. split_and!; [|done..|].
  - intros waiter Hpc Hopen. by apply (Hw waiter Hpc).
  - intros E. by rewrite Hs, E.
Qed.

(** Once the session ended every reader can run, and two turns are enough for it to
    reach the end of the history and finish, given everything but what it skipped. *)
Theorem ended_reader_finishes cap s id rd :
  cap < 9223372036854775808 -> rtc step (initial cap) s -> readers s !! id = Some rd ->
  ended (the_ring s) = true -> pc rd <> Done ->
  let rd' := run_reader 2 rd (the_ring s) in
  can_turn rd (the_ring s) /\ pc rd' = Done /\ cursor rd' = zlen (hist s) /\
  got rd' = outside (start rd) (skips rd') (zlen (hist s)) (hist s).
Proof.
  intros Hcap Hsteps Hid Hend Hpc rd'.
  destruct (reader_system_reachable cap s Hcap Hsteps) as [Hok Hch Hrd]. specialize (Hrd id rd Hid).
  assert (Hclosed : forall waiter, waiter ∈ closedChans (the_ring s) ->
    (waiter < madeChans (the_ring s))%nat) by (intros; apply Hch; by right).
  pose proof Hrd as [(Hpos & Hin & Hle) Hs Hd Hw]. pose proof (in_order_le _ _ _ Hin) as Hcur.
  assert (Hcan : can_turn rd (the_ring s)).
  { unfold can_turn. destruct (pc rd) as [|waiter|]; [done| |done].
    destruct (Hw waiter eq_refl) as (_ & _ & Hidle).
    destruct (decide (waiter ∈ closedChans (the_ring s))) as [|Hn]; [done|].
    destruct (Hidle Hn). congruence. }
  destruct (ended_turn _ rd _ Hok Hend ltac:(lia)) as (Hr1 & Hs1 & Hc1 & Hp1).
  pose proof (reader_ok_turn _ rd _ Hok Hclosed Hrd) as Hrd1. rewrite Hr1 in Hrd1.
  set (rd1 := fst (reader_turn rd (the_ring s))) in *.
  destruct (ended_turn _ rd1 _ Hok Hend ltac:(rewrite Hc1; zsolve)) as (Hr2 & Hs2 & Hc2 & Hp2).
  pose proof (reader_ok_turn _ rd1 _ Hok Hclosed Hrd1) as Hrd2. rewrite Hr2 in Hrd2.
  assert (Hrd' : rd' = if Z.max (cursor rd) (floor (the_ring s)) <? zlen (hist s)
    then fst (reader_turn rd1 (the_ring s)) else rd1).
  { unfold rd'. cbn. fold rd1. rewrite Hr1. clear -Hpc Hp1. destruct (pc rd); [..|done];
      destruct (_ <? _); rewrite Hp1; done. }
  split; [done|]. rewrite Hrd'. destruct (Z.max (cursor rd) (floor (the_ring s)) <? zlen (hist s)).
  - rewrite Hp2, Hc2, Hc1. destruct Hrd2 as [_ Hs2' _ _]. rewrite Hc2, Hs2, Hs1 in Hs2'.
    destruct Hok as [[[? ? ? ?] ?] [? ?]].
    destruct (Z.ltb_spec (Z.max (zlen (hist s)) (floor (the_ring s))) (zlen (hist s))); [lia|done].
  - rewrite Hp1, Hc1. destruct Hrd1 as [_ Hs1' _ _]. by rewrite Hc1, Hs1 in Hs1'.
Qed.

End theorems.

(** ** Witnesses *)

#[local] Existing Instance sample_contract.
#[local] Existing Instance sample_contract_laws.

(** A reader joins, parks, a write wakes it, and the session ends. *)
Definition sample_system : system :=
  let r0 := newRing 4 in
  let parked := reader_turn (start_reader 0) r0 in
  let r1 := apply_op (OpWrite (text "abc")) (snd parked) in
  mkSystem (text "abc") (apply_op OpEnd r1) {[7%nat := fst parked]}.

Lemma sample_system_reachable : rtc step (initial 4) sample_system.
Proof.
  eapply rtc_l; [apply (step_join 7 0); [done|split; discriminate]|].
  eapply rtc_l; [apply (step_turn 7 (start_reader 0)); [done|exact I]|].
  eapply rtc_l; [apply (step_op (OpWrite (text "abc"))); [exact I|reflexivity]|].
  eapply rtc_l; [apply (step_op OpEnd); [exact I|reflexivity]|]. apply rtc_refl.
Qed.

(** A reader is given the first three bytes; twelve more are printed while it is elsewhere, of
    which the ring keeps four, and it goes on behind the gap, to the end, and parks there. *)
Definition overtaken_system : system :=
  let joined := fst (reader_turn (start_reader 0) (newRing 4)) in
  let r1 := apply_op (OpWrite (text "abc")) (snd (reader_turn (start_reader 0) (newRing 4))) in
  let fed := fst (reader_turn joined r1) in
  let r2 := apply_op (OpWrite (text "defghijklmno")) r1 in
  let ahead := reader_turn fed r2 in
  let idle := reader_turn (fst ahead) (snd ahead) in
  mkSystem (text "abcdefghijklmno") (snd idle) {[7%nat := fst idle]}.

Definition overtaken_reader : reader := mkReader 0 15 (text "abclmno") [(3, 11)] (Waiting 1).

Lemma overtaken_system_reachable : rtc step (initial 4) overtaken_system /\
  readers overtaken_system !! 7%nat = Some overtaken_reader.
Proof.
  split; [|vm_compute; reflexivity].
  set (joined := reader_turn (start_reader 0) (newRing 4)).
  set (r1 := apply_op (OpWrite (text "abc")) (snd joined)). set (fed := fst (reader_turn (fst joined) r1)).
  set (r2 := apply_op (OpWrite (text "defghijklmno")) r1). set (ahead := reader_turn fed r2).
  eapply rtc_l; [apply (step_join 7 0); [done|split; discriminate]|].
  eapply rtc_l; [apply (step_turn 7 (start_reader 0)); [done|exact I]|].
  eapply rtc_l; [apply (step_op (OpWrite (text "abc"))); [exact I|reflexivity]|].
  eapply rtc_l; [apply (step_turn 7 (fst joined)); [vm_compute; reflexivity|change (0%nat ∈ closedChans r1); apply (bool_decide_unpack _); vm_compute; exact I]|].
  eapply rtc_l; [apply (step_op (OpWrite (text "defghijklmno"))); [exact I|reflexivity]|].
  eapply rtc_l; [apply (step_turn 7 fed); [vm_compute; reflexivity|vm_compute; exact I]|].
  eapply rtc_l; [apply (step_turn 7 (fst ahead)); [vm_compute; reflexivity|vm_compute; exact I]|].
  match goal with |- rtc _ ?s _ => replace s with overtaken_system by (vm_compute; reflexivity) end. apply rtc_refl.
Qed.

Lemma readers_never_stranded_witness :
  cursor overtaken_reader = zlen (hist overtaken_system) /\ ended (the_ring overtaken_system) = false /\
  got overtaken_reader = outside 0 [(3, 11)] 15 (hist overtaken_system) /\ 11 <= floor (the_ring overtaken_system).
Proof.
  destruct (readers_never_stranded 4 overtaken_system 7 overtaken_reader) as (Hp & Hg & _ & _ & Hd & _);
    [reflexivity|apply overtaken_system_reachable|apply overtaken_system_reachable|].
  destruct (Hp 1%nat) as [H1 H2]; [reflexivity|apply (bool_decide_unpack _); vm_compute; exact I|].
  split_and!; [exact H1|exact H2|exact Hg|]. apply Forall_cons in Hd as [Hd _]. exact Hd.
Defined.

Lemma ended_reader_finishes_witness :
  let rd := fst (reader_turn (start_reader 0) (newRing 4)) in
  let rd' := run_reader 2 rd (the_ring sample_system) in
  can_turn rd (the_ring sample_system) /\ pc rd' = Done /\ cursor rd' = zlen (hist sample_system) /\
  got rd' = outside (start rd) (skips rd') (zlen (hist sample_system)) (hist sample_system).
Proof.
  apply (ended_reader_finishes 4 sample_system 7);
    [reflexivity|apply sample_system_reachable|reflexivity|reflexivity|discriminate].
Defined.
