(* ===== verification/Observer.v ===== *)
(** * Observers (observer.go)

    An observer is one consumer's bounded event queue.  Output that fits is queued, and
    joined to the output before it when the two are adjacent; output that does not fit
    becomes a gap that names the range it lost.  The specification is coverage: walking
    the events from the position the consumer started at, each one takes up where the
    one before it ended, outputs carry the history's bytes, and the walk ends at the
    history's end. *)

From S2P Require Import Prelude Contract.

(** ** State *)

(** [observation] is a struct of five pointers of which one is set; [ObsNone] is its zero
    value, which [next] answers when the observer is closed and drained. *)
Inductive observation :=
| ObsOutput (output : OutputObservation)
| ObsGap (gap : GapObservation)
| ObsResize (resize : ResizeObservation)
| ObsEnd (end_ : EndObservation)
| ObsOpened (opened : OpenedObservation)
| ObsNone.

Record observer := mkObserver {
  capacity : Z;
  queued : Z;
  events : list observation;
  closed : bool;
  gaps : Z
}.

#[export] Instance observer_settable : Settable observer :=
  fun v => mkObserver (capacity v) (queued v) (events v) (closed v) (gaps v).

#[export] Instance observation_eq_dec : EqDecision observation.
Proof. solve_decision. Defined.

(** ** Operations *)

Definition newObserver (cap : Z) : observer :=
  let cap := if cap <? 1 then 1 else cap in mkObserver cap 0 [] false 0.

(** [publishGapLocked] extends the gap at the end of the queue when the new one follows
    it, and queues a new one otherwise. *)
Definition publishGapLocked (gap : GapObservation) (value : observer) : observer :=
  match last (events value) with
  | Some (ObsGap g) =>
      if ThroughEventSequence g =? FromEventSequence gap then
        let g := g <| ThroughEventSequence := ThroughEventSequence gap |>
                   <| GapThroughSequence := GapThroughSequence gap |> in
        value <| events := slice_init (events value) ++ [ObsGap g] |>
      else value <| gaps := gaps value +64 1 |> <| events := events value ++ [ObsGap gap] |>
  | _ => value <| gaps := gaps value +64 1 |> <| events := events value ++ [ObsGap gap] |>
  end.

Definition publishGap (gap : GapObservation) (value : observer) : observer :=
  if closed value then value else publishGapLocked gap value.

Definition publishOutput (output : OutputObservation) (value : observer) : observer :=
  if closed value then value
  else if queued value + zlen (Bytes output) <=? capacity value then
    let append := value <| events := events value ++ [ObsOutput output] |>
                        <| queued := queued value + zlen (Bytes output) |> in
    match last (events value) with
    | Some (ObsOutput o) =>
        if (EventSequence o +64 1 =? EventSequence output) &&
           (ThroughSequence o =? FromSequence output) then
          let o := o <| EventSequence := EventSequence output |>
                     <| ThroughSequence := ThroughSequence output |>
                     <| Bytes := Bytes o ++ Bytes output |> in
          value <| events := slice_init (events value) ++ [ObsOutput o] |>
                <| queued := queued value + zlen (Bytes output) |>
        else append
    | _ => append
    end
  else
    publishGapLocked
      (mkGap (EventSequence output) (EventSequence output +64 1)
             (FromSequence output) (ThroughSequence output)) value.

Definition publish (event : observation) (value : observer) : observer :=
  if closed value then value else value <| events := events value ++ [event] |>.

Definition publishResize (resize : ResizeObservation) : observer -> observer :=
  publish (ObsResize resize).

Definition publishEnd (end_ : EndObservation) : observer -> observer := publish (ObsEnd end_).

Definition publishOpened (opened : OpenedObservation) : observer -> observer :=
  publish (ObsOpened opened).

(** [next] waits on an empty queue until it is closed; [None] is a caller still waiting. *)
Definition next (value : observer) : observer * option observation :=
  match events value with
  | [] => if closed value then (value, Some ObsNone) else (value, None)
  | event :: rest =>
      let value := value <| events := rest |> in
      match event with
      | ObsOutput o => (value <| queued := queued value - zlen (Bytes o) |>, Some event)
      | _ => (value, Some event)
      end
  end.

Definition close (value : observer) : observer := value <| closed := true |>.

Definition gapCount (value : observer) : Z := gaps value.

(** ** Specification *)

(** Where a walk over the events from [at_] arrives, if each takes up where the one
    before it ended and each output carries the history's bytes. *)
Fixpoint walk (hist : octets) (at_ : Z) (evs : list observation) : option Z :=
  match evs with
  | [] => Some at_
  | ObsOutput o :: evs =>
      if bool_decide (FromSequence o = at_ /\ at_ <= ThroughSequence o <= zlen hist /\
                      Bytes o = range at_ (ThroughSequence o) hist)
      then walk hist (ThroughSequence o) evs else None
  | ObsGap g :: evs =>
      if bool_decide (GapFromSequence g = at_ /\ at_ <= GapThroughSequence g)
      then walk hist (GapThroughSequence g) evs else None
  | _ :: evs => walk hist at_ evs
  end.

Definition event_bytes (event : observation) : octets :=
  match event with ObsOutput o => Bytes o | _ => [] end.

Definition is_gap (event : observation) : bool :=
  match event with ObsGap _ => true | _ => false end.

(** The bytes the outputs of a list of events carry, and how many of them are gaps. *)
Definition carried (evs : list observation) : octets := concat (map event_bytes evs).

Definition gap_events (evs : list observation) : Z := zlen (filter is_gap evs).

#[global] Arguments carried : simpl never.
#[global] Arguments gap_events : simpl never.

(** What happens to an observer in a session: the pump publishes the bytes it has just
    appended to the history, some other event is published, the consumer takes one, or
    the observer is closed. *)
Inductive command :=
| Pump (eventSequence : Z) (data : octets)
| Note (event : observation)
| Take
| CloseIt.

(** A session's history, an observer of it, and what its consumer has taken so far. *)
Record feed := mkFeed {
  history : octets;
  watcher : observer;
  taken : list observation
}.

Definition published (hist : octets) (eventSequence : Z) (data : octets) : OutputObservation :=
  mkOutput eventSequence (zlen hist) (zlen (hist ++ data)) data.

Definition run_command (cmd : command) (f : feed) : feed :=
  match cmd with
  | Pump eventSequence data =>
      mkFeed (history f ++ data)
             (publishOutput (published (history f) eventSequence data) (watcher f)) (taken f)
  | Note event => mkFeed (history f) (publish event (watcher f)) (taken f)
  | Take =>
      let '(v, answer) := next (watcher f) in
      mkFeed (history f) v (taken f ++ match answer with
        | Some ObsNone | None => [] | Some event => [event] end)
  | CloseIt => mkFeed (history f) (close (watcher f)) (taken f)
  end.

Definition run_commands (cmds : list command) (f : feed) : feed :=
  fold_left (fun f cmd => run_command cmd f) cmds f.

(** The commands the session issues: notes are resizes, ends and openings. *)
Definition plain_note (event : observation) : Prop :=
  match event with ObsResize _ | ObsEnd _ | ObsOpened _ => True | _ => False end.

Definition command_ok (cmd : command) : Prop :=
  match cmd with Note event => plain_note event | _ => True end.

(** The queue accounting, and coverage of the history from [from] up to where the
    observer stopped listening. *)
Record feed_ok (from : Z) (f : feed) : Prop := {
  queued_sum : queued (watcher f) = zlen (carried (events (watcher f)));
  queued_bound : queued (watcher f) <= capacity (watcher f);
  coverage : exists through,
    walk (history f) from (taken f ++ events (watcher f)) = Some through /\
    through <= zlen (history f) /\
    (closed (watcher f) = false -> through = zlen (history f));
  gap_total : gaps (watcher f) = wrap64 (gap_events (taken f ++ events (watcher f)))
}.

(** ** Walks *)

Lemma walk_app hist evs evs' : forall at_,
  walk hist at_ (evs ++ evs') = walk hist at_ evs ≫= fun mid => walk hist mid evs'.
Proof.
  induction evs as [|[o|g|z|e|p|] evs IH]; intros at_; cbn; try done;
    case_bool_decide; cbn; done.
Qed.

Lemma walk_snoc hist at_ evs event mid :
  walk hist at_ evs = Some mid -> walk hist at_ (evs ++ [event]) = walk hist mid [event].
Proof. intros E. rewrite walk_app, E. done. Qed.

(** A walk over a longer history arrives at the same place. *)
Lemma walk_extend hist more evs : forall at_ mid,
  0 <= at_ -> walk hist at_ evs = Some mid -> walk (hist ++ more) at_ evs = Some mid.
Proof.
  induction evs as [|event evs IH]; intros at_ mid Hat; [done|].
  destruct event as [o|g|z|e|p|]; cbn; try by apply IH.
  - case_bool_decide as Ho; [|done]. destruct Ho as (Hf & Ht & Hb). intros Hw.
    rewrite bool_decide_true; [apply IH; [lia|done]|].
    split_and!; [done|lia|zsolve|]. rewrite range_app_l by lia. done.
  - case_bool_decide as Hg; [|done]. apply IH. lia.
Qed.

Lemma walk_forward hist evs : forall at_ mid, walk hist at_ evs = Some mid -> at_ <= mid.
Proof.
  induction evs as [|event evs IH]; intros at_ mid; cbn; [intros [= ->]; lia|].
  destruct event as [o|g|z|e|p|]; try apply IH; case_bool_decide as Ho; try done;
    intros Hw%IH; lia.
Qed.

Lemma walk_output hist at_ o mid :
  walk hist at_ [ObsOutput o] = Some mid <->
  FromSequence o = at_ /\ at_ <= ThroughSequence o <= zlen hist /\
  Bytes o = range at_ (ThroughSequence o) hist /\ mid = ThroughSequence o.
Proof. cbn. case_bool_decide as Ho; split; naive_solver. Qed.

Lemma walk_gap hist at_ g mid :
  walk hist at_ [ObsGap g] = Some mid <->
  GapFromSequence g = at_ /\ at_ <= GapThroughSequence g /\ mid = GapThroughSequence g.
Proof. cbn. case_bool_decide as Ho; split; naive_solver. Qed.

(** Without a gap, what the events carry is the range they cover. *)
Lemma walk_carried hist evs : forall at_ mid,
  0 <= at_ -> walk hist at_ evs = Some mid -> gap_events evs = 0 -> mid <= zlen hist ->
  carried evs = range at_ mid hist.
Proof.
  induction evs as [|event evs IH]; intros at_ mid Hat Hw Hg Hmid.
  - cbn in *. injection Hw as <-. unfold range. by rewrite Z.sub_diag.
  - unfold carried, gap_events in *. destruct event as [o|g|z|e|p|]; cbn in *; try by apply IH.
    case_bool_decide as Ho; [|done]. destruct Ho as (Hf & Ht & Hb).
    pose proof (walk_forward _ _ _ _ Hw).
    rewrite (IH (ThroughSequence o) mid) by (done || lia). rewrite Hb. apply range_app; lia.
Qed.

Lemma carried_app evs evs' : carried (evs ++ evs') = carried evs ++ carried evs'.
Proof. unfold carried. by rewrite map_app, concat_app. Qed.

Lemma carried_cons event evs : carried (event :: evs) = event_bytes event ++ carried evs.
Proof. done. Qed.

Lemma gap_events_app evs evs' : gap_events (evs ++ evs') = gap_events evs + gap_events evs'.
Proof. unfold gap_events. by rewrite filter_app, zlen_app. Qed.

Lemma gap_events_cons event evs :
  gap_events (event :: evs) = (if is_gap event then 1 else 0) + gap_events evs.
Proof. change (event :: evs) with ([event] ++ evs). rewrite gap_events_app. by destruct event. Qed.

Lemma last_split {A} (l : list A) x : last l = Some x -> exists init, l = init ++ [x].
Proof. intros Hl. apply last_Some in Hl as [init ->]. by exists init. Qed.

Lemma walk_pump_append hist from evs eventSequence data :
  0 <= from -> walk hist from evs = Some (zlen hist) ->
  walk (hist ++ data) from (evs ++ [ObsOutput (published hist eventSequence data)]) =
    Some (zlen (hist ++ data)).
Proof.
  intros Hf Hw. rewrite (walk_snoc _ _ _ _ (zlen hist)) by by apply walk_extend.
  apply walk_output. cbn. rewrite range_appended. split_and!; zsolve || done.
Qed.

(** Joining an output to the one before it covers what the two covered. *)
Lemma walk_pump_merge hist from evs o eventSequence data :
  0 <= from -> walk hist from (evs ++ [ObsOutput o]) = Some (zlen hist) ->
  walk (hist ++ data) from
    (evs ++ [ObsOutput (mkOutput eventSequence (FromSequence o) (zlen (hist ++ data))
                                 (Bytes o ++ data))]) = Some (zlen (hist ++ data)).
Proof.
  intros Hf Hw. rewrite walk_app in Hw. destruct (walk hist from evs) as [mid|] eqn:E; [|done].
  cbn [mbind option_bind] in Hw. apply walk_output in Hw as (Ho & Ht & Hb & Hz).
  pose proof (walk_forward _ _ _ _ E). rewrite (walk_snoc _ _ _ _ mid) by by apply walk_extend.
  apply walk_output. cbn. rewrite Hb, <- Hz. split_and!; [done|zsolve|zsolve| |done].
  rewrite <- (range_app mid (zlen hist) (zlen (hist ++ data))) by zsolve.
  rewrite range_appended, range_app_l by zsolve. done.
Qed.

Lemma walk_gap_append hist from evs g data :
  0 <= from -> walk hist from evs = Some (zlen hist) ->
  GapFromSequence g = zlen hist -> GapThroughSequence g = zlen (hist ++ data) ->
  walk (hist ++ data) from (evs ++ [ObsGap g]) = Some (zlen (hist ++ data)).
Proof.
  intros Hf Hw Hg1 Hg2. rewrite (walk_snoc _ _ _ _ (zlen hist)) by by apply walk_extend.
  apply walk_gap. rewrite Hg1, Hg2. split_and!; zsolve || done.
Qed.

Lemma walk_gap_merge hist from evs g g' data :
  0 <= from -> walk hist from (evs ++ [ObsGap g]) = Some (zlen hist) ->
  GapFromSequence g' = GapFromSequence g -> GapThroughSequence g' = zlen (hist ++ data) ->
  walk (hist ++ data) from (evs ++ [ObsGap g']) = Some (zlen (hist ++ data)).
Proof.
  intros Hf Hw Hg1 Hg2. rewrite walk_app in Hw. destruct (walk hist from evs) as [mid|] eqn:E; [|done].
  cbn [mbind option_bind] in Hw. apply walk_gap in Hw as (Ho & Ht & Hz).
  rewrite (walk_snoc _ _ _ _ mid) by by apply walk_extend.
  apply walk_gap. rewrite Hg1, Hg2. split_and!; zsolve || done.
Qed.

(** ** Publishing *)

(** What publishing leaves of the queue, seen from the events [before] it in the
    consumer's order: the output is covered, accounted for, and gaps are counted. *)
Record publish_ok (before : list observation) (from : Z) (hist' : octets)
    (v v' : observer) : Prop := {
  pub_capacity : capacity v' = capacity v;
  pub_closed : closed v' = closed v;
  pub_queued : queued v' - zlen (carried (events v')) = queued v - zlen (carried (events v));
  pub_bound : queued v <= capacity v -> queued v' <= capacity v';
  pub_walk : walk hist' from (before ++ events v') = Some (zlen hist');
  pub_gaps : gaps v' = wrap64 (gap_events (before ++ events v'))
}.

Lemma carried_output_snoc evs o : zlen (carried (evs ++ [ObsOutput o])) = zlen (carried evs) + zlen (Bytes o).
Proof. rewrite carried_app. unfold carried at 2. cbn. rewrite app_nil_r. apply zlen_app. Qed.

Lemma carried_gap_snoc evs g : carried (evs ++ [ObsGap g]) = carried evs.
Proof. rewrite carried_app. apply app_nil_r. Qed.

Lemma gap_events_snoc evs event :
  gap_events (evs ++ [event]) = gap_events evs + (if is_gap event then 1 else 0).
Proof. rewrite gap_events_app. by destruct event. Qed.

Lemma wrap64_succ n : wrap64 n +64 1 = wrap64 (n + 1).
Proof. unfold add64, wrap64. by rewrite Zplus_mod_idemp_l. Qed.

Lemma publishGapLocked_ok before from hist data g v :
  0 <= from -> walk hist from (before ++ events v) = Some (zlen hist) ->
  gaps v = wrap64 (gap_events (before ++ events v)) ->
  GapFromSequence g = zlen hist -> GapThroughSequence g = zlen (hist ++ data) ->
  publish_ok before from (hist ++ data) v (publishGapLocked g v).
Proof.
  intros Hf Hw Hg Hg1 Hg2.
  assert (Happend : publish_ok before from (hist ++ data) v
    (v <| gaps := gaps v +64 1 |> <| events := events v ++ [ObsGap g] |>)).
  { constructor; fields; try done; [by rewrite carried_gap_snoc| |].
    - rewrite app_assoc. by apply walk_gap_append.
    - rewrite app_assoc, gap_events_snoc, Hg, wrap64_succ. done. }
  unfold publishGapLocked. destruct (last (events v)) as [[o|g0|z|e|p|]|] eqn:E; try done.
  destruct (ThroughEventSequence g0 =? FromEventSequence g); [|done].
  apply last_split in E as [init E]. rewrite E, slice_init_snoc in *. rewrite app_assoc in Hw, Hg.
  constructor; fields; try done; rewrite ?E.
  - by rewrite !carried_gap_snoc.
  - rewrite app_assoc. by eapply walk_gap_merge.
  - rewrite app_assoc, gap_events_snoc in *. done.
Qed.

Lemma publishOutput_ok before from hist eventSequence data v :
  0 <= from -> walk hist from (before ++ events v) = Some (zlen hist) ->
  gaps v = wrap64 (gap_events (before ++ events v)) -> closed v = false ->
  publish_ok before from (hist ++ data) v (publishOutput (published hist eventSequence data) v).
Proof.
  intros Hf Hw Hg Hc. unfold publishOutput. rewrite Hc. cbn [Bytes published].
  destruct (Z.leb_spec (queued v + zlen data) (capacity v)) as [Hfit|Hover].
  2: { by apply publishGapLocked_ok. }
  assert (Happend : publish_ok before from (hist ++ data) v
    (v <| events := events v ++ [ObsOutput (published hist eventSequence data)] |>
       <| queued := queued v + zlen data |>)).
  { constructor; fields; try done.
    - rewrite carried_output_snoc. cbn. lia.
    - rewrite app_assoc. by apply walk_pump_append.
    - rewrite app_assoc, gap_events_snoc. cbn. by rewrite Z.add_0_r. }
  destruct (last (events v)) as [[o|g0|z|e|p|]|] eqn:E; try done.
  destruct ((_ =? _) && (_ =? _)); [|done].
  apply last_split in E as [init E]. rewrite E, slice_init_snoc in *. rewrite app_assoc in Hw, Hg.
  constructor; fields; try done; rewrite ?E.
  - rewrite !carried_output_snoc. cbn. zsolve.
  - rewrite app_assoc. by apply walk_pump_merge.
  - rewrite app_assoc, gap_events_snoc in *. done.
Qed.

(** ** Commands keep the coverage *)

Lemma run_pump_ok from eventSequence data f :
  0 <= from -> feed_ok from f -> feed_ok from (run_command (Pump eventSequence data) f).
Proof.
  intros Hf [Hq Hb (through & Hw & Hle & Hend) Hg]. cbn.
  destruct (closed (watcher f)) eqn:Ec.
  - unfold publishOutput. rewrite Ec. constructor; cbn; [done..| |done].
    exists through. rewrite Ec. split_and!; [by apply walk_extend|zsolve|done].
  - rewrite (Hend eq_refl) in Hw.
    destruct (publishOutput_ok (taken f) from (history f) eventSequence data (watcher f) Hf Hw Hg Ec)
      as [E1 E2 E3 E4 E5 E6].
    constructor; cbn; [lia|lia| |done]. exists (zlen (history f ++ data)). split_and!; done || lia.
Qed.

Lemma publish_note_ok from event f :
  plain_note event -> feed_ok from f -> feed_ok from (run_command (Note event) f).
Proof.
  intros Hn [Hq Hb (through & Hw & Hle & Hend) Hg]. cbn. unfold publish.
  destruct (closed (watcher f)) eqn:Ec; [constructor; cbn; [done..| |done]; exists through; split_and!; [done|done|congruence]|].
  constructor; fields.
  - rewrite carried_app. unfold carried at 2. destruct event; cbn; try done; by rewrite app_nil_r.
  - done.
  - exists through. rewrite app_assoc. rewrite (walk_snoc _ _ _ _ through) by done.
    split_and!; [by destruct event|done|auto].
  - rewrite app_assoc, gap_events_snoc. destruct event; cbn; try done; by rewrite Z.add_0_r.
Qed.

Lemma take_ok from f : feed_ok from f -> feed_ok from (run_command Take f).
Proof.
  intros [Hq Hb (through & Hw & Hle & Hend) Hg]. cbn. unfold next.
  destruct (events (watcher f)) as [|event rest] eqn:E.
  { rewrite app_nil_r in Hw, Hg.
    destruct (closed (watcher f)) eqn:Ec; (constructor; cbn; rewrite ?app_nil_r, ?E, ?app_nil_r;
      [done|done| |done]; exists through; split_and!; [done|done|auto || congruence]). }
  assert (Hsplit : forall v, closed v = closed (watcher f) -> capacity v = capacity (watcher f) ->
    gaps v = gaps (watcher f) -> events v = rest ->
    queued v = queued (watcher f) - zlen (event_bytes event) ->
    feed_ok from (mkFeed (history f) v (taken f ++ match event with ObsNone => [] | _ => [event] end))).
  { intros v E1 E2 E3 E4 E5. rewrite carried_cons in Hq.
    constructor; cbn; rewrite ?E1, ?E2, ?E3, ?E4; [zsolve|zsolve|..].
    - exists through. split_and!; [|done|done]. destruct event; cbn; rewrite <- ?app_assoc; try done.
      rewrite walk_app in Hw |- *. done.
    - rewrite Hg. f_equal. rewrite !gap_events_app, gap_events_cons. change (gap_events []) with 0 in *.
      destruct event; rewrite ?gap_events_cons; change (gap_events []) with 0; cbn; lia. }
  destruct event; apply Hsplit; cbn; try done; zsolve.
Qed.

Lemma run_command_ok from cmd f :
  0 <= from -> command_ok cmd -> feed_ok from f -> feed_ok from (run_command cmd f).
Proof.
  intros Hf Hc Hok. destruct cmd; [by apply run_pump_ok|by apply publish_note_ok|by apply take_ok|].
  destruct Hok as [Hq Hb (through & Hw & Hle & Hend) Hg]. constructor; fields; try done.
  by exists through.
Qed.

Lemma run_commands_ok from cmds : forall f,
  0 <= from -> Forall command_ok cmds -> feed_ok from f -> feed_ok from (run_commands cmds f).
Proof.
  induction cmds as [|cmd cmds IH]; intros f Hf Hall Hok; [done|].
  apply Forall_cons in Hall as [Hc Hall]. cbn. apply IH; [done..|]. by apply run_command_ok.
Qed.

Lemma new_feed_ok hist cap : feed_ok (zlen hist) (mkFeed hist (newObserver cap) []).
Proof.
  constructor; cbn; [done|split_tests; lia| |done]. exists (zlen hist). split_and!; done || lia.
Qed.

Lemma run_commands_extends cmds : forall f, exists k, history (run_commands cmds f) = history f ++ k.
Proof.
  induction cmds as [|cmd cmds IH]; intros f; [exists []; by rewrite app_nil_r|].
  destruct (IH (run_command cmd f)) as [k Hk]. unfold run_commands in *.
  cbn [fold_left]. rewrite Hk. clear Hk.
  destruct cmd; cbn; eauto; [|by destruct (next (watcher f)); exists k].
  rewrite <- app_assoc. eauto.
Qed.

(** ** Theorems *)

(** Whatever is published, taken and closed, the events a consumer has taken and
    those still queued cover the session's output from where the observer joined, each
    taking up where the one before it ended; while it is open they reach the live edge,
    and the output it holds stays within its capacity. *)
Theorem observer_covers_history hist cap cmds :
  Forall command_ok cmds ->
  let f := run_commands cmds (mkFeed hist (newObserver cap) []) in
  (exists through, walk (history f) (zlen hist) (taken f ++ events (watcher f)) = Some through /\
    through <= zlen (history f) /\
    (closed (watcher f) = false -> through = zlen (history f))) /\
  queued (watcher f) = zlen (carried (events (watcher f))) /\
  queued (watcher f) <= capacity (watcher f).
Proof.
  intros Hall f. destruct (run_commands_ok (zlen hist) cmds _ (zlen_nonneg hist) Hall
    (new_feed_ok hist cap)) as [Hq Hb Hw Hg]. done.
Qed.

(** An observer whose gap count is zero lost nothing: the outputs taken and queued,
    end to end, are the session's output from where it joined. *)
Theorem no_gaps_no_loss hist cap cmds :
  Forall command_ok cmds ->
  let f := run_commands cmds (mkFeed hist (newObserver cap) []) in
  gap_events (taken f ++ events (watcher f)) < two64 ->
  closed (watcher f) = false -> gapCount (watcher f) = 0 ->
  hist ++ carried (taken f ++ events (watcher f)) = history f.
Proof.
  intros Hall f Hsmall Hopen Hzero. destruct (run_commands_ok (zlen hist) cmds _ (zlen_nonneg hist) Hall
    (new_feed_ok hist cap)) as [_ _ (through & Hw & Hle & Hend) Hg]. fold f in Hw, Hle, Hend, Hg.
  unfold gapCount in Hzero. rewrite Hzero, wrap64_small in Hg
    by (split; [apply zlen_nonneg|done]).
  rewrite (Hend Hopen) in Hw.
  rewrite (walk_carried (history f) _ (zlen hist) (zlen (history f))) by (done || zsolve).
  pose proof (walk_forward _ _ _ _ Hw). rewrite range_full by zsolve.
  destruct (run_commands_extends cmds (mkFeed hist (newObserver cap) [])) as [k Hk].
  cbn in Hk. fold f in Hk. rewrite Hk. by rewrite slice_from_app, slice_from_all by zsolve.
Qed.

(** ** Witnesses *)

Definition sample_commands : list command :=
  [Pump 1 (text "abc"); Pump 2 (text "de"); Take; Note (ObsResize (mkResize 3 80 24));
   Pump 4 (text "fghij"); Pump 5 (text "k"); Take].

Lemma observer_covers_history_witness :
  let f := run_commands sample_commands (mkFeed (text "xy") (newObserver 5) []) in
  (exists through, walk (history f) 2 (taken f ++ events (watcher f)) = Some through /\
    through <= zlen (history f) /\
    (closed (watcher f) = false -> through = zlen (history f))) /\
  queued (watcher f) = zlen (carried (events (watcher f))) /\
  queued (watcher f) <= capacity (watcher f).
Proof. apply (observer_covers_history (text "xy") 5 sample_commands). repeat constructor. Defined.
