(* ===== verification/Stream.v ===== *)
(** * What goes down a connection (stream.go)

    After an attach a connection carries the session's bytes, batched by [deliver]; after
    an observe it carries the observer's events as frames, written by
    [deliverObservations].  A write to the connection may fail after a first part of its
    bytes; what the peer has is the bytes written so far.  The reference for the frames is
    a decoder, the reference for the batches is the concatenation of what arrived. *)

From S2P Require Import Prelude Contract Observer.

(** ** Big-endian integers ([encoding/binary]) *)


(** [PutUint16], [PutUint32] and [PutUint64] are [PutUint] of 2, 4 and 8 bytes. *)
Fixpoint PutUint (bytes : nat) (z : Z) : octets :=
  match bytes with
  | O => []
  | S low => byte_of (Z.shiftr z (8 * Z.of_nat low)) :: PutUint low z
  end.

Definition GetUint (l : octets) : Z := fold_left (fun acc b => acc * 256 + byte_val b) l 0.

(** [copy(payload[at:], data)] within the payload. *)
Definition put_at (at_ : Z) (data payload : octets) : octets :=
  slice_to at_ payload ++ data ++ slice_from (at_ + zlen data) payload.

Definition make (n : Z) : octets := replicate (Z.to_nat n) Byte.x00.

(** ** The connection *)

Inductive write_fate := Whole | Cut (kept : nat).

(** What the peer was sent, and the fates of the writes to come (none left means they are
    whole). *)
Record conn := mkConn {
  sent : octets;
  write_fates : list write_fate
}.

Definition conn_write (data : octets) (c : conn) : conn * bool :=
  match write_fates c with
  | [] => (mkConn (sent c ++ data) [], true)
  | Whole :: rest => (mkConn (sent c ++ data) rest, true)
  | Cut kept :: rest => (mkConn (sent c ++ take kept data) rest, false)
  end.

(** ** [deliver] *)

(** [armed] is whether the deadline runs; [over] is whether [deliver] has returned. *)
Record delivery := mkDelivery {
  batch : octets;
  armed : bool;
  peer : conn;
  over : bool
}.

#[export] Instance delivery_settable : Settable delivery :=
  fun d => mkDelivery (batch d) (armed d) (peer d) (over d).

(** What the select of the loop may take: bytes the reader sent, the end of the reader, or
    the deadline. *)
Inductive arrival := Arrived (bytes : octets) | ReaderClosed | Deadline.

#[export] Instance arrival_eq_dec : EqDecision arrival.
Proof. solve_decision. Defined.

Section deliver.
Context `{PtyContract}.

Definition flush (d : delivery) : delivery * bool :=
  match batch d with
  | [] => (d, true)
  | _ :: _ =>
      let '(c, ok) := conn_write (batch d) (peer d) in
      (d <| peer := c |> <| batch := [] |> <| armed := false |>, ok)
  end.

(** [if !flush() { return }]. *)
Definition flush_or_stop (d : delivery) : delivery :=
  let '(d, ok) := flush d in if ok then d else d <| over := true |>.

(** One turn of the loop; [None] when the select cannot take this. *)
Definition deliver_turn (e : arrival) (d : delivery) : option delivery :=
  if over d then None
  else match e with
  | Arrived bytes =>
      let d := d <| batch := batch d ++ bytes |> in
      Some (if DeliveryBatchBytes <=? zlen (batch d) then flush_or_stop d
            else if zlen (batch d) <? DeliveryMinHoldBytes then flush_or_stop d
            else d <| armed := true |>)
  | ReaderClosed => Some ((fst (flush d)) <| over := true |>)
  | Deadline => if armed d then Some (flush_or_stop d) else None
  end.

Fixpoint deliver_turns (es : list arrival) (d : delivery) : option delivery :=
  match es with
  | [] => Some d
  | e :: es => match deliver_turn e d with None => None | Some d => deliver_turns es d end
  end.

Definition start_delivery (c : conn) : delivery := mkDelivery [] false c false.

End deliver.

(** ** [deliverObservations] *)

Section observations.
Context `{PtyContract}.

Definition writeObservationFrame (kind : Byte.byte) (payload : octets) (c : conn) : conn * bool :=
  let header := put_at 1 (PutUint 4 (zlen payload)) (put_at 0 [kind] (make ObservationFrameHeaderBytes)) in
  let '(c, ok) := conn_write header c in
  if ok then conn_write payload c else (c, false).

(** The frame of one event: its kind and its payload; [None] for the zero event. *)
Definition frame_of (event : observation) : option (Byte.byte * octets) :=
  match event with
  | ObsOutput o =>
      let payload := make (ObservationOutputMetadataBytes + zlen (Bytes o)) in
      let payload := put_at 0 (PutUint 8 (EventSequence o)) payload in
      let payload := put_at 8 (PutUint 8 (FromSequence o)) payload in
      let payload := put_at 16 (PutUint 8 (ThroughSequence o)) payload in
      Some (ObservationFrameOutput, put_at 24 (Bytes o) payload)
  | ObsGap g =>
      let payload := make ObservationGapPayloadBytes in
      let payload := put_at 0 (PutUint 8 (FromEventSequence g)) payload in
      let payload := put_at 8 (PutUint 8 (ThroughEventSequence g)) payload in
      let payload := put_at 16 (PutUint 8 (GapFromSequence g)) payload in
      Some (ObservationFrameGap, put_at 24 (PutUint 8 (GapThroughSequence g)) payload)
  | ObsResize r =>
      let payload := make ObservationResizePayloadBytes in
      let payload := put_at 0 (PutUint 8 (ResizeEventSequence r)) payload in
      let payload := put_at 8 (PutUint 2 (ResizeCols r)) payload in
      Some (ObservationFrameResize, put_at 10 (PutUint 2 (ResizeRows r)) payload)
  | ObsEnd e =>
      let payload := make ObservationEndPayloadBytes in
      let payload := put_at 0 (PutUint 8 (EndEventSequence e)) payload in
      Some (ObservationFrameEnd, put_at 8 (PutUint 4 (ExitCode e)) payload)
  | ObsOpened p =>
      let payload := make ObservationOpenedPayloadBytes in
      let payload := put_at 0 (PutUint 8 (OpenedSession p)) payload in
      let payload := put_at 8 (PutUint 8 (OpenedGeneration p)) payload in
      let payload := put_at 16 (PutUint 8 (OpenedEventSequence p)) payload in
      Some (ObservationFrameOpened, put_at 24 (PutUint 8 (OpenedOutputSequence p)) payload)
  | ObsNone => None
  end.

Definition last_event (event : observation) : bool :=
  match event with ObsEnd _ | ObsNone => true | _ => false end.

(** The loop over the events [observer.next] answers, in order; it answers what is left of
    them when it returns, and [None] when it waits for the next. *)
Fixpoint deliverObservations (events : list observation) (c : conn) : conn * option (list observation) :=
  match events with
  | [] => (c, None)
  | event :: events =>
      match frame_of event with
      | None => (c, Some events)
      | Some (kind, payload) =>
          let '(c, ok) := writeObservationFrame kind payload c in
          if negb ok || last_event event then (c, Some events) else deliverObservations events c
      end
  end.

(** *** The decoder *)

(** The bytes of a frame of [kind] with [payload] behind its header. *)
Definition frame_bytes (kind : Byte.byte) (payload : octets) : octets :=
  kind :: PutUint 4 (zlen payload) ++ payload.

(** The first frame of a byte string, and what follows it; [None] when it is not all there. *)
Definition split_frame (l : octets) : option (Byte.byte * octets * octets) :=
  match l with
  | kind :: rest =>
      let size := GetUint (slice_to 4 rest) in
      let body := slice_from 4 rest in
      if (zlen rest <? 4) || (zlen body <? size) then None
      else Some (kind, slice_to size body, slice_from size body)
  | [] => None
  end.

Definition field (lo hi : Z) (payload : octets) : Z := GetUint (range lo hi payload).

Definition event_of (kind : Byte.byte) (payload : octets) : option observation :=
  if bool_decide (kind = ObservationFrameOutput) then
    Some (ObsOutput (mkOutput (field 0 8 payload) (field 8 16 payload) (field 16 24 payload) (slice_from 24 payload)))
  else if bool_decide (kind = ObservationFrameGap) then
    Some (ObsGap (mkGap (field 0 8 payload) (field 8 16 payload) (field 16 24 payload) (field 24 32 payload)))
  else if bool_decide (kind = ObservationFrameResize) then
    Some (ObsResize (mkResize (field 0 8 payload) (field 8 10 payload) (field 10 12 payload)))
  else if bool_decide (kind = ObservationFrameEnd) then
    Some (ObsEnd (mkEnd (field 0 8 payload) (field 8 12 payload)))
  else if bool_decide (kind = ObservationFrameOpened) then
    Some (ObsOpened (mkOpened (field 0 8 payload) (field 8 16 payload) (field 16 24 payload) (field 24 32 payload)))
  else None.

(** Every whole frame of a byte string, decoded; as many as [fuel] allows. *)
Fixpoint read_frames (fuel : nat) (l : octets) : list observation :=
  match fuel with
  | O => []
  | S fuel =>
      match split_frame l with
      | None => []
      | Some (kind, payload, rest) =>
          match event_of kind payload with
          | None => []
          | Some event => event :: read_frames fuel rest
          end
      end
  end.

(** A frame is at least one byte long, so the length is fuel enough. *)
Definition decode_frames (l : octets) : list observation := read_frames (length l) l.

(** An event whose fields fit the widths they are sent in. *)
Definition event_fits (event : observation) : Prop :=
  match event with
  | ObsOutput o => is_u64 (EventSequence o) /\ is_u64 (FromSequence o) /\ is_u64 (ThroughSequence o) /\
      zlen (Bytes o) < 2 ^ 32 - 24
  | ObsGap g => is_u64 (FromEventSequence g) /\ is_u64 (ThroughEventSequence g) /\
      is_u64 (GapFromSequence g) /\ is_u64 (GapThroughSequence g)
  | ObsResize r => is_u64 (ResizeEventSequence r) /\ 0 <= ResizeCols r < 65536 /\ 0 <= ResizeRows r < 65536
  | ObsEnd e => is_u64 (EndEventSequence e) /\ 0 <= ExitCode e < 2 ^ 32
  | ObsOpened p => is_u64 (OpenedSession p) /\ is_u64 (OpenedGeneration p) /\
      is_u64 (OpenedEventSequence p) /\ is_u64 (OpenedOutputSequence p)
  | ObsNone => True
  end.

(** The events of a stream: up to the end of the session or of the observer. *)
Fixpoint stream_of (events : list observation) : list observation :=
  match events with
  | [] | ObsNone :: _ => []
  | ObsEnd e :: _ => [ObsEnd e]
  | event :: events => event :: stream_of events
  end.

End observations.

#[global] Arguments PutUint : simpl never.
#[global] Arguments make : simpl never.
#[global] Arguments put_at : simpl never.

(** ** Big-endian integers *)

Lemma PutUint_S n z : PutUint (S n) z = byte_of (Z.shiftr z (8 * Z.of_nat n)) :: PutUint n z.
Proof. done. Qed.

Lemma length_PutUint n z : length (PutUint n z) = n.
Proof. induction n as [|n IH]; [done|]. rewrite PutUint_S. cbn. by rewrite IH. Qed.

Lemma zlen_PutUint n z : zlen (PutUint n z) = Z.of_nat n.
Proof. unfold zlen. by rewrite length_PutUint. Qed.

Lemma GetUint_go n z : forall acc,
  fold_left (fun acc b => acc * 256 + byte_val b) (PutUint n z) acc =
  acc * 2 ^ (8 * Z.of_nat n) + z mod 2 ^ (8 * Z.of_nat n).
Proof.
  induction n as [|n IH]; intros acc.
  - change (8 * Z.of_nat 0) with 0. rewrite Z.pow_0_r, Z.mod_1_r. change (acc = acc * 1 + 0). lia.
  - rewrite PutUint_S. cbn [fold_left]. rewrite IH, byte_val_of, Z.shiftr_div_pow2 by lia.
    replace (8 * Z.of_nat (S n)) with (8 * Z.of_nat n + 8) by lia. rewrite Z.pow_add_r by lia.
    change (2 ^ 8) with 256. assert (Hp : 0 < 2 ^ (8 * Z.of_nat n)) by (apply Z.pow_pos_nonneg; lia).
    set (p := 2 ^ (8 * Z.of_nat n)) in *. rewrite (Z.rem_mul_r z p 256) by lia. ring.
Qed.

Lemma GetUint_Put n z : 0 <= z < 2 ^ (8 * Z.of_nat n) -> GetUint (PutUint n z) = z.
Proof. intros Hz. unfold GetUint. rewrite GetUint_go, Z.mod_small by done. lia. Qed.

(** ** Frames *)

Section ranges.

Lemma range_here {A} n (x l : list A) : n = zlen x -> range 0 n (x ++ l) = x.
Proof.
  intros ->. unfold range, slice_to. rewrite slice_from_0. unfold zlen.
  rewrite Z.sub_0_r, Nat2Z.id. apply take_app_length.
Qed.

Lemma range_skip {A} lo hi (x l : list A) : zlen x <= lo ->
  range lo hi (x ++ l) = range (lo - zlen x) (hi - zlen x) l.
Proof.
  intros Hlo. unfold range, slice_to, slice_from. rewrite drop_app_ge by (unfold zlen in *; lia).
  f_equal; [lia|]. f_equal. unfold zlen in *. lia.
Qed.

Lemma slice_from_skip {A} n (x l : list A) : zlen x <= n -> slice_from n (x ++ l) = slice_from (n - zlen x) l.
Proof.
  intros Hn. unfold slice_from. rewrite drop_app_ge by (unfold zlen in *; lia). f_equal. unfold zlen in *. lia.
Qed.

Lemma zlen_make n : 0 <= n -> zlen (make n) = n.
Proof. intros Hn. unfold zlen, make. rewrite length_replicate. lia. Qed.

Lemma make_0 : make 0 = [].
Proof. done. Qed.

(** Filling the bytes after those filled so far. *)
Lemma put_make at_ data pre n : at_ = zlen pre -> zlen data <= n ->
  put_at at_ data (pre ++ make n) = (pre ++ data) ++ make (n - zlen data).
Proof.
  intros -> Hn. pose proof (zlen_nonneg data). unfold put_at. unfold slice_to at 1.
  rewrite slice_from_skip by lia. unfold zlen at 1. rewrite Nat2Z.id, take_app_length, <- app_assoc.
  do 2 f_equal. replace (zlen pre + zlen data - zlen pre) with (zlen data) by lia.
  unfold slice_from, make. rewrite drop_replicate. f_equal. unfold zlen in *. lia.
Qed.

Lemma put_first at_ data n : at_ = 0 -> zlen data <= n ->
  put_at at_ data (make n) = data ++ make (n - zlen data).
Proof. intros -> Hn. exact (put_make 0 data [] n eq_refl Hn). Qed.

End ranges.

#[export] Hint Rewrite zlen_PutUint zlen_make using lia : ptylen.

Section frames.
Context `{PtyContractLaws}.

Lemma pow8 : 2 ^ (8 * Z.of_nat 8) = two64.
Proof. reflexivity. Qed.

Ltac fill := repeat first
  [ rewrite put_first by zsolve | rewrite put_make by zsolve ];
  rewrite ?zlen_PutUint;
  match goal with |- context [make ?n] => replace n with 0 by zsolve end; rewrite make_0, app_nil_r, <- ?app_assoc.

(** The payloads, written out. *)
Definition payload_of (event : observation) : Byte.byte * octets :=
  match event with
  | ObsOutput o => (ObservationFrameOutput,
      PutUint 8 (EventSequence o) ++ PutUint 8 (FromSequence o) ++ PutUint 8 (ThroughSequence o) ++ Bytes o)
  | ObsGap g => (ObservationFrameGap,
      PutUint 8 (FromEventSequence g) ++ PutUint 8 (ThroughEventSequence g) ++
      PutUint 8 (GapFromSequence g) ++ PutUint 8 (GapThroughSequence g) ++ [])
  | ObsResize r => (ObservationFrameResize,
      PutUint 8 (ResizeEventSequence r) ++ PutUint 2 (ResizeCols r) ++ PutUint 2 (ResizeRows r) ++ [])
  | ObsEnd e => (ObservationFrameEnd, PutUint 8 (EndEventSequence e) ++ PutUint 4 (ExitCode e) ++ [])
  | ObsOpened p => (ObservationFrameOpened,
      PutUint 8 (OpenedSession p) ++ PutUint 8 (OpenedGeneration p) ++
      PutUint 8 (OpenedEventSequence p) ++ PutUint 8 (OpenedOutputSequence p) ++ [])
  | ObsNone => (Byte.x00, [])
  end.

Lemma frame_of_payload event : event <> ObsNone -> frame_of event = Some (payload_of event).
Proof.
  intros Hne. pose proof output_metadata_size as E1. pose proof gap_payload_size as E2.
  pose proof resize_payload_size as E3. pose proof end_payload_size as E4. pose proof opened_payload_size as E5.
  destruct event as [o|g|r|e|p|]; [..|done]; cbn [frame_of payload_of];
    rewrite ?E1, ?E2, ?E3, ?E4, ?E5, ?app_nil_r; do 2 f_equal; by fill.
Qed.

(** Reading a field off the front of what is left of a payload. *)
Lemma field_here n lo hi z l : lo = 0 -> hi = Z.of_nat n -> 0 <= z < 2 ^ (8 * Z.of_nat n) ->
  field lo hi (PutUint n z ++ l) = z.
Proof. intros -> -> Hz. unfold field. rewrite range_here by (by rewrite zlen_PutUint). by apply GetUint_Put. Qed.

Lemma field_skip n lo hi z l : Z.of_nat n <= lo ->
  field lo hi (PutUint n z ++ l) = field (lo - Z.of_nat n) (hi - Z.of_nat n) l.
Proof. intros Hlo. unfold field. by rewrite range_skip, zlen_PutUint by (by rewrite zlen_PutUint). Qed.

Ltac read_fields := repeat first
  [ rewrite field_here by (cbn; unfold is_u64, two64 in *; lia)
  | rewrite field_skip by (cbn; lia)
  | rewrite slice_from_skip by (rewrite zlen_PutUint; cbn; lia); rewrite zlen_PutUint ].

Ltac pick_kind :=
  repeat match goal with |- context [bool_decide ?P] =>
    first [ rewrite (bool_decide_eq_true_2 P) by done | rewrite (bool_decide_eq_false_2 P) by congruence ] end.

Lemma event_decoded event : event <> ObsNone -> event_fits event ->
  uncurry event_of (payload_of event) = Some event /\ zlen (snd (payload_of event)) < 2 ^ 32.
Proof.
  intros Hne Hfit. pose proof frame_kinds_distinct as Hk. rewrite !NoDup_cons, !not_elem_of_cons in Hk.
  destruct Hk as ((?&?&?&?&_) & (?&?&?&_) & (?&?&_) & (?&_) & _).
  destruct event as [[s f t b]|[a b c d]|[s c r]|[s x]|[a b c d]|]; [..|done];
    cbn [payload_of uncurry event_fits snd EventSequence FromSequence ThroughSequence Bytes FromEventSequence
      ThroughEventSequence GapFromSequence GapThroughSequence ResizeEventSequence ResizeCols ResizeRows
      EndEventSequence ExitCode OpenedSession OpenedGeneration OpenedEventSequence OpenedOutputSequence] in *;
    unfold event_of; pick_kind; (split; [|zsolve]); destruct_and?; f_equal; f_equal; f_equal; by read_fields.
Qed.

Lemma GetUint_size (payload : octets) : zlen payload < 2 ^ 32 -> GetUint (PutUint 4 (zlen payload)) = zlen payload.
Proof. intros Hp. apply GetUint_Put. pose proof (zlen_nonneg payload). cbn. lia. Qed.

Lemma split_frame_whole kind payload rest : zlen payload < 2 ^ 32 ->
  split_frame (frame_bytes kind payload ++ rest) = Some (kind, payload, rest).
Proof.
  intros Hp. unfold frame_bytes. cbn [app split_frame]. rewrite <- app_assoc.
  change 4 with (Z.of_nat 4). rewrite <- (zlen_PutUint 4 (zlen payload)).
  rewrite slice_from_skip, Z.sub_diag, slice_from_0 by lia.
  assert (Hto : forall x l : octets, slice_to (zlen x) (x ++ l) = x).
  { intros x l. unfold slice_to, zlen. rewrite Nat2Z.id. apply take_app_length. }
  rewrite Hto, GetUint_size by done.
  destruct (Z.ltb_spec (zlen (PutUint 4 (zlen payload) ++ payload ++ rest)) (zlen (PutUint 4 (zlen payload)))); [zsolve|].
  destruct (Z.ltb_spec (zlen (payload ++ rest)) (zlen payload)); [zsolve|]. cbn [orb].
  rewrite Hto, slice_from_skip, Z.sub_diag by lia. done.
Qed.

(** A first part of a frame is no frame. *)
Lemma split_frame_cut kind payload l more : zlen payload < 2 ^ 32 -> more <> [] ->
  frame_bytes kind payload = l ++ more -> split_frame l = None.
Proof.
  intros Hp Hmore E. unfold frame_bytes in E. destruct l as [|k l]; [done|]. cbn [app] in E.
  assert (E' : PutUint 4 (zlen payload) ++ payload = l ++ more) by (by injection E).
  assert (kind = k) as <- by (by injection E). clear E. rename E' into E. cbn [split_frame]. destruct (Z.ltb_spec (zlen l) 4) as [|Hl]; [done|]. cbn [orb].
  assert (Hm : 0 < zlen more) by (destruct more; [done|rewrite zlen_cons; zsolve]).
  assert (Hhead : slice_to 4 l = PutUint 4 (zlen payload)).
  { apply (f_equal (slice_to 4)) in E. unfold slice_to in *.
    rewrite (take_app_le l) in E by (unfold zlen in *; lia). rewrite <- E.
    change (Z.to_nat 4) with 4%nat. by rewrite take_app_length' by (by rewrite length_PutUint). }
  rewrite Hhead, GetUint_size by done. apply (f_equal zlen) in E. rewrite !zlen_app, zlen_PutUint in E.
  rewrite zlen_slice_from by lia. destruct (Z.ltb_spec (zlen l - 4) (zlen payload)); [done|lia].
Qed.

Lemma split_frame_shorter l kind payload rest : split_frame l = Some (kind, payload, rest) ->
  (length rest < length l)%nat.
Proof.
  destruct l as [|k l]; [done|]. cbn [split_frame]. destruct (_ || _); [done|].
  intros [= <- <- <-]. unfold slice_from. rewrite !length_drop. cbn. lia.
Qed.

Lemma read_frames_fuel f : forall g l, (length l <= f)%nat -> (length l <= g)%nat ->
  read_frames f l = read_frames g l.
Proof.
  induction f as [|f IH]; intros [|g] l Hf Hg; try done.
  - destruct l; [done|cbn in Hf; lia].
  - destruct l; [done|cbn in Hg; lia].
  - cbn. destruct (split_frame l) as [[[k p] rest]|] eqn:E; [|done].
    apply split_frame_shorter in E. destruct (event_of k p); [|done]. f_equal. apply IH; lia.
Qed.

Lemma decode_frame event l : event <> ObsNone -> event_fits event ->
  decode_frames (uncurry frame_bytes (payload_of event) ++ l) = event :: decode_frames l.
Proof.
  intros Hne Hfit. destruct (event_decoded event Hne Hfit) as [Hev Hp].
  destruct (payload_of event) as [k p]. cbn [uncurry snd] in *. unfold decode_frames.
  assert (Hlen : exists n, length (frame_bytes k p ++ l) = S n /\ (length l <= n)%nat).
  { unfold frame_bytes. cbn. eexists. split; [done|]. rewrite !length_app. lia. }
  destruct Hlen as (n & -> & Hn). cbn [read_frames]. rewrite split_frame_whole, Hev by done.
  f_equal. by apply read_frames_fuel.
Qed.

Lemma decode_cut event l : event <> ObsNone -> event_fits event ->
  l `prefix_of` uncurry frame_bytes (payload_of event) -> decode_frames l `prefix_of` [event].
Proof.
  intros Hne Hfit [more E]. destruct (event_decoded event Hne Hfit) as [_ Hp].
  destruct (decide (more = [])) as [->|Hm].
  - rewrite app_nil_r in E. rewrite <- E, <- (app_nil_r (uncurry _ _)), decode_frame by done. done.
  - destruct (payload_of event) as [k p]. cbn [uncurry snd] in *. unfold decode_frames.
    destruct (length l); cbn; [apply prefix_nil|]. rewrite (split_frame_cut k p l more) by done. apply prefix_nil.
Qed.

(** One frame written: all of it, or a first part and the stream is over. *)
Lemma write_frame_sent kind payload c :
  let '(c', ok) := writeObservationFrame kind payload c in
  exists out, sent c' = sent c ++ out /\ out `prefix_of` frame_bytes kind payload /\
    (ok = true -> out = frame_bytes kind payload) /\
    (Forall (eq Whole) (write_fates c) -> ok = true /\ Forall (eq Whole) (write_fates c')).
Proof.
  pose proof header_size as Eh.
  assert (Hheader : put_at 1 (PutUint 4 (zlen payload)) (put_at 0 [kind] (make ObservationFrameHeaderBytes)) =
    kind :: PutUint 4 (zlen payload)).
  { rewrite Eh, put_first by done. change [kind] with ([kind] ++ []) at 1.
    rewrite put_make by (rewrite ?zlen_PutUint; done). by rewrite zlen_PutUint, app_nil_r. }
  unfold writeObservationFrame. rewrite Hheader.
  assert (Hsplit : frame_bytes kind payload = (kind :: PutUint 4 (zlen payload)) ++ payload) by done.
  unfold conn_write at 1. destruct (write_fates c) as [|[|kept] fates] eqn:Ef.
  - cbn [conn_write write_fates]. eexists. split; [cbn; by rewrite <- app_assoc|]. rewrite <- Hsplit. done.
  - unfold conn_write. cbn [write_fates sent]. destruct fates as [|[|kept] fates].
    + eexists. split; [cbn; by rewrite <- app_assoc|]. rewrite <- Hsplit. done.
    + eexists. split; [cbn; by rewrite <- app_assoc|]. rewrite <- Hsplit.
      split_and!; [done|done|]. intros Hall. split; [done|]. cbn. by inversion_clear Hall as [|? ? ? Hrest]; inversion_clear Hrest.
    + eexists. split; [cbn; by rewrite <- app_assoc|]. split_and!; [|done|].
      * rewrite Hsplit. apply prefix_app. exists (drop kept payload). by rewrite take_drop.
      * intros Hall. inversion_clear Hall as [|? ? ? Hrest]. by inversion_clear Hrest.
  - eexists. split; [done|]. split_and!; [|done|].
    + exists (drop kept (kind :: PutUint 4 (zlen payload)) ++ payload). by rewrite app_assoc, take_drop.
    + intros Hall. by inversion_clear Hall.
Qed.

(** C18: an observer's frames read back as its events: what a peer decodes from the
    connection is a prefix of the observer's events up to the end of the session, whichever
    write fails and however far it got, and it is all of them when no write fails. *)
Theorem frames_read_back events c : sent c = [] -> Forall event_fits events ->
  let '(c', _) := deliverObservations events c in
  decode_frames (sent c') `prefix_of` stream_of events /\
  (Forall (eq Whole) (write_fates c) -> decode_frames (sent c') = stream_of events).
Proof.
  intros Hc Hfit.
  assert (Hrun : forall c, let '(c', _) := deliverObservations events c in
    exists out, sent c' = sent c ++ out /\ decode_frames out `prefix_of` stream_of events /\
      (Forall (eq Whole) (write_fates c) -> decode_frames out = stream_of events)).
  { clear c Hc. induction Hfit as [|event events Hev _ IH]; intros c; cbn [deliverObservations].
    { exists []. by rewrite app_nil_r. }
    destruct (decide (event = ObsNone)) as [->|Hne].
    { cbn. exists []. by rewrite app_nil_r. }
    rewrite frame_of_payload by done. pose proof (decode_frame event) as Hdec. pose proof (decode_cut event) as Hcut.
    destruct (payload_of event) as [kind payload]. cbn [uncurry] in *.
    pose proof (write_frame_sent kind payload c) as Hw.
    destruct (writeObservationFrame kind payload c) as [c1 ok]. destruct Hw as (out & Hout & Hpre & Hall & Hwhole).
    assert (Hstop : (ok = false \/ exists e, event = ObsEnd e) ->
      exists out0, sent c1 = sent c ++ out0 /\ decode_frames out0 `prefix_of` stream_of (event :: events) /\
        (Forall (eq Whole) (write_fates c) -> decode_frames out0 = stream_of (event :: events))).
    { intros Hend. exists out. split; [done|].
      assert (Hhead : [event] `prefix_of` stream_of (event :: events)).
      { destruct event; try done; cbn; by apply prefix_cons, prefix_nil. }
      split; [etransitivity; [by apply Hcut|done]|]. intros [Hok _]%Hwhole.
      destruct Hend as [?|[e ->]]; [congruence|]. rewrite (Hall Hok), <- (app_nil_r (frame_bytes kind payload)).
      by rewrite Hdec. }
    destruct ok; cbn [negb orb]; [|by apply Hstop; left].
    destruct (last_event event) eqn:El; [apply Hstop; right; destruct event; try done; by eexists|].
    specialize (IH c1). destruct (deliverObservations events c1) as [c2 left].
    destruct IH as (out2 & Hout2 & Hpre2 & Hwhole2). exists (out ++ out2).
    assert (Hs : stream_of (event :: events) = event :: stream_of events) by (by destruct event).
    rewrite Hout2, Hout, app_assoc, (Hall eq_refl), Hdec, Hs by done. split_and!; [done|by apply prefix_cons|].
    intros [_ Hf]%Hwhole. f_equal. by apply Hwhole2. }
  specialize (Hrun c). destruct (deliverObservations events c) as [c' left].
  destruct Hrun as (out & -> & H1 & H2). by rewrite Hc.
Qed.

End frames.

(** ** Batches *)

Section batches.
Context `{PtyContract}.

Definition arrived (es : list arrival) : octets :=
  concat (map (fun e => match e with Arrived bytes => bytes | _ => [] end) es).

(** The reader sends bytes, never an empty slice. *)
Definition real_arrival (e : arrival) : Prop := match e with Arrived bytes => bytes <> [] | _ => True end.

Definition fine (c : conn) : Prop := Forall (eq Whole) (write_fates c).

(** [came] has arrived since the start; [whole] is that no write is to fail. *)
Record delivering (came : octets) (whole : bool) (d : delivery) : Prop := {
  sent_so_far : sent (peer d) `prefix_of` came;
  still_fine : whole = true -> fine (peer d);
  nothing_lost : over d = false -> sent (peer d) ++ batch d = came;
  held_in_bounds : over d = false -> batch d <> [] ->
    DeliveryMinHoldBytes <= zlen (batch d) < DeliveryBatchBytes /\ armed d = true;
  armed_holds : armed d = true -> over d = false -> batch d <> []
}.

Lemma conn_write_sent data c :
  let '(c', ok) := conn_write data c in
  (exists kept, sent c' = sent c ++ take kept data) /\ (ok = true -> sent c' = sent c ++ data) /\
  (fine c -> ok = true /\ fine c').
Proof.
  unfold conn_write, fine. destruct (write_fates c) as [|[|kept] fates].
  - split; [exists (length data); by rewrite take_ge|]. done.
  - split; [exists (length data); by rewrite take_ge|]. split; [done|]. intros Hf. by inversion_clear Hf.
  - split; [by exists kept|]. split; [done|]. intros Hf. by inversion_clear Hf.
Qed.

(** Flushing everything that came. *)
Lemma flush_delivering came whole d : over d = false -> sent (peer d) ++ batch d = came ->
  (whole = true -> fine (peer d)) -> (batch d = [] -> armed d = false) ->
  delivering came whole (flush_or_stop d) /\
  (over (flush_or_stop d) = false -> sent (peer (flush_or_stop d)) = came /\ batch (flush_or_stop d) = []) /\
  (whole = true -> over (flush_or_stop d) = false).
Proof.
  intros Ho Hs Hf Ha. unfold flush_or_stop, flush. destruct (batch d) as [|b l] eqn:Eb.
  - rewrite app_nil_r in Hs. split_and!; try done. constructor; rewrite ?Eb, ?app_nil_r; try done.
    + by rewrite Hs.
    + intros Harm. by rewrite (Ha eq_refl) in Harm.
  - pose proof (conn_write_sent (b :: l) (peer d)) as Hw. destruct (conn_write (b :: l) (peer d)) as [c ok].
    destruct Hw as ([kept Hk] & Hok & Hfine). destruct ok.
    + rewrite <- Hs, <- (Hok eq_refl). split_and!; try done. constructor; cbn; try done.
      * intros Hwh. by apply Hfine, Hf.
      * by rewrite app_nil_r.
    + split_and!; [constructor; cbn; try done| |].
      * rewrite Hk, <- Hs. apply prefix_app. exists (drop kept (b :: l)). by rewrite take_drop.
      * intros Hwh. by apply Hfine, Hf.
      * done.
      * intros Hwh. by destruct (Hfine (Hf Hwh)).
Qed.

Lemma turn_delivering came whole e d d' : real_arrival e -> delivering came whole d ->
  deliver_turn e d = Some d' ->
  delivering (came ++ arrived [e]) whole d' /\
  (whole = true -> over d' = bool_decide (e = ReaderClosed) /\
    (e = ReaderClosed -> sent (peer d') = came)).
Proof.
  intros Hreal [H1 H2 H3 H4 H5]. unfold deliver_turn. destruct (over d) eqn:Ho; [done|].
  destruct e as [bytes| |]; cbn [arrived map concat]; rewrite ?app_nil_r.
  - intros [= <-]. set (d1 := d <| batch := batch d ++ bytes |>).
    assert (Hsent : sent (peer d1) ++ batch d1 = came ++ bytes) by (cbn; by rewrite app_assoc, H3).
    assert (Hne : batch d1 <> []) by (cbn; intros [_ ?]%app_nil; done).
    pose proof (flush_delivering (came ++ bytes) whole d1 Ho Hsent H2 (fun E => False_ind _ (Hne E))) as (HA & _ & HC).
    assert (Hflush : delivering (came ++ bytes) whole (flush_or_stop d1) /\
      (whole = true -> over (flush_or_stop d1) = false /\ (Arrived bytes = ReaderClosed -> sent (peer (flush_or_stop d1)) = came))).
    { split; [done|]. intros Hwh. split; [by apply HC|done]. }
    rewrite bool_decide_eq_false_2 by done. change (batch d ++ bytes) with (batch d1).
    destruct (Z.leb_spec DeliveryBatchBytes (zlen (batch d1))); [done|].
    destruct (Z.ltb_spec (zlen (batch d1)) DeliveryMinHoldBytes); [done|].
    split; [|done]. constructor; try done.
    + cbn. etransitivity; [exact H1|]. by apply prefix_app_r.
  - intros [= <-]. rewrite bool_decide_eq_true_2 by done.
    assert (Harm : batch d = [] -> armed d = false).
    { intros Eb. destruct (armed d) eqn:Ea; [|done]. by destruct (H5 eq_refl eq_refl). }
    destruct (flush_delivering came whole d Ho (H3 eq_refl) H2 Harm) as ([G1 G2 _ _ _] & HB & HC).
    unfold flush_or_stop in *. destruct (flush d) as [d1 ok]. cbn [fst].
    assert (Hpeer : peer (if ok then d1 else d1 <| over := true |>) = peer d1) by (by destruct ok).
    rewrite Hpeer in *. split; [by constructor|]. intros Hwh. split; [done|]. intros _. by apply HB, HC.
  - destruct (armed d) eqn:Ea; [|done]. intros [= <-]. rewrite bool_decide_eq_false_2 by done.
    destruct (flush_delivering came whole d Ho (H3 eq_refl) H2) as (HA & _ & HC).
    { intros Eb. by destruct (H5 eq_refl eq_refl). }
    split; [done|]. intros Hwh. split; [by apply HC|done].
Qed.

Lemma arrived_cons e es : arrived (e :: es) = arrived [e] ++ arrived es.
Proof. unfold arrived. cbn. by rewrite app_nil_r. Qed.

Lemma turns_delivering es : forall came whole d d', Forall real_arrival es -> delivering came whole d ->
  deliver_turns es d = Some d' -> 
  delivering (came ++ arrived es) whole d' /\
  (whole = true -> over d = false -> over d' = bool_decide (ReaderClosed ∈ es) /\
    (over d' = true -> sent (peer d') = came ++ arrived es)).
Proof.
  induction es as [|e es IH]; intros came whole d d' Hreal Hd; cbn [deliver_turns].
  - intros [= <-]. rewrite app_nil_r. split; [done|]. intros _ Ho. split; [|by rewrite Ho].
    rewrite bool_decide_eq_false_2; [done|]. by apply not_elem_of_nil.
  - apply Forall_cons in Hreal as [He Hes]. destruct (deliver_turn e d) as [d1|] eqn:E; [|done]. intros Hrest.
    destruct (turn_delivering came whole e d d1 He Hd E) as [Hd1 Hw1].
    destruct (IH _ whole d1 d' Hes Hd1 Hrest) as [Hd' Hw']. rewrite arrived_cons, app_assoc.
    split; [done|]. intros Hwh Ho. destruct (Hw1 Hwh) as [Ho1 Hs1].
    destruct (decide (e = ReaderClosed)) as [->|Hne].
    + rewrite bool_decide_eq_true_2 in Ho1 by done. rewrite bool_decide_eq_true_2 by (by left).
      destruct es as [|e' es]; cbn [deliver_turns] in Hrest.
      * injection Hrest as <-. split; [done|]. intros _. cbn. by rewrite !app_nil_r, Hs1.
      * unfold deliver_turn in Hrest. by rewrite Ho1 in Hrest.
    + rewrite bool_decide_eq_false_2 in Ho1 by done. destruct (Hw' Hwh Ho1) as [Hov Hall]. split; [|done].
      rewrite Hov. apply bool_decide_ext. rewrite elem_of_cons. split; [by right|]. by intros [?|?].
Qed.

(** C19: delivery holds nothing back for long and loses nothing: whatever turns the loop
    takes, the connection was sent a first part of what arrived; until [deliver] returns
    the rest of it is the open batch, which is within the batch bounds with its deadline
    running, and taking the deadline empties it; and when no write fails it returns only at
    the end of the reader, having sent everything. *)
Theorem deliver_sends_what_arrived es c d :
  sent c = [] -> Forall real_arrival es -> deliver_turns es (start_delivery c) = Some d ->
  sent (peer d) `prefix_of` arrived es /\
  (over d = false -> sent (peer d) ++ batch d = arrived es /\
    (batch d <> [] -> DeliveryMinHoldBytes <= zlen (batch d) < DeliveryBatchBytes /\
       exists d', deliver_turn Deadline d = Some d' /\ batch d' = [])) /\
  (Forall (eq Whole) (write_fates c) -> over d = bool_decide (ReaderClosed ∈ es) /\
    (over d = true -> sent (peer d) = arrived es)).
Proof.
  intros Hc Hreal Hrun.
  assert (Hstart : forall whole, (whole = true -> fine c) -> delivering [] whole (start_delivery c)).
  { intros whole Hf. constructor; cbn; try done. by rewrite Hc. by rewrite Hc. }
  destruct (turns_delivering es [] false _ d Hreal (Hstart false ltac:(done)) Hrun) as [[H1 _ H3 H4 _] _].
  cbn [app] in *. split_and!; [done| |].
  - intros Ho. split; [by apply H3|]. intros Hb. destruct (H4 Ho Hb) as [Hbound Harm]. split; [done|].
    unfold deliver_turn. rewrite Ho, Harm. eexists. split; [done|]. unfold flush_or_stop, flush.
    destruct (batch d); [done|]. destruct (conn_write _ _) as [c' []]; done.
  - intros Hf. destruct (turns_delivering es [] true _ d Hreal (Hstart true (fun _ => Hf)) Hrun) as [_ Hw].
    by apply Hw.
Qed.

End batches.

(** ** Witnesses *)

#[local] Existing Instance sample_contract.
#[local] Existing Instance sample_contract_laws.

Lemma frames_read_back_witness :
  let events := [ObsOpened (mkOpened 7 1 0 0); ObsOutput (mkOutput 1 0 2 (text "hi")); ObsEnd (mkEnd 2 0)] in
  let c := mkConn [] [Whole; Whole; Whole; Cut 3] in
  let '(c', _) := deliverObservations events c in
  decode_frames (sent c') `prefix_of` stream_of events /\
  (Forall (eq Whole) (write_fates c) -> decode_frames (sent c') = stream_of events).
Proof.
  apply (frames_read_back [ObsOpened (mkOpened 7 1 0 0); ObsOutput (mkOutput 1 0 2 (text "hi")); ObsEnd (mkEnd 2 0)]
    (mkConn [] [Whole; Whole; Whole; Cut 3])); [reflexivity|].
  repeat constructor; cbn; unfold is_u64, two64, zlen; cbn; lia.
Defined.

Lemma deliver_sends_what_arrived_witness :
  let es := [Arrived (text "a"); Arrived (text "bcd"); Deadline; Arrived (text "efgh")] in
  let d := mkDelivery (text "efgh") true (mkConn (text "abcd") []) false in
  deliver_turns es (start_delivery (mkConn [] [])) = Some d /\
  sent (peer d) `prefix_of` arrived es /\
  (over d = false -> sent (peer d) ++ batch d = arrived es /\
    (batch d <> [] -> DeliveryMinHoldBytes <= zlen (batch d) < DeliveryBatchBytes /\
       exists d', deliver_turn Deadline d = Some d' /\ batch d' = [])) /\
  (Forall (eq Whole) (write_fates (mkConn [] [])) -> over d = bool_decide (ReaderClosed ∈ es) /\
    (over d = true -> sent (peer d) = arrived es)).
Proof.
  split; [reflexivity|].
  apply (deliver_sends_what_arrived [Arrived (text "a"); Arrived (text "bcd"); Deadline; Arrived (text "efgh")]
    (mkConn [] [])); [reflexivity| |reflexivity]. repeat constructor; done.
Defined.
