(* ===== verification/StoreFeed.v ===== *)
(** * The store feed (feed.go)

    A bounded queue between a session's pump and its store.  [offer] never waits: what
    does not fit is dropped and reported.  One goroutine takes chunks off the queue and
    hands each to the sink outside the lock.  The sink is an argument: a function of the
    state [S] of whatever is behind it.  A step of the system is one critical section or
    one call of the sink. *)

From S2P Require Import Prelude.

(** ** State *)

Record chunk := mkChunk {
  data : octets;
  through : Z
}.

Record storeFeed := mkStoreFeed {
  pending : list chunk;
  queued : Z;
  closed : bool
}.

#[export] Instance storeFeed_settable : Settable storeFeed :=
  fun feed => mkStoreFeed (pending feed) (queued feed) (closed feed).

(** What the feed writes to the standard error: bytes dropped by a full queue, bytes the
    sink failed to write, bytes left when a stop gave up waiting. *)
Inductive report :=
| Dropped (bytes : Z)
| Failed (bytes : Z)
| StoppedWith (bytes : Z).

(** ** Operations *)

Definition feedDepth : Z := 2 * 32768.

Definition newStoreFeed : storeFeed := mkStoreFeed [] 0 false.

Definition offer (d : octets) (at_ : Z) (feed : storeFeed) : storeFeed * list report :=
  if closed feed then (feed, [])
  else if feedDepth <? queued feed + zlen d then (feed, [Dropped (zlen d)])
  else (feed <| pending := pending feed ++ [mkChunk d at_] |>
             <| queued := queued feed + zlen d |>, []).

(** The critical section of [run]: wait, return because the feed is closed and empty, or
    take the next chunk. *)
Inductive run_turn :=
| RunWaits
| RunReturns
| RunTakes (next : chunk) (feed : storeFeed).

Definition run_locked (feed : storeFeed) : run_turn :=
  match pending feed with
  | [] => if closed feed then RunReturns else RunWaits
  | next :: rest =>
      RunTakes next (feed <| pending := rest |> <| queued := queued feed - zlen (data next) |>)
  end.

(** [closeWithin] up to the wait; [false] when the feed was closed already, where it
    returns at once. *)
Definition close_locked (feed : storeFeed) : storeFeed * bool :=
  if closed feed then (feed, false) else (feed <| closed := true |>, true).

(** What [closeWithin] reports when the wait ran out. *)
Definition close_timed_out (feed : storeFeed) : report := StoppedWith (queued feed).

(** ** The system *)

Section system.
Context {St : Type} (sink : octets -> Z -> St -> St * bool).

(** The feed, the goroutine that drains it (the chunk it holds outside the lock, and
    whether it returned), the state behind the sink and the reports so far.  [accepted],
    [sunk] and [offered] are history: the chunks queued, the chunks handed to the sink,
    and the bytes offered while the feed was open. *)
Record system := mkSystem {
  feed : storeFeed;
  inflight : option chunk;
  returned : bool;
  target : St;
  reports : list report;
  accepted : list chunk;
  sunk : list chunk;
  offered : Z
}.

Definition start (t : St) : system := mkSystem newStoreFeed None false t [] [] [] 0.

Definition do_offer (d : octets) (at_ : Z) (s : system) : system :=
  let '(feed', reported) := offer d at_ (feed s) in
  mkSystem feed' (inflight s) (returned s) (target s) (reports s ++ reported)
    (if closed (feed s) then accepted s
     else match reported with [] => accepted s ++ [mkChunk d at_] | _ => accepted s end)
    (sunk s) (if closed (feed s) then offered s else offered s + zlen d).

Definition do_close (s : system) : system :=
  mkSystem (fst (close_locked (feed s))) (inflight s) (returned s) (target s) (reports s)
    (accepted s) (sunk s) (offered s).

(** One step of the goroutine, or [None] when it waits or has returned. *)
Definition do_run (s : system) : option system :=
  if returned s then None
  else match inflight s with
  | Some next =>
      let '(t, ok) := sink (data next) (through next) (target s) in
      Some (mkSystem (feed s) None false t
        (reports s ++ if ok then [] else [Failed (zlen (data next))])
        (accepted s) (sunk s ++ [next]) (offered s))
  | None =>
      match run_locked (feed s) with
      | RunWaits => None
      | RunReturns => Some (mkSystem (feed s) None true (target s) (reports s)
          (accepted s) (sunk s) (offered s))
      | RunTakes next feed' => Some (mkSystem feed' (Some next) false (target s) (reports s)
          (accepted s) (sunk s) (offered s))
      end
  end.

Inductive step : system -> system -> Prop :=
| step_offer d at_ s : step s (do_offer d at_ s)
| step_close s : step s (do_close s)
| step_run s s' : do_run s = Some s' -> step s s'.

(** The goroutine on its own, for as long as it can step, at most [fuel] times. *)
Fixpoint run_alone (fuel : nat) (s : system) : system :=
  match fuel with
  | O => s
  | S fuel => match do_run s with Some s' => run_alone fuel s' | None => s end
  end.

(** ** Specification *)

Definition chunk_bytes (cs : list chunk) : Z := zlen (concat (map data cs)).

(** The sink applied to a list of chunks in order. *)
Definition sink_all (cs : list chunk) (t : St) : St :=
  fold_left (fun t c => fst (sink (data c) (through c) t)) cs t.

Definition dropped_bytes (rs : list report) : Z :=
  foldr (fun r n => match r with Dropped b => b + n | _ => n end) 0 rs.

Definition held (s : system) : list chunk :=
  match inflight s with Some c => [c] | None => [] end.

Record system_ok (t : St) (s : system) : Prop := {
  queue_order : accepted s = sunk s ++ held s ++ pending (feed s);
  queue_sum : queued (feed s) = chunk_bytes (pending (feed s));
  queue_bound : queued (feed s) <= feedDepth;
  sunk_state : target s = sink_all (sunk s) t;
  conserved : offered s = chunk_bytes (accepted s) + dropped_bytes (reports s);
  returned_empty : returned s = true ->
    closed (feed s) = true /\ pending (feed s) = [] /\ inflight s = None
}.

#[local] Arguments chunk_bytes : simpl never.
#[local] Arguments dropped_bytes : simpl never.

(** ** The invariant *)

Lemma chunk_bytes_app cs cs' : chunk_bytes (cs ++ cs') = chunk_bytes cs + chunk_bytes cs'.
Proof. unfold chunk_bytes. by rewrite map_app, concat_app, zlen_app. Qed.

Lemma chunk_bytes_cons c cs : chunk_bytes (c :: cs) = zlen (data c) + chunk_bytes cs.
Proof. unfold chunk_bytes. cbn. by rewrite zlen_app. Qed.

Lemma dropped_bytes_app rs rs' : dropped_bytes (rs ++ rs') = dropped_bytes rs + dropped_bytes rs'.
Proof. induction rs as [|[b|b|b] rs IH]; unfold dropped_bytes in *; cbn; lia. Qed.

Lemma sink_all_snoc cs c t :
  sink_all (cs ++ [c]) t = fst (sink (data c) (through c) (sink_all cs t)).
Proof. unfold sink_all. by rewrite fold_left_app. Qed.

Lemma feed_start_ok t : system_ok t (start t).
Proof. by constructor. Qed.

Lemma do_offer_ok t d at_ s : system_ok t s -> system_ok t (do_offer d at_ s).
Proof.
  intros [Ho Hs Hb Ht Hc Hr]. unfold do_offer, offer.
  destruct (closed (feed s)) eqn:Ecl.
  - constructor; cbn; rewrite ?app_nil_r; try done. intros E; specialize (Hr E); tauto.
  - destruct (Z.ltb_spec feedDepth (queued (feed s) + zlen d)); constructor; cbn;
      rewrite ?app_nil_r; try done; try (intros E; destruct (Hr E); congruence).
    + rewrite dropped_bytes_app. unfold dropped_bytes at 2. cbn. lia.
    + rewrite Ho, <- !app_assoc. reflexivity.
    + rewrite chunk_bytes_app, chunk_bytes_cons, Hs. cbn. unfold chunk_bytes. cbn. zsolve.
    + rewrite chunk_bytes_app, chunk_bytes_cons. cbn. unfold chunk_bytes at 2. cbn. zsolve.
Qed.

Lemma do_close_ok t s : system_ok t s -> system_ok t (do_close s).
Proof.
  intros [Ho Hs Hb Ht Hc Hr]. unfold do_close, close_locked.
  destruct (closed (feed s)) eqn:E; constructor; cbn; try done; intros E'; destruct (Hr E'); split; tauto || done.
Qed.

Lemma do_run_ok t s s' : do_run s = Some s' -> system_ok t s -> system_ok t s'.
Proof.
  intros Hrun [Ho Hs Hb Ht Hc Hr]. unfold do_run in Hrun. unfold held in Ho.
  destruct (returned s) eqn:Er; [done|]. destruct (inflight s) as [c|] eqn:Ei.
  - destruct (sink (data c) (through c) (target s)) as [t' ok] eqn:Esink. injection Hrun as <-.
    constructor; cbn; try done.
    + rewrite Ho, <- app_assoc. done.
    + rewrite sink_all_snoc, <- Ht, Esink. done.
    + rewrite dropped_bytes_app. unfold dropped_bytes at 2. destruct ok; cbn; lia.
  - unfold run_locked in Hrun. destruct (pending (feed s)) as [|c rest] eqn:Ep.
    + destruct (closed (feed s)) eqn:Ecl; [|done]. injection Hrun as <-.
      constructor; cbn; rewrite ?Ep; done.
    + injection Hrun as <-. rewrite chunk_bytes_cons in Hs.
      constructor; cbn; try done; pose proof (zlen_nonneg (data c)); lia.
Qed.

Lemma feed_step_ok t s s' : step s s' -> system_ok t s -> system_ok t s'.
Proof. intros [d at_ s1|s1|s1 s2 Hrun]; eauto using do_offer_ok, do_close_ok, do_run_ok. Qed.

Lemma feed_system_reachable t s : rtc step (start t) s -> system_ok t s.
Proof.
  intros Hs. assert (Hok := feed_start_ok t). induction Hs; [done|eauto using feed_step_ok].
Qed.

(** ** Draining *)

(** How many steps the goroutine of a closed feed has left. *)
Definition steps_left (s : system) : nat :=
  if returned s then 0
  else 1 + 2 * length (pending (feed s)) + match inflight s with Some _ => 1 | None => 0 end.

Lemma closed_run s : closed (feed s) = true -> returned s = false ->
  exists s', do_run s = Some s' /\ closed (feed s') = true /\ accepted s' = accepted s /\
    S (steps_left s') = steps_left s.
Proof.
  intros Hc Hr. unfold do_run, steps_left. rewrite Hr.
  destruct (inflight s) as [c|] eqn:Ei.
  - destruct (sink _ _ _) as [t' ok]. eexists. split; [done|]. cbn. split_and!; [done..|lia].
  - unfold run_locked. destruct (pending (feed s)) as [|c rest] eqn:Ep.
    + rewrite Hc. eexists. split; done.
    + eexists. split; [done|]. cbn. split_and!; [done..|lia].
Qed.

Lemma run_alone_drains t fuel : forall s,
  system_ok t s -> closed (feed s) = true -> (steps_left s <= fuel)%nat ->
  let s' := run_alone fuel s in
  system_ok t s' /\ rtc step s s' /\ returned s' = true /\ accepted s' = accepted s.
Proof.
  induction fuel as [|fuel IH]; intros s Hok Hc Hleft; cbn.
  - unfold steps_left in Hleft. destruct (returned s) eqn:Er; [|lia]. split_and!; done.
  - destruct (returned s) eqn:Er.
    + unfold do_run. rewrite Er. by split_and!.
    + destruct (closed_run s Hc Er) as (s' & Hrun & Hc' & Ha & Hl). rewrite Hrun.
      destruct (IH s' ltac:(by eapply do_run_ok) Hc' ltac:(lia)) as (Hok' & Hsteps & Hret & Hacc).
      split_and!; [done|by eapply rtc_l; [apply step_run|]|done|congruence].
Qed.

(** ** Theorems *)

(** Whatever is offered, drained and closed in whatever order, the store has received
    exactly the accepted chunks in the order they were offered, less the one in the
    goroutine's hands and the ones queued; the queue holds at most [feedDepth] bytes;
    and every byte offered while the feed was open was accepted or reported dropped. *)
Theorem feed_delivers_in_order t s :
  rtc step (start t) s ->
  accepted s = sunk s ++ held s ++ pending (feed s) /\ target s = sink_all (sunk s) t /\
  queued (feed s) = chunk_bytes (pending (feed s)) /\ queued (feed s) <= feedDepth /\
  offered s = chunk_bytes (accepted s) + dropped_bytes (reports s).
Proof. by intros [Ho Hs Hb Ht Hc _]%feed_system_reachable. Qed.

(** Once a feed is closed its goroutine, left alone, returns within two steps per
    queued chunk and two more, and by then every accepted chunk went to the sink. *)
Theorem closed_feed_drains t s :
  rtc step (start t) s -> closed (feed s) = true ->
  let s' := run_alone (2 + 2 * length (pending (feed s))) s in
  rtc step s s' /\ returned s' = true /\ target s' = sink_all (accepted s) t.
Proof.
  intros Hs%feed_system_reachable Hc s'.
  destruct (run_alone_drains t (2 + 2 * length (pending (feed s))) s Hs Hc) as (Hok & Hsteps & Hret & Ha).
  { unfold steps_left. destruct (returned s), (inflight s); lia. }
  fold s' in Hok, Hsteps, Hret, Ha. split_and!; [done..|].
  destruct Hok as [Ho _ _ Ht _ Hr]. destruct (Hr Hret) as (_ & Hp & Hi).
  rewrite Ht, <- Ha, Ho. unfold held. by rewrite Hp, Hi, !app_nil_r.
Qed.

(** What a stop that gave up waiting reports leaves out the chunk the goroutine is
    writing: the bytes accepted and not yet with the store are the reported ones and
    those of that chunk. *)
Theorem timeout_report_misses_inflight t s c :
  rtc step (start t) s -> inflight s = Some c ->
  exists left, close_timed_out (feed s) = StoppedWith left /\
    chunk_bytes (accepted s) - chunk_bytes (sunk s) = left + zlen (data c).
Proof.
  intros [Ho Hs _ _ _ _]%feed_system_reachable Hi. exists (queued (feed s)). split; [done|].
  rewrite Ho. unfold held. rewrite Hi, chunk_bytes_app. cbn. rewrite chunk_bytes_cons. lia.
Qed.

End system.

(** ** Witnesses, over a store that appends every chunk *)

Definition append_sink (d : octets) (at_ : Z) (t : octets) : octets * bool := (t ++ d, true).

Definition sample_system : system (St := octets) :=
  do_close (do_offer (text "de") 5 (default (start []) (do_run append_sink
    (do_offer (text "abc") 3 (start []))))).

Lemma sample_reachable : rtc (step append_sink) (start []) sample_system.
Proof.
  eapply rtc_l; [apply (step_offer _ (text "abc") 3)|].
  eapply rtc_l; [by apply step_run|].
  eapply rtc_l; [apply (step_offer _ (text "de") 5)|].
  eapply rtc_l; [apply step_close|]. apply rtc_refl.
Qed.

Lemma feed_delivers_in_order_witness :
  let s := sample_system in
  accepted s = sunk s ++ held s ++ pending (feed s) /\ target s = sink_all append_sink (sunk s) [] /\
  queued (feed s) = chunk_bytes (pending (feed s)) /\ queued (feed s) <= feedDepth /\
  offered s = chunk_bytes (accepted s) + dropped_bytes (reports s).
Proof. apply (feed_delivers_in_order append_sink [] sample_system), sample_reachable. Defined.

Lemma closed_feed_drains_witness :
  let s' := run_alone append_sink 4 sample_system in
  rtc (step append_sink) sample_system s' /\ returned s' = true /\
  target s' = sink_all append_sink (accepted sample_system) [].
Proof. apply (closed_feed_drains append_sink [] sample_system); [apply sample_reachable|reflexivity]. Defined.
