(* ===== verification/Inventory.v ===== *)
(** * The process inventory (process_inventory_state.go)

    One ledger of process records with one revision counter.  A session's complete
    snapshot replaces the one before it: what differs becomes started, updated and ended
    events, each with its own revision, and every event goes to every subscriber's
    bounded channel.  The specification is replay: the events, applied in order to the
    records they started from, give the records the ledger holds. *)

From S2P Require Import Prelude Contract.

(** ** State *)

Definition processEventBuffer : nat := 64.

(** A subscriber's channel: what it buffers, and whether it was closed. *)
Record subscription := mkSubscription {
  buffer : list ProcessEvent;
  chanClosed : bool
}.

(** [channels] is the heap of the channels ever made and [madeSubs] names the next one;
    [observers] holds the subscriptions the ledger still sends to. *)
Record processInventoryState := mkState {
  revision : Z;
  sessions : gmap Z (gmap string Process);
  processes : gmap string Process;
  observers : gset nat;
  channels : gmap nat subscription;
  madeSubs : nat
}.

#[export] Instance state_settable : Settable processInventoryState :=
  fun s => mkState (revision s) (sessions s) (processes s) (observers s) (channels s) (madeSubs s).

(** ** Record comparison *)

Definition sameOptionalString (left right : option string) : bool :=
  match left, right with
  | Some l, Some r => String.eqb l r
  | None, None => true
  | _, _ => false
  end.

Definition sameOptionalInt64 (left right : option Z) : bool :=
  match left, right with
  | Some l, Some r => l =? r
  | None, None => true
  | _, _ => false
  end.

Definition sameProcessRecord (left right : Process) : bool :=
  String.eqb (ID left) (ID right) && String.eqb (Owner left) (Owner right) &&
  sameOptionalString (Window left) (Window right) && sameOptionalString (Pane left) (Pane right) &&
  String.eqb (CWD left) (CWD right) && (PID left =? PID right) &&
  (ParentPID left =? ParentPID right) && String.eqb (Command left) (Command right) &&
  String.eqb (State left) (State right) && (StartedAtUnixMs left =? StartedAtUnixMs right) &&
  sameOptionalInt64 (EndedAtUnixMs left) (EndedAtUnixMs right).

Definition cloneOptionalString (value : option string) : option string :=
  match value with None => None | Some v => Some v end.

Definition cloneProcess (p : Process) : Process :=
  p <| Window := cloneOptionalString (Window p) |> <| Pane := cloneOptionalString (Pane p) |>
    <| EndedAtUnixMs := match EndedAtUnixMs p with None => None | Some e => Some e end |>.

Definition sortedProcessIDs {A} (records : gmap string A) : list string :=
  merge_sort String.le (map_to_list records).*1.

(** ** Operations *)

Section operations.
Context `{PtyContract}.

Definition newProcessInventoryState : processInventoryState := mkState 0 ∅ ∅ ∅ ∅ 0.

(** The [select] that sends to one observer: a full channel is closed instead. *)
Definition send (event : ProcessEvent) (ch : subscription) : subscription :=
  if (length (buffer ch) <? processEventBuffer)%nat
  then mkSubscription (buffer ch ++ [event]) (chanClosed ch)
  else mkSubscription (buffer ch) true.

Definition has_room (state : processInventoryState) (id : nat) : Prop :=
  match channels state !! id with
  | Some ch => (length (buffer ch) < processEventBuffer)%nat
  | None => False
  end.

#[export] Instance has_room_dec state id : Decision (has_room state id).
Proof. unfold has_room. destruct (channels state !! id); apply _. Defined.

Definition publishLocked (kind : string) (process : Process) (state : processInventoryState)
    : processInventoryState * ProcessEvent :=
  let event := mkProcessEvent (revision state +64 1) kind (cloneProcess process) in
  (state <| revision := revision state +64 1 |>
         <| channels := map_imap (fun id ch =>
              Some (if decide (id ∈ observers state) then send event ch else ch)) (channels state) |>
         <| observers := filter (has_room state) (observers state) |>,
   event).

(** The loop of [replaceSession] over the records of the new snapshot. *)
Fixpoint started_loop (ids : list string) (previous nextByID : gmap string Process)
    (state : processInventoryState) : processInventoryState * list ProcessEvent :=
  match ids with
  | [] => (state, [])
  | id :: ids =>
      match nextByID !! id with
      | None => started_loop ids previous nextByID state
      | Some process =>
          let change kind :=
            let '(state, event) := publishLocked kind process state in
            let state := state <| processes := <[id := cloneProcess process]> (processes state) |> in
            let '(state, events) := started_loop ids previous nextByID state in
            (state, event :: events) in
          match previous !! id with
          | None => change ProcessStarted
          | Some before =>
              if sameProcessRecord before process
              then started_loop ids previous nextByID state
              else change ProcessUpdated
          end
      end
  end.

Definition ended_record (endedAtUnixMs : Z) (process : Process) : Process :=
  cloneProcess process <| State := "ended" |> <| EndedAtUnixMs := Some endedAtUnixMs |>.

(** The loop of [replaceSession] over the records that are gone. *)
Fixpoint ended_loop (ids : list string) (previous : gmap string Process) (endedAtUnixMs : Z)
    (state : processInventoryState) : processInventoryState * list ProcessEvent :=
  match ids with
  | [] => (state, [])
  | id :: ids =>
      match previous !! id with
      | None => ended_loop ids previous endedAtUnixMs state
      | Some process =>
          let '(state, event) := publishLocked ProcessEnded (ended_record endedAtUnixMs process) state in
          let state := state <| processes := delete id (processes state) |> in
          let '(state, events) := ended_loop ids previous endedAtUnixMs state in
          (state, event :: events)
      end
  end.

Definition by_id (next : list Process) : gmap string Process :=
  fold_left (fun m p => <[ID p := cloneProcess p]> m) next ∅.

Definition gone (previous nextByID : gmap string Process) : gmap string Process :=
  filter (fun kv => nextByID !! kv.1 = None) previous.

Definition replaceSession (sessionID : Z) (next : list Process) (endedAtUnixMs : Z)
    (state : processInventoryState) : processInventoryState * list ProcessEvent :=
  let previous := default ∅ (sessions state !! sessionID) in
  let nextByID := by_id next in
  let '(state, started) := started_loop (sortedProcessIDs nextByID) previous nextByID state in
  let '(state, ended) :=
    ended_loop (sortedProcessIDs (gone previous nextByID)) previous endedAtUnixMs state in
  (state <| sessions := if decide (nextByID = ∅) then delete sessionID (sessions state)
                        else <[sessionID := nextByID]> (sessions state) |>,
   started ++ ended).

Definition snapshotLocked (state : processInventoryState) : ProcessInventory :=
  mkProcessInventory (revision state)
    (omap (fun id => cloneProcess <$> processes state !! id) (sortedProcessIDs (processes state))).

Definition observe (state : processInventoryState)
    : processInventoryState * ProcessInventory * nat :=
  let id := madeSubs state in
  (state <| channels := <[id := mkSubscription [] false]> (channels state) |>
         <| observers := {[id]} ∪ observers state |> <| madeSubs := S id |>,
   snapshotLocked state, id).

Definition close_channel (ch : subscription) : subscription := mkSubscription (buffer ch) true.

(** The [stop] function [observe] returns. *)
Definition stop (id : nat) (state : processInventoryState) : processInventoryState :=
  if decide (id ∈ observers state) then
    state <| observers := observers state ∖ {[id]} |>
          <| channels := alter close_channel id (channels state) |>
  else state.

(** A receive on the subscriber's channel; [None] when it blocks or the channel is
    closed and drained. *)
Definition receive (id : nat) (state : processInventoryState)
    : processInventoryState * option ProcessEvent :=
  match channels state !! id with
  | Some (mkSubscription (event :: rest) c) =>
      (state <| channels := <[id := mkSubscription rest c]> (channels state) |>, Some event)
  | _ => (state, None)
  end.

(** ** Specification *)

(** What an event does to a copy of the records. *)
Definition apply_event (records : gmap string Process) (event : ProcessEvent) : gmap string Process :=
  if String.eqb (Kind event) ProcessEnded then delete (ID (EventProcess event)) records
  else <[ID (EventProcess event) := EventProcess event]> records.

Definition replay (events : list ProcessEvent) (records : gmap string Process) : gmap string Process :=
  fold_left apply_event events records.

(** Revisions that follow [from] one by one. *)
Fixpoint consecutive (from : Z) (events : list ProcessEvent) : Prop :=
  match events with
  | [] => True
  | event :: events => Revision event = from +64 1 /\ consecutive (from +64 1) events
  end.

Definition last_revision (from : Z) (events : list ProcessEvent) : Z :=
  fold_left (fun r _ => r +64 1) events from.

(** Records are filed under their own id. *)
Definition keyed (records : gmap string Process) : Prop :=
  forall id p, records !! id = Some p -> ID p = id.

(** The ledger holds the records of the sessions, and the subscribers it sends to have
    an open channel that is not over its bound. *)
Record state_ok (state : processInventoryState) : Prop := {
  sessions_keyed : forall sid m, sessions state !! sid = Some m -> keyed m;
  sessions_nonempty : forall sid m, sessions state !! sid = Some m -> m <> ∅;
  union_of_sessions : forall id p, processes state !! id = Some p <->
    exists sid m, sessions state !! sid = Some m /\ m !! id = Some p;
  disjoint_sessions : forall id sid sid' m m', sessions state !! sid = Some m ->
    sessions state !! sid' = Some m' -> is_Some (m !! id) -> is_Some (m' !! id) -> sid = sid'
}.

(** The new snapshot of a session names no record of another session. *)
Definition own_ids (sessionID : Z) (next : list Process) (state : processInventoryState) : Prop :=
  forall sid m p, sid <> sessionID -> sessions state !! sid = Some m -> p ∈ next ->
    m !! ID p = None.

(** What the daemon and its clients do to the ledger. *)
Inductive operation :=
| OpReplace (sessionID : Z) (next : list Process) (endedAtUnixMs : Z)
| OpObserve
| OpStop (id : nat)
| OpReceive (id : nat).

(** The ledger after an operation, and what subscriber [me] received in it. *)
Definition run_operation (me : nat) (op : operation) (state : processInventoryState)
    : processInventoryState * list ProcessEvent :=
  match op with
  | OpReplace sessionID next endedAtUnixMs => (fst (replaceSession sessionID next endedAtUnixMs state), [])
  | OpObserve => (fst (fst (observe state)), [])
  | OpStop id => (stop id state, [])
  | OpReceive id =>
      let '(state, event) := receive id state in
      (state, if decide (id = me) then option_list event else [])
  end.

Fixpoint run_operations (me : nat) (ops : list operation) (state : processInventoryState)
    : processInventoryState * list ProcessEvent :=
  match ops with
  | [] => (state, [])
  | op :: ops =>
      let '(state, got) := run_operation me op state in
      let '(state, more) := run_operations me ops state in (state, got ++ more)
  end.

Definition ledger_keyed (state : processInventoryState) : Prop :=
  keyed (processes state) /\ forall sid m, sessions state !! sid = Some m -> keyed m.

(** A subscriber that started from [records] at [rev] and has received [got]. *)
Record tracks (rev : Z) (records : gmap string Process) (got : list ProcessEvent) (id : nat)
    (state : processInventoryState) : Prop := {
  made : (id < madeSubs state)%nat;
  channel : exists ch, channels state !! id = Some ch /\
    (length (buffer ch) <= processEventBuffer)%nat /\
    consecutive rev (got ++ buffer ch) /\
    (chanClosed ch = false <-> id ∈ observers state) /\
    (id ∈ observers state ->
      replay (got ++ buffer ch) records = processes state /\
      last_revision rev (got ++ buffer ch) = revision state)
}.

(** The events of a replacement, without their revisions. *)
Definition started_changes (previous nextByID : gmap string Process) (ids : list string)
    : list (string * Process) :=
  omap (fun id => nextByID !! id ≫= fun process =>
    match previous !! id with
    | None => Some (ProcessStarted, process)
    | Some before => if decide (before = process) then None else Some (ProcessUpdated, process)
    end) ids.

Definition ended_changes (previous : gmap string Process) (endedAtUnixMs : Z) (ids : list string)
    : list (string * Process) :=
  omap (fun id => (fun process => (ProcessEnded, ended_record endedAtUnixMs process)) <$> previous !! id) ids.

Definition change_of (event : ProcessEvent) : string * Process := (Kind event, EventProcess event).

(** One event: the revision and the records move together. *)
Inductive emits : processInventoryState -> list ProcessEvent -> processInventoryState -> Prop :=
| emits_nil state : emits state [] state
| emits_cons kind process state event state1 events state2 :
    publishLocked kind process state = (state1, event) ->
    emits (state1 <| processes := apply_event (processes state) event |>) events state2 ->
    emits state (event :: events) state2.

End operations.

#[global] Arguments publishLocked : simpl never.

(** ** Records *)

Lemma sameOptionalString_eq l r : sameOptionalString l r = true <-> l = r.
Proof. destruct l, r; cbn; rewrite ?String.eqb_eq; naive_solver. Qed.

Lemma sameOptionalInt64_eq l r : sameOptionalInt64 l r = true <-> l = r.
Proof. destruct l, r; cbn; rewrite ?Z.eqb_eq; naive_solver. Qed.

Lemma sameProcessRecord_eq left right : sameProcessRecord left right = true <-> left = right.
Proof.
  unfold sameProcessRecord.
  rewrite !andb_true_iff, !String.eqb_eq, !Z.eqb_eq, !sameOptionalString_eq, sameOptionalInt64_eq.
  destruct left, right; cbn. split; [|by intros [= -> -> -> -> -> -> -> -> -> -> ->]].
  intros [[[[[[[[[[-> ->] ->] ->] ->] ->] ->] ->] ->] ->] ->]. done.
Qed.

Lemma sameProcessRecord_decide left right :
  sameProcessRecord left right = if decide (left = right) then true else false.
Proof.
  destruct (sameProcessRecord left right) eqn:E; case_decide as H; try done.
  - by apply sameProcessRecord_eq in E.
  - apply sameProcessRecord_eq in H. congruence.
Qed.

Lemma cloneProcess_id p : cloneProcess p = p.
Proof. by destruct p as [? ? [?|] [?|] ? ? ? ? ? ? [?|]]. Qed.

Lemma sortedProcessIDs_perm {A} (m : gmap string A) : sortedProcessIDs m ≡ₚ (map_to_list m).*1.
Proof. apply merge_sort_Permutation. Qed.

Lemma sortedProcessIDs_nodup {A} (m : gmap string A) : NoDup (sortedProcessIDs m).
Proof. rewrite sortedProcessIDs_perm. apply NoDup_fst_map_to_list. Qed.

Lemma sortedProcessIDs_in {A} (m : gmap string A) id : id ∈ sortedProcessIDs m <-> is_Some (m !! id).
Proof.
  rewrite sortedProcessIDs_perm, list_elem_of_fmap. split.
  - intros ([k v] & -> & Hin%elem_of_map_to_list). by exists v.
  - intros [v Hv]. exists (id, v). split; [done|]. by apply elem_of_map_to_list.
Qed.

Lemma by_id_keyed_from next : forall m, keyed m ->
  keyed (fold_left (fun m p => <[ID p := cloneProcess p]> m) next m).
Proof.
  induction next as [|p next IH]; intros m Hm; [done|]. cbn. apply IH.
  intros id q [[<- <-]|[_ Hq]]%lookup_insert_Some; [by rewrite cloneProcess_id|by apply Hm].
Qed.

Lemma by_id_keyed next : keyed (by_id next).
Proof. apply by_id_keyed_from. by intros ? ? ?%lookup_empty_Some. Qed.

Lemma by_id_some next id p : by_id next !! id = Some p -> p ∈ next /\ ID p = id.
Proof.
  unfold by_id. revert p. induction next as [|q next IH] using rev_ind; intros p.
  - cbn. by intros ?%lookup_empty_Some.
  - rewrite fold_left_app. cbn. rewrite cloneProcess_id.
    intros [[<- <-]|[_ Hp]]%lookup_insert_Some.
    + split; [|done]. apply elem_of_app. right. by apply list_elem_of_singleton.
    + destruct (IH p Hp). split; [|done]. apply elem_of_app. by left.
Qed.

(** ** One event *)

Section events.
Context `{PtyContractLaws}.

Lemma publishLocked_fields kind process state :
  let '(state', event) := publishLocked kind process state in
  event = mkProcessEvent (revision state +64 1) kind process /\
  revision state' = revision state +64 1 /\ sessions state' = sessions state /\
  processes state' = processes state /\ madeSubs state' = madeSubs state.
Proof. unfold publishLocked. fields. by rewrite cloneProcess_id. Qed.

Lemma emits_app s evs s1 evs' s2 : emits s evs s1 -> emits s1 evs' s2 -> emits s (evs ++ evs') s2.
Proof. induction 1; [done|]. intros. by eapply emits_cons; eauto. Qed.

Lemma emits_fields s evs s' : emits s evs s' ->
  consecutive (revision s) evs /\ revision s' = last_revision (revision s) evs /\
  processes s' = replay evs (processes s) /\ sessions s' = sessions s /\ madeSubs s' = madeSubs s.
Proof.
  induction 1 as [s|kind process s event s1 events s2 Hpub Hemit IH]; [done|].
  pose proof (publishLocked_fields kind process s) as Hf. rewrite Hpub in Hf.
  destruct Hf as (-> & Hr & Hs & Hp & Hm). fields. rewrite Hr, Hs, Hm in IH.
  destruct IH as (IH1 & IH2 & IH3 & IH4 & IH5). done.
Qed.

Lemma kinds_ne : ProcessStarted <> ProcessEnded /\ ProcessUpdated <> ProcessEnded /\ ProcessStarted <> ProcessUpdated.
Proof.
  pose proof process_kinds_distinct as Hd.
  apply NoDup_cons in Hd as [H1 Hd]. apply NoDup_cons in Hd as [H2 _]. set_solver.
Qed.

Lemma started_loop_emits previous nextByID ids : keyed nextByID -> forall state,
  let '(state', events) := started_loop ids previous nextByID state in
  emits state events state' /\ map change_of events = started_changes previous nextByID ids.
Proof.
  intros Hk. destruct kinds_ne as (Hse & Hue & _).
  induction ids as [|id ids IH]; intros state; cbn; [by split; [constructor|]|].
  destruct (nextByID !! id) as [process|] eqn:En; cbn; [|apply IH].
  assert (Hchange : forall kind, kind <> ProcessEnded ->
    let '(state', events) :=
      let '(state, event) := publishLocked kind process state in
      let '(state, events) := started_loop ids previous nextByID
        (state <| processes := <[id := cloneProcess process]> (processes state) |>) in
      (state, event :: events) in
    emits state events state' /\
    map change_of events = (kind, process) :: started_changes previous nextByID ids).
  { intros kind Hkind. pose proof (publishLocked_fields kind process state) as Hf.
    destruct (publishLocked kind process state) as [s1 event] eqn:Epub.
    destruct Hf as (-> & _ & _ & Hp & _). rewrite cloneProcess_id, Hp.
    specialize (IH (s1 <| processes := <[id := process]> (processes state) |>)).
    destruct (started_loop _ _ _ _) as [s2 events]. destruct IH as [IH1 IH2].
    split; [|by cbn; rewrite IH2].
    eapply emits_cons; [done|]. unfold apply_event. cbn.
    destruct (String.eqb_spec kind ProcessEnded); [done|]. by rewrite (Hk id process En). }
  destruct (previous !! id) as [before|]; [|by apply Hchange].
  rewrite sameProcessRecord_decide. case_decide; [apply IH|by apply Hchange].
Qed.

Lemma ended_loop_emits previous endedAt ids : keyed previous -> forall state,
  let '(state', events) := ended_loop ids previous endedAt state in
  emits state events state' /\ map change_of events = ended_changes previous endedAt ids.
Proof.
  intros Hk. induction ids as [|id ids IH]; intros state; cbn; [by split; [constructor|]|].
  destruct (previous !! id) as [process|] eqn:Ep; cbn; [|apply IH].
  pose proof (publishLocked_fields ProcessEnded (ended_record endedAt process) state) as Hf.
  destruct (publishLocked _ _ _) as [s1 event] eqn:Epub.
  destruct Hf as (-> & _ & _ & Hp & _). rewrite Hp.
  specialize (IH (s1 <| processes := delete id (processes state) |>)).
  destruct (ended_loop _ _ _ _) as [s2 events]. destruct IH as [IH1 IH2].
  split; [|by cbn; rewrite IH2].
  eapply emits_cons; [done|]. unfold apply_event. cbn [Kind EventProcess]. rewrite String.eqb_refl.
  assert (ID (ended_record endedAt process) = id) as ->; [|done].
  unfold ended_record. rewrite cloneProcess_id. exact (Hk id process Ep).
Qed.

(** A replacement emits its changes, then files the new snapshot. *)
Lemma replaceSession_emits sid next endedAt state : ledger_keyed state ->
  let previous := default ∅ (sessions state !! sid) in
  exists mid events, replaceSession sid next endedAt state =
    (mid <| sessions := if decide (by_id next = ∅) then delete sid (sessions state)
                        else <[sid := by_id next]> (sessions state) |>, events) /\
    emits state events mid /\
    map change_of events =
      started_changes previous (by_id next) (sortedProcessIDs (by_id next)) ++
      ended_changes previous endedAt (sortedProcessIDs (gone previous (by_id next))).
Proof.
  intros [_ Hk] previous. unfold replaceSession. fold previous.
  assert (Hkp : keyed previous).
  { unfold previous. destruct (sessions state !! sid) as [m|] eqn:E; cbn; [by eapply Hk|].
    by intros ? ? ?%lookup_empty_Some. }
  pose proof (started_loop_emits previous (by_id next) (sortedProcessIDs (by_id next))
    (by_id_keyed next) state) as H1.
  destruct (started_loop _ _ _ _) as [s1 ev1]. destruct H1 as [H1 H2].
  pose proof (ended_loop_emits previous endedAt (sortedProcessIDs (gone previous (by_id next))) Hkp s1) as H3.
  destruct (ended_loop _ _ _ _) as [s2 ev2]. destruct H3 as [H3 H4].
  exists s2, (ev1 ++ ev2). pose proof (emits_app _ _ _ _ _ H1 H3) as Hemit.
  pose proof (emits_fields _ _ _ Hemit) as (_ & _ & _ & -> & _).
  split_and!; [done|done|]. by rewrite map_app, H2, H4.
Qed.

End events.

(** ** What a replacement changes *)

Section changes.
Context `{PtyContractLaws}.

Definition apply_change (records : gmap string Process) (change : string * Process) : gmap string Process :=
  if String.eqb change.1 ProcessEnded then delete (ID change.2) records
  else <[ID change.2 := change.2]> records.

Lemma started_changes_cons previous nextByID x ids :
  started_changes previous nextByID (x :: ids) =
    match nextByID !! x with
    | None => started_changes previous nextByID ids
    | Some process =>
        match previous !! x with
        | None => (ProcessStarted, process) :: started_changes previous nextByID ids
        | Some before => if decide (before = process) then started_changes previous nextByID ids
                         else (ProcessUpdated, process) :: started_changes previous nextByID ids
        end
    end.
Proof.
  unfold started_changes. cbn. destruct (nextByID !! x); cbn; [|done].
  destruct (previous !! x); cbn; [|done]. by case_decide.
Qed.

Lemma ended_changes_cons previous endedAt x ids :
  ended_changes previous endedAt (x :: ids) =
    match previous !! x with
    | None => ended_changes previous endedAt ids
    | Some process => (ProcessEnded, ended_record endedAt process) :: ended_changes previous endedAt ids
    end.
Proof. unfold ended_changes. cbn. by destruct (previous !! x). Qed.

Lemma replay_changes events : forall records,
  replay events records = fold_left apply_change (map change_of events) records.
Proof. induction events as [|e events IH]; intros records; [done|]. apply IH. Qed.

Lemma started_changes_lookup previous nextByID ids : keyed nextByID -> forall records id,
  fold_left apply_change (started_changes previous nextByID ids) records !! id =
    if decide (id ∈ ids /\ nextByID !! id <> None /\ previous !! id <> nextByID !! id)
    then nextByID !! id else records !! id.
Proof.
  intros Hk. destruct kinds_ne as (Hse & Hue & _).
  induction ids as [|x ids IH]; intros records id.
  { cbn. rewrite decide_False; [done|]. by intros [?%elem_of_nil _]. }
  assert (Hskip : (x = id -> nextByID !! id = None \/ previous !! id = nextByID !! id) ->
    fold_left apply_change (started_changes previous nextByID ids) records !! id =
    if decide (id ∈ x :: ids /\ nextByID !! id <> None /\ previous !! id <> nextByID !! id)
    then nextByID !! id else records !! id).
  { intros Hx. rewrite IH. apply decide_ext. rewrite elem_of_cons. naive_solver. }
  assert (Hset : forall kind process, kind <> ProcessEnded -> nextByID !! x = Some process ->
    previous !! x <> Some process ->
    fold_left apply_change (started_changes previous nextByID ids)
      (apply_change records (kind, process)) !! id =
    if decide (id ∈ x :: ids /\ nextByID !! id <> None /\ previous !! id <> nextByID !! id)
    then nextByID !! id else records !! id).
  { intros kind process Hkind Hp Hprev. rewrite IH. unfold apply_change. cbn.
    destruct (String.eqb_spec kind ProcessEnded); [done|]. rewrite (Hk x process Hp).
    destruct (decide (x = id)) as [->|Hne].
    - rewrite lookup_insert_eq. repeat case_decide; rewrite ?elem_of_cons in *; naive_solver congruence.
    - rewrite lookup_insert_ne by done. apply decide_ext. rewrite elem_of_cons. naive_solver. }
  rewrite started_changes_cons. destruct (nextByID !! x) as [process|] eqn:Ex; cbn.
  - destruct (previous !! x) as [before|] eqn:Eb; cbn.
    + destruct (decide (before = process)) as [->|]; [apply Hskip; intros <-; right; congruence|].
      apply (Hset ProcessUpdated process); [done..|congruence].
    + by apply (Hset ProcessStarted process).
  - apply Hskip. intros <-. by left.
Qed.

Lemma ended_changes_lookup previous endedAt ids : keyed previous -> forall records id,
  fold_left apply_change (ended_changes previous endedAt ids) records !! id =
    if decide (id ∈ ids /\ previous !! id <> None) then None else records !! id.
Proof.
  intros Hk. induction ids as [|x ids IH]; intros records id.
  { cbn. rewrite decide_False; [done|]. by intros [?%elem_of_nil _]. }
  rewrite ended_changes_cons. destruct (previous !! x) as [process|] eqn:Ex; cbn.
  - rewrite IH. unfold apply_change. cbn [fst snd]. rewrite String.eqb_refl.
    assert (ID (ended_record endedAt process) = x) as ->.
    { unfold ended_record. rewrite cloneProcess_id. exact (Hk x process Ex). }
    destruct (decide (x = id)) as [->|Hne].
    + rewrite lookup_delete_eq. repeat case_decide; rewrite ?elem_of_cons in *; naive_solver congruence.
    + rewrite lookup_delete_ne by done. apply decide_ext. rewrite elem_of_cons. naive_solver.
  - rewrite IH. apply decide_ext. rewrite elem_of_cons. naive_solver.
Qed.

Lemma gone_in previous nextByID id :
  id ∈ sortedProcessIDs (gone previous nextByID) <->
  previous !! id <> None /\ nextByID !! id = None.
Proof.
  rewrite sortedProcessIDs_in. unfold gone. split.
  - intros [p Hp]. apply map_lookup_filter_Some in Hp as [Hp Hn]. cbn in Hn. split; [congruence|done].
  - intros [Hp Hn]. destruct (previous !! id) as [p|] eqn:E; [|done].
    exists p. by apply map_lookup_filter_Some.
Qed.

(** The records after a replacement, one id at a time. *)
Lemma replaced_lookup previous nextByID endedAt records id :
  keyed nextByID -> keyed previous ->
  fold_left apply_change
    (started_changes previous nextByID (sortedProcessIDs nextByID) ++
     ended_changes previous endedAt (sortedProcessIDs (gone previous nextByID))) records !! id =
  if decide (previous !! id = nextByID !! id) then records !! id else nextByID !! id.
Proof.
  intros Hkn Hkp. rewrite fold_left_app, ended_changes_lookup, started_changes_lookup by done.
  pose proof (gone_in previous nextByID id) as Hg. pose proof (sortedProcessIDs_in nextByID id) as Hs.
  destruct (nextByID !! id) as [p|], (previous !! id) as [q|]; repeat case_decide;
    naive_solver eauto.
Qed.

Definition change_ids (changes : list (string * Process)) : list string := map (fun c => ID c.2) changes.

Lemma started_changes_ids previous nextByID ids : keyed nextByID -> NoDup ids ->
  NoDup (change_ids (started_changes previous nextByID ids)) /\
  forall id, id ∈ change_ids (started_changes previous nextByID ids) <->
    id ∈ ids /\ nextByID !! id <> None /\ previous !! id <> nextByID !! id.
Proof.
  intros Hk. induction ids as [|x ids IH]; intros Hnd.
  { split; [constructor|]. intros id. cbn. rewrite elem_of_nil. tauto. }
  apply NoDup_cons in Hnd as [Hx Hnd]. destruct (IH Hnd) as [IH1 IH2].
  assert (Hskip : (nextByID !! x = None \/ previous !! x = nextByID !! x) -> forall id,
    id ∈ change_ids (started_changes previous nextByID ids) <->
    id ∈ x :: ids /\ nextByID !! id <> None /\ previous !! id <> nextByID !! id).
  { intros Hor id. rewrite IH2, elem_of_cons. destruct (decide (id = x)) as [->|]; tauto. }
  assert (Hset : forall kind process, nextByID !! x = Some process -> previous !! x <> Some process ->
    NoDup (change_ids ((kind, process) :: started_changes previous nextByID ids)) /\
    forall id, id ∈ change_ids ((kind, process) :: started_changes previous nextByID ids) <->
      id ∈ x :: ids /\ nextByID !! id <> None /\ previous !! id <> nextByID !! id).
  { intros kind process Hp Hprev. cbn. rewrite (Hk x process Hp). split.
    - apply NoDup_cons. split; [|done]. rewrite IH2. tauto.
    - intros id. rewrite !elem_of_cons, IH2.
      destruct (decide (id = x)) as [->|]; [|tauto]. rewrite Hp. intuition congruence. }
  rewrite started_changes_cons. destruct (nextByID !! x) as [process|] eqn:Ex; cbn; [|auto].
  destruct (previous !! x) as [before|] eqn:Eb; cbn; [|by apply (Hset ProcessStarted process)].
  destruct (decide (before = process)) as [->|]; [split; [done|apply Hskip; right; congruence]|].
  apply (Hset ProcessUpdated process); [done|congruence].
Qed.

Lemma ended_change_ids_cons previous endedAt x ids : keyed previous ->
  change_ids (ended_changes previous endedAt (x :: ids)) =
    match previous !! x with
    | None => change_ids (ended_changes previous endedAt ids)
    | Some _ => x :: change_ids (ended_changes previous endedAt ids)
    end.
Proof.
  intros Hk. rewrite ended_changes_cons. destruct (previous !! x) as [p|] eqn:E; [|done].
  unfold change_ids. rewrite map_cons. f_equal. cbn [fst snd]. rewrite <- (Hk x p E).
  unfold ended_record. by rewrite cloneProcess_id.
Qed.

Lemma ended_changes_ids previous endedAt ids : keyed previous -> NoDup ids ->
  NoDup (change_ids (ended_changes previous endedAt ids)) /\
  forall id, id ∈ change_ids (ended_changes previous endedAt ids) <-> id ∈ ids /\ previous !! id <> None.
Proof.
  intros Hk. induction ids as [|x ids IH]; intros Hnd.
  { split; [constructor|]. intros id. cbn. rewrite elem_of_nil. tauto. }
  apply NoDup_cons in Hnd as [Hx Hnd]. destruct (IH Hnd) as [IH1 IH2].
  rewrite ended_change_ids_cons by done. destruct (previous !! x) as [process|] eqn:Ex.
  - split.
    + apply NoDup_cons. split; [|done]. rewrite IH2. tauto.
    + intros id. rewrite !elem_of_cons, IH2.
      destruct (decide (id = x)) as [->|]; [rewrite Ex; intuition congruence|tauto].
  - split; [done|]. intros id. rewrite IH2, elem_of_cons.
    destruct (decide (id = x)) as [->|]; tauto.
Qed.

(** Every id that differs changes once, and no other id changes. *)
Lemma replaced_ids previous nextByID endedAt : keyed nextByID -> keyed previous ->
  let changes := started_changes previous nextByID (sortedProcessIDs nextByID) ++
    ended_changes previous endedAt (sortedProcessIDs (gone previous nextByID)) in
  NoDup (change_ids changes) /\
  forall id, id ∈ change_ids changes <-> previous !! id <> nextByID !! id.
Proof.
  intros Hkn Hkp changes. unfold changes, change_ids. rewrite map_app. fold change_ids.
  destruct (started_changes_ids previous nextByID _ Hkn (sortedProcessIDs_nodup nextByID)) as [S1 S2].
  destruct (ended_changes_ids previous endedAt _ Hkp (sortedProcessIDs_nodup (gone previous nextByID))) as [E1 E2].
  split.
  - apply NoDup_app. split_and!; [done| |done]. intros id.
    fold (change_ids (started_changes previous nextByID (sortedProcessIDs nextByID))).
    fold (change_ids (ended_changes previous endedAt (sortedProcessIDs (gone previous nextByID)))).
    rewrite S2, E2, gone_in. tauto.
  - intros id. rewrite elem_of_app. rewrite (S2 id), (E2 id), gone_in, sortedProcessIDs_in.
    unfold is_Some. destruct (nextByID !! id) as [n|], (previous !! id) as [q|]; split.
    all: try (intros; first [congruence | by left; eauto | by right; eauto]).
    all: intuition (try congruence); eauto.
Qed.

End changes.

(** ** The whole ledger *)

Section ledger.
Context `{PtyContractLaws}.

Lemma previous_keyed sid state : ledger_keyed state -> keyed (default ∅ (sessions state !! sid)).
Proof.
  intros [_ Hk]. destruct (sessions state !! sid) as [m|] eqn:E; cbn; [by eapply Hk|].
  by intros ? ? ?%lookup_empty_Some.
Qed.

Lemma event_ids events :
  map (fun e => ID (EventProcess e)) events = change_ids (map change_of events).
Proof. unfold change_ids. by rewrite map_map. Qed.

(** The records of the ledger after a replacement. *)
Lemma replaceSession_processes sid next endedAt state id : ledger_keyed state ->
  let previous := default ∅ (sessions state !! sid) in
  processes (fst (replaceSession sid next endedAt state)) !! id =
    if decide (previous !! id = by_id next !! id) then processes state !! id else by_id next !! id.
Proof.
  intros Hk previous. pose proof (previous_keyed sid state Hk) as Hp.
  destruct (replaceSession_emits sid next endedAt state Hk) as (mid & events & -> & Hemit & Hch).
  destruct (emits_fields _ _ _ Hemit) as (_ & _ & Hrep & _). fields.
  rewrite Hrep, replay_changes, Hch. apply replaced_lookup; [apply by_id_keyed|done].
Qed.

Lemma replaceSession_sessions sid next endedAt state : ledger_keyed state ->
  sessions (fst (replaceSession sid next endedAt state)) =
    if decide (by_id next = ∅) then delete sid (sessions state)
    else <[sid := by_id next]> (sessions state).
Proof.
  intros Hk. by destruct (replaceSession_emits sid next endedAt state Hk) as (mid & events & -> & _).
Qed.

Lemma state_ok_keyed state : state_ok state -> ledger_keyed state.
Proof.
  intros [Hk _ Hu _]. split; [|done]. intros id p (sid & m & Hm & Hp)%Hu. by eapply Hk.
Qed.

Lemma replaceSession_keyed sid next endedAt state : ledger_keyed state ->
  ledger_keyed (fst (replaceSession sid next endedAt state)).
Proof.
  intros Hk. split.
  - intros id p. rewrite replaceSession_processes by done.
    destruct (decide _); [by apply Hk|by apply by_id_keyed].
  - intros s m. rewrite replaceSession_sessions by done. destruct (decide _).
    + intros [_ Hm]%lookup_delete_Some. by eapply Hk.
    + intros [[_ <-]|[_ Hm]]%lookup_insert_Some; [apply by_id_keyed|by eapply Hk].
Qed.

(** What the ledger holds for a session after the replacement of [sid]. *)
Lemma replaced_session sid next endedAt state s : ledger_keyed state ->
  default ∅ (sessions (fst (replaceSession sid next endedAt state)) !! s) =
    if decide (s = sid) then by_id next else default ∅ (sessions state !! s).
Proof.
  intros Hk. rewrite replaceSession_sessions by done.
  destruct (decide (by_id next = ∅)) as [He|Hne], (decide (s = sid)) as [->|Hs].
  - by rewrite lookup_delete_eq.
  - by rewrite lookup_delete_ne.
  - by rewrite lookup_insert_eq.
  - by rewrite lookup_insert_ne.
Qed.

(** A session's new snapshot becomes events with consecutive revisions that, applied
    to the records before, give the records after; an id is named by exactly one event
    when the session's record of it differs, and by none when it does not. *)
Theorem replace_changes_only_what_differs sessionID next endedAt state :
  ledger_keyed state ->
  let previous := default ∅ (sessions state !! sessionID) in
  let '(state', events) := replaceSession sessionID next endedAt state in
  consecutive (revision state) events /\
  revision state' = last_revision (revision state) events /\
  processes state' = replay events (processes state) /\
  NoDup (map (fun e => ID (EventProcess e)) events) /\
  forall id, id ∈ map (fun e => ID (EventProcess e)) events <-> previous !! id <> by_id next !! id.
Proof.
  intros Hk previous. pose proof (previous_keyed sessionID state Hk) as Hp.
  destruct (replaceSession_emits sessionID next endedAt state Hk) as (mid & events & -> & Hemit & Hch).
  destruct (emits_fields _ _ _ Hemit) as (Hc & Hr & Hrep & _). fields.
  rewrite !event_ids, Hch.
  destruct (replaced_ids previous (by_id next) endedAt (by_id_keyed next) Hp) as [Hnd Hids].
  done.
Qed.

(** The session's record of an id. *)
Lemma filed_spec state sid id p :
  default ∅ (sessions state !! sid) !! id = Some p <->
  exists m, sessions state !! sid = Some m /\ m !! id = Some p.
Proof.
  destruct (sessions state !! sid) as [m|]; cbn; split.
  - by exists m.
  - by intros (m' & [= <-] & Hp).
  - by intros ?%lookup_empty_Some.
  - by intros (m' & ? & _).
Qed.

Lemma one_session state sid sid' id p q : state_ok state ->
  default ∅ (sessions state !! sid) !! id = Some p ->
  default ∅ (sessions state !! sid') !! id = Some q -> sid = sid'.
Proof. intros [_ _ _ Hd] (m & Hm & Hp)%filed_spec (m' & Hm' & Hq)%filed_spec. by eapply Hd. Qed.

Lemma own_id_elsewhere sid next state t id p q : own_ids sid next state -> t <> sid ->
  by_id next !! id = Some p -> default ∅ (sessions state !! t) !! id <> Some q.
Proof.
  intros Hown Ht [Hin <-]%by_id_some (m & Hm & Hq)%filed_spec.
  by rewrite (Hown t m p Ht Hm Hin) in Hq.
Qed.

Lemma replaced_union sid next endedAt state id p : state_ok state -> own_ids sid next state ->
  let state' := fst (replaceSession sid next endedAt state) in
  processes state' !! id = Some p <->
  exists t, default ∅ (sessions state' !! t) !! id = Some p.
Proof.
  intros Hok Hown state'. pose proof (state_ok_keyed state Hok) as Hk.
  assert (Hu : processes state !! id = Some p <->
    exists t, default ∅ (sessions state !! t) !! id = Some p).
  { destruct Hok as [_ _ Hu _]. rewrite Hu. by setoid_rewrite filed_spec. }
  unfold state'. rewrite replaceSession_processes by done.
  setoid_rewrite replaced_session; [|done].
  destruct (decide (default ∅ (sessions state !! sid) !! id = by_id next !! id)) as [He|Hne].
  - rewrite Hu. split; intros [t Ht]; exists t; destruct (decide (t = sid)) as [->|]; congruence.
  - split; [intros Hp; exists sid; by rewrite decide_True|]. intros [t Ht].
    destruct (decide (t = sid)) as [->|Hts]; [done|].
    destruct (by_id next !! id) as [q|] eqn:Eq.
    + by destruct (own_id_elsewhere sid next state t id q p Hown Hts Eq).
    + destruct (default ∅ (sessions state !! sid) !! id) as [r|] eqn:Er; [|done].
      by destruct (Hts (one_session state t sid id p r Hok Ht Er)).
Qed.

(** After every replacement that names no record of another session, the records of
    the ledger are the disjoint union of what the sessions last reported, every record
    under its own id and no session with an empty report. *)
Theorem replacement_keeps_the_union sessionID next endedAt state :
  state_ok state -> own_ids sessionID next state ->
  state_ok (fst (replaceSession sessionID next endedAt state)).
Proof.
  intros Hok Hown. pose proof (state_ok_keyed state Hok) as Hk.
  pose proof (replaceSession_keyed sessionID next endedAt state Hk) as [_ Hk']. split; [done| | |].
  - intros s m. rewrite replaceSession_sessions by done. destruct (decide _) as [|Hne].
    + intros [_ Hm]%lookup_delete_Some. by eapply sessions_nonempty.
    + intros [[_ <-]|[_ Hm]]%lookup_insert_Some; [done|by eapply sessions_nonempty].
  - intros id p. rewrite replaced_union by done. by setoid_rewrite filed_spec.
  - intros id s s' m m' Hm Hm' [p Hp] [q Hq].
    assert (F : default ∅ (sessions (fst (replaceSession sessionID next endedAt state)) !! s) !! id = Some p)
      by (apply filed_spec; eauto).
    assert (F' : default ∅ (sessions (fst (replaceSession sessionID next endedAt state)) !! s') !! id = Some q)
      by (apply filed_spec; eauto).
    rewrite replaced_session in F, F' by done.
    destruct (decide (s = sessionID)) as [->|Hs], (decide (s' = sessionID)) as [->|Hs']; [done| | |].
    + by destruct (own_id_elsewhere sessionID next state s' id p q Hown Hs' F).
    + by destruct (own_id_elsewhere sessionID next state s id q p Hown Hs F').
    + by apply (one_session state s s' id p q).
Qed.

End ledger.

(** ** Subscribers *)

Section subscribers.
Context `{PtyContractLaws}.

Lemma consecutive_snoc events : forall from event, consecutive from events ->
  Revision event = last_revision from events +64 1 -> consecutive from (events ++ [event]).
Proof.
  induction events as [|e events IH]; intros from event Hc Hr; [done|].
  destruct Hc as [Hc1 Hc2]. split; [done|]. by apply IH.
Qed.

Lemma last_revision_snoc events from event :
  last_revision from (events ++ [event]) = last_revision from events +64 1.
Proof. unfold last_revision. by rewrite fold_left_app. Qed.

Lemma replay_snoc events event records :
  replay (events ++ [event]) records = apply_event (replay events records) event.
Proof. unfold replay. by rewrite fold_left_app. Qed.

Lemma publish_channel kind process state id ch : channels state !! id = Some ch ->
  channels (fst (publishLocked kind process state)) !! id =
    Some (if decide (id ∈ observers state)
          then send (snd (publishLocked kind process state)) ch else ch).
Proof. intros Hch. unfold publishLocked. fields. by rewrite map_lookup_imap, Hch. Qed.

Lemma publish_observers kind process state id ch : channels state !! id = Some ch ->
  id ∈ observers (fst (publishLocked kind process state)) <->
  id ∈ observers state /\ (length (buffer ch) < processEventBuffer)%nat.
Proof.
  intros Hch. unfold publishLocked. fields. rewrite elem_of_filter. unfold has_room.
  rewrite Hch. tauto.
Qed.

(** One event keeps a subscriber on track, or closes its channel. *)
Lemma tracks_emit rev records got id kind process state state1 event :
  publishLocked kind process state = (state1, event) ->
  tracks rev records got id state ->
  tracks rev records got id (state1 <| processes := apply_event (processes state) event |>).
Proof.
  intros Hpub [Hmade (ch & Hch & Hlen & Hcons & Hopen & Hsync)].
  pose proof (publishLocked_fields kind process state) as Hf.
  pose proof (publish_channel kind process state id ch Hch) as Hc1.
  pose proof (publish_observers kind process state id ch Hch) as Ho1.
  rewrite Hpub in Hf, Hc1, Ho1. cbn [fst snd] in *. destruct Hf as (He & Hr & _ & Hp & Hm).
  split; [fields; by rewrite Hm|]. fields.
  destruct (decide (id ∈ observers state)) as [Hin|Hout].
  2:{ exists ch. split_and!; [done..|rewrite Ho1; tauto|]. rewrite Ho1. tauto. }
  destruct (Hsync Hin) as [Hrep Hlast]. exists (send event ch). split; [done|].
  unfold send in *. destruct (Nat.ltb_spec (length (buffer ch)) processEventBuffer) as [Hroom|Hfull]; cbn.
  - rewrite length_app. cbn. rewrite app_assoc, replay_snoc, last_revision_snoc.
    split_and!; [lia| |rewrite Ho1; tauto|intros _; split; [by rewrite Hrep|by rewrite Hlast, Hr]].
    apply consecutive_snoc; [done|]. by rewrite He, Hlast.
  - split_and!; [done|done|rewrite Ho1; split; [done|lia]|rewrite Ho1; lia].
Qed.

Lemma tracks_emits rev records got id state events state' : emits state events state' ->
  tracks rev records got id state -> tracks rev records got id state'.
Proof. induction 1; [done|]. intros Ht. by eapply IHemits, tracks_emit. Qed.

Lemma tracks_replace rev records got id sid next endedAt state : ledger_keyed state ->
  tracks rev records got id state ->
  tracks rev records got id (fst (replaceSession sid next endedAt state)).
Proof.
  intros Hk Ht.
  destruct (replaceSession_emits sid next endedAt state Hk) as (mid & events & -> & Hemit & _).
  pose proof (tracks_emits _ _ _ _ _ _ _ Hemit Ht) as [Hm (ch & Hch)]. by split; [|exists ch].
Qed.

Lemma tracks_observe rev records got id state : tracks rev records got id state ->
  tracks rev records got id (fst (fst (observe state))).
Proof.
  intros [Hm (ch & Hch & Hlen & Hcons & Hopen & Hsync)]. split; [cbn; lia|]. exists ch. cbn.
  rewrite lookup_insert_ne by lia. split_and!; [done..| |].
  - rewrite elem_of_union, elem_of_singleton. intuition lia.
  - rewrite elem_of_union, elem_of_singleton. intuition lia.
Qed.

Lemma tracks_stop rev records got id other state : tracks rev records got id state ->
  tracks rev records got id (stop other state).
Proof.
  intros [Hm (ch & Hch & Hlen & Hcons & Hopen & Hsync)]. unfold stop.
  destruct (decide (other ∈ observers state)) as [Hin|]; [|by split; [|exists ch]].
  split; [done|]. fields. destruct (decide (other = id)) as [->|Hne].
  - exists (close_channel ch). rewrite lookup_alter_eq, Hch. cbn.
    split_and!; [done..|set_solver|set_solver].
  - exists ch. rewrite lookup_alter_ne by done. split_and!; [done..|set_solver|set_solver].
Qed.

Lemma tracks_receive rev records got id other state : tracks rev records got id state ->
  let '(state', event) := receive other state in
  tracks rev records (got ++ if decide (other = id) then option_list event else []) id state'.
Proof.
  intros [Hm (ch & Hch & Hlen & Hcons & Hopen & Hsync)]. unfold receive.
  assert (Hsame : forall extra, extra = [] -> tracks rev records (got ++ extra) id state).
  { intros extra ->. rewrite app_nil_r. by split; [|exists ch]. }
  destruct (channels state !! other) as [[[|event rest] c]|] eqn:Eo;
    [by apply Hsame; case_decide| |by apply Hsame; case_decide].
  split; [done|]. fields. destruct (decide (other = id)) as [->|Hne].
  - rewrite Hch in Eo. injection Eo as ->. exists (mkSubscription rest c).
    rewrite lookup_insert_eq. cbn in *. rewrite <- app_assoc. cbn. split_and!; [done|lia|done..].
  - exists ch. rewrite lookup_insert_ne, app_nil_r by done. done.
Qed.

Lemma receive_keyed other state : ledger_keyed state -> ledger_keyed (fst (receive other state)).
Proof.
  intros Hk. unfold receive. destruct (channels state !! other) as [[[|? ?] ?]|]; [done| |done]. exact Hk.
Qed.

Lemma stop_keyed other state : ledger_keyed state -> ledger_keyed (stop other state).
Proof. intros Hk. unfold stop. by destruct (decide _). Qed.

Lemma run_operations_tracks rev records me ops : forall state got,
  ledger_keyed state -> tracks rev records got me state ->
  let '(state', more) := run_operations me ops state in
  ledger_keyed state' /\ tracks rev records (got ++ more) me state'.
Proof.
  induction ops as [|op ops IH]; intros state got Hk Ht; cbn; [by rewrite app_nil_r|].
  assert (Hop : let '(state1, now) := run_operation me op state in
    ledger_keyed state1 /\ tracks rev records (got ++ now) me state1).
  { destruct op as [sid next endedAt| |id|id]; cbn.
    - rewrite app_nil_r. split; [by apply replaceSession_keyed|by apply tracks_replace].
    - rewrite app_nil_r. split; [done|by apply tracks_observe].
    - rewrite app_nil_r. split; [by apply stop_keyed|by apply tracks_stop].
    - pose proof (receive_keyed id state Hk) as Hk1.
      pose proof (tracks_receive rev records got me id state Ht) as Ht1.
      destruct (receive id state) as [state1 event]. done. }
  destruct (run_operation me op state) as [state1 now]. destruct Hop as [Hk1 Ht1].
  specialize (IH state1 (got ++ now) Hk1 Ht1).
  destruct (run_operations me ops state1) as [state2 more]. by rewrite app_assoc.
Qed.

(** Filing a snapshot's records by id gives the records back. *)
Lemma by_id_omap records ids id : keyed records ->
  by_id (omap (fun i => cloneProcess <$> records !! i) ids) !! id =
    if decide (id ∈ ids) then records !! id else None.
Proof.
  intros Hk. unfold by_id.
  induction ids as [|x ids IH] using rev_ind; [by rewrite decide_False by apply not_elem_of_nil|].
  rewrite omap_app, fold_left_app. cbn.
  destruct (records !! x) as [p|] eqn:Ex; cbn.
  - rewrite !cloneProcess_id, (Hk x p Ex). destruct (decide (id = x)) as [->|Hne].
    + rewrite lookup_insert_eq, decide_True; [done|]. rewrite elem_of_app, list_elem_of_singleton. by right.
    + rewrite lookup_insert_ne, IH by done. apply decide_ext.
      rewrite elem_of_app, list_elem_of_singleton. tauto.
  - rewrite IH. destruct (decide (id = x)) as [->|Hne].
    + rewrite Ex. by repeat case_decide.
    + apply decide_ext. rewrite elem_of_app, list_elem_of_singleton. tauto.
Qed.

Lemma snapshot_records state : keyed (processes state) ->
  by_id (Processes (snapshotLocked state)) = processes state.
Proof.
  intros Hk. apply map_eq. intros id. unfold snapshotLocked. cbn [Processes]. rewrite by_id_omap by done.
  pose proof (sortedProcessIDs_in (processes state) id) as Hin. case_decide as Hd; [done|].
  destruct (processes state !! id) eqn:E; [|done]. destruct Hd. apply Hin. by eexists.
Qed.

Lemma observe_tracks state : ledger_keyed state ->
  tracks (revision state) (processes state) [] (madeSubs state) (fst (fst (observe state))).
Proof.
  intros Hk. split; [cbn; lia|]. exists (mkSubscription [] false). cbn.
  rewrite lookup_insert_eq, elem_of_union, elem_of_singleton. split_and!; [done|unfold processEventBuffer; lia|done|..].
  - by split; [left|].
  - done.
Qed.

(** C9: whatever the daemon and its clients do after a subscription, what the subscriber
    has received followed by what its channel still holds are events with consecutive
    revisions that start right after the snapshot's, at most 64 of them waiting; while the
    channel is open they turn the snapshot into the ledger's present records and revision,
    and a channel the ledger no longer sends to is closed, so a loss is seen. *)
Theorem subscriber_replays_the_ledger state ops :
  ledger_keyed state ->
  let '(state0, snapshot, me) := observe state in
  let '(state', got) := run_operations me ops state0 in
  exists ch, channels state' !! me = Some ch /\
    (length (buffer ch) <= processEventBuffer)%nat /\
    consecutive (InventoryRevision snapshot) (got ++ buffer ch) /\
    (chanClosed ch = false <-> me ∈ observers state') /\
    (chanClosed ch = false ->
      replay (got ++ buffer ch) (by_id (Processes snapshot)) = processes state' /\
      last_revision (InventoryRevision snapshot) (got ++ buffer ch) = revision state').
Proof.
  intros Hk. pose proof (observe_tracks state Hk) as Ht.
  pose proof (snapshot_records state (proj1 Hk)) as Hsnap.
  destruct (observe state) as [[state0 snapshot] me] eqn:E.
  assert (snapshot = snapshotLocked state /\ me = madeSubs state) as [-> ->]
    by (unfold observe in E; by simplify_eq).
  rewrite Hsnap. cbn [fst InventoryRevision snapshotLocked] in *.
  assert (ledger_keyed state0) as Hk0 by (unfold observe in E; simplify_eq; exact Hk).
  pose proof (run_operations_tracks _ _ _ ops _ _ Hk0 Ht) as Hrun.
  destruct (run_operations _ ops state0) as [state' got]. cbn [app] in Hrun.
  destruct Hrun as [_ [_ (ch & Hch & Hlen & Hcons & Hopen & Hsync)]].
  exists ch. split_and!; [done..|]. intros Hc. by apply Hsync, Hopen.
Qed.

End subscribers.

(** ** Witnesses *)

Section witnesses.
#[local] Existing Instance sample_contract.
#[local] Existing Instance sample_contract_laws.

Definition sample_process (id : string) (pid : Z) : Process :=
  mkProcess id "owner" None (Some "p1") "/" pid 1 "sh" "running" 100 None.

(** A ledger after one report of two processes by session 1. *)
Definition sample_ledger : processInventoryState :=
  fst (replaceSession 1 [sample_process "a" 10; sample_process "b" 11] 200 newProcessInventoryState).

Lemma no_session sid m : sessions newProcessInventoryState !! sid = Some m -> False.
Proof. cbn. by rewrite lookup_empty. Qed.

Lemma empty_ok : state_ok newProcessInventoryState.
Proof.
  split.
  - by intros sid m ?%no_session.
  - by intros sid m ?%no_session.
  - intros id p. split; [by cbn; rewrite lookup_empty|]. by intros (sid & m & ?%no_session & _).
  - by intros id sid sid' m m' ?%no_session.
Qed.

Lemma sample_own_empty : own_ids 1 [sample_process "a" 10; sample_process "b" 11] newProcessInventoryState.
Proof. by intros sid m p _ ?%no_session. Qed.

Lemma sample_keyed : ledger_keyed sample_ledger.
Proof. apply replaceSession_keyed, state_ok_keyed, empty_ok. Qed.

Lemma replace_changes_only_what_differs_witness :
  let next := [sample_process "b" 12; sample_process "c" 13] in
  let previous := default ∅ (sessions sample_ledger !! 1) in
  let '(state', events) := replaceSession 1 next 300 sample_ledger in
  consecutive (revision sample_ledger) events /\
  revision state' = last_revision (revision sample_ledger) events /\
  processes state' = replay events (processes sample_ledger) /\
  NoDup (map (fun e => ID (EventProcess e)) events) /\
  forall id, id ∈ map (fun e => ID (EventProcess e)) events <-> previous !! id <> by_id next !! id.
Proof.
  exact (replace_changes_only_what_differs 1 [sample_process "b" 12; sample_process "c" 13] 300
    sample_ledger sample_keyed).
Defined.


Lemma subscriber_replays_the_ledger_witness :
  let '(state0, snapshot, me) := observe sample_ledger in
  let '(state', got) := run_operations me [OpReplace 1 [sample_process "b" 12] 300; OpReceive me] state0 in
  exists ch, channels state' !! me = Some ch /\
    (length (buffer ch) <= processEventBuffer)%nat /\
    consecutive (InventoryRevision snapshot) (got ++ buffer ch) /\
    (chanClosed ch = false <-> me ∈ observers state') /\
    (chanClosed ch = false ->
      replay (got ++ buffer ch) (by_id (Processes snapshot)) = processes state' /\
    last_revision (InventoryRevision snapshot) (got ++ buffer ch) = revision state').
Proof.
  exact (subscriber_replays_the_ledger sample_ledger
    [OpReplace 1 [sample_process "b" 12] 300; OpReceive (madeSubs sample_ledger)] sample_keyed).
Defined.

(** The events of the witness: "a" ends after "b" was updated and "c" started. *)
Example sample_events :
  map (fun e => (Revision e, Kind e, ID (EventProcess e)))
    (snd (replaceSession 1 [sample_process "b" 12; sample_process "c" 13] 300 sample_ledger)) =
  [(3, "updated", "b"); (4, "started", "c"); (5, "ended", "a")].
Proof. vm_compute. reflexivity. Qed.

End witnesses.
