(* ===== verification/Environment.v ===== *)
(** * The environment a session runs in (environment.go)

    The caller's pairs, or the daemon's own when it sends none, with the session's
    variables on top and the terminal defaults underneath.  [toUpper] is the case mapping
    a Windows build applies to a name before comparing it; every theorem holds whatever
    it does. *)

From Stdlib Require Import Strings.Ascii.
From S2P Require Import Prelude Contract.

(** The contract's environment: a whole replacement and the session's variables. *)
Record EnvironmentRequest := mkEnvironment {
  Replace : list (string * string);
  Variables : gmap string string
}.

Definition entry_line (entry : string * string) : string := (fst entry ++ "=" ++ snd entry)%string.

(** [strings.Cut(entry, "=")]; [None] when there is no separator. *)
Fixpoint cut (entry : string) : option (string * string) :=
  match entry with
  | EmptyString => None
  | String c rest =>
      if Ascii.eqb c "="%char then Some (EmptyString, rest)
      else match cut rest with
           | None => None
           | Some (name, value) => Some (String c name, value)
           end
  end.

(** [own] is [os.Environ()]. *)
Definition inherited (own : list string) : list (string * string) := omap cut own.

Definition sorted_names {A} (values : gmap string A) : list string :=
  merge_sort String.le (map_to_list values).*1.

Definition ttyDefaults (goos : string) : gmap string string :=
  let defaults := <["TERM" := "xterm-256color"]> (<["COLORTERM" := "truecolor"]> ∅) in
  if String.eqb goos "windows" then defaults
  else <["LC_CTYPE" := "en_US.UTF-8"]> (<["LANG" := "en_US.UTF-8"]> defaults).

Section environment.
Context (goos : string) (toUpper : string -> string).

Definition normalize (name : string) : string :=
  if String.eqb goos "windows" then toUpper name else name.

Definition normalized (names : list string) : gset string := list_to_set (map normalize names).

(** The loop over the entries: the names given so far and the lines built so far. *)
Fixpoint entries_loop (dropped overridden : gset string) (entries : list (string * string))
    (given : gset string) (result : list string) : gset string * list string :=
  match entries with
  | [] => (given, result)
  | entry :: entries =>
      let key := normalize (fst entry) in
      if decide (key ∈ dropped) then entries_loop dropped overridden entries given result
      else if decide (key ∈ overridden) then entries_loop dropped overridden entries given result
      else entries_loop dropped overridden entries ({[key]} ∪ given) (result ++ [entry_line entry])
  end.

(** The loop over the sorted variable names. *)
Fixpoint variables_loop (variables : gmap string string) (names : list string)
    (given : gset string) (result : list string) : gset string * list string :=
  match names with
  | [] => (given, result)
  | name :: names =>
      variables_loop variables names ({[normalize name]} ∪ given)
        (result ++ [entry_line (name, default "" (variables !! name))])
  end.

Definition applyEnvironment (entries : list (string * string)) (variables : gmap string string)
    (drop : list string) : list string :=
  let dropped := normalized drop in
  let overridden := normalized (map_to_list variables).*1 in
  let '(given, result) := entries_loop dropped overridden entries ∅ [] in
  let '(given, result) := variables_loop variables (sorted_names variables) given result in
  let defaults := ttyDefaults goos in
  let names := filter (fun name => ~ (normalize name ∈ given \/ normalize name ∈ dropped))
                 (map_to_list defaults).*1 in
  result ++ map (fun name => entry_line (name, default "" (defaults !! name)))
              (merge_sort String.le names).

Definition sessionEnvironment (own : list string) (env : EnvironmentRequest) (drop : list string)
    : list string :=
  let entries := if (length (Replace env) =? 0)%nat then inherited own else Replace env in
  applyEnvironment entries (Variables env) drop.

(** ** Specification *)

Definition named (key : string) (pairs : list (string * string)) : list (string * string) :=
  filter (fun p => normalize p.1 = key) pairs.

Definition values_of (values : gmap string string) (names : list string) : list (string * string) :=
  map (fun name => (name, default "" (values !! name))) names.

(** The bindings in the order of their names. *)
Definition sorted_pairs (values : gmap string string) : list (string * string) :=
  values_of values (sorted_names values).

(** What each name's lines come from, the first of these that has any: the session's
    variables, nothing for a dropped name, the entries, the terminal defaults. *)
Definition precedence (entries : list (string * string)) (variables : gmap string string)
    (drop : list string) (key : string) : list (string * string) :=
  match named key (sorted_pairs variables) with
  | (_ :: _) as chosen => chosen
  | [] => if decide (key ∈ normalized drop) then []
          else match named key entries with
               | (_ :: _) as chosen => chosen
               | [] => named key (sorted_pairs (ttyDefaults goos))
               end
  end.

(** The three parts of the result. *)
Definition kept_entries (entries : list (string * string)) (variables : gmap string string)
    (drop : list string) : list (string * string) :=
  filter (fun p => (normalize p.1 ∉ normalized drop) /\
                   (normalize p.1 ∉ normalized (map_to_list variables).*1)) entries.

Definition filled_defaults (given : gset string) (drop : list string) : list (string * string) :=
  values_of (ttyDefaults goos)
    (merge_sort String.le
      (filter (fun name => ~ (normalize name ∈ given \/ normalize name ∈ normalized drop))
        (map_to_list (ttyDefaults goos)).*1)).

(** The pairs of the result: the entries kept, the variables, the defaults filled in. *)
Definition all_pairs (entries : list (string * string)) (variables : gmap string string)
    (drop : list string) : list (string * string) :=
  let kept := kept_entries entries variables drop in
  let given := normalized kept.*1 ∪ normalized (map_to_list variables).*1 in
  kept ++ sorted_pairs variables ++ filled_defaults given drop.

(** ** The parts *)

Lemma normalized_in names key : key ∈ normalized names <-> exists n, n ∈ names /\ normalize n = key.
Proof.
  unfold normalized. rewrite elem_of_list_to_set. change (map normalize names) with (normalize <$> names).
  rewrite list_elem_of_fmap. naive_solver.
Qed.

Lemma normalized_app l k : normalized (l ++ k) = normalized l ∪ normalized k.
Proof. unfold normalized. by rewrite map_app, list_to_set_app_L. Qed.

Lemma entries_loop_spec dropped overridden entries : forall given result,
  let kept := filter (fun p => (normalize p.1 ∉ dropped) /\ (normalize p.1 ∉ overridden)) entries in
  entries_loop dropped overridden entries given result =
    (given ∪ normalized kept.*1, result ++ map entry_line kept).
Proof.
  induction entries as [|[n v] entries IH]; intros given result; cbn [entries_loop].
  { cbn. f_equal; [set_solver|by rewrite app_nil_r]. }
  rewrite filter_cons. cbn [fst].
  destruct (decide (normalize n ∈ dropped)), (decide (normalize n ∈ overridden)).
  1-3: rewrite decide_False by tauto; apply IH.
  rewrite decide_True, IH by tauto. cbn. rewrite <- app_assoc. f_equal.
  unfold normalized. cbn. set_solver.
Qed.

Lemma variables_loop_spec variables names : forall given result,
  variables_loop variables names given result =
    (given ∪ normalized names, result ++ map entry_line (values_of variables names)).
Proof.
  induction names as [|n names IH]; intros given result; cbn.
  { cbn. f_equal; [set_solver|by rewrite app_nil_r]. }
  rewrite IH, <- app_assoc. f_equal. unfold normalized. cbn. set_solver.
Qed.

Lemma merge_sort_filter (P : string -> Prop) `{!forall x, Decision (P x)} l :
  merge_sort String.le (filter P l) = filter P (merge_sort String.le l).
Proof.
  apply (Sorted_unique String.le).
  - by apply (Sorted_merge_sort String.le).
  - apply StronglySorted_Sorted.
    assert (Hs : StronglySorted String.le (merge_sort String.le l)).
    { by apply (StronglySorted_merge_sort String.le). }
    induction Hs as [|x k Hs IH Hall]; [constructor|]. rewrite filter_cons. case_decide; [|done].
    constructor; [done|]. rewrite list.Forall_forall in *. intros y Hy%list_elem_of_filter. by apply Hall, Hy.
  - by rewrite !merge_sort_Permutation.
Qed.

Lemma values_of_filter values (P : string -> Prop) `{!forall x, Decision (P x)} names :
  values_of values (filter P names) = filter (fun p => P p.1) (values_of values names).
Proof.
  induction names as [|n names IH]; [done|].
  change (values_of values (n :: names)) with ((n, default "" (values !! n)) :: values_of values names).
  rewrite !filter_cons. cbn [fst]. destruct (decide (P n)); [|done].
  change (values_of values (n :: filter P names)) with ((n, default "" (values !! n)) :: values_of values (filter P names)).
  by rewrite IH.
Qed.

Lemma values_of_fst values names : (values_of values names).*1 = names.
Proof. induction names as [|n names IH]; [done|]. cbn. by f_equal. Qed.

Lemma sorted_names_perm {A} (values : gmap string A) : sorted_names values ≡ₚ (map_to_list values).*1.
Proof. apply merge_sort_Permutation. Qed.

Lemma normalized_perm l k : l ≡ₚ k -> normalized l = normalized k.
Proof. intros Hp. apply set_eq. intros x. rewrite !normalized_in. by setoid_rewrite Hp. Qed.

Lemma sorted_pairs_keys values :
  normalized (sorted_pairs values).*1 = normalized (map_to_list values).*1.
Proof. unfold sorted_pairs. rewrite values_of_fst. apply normalized_perm, sorted_names_perm. Qed.

Lemma filled_defaults_filter given drop :
  filled_defaults given drop =
    filter (fun p => ~ (normalize p.1 ∈ given \/ normalize p.1 ∈ normalized drop))
      (sorted_pairs (ttyDefaults goos)).
Proof. unfold filled_defaults. by rewrite merge_sort_filter, values_of_filter. Qed.

(** The result is the lines of the three parts, one after the other. *)
Lemma applyEnvironment_parts entries variables drop :
  applyEnvironment entries variables drop = map entry_line (all_pairs entries variables drop).
Proof.
  unfold applyEnvironment. rewrite entries_loop_spec.
  fold (kept_entries entries variables drop). rewrite variables_loop_spec.
  rewrite (normalized_perm _ _ (sorted_names_perm variables)).
  unfold all_pairs. rewrite !map_app, app_nil_l, <- app_assoc. do 2 f_equal.
  unfold filled_defaults, values_of. rewrite map_map. by rewrite (left_id_L ∅ (∪)).
Qed.

(** ** Entries by name *)

Lemma named_app key l k : named key (l ++ k) = named key l ++ named key k.
Proof. apply filter_app. Qed.

Lemma named_filter key (P : string * string -> Prop) `{!forall p, Decision (P p)}
    (Q : Prop) `{!Decision Q} pairs :
  (forall p, normalize p.1 = key -> P p <-> Q) ->
  named key (filter P pairs) = if decide Q then named key pairs else [].
Proof.
  intros Hpq. unfold named. induction pairs as [|p pairs IH]; [by case_decide|].
  rewrite !(filter_cons _ p). destruct (decide (P p)) as [Hp|Hp].
  - rewrite filter_cons, IH. destruct (decide (normalize p.1 = key)) as [Hk|]; [|done].
    assert Q by by apply (Hpq p Hk). by rewrite !decide_True by done.
  - rewrite IH. destruct (decide (normalize p.1 = key)) as [Hk|]; [|done].
    assert (~ Q) by (rewrite <- (Hpq p Hk); done). by rewrite !decide_False by done.
Qed.

Lemma named_nil key pairs : named key pairs = [] <-> key ∉ normalized pairs.*1.
Proof.
  unfold named. rewrite normalized_in. split.
  - intros Hn (n & ([n' v] & -> & Hin)%list_elem_of_fmap & Hk).
    assert (Hf : (n', v) ∈ filter (fun p => normalize p.1 = key) pairs) by by apply list_elem_of_filter.
    rewrite Hn in Hf. by apply elem_of_nil in Hf.
  - intros Hno. destruct (filter _ pairs) as [|p l] eqn:E; [done|]. destruct Hno. exists p.1.
    assert (Hf : p ∈ filter (fun p => normalize p.1 = key) pairs) by (rewrite E; by left).
    apply list_elem_of_filter in Hf as [Hk Hin]. split; [|done]. apply list_elem_of_fmap. by exists p.
Qed.

(** Every name's lines are the ones precedence chooses, in order. *)
Lemma named_all_pairs entries variables drop key :
  named key (all_pairs entries variables drop) = precedence entries variables drop key.
Proof.
  unfold all_pairs, precedence. set (given := normalized _.*1 ∪ _).
  rewrite !named_app, filled_defaults_filter.
  rewrite (named_filter key _ (~ (key ∈ given \/ key ∈ normalized drop))) by (intros p ->; done).
  assert (Hk : named key (kept_entries entries variables drop) =
    if decide ((key ∉ normalized drop) /\ (key ∉ normalized (map_to_list variables).*1))
    then named key entries else [])  by (apply named_filter; intros p ->; done).
  pose proof (named_nil key (sorted_pairs variables)) as Hv. rewrite sorted_pairs_keys in Hv.
  pose proof (named_nil key (kept_entries entries variables drop)) as Hkn. rewrite Hk in *.
  destruct (named key (sorted_pairs variables)) as [|p l] eqn:Ev.
  - assert (key ∉ normalized (map_to_list variables).*1) by by apply Hv.
    destruct (decide (key ∈ normalized drop)); [by rewrite !decide_False by tauto|].
    rewrite (decide_True (P := _ /\ _)) in * by done.
    destruct (named key entries) as [|p l] eqn:Ee; cbn [app].
    + assert (key ∉ normalized (kept_entries entries variables drop).*1) by by apply Hkn.
      rewrite decide_True; [done|]. unfold given. rewrite elem_of_union. tauto.
    + rewrite decide_False; [by rewrite app_nil_r|]. unfold given. rewrite elem_of_union.
      destruct (decide (key ∈ normalized (kept_entries entries variables drop).*1)) as [|Hno]; [tauto|].
      by apply Hkn in Hno.
  - assert (key ∈ normalized (map_to_list variables).*1).
    { destruct (decide (key ∈ normalized (map_to_list variables).*1)); [done|]. by apply Hv in n. }
    rewrite !decide_False by (unfold given; rewrite ?elem_of_union; tauto). by rewrite app_nil_r.
Qed.

(** ** Lines *)

Lemma cut_cons c s :
  cut (String c s) = if Ascii.eqb c "="%char then Some (EmptyString, s)
    else match cut s with None => None | Some (n, v) => Some (String c n, v) end.
Proof. done. Qed.

Lemma cut_line n v : cut n = None -> cut (entry_line (n, v)) = Some (n, v).
Proof.
  unfold entry_line. cbn [fst snd]. induction n as [|c n IH]; [done|].
  change (String c n ++ ("=" ++ v))%string with (String c (n ++ ("=" ++ v)))%string.
  rewrite !cut_cons. destruct (Ascii.eqb c "="%char); [done|]. intros Hn.
  destruct (cut n) as [[? ?]|]; [done|]. by rewrite IH.
Qed.

Lemma inherited_lines pairs : Forall (fun p => cut p.1 = None) pairs ->
  inherited (map entry_line pairs) = pairs.
Proof.
  unfold inherited. induction 1 as [|[n v] pairs Hn _ IH]; [done|].
  cbn [map omap list_omap]. rewrite cut_line by done. f_equal. exact IH.
Qed.

Lemma named_in key p pairs : p ∈ named key pairs <-> normalize p.1 = key /\ p ∈ pairs.
Proof. apply (list_elem_of_filter (fun q => normalize q.1 = key)). Qed.

Lemma all_pairs_in p entries variables drop :
  p ∈ all_pairs entries variables drop <-> p ∈ precedence entries variables drop (normalize p.1).
Proof. rewrite <- named_all_pairs, named_in. tauto. Qed.

(** Where the pairs of a precedence come from. *)
Lemma precedence_from p entries variables drop key :
  p ∈ precedence entries variables drop key ->
  p ∈ entries \/ p ∈ sorted_pairs variables \/ p ∈ sorted_pairs (ttyDefaults goos).
Proof.
  unfold precedence. intros Hp.
  destruct (named key (sorted_pairs variables)) eqn:Ev.
  - case_decide; [by apply elem_of_nil in Hp|]. destruct (named key entries) eqn:Ee.
    + apply named_in in Hp. tauto.
    + rewrite <- Ee in Hp. apply named_in in Hp. tauto.
  - rewrite <- Ev in Hp. apply named_in in Hp. tauto.
Qed.

Lemma sorted_pairs_in values p : p ∈ sorted_pairs values -> values !! p.1 = Some p.2.
Proof.
  unfold sorted_pairs, values_of. intros Hp. apply list_elem_of_fmap in Hp as (n & -> & Hn).
  rewrite sorted_names_perm in Hn. apply list_elem_of_fmap in Hn as ([n' v] & -> & Hv%elem_of_map_to_list).
  cbn. by rewrite Hv.
Qed.

Lemma default_names_plain p : p ∈ sorted_pairs (ttyDefaults goos) -> cut p.1 = None.
Proof.
  intros Hp%sorted_pairs_in. revert Hp. unfold ttyDefaults.
  destruct (String.eqb goos "windows"); rewrite !lookup_insert_Some, lookup_empty;
    intuition (subst; try done); by match goal with H : _ = p.1 |- _ => rewrite <- H end.
Qed.

Lemma inherited_all entries variables drop :
  Forall (fun p => cut p.1 = None) entries ->
  (forall n v, variables !! n = Some v -> cut n = None) ->
  inherited (applyEnvironment entries variables drop) = all_pairs entries variables drop.
Proof.
  intros He Hv. rewrite applyEnvironment_parts. apply inherited_lines.
  apply list.Forall_forall. intros p Hp%all_pairs_in%precedence_from.
  rewrite list.Forall_forall in He.
  destruct Hp as [Hp|[Hp|Hp]]; [by apply He| |by apply default_names_plain].
  by eapply Hv, sorted_pairs_in.
Qed.

Lemma default_names_once : (goos = "windows" -> toUpper "TERM" <> toUpper "COLORTERM") ->
  NoDup (map normalize (map_to_list (ttyDefaults goos)).*1).
Proof.
  intros Hup. unfold normalize, ttyDefaults. destruct (String.eqb_spec goos "windows") as [Hw|Hw].
  - assert ((map_to_list (<["TERM" := "xterm-256color"]> (<["COLORTERM" := "truecolor"]>
      (∅ : gmap string string)))).*1 ≡ₚ ["TERM"; "COLORTERM"]) as Hp.
    { rewrite !map_to_list_insert by done. by rewrite map_to_list_empty. }
    rewrite Hp. cbn. specialize (Hup Hw). repeat constructor; set_solver.
  - change (map (fun name => name)) with (@map string string id). rewrite map_id.
    apply NoDup_fst_map_to_list.
Qed.

#[local] Instance named_proper key : Proper ((≡ₚ) ==> (≡ₚ)) (named key).
Proof. unfold named. intros l k Hlk. by rewrite Hlk. Qed.

(** Equal entries for every name make equal environments, up to order. *)
Lemma named_perm l : forall k, (forall key, named key l ≡ₚ named key k) -> l ≡ₚ k.
Proof.
  induction l as [|p l IH]; intros k Hk.
  - destruct k as [|q k]; [done|]. specialize (Hk (normalize q.1)). unfold named in Hk.
    rewrite filter_cons, decide_True in Hk by done. by apply Permutation_nil_cons in Hk.
  - assert (Hp : p ∈ named (normalize p.1) k) by (rewrite <- Hk; apply named_in; split; [done|by left]).
    apply named_in in Hp as [_ Hp]. apply elem_of_Permutation in Hp as [k' Hk'].
    rewrite Hk'. f_equiv. apply IH. intros key. specialize (Hk key). rewrite Hk' in Hk.
    unfold named in *. rewrite !filter_cons in Hk. case_decide; [|done]. by eapply Permutation_cons_inv.
Qed.

Lemma reapplied_pairs entries variables drop :
  all_pairs (all_pairs entries variables drop) variables drop ≡ₚ all_pairs entries variables drop.
Proof.
  apply named_perm. intros key. rewrite named_all_pairs. unfold precedence.
  rewrite named_all_pairs. unfold precedence.
  destruct (named key (sorted_pairs variables)) eqn:Ev; [|done].
  case_decide; [done|]. destruct (named key entries); [|done].
  by destruct (named key (sorted_pairs (ttyDefaults goos))).
Qed.

(** ** The theorems *)

(** C30: when no name carries a separator, the lines a session is started with parse back
    into pairs, and for every name the pairs are, in order, those of the first of these
    that has any: the session's variables, nothing for a dropped name, the entries (the
    caller's, or the daemon's own when it sent none), the terminal's defaults. *)
Theorem environment_precedence own env drop :
  let entries := if (length (Replace env) =? 0)%nat then inherited own else Replace env in
  Forall (fun p => cut p.1 = None) entries ->
  (forall n v, Variables env !! n = Some v -> cut n = None) ->
  let lines := sessionEnvironment own env drop in
  lines = map entry_line (inherited lines) /\
  forall key, named key (inherited lines) = precedence entries (Variables env) drop key.
Proof.
  intros entries He Hv lines. unfold lines, sessionEnvironment. fold entries.
  rewrite inherited_all by done. split; [apply applyEnvironment_parts|]. intros key. apply named_all_pairs.
Qed.

Lemma count_named pairs :
  NoDup (map (fun p => normalize p.1) pairs) <-> forall key, (length (named key pairs) <= 1)%nat.
Proof.
  induction pairs as [|p pairs IH]; [split; [cbn; lia|constructor]|]. cbn [map].
  rewrite NoDup_cons, IH. unfold named. setoid_rewrite filter_cons.
  assert (Hin : normalize p.1 ∉ map (fun q => normalize q.1) pairs <-> named (normalize p.1) pairs = []).
  { rewrite named_nil, normalized_in, list_elem_of_fmap. setoid_rewrite list_elem_of_fmap.
    split; intros Hno (x & Hx); apply Hno; naive_solver. }
  rewrite Hin. unfold named. split.
  - intros [Hnil Hle] key. case_decide as Hk; [|apply Hle]. subst key. by rewrite Hnil.
  - intros Hle. split.
    + specialize (Hle (normalize p.1)). rewrite decide_True in Hle by done. cbn in Hle.
      apply nil_length_inv. lia.
    + intros key. specialize (Hle key). case_decide; cbn in Hle; lia.
Qed.

(** When neither the entries nor the variables name a thing twice, no two lines of the
    environment have one name, whichever of the four sources they come from. *)
Theorem environment_names_once entries variables drop :
  Forall (fun p => cut p.1 = None) entries ->
  (forall n v, variables !! n = Some v -> cut n = None) ->
  (goos = "windows" -> toUpper "TERM" <> toUpper "COLORTERM") ->
  NoDup (map (fun p => normalize p.1) entries) ->
  NoDup (map normalize (map_to_list variables).*1) ->
  NoDup (map (fun p => normalize p.1) (inherited (applyEnvironment entries variables drop))).
Proof.
  intros He Hv Hup Hne Hnv. rewrite inherited_all by done.
  assert (Hsorted : forall values, NoDup (map normalize (map_to_list values).*1) ->
    forall key, (length (named key (sorted_pairs values)) <= 1)%nat).
  { intros values Hnd. apply count_named.
    replace (map (fun p : string * string => normalize p.1) (sorted_pairs values))
      with (map normalize (sorted_names values)) by (unfold sorted_pairs, values_of; by rewrite map_map).
    by rewrite sorted_names_perm. }
  apply count_named. intros key. rewrite named_all_pairs. unfold precedence.
  destruct (named key (sorted_pairs variables)) eqn:Ev; [|rewrite <- Ev; by apply Hsorted].
  case_decide; [cbn; lia|].
  destruct (named key entries) eqn:Ee; [|rewrite <- Ee; by apply count_named].
  apply Hsorted, default_names_once, Hup.
Qed.

(** A daemon started with the environment of one of its own sessions gives its own
    sessions, for the same variables and dropped names, that environment again, line for
    line up to order. *)
Theorem environment_reapplied entries variables drop :
  Forall (fun p => cut p.1 = None) entries ->
  (forall n v, variables !! n = Some v -> cut n = None) ->
  let own := applyEnvironment entries variables drop in
  sessionEnvironment own (mkEnvironment [] variables) drop ≡ₚ own.
Proof.
  intros He Hv own. unfold sessionEnvironment. cbn [Replace Variables length Nat.eqb]. unfold own.
  rewrite inherited_all, !applyEnvironment_parts by done. apply Permutation_map.
  apply reapplied_pairs.
Qed.

End environment.

(** ** Witnesses *)

(** The ASCII part of the case mapping. *)
Fixpoint ascii_upper (s : string) : string :=
  match s with
  | EmptyString => EmptyString
  | String c rest =>
      let n := nat_of_ascii c in
      String (if ((97 <=? n) && (n <=? 122))%nat then ascii_of_nat (n - 32) else c) (ascii_upper rest)
  end.

Definition sample_entries : list (string * string) :=
  [("Path", "/bin"); ("SOKSAK_PANE", "old"); ("Term", "dumb"); ("SECRET", "x")].

Definition sample_variables : gmap string string := <["soksak_pane" := "p1"]> ∅.

Lemma sample_entries_plain : Forall (fun p => cut p.1 = None) sample_entries.
Proof. repeat constructor. Qed.

Lemma sample_variables_plain n v : sample_variables !! n = Some v -> cut n = None.
Proof.
  unfold sample_variables. rewrite lookup_insert_Some, lookup_empty. by intros [[<- _]|[_ ?]].
Qed.

Example sample_environment :
  applyEnvironment "windows" ascii_upper sample_entries sample_variables ["secret"] =
    ["Path=/bin"; "Term=dumb"; "soksak_pane=p1"; "COLORTERM=truecolor"].
Proof. vm_compute. reflexivity. Qed.

Lemma environment_precedence_witness :
  let env := mkEnvironment sample_entries sample_variables in
  let lines := sessionEnvironment "windows" ascii_upper [] env ["secret"] in
  lines = map entry_line (inherited lines) /\
  forall key, named "windows" ascii_upper key (inherited lines) =
    precedence "windows" ascii_upper sample_entries sample_variables ["secret"] key.
Proof.
  exact (environment_precedence "windows" ascii_upper [] (mkEnvironment sample_entries sample_variables)
    ["secret"] sample_entries_plain sample_variables_plain).
Defined.

Lemma environment_reapplied_witness :
  let own := applyEnvironment "windows" ascii_upper sample_entries sample_variables ["secret"] in
  sessionEnvironment "windows" ascii_upper own (mkEnvironment [] sample_variables) ["secret"] ≡ₚ own.
Proof.
  exact (environment_reapplied "windows" ascii_upper sample_entries sample_variables ["secret"]
    sample_entries_plain sample_variables_plain).
Defined.
