(* ===== verification/ProcessTree.v ===== *)
(** * The processes under a session's shell (process_tree_unix.go, process_monitor.go)

    The table [ps] prints is read line by line into rows, the rows are filed by parent,
    and a breadth-first walk from the shell collects its descendants, asking each one's
    working directory once.  The table and the directories are what the system answers
    ([table], [readProcessCWD]); the walk has to end and find exactly the processes the
    shell is an ancestor of, whatever the table says, loops in it included. *)

From Stdlib Require Import Strings.Ascii.
From stdpp Require Import fin_sets.
From S2P Require Import Prelude Decimal Contract.

(** ** Reading the table *)

Definition nth_code (n : nat) (s : string) : Z :=
  match String.get n s with Some c => code c | None => -1 end.

(** The bytes of the white-space character a string starts with, [unicode.IsSpace] in
    UTF-8; 0 when it starts with none. *)
Definition space_width (s : string) : nat :=
  let b0 := nth_code 0 s in let b1 := nth_code 1 s in let b2 := nth_code 2 s in
  if ((9 <=? b0) && (b0 <=? 13)) || (b0 =? 32) then 1%nat
  else if (b0 =? 194) && ((b1 =? 133) || (b1 =? 160)) then 2%nat
  else if (b0 =? 225) && (b1 =? 154) && (b2 =? 128) then 3%nat
  else if (b0 =? 226) && (b1 =? 128) &&
          (((128 <=? b2) && (b2 <=? 138)) || (b2 =? 168) || (b2 =? 169) || (b2 =? 175)) then 3%nat
  else if (b0 =? 226) && (b1 =? 129) && (b2 =? 159) then 3%nat
  else if (b0 =? 227) && (b1 =? 128) && (b2 =? 128) then 3%nat
  else 0%nat.

(** [strings.Fields]: [skip] bytes of a space are still to pass, [current] is the field
    being read. *)
Fixpoint Fields_loop (s : string) (skip : nat) (current : string) : list string :=
  let done := if String.eqb current "" then [] else [current] in
  match s with
  | EmptyString => done
  | String c rest =>
      match skip with
      | S skip => Fields_loop rest skip current
      | O => match space_width s with
             | O => Fields_loop rest 0 (current ++ String c EmptyString)%string
             | S skip => done ++ Fields_loop rest skip EmptyString
             end
      end
  end.

Definition Fields (s : string) : list string := Fields_loop s 0 EmptyString.

(** [strconv.ParseUint(s, 10, 32)]; [None] for an error. *)
Definition ParseUint32 (s : string) : option Z := ParseUint 32 s.

(** The lines [bufio.Scanner] yields: split at newlines, the line that would be empty after
    the last newline left out. *)
Fixpoint scan_lines (s : string) (current : string) : list string :=
  match s with
  | EmptyString => if String.eqb current "" then [] else [current]
  | String c rest =>
      if code c =? 10 then current :: scan_lines rest EmptyString
      else scan_lines rest (current ++ String c EmptyString)%string
  end.

(** [bufio.MaxScanTokenSize]. *)
Definition MaxScanTokenSize : Z := 65536.

(** Each line loses one trailing carriage return. *)
Definition drop_cr (line : string) : string :=
  match String.get (String.length line - 1) line with
  | Some c => if code c =? 13 then String.substring 0 (String.length line - 1) line else line
  | None => line
  end.

Record row := mkRow {
  pid : Z;
  parent : Z;
  group : Z;
  command : string
}.

(** The body of the scanning loop for one line; [None] is its [continue]. *)
Definition parse_row (line : string) : option row :=
  match Fields line with
  | f0 :: f1 :: f2 :: (_ :: _) as words =>
      match ParseUint32 f0, ParseUint32 f1, ParseUint32 f2 with
      | Some p, Some q, Some g => Some (mkRow p q g (String.concat " " words))
      | _, _, _ => None
      end
  | _ => None
  end.

(** ** The walk *)

Record processTreeEntry := mkEntry {
  PID : Z;
  ParentPID : Z;
  GroupID : Z;
  Command : string;
  CWD : string
}.

Inductive cwd_answer :=
| Cwd (path : string)
| ExitedDuringSnapshot
| CwdError.

Inductive tree_error :=
| TableUnreadable
| LineTooLong
| CwdUnreadable (pid : Z).

Definition file_row (children : gmap Z (list row)) (value : row) : gmap Z (list row) :=
  <[parent value := default [] (children !! parent value) ++ [value]]> children.

Definition file_rows (rows : list row) : gmap Z (list row) := fold_left file_row rows ∅.

Section walk.
Context (readProcessCWD : Z -> cwd_answer).

(** The inner loop: the children of one parent. *)
Fixpoint visit (siblings : list row) (queue : list Z) (seen : gset Z) (result : list processTreeEntry)
    : tree_error + (list Z * gset Z * list processTreeEntry) :=
  match siblings with
  | [] => inr (queue, seen, result)
  | child :: siblings =>
      if decide (pid child ∈ seen) then visit siblings queue seen result
      else
        let seen := {[pid child]} ∪ seen in
        let queue := queue ++ [pid child] in
        match readProcessCWD (pid child) with
        | ExitedDuringSnapshot => visit siblings queue seen result
        | CwdError => inl (CwdUnreadable (pid child))
        | Cwd cwd =>
            visit siblings queue seen
              (result ++ [mkEntry (pid child) (parent child) (group child) (command child) cwd])
        end
  end.

(** The outer loop; [None] when the fuel runs out. *)
Fixpoint walk (fuel : nat) (children : gmap Z (list row)) (queue : list Z) (seen : gset Z)
    (result : list processTreeEntry) : option (tree_error + list processTreeEntry) :=
  match queue with
  | [] => Some (inr result)
  | next :: queue =>
      match fuel with
      | O => None
      | S fuel =>
          match visit (default [] (children !! next)) queue seen result with
          | inl e => Some (inl e)
          | inr (queue, seen, result) => walk fuel children queue seen result
          end
      end
  end.

Definition too_long (line : string) : bool := MaxScanTokenSize <=? Z.of_nat (String.length line).

Definition table_lines (text : string) : list string := scan_lines text EmptyString.

Definition table_rows (text : string) : list row :=
  omap (fun line => parse_row (drop_cr line)) (table_lines text).

(** [table] is what [ps] printed, [None] when it failed.  One turn per process is enough. *)
Definition Descendants (root : Z) (table : option string)
    : option (tree_error + list processTreeEntry) :=
  match table with
  | None => Some (inl TableUnreadable)
  | Some text =>
      let rows := table_rows text in
      if existsb too_long (table_lines text) then Some (inl LineTooLong)
      else if existsb (fun value => pid value =? root) rows
      then walk (S (length rows)) (file_rows rows) [root] {[root]} []
      else Some (inr [])
  end.

End walk.

(** [foregroundOf] (process_monitor.go): the program the terminal gives the keyboard to. *)
Fixpoint first_child (entries : list processTreeEntry) (wanted : processTreeEntry -> bool)
    : string * string :=
  match entries with
  | [] => (EmptyString, EmptyString)
  | child :: entries => if wanted child then (Command child, CWD child) else first_child entries wanted
  end.

Definition foregroundOf (entries : list processTreeEntry) (shell group : Z) : string * string :=
  if group =? shell then (EmptyString, EmptyString)
  else if negb (group =? 0)
  then first_child entries (fun child => (ParentPID child =? shell) && (GroupID child =? group))
  else first_child entries (fun child => ParentPID child =? shell).

(** ** Specification *)

(** One process is the parent of another. *)
Definition edge (rows : list row) (a b : Z) : Prop := exists r, r ∈ rows /\ parent r = a /\ pid r = b.

Definition reachable (rows : list row) (root p : Z) : Prop := rtc (edge rows) root p.

(** The pids the walk can ever see. *)
Definition pids (rows : list row) : gset Z := list_to_set (map pid rows).

Section spec.
Context (readProcessCWD : Z -> cwd_answer) (rows : list row) (root : Z).

Definition of_row (e : processTreeEntry) (r : row) : Prop :=
  e = mkEntry (pid r) (parent r) (group r) (command r) (CWD e) /\ readProcessCWD (pid r) = Cwd (CWD e).

(** What has been seen is reached, and what has been seen with a directory is in the
    result once. *)
Record walk_ok (queue : list Z) (seen : gset Z) (result : list processTreeEntry) : Prop := {
  root_seen : root ∈ seen;
  seen_reached : forall p, p ∈ seen -> reachable rows root p;
  queue_seen : forall p, p ∈ queue -> p ∈ seen;
  result_once : NoDup (map PID result);
  result_pids : forall p, p ∈ map PID result <->
    p ∈ seen /\ p <> root /\ exists c, readProcessCWD p = Cwd c;
  result_rows : forall e, e ∈ result -> exists r, r ∈ rows /\ of_row e r /\ reachable rows root (parent r);
  no_failure : forall p, p ∈ seen -> p <> root -> readProcessCWD p <> CwdError
}.

(** The children of what has left the queue have been seen. *)
Definition closed_but (queue : list Z) (seen : gset Z) : Prop :=
  forall p q, p ∈ seen -> p ∉ queue -> edge rows p q -> q ∈ seen.

Definition walk_measure (queue : list Z) (seen : gset Z) : nat :=
  (length queue + size (pids rows ∖ seen))%nat.

End spec.

(** ** Rows by parent *)

Lemma file_rows_lookup rows a :
  default [] (file_rows rows !! a) = filter (fun r => parent r = a) rows.
Proof.
  unfold file_rows. induction rows as [|r rows IH] using rev_ind; [done|].
  rewrite fold_left_app, filter_app, <- IH, filter_cons, filter_nil. cbn [fold_left]. unfold file_row.
  destruct (decide (parent r = a)) as [->|Hne].
  - by rewrite lookup_insert_eq.
  - by rewrite lookup_insert_ne, app_nil_r.
Qed.

(** ** The walk *)

Section walking.
Context (readProcessCWD : Z -> cwd_answer) (rows : list row) (root : Z).
#[local] Abbreviation walk_ok := (walk_ok readProcessCWD rows root).

Lemma measure_visit queue seen p : p ∈ pids rows -> p ∉ seen ->
  walk_measure rows (queue ++ [p]) ({[p]} ∪ seen) = walk_measure rows queue seen.
Proof.
  intros Hp Hns. unfold walk_measure. rewrite length_app. cbn [length].
  assert (pids rows ∖ seen = {[p]} ∪ (pids rows ∖ ({[p]} ∪ seen))) as ->.
  { apply set_eq. intros x. destruct (decide (x = p)) as [->|]; set_solver. }
  rewrite (size_union {[p]} (pids rows ∖ ({[p]} ∪ seen))) by set_solver.
  rewrite (size_singleton p). lia.
Qed.

(** One child that was not seen before. *)
Lemma walk_ok_child queue seen result r : walk_ok queue seen result -> r ∈ rows ->
  reachable rows root (parent r) -> pid r ∉ seen ->
  forall result',
  match readProcessCWD (pid r) with
  | Cwd cwd => result' = result ++ [mkEntry (pid r) (parent r) (group r) (command r) cwd]
  | ExitedDuringSnapshot => result' = result
  | CwdError => False
  end ->
  walk_ok (queue ++ [pid r]) ({[pid r]} ∪ seen) result'.
Proof.
  intros [Hroot Hreach Hq Hnd Hin Hrows Hno] Hr Hparent Hns result' Hres.
  assert (Hne : pid r <> root) by (intros E; by rewrite E in Hns).
  assert (Hpr : reachable rows root (pid r)).
  { eapply rtc_r; [done|]. by exists r. }
  assert (Hids : map PID result' = map PID result ++
    match readProcessCWD (pid r) with Cwd _ => [pid r] | _ => [] end).
  { destruct (readProcessCWD (pid r)); subst; [by rewrite map_app|by rewrite app_nil_r|done]. }
  split.
  - set_solver.
  - intros p [->%elem_of_singleton|Hp]%elem_of_union; [done|by apply Hreach].
  - intros p [Hp| ->%list_elem_of_singleton]%elem_of_app; [apply Hq in Hp; set_solver|set_solver].
  - rewrite Hids. destruct (readProcessCWD (pid r)); rewrite ?app_nil_r; try done.
    apply NoDup_app. split_and!; [done| |by apply NoDup_singleton].
    intros x (Hx & _ & _)%Hin ->%list_elem_of_singleton. done.
  - intros p. rewrite Hids, elem_of_app, Hin, elem_of_union, elem_of_singleton.
    destruct (readProcessCWD (pid r)) as [c| |] eqn:Ec; [|rewrite elem_of_nil|done].
    + rewrite list_elem_of_singleton. split; [|tauto]. intros [?| ->]; [tauto|eauto].
    + split; [tauto|]. intros ([->|Hp] & Hpn & c & Hc); [congruence|eauto].
  - intros e He. destruct (readProcessCWD (pid r)) as [c| |] eqn:Ec; [subst result'|subst result'; by apply Hrows|done].
    apply elem_of_app in He as [He| ->%list_elem_of_singleton]; [by apply Hrows|]. by exists r.
  - intros p [->%elem_of_singleton|Hp]%elem_of_union Hpn; [|by apply Hno].
    destruct (readProcessCWD (pid r)); done.
Qed.

Lemma visit_spec siblings : forall queue seen result, walk_ok queue seen result ->
  (forall r, r ∈ siblings -> r ∈ rows /\ reachable rows root (parent r)) ->
  match visit readProcessCWD siblings queue seen result with
  | inl e => exists p, e = CwdUnreadable p /\ reachable rows root p /\ p <> root /\ readProcessCWD p = CwdError
  | inr (queue', seen', result') =>
      walk_ok queue' seen' result' /\
      (forall p, p ∈ seen' <-> p ∈ seen \/ p ∈ map pid siblings) /\
      (forall p, p ∈ seen' -> p ∈ seen \/ p ∈ queue') /\ (forall p, p ∈ queue -> p ∈ queue') /\
      walk_measure rows queue' seen' = walk_measure rows queue seen
  end.
Proof.
  induction siblings as [|r siblings IH]; intros queue seen result Hok Hsib.
  { cbn. split_and!; [done| |tauto|done|done]. intros p. rewrite elem_of_nil. tauto. }
  destruct (Hsib r) as [Hr Hparent]; [by left|].
  assert (Hrest : forall r', r' ∈ siblings -> r' ∈ rows /\ reachable rows root (parent r'))
    by (intros r' Hr'; apply Hsib; by right).
  cbn [visit]. destruct (decide (pid r ∈ seen)) as [Hseen|Hns].
  { specialize (IH queue seen result Hok Hrest). destruct (visit _ _ _ _ _) as [e|[[q' s'] r']]; [done|].
    destruct IH as (H1 & H2 & H3 & H4 & H5). split_and!; [done| |done|done|done].
    intros p. rewrite H2. cbn. rewrite elem_of_cons. split; [tauto|]. intros [?|[->|?]]; tauto. }
  assert (Hstep : forall result', walk_ok (queue ++ [pid r]) ({[pid r]} ∪ seen) result' ->
    match visit readProcessCWD siblings (queue ++ [pid r]) ({[pid r]} ∪ seen) result' with
    | inl e => exists p, e = CwdUnreadable p /\ reachable rows root p /\ p <> root /\ readProcessCWD p = CwdError
    | inr (queue', seen', result') =>
        walk_ok queue' seen' result' /\
        (forall p, p ∈ seen' <-> p ∈ seen \/ p ∈ map pid (r :: siblings)) /\
        (forall p, p ∈ seen' -> p ∈ seen \/ p ∈ queue') /\ (forall p, p ∈ queue -> p ∈ queue') /\
        walk_measure rows queue' seen' = walk_measure rows queue seen
    end).
  { intros result' Hok'. specialize (IH _ _ _ Hok' Hrest).
    destruct (visit _ _ _ _ _) as [e|[[q' s'] r']]; [done|].
    destruct IH as (H1 & H2 & H3 & H4 & H5). split_and!; [done| | | |].
    - intros p. rewrite H2. cbn. rewrite elem_of_cons, elem_of_union, elem_of_singleton. tauto.
    - intros p [Hp|Hp]%H3; [|by right]. apply elem_of_union in Hp as [->%elem_of_singleton|Hp]; [|by left].
      right. apply H4, elem_of_app. right. by left.
    - intros p Hp. apply H4, elem_of_app. by left.
    - rewrite H5. apply measure_visit; [|done]. unfold pids. rewrite elem_of_list_to_set.
      apply (list_elem_of_fmap_2 pid), Hr. }
  pose proof (walk_ok_child queue seen result r Hok Hr Hparent Hns) as Hchild.
  destruct (readProcessCWD (pid r)) as [cwd| |] eqn:Ec.
  - apply Hstep. by apply Hchild.
  - apply Hstep. by apply Hchild.
  - exists (pid r). split_and!; [done| | |done].
    + eapply rtc_r; [exact Hparent|]. by exists r.
    + intros E. destruct Hok as [Hroot]. by rewrite E in Hns.
Qed.

Lemma walk_spec fuel : forall queue seen result, walk_ok queue seen result -> closed_but rows queue seen ->
  (walk_measure rows queue seen <= fuel)%nat ->
  match walk readProcessCWD fuel (file_rows rows) queue seen result with
  | None => False
  | Some (inl e) =>
      exists p, e = CwdUnreadable p /\ reachable rows root p /\ p <> root /\ readProcessCWD p = CwdError
  | Some (inr result') => exists seen', walk_ok [] seen' result' /\ closed_but rows [] seen'
  end.
Proof.
  induction fuel as [|fuel IH]; intros queue seen result Hok Hclosed Hfuel.
  - destruct queue as [|p queue]; [by exists seen|]. unfold walk_measure in Hfuel. cbn in Hfuel. lia.
  - destruct queue as [|next queue]; [by exists seen|]. cbn [walk]. rewrite file_rows_lookup.
    assert (Hok' : walk_ok queue seen result).
    { destruct Hok. split; try done. intros p Hp. apply queue_seen0. by right. }
    assert (Hnext : next ∈ seen) by (destruct Hok as [_ _ Hq]; apply Hq; by left).
    pose proof (visit_spec (filter (fun r => parent r = next) rows) queue seen result Hok') as Hv.
    destruct (visit _ _ _ _ _) as [e|[[queue' seen'] result']]; cbn zeta in Hv.
    + apply Hv. intros r [<- Hr]%list_elem_of_filter. split; [done|]. by apply Hok.
    + destruct Hv as (H1 & H2 & H3 & H4 & H5).
      { intros r [<- Hr]%list_elem_of_filter. split; [done|]. by apply Hok. }
      apply IH; [done| |unfold walk_measure in *; cbn in *; lia].
      intros p q Hp Hnq Hedge. destruct (H3 p Hp) as [Hps|]; [|done]. apply H2.
      destruct (decide (p = next)) as [->|Hpn].
      * right. destruct Hedge as (r & Hr & Hpar & <-). apply (list_elem_of_fmap_2 pid).
        by apply list_elem_of_filter.
      * left. apply (Hclosed p q Hps); [|done]. intros [->|Hin]%elem_of_cons; [done|].
        by apply Hnq, H4.
Qed.

Lemma closed_reached seen : root ∈ seen -> closed_but rows [] seen ->
  forall p, reachable rows root p -> p ∈ seen.
Proof.
  intros Hroot Hclosed. refine (rtc_ind_r (fun p => p ∈ seen) root Hroot _).
  intros p q _ Hedge IH. eapply Hclosed; [exact IH|apply not_elem_of_nil|done].
Qed.

Lemma walk_start_ok : walk_ok [root] {[root]} [] /\ closed_but rows [root] {[root]} /\
  (walk_measure rows [root] {[root]} <= S (length rows))%nat.
Proof.
  split_and!.
  - split; try set_solver.
    + intros p ->%elem_of_singleton. apply rtc_refl.
    + constructor.
  - intros p q ->%elem_of_singleton Hn. destruct Hn. by left.
  - unfold walk_measure, pids. cbn. apply le_n_S.
    trans (size (list_to_set (map pid rows) : gset Z)); [apply subseteq_size; set_solver|].
    trans (length (map pid rows)); [|by rewrite length_map].
    induction (map pid rows) as [|x l IH]; cbn; [by rewrite size_empty|].
    pose proof (size_union_alt {[x]} (list_to_set l : gset Z)) as Hs. rewrite size_singleton in Hs.
    pose proof (subseteq_size (list_to_set l ∖ {[x]}) (list_to_set l : gset Z)) as Hle.
    rewrite Hs. specialize (Hle ltac:(set_solver)). lia.
Qed.

End walking.

(** C29: whatever the table says, loops in it included, the walk ends: it answers with the
    processes the shell is an ancestor of that still have a working directory, each once
    and with a row of the table behind it, or, when the directory of one of them cannot be
    read, with that failure and no entries. *)
Theorem descendants_of_the_shell readProcessCWD root text :
  let rows := table_rows text in
  existsb too_long (table_lines text) = false -> root ∈ map pid rows ->
  exists answer, Descendants readProcessCWD root (Some text) = Some answer /\
    match answer with
    | inr entries =>
        NoDup (map PID entries) /\
        (forall p, p ∈ map PID entries <->
          reachable rows root p /\ p <> root /\ exists c, readProcessCWD p = Cwd c) /\
        (forall e, e ∈ entries -> exists r, r ∈ rows /\ of_row readProcessCWD e r /\
          reachable rows root (parent r)) /\
        (forall p, reachable rows root p -> p <> root -> readProcessCWD p <> CwdError)
    | inl e =>
        exists p, e = CwdUnreadable p /\ reachable rows root p /\ p <> root /\ readProcessCWD p = CwdError
    end.
Proof.
  intros rows Hlen Hroot. unfold Descendants. rewrite Hlen. fold rows.
  assert (existsb (fun value => pid value =? root) rows = true) as ->.
  { apply existsb_exists. apply list_elem_of_fmap in Hroot as (r & -> & Hr). exists r.
    split; [by apply list_elem_of_In|apply Z.eqb_refl]. }
  destruct (walk_start_ok readProcessCWD rows root) as (Hok & Hclosed & Hfuel).
  pose proof (walk_spec readProcessCWD rows root (S (length rows)) _ _ _ Hok Hclosed Hfuel) as Hw.
  destruct (walk _ _ _ _ _ _) as [[e|entries]|]; [by exists (inl e)| |done].
  destruct Hw as (seen & [Hr Hsr _ Hnd Hin Hrow Hno] & Hc). exists (inr entries).
  pose proof (closed_reached rows root seen Hr Hc) as Hall. split_and!; [done|done| |done|].
  - intros p. rewrite Hin. split; intros (H1 & H2 & H3); split_and!; auto.
  - intros p Hp. by apply Hno, Hall.
Qed.

(** ** Witness: a table whose root is the child of its own grandchild *)

Definition newline : string := String (ascii_of_nat 10) EmptyString.

Definition sample_table : string :=
  ("  100 102 100 root" ++ newline ++ "101 100 101 short-lived" ++ newline ++
   "102 101 101 survivor x" ++ newline ++ "103 1 103 other" ++ newline)%string.

Definition sample_cwd (p : Z) : cwd_answer :=
  if p =? 101 then ExitedDuringSnapshot else Cwd "/work/survivor".

Example sample_descendants :
  Descendants sample_cwd 100 (Some sample_table) =
    Some (inr [mkEntry 102 101 101 "survivor x" "/work/survivor"]).
Proof. vm_compute. reflexivity. Qed.

Lemma descendants_of_the_shell_witness :
  let rows := table_rows sample_table in
  exists answer, Descendants sample_cwd 100 (Some sample_table) = Some answer /\
    match answer with
    | inr entries =>
        NoDup (map PID entries) /\
        (forall p, p ∈ map PID entries <->
          reachable rows 100 p /\ p <> 100 /\ exists c, sample_cwd p = Cwd c) /\
        (forall e, e ∈ entries -> exists r, r ∈ rows /\ of_row sample_cwd e r /\
          reachable rows 100 (parent r)) /\
        (forall p, reachable rows 100 p -> p <> 100 -> sample_cwd p <> CwdError)
    | inl e =>
        exists p, e = CwdUnreadable p /\ reachable rows 100 p /\ p <> 100 /\ sample_cwd p = CwdError
    end.
Proof.
  apply (descendants_of_the_shell sample_cwd 100 sample_table).
  - vm_compute. reflexivity.
  - apply (bool_decide_unpack _). vm_compute. exact I.
Defined.
