(* ===== verification/ProcessWatch.v ===== *)
(** * Watching a process tree (process_tree_events.go, process_tree_events_darwin.go)

    A watch registers the processes of a snapshot with the kernel, so that a change among
    them is notified.  [Sync] answers the entries whose processes were still alive when
    they were registered.  [ProcessTreeWatch] is the interface the monitor relies on; the
    kqueue watch implements it, with what the kernel answers to each registration as an
    argument. *)

From S2P Require Import Prelude Contract ProcessTree.

(** ** The interface *)

Inductive watch_error := WatchClosed | WatchFailed (pid : Z).

(** What the kernel answers to a registration. *)
Inductive add_answer := AddOk | AddNoSuchProcess | AddError.

Class ProcessTreeWatch (W : Type) := {
  watch_sync : (Z -> add_answer) -> list processTreeEntry -> W -> W * (watch_error + list processTreeEntry);
  watch_close : W -> W
}.

(** What the interface promises: it answers entries it was given, none once it is closed,
    and it stays closed. *)
Class ProcessTreeWatchLaws (W : Type) `{ProcessTreeWatch W} := {
  watch_closed : W -> bool;
  sync_answers_given kernel entries w result :
    snd (watch_sync kernel entries w) = inr result -> watch_closed w = false /\ forall e, e ∈ result -> e ∈ entries;
  sync_keeps_closed kernel entries w : watch_closed (fst (watch_sync kernel entries w)) = watch_closed w;
  close_closes w : watch_closed (watch_close w) = true
}.

(** ** The kqueue watch *)

Record darwinProcessTreeWatch := mkWatch {
  root : Z;
  tracked : gset Z;
  closed : bool
}.

#[export] Instance watch_settable : Settable darwinProcessTreeWatch :=
  fun w => mkWatch (root w) (tracked w) (closed w).

Definition addLocked (answer : add_answer) (pid : Z) (w : darwinProcessTreeWatch) : darwinProcessTreeWatch :=
  match answer with
  | AddOk => w <| tracked := {[pid]} ∪ tracked w |>
  | _ => w
  end.

(** [Observe]: the root is registered, or there is no watch. *)
Definition Observe (kernel : Z -> add_answer) (root_ : Z) : option darwinProcessTreeWatch :=
  match kernel root_ with
  | AddOk => Some (addLocked AddOk root_ (mkWatch root_ ∅ false))
  | _ => None
  end.

(** The entry of each process, the last one of a process named twice. *)
Definition byPID (entries : list processTreeEntry) : gmap Z processTreeEntry :=
  fold_left (fun m e => <[PID e := e]> m) entries ∅.

Definition wanted (entries : list processTreeEntry) (w : darwinProcessTreeWatch) : gset Z :=
  {[root w]} ∪ list_to_set (map PID entries).

Definition sorted_pids (pids : gset Z) : list Z := merge_sort Z.le (elements pids).

(** The loop that registers what is not tracked yet; it answers what is alive. *)
Fixpoint sync_loop (kernel : Z -> add_answer) (pids : list Z) (alive : gset Z) (w : darwinProcessTreeWatch)
    : darwinProcessTreeWatch * (watch_error + gset Z) :=
  match pids with
  | [] => (w, inr alive)
  | pid :: pids =>
      if pid =? root w then sync_loop kernel pids alive w
      else if decide (pid ∈ tracked w) then sync_loop kernel pids ({[pid]} ∪ alive) w
      else match kernel pid with
           | AddOk => sync_loop kernel pids ({[pid]} ∪ alive) (addLocked AddOk pid w)
           | AddNoSuchProcess => sync_loop kernel pids alive w
           | AddError => (w, inl (WatchFailed pid))
           end
  end.

(** [deleteLocked] of everything that is not wanted any more. *)
Definition forget_unwanted (keep : gset Z) (w : darwinProcessTreeWatch) : darwinProcessTreeWatch :=
  w <| tracked := filter (fun pid => pid ∈ keep) (tracked w) |>.

Definition Sync (kernel : Z -> add_answer) (entries : list processTreeEntry) (w : darwinProcessTreeWatch)
    : darwinProcessTreeWatch * (watch_error + list processTreeEntry) :=
  if closed w then (w, inl WatchClosed)
  else
    let want := wanted entries w in
    let pids := sorted_pids want in
    match sync_loop kernel pids {[root w]} w with
    | (w, inl e) => (w, inl e)
    | (w, inr alive) =>
        (forget_unwanted want w,
         inr (omap (fun pid => if (pid =? root w) || bool_decide (pid ∉ alive) then None
                               else byPID entries !! pid) pids))
    end.

Definition Close (w : darwinProcessTreeWatch) : darwinProcessTreeWatch :=
  if closed w then w else w <| closed := true |> <| tracked := ∅ |>.

(** ** What a watch knows *)

Section sync.
Context (kernel : Z -> add_answer).

Lemma byPID_lookup entries : forall (m : gmap Z processTreeEntry) pid e,
  fold_left (fun m e => <[PID e := e]> m) entries m !! pid = Some e ->
  (e ∈ entries /\ PID e = pid) \/ m !! pid = Some e.
Proof.
  induction entries as [|x entries IH]; intros m pid e He; [by right|]. cbn in He.
  destruct (IH _ _ _ He) as [[? ?]|Hm]; [left; split; [by right|done]|].
  destruct (decide (PID x = pid)) as [E|E].
  - rewrite E, lookup_insert_eq in Hm. injection Hm as ->. left. split; [by left|done].
  - rewrite lookup_insert_ne in Hm by done. by right.
Qed.

Lemma byPID_given entries pid e : byPID entries !! pid = Some e -> e ∈ entries /\ PID e = pid.
Proof. intros He. destruct (byPID_lookup entries ∅ pid e He) as [?|E]; [done|by rewrite lookup_empty in E]. Qed.

Lemma byPID_there entries : forall (m : gmap Z processTreeEntry) pid, pid ∈ map PID entries \/ is_Some (m !! pid) ->
  is_Some (fold_left (fun m e => <[PID e := e]> m) entries m !! pid).
Proof.
  induction entries as [|x entries IH]; intros m pid Hin; cbn.
  - by destruct Hin as [?%elem_of_nil|?].
  - apply IH. destruct (decide (pid = PID x)) as [->|Hne]; [right; by rewrite lookup_insert_eq|].
    rewrite lookup_insert_ne by done. destruct Hin as [[?|?]%elem_of_cons|?]; [done|by left|by right].
Qed.

Ltac pids_cases p pid := destruct (decide (p = pid)) as [->|]; tauto.

(** What the registering loop leaves: everything alive is tracked, and what was not tracked
    before was registered. *)
Lemma sync_loop_spec pids : forall alive w w' alive', NoDup pids ->
  sync_loop kernel pids alive w = (w', inr alive') ->
  root w' = root w /\ closed w' = closed w /\
  (forall p, p ∈ tracked w' <-> p ∈ tracked w \/ (p ∈ pids /\ p <> root w /\ kernel p = AddOk)) /\
  (forall p, p ∈ alive' <-> p ∈ alive \/ (p ∈ pids /\ p <> root w /\ p ∈ tracked w')).
Proof.
  induction pids as [|pid pids IH]; intros alive w w' alive' Hnd; cbn [sync_loop].
  - intros [= <- <-]. split_and!; try done; intros p; split; [by left|by intros [?|[?%elem_of_nil _]]|by left|by intros [?|[?%elem_of_nil _]]].
  - apply NoDup_cons in Hnd as [Hnin Hnd].
    destruct (Z.eqb_spec pid (root w)) as [E|E].
    + intros H. destruct (IH _ _ _ _ Hnd H) as (R1 & R2 & R3 & R4). split_and!; try done; intros p.
      * rewrite (R3 p), elem_of_cons. pids_cases p pid.
      * rewrite (R4 p), elem_of_cons. pids_cases p pid.
    + destruct (decide (pid ∈ tracked w)) as [Ht|Ht].
      * intros H. destruct (IH _ _ _ _ Hnd H) as (R1 & R2 & R3 & R4). split_and!; try done; intros p.
        -- rewrite (R3 p), elem_of_cons. pids_cases p pid.
        -- assert (pid ∈ tracked w') by (apply R3; by left).
           rewrite (R4 p), elem_of_cons, elem_of_union, elem_of_singleton. pids_cases p pid.
      * destruct (kernel pid) eqn:Ek; [| |done].
        -- intros H. destruct (IH _ _ _ _ Hnd H) as (R1 & R2 & R3 & R4).
           change (root (addLocked AddOk pid w)) with (root w) in *.
           change (tracked (addLocked AddOk pid w)) with ({[pid]} ∪ tracked w) in *.
           assert (pid ∈ tracked w') by (apply R3; left; set_solver).
           split_and!; try done; intros p.
           ++ rewrite (R3 p), elem_of_cons, elem_of_union, elem_of_singleton. pids_cases p pid.
           ++ rewrite (R4 p), elem_of_cons, elem_of_union, elem_of_singleton. pids_cases p pid.
        -- intros H. destruct (IH _ _ _ _ Hnd H) as (R1 & R2 & R3 & R4).
           assert (Hno : pid ∉ tracked w') by (rewrite R3; intros [?|(_ & _ & ?)]; congruence).
           split_and!; try done; intros p.
           ++ rewrite (R3 p), elem_of_cons. destruct (decide (p = pid)) as [->|]; [|tauto]. split; [tauto|].
              intros [?|(_ & _ & ?)]; [by left|congruence].
           ++ rewrite (R4 p), elem_of_cons. pids_cases p pid.
Qed.

Lemma sync_loop_keeps pids : forall alive w,
  root (fst (sync_loop kernel pids alive w)) = root w /\ closed (fst (sync_loop kernel pids alive w)) = closed w /\
  tracked w ⊆ tracked (fst (sync_loop kernel pids alive w)).
Proof.
  induction pids as [|pid pids IH]; intros alive w; [done|]. cbn [sync_loop].
  destruct (pid =? root w); [apply IH|]. destruct (decide _); [apply IH|]. destruct (kernel pid); [|apply IH|done].
  destruct (IH ({[pid]} ∪ alive) (addLocked AddOk pid w)) as (-> & -> & H). split_and!; try done.
  etransitivity; [|exact H]. cbn. set_solver.
Qed.

Lemma sorted_pids_in pids p : p ∈ sorted_pids pids <-> p ∈ pids.
Proof. unfold sorted_pids. rewrite merge_sort_Permutation. apply elem_of_elements. Qed.

Lemma sorted_pids_nodup pids : NoDup (sorted_pids pids).
Proof. unfold sorted_pids. rewrite merge_sort_Permutation. apply NoDup_elements. Qed.

Lemma sorted_pids_increasing pids : StronglySorted Z.lt (sorted_pids pids).
Proof.
  assert (Hle : StronglySorted Z.le (sorted_pids pids)) by (apply StronglySorted_merge_sort; apply _).
  pose proof (sorted_pids_nodup pids) as Hnd. revert Hnd Hle. generalize (sorted_pids pids) as l.
  induction l as [|p l IH]; intros Hnd Hle; [constructor|]. apply NoDup_cons in Hnd as [Hnin Hnd].
  inversion_clear Hle as [|? ? Hl Hall]. constructor; [by apply IH|]. rewrite list.Forall_forall in Hall |- *.
  intros q Hq. specialize (Hall q Hq). assert (p <> q) by (by intros ->). lia.
Qed.

Lemma increasing_filter (P : Z -> Prop) `{!forall p, Decision (P p)} l :
  StronglySorted Z.lt l -> StronglySorted Z.lt (filter P l).
Proof.
  induction 1 as [|p l Hl IH Hall]; [constructor|]. rewrite filter_cons. destruct (decide (P p)); [|done].
  constructor; [done|]. rewrite list.Forall_forall in Hall |- *. intros q [_ Hq]%list_elem_of_filter. by apply Hall.
Qed.

(** The pids of the answer are the chosen ones, in their order. *)
Lemma chosen_pids entries (choose : Z -> bool) pids :
  (forall p, p ∈ pids -> choose p = true -> p ∈ map PID entries) ->
  map PID (omap (fun p => if choose p then byPID entries !! p else None) pids) = filter (fun p => choose p = true) pids.
Proof.
  induction pids as [|p pids IH]; intros Hin; [done|]. cbn [omap list_omap]. rewrite filter_cons.
  assert (Hrest : forall q, q ∈ pids -> choose q = true -> q ∈ map PID entries) by (intros q Hq; apply Hin; by right).
  specialize (IH Hrest). destruct (choose p) eqn:Ec.
  - rewrite decide_True by done. destruct (byPID_there entries ∅ p) as [e He].
    { left. apply Hin; [by left|done]. }
    unfold byPID at 1. rewrite He. cbn [map]. f_equal; [|exact IH]. by apply (byPID_given entries p e).
  - rewrite decide_False by done. exact IH.
Qed.

(** An answer of [Sync] and what is watched afterwards are the same processes: each
    answered entry is the snapshot's for its process, in strictly increasing order of pid,
    a process of the snapshot other than the root is answered exactly when it is watched,
    nothing outside the snapshot and the root stays watched, and a process is watched only
    if it was before or the kernel took its registration. *)
Theorem sync_watches_what_it_answers entries w w' result :
  Sync kernel entries w = (w', inr result) ->
  (forall e, e ∈ result -> e ∈ entries) /\
  StronglySorted Z.lt (map PID result) /\
  (forall p, p ∈ map PID result <-> p ∈ map PID entries /\ p <> root w /\ p ∈ tracked w') /\
  (forall p, p ∈ tracked w' -> (p = root w \/ p ∈ map PID entries) /\ (p ∈ tracked w \/ kernel p = AddOk)) /\
  (root w ∈ tracked w -> root w ∈ tracked w').
Proof.
  unfold Sync. destruct (closed w); [done|]. set (want := wanted entries w).
  destruct (sync_loop kernel (sorted_pids want) {[root w]} w) as [w1 [e|alive]] eqn:El; [done|].
  intros [= <- <-]. destruct (sync_loop_spec _ _ _ _ _ (sorted_pids_nodup want) El) as (R1 & _ & R3 & R4).
  assert (Hwant : forall p, p ∈ want <-> p = root w \/ p ∈ map PID entries).
  { intros p. unfold want, wanted. by rewrite elem_of_union, elem_of_singleton, elem_of_list_to_set. }
  rewrite R1. set (choose p := negb ((p =? root w) || bool_decide (p ∉ alive))).
  assert (Homap : omap (fun p => if (p =? root w) || bool_decide (p ∉ alive) then None else byPID entries !! p) (sorted_pids want) =
    omap (fun p => if choose p then byPID entries !! p else None) (sorted_pids want)).
  { apply list_omap_ext, Forall_Forall2_diag, Forall_true. intros p. unfold choose. by destruct (_ || _). }
  rewrite Homap. assert (Hchoose : forall p, choose p = true <-> p <> root w /\ p ∈ alive).
  { intros p. unfold choose. rewrite negb_true_iff, orb_false_iff, Z.eqb_neq, bool_decide_eq_false.
    split; intros [? ?]; (split; [done|]); [by apply dec_stable|by intros ?]. }
  assert (Hpids : map PID (omap (fun p => if choose p then byPID entries !! p else None) (sorted_pids want)) =
    filter (fun p => choose p = true) (sorted_pids want)).
  { apply chosen_pids. intros p Hp [Hne _]%Hchoose. apply sorted_pids_in, Hwant in Hp as [?|?]; done. }
  assert (Htracked : forall p, p ∈ tracked (forget_unwanted want w1) <-> p ∈ want /\ p ∈ tracked w1).
  { intros p. cbn. by rewrite elem_of_filter. }
  split_and!.
  - intros e (p & _ & He)%list_elem_of_omap. destruct (choose p); [|done]. by destruct (byPID_given _ _ _ He).
  - rewrite Hpids. by apply increasing_filter, sorted_pids_increasing.
  - intros p. rewrite Hpids, list_elem_of_filter, Hchoose, sorted_pids_in, Htracked, Hwant, R4, elem_of_singleton, sorted_pids_in, Hwant.
    naive_solver.
  - intros p [Hw Ht]%Htracked. rewrite Hwant in Hw. split; [done|]. apply R3 in Ht as [?|(_ & _ & ?)]; auto.
  - intros Hr. apply Htracked. rewrite Hwant, R3. auto.
Qed.

End sync.

(** ** The kqueue watch implements the interface *)

#[export] Instance darwin_watch : ProcessTreeWatch darwinProcessTreeWatch := {
  watch_sync := Sync;
  watch_close := Close
}.

#[export] Instance darwin_watch_laws : ProcessTreeWatchLaws darwinProcessTreeWatch.
Proof.
  refine {| watch_closed := closed |}.
  - intros kernel entries w result. cbn [watch_sync darwin_watch]. unfold Sync. destruct (closed w) eqn:Ec; [done|].
    destruct (sync_loop _ _ _ _) as [w1 [e|alive]]; [done|]. intros [= <-]. split; [done|].
    intros e (p & _ & He)%list_elem_of_omap. destruct (_ || _); [done|]. by destruct (byPID_given _ _ _ He).
  - intros kernel entries w. cbn [watch_sync darwin_watch]. unfold Sync. destruct (closed w) eqn:Ec; [done|].
    pose proof (sync_loop_keeps kernel (sorted_pids (wanted entries w)) {[root w]} w) as (_ & Hc & _).
    destruct (sync_loop _ _ _ _) as [w1 [e|alive]]; cbn [fst] in *; [by rewrite Hc|]. cbn. by rewrite Hc.
  - intros w. cbn [watch_close darwin_watch]. unfold Close. by destruct (closed w) eqn:Ec.
Defined.

(** ** Witness *)

Definition sample_entries : list processTreeEntry :=
  [mkEntry 30 10 10 "vim" "/a"; mkEntry 20 10 10 "make" "/b"; mkEntry 40 20 10 "cc" "/b"].

Definition sample_kernel (pid : Z) : add_answer := if pid =? 40 then AddNoSuchProcess else AddOk.

Lemma sync_watches_what_it_answers_witness :
  let w := mkWatch 10 {[10; 99]} false in
  let w' := fst (Sync sample_kernel sample_entries w) in
  let result := [mkEntry 20 10 10 "make" "/b"; mkEntry 30 10 10 "vim" "/a"] in
  (forall e, e ∈ result -> e ∈ sample_entries) /\
  StronglySorted Z.lt (map PID result) /\
  (forall p, p ∈ map PID result <-> p ∈ map PID sample_entries /\ p <> root w /\ p ∈ tracked w') /\
  (forall p, p ∈ tracked w' -> (p = root w \/ p ∈ map PID sample_entries) /\ (p ∈ tracked w \/ sample_kernel p = AddOk)) /\
  (root w ∈ tracked w -> root w ∈ tracked w').
Proof.
  apply (sync_watches_what_it_answers sample_kernel sample_entries (mkWatch 10 {[10; 99]} false)).
  vm_compute. reflexivity.
Defined.
