(* ===== verification/WatchLoop.v ===== *)
(** * The loop of a kqueue watch (process_tree_events_darwin.go)

    [Observe] opens a kernel queue and starts a goroutine, [run], that waits on it and calls
    [changed]; [Close] closes the queue under it.  The goroutine keeps the number of its
    queue, so what it reads is whatever queue has that number.  ProcessWatch has what a
    watch tracks; here are the queues, their numbers and the loops over them. *)

From S2P Require Import Prelude.

(** ** State *)

(** Where the goroutine is: about to wait on its queue or waiting, about to call [changed]
    for the events it got, or at its end. *)
Inductive loop_pc := Waiting | Changing | Over.

(** [own] is the queue that was opened for the watch, [number] the number that [run] was
    given, [queue] the field, [calls] how often [changed] was called. *)
Record watch := mkWatch {
  own : nat;
  number : Z;
  queue : Z;
  closed : bool;
  loop : loop_pc;
  calls : nat
}.

#[export] Instance watch_settable : Settable watch :=
  fun w => mkWatch (own w) (number w) (queue w) (closed w) (loop w) (calls w).

(** [numbers] are the open descriptors, [pending] the queues with events in them.  The
    queues are counted as the watches are, one for each. *)
Record queues := mkQueues {
  numbers : gmap Z nat;
  pending : gset nat;
  watches : list watch
}.

#[export] Instance queues_settable : Settable queues := fun s => mkQueues (numbers s) (pending s) (watches s).

(** ** Operations *)

Definition on_watch (i : nat) (f : watch -> watch) (s : queues) : queues := s <| watches := alter f i (watches s) |>.

(** [Observe]; the kernel gives the queue the number [n]. *)
Definition Observe (n : Z) (s : queues) : queues :=
  let q := length (watches s) in
  s <| numbers := <[n := q]> (numbers s) |> <| watches := watches s ++ [mkWatch q n n false Waiting 0] |>.

(** What [unix.Kevent] answers. *)
Inductive kevent := Events (q : nat) | EBADF | EINTR | OtherError.

(** A turn of [run] after that answer. *)
Definition run_turn (i : nat) (answer : kevent) (s : queues) : queues :=
  match answer with
  | Events q => on_watch i (fun w => w <| loop := Changing |>) (s <| pending := pending s ∖ {[q]} |>)
  | EBADF => on_watch i (fun w => w <| loop := Over |>) s
  | EINTR => on_watch i (fun w => if closed w then w <| loop := Over |> else w) s
  | OtherError => on_watch i (fun w => w <| loop := Over |>) s
  end.

Definition call_changed (i : nat) (s : queues) : queues :=
  on_watch i (fun w => w <| loop := Waiting |> <| calls := S (calls w) |>) s.

(** [Close]: the fields under the lock, then the descriptor. *)
Definition Close (i : nat) (s : queues) : queues :=
  match watches s !! i with
  | None => s
  | Some w =>
      if closed w then s
      else (on_watch i (fun w => w <| closed := true |> <| queue := -1 |>) s) <| numbers := delete (queue w) (numbers s) |>
  end.

(** What the kernel may answer to the wait of watch [w]: events of the queue that has the
    number, EBADF when none has, an interruption at any time, and another error when waits
    may fail. *)
Definition kernel_answers (failing : bool) (w : watch) (s : queues) (answer : kevent) : Prop :=
  match answer with
  | Events q => numbers s !! number w = Some q /\ q ∈ pending s
  | EBADF => numbers s !! number w = None
  | EINTR => True
  | OtherError => failing = true
  end.

(** [reuse]: whether the kernel may give out a number that a loop still has; [failing]:
    whether a wait may fail with another error than EBADF and EINTR. *)
Inductive queues_step (reuse failing : bool) : queues -> queues -> Prop :=
| observes n s : numbers s !! n = None ->
    (reuse = false -> forall i w, watches s !! i = Some w -> loop w <> Over -> number w <> n) ->
    queues_step reuse failing s (Observe n s)
| process_event q s : queues_step reuse failing s (s <| pending := {[q]} ∪ pending s |>)
| loop_turn i w answer s : watches s !! i = Some w -> loop w = Waiting -> kernel_answers failing w s answer ->
    queues_step reuse failing s (run_turn i answer s)
| loop_changes i w s : watches s !! i = Some w -> loop w = Changing -> queues_step reuse failing s (call_changed i s)
| closes i s : queues_step reuse failing s (Close i s).

Definition no_queues : queues := mkQueues ∅ ∅ [].

(** ** While no number is given out that a loop still has *)

(** A loop that goes on has the number of its own queue, or of none once it was closed. *)
Record numbers_ok (s : queues) : Prop := {
  ok_own : forall i w, watches s !! i = Some w -> own w = i;
  ok_open : forall i w, watches s !! i = Some w -> closed w = false -> queue w = number w /\ numbers s !! number w = Some i;
  ok_numbers : forall n q, numbers s !! n = Some q -> exists w, watches s !! q = Some w /\ closed w = false /\ number w = n;
  ok_closed : forall i w, watches s !! i = Some w -> closed w = true -> loop w <> Over -> numbers s !! number w = None
}.

(** A watch whose numbers and marks are what they were. *)
Lemma on_watch_ok i f s pend : numbers_ok s ->
  (forall w, watches s !! i = Some w -> own (f w) = own w /\ number (f w) = number w /\ queue (f w) = queue w /\ closed (f w) = closed w /\ (loop w = Over -> loop (f w) = Over)) ->
  numbers_ok (on_watch i f (s <| pending := pend |>)).
Proof.
  intros [O1 O2 O3 O4] Hf.
  assert (Hlook : forall j w, alter f i (watches s) !! j = Some w -> exists w0, watches s !! j = Some w0 /\
    own w = own w0 /\ number w = number w0 /\ queue w = queue w0 /\ closed w = closed w0 /\ (loop w0 = Over -> loop w = Over)).
  { intros j w Hj. destruct (decide (i = j)) as [<-|Hne].
    - rewrite list_lookup_alter_eq in Hj. apply fmap_Some_1 in Hj as (w0 & E & ->). exists w0. split; [done|by apply Hf].
    - rewrite list_lookup_alter_ne in Hj by done. by exists w. }
  constructor; cbn.
  - intros j w (w0 & E & -> & _)%Hlook. by apply O1.
  - intros j w (w0 & E & _ & -> & -> & -> & _)%Hlook. by apply O2.
  - intros n q (w & E & Hc & Hn)%O3. destruct (decide (i = q)) as [<-|Hne].
    + exists (f w). rewrite list_lookup_alter_eq, E. destruct (Hf w E) as (_ & -> & _ & -> & _). done.
    + exists w. by rewrite list_lookup_alter_ne.
  - intros j w (w0 & E & _ & -> & _ & -> & Hl)%Hlook Hc Hw. apply (O4 j); [done|done|auto].
Qed.

Lemma step_ok failing s s' : queues_step false failing s s' -> numbers_ok s -> numbers_ok s'.
Proof.
  intros Hstep Hok. destruct Hstep as [n s Hn Hfree|q s|i w answer s Hw Hl Ha|i w s Hw Hl|i s].
  - specialize (Hfree eq_refl). destruct Hok as [O1 O2 O3 O4].
    assert (Hlook : forall j w, (watches s ++ [mkWatch (length (watches s)) n n false Waiting 0]) !! j = Some w ->
      watches s !! j = Some w \/ j = length (watches s) /\ w = mkWatch (length (watches s)) n n false Waiting 0).
    { intros j w [E|[Hle E]]%lookup_app_Some; [by left|right]. apply list_lookup_singleton_Some in E as [E <-]. split; [lia|done]. }
    constructor; cbn.
    + intros j w [E|[-> ->]]%Hlook; [by apply O1|done].
    + intros j w [E|[-> ->]]%Hlook Hc; [|cbn; by rewrite lookup_insert_eq].
      destruct (O2 j w E Hc) as [Eq En]. split; [done|]. rewrite lookup_insert_ne; [done|]. intros ->. congruence.
    + intros m q [[<- <-]|[Hne E]]%lookup_insert_Some.
      * exists (mkWatch (length (watches s)) n n false Waiting 0). split; [|done]. rewrite lookup_app_r by lia. by rewrite Nat.sub_diag.
      * destruct (O3 m q E) as (w & Ew & Hc & Hm). exists w. split; [|done]. apply lookup_app_l_Some. done.
    + intros j w [E|[-> ->]]%Hlook Hc Hw; [|done]. rewrite lookup_insert_ne; [by apply (O4 j)|]. intros ->. by apply (Hfree j w E Hw).
  - destruct Hok as [O1 O2 O3 O4]. by constructor; cbn; eauto.
  - assert (Hsame : forall pend f, (forall w', watches s !! i = Some w' -> own (f w') = own w' /\ number (f w') = number w' /\
        queue (f w') = queue w' /\ closed (f w') = closed w' /\ (loop w' = Over -> loop (f w') = Over)) ->
      numbers_ok (on_watch i f (s <| pending := pend |>))) by (intros pend f; by apply on_watch_ok).
    destruct answer as [q| | |]; cbn [run_turn].
    + apply Hsame. intros w' Ew. replace w' with w by congruence. split_and!; try done. by rewrite Hl.
    + apply (Hsame (pending s)). done.
    + apply (Hsame (pending s)). intros w' _. by destruct (closed w') eqn:Ec; cbn; rewrite ?Ec.
    + apply (Hsame (pending s)). done.
  - apply (on_watch_ok i _ s (pending s)); [done|]. intros w' Ew. replace w' with w by congruence. split_and!; try done. by rewrite Hl.
  - unfold Close. destruct (watches s !! i) as [w|] eqn:Ew; [|done]. destruct (closed w) eqn:Ec; [done|].
    destruct Hok as [O1 O2 O3 O4]. destruct (O2 i w Ew Ec) as [Eq En]. rewrite Eq.
    assert (Hlook : forall j w', alter (fun w => w <| closed := true |> <| queue := -1 |>) i (watches s) !! j = Some w' ->
      (j <> i /\ watches s !! j = Some w') \/ j = i /\ w' = w <| closed := true |> <| queue := -1 |>).
    { intros j w' Hj. destruct (decide (i = j)) as [<-|Hne].
      - rewrite list_lookup_alter_eq, Ew in Hj. injection Hj as <-. by right.
      - rewrite list_lookup_alter_ne in Hj by done. by left. }
    constructor; cbn.
    + intros j w' [[_ E]|[-> ->]]%Hlook; [by apply O1|]. by apply (O1 i w).
    + intros j w' [[Hne E]|[-> ->]]%Hlook Hc; [|done]. destruct (O2 j w' E Hc) as [Eq' En']. split; [done|].
      rewrite lookup_delete_ne; [done|]. intros E2. rewrite E2, En' in En. congruence.
    + intros n q [Hne E]%lookup_delete_Some. destruct (O3 n q E) as (w' & Ew' & Hc & Hn). exists w'. split; [|done].
      rewrite list_lookup_alter_ne; [done|]. intros <-. congruence.
    + intros j w' [[Hne E]|[-> ->]]%Hlook Hc Hw; [|apply lookup_delete_eq].
      destruct (decide (number w' = number w)) as [->|Hn]; [apply lookup_delete_eq|]. rewrite lookup_delete_ne by done. by apply (O4 j).
Qed.

Lemma steps_ok failing s s' : rtc (queues_step false failing) s s' -> numbers_ok s -> numbers_ok s'.
Proof. induction 1 as [s|s s1 s2 Hs _ IH]; [done|]. intros Hok. by eapply IH, step_ok. Qed.

Lemma no_queues_ok : numbers_ok no_queues.
Proof. constructor; cbn; intros; by rewrite ?lookup_nil, ?lookup_empty in *. Qed.

(** ** While no wait fails *)

(** How often the goroutine of a watch got events: the calls it made and the one it is about
    to make. *)
Definition heard (w : watch) : nat := (calls w + match loop w with Changing => 1 | _ => 0 end)%nat.

(** The loop of an open watch goes on. *)
Definition goes_on (w : watch) : Prop := closed w = false -> loop w <> Over.

Definition looping (s : queues) : Prop := forall i w, watches s !! i = Some w -> goes_on w.

(** An event of watch [i] that was there when it had [before] behind it: it is still there
    or the watch got it. *)
Definition not_missed (i before : nat) (s : queues) : Prop := exists w, watches s !! i = Some w /\
  (before <= heard w)%nat /\ (closed w = false -> i ∈ pending s \/ (before < heard w)%nat).

Lemma on_watch_looks j f s pend i w : watches (on_watch j f (s <| pending := pend |>)) !! i = Some w ->
  exists w0, watches s !! i = Some w0 /\ (i <> j /\ w = w0 \/ i = j /\ w = f w0).
Proof.
  cbn. intros Hi. destruct (decide (j = i)) as [->|Hne].
  - rewrite list_lookup_alter_eq in Hi. apply fmap_Some_1 in Hi as (w0 & E & ->). exists w0. auto.
  - rewrite list_lookup_alter_ne in Hi by done. exists w. auto.
Qed.

Lemma on_watch_not_missed j f s pend i before : not_missed i before s ->
  (forall w, watches s !! j = Some w -> (heard w <= heard (f w))%nat /\ (closed (f w) = false -> closed w = false)) ->
  (forall w, watches s !! i = Some w -> closed w = false -> i ∈ pending s ->
     i ∈ pend \/ i = j /\ (heard w < heard (f w))%nat) ->
  not_missed i before (on_watch j f (s <| pending := pend |>)).
Proof.
  intros (w & Ew & Hle & Hopen) Hf Hp. unfold not_missed. cbn. destruct (decide (j = i)) as [->|Hne].
  - destruct (Hf w Ew) as [Hh Hc]. exists (f w). rewrite list_lookup_alter_eq, Ew. split; [done|]. split; [lia|].
    intros Hcf. destruct (Hopen (Hc Hcf)) as [Hin|?]; [|right; lia].
    destruct (Hp w Ew (Hc Hcf) Hin) as [?|[_ ?]]; [by left|right; lia].
  - exists w. rewrite list_lookup_alter_ne by done. split; [done|]. split; [done|]. intros Hcw.
    destruct (Hopen Hcw) as [Hin|?]; [|by right]. destruct (Hp w Ew Hcw Hin) as [?|[-> _]]; [by left|done].
Qed.

(** A step keeps every open loop going and loses no event of an open watch. *)
Lemma step_loops s s' : queues_step false false s s' -> numbers_ok s -> looping s -> looping s'.
Proof.
  intros Hstep Hok Hloop. destruct Hstep as [n s Hn _|q s|j v answer s Hv Hl Ha|j v s Hv Hl|j s].
  - intros i w [E|[_ E]]%lookup_app_Some; [by apply (Hloop i)|]. by apply list_lookup_singleton_Some in E as [_ <-].
  - intros i w E. by apply (Hloop i).
  - destruct answer as [q| | |]; cbn [run_turn kernel_answers] in *; [| | |done].
    + intros i w (w0 & E & [[_ ->]|[_ ->]])%on_watch_looks; [by apply (Hloop i)|done].
    + intros i w (w0 & E & [[_ ->]|[-> ->]])%(on_watch_looks j _ s (pending s)); [by apply (Hloop i)|].
      intros Hc. replace w0 with v in Hc by congruence. destruct (ok_open s Hok j v Hv Hc) as [_ En]. congruence.
    + intros i w (w0 & E & [[_ ->]|[-> ->]])%(on_watch_looks j _ s (pending s)); [by apply (Hloop i)|].
      destruct (closed w0) eqn:Ec; [intros Hc; cbn in Hc; congruence|by apply (Hloop j)].
  - intros i w (w0 & E & [[_ ->]|[-> ->]])%(on_watch_looks j _ s (pending s)); [by apply (Hloop i)|done].
  - unfold Close. destruct (watches s !! j) as [v|] eqn:Ev; [|done]. destruct (closed v) eqn:Ec; [done|].
    intros i w (w0 & E & [[_ ->]|[-> ->]])%(on_watch_looks j _ s (pending s)); [by apply (Hloop i)|done].
Qed.

Lemma step_not_missed s s' i before : queues_step false false s s' -> numbers_ok s ->
  not_missed i before s -> not_missed i before s'.
Proof.
  intros Hstep Hok Hn. pose proof Hn as (w & Ew & Hle & Hopen). destruct Hstep as [n s Hfree _|q s|j v answer s Hv Hl Ha|j v s Hv Hl|j s].
  - exists w. cbn. rewrite lookup_app_l by (by apply lookup_lt_Some in Ew). done.
  - exists w. cbn. split; [done|]. split; [done|]. intros Hc. destruct (Hopen Hc); [left; set_solver|by right].
  - destruct answer as [q| | |]; cbn [run_turn kernel_answers] in *; [| | |done].
    + apply on_watch_not_missed; [done| |].
      * intros x Ex. replace x with v by congruence. unfold heard. rewrite Hl. cbn. split; [lia|done].
      * intros x Ex Hc Hp. destruct (decide (q = i)) as [->|Hne]; [|left; set_solver].
        destruct Ha as [Hnum _]. destruct (ok_numbers s Hok _ _ Hnum) as (y & Ey & Hcy & Hny).
        right. assert (Hcv : closed v = false).
        { destruct (closed v) eqn:Ecv; [|done]. rewrite (ok_closed s Hok j v Hv Ecv) in Hnum; [done|by rewrite Hl]. }
        destruct (ok_open s Hok j v Hv Hcv) as [_ Env]. assert (i = j) as -> by congruence.
        split; [done|]. replace x with v by congruence. unfold heard. rewrite Hl. cbn. lia.
    + apply (on_watch_not_missed j _ s (pending s)); [done| |by left].
      intros x Ex. replace x with v by congruence. unfold heard. rewrite Hl. cbn. split; [lia|done].
    + apply (on_watch_not_missed j _ s (pending s)); [done| |by left].
      intros x Ex. replace x with v by congruence. unfold heard. rewrite Hl. destruct (closed v) eqn:Ecv; cbn; rewrite ?Hl, ?Ecv; (split; [lia|done]).
  - apply (on_watch_not_missed j _ s (pending s)); [done| |by left].
    intros x Ex. replace x with v by congruence. unfold heard. rewrite Hl. cbn. split; [lia|done].
  - unfold Close. destruct (watches s !! j) as [v|] eqn:Ev; [|done]. destruct (closed v) eqn:Ec; [done|].
    apply (on_watch_not_missed j (fun w => w <| closed := true |> <| queue := -1 |>) s (pending s) i before Hn); [|by left].
    intros x Ex. split; [done|done].
Qed.

Lemma steps_not_missed s s' i before : rtc (queues_step false false) s s' -> numbers_ok s -> looping s ->
  not_missed i before s -> looping s' /\ not_missed i before s'.
Proof.
  induction 1 as [s|s s1 s2 Hs _ IH]; [done|]. intros Hok Hl Hn.
  apply IH; [by eapply step_ok|by eapply step_loops|by eapply step_not_missed].
Qed.

Lemma reached_loops s : rtc (queues_step false false) no_queues s -> looping s.
Proof.
  intros Hrun. assert (Hl : looping no_queues) by (intros i w Hi; done).
  revert Hl. pose proof no_queues_ok as Hok. revert Hok. induction Hrun as [s|s s1 s2 Hs _ IH]; [done|].
  intros Hok Hl. apply IH; [by eapply step_ok|by eapply step_loops].
Qed.

(** An interrupted wait of an open watch is waited again: nothing has changed. *)
Lemma interrupted_waits_again i w s : watches s !! i = Some w -> closed w = false -> run_turn i EINTR s = s.
Proof.
  intros Ew Hc. cbn. unfold on_watch. destruct s as [ns ps ws]. cbn in Ew. transitivity (mkQueues ns ps (alter (fun w => if closed w then w <| loop := Over |> else w) i ws)); [done|]. f_equal.
  apply list_eq. intros j. destruct (decide (i = j)) as [<-|Hne]; [|by rewrite list_lookup_alter_ne].
  rewrite list_lookup_alter_eq, Ew. cbn. by rewrite Hc.
Qed.

(** C25: a change is not missed as long as no number is given out that a loop still has and no
    wait fails with another error than EBADF or an interruption.  Let an event be in the
    queue of an open watch.  No other goroutine may take it.  Whatever happens next, as long
    as the watch is open its loop goes on, and the event is in the queue or the watch's own
    goroutine got events since.  When that one waits and the event is there the kernel has an
    answer for it, which is not EBADF; interrupted, it waits again and nothing has changed;
    given the events, it is about to call [changed], and having called it, it waits. *)
Theorem watch_hears_its_own_events s i w : rtc (queues_step false false) no_queues s ->
  watches s !! i = Some w -> closed w = false -> i ∈ pending s ->
  (forall j v q, watches s !! j = Some v -> loop v <> Over -> kernel_answers false v s (Events q) -> q = i -> j = i) /\
  forall s', rtc (queues_step false false) s s' -> exists w', watches s' !! i = Some w' /\
    (closed w' = false -> loop w' <> Over /\ (i ∈ pending s' \/ (heard w < heard w')%nat) /\
       (loop w' = Waiting -> i ∈ pending s' -> kernel_answers false w' s' (Events i) /\ ~ kernel_answers false w' s' EBADF /\
          run_turn i EINTR s' = s' /\ watches (run_turn i (Events i) s') !! i = Some (w' <| loop := Changing |>)) /\
       (loop w' = Changing -> watches (call_changed i s') !! i = Some (w' <| loop := Waiting |> <| calls := S (calls w') |>))).
Proof.
  intros Hrun Ew Hc Hp. pose proof (steps_ok _ _ _ Hrun no_queues_ok) as Hok. split.
  - destruct Hok as [O1 O2 O3 O4]. destruct (O2 i w Ew Hc) as [_ En].
    intros j v q Ev Hv [Hn Hq] ->. destruct (closed v) eqn:Ec; [by rewrite (O4 j v Ev Ec Hv) in Hn|].
    destruct (O2 j v Ev Ec) as [_ En']. rewrite En' in Hn. congruence.
  - intros s' Hrun'. pose proof (steps_ok _ _ _ Hrun' Hok) as Hok'.
    assert (Hn : not_missed i (heard w) s) by (exists w; auto).
    destruct (steps_not_missed s s' i _ Hrun' Hok (reached_loops s Hrun) Hn) as [Hl' (w' & Ew' & _ & Hopen)].
    exists w'. split; [done|]. intros Hc'. destruct (ok_open s' Hok' i w' Ew' Hc') as [_ En'].
    split_and!; [by apply (Hl' i)|by apply Hopen| |].
    + intros Hw Hp'. split_and!; [done|cbn; congruence|by eapply interrupted_waits_again|].
      cbn. by rewrite list_lookup_alter_eq, Ew'.
    + intros Hw. cbn. by rewrite list_lookup_alter_eq, Ew'.
Qed.

(** ** When a number is given out again *)

(** The watch 0 is closed while its goroutine is calling [changed]; the watch 1 gets the
    number, and something happens in its process tree. *)
Definition changing : queues := run_turn 0 (Events 0) ((Observe 5 no_queues) <| pending := {[0%nat]} |>).
Definition reused : queues := call_changed 0 (Observe 5 (Close 0 changing)).
Definition happened : queues := reused <| pending := {[1%nat]} ∪ pending reused |>.

Lemma happened_run : rtc (queues_step true false) no_queues happened.
Proof.
  eapply rtc_l; [apply (observes true false 5); [done|done]|].
  eapply rtc_l; [apply (process_event true false 0)|].
  eapply rtc_l; [by apply (loop_turn true false 0 (mkWatch 0 5 5 false Waiting 0) (Events 0))|].
  eapply rtc_l; [apply (closes true false 0)|].
  eapply rtc_l; [apply (observes true false 5); [done|done]|].
  eapply rtc_l; [by apply (loop_changes true false 0 (mkWatch 0 5 (-1) true Changing 0))|].
  eapply rtc_l; [apply (process_event true false 1)|].
  match goal with |- rtc _ ?s _ => replace s with happened by (vm_compute; reflexivity) end. apply rtc_refl.
Qed.

(** A goroutine whose watch was closed while it called [changed] goes on to wait on the
    number of its old queue.  A watch that is opened meanwhile can have that number: the old
    goroutine then takes its events and calls the [changed] of the closed watch, which does
    nothing, and the new watch, open and waiting, is not told. *)
Theorem reused_number_steals_events : exists s,
  rtc (queues_step true false) no_queues happened /\ rtc (queues_step true false) happened s /\
  1%nat ∈ pending happened /\ ~ (1%nat ∈ pending s) /\
  watches s !! 0%nat = Some (mkWatch 0 5 (-1) true Waiting 2) /\
  watches s !! 1%nat = Some (mkWatch 1 5 5 false Waiting 0).
Proof.
  exists (call_changed 0 (run_turn 0 (Events 1) happened)). split; [apply happened_run|]. split.
  - eapply rtc_l; [by apply (loop_turn true false 0 (mkWatch 0 5 (-1) true Waiting 1) (Events 1))|].
    eapply rtc_l; [by apply (loop_changes true false 0 (mkWatch 0 5 (-1) true Changing 1))|]. apply rtc_refl.
  - split_and!; [by vm_compute|by vm_compute|vm_compute; reflexivity..].
Qed.

(** ** A concrete watch *)

(** A watch that waits, opened beside one that was closed, with an event in its queue. *)
Definition told : queues := let s := Observe 6 (Close 0 (Observe 5 no_queues)) in s <| pending := {[1%nat]} ∪ pending s |>.

Lemma told_run : rtc (queues_step false false) no_queues told.
Proof.
  eapply rtc_l; [by apply (observes false false 5)|]. eapply rtc_l; [apply (closes false false 0)|].
  eapply rtc_l; [apply (observes false false 6)|eapply rtc_l; [apply (process_event false false 1)|apply rtc_refl]].
  - by vm_compute.
  - intros _ [|i] w Hi Hl; [injection Hi as <-; done|done].
Qed.

Lemma watch_hears_its_own_events_witness :
  let w := mkWatch 1 6 6 false Waiting 0 in
  (forall j v q, watches told !! j = Some v -> loop v <> Over -> kernel_answers false v told (Events q) -> q = 1%nat -> j = 1%nat) /\
  forall s', rtc (queues_step false false) told s' -> exists w', watches s' !! 1%nat = Some w' /\
    (closed w' = false -> loop w' <> Over /\ (1%nat ∈ pending s' \/ (heard w < heard w')%nat) /\
       (loop w' = Waiting -> 1%nat ∈ pending s' -> kernel_answers false w' s' (Events 1) /\ ~ kernel_answers false w' s' EBADF /\
          run_turn 1 EINTR s' = s' /\ watches (run_turn 1 (Events 1) s') !! 1%nat = Some (w' <| loop := Changing |>)) /\
       (loop w' = Changing -> watches (call_changed 1 s') !! 1%nat = Some (w' <| loop := Waiting |> <| calls := S (calls w') |>))).
Proof. exact (watch_hears_its_own_events told 1 (mkWatch 1 6 6 false Waiting 0) told_run eq_refl eq_refl ltac:(by vm_compute)). Defined.
