(* ===== verification/Windows.v ===== *)
(** * Shells on Windows (process_windows.go)

    A shell on Windows is a process behind a pseudo console, in a job that dies with its
    last handle.  Starting one takes ten calls that may each fail, and what was made before
    the failing call has to be taken back; ending one closes its handles from two goroutines
    of which either may come first.  In between its console is read, written and resized.
    The system is its open handles, the processes that run and what becomes of the calls to
    come. *)

From stdpp Require Import sorting.
From S2P Require Import Prelude.

(** ** The system *)

(** A process is named by its handle; [jobs] is the job it was put into, [fails] whether each
    call to come fails, [misused] whether a handle was used that was not open.  [sizes] is the
    size of each console. *)
Record system := mkSystem {
  nextHandle : nat;
  opened : gset nat;
  running : gset nat;
  jobs : gmap nat nat;
  fails : list bool;
  misused : bool;
  sizes : gmap nat (Z * Z)
}.

#[export] Instance system_settable : Settable system :=
  fun s => mkSystem (nextHandle s) (opened s) (running s) (jobs s) (fails s) (misused s) (sizes s).

Definition win (A : Type) : Type := system -> system * option A.

Definition ret {A} (x : A) : win A := fun s => (s, Some x).

Definition fail {A} : win A := fun s => (s, None).

Definition bind {A B} (m : win A) (k : A -> win B) : win B :=
  fun s => match m s with
           | (s, None) => (s, None)
           | (s, Some x) => k x s
           end.

(** [x, err := m; if err != nil { cleanup; return nil, err }], and then [k]. *)
Definition or_return {A B} (m : win A) (cleanup : win unit) (k : A -> win B) : win B :=
  fun s => match m s with
           | (s, None) => bind cleanup (fun _ => fail) s
           | (s, Some x) => k x s
           end.

(** A call that may fail. *)
Definition call {A} (f : system -> system * A) : win A :=
  fun s => match fails s with
           | true :: rest => (s <| fails := rest |>, None)
           | _ => let '(s, x) := f (s <| fails := List.tl (fails s) |>) in (s, Some x)
           end.

(** A fresh handle. *)
Definition allocate (s : system) : system * nat :=
  let h := nextHandle s in (s <| nextHandle := S h |> <| opened := {[h]} ∪ opened s |>, h).

Definition survives (j : nat) (s : system) (p : nat) : Prop := jobs s !! p <> Some j.

#[export] Instance survives_dec j s p : Decision (survives j s p).
Proof. unfold survives. apply _. Defined.

(** The job a handle names, ended with the processes in it. *)
Definition end_job (j : nat) (s : system) : system := s <| running := filter (survives j s) (running s) |>.

(** [CloseHandle], [ClosePseudoConsole] and the release of a list of attributes.  The last
    handle of a job ends it ([JOB_OBJECT_LIMIT_KILL_ON_JOB_CLOSE]). *)
Definition close_handle (h : nat) : win unit :=
  fun s => (end_job h (s <| opened := opened s ∖ {[h]} |> <| misused := misused s || bool_decide (h ∉ opened s) |>), Some tt).

Fixpoint close_all (hs : list nat) : win unit :=
  match hs with
  | [] => ret tt
  | h :: hs => bind (close_handle h) (fun _ => close_all hs)
  end.

Definition terminate_job (j : nat) : win unit := fun s => (end_job j s, Some tt).

Definition terminate_process (p : nat) : win unit := fun s => (s <| running := running s ∖ {[p]} |>, Some tt).

(** ** Starting *)

Record conPTYProcess := mkConPTY {
  input : nat;
  output : nat;
  console : nat;
  process : nat;
  job : nat
}.

Section start.
(** [windows.UTF16FromString], which refuses a string with a zero in it, and
    [strings.ToUpper]. *)
Context (utf16 : string -> option (list Z)) (toUpper : string -> string) (compose : string -> string).

Definition upper_le (a b : string) : Prop := String.le (toUpper a) (toUpper b).

#[export] Instance upper_le_dec : RelDecision upper_le.
Proof. intros a b. unfold upper_le. apply _. Defined.

(** [sort.SliceStable] by that order: an entry goes before the first one that does not come
    before it, so entries that compare equal keep their order. *)
Fixpoint insert_entry (entry : string) (ordered : list string) : list string :=
  match ordered with
  | [] => [entry]
  | next :: rest => if decide (upper_le entry next) then entry :: ordered else next :: insert_entry entry rest
  end.

Definition SliceStable (entries : list string) : list string := foldr insert_entry [] entries.

Fixpoint encode_entries (entries : list string) : option (list Z) :=
  match entries with
  | [] => Some []
  | entry :: entries =>
      match utf16 entry with
      | None => None
      | Some encoded => (fun rest => encoded ++ rest) <$> encode_entries entries
      end
  end.

Definition windowsEnvironmentBlock (environment : list string) : option (list Z) :=
  (fun block => (if (length block =? 0)%nat then [0] else block) ++ [0]) <$> encode_entries (SliceStable environment).

(** The order is that of the names in upper case, the entries are the same, and those with one
    name in upper case are in the order they were in. *)
Lemma insert_entry_stable entry ordered name :
  filter (fun e => toUpper e = name) (insert_entry entry ordered) = filter (fun e => toUpper e = name) (entry :: ordered).
Proof.
  induction ordered as [|next rest IH]; [done|]. cbn [insert_entry]. destruct (decide (upper_le entry next)) as [|Hn]; [done|].
  rewrite filter_cons, IH, !filter_cons. destruct (decide (toUpper next = name)) as [E1|]; [|done].
  destruct (decide (toUpper entry = name)) as [E2|]; [|done]. destruct Hn. unfold upper_le. by rewrite E1, E2.
Qed.

Lemma SliceStable_spec entries :
  SliceStable entries ≡ₚ entries /\ Sorted upper_le (SliceStable entries) /\
  forall name, filter (fun e => toUpper e = name) (SliceStable entries) = filter (fun e => toUpper e = name) entries.
Proof.
  assert (Hperm : forall entry ordered, insert_entry entry ordered ≡ₚ entry :: ordered).
  { intros entry ordered. induction ordered as [|next rest IH]; [done|]. cbn. destruct (decide _); [done|].
    rewrite IH. apply Permutation_swap. }
  assert (Hlow : forall entry ordered low, HdRel upper_le low ordered -> upper_le low entry -> HdRel upper_le low (insert_entry entry ordered)).
  { intros entry [|next rest] low Hl He; cbn; [by constructor|]. destruct (decide _); constructor; [done|by inversion Hl]. }
  assert (Hsort : forall entry ordered, Sorted upper_le ordered -> Sorted upper_le (insert_entry entry ordered)).
  { intros entry ordered Hs. induction Hs as [|next rest Hs IH Hl]; [repeat constructor|]. cbn.
    destruct (decide (upper_le entry next)) as [Hle|Hn]; [by repeat constructor|]. constructor; [done|]. apply Hlow; [done|].
    unfold upper_le in *. by destruct (total String.le (toUpper entry) (toUpper next)). }
  induction entries as [|entry entries (IH1 & IH2 & IH3)]; [split_and!; [done|constructor|done]|]. cbn [SliceStable foldr]. fold (SliceStable entries).
  split_and!; [by rewrite Hperm, IH1|by apply Hsort|]. intros name. by rewrite insert_entry_stable, !filter_cons, IH3.
Qed.

Definition encoded {A} (x : option A) : win A := match x with None => fail | Some x => ret x end.

Definition windowsPipe : win (nat * nat) :=
  call (fun s => let '(s, r) := allocate s in let '(s, w) := allocate s in (s, (r, w))).

Definition CreateProcess : win (nat * nat) :=
  call (fun s => let '(s, p) := allocate s in let '(s, t) := allocate s in
                 (s <| running := {[p]} ∪ running s |>, (p, t))).

Definition AssignProcessToJobObject (j p : nat) : win unit :=
  call (fun s => (s <| jobs := <[p := j]> (jobs s) |>, tt)).

(** The conversion to [int16] of a [windows.Coord]. *)
Definition int16 (z : Z) : Z := let z := z mod 65536 in if z <? 32768 then z else z - 65536.

Definition CreatePseudoConsole (cols rows : Z) : win nat :=
  call (fun s => let '(s, h) := allocate s in (s <| sizes := <[h := (int16 cols, int16 rows)]> (sizes s) |>, h)).

(** A call that makes nothing. *)
Definition touch : win unit := call (fun s => (s, tt)).

Definition startSessionProcess (shell cwd : string) (environment : list string) (cols rows : Z) : win conPTYProcess :=
  if (32767 <? cols) || (32767 <? rows) then fail
  else
    or_return windowsPipe (ret tt) (fun '(inputRead, inputWrite) =>
    or_return windowsPipe (close_all [inputRead; inputWrite]) (fun '(outputRead, outputWrite) =>
    or_return (CreatePseudoConsole cols rows) (close_all [inputRead; inputWrite; outputRead; outputWrite]) (fun console_ =>
    bind (close_all [inputRead; outputWrite]) (fun _ =>
    let cleanupPipes := close_all [inputWrite; outputRead] in
    let back := bind (close_handle console_) (fun _ => cleanupPipes) in
    or_return (call allocate) back (fun attributes =>
    (* [attributes.Delete] is deferred from here on *)
    let deferred := close_handle attributes in
    let back := bind back (fun _ => deferred) in
    or_return touch back (fun _ =>
    or_return (encoded (utf16 shell)) back (fun _ =>
    or_return (encoded (utf16 (compose shell))) back (fun _ =>
    or_return (if String.eqb cwd "" then ret [] else encoded (utf16 cwd)) back (fun _ =>
    or_return (encoded (windowsEnvironmentBlock environment)) back (fun _ =>
    or_return (call allocate) back (fun job_ =>
    or_return touch (bind (close_handle job_) (fun _ => back)) (fun _ =>
    or_return CreateProcess (bind (close_handle job_) (fun _ => back)) (fun '(process_, thread) =>
    let closeStarted := bind (close_all [thread; process_; job_]) (fun _ => back) in
    or_return (AssignProcessToJobObject job_ process_) (bind (terminate_process process_) (fun _ => closeStarted)) (fun _ =>
    or_return touch (bind (terminate_job job_) (fun _ => closeStarted)) (fun _ =>
    bind (close_handle thread) (fun _ =>
    bind deferred (fun _ =>
    ret (mkConPTY inputWrite outputRead console_ process_ job_)))))))))))))))))).

End start.

(** ** What a start owns *)

(** A system in which the handles [l] and the processes [r] were made since the counter stood
    at [n], [b] were open and [rb] ran. *)
Record owns (n : nat) (b rb : gset nat) (l r : list nat) (s : system) : Prop := {
  owns_opened : opened s = b ∪ list_to_set l;
  owns_nodup : NoDup l;
  owns_new : forall h, h ∈ l -> (n <= h < nextHandle s)%nat;
  owns_old : forall h, h ∈ b -> (h < n)%nat;
  owns_running : running s = rb ∪ list_to_set r;
  owns_old_running : forall p, p ∈ rb -> (p < n)%nat;
  owns_old_jobs : forall p j, p ∈ rb -> jobs s !! p = Some j -> (j < n)%nat;
  owns_right : misused s = false;
  owns_counter : (n <= nextHandle s)%nat
}.

(** A system at rest. *)
Definition settled_system (s : system) : Prop := owns (nextHandle s) (opened s) (running s) [] [] s.

Lemma owns_fails n b rb l r s f : owns n b rb l r s -> owns n b rb l r (s <| fails := f |>).
Proof. intros [? ? ? ? ? ? ? ? ?]. by constructor. Qed.

Lemma owns_allocate n b rb l r s : owns n b rb l r s ->
  let '(s', h) := allocate s in owns n b rb (h :: l) r s' /\ jobs s' = jobs s.
Proof.
  intros [O1 O2 O3 O4 O5 O6 O7 O8 O9]. split; [|done]. constructor; cbn; try done.
  - rewrite O1. set_solver.
  - constructor; [|done]. intros Hin%O3. lia.
  - intros h [->|Hin]%elem_of_cons; [lia|]. apply O3 in Hin. lia.
  - lia.
Qed.

Lemma owns_call {A} n b rb l r s (f : system -> system * A) : owns n b rb l r s ->
  match call f s with
  | (s', None) => owns n b rb l r s'
  | (s', Some x) => exists s0, owns n b rb l r s0 /\ jobs s0 = jobs s /\ (s', x) = f s0
  end.
Proof.
  intros Ho. unfold call. destruct (fails s) as [|[|] rest] eqn:Ef; [|by apply owns_fails|];
    (destruct (f _) as [s' x] eqn:E; eexists; split; [by apply owns_fails|]; split; [|by rewrite E]; done).
Qed.

(** Ending a job ends the processes of [r] that are in it and no older one. *)
Lemma owns_end_job n b rb l r r' j s : owns n b rb l r s -> (n <= j)%nat ->
  (forall p, p ∈ r' <-> p ∈ r /\ jobs s !! p <> Some j) -> owns n b rb l r' (end_job j s).
Proof.
  intros [O1 O2 O3 O4 O5 O6 O7 O8 O9] Hj Hr. constructor; try done. cbn. apply set_eq. intros p.
  rewrite elem_of_filter, O5, !elem_of_union, !elem_of_list_to_set, Hr. unfold survives. split; [tauto|].
  intros [Hp|[? ?]]; [|tauto]. split; [|by left]. intros Hjob. pose proof (O7 p j Hp Hjob). lia.
Qed.

(** Closing a handle that was made, the processes in it with it. *)
Lemma owns_close n b rb l l' r r' h s : owns n b rb l r s -> l ≡ₚ h :: l' ->
  (forall p, p ∈ r' <-> p ∈ r /\ jobs s !! p <> Some h) ->
  owns n b rb l' r' (fst (close_handle h s)) /\ jobs (fst (close_handle h s)) = jobs s.
Proof.
  intros [O1 O2 O3 O4 O5 O6 O7 O8 O9] Hl Hr. split; [|done]. cbn [fst close_handle].
  assert (Hin : h ∈ l) by (rewrite Hl; by left). pose proof (O3 h Hin) as Hh.
  assert (Hb : h ∉ b) by (intros Hb%O4; lia).
  pose proof O2 as Hnd. rewrite Hl in Hnd. apply NoDup_cons in Hnd as [Hout Hnd].
  apply (owns_end_job n b rb l' r r'); [|lia|exact Hr]. constructor; cbn; try done.
  - rewrite O1, (list_to_set_perm_L _ _ Hl). cbn. set_solver.
  - intros k Hk. apply O3. rewrite Hl. by right.
  - rewrite O8. cbn. rewrite bool_decide_eq_false_2; [done|]. rewrite O1. set_solver.
Qed.

(** ** Triples *)

Definition gives {A} (P : system -> Prop) (m : win A) (Q : A -> system -> Prop) (E : system -> Prop) : Prop :=
  forall s, P s -> match m s with (s', Some x) => Q x s' | (s', None) => E s' end.

Lemma gives_ret {A} (P : system -> Prop) (x : A) (Q : A -> system -> Prop) E : (forall s, P s -> Q x s) -> gives P (ret x) Q E.
Proof. intros Hp s Hs. by apply Hp. Qed.

Lemma gives_bind {A B} P (m : win A) Q (k : A -> win B) R E :
  gives P m Q E -> (forall x, gives (Q x) (k x) R E) -> gives P (bind m k) R E.
Proof. intros Hm Hk s Hs. unfold bind. specialize (Hm s Hs). destruct (m s) as [s' [x|]]; [by apply Hk|done]. Qed.

Lemma gives_or_return {A B} P (m : win A) cleanup Q F (k : A -> win B) R E :
  gives P m Q F -> gives F cleanup (fun _ => E) E -> (forall x, gives (Q x) (k x) R E) -> gives P (or_return m cleanup k) R E.
Proof.
  intros Hm Hc Hk s Hs. unfold or_return. specialize (Hm s Hs). destruct (m s) as [s' [x|]]; [by apply Hk|].
  specialize (Hc s' Hm). unfold bind. by destruct (cleanup s') as [s2 [[]|]].
Qed.

Lemma gives_weaken {A} P P' (m : win A) (Q Q' : A -> system -> Prop) E :
  gives P' m Q' E -> (forall s, P s -> P' s) -> (forall x s, Q' x s -> Q x s) -> gives P m Q E.
Proof. intros Hm HP HQ s Hs. specialize (Hm s (HP s Hs)). destruct (m s) as [s' [x|]]; [by apply HQ|done]. Qed.

Ltac permute := cbn [app]; solve_Permutation.

Section calls.
Context (n : nat) (b rb : gset nat).

Abbreviation holds l r := (owns n b rb l r).

(** The process [p] runs in the job [j]. *)
Definition in_job l p j (s : system) : Prop := owns n b rb l [p] s /\ jobs s !! p = Some j.

Lemma gives_allocate l r : gives (holds l r) (call allocate) (fun h => holds (h :: l) r) (holds l r).
Proof.
  intros s Hs. pose proof (owns_call n b rb l r s allocate Hs) as Hc. destruct (call allocate s) as [s' [h|]]; [|done].
  destruct Hc as (s0 & H0 & _ & E). pose proof (owns_allocate _ _ _ _ _ _ H0) as Ha. rewrite <- E in Ha. apply Ha.
Qed.

Lemma gives_console cols rows l r : gives (holds l r) (CreatePseudoConsole cols rows) (fun h => holds (h :: l) r) (holds l r).
Proof.
  intros s Hs. unfold CreatePseudoConsole. set (f := fun _ => _). pose proof (owns_call n b rb l r s f Hs) as Hc.
  destruct (call f s) as [s' [h|]]; [|done]. destruct Hc as (s0 & H0 & _ & E). unfold f in E.
  pose proof (owns_allocate _ _ _ _ _ _ H0) as Ha. destruct (allocate s0) as [s1 h1]. destruct Ha as [[O1 O2 O3 O4 O5 O6 O7 O8 O9] _].
  injection E as -> ->. by constructor.
Qed.

Lemma gives_pipe l : gives (holds l []) windowsPipe (fun p => holds (p.2 :: p.1 :: l) []) (holds l []).
Proof.
  intros s Hs. unfold windowsPipe. set (f := fun _ => _). pose proof (owns_call n b rb l [] s f Hs) as Hc.
  destruct (call f s) as [s' [[h1 h2]|]]; [|done]. destruct Hc as (s0 & H0 & _ & E). unfold f in E.
  pose proof (owns_allocate _ _ _ _ _ _ H0) as Ha. destruct (allocate s0) as [s1 a1]. destruct Ha as [Ha _].
  pose proof (owns_allocate _ _ _ _ _ _ Ha) as Hb. destruct (allocate s1) as [s2 a2]. destruct Hb as [Hb _].
  injection E as -> -> ->. exact Hb.
Qed.

Lemma gives_touch l r : gives (holds l r) touch (fun _ => holds l r) (holds l r).
Proof.
  intros s Hs. unfold touch. set (f := fun _ => _). pose proof (owns_call n b rb l r s f Hs) as Hc.
  destruct (call f s) as [s' [x|]]; [|done]. destruct Hc as (s0 & H0 & _ & E). by injection E as -> ->.
Qed.

Lemma gives_touch_in l p j : gives (in_job l p j) touch (fun _ => in_job l p j) (in_job l p j).
Proof.
  intros s [Hs Hj]. unfold touch, call. destruct (fails s) as [|[|] rest]; (split; [by apply owns_fails|done]).
Qed.

Lemma gives_encoded {A} l r (x : option A) : gives (holds l r) (encoded x) (fun _ => holds l r) (holds l r).
Proof. intros s Hs. by destruct x. Qed.

Lemma gives_directory l r utf16 (cwd : string) :
  gives (holds l r) (if String.eqb cwd "" then ret [] else encoded (utf16 cwd)) (fun _ : list Z => holds l r) (holds l r).
Proof. destruct (String.eqb cwd ""); [by apply gives_ret|apply gives_encoded]. Qed.

Lemma gives_create l : gives (holds l []) CreateProcess (fun p => holds (p.2 :: p.1 :: l) [p.1]) (holds l []).
Proof.
  intros s Hs. unfold CreateProcess. set (f := fun _ => _). pose proof (owns_call n b rb l [] s f Hs) as Hc.
  destruct (call f s) as [s' [[h1 h2]|]]; [|done]. destruct Hc as (s0 & H0 & _ & E). unfold f in E.
  pose proof (owns_allocate _ _ _ _ _ _ H0) as Ha. destruct (allocate s0) as [s1 a1]. destruct Ha as [Ha _].
  pose proof (owns_allocate _ _ _ _ _ _ Ha) as Hb. destruct (allocate s1) as [s2 a2]. destruct Hb as [[O1 O2 O3 O4 O5 O6 O7 O8 O9] _].
  injection E as -> -> ->. constructor; cbn; try done. rewrite O5. set_solver.
Qed.

Lemma gives_assign l p j : p ∈ l -> j ∈ l ->
  gives (holds l [p]) (AssignProcessToJobObject j p) (fun _ => in_job l p j) (holds l [p]).
Proof.
  intros Hp Hj s Hs. unfold AssignProcessToJobObject. set (f := fun _ => _). pose proof (owns_call n b rb l [p] s f Hs) as Hc.
  destruct (call f s) as [s' [x|]]; [|done]. destruct Hc as (s0 & [O1 O2 O3 O4 O5 O6 O7 O8 O9] & _ & E). injection E as -> ->.
  split; [|cbn; by rewrite lookup_insert_eq]. constructor; cbn; try done.
  intros q k Hq. rewrite lookup_insert_ne; [by apply O7|]. intros <-. apply O6 in Hq. apply O3 in Hp. lia.
Qed.

(** Closing when nothing runs in what is closed. *)
Lemma gives_close l l' h : l ≡ₚ h :: l' -> gives (holds l []) (close_handle h) (fun _ => holds l' []) (holds [] []).
Proof.
  intros Hl s Hs. destruct (owns_close n b rb l l' [] [] h s Hs Hl) as [Ho _]; [|exact Ho].
  intros p. split; [by intros ?%elem_of_nil|by intros [? _]].
Qed.

Lemma gives_close_all hs : forall l l', l ≡ₚ hs ++ l' ->
  gives (holds l []) (close_all hs) (fun _ => holds l' []) (holds [] []).
Proof.
  induction hs as [|h hs IH]; intros l l' Hl; cbn [close_all].
  - apply gives_ret. intros s [O1 O2 O3 O4 O5 O6 O7 O8 O9]. constructor; try done.
    + by rewrite O1, (list_to_set_perm_L _ _ Hl).
    + by rewrite <- Hl.
    + intros h Hh. apply O3. by rewrite Hl.
  - apply (gives_bind _ _ (fun _ => holds (hs ++ l') [])); [by apply gives_close|]. intros _. by apply IH.
Qed.

Lemma gives_close_in l l' p j h : l ≡ₚ h :: l' -> h <> j ->
  gives (in_job l p j) (close_handle h) (fun _ => in_job l' p j) (holds [] []).
Proof.
  intros Hl Hne s [Hs Hj]. destruct (owns_close n b rb l l' [p] [p] h s Hs Hl) as [Ho Ej]; [|split; [exact Ho|exact Hj]].
  intros q. rewrite list_elem_of_singleton. split; [|by intros [? _]]. intros ->. split; [done|]. congruence.
Qed.

Lemma gives_terminate l p : p ∈ l -> gives (holds l [p]) (terminate_process p) (fun _ => holds l []) (holds [] []).
Proof.
  intros Hp s [O1 O2 O3 O4 O5 O6 O7 O8 O9]. constructor; cbn; try done. rewrite O5.
  assert (p ∉ rb) by (intros Hq%O6; apply O3 in Hp; lia). set_solver.
Qed.

Lemma gives_terminate_job l p j : j ∈ l -> gives (in_job l p j) (terminate_job j) (fun _ => holds l []) (holds [] []).
Proof.
  intros Hj s [Hs Hjob]. apply (owns_end_job n b rb l [p] []); [done|apply (owns_new _ _ _ _ _ _ Hs j Hj)|].
  intros q. rewrite list_elem_of_singleton. split; [by intros ?%elem_of_nil|]. intros [-> Hq]. done.
Qed.

(** What the console holds, taken back; with a list of attributes to release at the end, and
    with other handles closed before. *)
Lemma gives_back con w r l : l ≡ₚ [con; w; r] ->
  gives (holds l []) (bind (close_handle con) (fun _ => close_all [w; r])) (fun _ => holds [] []) (holds [] []).
Proof.
  intros Hl. eapply gives_bind; [by apply gives_close|]. intros ?. apply gives_close_all. permute.
Qed.

Lemma gives_back_deferred attr con w r l : l ≡ₚ [attr; con; w; r] ->
  gives (holds l []) (bind (bind (close_handle con) (fun _ => close_all [w; r])) (fun _ => close_handle attr))
    (fun _ => holds [] []) (holds [] []).
Proof.
  intros Hl. eapply gives_bind.
  - eapply gives_bind; [apply (gives_close l [w; r; attr] con); rewrite Hl; permute|]. intros ?.
    apply (gives_close_all [w; r] _ [attr]). permute.
  - intros ?. apply gives_close. permute.
Qed.

Lemma gives_close_then hs (back : win unit) l l' : l ≡ₚ hs ++ l' ->
  gives (holds l' []) back (fun _ => holds [] []) (holds [] []) ->
  gives (holds l []) (bind (close_all hs) (fun _ => back)) (fun _ => holds [] []) (holds [] []).
Proof. intros Hl Hb. eapply gives_bind; [by apply (gives_close_all hs l l')|]. by intros ?. Qed.

End calls.

(** ** A start owns what it answers, or nothing *)

Section starting.
Context (utf16 : string -> option (list Z)) (toUpper : string -> string) (compose : string -> string).

(** What a session gets: four handles of a console with its job around the process. *)
Definition shell_handles (p : conPTYProcess) : list nat := [input p; output p; console p; process p; job p].

Lemma start_gives n b rb shell cwd environment cols rows :
  gives (owns n b rb [] []) (startSessionProcess utf16 toUpper compose shell cwd environment cols rows)
    (fun p => in_job n b rb (shell_handles p) (process p) (job p)) (owns n b rb [] []).
Proof.
  unfold startSessionProcess. destruct (_ || _); [by intros s Hs|].
  eapply gives_or_return; [apply gives_pipe|by apply gives_ret|]. intros [r1 w1]. cbn [fst snd].
  eapply gives_or_return; [apply gives_pipe|apply gives_close_all; permute|]. intros [r2 w2]. cbn [fst snd].
  eapply gives_or_return; [apply gives_console|apply gives_close_all; permute|]. intros con.
  eapply gives_bind; [apply (gives_close_all n b rb [r1; w2] _ [con; r2; w1]); permute|]. intros ?.
  eapply gives_or_return; [apply gives_allocate|apply gives_back; permute|]. intros attr.
  assert (Hback : forall l, l ≡ₚ [attr; con; w1; r2] -> gives (owns n b rb l []) _ (fun _ => owns n b rb [] []) (owns n b rb [] []))
    by exact (gives_back_deferred n b rb attr con w1 r2).
  set (back := bind (bind (close_handle con) _) _) in *.
  eapply gives_or_return; [apply gives_touch|apply Hback; permute|]. intros ?.
  eapply gives_or_return; [apply gives_encoded|apply Hback; permute|]. intros ?.
  eapply gives_or_return; [apply gives_encoded|apply Hback; permute|]. intros ?.
  eapply gives_or_return; [apply (gives_directory n b rb [attr; con; r2; w1])|apply Hback; permute|]. intros ?.
  eapply gives_or_return; [apply gives_encoded|apply Hback; permute|]. intros ?.
  eapply gives_or_return; [apply gives_allocate|apply Hback; permute|]. intros jb.
  assert (Hjob : gives (owns n b rb [jb; attr; con; r2; w1] []) (bind (close_handle jb) (fun _ => back))
    (fun _ => owns n b rb [] []) (owns n b rb [] [])).
  { eapply gives_bind; [by apply gives_close|]. intros ?. apply Hback. permute. }
  eapply gives_or_return; [apply gives_touch|exact Hjob|]. intros ?.
  eapply gives_or_return; [apply gives_create|exact Hjob|]. intros [pr th]. cbn [fst snd].
  set (l := [th; pr; jb; attr; con; r2; w1]).
  assert (Hstarted : gives (owns n b rb l []) (bind (close_all [th; pr; jb]) (fun _ => back))
    (fun _ => owns n b rb [] []) (owns n b rb [] [])).
  { apply (gives_close_then n b rb _ _ l [attr; con; w1; r2]); [unfold l; permute|]. by apply Hback. }
  eapply gives_or_return; [apply (gives_assign n b rb l pr jb); unfold l; set_solver| |].
  { eapply gives_bind; [apply gives_terminate; unfold l; set_solver|]. intros ?. exact Hstarted. }
  intros ?. eapply gives_or_return; [apply gives_touch_in| |].
  { eapply gives_bind; [apply gives_terminate_job; unfold l; set_solver|]. intros ?. exact Hstarted. }
  intros ? s Hs. assert (Hnd : NoDup l) by (apply (owns_nodup _ _ _ _ _ _ (proj1 Hs))).
  assert (Hth : th <> jb /\ attr <> jb).
  { unfold l in Hnd. rewrite !NoDup_cons in Hnd. set_solver. }
  revert s Hs. eapply gives_bind; [apply (gives_close_in n b rb l [pr; jb; attr; con; r2; w1]); [unfold l; permute|tauto]|].
  intros ?. eapply gives_bind; [apply (gives_close_in n b rb _ [w1; r2; con; pr; jb]); [permute|tauto]|].
  intros ?. by apply gives_ret.
Qed.

(** C26: a start on Windows that fails at whichever call leaves every handle and every
    process as it found them; one that succeeds leaves five new handles and one new
    process, which is in the job, so that closing the job ends it.  No handle is closed
    that is not open. *)
Theorem start_leaks_nothing shell cwd environment cols rows s : settled_system s ->
  let '(s', answer) := startSessionProcess utf16 toUpper compose shell cwd environment cols rows s in
  misused s' = false /\
  match answer with
  | None => opened s' = opened s /\ running s' = running s
  | Some p =>
      opened s' = opened s ∪ list_to_set (shell_handles p) /\ NoDup (shell_handles p) /\
      (forall h, h ∈ shell_handles p -> h ∉ opened s) /\
      running s' = running s ∪ {[process p]} /\ jobs s' !! process p = Some (job p)
  end.
Proof.
  intros Hs. pose proof (start_gives _ _ _ shell cwd environment cols rows s Hs) as Hg.
  destruct (startSessionProcess _ _ _ _ _ _ _ _ s) as [s' [p|]].
  - destruct Hg as [[O1 O2 O3 O4 O5 O6 O7 O8 O9] Hj]. split; [done|]. split; [done|]. split; [done|]. split; [|split; [|done]].
    + intros h Hh Ho. apply O3 in Hh. apply O4 in Ho. lia.
    + rewrite O5. set_solver.
  - destruct Hg as [O1 O2 O3 O4 O5 O6 O7 O8 O9]. split; [done|]. rewrite O1, O5. set_solver.
Qed.

End starting.

(** ** The size of the console *)

Definition still {A} (m : win A) : Prop := forall s, sizes (fst (m s)) = sizes s.

Lemma still_ret {A} (x : A) : still (ret x).
Proof. done. Qed.

Lemma still_bind {A B} (m : win A) (k : A -> win B) : still m -> (forall x, still (k x)) -> still (bind m k).
Proof. intros Hm Hk s. unfold bind. specialize (Hm s). destruct (m s) as [s' [x|]]; [|done]. by rewrite Hk. Qed.

Lemma still_call {A} (f : system -> system * A) : (forall s, sizes (fst (f s)) = sizes s) -> still (call f).
Proof.
  intros Hf s. unfold call. destruct (fails s) as [|[|] rest]; [|done|];
    match goal with |- context [f ?x] => pose proof (Hf x) as E; destruct (f x) as [s' y] end; by cbn in *.
Qed.

Lemma still_close_all hs : still (close_all hs).
Proof. induction hs as [|h hs IH]; [by apply still_ret|]. by apply still_bind. Qed.

Lemma still_encoded {A} (x : option A) : still (encoded x).
Proof. by destruct x. Qed.

#[local] Hint Resolve still_ret still_close_all still_encoded : core.

Section sized.
Context (c : nat) (sz : Z * Z).

Definition sized (s : system) : Prop := sizes s !! c = Some sz.

(** A call on the way changes no size, and what comes after it may fail. *)
Lemma sized_bind {A B} (m : win A) (k : A -> win B) (Q : B -> system -> Prop) : still m ->
  (forall x, gives sized (k x) Q (fun _ => True)) -> gives sized (bind m k) Q (fun _ => True).
Proof.
  intros Hm Hk s Hs. unfold bind. specialize (Hm s). destruct (m s) as [s' [x|]]; [|done]. cbn in Hm. apply Hk. unfold sized in *. congruence.
Qed.

Lemma sized_or_return {A B} (m : win A) cleanup (k : A -> win B) (Q : B -> system -> Prop) : still m ->
  (forall x, gives sized (k x) Q (fun _ => True)) -> gives sized (or_return m cleanup k) Q (fun _ => True).
Proof.
  intros Hm Hk s Hs. unfold or_return. specialize (Hm s). destruct (m s) as [s' [x|]].
  - cbn in Hm. apply Hk. unfold sized in *. congruence.
  - unfold bind, fail. by destruct (cleanup s') as [s2 [[]|]].
Qed.

End sized.

Lemma gives_any {A B} (m : win A) cleanup (k : A -> win B) (Q : B -> system -> Prop) :
  (forall x, gives (fun _ => True) (k x) Q (fun _ => True)) -> gives (fun _ => True) (or_return m cleanup k) Q (fun _ => True).
Proof.
  intros Hk s _. unfold or_return. destruct (m s) as [s' [x|]]; [by apply Hk|]. unfold bind, fail. by destruct (cleanup s') as [s2 [[]|]].
Qed.

(** A console that was made has the size that was asked for. *)
Lemma console_sized cols rows cleanup {B} (k : nat -> win B) (Q : B -> system -> Prop) :
  (forall c, gives (sized c (int16 cols, int16 rows)) (k c) Q (fun _ => True)) ->
  gives (fun _ => True) (or_return (CreatePseudoConsole cols rows) cleanup k) Q (fun _ => True).
Proof.
  intros Hk s _. unfold or_return, CreatePseudoConsole, call, allocate. destruct (fails s) as [|[|] rest]; cbn.
  2: { unfold bind, fail. by destruct (cleanup _) as [s2 [[]|]]. }
  all: apply Hk; unfold sized; cbn; by rewrite lookup_insert_eq.
Qed.

Lemma start_sized utf16 toUpper compose shell cwd environment cols rows :
  gives (fun _ => True) (startSessionProcess utf16 toUpper compose shell cwd environment cols rows)
    (fun p => sized (console p) (int16 cols, int16 rows)) (fun _ => True).
Proof.
  unfold startSessionProcess. destruct (_ || _); [by intros s Hs|].
  apply gives_any. intros [r1 w1]. apply gives_any. intros [r2 w2]. apply console_sized. intros c. cbv zeta.
  repeat (first
    [ apply sized_bind; [by auto|]
    | apply sized_or_return; [first [by auto|by apply still_call|by destruct (String.eqb cwd "")]|] ];
    intros ?; repeat match goal with x : nat * nat |- _ => destruct x end).
  by apply gives_ret.
Qed.

(** ** Ending a shell *)

(** The goroutine that waits for the process ([watchExit]). *)
Inductive watch_pc := Waiting | Announcing | Exited.

(** The session that reaps it: [Terminate], [Close] and [Wait] in order, a step each call. *)
Inductive reap_pc := AtTerminate | AtInput | AtOutput | AtConsole | AtWait | AtJob | Reaped.

Record life := mkLife {
  shell_ : conPTYProcess;
  world : system;
  consoleOnce : bool;
  watcher : watch_pc;
  reaper : reap_pc
}.

#[export] Instance life_settable : Settable life :=
  fun s => mkLife (shell_ s) (world s) (consoleOnce s) (watcher s) (reaper s).

Definition do_close (h : nat) (s : life) : life := s <| world := fst (close_handle h (world s)) |>.

Definition closeConsole (s : life) : life :=
  if consoleOnce s then s else (do_close (console (shell_ s)) s) <| consoleOnce := true |>.

Definition watchExit (s : life) : option life :=
  match watcher s with
  | Waiting => if decide (process (shell_ s) ∈ running (world s)) then None
               else Some ((closeConsole s) <| watcher := Announcing |>)
  | Announcing => Some (s <| watcher := Exited |>)
  | Exited => None
  end.

Definition reap_turn (s : life) : option life :=
  match reaper s with
  | AtTerminate => Some (s <| world := fst (terminate_job (job (shell_ s)) (world s)) |> <| reaper := AtInput |>)
  | AtInput => Some ((do_close (input (shell_ s)) s) <| reaper := AtOutput |>)
  | AtOutput => Some ((do_close (output (shell_ s)) s) <| reaper := AtConsole |>)
  | AtConsole => Some ((closeConsole s) <| reaper := AtWait |>)
  | AtWait => match watcher s with
              | Exited => Some ((do_close (process (shell_ s)) s) <| reaper := AtJob |>)
              | _ => None
              end
  | AtJob => Some ((do_close (job (shell_ s)) s) <| reaper := Reaped |>)
  | Reaped => None
  end.

(** One of the goroutines goes on. *)
Definition turn (s s' : life) : Prop := watchExit s = Some s' \/ reap_turn s = Some s'.

(** The goroutines go on, and the process may exit on its own. *)
Inductive life_step : life -> life -> Prop :=
| life_turn s s' : turn s s' -> life_step s s'
| life_exit s : life_step s (s <| world := fst (terminate_process (process (shell_ s)) (world s)) |>).

Definition finished (s : life) : Prop := watcher s = Exited /\ reaper s = Reaped.

Definition turns_left (s : life) : nat :=
  (match watcher s with Waiting => 2 | Announcing => 1 | Exited => 0 end +
   match reaper s with
   | AtTerminate => 6 | AtInput => 5 | AtOutput => 4 | AtConsole => 3 | AtWait => 2 | AtJob => 1 | Reaped => 0
   end)%nat.

(** The handles that are still open. *)
Definition still_open (s : life) : list nat :=
  let p := shell_ s in
  match reaper s with AtTerminate | AtInput => [input p] | _ => [] end ++
  match reaper s with AtTerminate | AtInput | AtOutput => [output p] | _ => [] end ++
  (if consoleOnce s then [] else [console p]) ++
  match reaper s with AtJob | Reaped => [] | _ => [process p] end ++
  match reaper s with Reaped => [] | _ => [job p] end.

Section ending.
Context (n : nat) (b rb : gset nat).

Record life_ok (s : life) : Prop := {
  life_owns : exists r, owns n b rb (still_open s) r (world s) /\
    (reaper s = AtTerminate /\ watcher s = Waiting /\ r = [process (shell_ s)] /\
       jobs (world s) !! process (shell_ s) = Some (job (shell_ s)) \/ r = []);
  life_new : (n <= process (shell_ s))%nat;
  life_console : match reaper s with AtWait | AtJob | Reaped => consoleOnce s = true | _ => True end;
  life_watched : watcher s <> Waiting -> consoleOnce s = true;
  life_waited : match reaper s with AtJob | Reaped => watcher s = Exited | _ => True end
}.

(** A close when nothing runs in what is closed. *)
Lemma closed_owns l l' h s : owns n b rb l [] s -> l ≡ₚ h :: l' -> owns n b rb l' [] (fst (close_handle h s)).
Proof. intros Ho Hl. exact (gives_close n b rb l l' h Hl s Ho). Qed.

(** Past its termination the process is gone. *)
Lemma nothing_runs s : life_ok s -> reaper s <> AtTerminate \/ process (shell_ s) ∉ running (world s) ->
  owns n b rb (still_open s) [] (world s).
Proof.
  intros [(r & Ho & [(E1 & E2 & -> & E4)| ->]) _ _ _ _] Hgone; [|done]. destruct Hgone as [|Hgone]; [done|].
  destruct Hgone. rewrite (owns_running _ _ _ _ _ _ Ho). set_solver.
Qed.

Lemma watch_ok s s' : life_ok s -> watchExit s = Some s' -> life_ok s'.
Proof.
  intros Hok Hs. pose proof Hok as [Hr Hn Hc Hw Hd]. unfold watchExit in Hs. destruct (watcher s) eqn:Ew; [| |done].
  - destruct (decide _) as [|Hgone]; [done|]. injection Hs as <-. pose proof (nothing_runs s Hok (or_intror Hgone)) as Ho.
    destruct s as [p sys once w r]. cbn in *. unfold closeConsole. cbn. destruct once; cbn.
    + constructor; cbn; try done; [by exists []; auto|]. by destruct r.
    + constructor; cbn; try done; [|by destruct r..].
      exists []. split; [|by right]. eapply closed_owns; [exact Ho|]. unfold still_open. cbn. destruct r; permute.
  - injection Hs as <-. assert (Ho : owns n b rb (still_open s) [] (world s)).
    { destruct Hr as (r & Ho & [(_ & E & _)| ->]); [congruence|done]. }
    destruct s as [p sys once w r]. cbn in *. constructor; cbn; try done; [by exists []; auto|by intros _; apply Hw|by destruct r].
Qed.

Lemma reap_turn_ok s s' : life_ok s -> reap_turn s = Some s' -> life_ok s'.
Proof.
  intros Hok Hs. pose proof Hok as [Hr Hn Hc Hw Hd]. unfold reap_turn in Hs.
  destruct (reaper s) eqn:Er; try done.
  - injection Hs as <-. constructor; cbn; try done. exists []. split; [|by right].
    destruct Hr as (r & Ho & [(_ & Ew & -> & Hj)| ->]).
    + pose proof (gives_terminate_job n b rb (still_open s) (process (shell_ s)) (job (shell_ s))) as Hg.
      assert (Hin : job (shell_ s) ∈ still_open s) by (unfold still_open; rewrite Er; set_solver).
      pose proof (Hg Hin (world s) (conj Ho Hj)) as Ho'. cbn in Ho'. unfold still_open in *. cbn. by rewrite Er in Ho'.
    + pose proof (owns_end_job n b rb (still_open s) [] [] (job (shell_ s)) (world s) Ho) as Ho'.
      unfold still_open in *. rewrite Er in *. cbn. apply Ho'; [|by intros p; split; [intros ?%elem_of_nil|intros [? _]]].
      apply (owns_new _ _ _ _ _ _ Ho). set_solver.
  - assert (Ho : owns n b rb (still_open s) [] (world s)) by (apply nothing_runs; [done|left; congruence]).
    injection Hs as <-. constructor; cbn; try done. exists []. split; [|by right]. eapply closed_owns; [exact Ho|].
    unfold still_open. rewrite Er. cbn. destruct (consoleOnce s); permute.
  - assert (Ho : owns n b rb (still_open s) [] (world s)) by (apply nothing_runs; [done|left; congruence]).
    injection Hs as <-. constructor; cbn; try done. exists []. split; [|by right]. eapply closed_owns; [exact Ho|].
    unfold still_open. rewrite Er. cbn. destruct (consoleOnce s); permute.
  - assert (Ho : owns n b rb (still_open s) [] (world s)) by (apply nothing_runs; [done|left; congruence]).
    injection Hs as <-. unfold closeConsole. destruct (consoleOnce s) eqn:Eo.
    + constructor; cbn; try done. exists []. split; [|by right]. unfold still_open in *. rewrite Er, Eo in Ho. cbn. by rewrite Eo.
    + constructor; cbn; try done. exists []. split; [|by right]. eapply closed_owns; [exact Ho|].
      unfold still_open. rewrite Er, Eo. cbn. permute.
  - assert (Ho : owns n b rb (still_open s) [] (world s)) by (apply nothing_runs; [done|left; congruence]).
    destruct (watcher s) eqn:Ew; try done. injection Hs as <-. constructor; cbn; try done.
    exists []. split; [|by right]. eapply closed_owns; [exact Ho|]. unfold still_open. rewrite Er, ?Hc. cbn. rewrite ?Hc. permute.
  - assert (Ho : owns n b rb (still_open s) [] (world s)) by (apply nothing_runs; [done|left; congruence]).
    injection Hs as <-. constructor; cbn; try done.
    exists []. split; [|by right]. eapply closed_owns; [exact Ho|]. unfold still_open. rewrite Er, ?Hc. cbn. rewrite ?Hc. permute.
Qed.

Lemma exit_ok s : life_ok s -> life_ok (s <| world := fst (terminate_process (process (shell_ s)) (world s)) |>).
Proof.
  intros Hok. pose proof Hok as [(r & Ho & Hr) Hn Hc Hw Hd]. constructor; cbn; try done. exists []. split; [|by right].
  change (still_open (s <| world := _ |>)) with (still_open s).
  destruct Hr as [(Er & _ & -> & _)| ->].
  - apply (gives_terminate n b rb (still_open s) (process (shell_ s))); [|exact Ho]. unfold still_open. rewrite Er. set_solver.
  - destruct Ho as [O1 O2 O3 O4 O5 O6 O7 O8 O9]. constructor; cbn; try done. rewrite O5.
    assert (process (shell_ s) ∉ rb) by (intros Hin%O6; lia). set_solver.
Qed.

Lemma life_step_ok s s' : life_ok s -> life_step s s' -> life_ok s'.
Proof. intros Hok Hstep. destruct Hstep as [x y [Ht|Ht]|x]; [by eapply watch_ok|by eapply reap_turn_ok|by apply exit_ok]. Qed.

Lemma life_reachable s s' : rtc life_step s s' -> life_ok s -> life_ok s'.
Proof. induction 1 as [|x y z Hxy _ IH]; [done|]. intros Hok. apply IH. by eapply life_step_ok. Qed.

Lemma turn_possible s : life_ok s -> ~ finished s -> exists s', turn s s'.
Proof.
  intros Hok Hf. destruct (reaper s) eqn:Er; try (eexists; right; unfold reap_turn; rewrite Er; reflexivity).
  - destruct (watcher s) eqn:Ew.
    + assert (Ho : owns n b rb (still_open s) [] (world s)) by (apply nothing_runs; [done|left; congruence]).
      eexists. left. unfold watchExit. rewrite Ew, decide_False; [reflexivity|].
      rewrite (owns_running _ _ _ _ _ _ Ho). intros [Hin|Hin]%elem_of_union; [|set_solver].
      apply (owns_old_running _ _ _ _ _ _ Ho) in Hin. pose proof (life_new _ Hok). lia.
    + eexists. left. unfold watchExit. by rewrite Ew.
    + eexists. right. unfold reap_turn. by rewrite Er, Ew.
  - pose proof (life_waited _ Hok) as Hd. rewrite Er in Hd. by destruct Hf.
Qed.

Lemma turn_ends s s' : turn s s' -> (turns_left s' < turns_left s)%nat.
Proof.
  unfold turn, watchExit, reap_turn, turns_left, closeConsole. intros [Hs|Hs].
  - destruct (watcher s) eqn:Ew; [destruct (decide _); [done|]|..]; try done; injection Hs as <-; cbn; rewrite ?Ew; [|lia].
    destruct (consoleOnce s); cbn; lia.
  - destruct (reaper s) eqn:Er; try (destruct (watcher s) eqn:Ew); try done; injection Hs as <-; cbn; rewrite ?Ew; try lia;
      destruct (consoleOnce s); cbn; rewrite ?Ew; lia.
Qed.

End ending.

(** The shell a start answered, its watcher just begun. *)
Definition newborn (p : conPTYProcess) (s : system) : life := mkLife p s false Waiting AtTerminate.

(** C27: from a start on, however the goroutine that waits for the process, the session that
    reaps it and the process itself take turns, no handle is closed twice; while either has
    something left to do, one of them can go on, and after at most eight turns they are
    done: then every handle the start made is closed and its process is gone. *)
Theorem reaped_shell_leaves_nothing utf16 toUpper compose shell cwd environment cols rows s0 p s1 s : settled_system s0 ->
  startSessionProcess utf16 toUpper compose shell cwd environment cols rows s0 = (s1, Some p) ->
  rtc life_step (newborn p s1) s ->
  misused (world s) = false /\
  (finished s -> opened (world s) = opened s0 /\ running (world s) = running s0) /\
  (~ finished s -> exists s', turn s s') /\
  (forall s', turn s s' -> (turns_left s' < turns_left s <= 8)%nat).
Proof.
  intros H0 Hstart Hrun. pose proof (start_gives utf16 toUpper compose _ _ _ shell cwd environment cols rows s0 H0) as Hg.
  rewrite Hstart in Hg. destruct Hg as [Ho Hj].
  assert (Hok : life_ok (nextHandle s0) (opened s0) (running s0) s).
  { apply (life_reachable _ _ _ _ _ Hrun). constructor; cbn; try done; [exists [process p]; split; [exact Ho|by left]|].
    apply (owns_new _ _ _ _ _ _ Ho). unfold shell_handles. set_solver. }
  split; [|split; [|split]].
  - destruct (life_owns _ _ _ _ Hok) as (r & Hr & _). apply Hr.
  - intros [_ Er]. assert (Hr : owns (nextHandle s0) (opened s0) (running s0) (still_open s) [] (world s)).
    { apply nothing_runs; [done|left; congruence]. }
    pose proof (life_console _ _ _ _ Hok) as Hc. rewrite Er in Hc. unfold still_open in Hr. rewrite Er, Hc in Hr.
    rewrite (owns_opened _ _ _ _ _ _ Hr), (owns_running _ _ _ _ _ _ Hr). set_solver.
  - by apply (turn_possible _ _ _ _ Hok).
  - intros s' Ht. split; [by apply turn_ends|]. unfold turns_left. destruct (watcher s), (reaper s); lia.
Qed.

(** ** A shell that runs *)

(** The ends of the pipes are files of the standard library, which answer so once they were
    closed; what is behind them answers from outside. *)
Definition Read (answer : option octets) (p : conPTYProcess) (s : system) : option octets :=
  if decide (output p ∈ opened s) then answer else None.

Definition Write (took : bool) (p : conPTYProcess) (s : system) : bool := bool_decide (input p ∈ opened s) && took.

(** [pidOf] is the number the system gave the process. *)
Definition PID (pidOf : nat -> Z) (p : conPTYProcess) : Z := pidOf (process p).

Definition ForegroundGroup (p : conPTYProcess) : Z := 0.

Definition Resize (cols rows : Z) (p : conPTYProcess) : win unit :=
  if (32767 <? cols) || (32767 <? rows) then fail
  else call (fun s => (s <| sizes := <[console p := (int16 cols, int16 rows)]> (sizes s) |>
                         <| misused := misused s || bool_decide (console p ∉ opened s) |>, tt)).

Lemma int16_small z : 0 <= z <= 32767 -> int16 z = z.
Proof. intros Hz. unfold int16. rewrite Z.mod_small by lia. by replace (z <? 32768) with true by lia. Qed.

Lemma life_shell s s' : rtc life_step s s' -> shell_ s' = shell_ s.
Proof.
  induction 1 as [|x y z Hxy _ IH]; [done|]. rewrite IH. destruct Hxy as [x y [Ht|Ht]|x]; [..|done].
  - unfold watchExit, closeConsole in Ht. destruct (watcher x); [destruct (decide _); [done|]|..]; try done; injection Ht as <-; [|done].
    by destruct (consoleOnce x).
  - unfold reap_turn, closeConsole in Ht. destruct (reaper x); try (destruct (watcher x)); try done; injection Ht as <-; try done;
      by destruct (consoleOnce x).
Qed.

(** The console is open until one of the two goroutines closed it. *)
Lemma console_open n b rb s : life_ok n b rb s -> NoDup (shell_handles (shell_ s)) -> (n <= console (shell_ s))%nat ->
  bool_decide (console (shell_ s) ∉ opened (world s)) = consoleOnce s.
Proof.
  intros [(r & Ho & _) _ _ _ _] Hnd Hn. rewrite (owns_opened _ _ _ _ _ _ Ho).
  assert (Hb : console (shell_ s) ∉ b) by (intros Hin%(owns_old _ _ _ _ _ _ Ho); lia).
  destruct (consoleOnce s) eqn:Eo.
  - apply bool_decide_eq_true. rewrite elem_of_union, elem_of_list_to_set. intros [?|Hin]; [done|]. unfold still_open in Hin. rewrite Eo in Hin.
    unfold shell_handles in Hnd. rewrite !NoDup_cons in Hnd. clear -Hin Hnd. destruct (reaper s); cbn in Hin; set_solver.
  - apply bool_decide_eq_false. intros Hout. apply Hout. rewrite elem_of_union, elem_of_list_to_set. right. unfold still_open. rewrite Eo.
    clear. destruct (reaper s); set_solver.
Qed.

(** C36: the console has the size it was last given, which no conversion changes, and a larger one
    is refused.  But a resize does not look whether the console is still there: once the
    process exited, the session that is not reaped yet resizes a console that was closed. *)
Theorem resize_of_a_closed_console utf16 toUpper compose shell cwd environment cols rows s0 p s1 s c r : settled_system s0 ->
  startSessionProcess utf16 toUpper compose shell cwd environment cols rows s0 = (s1, Some p) ->
  rtc life_step (newborn p s1) s -> fails (world s) = [] -> 0 <= c < 65536 -> 0 <= r < 65536 ->
  sizes s1 !! console p = Some (int16 cols, int16 rows) /\
  let '(w, answer) := Resize c r p (world s) in
  if (32767 <? c) || (32767 <? r) then answer = None /\ w = world s
  else answer = Some tt /\ sizes w !! console p = Some (c, r) /\ misused w = consoleOnce s.
Proof.
  intros H0 Hstart Hrun Hf Hc Hr. pose proof (start_sized utf16 toUpper compose shell cwd environment cols rows s0 I) as Hsized.
  pose proof (start_gives utf16 toUpper compose _ _ _ shell cwd environment cols rows s0 H0) as Hg.
  rewrite Hstart in Hg, Hsized. destruct Hg as [Ho Hj]. split; [exact Hsized|].
  assert (Hok : life_ok (nextHandle s0) (opened s0) (running s0) s).
  { apply (life_reachable _ _ _ _ _ Hrun). constructor; cbn; try done; [exists [process p]; split; [exact Ho|by left]|].
    apply (owns_new _ _ _ _ _ _ Ho). unfold shell_handles. set_solver. }
  pose proof (life_shell _ _ Hrun) as Eshell. cbn in Eshell.
  pose proof (console_open _ _ _ s Hok) as Hopen. rewrite Eshell in Hopen.
  specialize (Hopen (owns_nodup _ _ _ _ _ _ Ho) (proj1 (owns_new _ _ _ _ _ _ Ho (console p) ltac:(unfold shell_handles; set_solver)))).
  unfold Resize. destruct ((32767 <? c) || (32767 <? r)) eqn:Etest; [done|]. apply orb_false_iff in Etest as [E1 E2].
  unfold call. rewrite Hf. cbn. split_and!; [done| |].
  - rewrite lookup_insert_eq, !int16_small by lia. done.
  - destruct (life_owns _ _ _ _ Hok) as (l & Hl & _). rewrite (owns_right _ _ _ _ _ _ Hl). exact Hopen.
Qed.

(** ** Witnesses *)

Definition sample_utf16 (s : string) : option (list Z) := Some [Z.of_nat (String.length s); 0].

Definition sample_system (f : list bool) : system := mkSystem 3 {[1%nat; 2%nat]} {[2%nat]} {[2%nat := 1%nat]} f false ∅.

Lemma sample_settled f : settled_system (sample_system f).
Proof.
  constructor; cbn; try done.
  - constructor.
  - by intros h ?%elem_of_nil.
  - intros h. rewrite elem_of_union, !elem_of_singleton. lia.
  - intros p ->%elem_of_singleton. lia.
  - intros p j ->%elem_of_singleton. rewrite lookup_singleton_eq. intros [= <-]. lia.
Qed.

Abbreviation sample_start f :=
  (startSessionProcess sample_utf16 (fun s => s) (fun s => s) "cmd" "C:" ["A=1"%string; "B=2"%string] 80 24 (sample_system f)).

(** The last call fails: the shell had started. *)
Definition last_fails : list bool := [false; false; false; false; false; false; false; false; false; true].

Lemma start_leaks_nothing_witness :
  snd (sample_start last_fails) = None /\
  let '(s', answer) := sample_start last_fails in
  misused s' = false /\
  match answer with
  | None => opened s' = opened (sample_system last_fails) /\ running s' = running (sample_system last_fails)
  | Some p =>
      opened s' = opened (sample_system last_fails) ∪ list_to_set (shell_handles p) /\ NoDup (shell_handles p) /\
      (forall h, h ∈ shell_handles p -> h ∉ opened (sample_system last_fails)) /\
      running s' = running (sample_system last_fails) ∪ {[process p]} /\ jobs s' !! process p = Some (job p)
  end.
Proof.
  split; [vm_compute; reflexivity|].
  exact (start_leaks_nothing sample_utf16 (fun s => s) (fun s => s) "cmd" "C:" ["A=1"%string; "B=2"%string] 80 24 (sample_system last_fails) (sample_settled last_fails)).
Defined.

Definition sample_shell : conPTYProcess := mkConPTY 4 5 7 10 9.

Definition goes (t : life -> option life) (s : life) : life := default s (t s).

Definition can (t : life -> option life) (s : life) : bool := match t s with Some _ => true | None => false end.

Lemma goes_on t s : can t s = true -> t s = Some (goes t s).
Proof. unfold can, goes. by destruct (t s). Qed.

(** The session terminates the shell and closes its input before the watcher runs. *)
Definition born : life := newborn sample_shell (fst (sample_start [])).
Definition terminated : life := goes reap_turn born.
Definition deaf : life := goes reap_turn terminated.
Definition watched_ : life := goes watchExit deaf.

Lemma sample_started : sample_start [] = (fst (sample_start []), Some sample_shell).
Proof. vm_compute. reflexivity. Qed.

Lemma reaped_shell_leaves_nothing_witness :
  misused (world watched_) = false /\
  (finished watched_ -> opened (world watched_) = opened (sample_system []) /\ running (world watched_) = running (sample_system [])) /\
  (~ finished watched_ -> exists s', turn watched_ s') /\
  (forall s', turn watched_ s' -> (turns_left s' < turns_left watched_ <= 8)%nat).
Proof.
  assert (Hrun : rtc life_step born watched_).
  { apply (rtc_l _ _ terminated); [apply life_turn; right; apply goes_on; vm_compute; reflexivity|].
    apply (rtc_l _ _ deaf); [apply life_turn; right; apply goes_on; vm_compute; reflexivity|].
    apply (rtc_l _ _ watched_); [apply life_turn; left; apply goes_on; vm_compute; reflexivity|]. apply rtc_refl. }
  exact (reaped_shell_leaves_nothing sample_utf16 (fun s => s) (fun s => s) "cmd" "C:" ["A=1"%string; "B=2"%string] 80 24
    (sample_system []) sample_shell (fst (sample_start [])) watched_ (sample_settled []) sample_started Hrun).
Defined.

(** The shell exits on its own and the watcher closes the console; nobody reaped the session. *)
Definition exited : life := born <| world := fst (terminate_process (process (shell_ born)) (world born)) |>.
Definition unreaped : life := goes watchExit exited.

Lemma resize_of_a_closed_console_witness :
  reaper unreaped = AtTerminate /\ misused (world unreaped) = false /\ consoleOnce unreaped = true /\
  sizes (fst (sample_start [])) !! console sample_shell = Some (int16 80, int16 24) /\
  let '(w, answer) := Resize 100 40 sample_shell (world unreaped) in
  if (32767 <? 100) || (32767 <? 40) then answer = None /\ w = world unreaped
  else answer = Some tt /\ sizes w !! console sample_shell = Some (100, 40) /\ misused w = consoleOnce unreaped.
Proof.
  assert (Hrun : rtc life_step born unreaped).
  { apply (rtc_l _ _ exited); [exact (life_exit born)|].
    apply (rtc_l _ _ unreaped); [apply life_turn; left; apply goes_on; vm_compute; reflexivity|]. apply rtc_refl. }
  split; [vm_compute; reflexivity|]. split; [vm_compute; reflexivity|]. split; [vm_compute; reflexivity|].
  refine (resize_of_a_closed_console sample_utf16 (fun s => s) (fun s => s) "cmd" "C:" ["A=1"%string; "B=2"%string] 80 24
    (sample_system []) sample_shell (fst (sample_start [])) unreaped 100 40 (sample_settled []) sample_started Hrun _ _ _);
    [vm_compute; reflexivity|lia|lia].
Defined.
