(* ===== verification/Store.v ===== *)
(** * The session store (store.go)

    A session leaves a record, replaced whole by a rename, and two output segments that
    are appended to in turn.  The file system is a map from file names to contents; every
    call on it may fail, as [fates] says, and every state it passes through is kept in
    [passed], which is where a crash could leave it.  JSON is a parameter with the one law
    the store relies on, that a record written is the record read; so is the name
    [os.CreateTemp] picks, which is a name that is not there. *)

From stdpp Require Import pretty.
From S2P Require Import Prelude Decimal Contract.

(** ** Data *)

Record sessionRecord := mkRecord {
  Session : Z;
  PaneID : string;
  WindowLabel : string;
  CWD : string;
  Command : string;
  Environment : list string;
  Cols : Z;
  Rows : Z;
  StartedAtUnixMs : Z;
  EndedAtUnixMs : option Z;
  ExitCode : option Z;
  EndedThrough : Z;
  Segment : Z;
  Written : Z;
  Foreground : string;
  ForegroundCWD : string;
  Modes : octets
}.

#[export] Instance record_settable : Settable sessionRecord :=
  fun r => mkRecord (Session r) (PaneID r) (WindowLabel r) (CWD r) (Command r) (Environment r)
    (Cols r) (Rows r) (StartedAtUnixMs r) (EndedAtUnixMs r) (ExitCode r) (EndedThrough r)
    (Segment r) (Written r) (Foreground r) (ForegroundCWD r) (Modes r).

#[export] Instance record_eq_dec : EqDecision sessionRecord.
Proof. solve_decision. Defined.

(** [file] is whether the writer holds its segment open. *)
Record segmentWriter := mkWriter {
  file : bool;
  segment : Z;
  written : Z
}.

#[export] Instance writer_settable : Settable segmentWriter :=
  fun w => mkWriter (file w) (segment w) (written w).

Abbreviation files := (gmap string octets).

(** What becomes of a call on the file system: a write that fails may have written some
    bytes first. *)
Inductive fate := Works | Fails (kept : nat).

(** The directory, the writers held open, the fates of the calls to come (none left means
    they work), and every state of the directory so far. *)
Record world := mkWorld {
  fs : files;
  open : gmap Z segmentWriter;
  fates : list fate;
  passed : list files
}.

#[export] Instance world_settable : Settable world :=
  fun w => mkWorld (fs w) (open w) (fates w) (passed w).

Inductive io_error := NotExist | Fault | NoParse | WrongSession | BadSegment.

(** ** Calls on the file system *)

Definition io (A : Type) : Type := world -> world * (io_error + A).

Definition ret {A} (x : A) : io A := fun w => (w, inr x).

Definition fail {A} (e : io_error) : io A := fun w => (w, inl e).

Definition bind {A B} (m : io A) (k : A -> io B) : io B :=
  fun w => match m w with
           | (w, inl e) => (w, inl e)
           | (w, inr x) => k x w
           end.

Notation "'do' x <- m ; k" := (bind m (fun x => k)) (at level 100, x pattern, m at level 99, k at level 200) : pty_scope.
Notation "'do' ' p <- m ; k" := (bind m (fun x => match x with p => k end))
  (at level 100, p pattern, m at level 99, k at level 200) : pty_scope.
Notation "m ;;; k" := (bind m (fun _ => k)) (at level 100, k at level 200) : pty_scope.

(** The outcome of a call as a value, for a caller that looks at it or drops it. *)
Definition attempt {A} (m : io A) : io (io_error + A) :=
  fun w => let '(w, answer) := m w in (w, inr answer).

(** The fate of the next call. *)
Definition next_fate (w : world) : world * fate :=
  match fates w with
  | [] => (w, Works)
  | f :: rest => (w <| fates := rest |>, f)
  end.

Definition change_files (f : files -> files) (w : world) : world :=
  w <| fs := f (fs w) |> <| passed := passed w ++ [f (fs w)] |>.

(** A call that changes the directory in one go or fails without changing it. *)
Definition call (f : files -> files) : io unit :=
  fun w => match next_fate w with
           | (w, Works) => (change_files f w, inr tt)
           | (w, Fails _) => (w, inl Fault)
           end.

(** A call that only looks. *)
Definition look {A} (f : files -> io_error + A) : io A :=
  fun w => match next_fate w with
           | (w, Works) => (w, f (fs w))
           | (w, Fails _) => (w, inl Fault)
           end.

(** The names in use, where [os.CreateTemp] looks for one that is not. *)
Definition directory : io files := fun w => (w, inr (fs w)).

Definition set_writers (f : gmap Z segmentWriter -> gmap Z segmentWriter) : io unit :=
  fun w => (w <| open := f (open w) |>, inr tt).

Definition sys_sync : io unit := look (fun _ => inr tt).

Definition sys_close : io unit := look (fun _ => inr tt).

Definition sys_read (name : string) : io octets :=
  look (fun d => match d !! name with Some body => inr body | None => inl NotExist end).

Definition sys_remove (name : string) : io unit :=
  fun w => match next_fate w with
           | (w, Works) => match fs w !! name with
                           | None => (w, inl NotExist)
                           | Some _ => (change_files (delete name) w, inr tt)
                           end
           | (w, Fails _) => (w, inl Fault)
           end.

(** Appending to an open file: how much was written, and whether all of it was. *)
Definition sys_write (name : string) (data : octets) : io (Z * bool) :=
  fun w => let '(w, f) := next_fate w in
           let sent := match f with Works => data | Fails kept => take kept data end in
           (change_files (fun d => <[name := default [] (d !! name) ++ sent]> d) w,
            inr (zlen sent, match f with Works => true | Fails _ => false end)).

Definition sys_create (name : string) : io unit := call (<[name := []]>).

(** [O_CREATE|O_APPEND]. *)
Definition sys_open_append (name : string) : io unit :=
  call (fun d => match d !! name with Some _ => d | None => <[name := []]> d end).

Definition sys_rename (from to : string) : io unit :=
  call (fun d => match d !! from with Some body => <[to := body]> (delete from d) | None => d end).

(** ** The store *)

Definition recordVersion : string := "v1".

Definition outputSegmentBound : Z := 4194304.

Definition recordPath (id : Z) : string := (recordVersion ++ "-" ++ number id ++ ".json")%string.

Definition segmentPath (id seg : Z) : string :=
  (recordVersion ++ "-" ++ number id ++ ".out" ++ number seg)%string.

(** The JSON of a record, and the random part of a staged name. *)
Class Platform := {
  Marshal : sessionRecord -> octets;
  Unmarshal : octets -> option sessionRecord;
  stagedSuffix : files -> string
}.

Definition newline : octets := [Byte.x0a].

Section store.
Context `{Platform}.

Definition stagedPath (id : Z) (d : files) : string :=
  (recordPath id ++ "." ++ stagedSuffix d ++ ".next")%string.

Definition publish (record : sessionRecord) (durable : bool) : io unit :=
  let body := Marshal record in
  let target := recordPath (Session record) in
  do d <- directory;
  let name := stagedPath (Session record) d in
  (sys_create name;;;
   do '(_, whole) <- sys_write name (body ++ newline);
   (if negb whole then attempt sys_close;;; attempt (sys_remove name);;; fail Fault
    else
      do synced <- (if durable then attempt sys_sync else ret (inr tt));
      match synced with
      | inl e => attempt sys_close;;; attempt (sys_remove name);;; fail e
      | inr _ =>
          do closed <- attempt sys_close;
          match closed with
          | inl e => attempt (sys_remove name);;; fail e
          | inr _ =>
              do renamed <- attempt (sys_rename name target);
              match renamed with
              | inl e => attempt (sys_remove name);;; fail e
              | inr _ => if durable then sys_sync;;; sys_sync else ret tt
              end
          end
      end)).

Definition write (record : sessionRecord) : io unit := publish record false.

Definition writeDurable (record : sessionRecord) : io unit := publish record true.

Definition create (record : sessionRecord) : io unit := write record.

Definition read (id : Z) : io sessionRecord :=
  do body <- sys_read (recordPath id);
  match Unmarshal body with
  | None => fail NoParse
  | Some record => if Session record =? id then ret record else fail WrongSession
  end.

(** A record write: read it, change it, publish it. *)
Definition setForeground (id : Z) (command cwd : string) : io unit :=
  do record <- read id; write (record <| Foreground := command |> <| ForegroundCWD := cwd |>).

Definition clearStopMark (id : Z) : io unit :=
  do record <- read id;
  write (record <| EndedAtUnixMs := None |> <| ExitCode := None |> <| EndedThrough := 0 |>).

Definition setSize (id cols rows : Z) : io unit :=
  do record <- read id; write (record <| Cols := cols |> <| Rows := rows |>).

Definition setModes (id : Z) (report : octets) : io unit :=
  do record <- read id; write (record <| Modes := report |>).

Definition heldWriter (id : Z) : io (option segmentWriter) := fun w => (w, inr (open w !! id)).

Definition put_writer (id : Z) (writer : segmentWriter) : io unit := set_writers (<[id := writer]>).

(** [writerFor]: the session's writer, made on first use. *)
Definition writerFor (id : Z) : io segmentWriter :=
  do held <- heldWriter id;
  match held with
  | Some writer => ret writer
  | None => let writer := mkWriter false (-1) 0 in put_writer id writer;;; ret writer
  end.

(** The size of a file, by [Stat]. *)
Definition stat_size (name : string) : io Z :=
  look (fun d => match d !! name with Some body => inr (zlen body) | None => inl NotExist end).

Definition openInto (id seg : Z) : io segmentWriter :=
  if negb (seg =? 0) && negb (seg =? 1) then fail BadSegment
  else
    sys_open_append (segmentPath id seg);;;
    do size <- attempt (stat_size (segmentPath id seg));
    match size with
    | inl e => attempt sys_close;;; fail e
    | inr size => let writer := mkWriter true seg size in put_writer id writer;;; ret writer
    end.

Definition roll (id : Z) (writer : segmentWriter) (at_ : Z) : io segmentWriter :=
  let next := 1 - segment writer in
  attempt sys_close;;;
  put_writer id (writer <| file := false |>);;;
  do removed <- attempt (sys_remove (segmentPath id next));
  match removed with
  | inl NotExist | inr _ =>
      do record <- read id;
      write (record <| Segment := next |> <| Written := at_ |>);;;
      openInto id next
  | inl e => fail e
  end.

Definition append (id : Z) (data : octets) (through : Z) : io unit :=
  do writer <- writerFor id;
  do writer <- (if file writer then ret writer
                else do record <- read id; openInto id (Segment record));
  do writer <- (if (outputSegmentBound <? written writer + zlen data) && (0 <? written writer)
                then roll id writer (through -64 zlen data) else ret writer);
  do '(count, whole) <- sys_write (segmentPath id (segment writer)) data;
  put_writer id (writer <| written := written writer + count |>);;;
  if whole then ret tt else fail Fault.

Definition size (name : string) : io Z :=
  do answer <- attempt (stat_size name);
  match answer with
  | inr n => ret n
  | inl NotExist => ret 0
  | inl e => fail e
  end.

(** The last [atMost] bytes of a file, none when it is not there. *)
Definition tail (name : string) (atMost : Z) : io octets :=
  if atMost <=? 0 then ret []
  else
    do answer <- attempt (sys_read name);
    match answer with
    | inr body => ret (if atMost <? zlen body then slice_from (zlen body - atMost) body else body)
    | inl NotExist => ret []
    | inl e => fail e
    end.

Definition output (id atMost : Z) : io (octets * Z) :=
  do record <- read id;
  do held <- heldWriter id;
  let record := match held with
                | Some writer => if file writer then record <| Segment := segment writer |> else record
                | None => record
                end in
  do total <- size (segmentPath id (Segment record));
  do newer <- tail (segmentPath id (Segment record)) atMost;
  do older <- tail (segmentPath id (1 - Segment record)) (atMost - zlen newer);
  ret (older ++ newer, Written record +64 total).

(** A stop write looks at the session's writer, syncing its file: -1 when it has none open. *)
Definition writer_segment (held : option segmentWriter) : io Z :=
  match held with
  | Some writer => if file writer then attempt sys_sync;;; ret (segment writer) else ret (-1)
  | None => ret (-1)
  end.

(** Then it writes the record. *)
Definition mark_record (id at_ : Z) (exitCode : option Z) (through seg : Z) : io unit :=
  do record <- read id;
  let record := record <| EndedThrough := through |> in
  let record := if 0 <=? seg then record <| Segment := seg |> else record in
  writeDurable (record <| EndedAtUnixMs := Some at_ |> <| ExitCode := exitCode |>).

Definition markEnded (id at_ : Z) (exitCode : option Z) (through : Z) : io unit :=
  do held <- heldWriter id;
  do seg <- writer_segment held;
  mark_record id at_ exitCode through seg.

(** [drop_writer]: the writer leaves the map; its file, when open, is closed. *)
Definition drop_writer (id : Z) : io unit :=
  do held <- heldWriter id;
  set_writers (delete id);;;
  match held with
  | Some writer => if file writer then attempt sys_close;;; ret tt else ret tt
  | None => ret tt
  end.

(** [os.Remove] where a file that is not there is no failure. *)
Definition remove_if_there (name : string) : io unit :=
  do answer <- attempt (sys_remove name);
  match answer with
  | inr _ | inl NotExist => ret tt
  | inl e => fail e
  end.

Definition remove (id : Z) : io unit :=
  drop_writer id;;;
  remove_if_there (segmentPath id 0);;;
  remove_if_there (segmentPath id 1);;;
  remove_if_there (recordPath id).

(** The id a file name states, for the name of a record in this format version. *)
Definition listed (name : string) : option Z :=
  if HasPrefix name (recordVersion ++ "-") && HasSuffix name ".json"
  then ParseUint 64 (TrimSuffix (TrimPrefix name (recordVersion ++ "-")) ".json")
  else None.

(** [list] of the source: [os.ReadDir] answers sorted by name. *)
Definition list_ids : io (list Z) :=
  do names <- look (fun d => inr (merge_sort String.le (elements (dom d))));
  ret (omap listed names).

(** [close]: every writer leaves the map, its file closed; in what order makes no difference. *)
Fixpoint close_files (writers : list segmentWriter) : io unit :=
  match writers with
  | [] => ret tt
  | writer :: writers => (if file writer then attempt sys_close;;; ret tt else ret tt);;; close_files writers
  end.

Definition close : io unit :=
  do writers <- (fun w => (w, inr (map_to_list (open w)).*2));
  set_writers (fun _ => ∅);;;
  close_files writers.

(** The daemon is gone, and what it held open with it. *)
Definition restarted (w : world) : world := w <| open := ∅ |>.

End store.

(** ** Assertions over the calls of an operation *)

(** What a call may be asked about: the directory and the open writers. *)
Definition assertion := files -> gmap Z segmentWriter -> Prop.

(** From a state in [P], [m] ends in [Q], and every state of the directory it passes
    through is in [C], so that is where a crash leaves it.  [lucky] is a run in which no
    call fails. *)
Definition triple {A} (lucky : bool) (C : files -> Prop) (P : assertion) (m : io A)
    (Q : io_error + A -> assertion) : Prop :=
  forall w, P (fs w) (open w) -> (lucky = true -> fates w = []) ->
  let '(w', answer) := m w in
  Q answer (fs w') (open w') /\ (lucky = true -> fates w' = []) /\
  exists new, passed w' = passed w ++ new /\ Forall C new.

(** ** Rules *)

Section rules.
Context (lucky : bool) (C : files -> Prop).

Lemma triple_ret {A} (x : A) (P : assertion) Q :
  (forall d o, P d o -> Q (inr x) d o) -> triple lucky C P (ret x) Q.
Proof. intros HP w Hw Hl. cbn. split_and!; [by apply HP|done|]. exists []. by rewrite app_nil_r. Qed.

Lemma triple_fail {A} e (P : assertion) (Q : io_error + A -> assertion) :
  (forall d o, P d o -> Q (inl e) d o) -> triple lucky C P (fail e) Q.
Proof. intros HP w Hw Hl. cbn. split_and!; [by apply HP|done|]. exists []. by rewrite app_nil_r. Qed.

Lemma triple_bind {A B} (m : io A) (k : A -> io B) (P : assertion) R Q :
  triple lucky C P m R -> (forall x, triple lucky C (R (inr x)) (k x) Q) ->
  (forall e d o, R (inl e) d o -> Q (inl e) d o) -> triple lucky C P (bind m k) Q.
Proof.
  intros Hm Hk He w Hw Hl. unfold bind. specialize (Hm w Hw Hl).
  destruct (m w) as [w1 [e|x]]; destruct Hm as (HR & Hl1 & new & Hnew & Hall).
  - split_and!; [by apply He|done|]. by exists new.
  - specialize (Hk x w1 HR Hl1). destruct (k x w1) as [w2 answer].
    destruct Hk as (HQ & Hl2 & more & Hmore & Hall2). split_and!; [done|done|].
    exists (new ++ more). rewrite Hmore, Hnew, app_assoc. split; [done|]. by apply Forall_app.
Qed.

Lemma triple_conseq {A} (m : io A) (P P' : assertion) Q Q' :
  triple lucky C P m Q -> (forall d o, P' d o -> P d o) ->
  (forall a d o, Q a d o -> Q' a d o) -> triple lucky C P' m Q'.
Proof.
  intros Hm HP HQ w Hw Hl. specialize (Hm w (HP _ _ Hw) Hl). destruct (m w) as [w' a].
  destruct Hm as (H1 & H2 & H3). split_and!; [by apply HQ|done|done].
Qed.

Lemma triple_pre {A} (P : assertion) (m : io A) (P' : assertion) Q :
  triple lucky C P m Q -> (forall d o, P' d o -> P d o) -> triple lucky C P' m Q.
Proof. intros Hm HP. by apply (triple_conseq m P P' Q Q). Qed.

Lemma triple_attempt {A} (m : io A) (P : assertion) Q :
  triple lucky C P m (fun a => Q (inr a)) -> triple lucky C P (attempt m) Q.
Proof.
  intros Hm w Hw Hl. unfold attempt. specialize (Hm w Hw Hl). by destruct (m w) as [w' a].
Qed.

(** A state that does not matter to the rest may be named. *)
Lemma triple_state {A} (m : io A) (P : assertion) Q :
  (forall d0 o0, P d0 o0 -> triple lucky C (fun d o => d = d0 /\ o = o0) m Q) -> triple lucky C P m Q.
Proof. intros Hm w Hw Hl. by apply (Hm _ _ Hw). Qed.

(** Binding is associative. *)
Lemma triple_assoc {A B D} (m : io A) (k : A -> io B) (k' : B -> io D) (P : assertion) Q :
  triple lucky C P (bind (bind m k) k') Q -> triple lucky C P (bind m (fun x => bind (k x) k')) Q.
Proof.
  intros Hm w Hw Hl. specialize (Hm w Hw Hl). unfold bind in *. by destruct (m w) as [w1 [e|x]].
Qed.

Lemma next_fate_spec w : (lucky = true -> fates w = []) ->
  let '(w', f) := next_fate w in
  fs w' = fs w /\ open w' = open w /\ passed w' = passed w /\ (lucky = true -> fates w' = [] /\ f = Works).
Proof.
  intros Hl. unfold next_fate. destruct (fates w) as [|f rest] eqn:E; [done|].
  split_and!; [done..|]. by intros ?%Hl.
Qed.

Lemma triple_call f (P : assertion) Q :
  (forall d o, P d o -> Q (inr tt) (f d) o /\ C (f d)) ->
  (lucky = false -> forall d o, P d o -> Q (inl Fault) d o) ->
  triple lucky C P (call f) Q.
Proof.
  intros Hok Hfail w Hw Hl. unfold call. pose proof (next_fate_spec w Hl) as Hf.
  destruct (next_fate w) as [w1 [|kept]]; destruct Hf as (E1 & E2 & E3 & E4).
  - destruct (Hok _ _ Hw) as [HQ HC]. cbn. rewrite E1, E2, E3. split_and!; [done|apply E4|].
    exists [f (fs w)]. split; [done|]. by constructor.
  - rewrite E1, E2, E3. split_and!; [|by intros [_ ?]%E4|exists []; by rewrite app_nil_r].
    apply Hfail; [|done]. destruct lucky; [|done]. by destruct E4.
Qed.

Lemma triple_look {A} (f : files -> io_error + A) (P : assertion) Q :
  (forall d o, P d o -> Q (f d) d o) -> (lucky = false -> forall d o, P d o -> Q (inl Fault) d o) ->
  triple lucky C P (look f) Q.
Proof.
  intros Hok Hfail w Hw Hl. unfold look. pose proof (next_fate_spec w Hl) as Hf.
  destruct (next_fate w) as [w1 [|kept]]; destruct Hf as (E1 & E2 & E3 & E4); rewrite E1, E2, E3.
  - split_and!; [by apply Hok|apply E4|exists []; by rewrite app_nil_r].
  - split_and!; [|by intros [_ ?]%E4|exists []; by rewrite app_nil_r].
    apply Hfail; [|done]. destruct lucky; [|done]. by destruct E4.
Qed.

Lemma triple_remove name (P : assertion) Q :
  (forall d o, P d o -> match d !! name with
                        | None => Q (inl NotExist) d o
                        | Some _ => Q (inr tt) (delete name d) o /\ C (delete name d)
                        end) ->
  (lucky = false -> forall d o, P d o -> Q (inl Fault) d o) ->
  triple lucky C P (sys_remove name) Q.
Proof.
  intros Hok Hfail w Hw Hl. unfold sys_remove. pose proof (next_fate_spec w Hl) as Hf.
  destruct (next_fate w) as [w1 [|kept]]; destruct Hf as (E1 & E2 & E3 & E4).
  - rewrite E1. specialize (Hok _ _ Hw). destruct (fs w !! name).
    + destruct Hok as [HQ HC]. cbn. rewrite E1, E2, E3. split_and!; [done|apply E4|].
      exists [delete name (fs w)]. split; [done|]. by constructor.
    + rewrite E1, E2, E3. split_and!; [done|apply E4|exists []; by rewrite app_nil_r].
  - rewrite E1, E2, E3. split_and!; [|by intros [_ ?]%E4|exists []; by rewrite app_nil_r].
    apply Hfail; [|done]. destruct lucky; [|done]. by destruct E4.
Qed.

(** A write that works writes everything; one that fails writes some first bytes. *)
Lemma triple_write name data (P : assertion) Q :
  (forall d o sent whole, P d o -> (whole = true -> sent = data) -> (lucky = true -> whole = true) ->
    (exists kept, sent = take kept data) ->
    Q (inr (zlen sent, whole)) (<[name := default [] (d !! name) ++ sent]> d) o /\
    C (<[name := default [] (d !! name) ++ sent]> d)) ->
  triple lucky C P (sys_write name data) Q.
Proof.
  intros Hok w Hw Hl. unfold sys_write. pose proof (next_fate_spec w Hl) as Hf.
  destruct (next_fate w) as [w1 f]; destruct Hf as (E1 & E2 & E3 & E4).
  assert (Hsent : exists sent whole, sent = (match f with Works => data | Fails kept => take kept data end) /\
    whole = (match f with Works => true | Fails _ => false end) /\
    (whole = true -> sent = data) /\ (lucky = true -> whole = true) /\ exists kept, sent = take kept data).
  { destruct f as [|kept]; eexists _, _; split_and!; try done.
    - exists (length data). by rewrite take_ge.
    - by intros [_ ?]%E4.
    - by exists kept. }
  destruct Hsent as (sent & whole & <- & <- & H1 & H2 & H3).
  destruct (Hok _ _ sent whole Hw H1 H2 H3) as [HQ HC]. cbn. rewrite E1, E2, E3.
  split_and!; [done|apply E4|]. eexists. split; [done|]. by constructor.
Qed.

Lemma triple_directory (P : assertion) Q :
  (forall d o, P d o -> Q (inr d) d o) -> triple lucky C P directory Q.
Proof. intros HP w Hw Hl. cbn. split_and!; [by apply HP|done|]. exists []. by rewrite app_nil_r. Qed.

Lemma triple_held id (P : assertion) Q :
  (forall d o, P d o -> Q (inr (o !! id)) d o) -> triple lucky C P (heldWriter id) Q.
Proof. intros HP w Hw Hl. cbn. split_and!; [by apply HP|done|]. exists []. by rewrite app_nil_r. Qed.

Lemma triple_set f (P : assertion) Q :
  (forall d o, P d o -> Q (inr tt) d (f o)) -> triple lucky C P (set_writers f) Q.
Proof. intros HP w Hw Hl. cbn. split_and!; [by apply HP|done|]. exists []. by rewrite app_nil_r. Qed.

(** A sync or a close whose outcome [k] looks at. *)
Lemma triple_tried {B} (k : io_error + unit -> io B) (P : assertion) Q :
  (lucky = false -> forall e, triple lucky C P (k (inl e)) Q) -> triple lucky C P (k (inr tt)) Q ->
  triple lucky C P (bind (attempt (look (fun _ => inr tt))) k) Q.
Proof.
  intros He Hk. apply (triple_bind _ _ _ (fun a d o => P d o /\ match a with
    | inr (inl _) => lucky = false | inr (inr _) => True | inl _ => False end)).
  - apply triple_attempt, triple_look; [by intros d o ?|by intros Hl d o ?].
  - intros [e|[]]; apply triple_state; intros d o [HP Hx]; eapply triple_pre;
      [by apply (He Hx)|by intros d1 o1 [-> ->]|exact Hk|by intros d1 o1 [-> ->]].
  - by intros e d o [_ ?].
Qed.

(** A close whose outcome is dropped. *)
Lemma triple_dropped {B} (m : io B) (P : assertion) Q :
  triple lucky C P m Q -> triple lucky C P (attempt sys_close;;; m) Q.
Proof. intros Hm. by apply triple_tried. Qed.

Lemma triple_put {B} f (m : io B) d0 o0 Q :
  triple lucky C (fun d o => d = d0 /\ o = f o0) m Q ->
  triple lucky C (fun d o => d = d0 /\ o = o0) (set_writers f;;; m) Q.
Proof.
  intros Hm. apply (triple_bind _ _ _ (fun a d o => d = d0 /\ match a with inr _ => o = f o0 | inl _ => False end)).
  - apply triple_set. by intros d o [-> ->].
  - by intros [].
  - by intros e d o [_ ?].
Qed.

Lemma triple_asked {B} id (k : option segmentWriter -> io B) d0 o0 Q :
  triple lucky C (fun d o => d = d0 /\ o = o0) (k (o0 !! id)) Q ->
  triple lucky C (fun d o => d = d0 /\ o = o0) (bind (heldWriter id) k) Q.
Proof.
  intros Hk. apply (triple_bind _ _ _ (fun a d o => a = inr (o0 !! id) /\ d = d0 /\ o = o0)).
  - apply triple_held. by intros d o [-> ->].
  - intros held. apply triple_state. by intros d o ([= ->] & -> & ->).
  - by intros e d o [? _].
Qed.

End rules.

(** ** File names *)

Section names.

Lemma chars_app a b :
  String.list_ascii_of_string (a ++ b)%string = String.list_ascii_of_string a ++ String.list_ascii_of_string b.
Proof. induction a as [|c a IH]; [done|]. cbn. by rewrite <- IH. Qed.

Lemma chars_inj a b : String.list_ascii_of_string a = String.list_ascii_of_string b -> a = b.
Proof. intros E. by rewrite <- (String.string_of_list_ascii_of_string a), E, String.string_of_list_ascii_of_string. Qed.

(** The last character of a name tells its kind. *)
Definition ends (s : string) : option Ascii.ascii := last (String.list_ascii_of_string s).

Lemma ends_app p s : s <> ""%string -> ends (p ++ s)%string = ends s.
Proof.
  intros Hs. unfold ends. rewrite chars_app, last_app. destruct (last (String.list_ascii_of_string s)) eqn:E; [done|].
  apply last_None in E. destruct Hs. by apply chars_inj.
Qed.

Lemma string_app_cancel p a b s : (p ++ a ++ s)%string = (p ++ b ++ s)%string -> a = b.
Proof.
  intros E%(f_equal String.list_ascii_of_string). rewrite !chars_app in E. apply app_inv_head, app_inv_tail in E.
  by apply chars_inj.
Qed.

Lemma number_inj a b : number a = number b -> a = b.
Proof. apply (inj (pretty : Z -> string)). Qed.

Lemma number_0 : number 0 = "0"%string.
Proof. vm_compute. reflexivity. Qed.

Lemma number_1 : number 1 = "1"%string.
Proof. vm_compute. reflexivity. Qed.

(** Paths of a shape [prefix ++ number id ++ suffix]. *)
Lemma recordPath_shape id : recordPath id = ("v1-" ++ number id ++ ".json")%string.
Proof. done. Qed.

Lemma segmentPath_shape id seg : segmentPath id seg = (("v1-" ++ number id ++ ".out") ++ number seg)%string.
Proof. apply chars_inj. unfold segmentPath, recordVersion. by rewrite !chars_app, <- !app_assoc. Qed.

Lemma recordPath_inj a b : recordPath a = recordPath b -> a = b.
Proof. rewrite !recordPath_shape. intros E%string_app_cancel. by apply number_inj. Qed.

Definition two_segments (seg : Z) : Prop := seg = 0 \/ seg = 1.

Lemma ends_record id : ends (recordPath id) = ends ".json".
Proof.
  replace (recordPath id) with (("v1-" ++ number id) ++ ".json")%string; [by rewrite ends_app|].
  rewrite recordPath_shape. apply chars_inj. by rewrite !chars_app, <- !app_assoc.
Qed.

Lemma ends_segment id seg : two_segments seg -> ends (segmentPath id seg) = ends (number seg).
Proof. rewrite segmentPath_shape. intros [->| ->]; rewrite ?number_0, ?number_1; by rewrite ends_app. Qed.

Lemma segment_not_record a seg b : two_segments seg -> segmentPath a seg <> recordPath b.
Proof.
  intros Hseg E%(f_equal ends). rewrite ends_record, ends_segment in E by done.
  by destruct Hseg as [->| ->]; rewrite ?number_0, ?number_1 in E.
Qed.

Lemma segment_other id seg : two_segments seg -> segmentPath id seg <> segmentPath id (1 - seg).
Proof.
  intros Hseg E%(f_equal ends). rewrite !ends_segment in E by (unfold two_segments in *; lia).
  by destruct Hseg as [->| ->]; cbn in E; rewrite ?number_0, ?number_1 in E.
Qed.

Lemma segment_other_session a b seg seg' : two_segments seg -> two_segments seg' -> a <> b ->
  segmentPath a seg <> segmentPath b seg'.
Proof.
  intros Hs Hs' Hne E. assert (Hend : ends (number seg) = ends (number seg'))
    by (rewrite <- (ends_segment a seg), <- (ends_segment b seg'), E by done; done).
  assert (seg = seg') as <- by (by destruct Hs as [->| ->], Hs' as [->| ->]; rewrite ?number_0, ?number_1 in Hend).
  apply Hne, number_inj. apply (string_app_cancel "v1-" _ _ (".out" ++ number seg)).
  exact E.
Qed.

Lemma staged_shape `{Platform} id d :
  stagedPath id d = ((recordPath id ++ "." ++ stagedSuffix d) ++ ".next")%string.
Proof. apply chars_inj. unfold stagedPath. by rewrite !chars_app, <- !app_assoc. Qed.

Lemma ends_staged `{Platform} id d : ends (stagedPath id d) = ends ".next".
Proof. rewrite staged_shape. by rewrite ends_app. Qed.

Lemma staged_not_record `{Platform} a d b : stagedPath a d <> recordPath b.
Proof. intros E%(f_equal ends). by rewrite ends_record, ends_staged in E. Qed.

Lemma staged_not_segment `{Platform} a d b seg : two_segments seg -> stagedPath a d <> segmentPath b seg.
Proof.
  intros Hseg E%(f_equal ends). rewrite ends_staged, ends_segment in E by done.
  by destruct Hseg as [->| ->]; rewrite ?number_0, ?number_1 in E.
Qed.

(** A record is listed under its id; no other file the store makes is listed. *)
Lemma listed_record id : is_u64 id -> listed (recordPath id) = Some id.
Proof.
  intros Hid. unfold listed. change (recordVersion ++ "-")%string with "v1-"%string.
  assert (Hs : HasSuffix (recordPath id) ".json" = true).
  { rewrite recordPath_shape. replace ("v1-" ++ number id ++ ".json")%string with (("v1-" ++ number id) ++ ".json")%string
      by (apply chars_inj; by rewrite !chars_app, <- !app_assoc). apply HasSuffix_app. }
  rewrite Hs, recordPath_shape, HasPrefix_app, TrimPrefix_app, TrimSuffix_app. by apply parse_number.
Qed.

Lemma listed_ends name : listed name <> None -> ends name = ends ".json".
Proof.
  unfold listed, HasSuffix. destruct (HasPrefix _ _); cbn [andb]; [|done].
  destruct (cut_suffix ".json" name) as [x|] eqn:E; [|done]. apply cut_suffix_inv in E as ->. by rewrite ends_app.
Qed.

Lemma listed_segment id seg : two_segments seg -> listed (segmentPath id seg) = None.
Proof.
  intros Hs. destruct (listed (segmentPath id seg)) eqn:E; [|done].
  assert (He := listed_ends (segmentPath id seg) ltac:(by rewrite E)). rewrite ends_segment in He by done.
  by destruct Hs as [->| ->]; rewrite ?number_0, ?number_1 in He.
Qed.

Lemma listed_staged `{Platform} id d : listed (stagedPath id d) = None.
Proof.
  destruct (listed (stagedPath id d)) eqn:E; [|done].
  assert (He := listed_ends (stagedPath id d) ltac:(by rewrite E)). by rewrite ends_staged in He.
Qed.

End names.

(** ** Publishing a record *)

Section publishing.
Context `{Platform} (lucky : bool).

(** A directory between the old record and the new one: nothing but the record's file and
    the staged one differs from [d0], and the record's file is whole. *)
Definition between (d0 : files) (record : sessionRecord) (d : files) : Prop :=
  let target := recordPath (Session record) in
  let name := stagedPath (Session record) d0 in
  (forall n, n <> target -> n <> name -> d !! n = d0 !! n) /\
  (d !! target = d0 !! target \/ d !! target = Some (Marshal record ++ newline)).

Definition published (d0 : files) (o0 : gmap Z segmentWriter) (record : sessionRecord)
    (answer : io_error + unit) : assertion := fun d o =>
  o = o0 /\ between d0 record d /\
  (answer = inr tt -> d = <[recordPath (Session record) := Marshal record ++ newline]> d0) /\
  (lucky = true -> answer = inr tt).

Lemma between_staged d0 record c :
  between d0 record (<[stagedPath (Session record) d0 := c]> d0).
Proof.
  split; [intros n _ Hn; by rewrite lookup_insert_ne by (intros E; by apply Hn)|]. left.
  rewrite lookup_insert_ne; [done|]. apply staged_not_record.
Qed.

Lemma between_self d0 record : between d0 record d0.
Proof. split; [done|by left]. Qed.

(** The calls after a failure: nothing of the record changes, whatever they do. *)
Lemma give_up_remove d0 o0 record C c e : lucky = false ->
  (forall d, between d0 record d -> C d) ->
  d0 !! stagedPath (Session record) d0 = None ->
  triple lucky C (fun d o => d = <[stagedPath (Session record) d0 := c]> d0 /\ o = o0)
    (attempt (sys_remove (stagedPath (Session record) d0));;; fail e) (published d0 o0 record).
Proof.
  intros Hl HC Hfresh.
  assert (Hb : forall e d, d = <[stagedPath (Session record) d0 := c]> d0 \/ d = d0 ->
    published d0 o0 record (inl e) d o0).
  { clear e. intros e d Hd. split_and!; [done| |done|congruence].
    destruct Hd as [->| ->]; [apply between_staged|apply between_self]. }
  apply (triple_bind _ _ _ _ _ (fun _ d o =>
    (d = <[stagedPath (Session record) d0 := c]> d0 \/ d = d0) /\ o = o0)).
  - apply triple_attempt, triple_remove.
    + intros d o [-> ->]. rewrite lookup_insert_eq, delete_insert_id by done.
      split; [by split; [right|]|]. apply HC, between_self.
    + intros _ d o [-> ->]. by split; [left|].
  - intros x. apply triple_fail. intros d o [Hd ->]. by apply Hb.
  - intros e' d o [Hd ->]. by apply Hb.
Qed.

(** The record as it was, whatever fails before the rename. *)
Lemma published_not d0 o0 record e : lucky = false -> published d0 o0 record (inl e) d0 o0.
Proof. intros Hl. split_and!; [done|apply between_self|done|congruence]. Qed.

Lemma between_renamed d0 record : between d0 record (<[recordPath (Session record) := Marshal record ++ newline]> d0).
Proof.
  split; [intros n Hn _; by rewrite lookup_insert_ne by (intros E; by apply Hn)|]. right. apply lookup_insert_eq.
Qed.

Section staging.
Context (C : files -> Prop) (d0 : files) (o0 : gmap Z segmentWriter) (record : sessionRecord).
Context (HC : forall d, between d0 record d -> C d) (Hfresh : d0 !! stagedPath (Session record) d0 = None).

Abbreviation name := (stagedPath (Session record) d0).
Abbreviation target := (recordPath (Session record)).
Abbreviation body := (Marshal record ++ newline).
Abbreviation staged c := (fun (d : files) (o : gmap Z segmentWriter) => d = <[name := c]> d0 /\ o = o0).

(** The syncs of the directory, once the record is in place. *)
Lemma renamed_triple (durable : bool) :
  triple lucky C (fun d o => d = <[target := body]> d0 /\ o = o0)
    (if durable then sys_sync;;; sys_sync else ret tt) (published d0 o0 record).
Proof.
  assert (Hdone : forall a : io_error + unit, (lucky = true -> a = inr tt) ->
    published d0 o0 record a (<[target := body]> d0) o0).
  { intros a Ha. split_and!; [done|apply between_renamed|done|done]. }
  destruct durable; [|apply triple_ret; intros d o [-> ->]; by apply Hdone].
  apply (triple_bind _ _ _ _ _ (fun a d o => d = <[target := body]> d0 /\ o = o0 /\
      match a with inl _ => lucky = false | inr _ => True end)).
  { apply triple_look; [by intros d o [-> ->]|]. by intros Hl d o [-> ->]. }
  - intros []. apply triple_look.
    + intros d o (-> & -> & _). by apply Hdone.
    + intros Hl d o (-> & -> & _). apply Hdone. congruence.
  - intros e d o (-> & -> & Hl). apply Hdone. congruence.
Qed.

Lemma rename_triple (durable : bool) :
  triple lucky C (staged body)
    (do renamed <- attempt (sys_rename name target);
     match renamed with
     | inl e => attempt (sys_remove name);;; fail e
     | inr _ => if durable then sys_sync;;; sys_sync else ret tt
     end) (published d0 o0 record).
Proof.
  apply (triple_bind _ _ _ _ _ (fun a d o => match a with
      | inr (inl _) => staged body d o /\ lucky = false
      | inr (inr _) => d = <[target := body]> d0 /\ o = o0 | inl _ => False end)); [| |done].
  - apply triple_attempt, triple_call; [|done]. intros d o [-> ->].
    rewrite lookup_insert_eq, delete_insert_id by done. split; [done|]. apply HC, between_renamed.
  - intros [e|[]]; [|apply renamed_triple]. apply triple_state. intros d o ([-> ->] & Hl). by apply give_up_remove.
Qed.

Lemma staged_triple (durable : bool) c (whole : bool) : (whole = true -> c = body) -> (lucky = true -> whole = true) ->
  triple lucky C (staged c)
    (if negb whole then attempt sys_close;;; attempt (sys_remove name);;; fail Fault
     else
      do synced <- (if durable then attempt sys_sync else ret (inr tt));
      match synced with
      | inl e => attempt sys_close;;; attempt (sys_remove name);;; fail e
      | inr _ =>
          do closed <- attempt sys_close;
          match closed with
          | inl e => attempt (sys_remove name);;; fail e
          | inr _ =>
              do renamed <- attempt (sys_rename name target);
              match renamed with
              | inl e => attempt (sys_remove name);;; fail e
              | inr _ => if durable then sys_sync;;; sys_sync else ret tt
              end
          end
      end) (published d0 o0 record).
Proof.
  intros Hwhole Hlk. destruct whole; cbn [negb].
  2:{ apply triple_dropped, give_up_remove; [|done..]. destruct lucky; [by specialize (Hlk eq_refl)|done]. }
  rewrite (Hwhole eq_refl). clear Hwhole Hlk c.
  assert (Hclose : triple lucky C (staged body)
    (do closed <- attempt sys_close;
     match closed with
     | inl e => attempt (sys_remove name);;; fail e
     | inr _ =>
         do renamed <- attempt (sys_rename name target);
         match renamed with
         | inl e => attempt (sys_remove name);;; fail e
         | inr _ => if durable then sys_sync;;; sys_sync else ret tt
         end
     end) (published d0 o0 record)).
  { apply triple_tried; [|apply rename_triple]. intros Hl e. by apply give_up_remove. }
  destruct durable; [|exact Hclose].
  apply triple_tried; [|exact Hclose]. intros Hl e. by apply triple_dropped, give_up_remove.
Qed.

Lemma publish_triple durable :
  triple lucky C (fun d o => d = d0 /\ o = o0) (publish record durable) (published d0 o0 record).
Proof.
  unfold publish. eapply triple_bind; [apply (triple_directory _ _ _ (fun a d o => a = inr d0 /\ d = d0 /\ o = o0))| |];
    [by intros d o [-> ->]| |by intros e d o [? _]].
  intros d1. apply triple_state. intros d2 o2 ([= ->] & -> & ->).
  apply (triple_bind _ _ _ _ _ (fun a d o => match a with
      | inr _ => staged [] d o | inl _ => lucky = false /\ d = d0 /\ o = o0 end)).
  { apply triple_call; [|by intros Hl d o [-> ->]]. intros d o [-> ->]. split; [done|]. apply HC, between_staged. }
  2:{ intros e d o (Hl & -> & ->). by apply published_not. }
  intros _. apply (triple_bind _ _ _ _ _ (fun a d o => match a with
      | inr (_, whole) => exists c, staged c d o /\ (whole = true -> c = body) /\ (lucky = true -> whole = true)
      | inl _ => False end)); [| |done].
  - apply triple_write. intros d o sent whole [-> ->] Hw Hlk _. rewrite lookup_insert_eq, insert_insert_eq.
    split; [exists sent; done|]. apply HC, between_staged.
  - intros [count whole]. apply triple_state. intros d3 o3 (c & [-> ->] & Hwhole & Hlk). by apply staged_triple.
Qed.

End staging.

End publishing.

(** ** The output a session's files hold *)

(** What the store relies on of JSON and of temporary names.  A record reads back as it was
    written; of encoding/json this holds as long as its strings are valid UTF-8, for it
    replaces what is not, so a path or a command line with other bytes in it is left out of
    the theorems that assume the class. *)
Class PlatformLaws `{Platform} : Prop := {
  parse_record : forall r, Unmarshal (Marshal r ++ newline) = Some r;
  staged_free : forall id d, d !! stagedPath id d = None
}.

(** The last [n] bytes. *)
Definition last_bytes (n : Z) (l : octets) : octets :=
  if n <=? 0 then [] else if n <? zlen l then slice_from (zlen l - n) l else l.

(** Chunks handed over one after the other, the first of them beginning at [at_]. *)
Fixpoint appends `{Platform} (id at_ : Z) (chunks : list octets) : io unit :=
  match chunks with
  | [] => ret tt
  | chunk :: rest => append id chunk (at_ + zlen chunk);;; appends id (at_ + zlen chunk) rest
  end.

(** The answer of [output] after a crash that left the directory [d]. *)
Definition output_after_crash `{Platform} (d : files) (id atMost : Z) : io_error + (octets * Z) :=
  snd (output id atMost (mkWorld d ∅ [] [])).

(** The answer of [read] after a crash that left the directory [d]. *)
Definition record_after_crash `{Platform} (d : files) (id : Z) : io_error + sessionRecord :=
  snd (read id (mkWorld d ∅ [] [])).

Section stored.
Context `{PlatformLaws}.

Definition segment_bytes (id seg : Z) (d : files) : octets := default [] (d !! segmentPath id seg).

(** The record [r] is published, and the two segments hold the output from [start] on: the
    current one from [Written r], the other what comes before it. *)
Record stored (id : Z) (hist : octets) (r : sessionRecord) (start : Z) (d : files) : Prop := {
  record_there : d !! recordPath id = Some (Marshal r ++ newline);
  record_own : Session r = id;
  record_segment : two_segments (Segment r);
  record_bounds : 0 <= start <= Written r /\ Written r <= zlen hist;
  newer_bytes : segment_bytes id (Segment r) d = slice_from (Written r) hist;
  older_bytes : segment_bytes id (1 - Segment r) d = range start (Written r) hist
}.

(** A writer that holds a file open holds the current one, at its end. *)
Definition writer_ok (id : Z) (hist : octets) (r : sessionRecord) (o : gmap Z segmentWriter) : Prop :=
  match o !! id with
  | Some writer => file writer = true -> segment writer = Segment r /\ written writer = zlen hist - Written r
  | None => True
  end.

(** Only the output fields of a record move with the output. *)
Definition same_facts (r r' : sessionRecord) : Prop :=
  r' = r <| Segment := Segment r' |> <| Written := Written r' |>.

(** The bounds on what is retained of an output counted through [n], when every chunk fits
    a segment: all of it, or more than one segment holds; and no segment over its bound. *)
Definition retention (n : Z) (hist : octets) (r : sessionRecord) (start : Z) : Prop :=
  (start = 0 \/ outputSegmentBound < n - start) /\
  zlen hist - Written r <= outputSegmentBound /\ Written r - start <= outputSegmentBound.

(** The files hold [hist] under a record that differs from [r0] in the output fields only. *)
Definition holds (id : Z) (r0 : sessionRecord) (n : Z) (hist : octets) (d : files) : Prop :=
  exists r start, same_facts r0 r /\ stored id hist r start d /\ retention n hist r start.

(** Where a crash in the middle of an append leaves the files: with a first part of the
    chunk, possibly none and possibly all of it. *)
Definition mid_append (id : Z) (r0 : sessionRecord) (n : Z) (hist data : octets) (d : files) : Prop :=
  exists sent, sent `prefix_of` data /\ holds id r0 n (hist ++ sent) d.

Lemma stored_view id hist r start d d' :
  d' !! recordPath id = d !! recordPath id ->
  (forall seg, two_segments seg -> segment_bytes id seg d' = segment_bytes id seg d) ->
  stored id hist r start d -> stored id hist r start d'.
Proof.
  intros Hr Hs [H1 H2 H3 H4 H5 H6]. split; try done.
  - by rewrite Hr.
  - by rewrite Hs.
  - rewrite Hs; [done|]. unfold two_segments in *. lia.
Qed.

Lemma stored_between id hist r start d record d' : two_segments (Segment r) ->
  stored id hist r start d -> Session record = id -> between d record d' ->
  d' !! recordPath id = d !! recordPath id -> stored id hist r start d'.
Proof.
  intros Hseg Hst <- [Hframe _] Hrec. apply (stored_view _ _ _ _ d); [done| |done].
  intros seg Hs. unfold segment_bytes. rewrite Hframe; [done|by apply segment_not_record|].
  intros E. symmetry in E. by apply staged_not_segment in E.
Qed.

(** A record of the same output fields in the place of the old one. *)
Lemma stored_rewrite id hist r start d record d' : stored id hist r start d ->
  Session record = id -> Segment record = Segment r -> Written record = Written r ->
  between d record d' -> d' !! recordPath id = Some (Marshal record ++ newline) ->
  stored id hist record start d'.
Proof.
  intros [H1 H2 H3 H4 H5 H6] Hid Hseg Hwr [Hframe _] Hnew.
  assert (Hview : forall seg, two_segments seg -> segment_bytes id seg d' = segment_bytes id seg d).
  { intros seg Hs. unfold segment_bytes. rewrite Hframe; [done|rewrite Hid; by apply segment_not_record|].
    intros E. symmetry in E. by apply staged_not_segment in E. }
  split; rewrite ?Hseg, ?Hwr; try done.
  - by rewrite Hview.
  - rewrite Hview; [done|]. unfold two_segments in *. lia.
Qed.

Definition touch (name : string) (d : files) : files :=
  match d !! name with Some _ => d | None => <[name := []]> d end.

Lemma touch_default name n d : default [] (touch name d !! n) = default [] (d !! n).
Proof.
  unfold touch. destruct (d !! name) as [b|] eqn:E; [done|].
  destruct (decide (n = name)) as [->|Hne]; [by rewrite lookup_insert_eq, E|by rewrite lookup_insert_ne].
Qed.

Lemma touch_other name n d : n <> name -> touch name d !! n = d !! n.
Proof. intros Hn. unfold touch. destruct (d !! name); [done|]. by rewrite lookup_insert_ne. Qed.

Lemma stored_touch id hist r start seg d : two_segments seg -> stored id hist r start d ->
  stored id hist r start (touch (segmentPath id seg) d).
Proof.
  intros Hs. apply stored_view; [|intros; apply touch_default].
  apply touch_other. intros E. symmetry in E. by apply segment_not_record in E.
Qed.

(** Dropping the older segment leaves the output from the current one on. *)
Lemma stored_drop id hist r start d : stored id hist r start d ->
  stored id hist r (Written r) (delete (segmentPath id (1 - Segment r)) d).
Proof.
  intros [H1 H2 H3 H4 H5 H6].
  assert (Hother : two_segments (1 - Segment r)) by (unfold two_segments in *; lia).
  split; try done.
  - rewrite lookup_delete_ne; [done|]. by apply segment_not_record.
  - lia.
  - unfold segment_bytes in *. rewrite lookup_delete_ne; [done|]. intros E. symmetry in E. by apply segment_other in E.
  - unfold segment_bytes. rewrite lookup_delete_eq. cbn. unfold range, slice_to. by rewrite Z.sub_diag.
Qed.

(** The roll's record: the segment just emptied becomes the current one, which begins where
    the output has come to. *)
Definition rolled (r : sessionRecord) (at_ : Z) : sessionRecord :=
  r <| Segment := 1 - Segment r |> <| Written := at_ |>.

Lemma rolled_facts r at_ : same_facts r (rolled r at_).
Proof. done. Qed.

Lemma stored_rolled id hist r d d' :
  stored id hist r (Written r) d -> segment_bytes id (1 - Segment r) d = [] ->
  between d (rolled r (zlen hist)) d' ->
  d' !! recordPath id = Some (Marshal (rolled r (zlen hist)) ++ newline) ->
  stored id hist (rolled r (zlen hist)) (Written r) d'.
Proof.
  intros [H1 H2 H3 H4 H5 H6] Hempty [Hframe _] Hnew. change (Session (rolled r (zlen hist))) with (Session r) in Hframe.
  assert (Hview : forall seg, two_segments seg -> segment_bytes id seg d' = segment_bytes id seg d).
  { intros seg Hs. unfold segment_bytes. rewrite Hframe; [done|rewrite H2; by apply segment_not_record|].
    intros E. symmetry in E. by apply staged_not_segment in E. }
  assert (Hother : two_segments (1 - Segment r)) by (unfold two_segments in *; lia).
  split; try done.
  - cbn. lia.
  - change (segment_bytes id (1 - Segment r) d' = slice_from (zlen hist) hist).
    by rewrite Hview, Hempty, slice_from_all by (done || lia).
  - change (segment_bytes id (1 - (1 - Segment r)) d' = range (Written r) (zlen hist) hist).
    replace (1 - (1 - Segment r)) with (Segment r) by lia. by rewrite Hview, H5, range_full by (done || lia).
Qed.

(** Bytes appended to the current segment. *)
Lemma stored_written id hist r start d data : stored id hist r start d ->
  stored id (hist ++ data) r start
    (<[segmentPath id (Segment r) := default [] (d !! segmentPath id (Segment r)) ++ data]> d).
Proof.
  intros [H1 H2 H3 H4 H5 H6]. pose proof (zlen_nonneg data). split; try done.
  - rewrite lookup_insert_ne; [done|]. by apply segment_not_record.
  - rewrite zlen_app. lia.
  - unfold segment_bytes in *. rewrite lookup_insert_eq. cbn. rewrite H5. by rewrite slice_from_app by lia.
  - unfold segment_bytes in *. rewrite lookup_insert_ne by by apply segment_other.
    rewrite H6. by rewrite range_app_l by lia.
Qed.

End stored.

(** ** The operations on a session's files *)

Section operations.
Context `{PlatformLaws} (lucky : bool).

Lemma read_triple C id hist r start d0 o0 : stored id hist r start d0 ->
  triple lucky C (fun d o => d = d0 /\ o = o0) (read id)
    (fun a d o => d = d0 /\ o = o0 /\ match a with inr x => x = r | inl _ => lucky = false end).
Proof.
  intros [H1 H2 _ _ _ _]. unfold read.
  apply (triple_bind _ _ _ _ _ (fun a d o => d = d0 /\ o = o0 /\
    match a with inr x => x = Marshal r ++ newline | inl _ => lucky = false end)).
  - apply triple_look; [|by intros Hl d o [-> ->]]. intros d o [-> ->]. by rewrite H1.
  - intros x. apply triple_state. intros d o (-> & -> & ->). rewrite parse_record, H2, Z.eqb_refl.
    apply triple_ret. by intros d o [-> ->].
  - done.
Qed.

Lemma openInto_triple C id hist r start d0 o0 : stored id hist r start d0 ->
  C (touch (segmentPath id (Segment r)) d0) ->
  triple lucky C (fun d o => d = d0 /\ o = o0) (openInto id (Segment r))
    (fun a d o => stored id hist r start d /\ match a with
      | inr writer => writer = mkWriter true (Segment r) (zlen hist - Written r) /\ o = <[id := writer]> o0
      | inl _ => lucky = false /\ o = o0 end).
Proof.
  intros Hst HC. assert (Hseg := record_segment _ _ _ _ _ Hst). unfold openInto.
  replace (negb (Segment r =? 0) && negb (Segment r =? 1)) with false by (by destruct Hseg as [->| ->]).
  assert (Hst' := stored_touch _ _ _ _ _ _ Hseg Hst). set (d1 := touch _ d0) in *.
  apply (triple_bind _ _ _ _ _ (fun a d o => o = o0 /\ match a with
    | inr _ => d = d1 | inl _ => lucky = false /\ stored id hist r start d end)).
  { apply triple_call; [by intros d o [-> ->]|]. by intros Hl d o [-> ->]. }
  2:{ by intros e d o (-> & ? & ?). }
  intros _. apply (triple_bind _ _ _ _ _ (fun a d o => o = o0 /\ d = d1 /\ match a with
    | inr (inr n) => n = zlen hist - Written r | inr (inl _) => lucky = false | inl _ => False end)).
  { apply triple_attempt, triple_look; [|by intros Hl d o [-> ->]]. intros d o [-> ->].
    destruct Hst' as [_ _ _ Hb Hn _]. unfold segment_bytes in Hn.
    assert (Hthere : exists b, d1 !! segmentPath id (Segment r) = Some b).
    { unfold d1, touch. destruct (d0 !! segmentPath id (Segment r)) as [b|] eqn:E; [by exists b|].
      exists []. apply lookup_insert_eq. }
    destruct Hthere as [b Eb]. rewrite Eb in Hn |- *. cbn in Hn. rewrite Hn, zlen_slice_from; [done|lia]. }
  2:{ by intros e d o (_ & _ & ?). }
  intros [e|n]; apply triple_state; intros d o (-> & -> & Hn).
  - apply triple_dropped, triple_fail. by intros d o [-> ->].
  - rewrite Hn. apply triple_put, triple_ret. by intros d o [-> ->].
Qed.

(** A record written in the place of the one that is there. *)
Lemma rewrite_triple (C : files -> Prop) id hist r start d0 o0 record durable :
  stored id hist r start d0 -> Session record = id ->
  Segment record = Segment r -> Written record = Written r ->
  (forall d, stored id hist r start d \/ stored id hist record start d -> C d) ->
  triple lucky C (fun d o => d = d0 /\ o = o0) (publish record durable)
    (fun a d o => o = o0 /\ (a = inr tt -> stored id hist record start d) /\ (lucky = true -> a = inr tt) /\
      (stored id hist r start d \/ stored id hist record start d)).
Proof.
  intros Hst Hid Hseg Hwr HC.
  assert (Hb : forall d, between d0 record d -> stored id hist r start d \/ stored id hist record start d).
  { intros d Hb. pose proof Hb as [_ [Hold|Hnew]]; rewrite Hid in *.
    - left. apply (stored_between _ _ _ _ d0 record); try done. apply Hst.
    - right. by apply (stored_rewrite _ _ r _ d0). }
  eapply triple_conseq; [apply (publish_triple lucky C d0 o0 record)| |].
  - intros d Hd. by apply HC, Hb.
  - apply staged_free.
  - intros d o Hd. exact Hd.
  - intros a d o (-> & Hbt & Hok & Hl). split_and!; [done| |done|by apply Hb].
    intros Ha. apply (stored_rewrite _ _ r _ d0); try done. rewrite (Hok Ha), Hid. apply lookup_insert_eq.
Qed.

(** The files after a roll, or where one stopped. *)
Definition mid_roll (id : Z) (hist : octets) (r : sessionRecord) (start : Z) (d : files) : Prop :=
  stored id hist r start d \/ stored id hist r (Written r) d \/
  stored id hist (rolled r (zlen hist)) (Written r) d.

Definition not_open (id : Z) (o : gmap Z segmentWriter) : Prop :=
  match o !! id with Some writer => file writer = false | None => True end.

(** What a roll answers. *)
Definition rolled_into (id : Z) (hist : octets) (r : sessionRecord) (start : Z) (a : io_error + segmentWriter) : assertion :=
  fun d o => match a with
    | inr w => w = mkWriter true (1 - Segment r) 0 /\ o !! id = Some w /\ stored id hist (rolled r (zlen hist)) (Written r) d
    | inl _ => lucky = false /\ not_open id o /\ mid_roll id hist r start d
    end.

Lemma between_rolled id hist r d1 d : stored id hist r (Written r) d1 -> segment_bytes id (1 - Segment r) d1 = [] ->
  between d1 (rolled r (zlen hist)) d ->
  stored id hist r (Written r) d \/ stored id hist (rolled r (zlen hist)) (Written r) d.
Proof.
  intros Hst Hempty Hb. pose proof (record_own _ _ _ _ _ Hst) as Hid. pose proof Hb as [_ [Hold|Hnew]];
    change (Session (rolled r (zlen hist))) with (Session r) in *; rewrite Hid in *.
  - left. apply (stored_between _ _ _ _ d1 (rolled r (zlen hist))); try done. apply Hst.
  - right. by apply (stored_rolled _ _ _ d1).
Qed.

(** The second half of a roll: the other segment is gone, the record names it. *)
Lemma rolled_triple (C : files -> Prop) id hist r start :
  (forall d, mid_roll id hist r start d -> C d) ->
  triple lucky C (fun d o => not_open id o /\ stored id hist r (Written r) d /\ segment_bytes id (1 - Segment r) d = [])
    (do record <- read id;
     write (record <| Segment := 1 - Segment r |> <| Written := zlen hist |>);;; openInto id (1 - Segment r))
    (rolled_into id hist r start).
Proof.
  intros HC. apply triple_state. intros d1 o1 (Ho1 & Hst1 & Hempty).
  assert (Hnext : two_segments (1 - Segment r)) by (pose proof (record_segment _ _ _ _ _ Hst1); unfold two_segments in *; lia).
  pose proof (fun d => between_rolled id hist r d1 d Hst1 Hempty) as Hmid.
  eapply triple_bind; [by apply (read_triple C id hist r (Written r))| |].
  2:{ intros e d o (-> & -> & ->). split_and!; [done..|]. right. by left. }
  intros x. apply triple_state. intros d2 o2 (-> & -> & ->).
  change (r <| Segment := 1 - Segment r |> <| Written := zlen hist |>) with (rolled r (zlen hist)).
  eapply triple_bind; [apply (publish_triple lucky C d1 o1 (rolled r (zlen hist)))| |].
  - intros d [?|?]%Hmid; apply HC; right; [by left|by right].
  - apply staged_free.
  - intros []. apply triple_state. intros d o (-> & Hb & Hok & _).
    assert (Hst2 : stored id hist (rolled r (zlen hist)) (Written r) d).
    { apply (stored_rolled _ _ _ d1); try done. rewrite (Hok eq_refl).
      change (Session (rolled r (zlen hist))) with (Session r). rewrite (record_own _ _ _ _ _ Hst1). apply lookup_insert_eq. }
    eapply triple_conseq; [apply (openInto_triple C id hist (rolled r (zlen hist)) (Written r) d o1 Hst2)| |].
    + apply HC. right. right. by apply stored_touch.
    + done.
    + intros [e|w] d' o' [Hst3 Hw].
      * destruct Hw as [Hl ->]. split_and!; [done..|]. by right; right.
      * destruct Hw as [-> ->]. change (Written (rolled r (zlen hist))) with (zlen hist).
        unfold rolled_into. rewrite Z.sub_diag, lookup_insert_eq. done.
  - intros e d o (-> & Hb & _ & Hl). split_and!; [destruct lucky; [by specialize (Hl eq_refl)|done]|done|].
    right. by apply Hmid.
Qed.

Lemma roll_triple (C : files -> Prop) id hist r start d0 o0 writer :
  stored id hist r start d0 -> segment writer = Segment r ->
  (forall d, mid_roll id hist r start d -> C d) ->
  triple lucky C (fun d o => d = d0 /\ o = o0) (roll id writer (zlen hist)) (rolled_into id hist r start).
Proof.
  intros Hst Hseg HC. unfold roll. rewrite Hseg. set (next := 1 - Segment r).
  apply triple_dropped, triple_put.
  apply (triple_bind _ _ _ _ _ (fun a d o => not_open id o /\ match a with
    | inr (inr _) | inr (inl NotExist) => stored id hist r (Written r) d /\ segment_bytes id next d = []
    | inr (inl _) => lucky = false /\ stored id hist r start d
    | inl _ => False end)).
  - assert (Hno : not_open id (<[id := writer <| file := false |>]> o0)) by (unfold not_open; by rewrite lookup_insert_eq).
    apply triple_attempt, triple_remove; [|by intros Hl d o [-> ->]].
    intros d o [-> ->]. assert (Hdrop := stored_drop _ _ _ _ _ Hst). fold next in Hdrop.
    assert (Hnone : segment_bytes id next (delete (segmentPath id next) d0) = []).
    { unfold segment_bytes. by rewrite lookup_delete_eq. }
    destruct (d0 !! segmentPath id next) as [b|] eqn:E.
    + split; [done|]. apply HC. right. by left.
    + by rewrite delete_id in Hdrop, Hnone.
  - pose proof (rolled_triple C id hist r start HC) as Hrest.
    intros [[]|[]]; try exact Hrest; apply triple_fail; intros d o (? & ? & ?); by split_and!; [..|left].
  - by intros e d o [_ ?].
Qed.

(** What an append comes to, whatever fails: the files hold the output with some first part
    of the chunk, all of it when the append reports no error. *)
Definition appended (id : Z) (r0 : sessionRecord) (n : Z) (hist data : octets) (answer : io_error + unit) : assertion :=
  fun d o => exists sent, sent `prefix_of` data /\ (answer = inr tt -> sent = data) /\ (lucky = true -> answer = inr tt) /\
    exists r start, same_facts r0 r /\ stored id (hist ++ sent) r start d /\
      retention n (hist ++ sent) r start /\ writer_ok id (hist ++ sent) r o.

(** A writer ready for the chunk: open on the current segment, with room for it. *)
Definition ready (id : Z) (r0 : sessionRecord) (n : Z) (hist data : octets) (answer : io_error + segmentWriter) : assertion :=
  fun d o => exists r start, same_facts r0 r /\ stored id hist r start d /\
    retention n hist r start /\
    match answer with
    | inr writer => writer = mkWriter true (Segment r) (zlen hist - Written r) /\ o !! id = Some writer /\
        zlen hist + zlen data - Written r <= outputSegmentBound
    | inl _ => lucky = false /\ not_open id o
    end.

Lemma rolled_same r0 r at_ : same_facts r0 r -> same_facts r0 (rolled r at_).
Proof. unfold same_facts, rolled. intros E. rewrite E. reflexivity. Qed.

Lemma not_open_ok id hist r o : not_open id o -> writer_ok id hist r o.
Proof. unfold not_open, writer_ok. destruct (o !! id); [|done]. by intros ->. Qed.

Lemma ready_mid id r0 n hist data answer d o : ready id r0 n hist data answer d o -> mid_append id r0 n hist data d.
Proof.
  intros (r & start & Hf & Hst & Hret & _). exists []. split; [apply prefix_nil|].
  rewrite app_nil_r. by exists r, start.
Qed.

(** The bounds hold at every state of a roll that the bound asked for. *)
Lemma roll_retention id r0 r n (hist data : octets) start d :
  same_facts r0 r -> stored id hist r start d -> retention n hist r start -> zlen hist + zlen data <= n ->
  outputSegmentBound < zlen hist - Written r + zlen data ->
  forall d', mid_roll id hist r start d' ->
    exists r' start', same_facts r0 r' /\ stored id hist r' start' d' /\
      retention n hist r' start'.
Proof.
  intros Hf [_ _ _ Hb _ _] (R1 & R2 & R3) Hn Hover d' [Hd|[Hd|Hd]]; pose proof (zlen_nonneg data).
  - exists r, start. split_and!; [done..|]. unfold retention. lia.
  - exists r, (Written r). split_and!; [done..|]. unfold retention, outputSegmentBound in *. lia.
  - exists (rolled r (zlen hist)), (Written r). split_and!; [by apply rolled_same|done|].
    unfold retention, outputSegmentBound in *. cbn. lia.
Qed.

Lemma writer_triple C id hist r start d0 o0 :
  stored id hist r start d0 -> writer_ok id hist r o0 ->
  (forall d, stored id hist r start d -> C d) ->
  triple lucky C (fun d o => d = d0 /\ o = o0)
    (do writer <- writerFor id;
     if file writer then ret writer else do record <- read id; openInto id (Segment record))
    (fun a d o => stored id hist r start d /\ match a with
      | inr w => w = mkWriter true (Segment r) (zlen hist - Written r) /\ o !! id = Some w
      | inl _ => lucky = false /\ not_open id o end).
Proof.
  intros Hst Hok HC.
  apply (triple_bind _ _ _ _ _ (fun a d o => d = d0 /\ match a with
    | inr w => o !! id = Some w /\ (file w = true -> segment w = Segment r /\ written w = zlen hist - Written r)
    | inl _ => False end)).
  { unfold writerFor, writer_ok in *. apply triple_asked. destruct (o0 !! id) as [w|] eqn:Ew.
    - apply triple_ret. by intros d o [-> ->].
    - apply triple_put, triple_ret. intros d o [-> ->]. by rewrite lookup_insert_eq. }
  2:{ by intros e d o [_ ?]. }
  intros w. apply triple_state. intros d o (-> & Hw & Hopen). destruct (file w) eqn:Ef.
  - destruct (Hopen eq_refl) as [E1 E2]. apply triple_ret. intros d1 o1 [-> ->]. split_and!; [done| |done].
    destruct w; cbn in *. by subst.
  - assert (Hn : not_open id o) by (unfold not_open; by rewrite Hw).
    eapply triple_bind; [by apply (read_triple C id hist r start)| |by intros e d1 o1 (-> & -> & ->)].
    intros x. apply triple_state. intros d1 o1 (-> & -> & ->).
    eapply triple_conseq; [apply (openInto_triple C id hist r start d0 o Hst)| |].
    + by apply HC, stored_touch; [apply Hst|].
    + done.
    + intros [e|w'] d' o' [Hst' Hw']; split; [done| |done|].
      * by destruct Hw' as [-> ->].
      * destruct Hw' as [-> ->]. by rewrite lookup_insert_eq.
Qed.

(** A chunk that fits the segment needs no roll; a chunk that fits no segment rolls only
    when there is something in it. *)
Lemma room_triple (C : files -> Prop) id r0 n hist data r start d0 o0 :
  same_facts r0 r -> stored id hist r start d0 -> retention n hist r start -> zlen hist + zlen data <= n ->
  zlen data <= outputSegmentBound -> is_u64 (zlen hist + zlen data) ->
  (forall d, mid_append id r0 n hist data d -> C d) ->
  let writer := mkWriter true (Segment r) (zlen hist - Written r) in
  triple lucky C (fun d o => d = d0 /\ o = o0 /\ o !! id = Some writer)
    (if (outputSegmentBound <? written writer + zlen data) && (0 <? written writer)
     then roll id writer (zlen hist + zlen data -64 zlen data) else ret writer)
    (ready id r0 n hist data).
Proof.
  intros Hf Hst Hret Hlast Hfit H64 HC writer. pose proof (record_bounds _ _ _ _ _ Hst) as Hb.
  pose proof (zlen_nonneg data) as Hpos. cbn [written writer].
  destruct (Z.ltb_spec outputSegmentBound (zlen hist - Written r + zlen data)) as [Hover|Hover]; cbn [andb].
  - replace (0 <? zlen hist - Written r) with true by (symmetry; apply Z.ltb_lt; lia).
    rewrite sub64_small by (unfold is_u64 in *; lia).
    replace (zlen hist + zlen data - zlen data) with (zlen hist) by lia.
    assert (Hmid := roll_retention id r0 r n hist data start d0 Hf Hst Hret Hlast Hover).
    eapply triple_conseq; [apply (roll_triple C id hist r start d0 o0 writer Hst eq_refl)| |].
    + intros d (r' & start' & H1 & H2 & H3)%Hmid. apply HC. exists [].
      split; [apply prefix_nil|]. rewrite app_nil_r. by exists r', start'.
    + by intros d o (-> & -> & _).
    + intros [e|w] d o.
      * intros (Hl & Hn & (r' & start' & H1 & H2 & H3)%Hmid). exists r', start'. by split_and!.
      * intros (-> & Ho & Hst'). destruct (Hmid d) as (r' & start' & H1 & H2 & H3); [by right; right|].
        exists (rolled r (zlen hist)), (Written r). split_and!; [by apply rolled_same|done| | |done|].
        -- unfold retention, outputSegmentBound in *. cbn. lia.
        -- cbn. by rewrite Z.sub_diag.
        -- cbn. lia.
  - apply triple_ret. intros d o (-> & -> & Ho). exists r, start. split_and!; [done|done| |done|done|].
    + unfold retention in *. lia.
    + lia.
Qed.

(** An append, whatever fails: every state of the directory holds the output with a first
    part of the chunk.  The retention is counted through an [n] past the chunk. *)
Lemma append_triple (C : files -> Prop) id r0 n hist data r start d0 o0 :
  same_facts r0 r -> stored id hist r start d0 -> retention n hist r start -> zlen hist + zlen data <= n ->
  writer_ok id hist r o0 -> zlen data <= outputSegmentBound -> is_u64 (zlen hist + zlen data) ->
  (forall d, mid_append id r0 n hist data d -> C d) ->
  triple lucky C (fun d o => d = d0 /\ o = o0) (append id data (zlen hist + zlen data))
    (appended id r0 n hist data).
Proof.
  intros Hf Hst Hret Hlast Hw Hfit H64 HC. unfold append. apply triple_assoc.
  assert (Hstop : forall e d o, ready id r0 n hist data (inl e) d o -> appended id r0 n hist data (inl e) d o).
  { intros e d o (r' & start' & H1 & H2 & H3 & Hl & Hn). exists []. rewrite app_nil_r.
    split_and!; [apply prefix_nil|done|congruence|]. exists r', start'. split_and!; [done..|]. by apply not_open_ok. }
  assert (Hmid : forall d, stored id hist r start d -> C d).
  { intros d Hd. apply HC. exists []. split; [apply prefix_nil|]. rewrite app_nil_r. by exists r, start. }
  eapply triple_bind; [apply (writer_triple C id hist r start d0 o0 Hst Hw Hmid)| |].
  2:{ intros e d o (Hd & Hl & Hn). apply Hstop. by exists r, start. }
  intros w. apply triple_state. intros d1 o1 (Hst1 & -> & Ho1).
  eapply triple_bind; [|intros w|exact Hstop].
  { eapply triple_conseq; [apply (room_triple C id r0 n hist data r start d1 o1 Hf Hst1 Hret Hlast Hfit H64 HC)| |].
    - by intros d o [-> ->].
    - intros a d o Ha. exact Ha. }
  apply triple_state. intros d2 o2 (r' & start' & Hf' & Hst' & Hret' & -> & Ho2 & Hroom). cbn [segment written].
  apply (triple_bind _ _ _ _ _ (fun a d o => o = o2 /\ match a with
    | inr (count, whole) => exists sent, sent `prefix_of` data /\ (whole = true -> sent = data) /\ (lucky = true -> whole = true) /\
        count = zlen sent /\ stored id (hist ++ sent) r' start' d /\ retention n (hist ++ sent) r' start'
    | inl _ => False end)).
  { apply triple_write. intros d o sent whole [-> ->] Hall Hl [kept Hkept].
    assert (Hpre : sent `prefix_of` data) by (rewrite Hkept; by exists (drop kept data); rewrite take_drop).
    assert (Hsent := stored_written _ _ _ _ _ sent Hst').
    assert (Hret2 : retention n (hist ++ sent) r' start').
    { destruct Hpre as [rest ->]. unfold retention in *. zsolve. }
    split; [split; [done|]; by exists sent|]. apply HC. exists sent. split; [done|]. by exists r', start'. }
  2:{ by intros e d o [_ ?]. }
  intros [count whole]. apply triple_state. intros d3 o3 (-> & sent & Hpre & Hall & Hl & -> & Hst3 & Hret3).
  apply triple_put.
  assert (Hdone : forall a : io_error + unit, (a = inr tt -> whole = true) -> (lucky = true -> a = inr tt) ->
    appended id r0 n hist data a d3 (<[id := mkWriter true (Segment r') (zlen hist - Written r' + zlen sent)]> o2)).
  { intros a Ha1 Ha2. exists sent. split_and!; [done|by intros ?%Ha1%Hall|done|].
    exists r', start'. split_and!; [done..|]. unfold writer_ok. rewrite lookup_insert_eq. cbn.
    intros _. split; [done|]. zsolve. }
  destruct whole; [apply triple_ret|apply triple_fail]; intros d o [-> ->]; apply Hdone; try done.
  by intros ?%Hl.
Qed.

Lemma last_bytes_app n (older newer : octets) :
  last_bytes n (older ++ newer) = last_bytes (n - zlen (last_bytes n newer)) older ++ last_bytes n newer.
Proof.
  unfold last_bytes. rewrite zlen_app. pose proof (zlen_nonneg older). pose proof (zlen_nonneg newer).
  destruct (Z.leb_spec n 0); [rewrite zlen_nil; by destruct (Z.leb_spec (n - 0) 0); [|lia]|].
  destruct (Z.ltb_spec n (zlen newer)).
  - rewrite zlen_slice_from by lia. replace (n - (zlen newer - (zlen newer - n))) with 0 by lia. cbn.
    destruct (Z.ltb_spec n (zlen older + zlen newer)); [|lia].
    unfold slice_from. rewrite drop_app_ge by (unfold zlen in *; lia). f_equal. unfold zlen in *. lia.
  - destruct (Z.leb_spec (n - zlen newer) 0).
    + assert (n = zlen newer) as -> by lia.
      destruct (Z.ltb_spec (zlen newer) (zlen older + zlen newer)).
      * replace (zlen older + zlen newer - zlen newer) with (zlen older) by lia.
        by rewrite slice_from_app, slice_from_all by lia.
      * assert (zlen older = 0) as Ho by lia. apply zlen_pos_nil in Ho as ->. done.
    + destruct (Z.ltb_spec (n - zlen newer) (zlen older)), (Z.ltb_spec n (zlen older + zlen newer)); try lia; [|done].
      rewrite slice_from_app by lia. do 2 f_equal. lia.
Qed.

Lemma tail_triple C name n d0 o0 :
  triple lucky C (fun d o => d = d0 /\ o = o0) (tail name n)
    (fun a d o => d = d0 /\ o = o0 /\ match a with
      | inr x => x = last_bytes n (default [] (d0 !! name)) | inl _ => lucky = false end).
Proof.
  unfold tail, last_bytes. destruct (Z.leb_spec n 0); [by apply triple_ret; intros d o [-> ->]|].
  apply (triple_bind _ _ _ _ _ (fun a d o => d = d0 /\ o = o0 /\ match a with
    | inr (inl NotExist) => d0 !! name = None
    | inr (inr b) => d0 !! name = Some b
    | inr (inl _) => lucky = false
    | inl _ => False end)).
  { apply triple_attempt, triple_look; [|by intros Hl d o [-> ->]]. intros d o [-> ->].
    by destruct (d0 !! name) eqn:E. }
  2:{ by intros e d o (_ & _ & ?). }
  intros [[]|b]; [apply triple_ret|apply triple_fail..|apply triple_ret]; try by intros d o (-> & -> & ?).
  - intros d o (-> & -> & ->). split_and!; [done..|]. cbn. rewrite zlen_nil. by destruct (Z.ltb_spec n 0); [lia|].
  - intros d o (-> & -> & ->). done.
Qed.

Lemma size_triple C name d0 o0 :
  triple lucky C (fun d o => d = d0 /\ o = o0) (size name)
    (fun a d o => d = d0 /\ o = o0 /\ match a with
      | inr x => x = zlen (default [] (d0 !! name)) | inl _ => lucky = false end).
Proof.
  unfold size.
  apply (triple_bind _ _ _ _ _ (fun a d o => d = d0 /\ o = o0 /\ match a with
    | inr (inl NotExist) => d0 !! name = None
    | inr (inr n) => n = zlen (default [] (d0 !! name))
    | inr (inl _) => lucky = false
    | inl _ => False end)).
  { apply triple_attempt, triple_look; [|by intros Hl d o [-> ->]]. intros d o [-> ->].
    by destruct (d0 !! name) eqn:E. }
  2:{ by intros e d o (_ & _ & ?). }
  intros [[]|n]; [apply triple_ret|apply triple_fail..|apply triple_ret]; intros d o (-> & -> & E); by rewrite ?E.
Qed.

(** What [output] answers: the last bytes of what is retained, and where it ends. *)
Lemma output_triple C id hist r start atMost d0 o0 :
  stored id hist r start d0 -> writer_ok id hist r o0 -> is_u64 (zlen hist) ->
  triple lucky C (fun d o => d = d0 /\ o = o0) (output id atMost)
    (fun a d o => d = d0 /\ o = o0 /\ match a with
      | inr x => x = (last_bytes atMost (slice_from start hist), zlen hist) | inl _ => lucky = false end).
Proof.
  intros Hst Hw H64. pose proof Hst as [_ _ _ Hb Hnew Hold]. unfold segment_bytes in *. unfold output.
  eapply triple_bind; [by apply (read_triple C id hist r start)| |by intros e d o (-> & -> & ?)].
  intros x. apply triple_state. intros d1 o1 (-> & -> & ->).
  apply (triple_bind _ _ _ _ _ (fun a d o => d = d0 /\ o = o0 /\ a = inr (o0 !! id)));
    [by apply triple_held; intros d o [-> ->]| |by intros e d o (_ & _ & ?)].
  intros held. apply triple_state. intros d1 o1 (-> & -> & [= ->]). cbv zeta.
  set (current := match o0 !! id with Some writer => _ | None => r end).
  assert (Hcur : Segment current = Segment r /\ Written current = Written r).
  { subst current. unfold writer_ok in Hw. destruct (o0 !! id) as [w|]; [|done].
    destruct (file w); [|done]. cbn. by destruct (Hw eq_refl) as [-> _]. }
  destruct Hcur as [-> ->].
  eapply triple_bind; [apply (size_triple C _ d0 o0)| |by intros e d o (-> & -> & ?)].
  intros n. apply triple_state. intros d1 o1 (-> & -> & ->).
  eapply triple_bind; [apply (tail_triple C _ _ d0 o0)| |by intros e d o (-> & -> & ?)].
  intros newer. apply triple_state. intros d1 o1 (-> & -> & ->).
  eapply triple_bind; [apply (tail_triple C _ _ d0 o0)| |by intros e d o (-> & -> & ?)].
  intros older. apply triple_state. intros d1 o1 (-> & -> & ->).
  apply triple_ret. intros d o [-> ->]. split_and!; [done..|].
  rewrite Hnew, Hold, <- last_bytes_app, zlen_slice_from by lia.
  rewrite add64_small by (unfold is_u64 in *; lia). f_equal; [|lia]. f_equal.
  rewrite <- (range_full start), <- (range_full (Written r)) by lia. apply range_app; lia.
Qed.

(** The stop write: the record states the end, and the output is what it was. *)
Definition ended (r : sessionRecord) (at_ : Z) (code : option Z) (through : Z) : sessionRecord :=
  r <| EndedThrough := through |> <| EndedAtUnixMs := Some at_ |> <| ExitCode := code |>.

(** The two halves of a stop write: the look at the writer, and the record. *)
Lemma look_triple C id hist r d0 o0 : writer_ok id hist r o0 ->
  triple lucky C (fun d o => d = d0 /\ o = o0) (do held <- heldWriter id; writer_segment held)
    (fun a d o => d = d0 /\ o = o0 /\ match a with inr seg => seg = Segment r \/ seg = -1 | inl _ => False end).
Proof.
  intros Hw. apply triple_asked. unfold writer_ok in Hw.
  destruct (o0 !! id) as [w|]; cbn [writer_segment]; [|apply triple_ret; intros d o [-> ->]; auto].
  destruct (file w); [|apply triple_ret; intros d o [-> ->]; auto].
  apply triple_dropped, triple_ret. intros d o [-> ->]. destruct (Hw eq_refl) as [-> _]. auto.
Qed.

Lemma mark_triple C id hist r start at_ code through seg d0 o0 :
  stored id hist r start d0 -> (0 <= seg -> seg = Segment r) ->
  (forall d, stored id hist r start d \/ stored id hist (ended r at_ code through) start d -> C d) ->
  triple lucky C (fun d o => d = d0 /\ o = o0) (mark_record id at_ code through seg)
    (fun a d o => o = o0 /\ (a = inr tt -> stored id hist (ended r at_ code through) start d) /\
      (lucky = true -> a = inr tt) /\
      (stored id hist r start d \/ stored id hist (ended r at_ code through) start d)).
Proof.
  intros Hst Hseg HC. unfold mark_record. eapply triple_bind; [by apply (read_triple C id hist r start)| |].
  2:{ intros e d o (-> & -> & Hl). split_and!; [done..|congruence|by left]. }
  intros x. apply triple_state. intros d1 o1 (-> & -> & ->).
  assert (Hsame : (if 0 <=? seg then r <| EndedThrough := through |> <| Segment := seg |> else r <| EndedThrough := through |>)
    = r <| EndedThrough := through |>).
  { destruct (Z.leb_spec 0 seg) as [Hle|]; [|done]. rewrite (Hseg Hle). by destruct r. }
  cbv zeta. rewrite Hsame. fold (ended r at_ code through).
  eapply triple_conseq; [apply (rewrite_triple C id hist r start d0 o0 (ended r at_ code through) true Hst)| |]; try done.
  apply Hst.
Qed.

Lemma bind_assoc {A B C} (m : io A) (k : A -> io B) (k' : B -> io C) w :
  bind (bind m k) k' w = bind m (fun x => bind (k x) k') w.
Proof. unfold bind. by destruct (m w) as [w1 [e|x]]. Qed.

(** A stop write is the one after the other. *)
Lemma markEnded_halves id at_ code through w :
  markEnded id at_ code through w =
    (do seg <- (do held <- heldWriter id; writer_segment held); mark_record id at_ code through seg) w.
Proof. symmetry. apply bind_assoc. Qed.

Lemma markEnded_triple C id hist r start at_ code through d0 o0 :
  stored id hist r start d0 -> writer_ok id hist r o0 ->
  (forall d, stored id hist r start d \/ stored id hist (ended r at_ code through) start d -> C d) ->
  triple lucky C (fun d o => d = d0 /\ o = o0) (markEnded id at_ code through)
    (fun a d o => o = o0 /\ (a = inr tt -> stored id hist (ended r at_ code through) start d) /\
      (lucky = true -> a = inr tt) /\
      (stored id hist r start d \/ stored id hist (ended r at_ code through) start d)).
Proof.
  intros Hst Hw HC w. rewrite markEnded_halves. revert w.
  change (triple lucky C (fun d o => d = d0 /\ o = o0) (do seg <- (do held <- heldWriter id; writer_segment held); mark_record id at_ code through seg)
    (fun a d o => o = o0 /\ (a = inr tt -> stored id hist (ended r at_ code through) start d) /\
      (lucky = true -> a = inr tt) /\ (stored id hist r start d \/ stored id hist (ended r at_ code through) start d))).
  eapply triple_bind; [by apply (look_triple C id hist r)| |by intros e d o (_ & _ & ?)].
  intros seg. apply triple_state. intros d o (-> & -> & Hseg). apply mark_triple; [done| |done].
  pose proof (record_segment _ _ _ _ _ Hst). unfold two_segments in *. lia.
Qed.

(** A record write that leaves the output fields alone, whatever fails. *)
Lemma update_triple (C : files -> Prop) id hist r start (f : sessionRecord -> sessionRecord) d0 o0 :
  stored id hist r start d0 -> Session (f r) = Session r -> Segment (f r) = Segment r -> Written (f r) = Written r ->
  (forall d, stored id hist r start d \/ stored id hist (f r) start d -> C d) ->
  triple lucky C (fun d o => d = d0 /\ o = o0) (do record <- read id; write (f record))
    (fun a d o => o = o0 /\ (a = inr tt -> stored id hist (f r) start d) /\ (lucky = true -> a = inr tt) /\
      (stored id hist r start d \/ stored id hist (f r) start d)).
Proof.
  intros Hst Hid Hseg Hwr HC. eapply triple_bind; [by apply (read_triple C id hist r start)| |].
  2:{ intros e d o (-> & -> & Hl). split_and!; [done..|congruence|by left]. }
  intros x. apply triple_state. intros d1 o1 (-> & -> & ->).
  eapply triple_conseq; [apply (rewrite_triple C id hist r start d0 o0 (f r) false Hst)| |]; try done.
  rewrite Hid. apply Hst.
Qed.

End operations.

(** ** What a crash leaves *)

Lemma record_read `{PlatformLaws} d r :
  d !! recordPath (Session r) = Some (Marshal r ++ newline) -> record_after_crash d (Session r) = inr r.
Proof.
  intros Hd. unfold record_after_crash, read, bind, sys_read, look. cbn. rewrite Hd, parse_record, Z.eqb_refl. done.
Qed.

Lemma record_read_same `{Platform} d d' id :
  d' !! recordPath id = d !! recordPath id -> record_after_crash d' id = record_after_crash d id.
Proof.
  intros Hd. unfold record_after_crash, read, bind, sys_read, look. cbn. rewrite Hd.
  destruct (d !! recordPath id) as [b|]; [|done]. destruct (Unmarshal b) as [r|]; [|done].
  by destruct (Session r =? id).
Qed.

Lemma in_passed {A} lucky C (P : assertion) (m : io A) Q w d :
  triple lucky C P m Q -> P (fs w) (open w) -> (lucky = true -> fates w = []) ->
  d ∈ passed (fst (m w)) -> d ∈ passed w \/ C d.
Proof.
  intros Hm Hw Hl Hd. specialize (Hm w Hw Hl). destruct (m w) as [w' a]. destruct Hm as (_ & _ & new & E & Hall).
  cbn in Hd. rewrite E in Hd. apply elem_of_app in Hd as [?|Hd]; [by left|right].
  rewrite list.Forall_forall in Hall. by apply Hall.
Qed.

Lemma outcome {A} lucky C (P : assertion) (m : io A) Q w :
  triple lucky C P m Q -> P (fs w) (open w) -> (lucky = true -> fates w = []) ->
  Q (snd (m w)) (fs (fst (m w))) (open (fst (m w))).
Proof. intros Hm Hw Hl. specialize (Hm w Hw Hl). by destruct (m w) as [w' a], Hm. Qed.

(** C20: a record write is atomic: whichever calls fail and wherever a crash stops it, the
    session's record reads as the old one or as the new one, and no other session's record
    reads differently; a write that reports no error has published the new record and
    touched no other file, and with no failing call it reports none. *)
Theorem record_write_is_atomic `{PlatformLaws} (w : world) (old record : sessionRecord) (durable : bool)
    (Hthere : fs w !! recordPath (Session record) = Some (Marshal old ++ newline))
    (Hid : Session old = Session record) :
  let '(w', answer) := publish record durable w in
  (forall d, d ∈ passed w' -> d ∈ passed w \/
     ((record_after_crash d (Session record) = inr old \/ record_after_crash d (Session record) = inr record) /\
      forall other, other <> Session record -> record_after_crash d other = record_after_crash (fs w) other)) /\
  (answer = inr tt -> fs w' = <[recordPath (Session record) := Marshal record ++ newline]> (fs w)) /\
  (fates w = [] -> answer = inr tt).
Proof.
  pose (C := between (fs w) record).
  assert (Hrun : forall lucky, triple lucky C (fun d o => d = fs w /\ o = open w) (publish record durable)
    (published lucky (fs w) (open w) record)).
  { intros lucky. apply publish_triple; [done|apply staged_free]. }
  pose proof (fun d => in_passed false C _ _ _ w d (Hrun false) ltac:(done) ltac:(done)) as Hpassed.
  pose proof (outcome false C _ _ _ w (Hrun false) ltac:(done) ltac:(done)) as (_ & _ & Hok & _).
  assert (Hlucky : fates w = [] -> snd (publish record durable w) = inr tt).
  { intros Hf. by destruct (outcome true C _ _ _ w (Hrun true) ltac:(done) ltac:(done)) as (_ & _ & _ & ->). }
  destruct (publish record durable w) as [w' answer]. cbn in *. split_and!; [|done|done].
  intros d [Hd|[Hframe Hrec]]%Hpassed; [by left|right]. split.
  - destruct Hrec as [Hold|Hnew]; [left|right; by apply record_read].
    rewrite <- Hid. apply record_read. by rewrite Hid, Hold.
  - intros other Hne. apply record_read_same, Hframe; [by intros ?%recordPath_inj|].
    intros E. symmetry in E. by apply staged_not_record in E.
Qed.

(** ** Calls that only look *)

Section quiet.
Context `{Platform}.

(** The directory is left as it is, whatever fails. *)
Definition quiet {A} (m : io A) : Prop :=
  forall lucky d0, triple lucky (fun _ => True) (fun d _ => d = d0) m (fun _ d _ => d = d0).

Lemma quiet_ret {A} (x : A) : quiet (ret x).
Proof. intros lucky d0. by apply triple_ret. Qed.

Lemma quiet_fail {A} e : quiet (@fail A e).
Proof. intros lucky d0. by apply triple_fail. Qed.

Lemma quiet_bind {A B} (m : io A) (k : A -> io B) : quiet m -> (forall x, quiet (k x)) -> quiet (bind m k).
Proof. intros Hm Hk lucky d0. eapply triple_bind; [apply Hm|intros x; apply Hk|done]. Qed.

Lemma quiet_attempt {A} (m : io A) : quiet m -> quiet (attempt m).
Proof. intros Hm lucky d0. apply triple_attempt, Hm. Qed.

Lemma quiet_look {A} (f : files -> io_error + A) : quiet (look f).
Proof. intros lucky d0. by apply triple_look. Qed.

Lemma quiet_held id : quiet (heldWriter id).
Proof. intros lucky d0. by apply triple_held. Qed.

Lemma quiet_read id : quiet (read id).
Proof.
  apply quiet_bind; [apply quiet_look|]. intros body. destruct (Unmarshal body); [|apply quiet_fail].
  destruct (_ =? id); [apply quiet_ret|apply quiet_fail].
Qed.

Lemma quiet_size name : quiet (size name).
Proof.
  apply quiet_bind; [apply quiet_attempt, quiet_look|]. intros [[]|n]; [apply quiet_ret|apply quiet_fail..|apply quiet_ret].
Qed.

Lemma quiet_tail name n : quiet (tail name n).
Proof.
  unfold tail. destruct (n <=? 0); [apply quiet_ret|].
  apply quiet_bind; [apply quiet_attempt, quiet_look|]. intros [[]|b]; [apply quiet_ret|apply quiet_fail..|apply quiet_ret].
Qed.

Lemma quiet_output id n : quiet (output id n).
Proof.
  repeat (apply quiet_bind; [first [apply quiet_read|apply quiet_held|apply quiet_size|apply quiet_tail]|intros ?]).
  apply quiet_ret.
Qed.

(** An outcome looked at is there. *)
Lemma attempt_quiet {A} (m : io A) d0 : quiet m ->
  triple false (fun _ => True) (fun d o => d = d0) (attempt m) (fun a d o => d = d0 /\ exists x, a = inr x).
Proof.
  intros Hm. apply triple_attempt. eapply triple_conseq; [apply (Hm false d0)|done|]. intros a d o ->. split; [done|by eexists].
Qed.

End quiet.

(** ** Removing a session *)

Lemma remove_if_there_triple lucky (C : files -> Prop) name d0 o0 : C (delete name d0) ->
  triple lucky C (fun d o => d = d0 /\ o = o0) (remove_if_there name)
    (fun a d o => o = o0 /\ match a with inr _ => d = delete name d0 | inl _ => lucky = false /\ d = d0 end).
Proof.
  intros HC. unfold remove_if_there.
  apply (triple_bind _ _ _ _ _ (fun a d o => o = o0 /\ match a with
    | inr (inr _) | inr (inl NotExist) => d = delete name d0
    | inr (inl _) => lucky = false /\ d = d0
    | inl _ => False end)).
  { apply triple_attempt, triple_remove; [|by intros Hl d o [-> ->]]. intros d o [-> ->].
    destruct (d0 !! name) eqn:E; [done|]. by rewrite delete_id. }
  2:{ by intros e d o [_ ?]. }
  intros [[]|[]]; [apply triple_ret|apply triple_fail..|apply triple_ret]; by intros d o [-> ?].
Qed.

Lemma drop_writer_triple lucky C id d0 o0 :
  triple lucky C (fun d o => d = d0 /\ o = o0) (drop_writer id)
    (fun a d o => d = d0 /\ o = delete id o0 /\ match a with inr _ => True | inl _ => False end).
Proof.
  unfold drop_writer. apply triple_asked, triple_put.
  destruct (o0 !! id) as [writer|]; [destruct (file writer)|]; [apply triple_dropped|..]; apply triple_ret; by intros d o [-> ->].
Qed.

Definition session_files (id : Z) : list string := [segmentPath id 0; segmentPath id 1; recordPath id].

(** Where a removal may stop: only this session's files are touched, and the record is gone
    only with the output. *)
Definition mid_remove (id : Z) (d0 d : files) : Prop :=
  (forall n, n ∉ session_files id -> d !! n = d0 !! n) /\
  (d !! recordPath id = d0 !! recordPath id \/
   (d !! segmentPath id 0 = None /\ d !! segmentPath id 1 = None)).

Lemma remove_triple lucky id d0 o0 :
  triple lucky (mid_remove id d0) (fun d o => d = d0 /\ o = o0) (remove id)
    (fun a d o => mid_remove id d0 d /\ o = delete id o0 /\ (lucky = true -> a = inr tt) /\
      (a = inr tt -> d = delete (recordPath id) (delete (segmentPath id 1) (delete (segmentPath id 0) d0)))).
Proof.
  assert (Hsr : forall seg, two_segments seg -> segmentPath id seg <> recordPath id)
    by (intros; by apply segment_not_record).
  assert (H0 : mid_remove id d0 (delete (segmentPath id 0) d0)).
  { split; [|left; apply lookup_delete_ne, Hsr; by left].
    intros n Hn. rewrite lookup_delete_ne; [done|]. intros <-. apply Hn. by left. }
  assert (H1 : mid_remove id d0 (delete (segmentPath id 1) (delete (segmentPath id 0) d0))).
  { split; [|left; rewrite !lookup_delete_ne; [done|apply Hsr; by left|apply Hsr; by right]].
    intros n Hn. rewrite !lookup_delete_ne; [done|intros <-; apply Hn; by left|intros <-; apply Hn; right; by left]. }
  assert (H2 : mid_remove id d0 (delete (recordPath id) (delete (segmentPath id 1) (delete (segmentPath id 0) d0)))).
  { split.
    - intros n Hn. rewrite lookup_delete_ne; [by apply H1|]. intros <-. apply Hn. by do 2 right; left.
    - right. split; rewrite lookup_delete_ne by (apply not_eq_sym, Hsr; (by left) || by right).
      + rewrite lookup_delete_ne, lookup_delete_eq; [done|]. apply not_eq_sym, (segment_other id 0). by left.
      + apply lookup_delete_eq. }
  assert (Hself : mid_remove id d0 d0) by (split; [done|by left]).
  assert (Hfail : forall e d, mid_remove id d0 d -> lucky = false ->
    mid_remove id d0 d /\ delete id o0 = delete id o0 /\ (lucky = true -> inl e = @inr io_error _ tt) /\
      (inl e = @inr io_error _ tt -> d = delete (recordPath id) (delete (segmentPath id 1) (delete (segmentPath id 0) d0)))).
  { intros e d Hd Hl. by split_and!; [..|congruence|]. }
  unfold remove. eapply triple_bind; [apply (drop_writer_triple lucky _ id d0 o0)| |by intros e d o (_ & _ & ?)].
  intros []. apply triple_state. intros d o (-> & -> & _).
  eapply triple_bind; [by apply (remove_if_there_triple lucky _ _ d0)| |intros e d o (-> & Hl & ->); by apply Hfail].
  intros []. apply triple_state. intros d o (-> & ->).
  eapply triple_bind; [by apply (remove_if_there_triple lucky _ _ (delete (segmentPath id 0) d0))| |intros e d o (-> & Hl & ->); by apply Hfail].
  intros []. apply triple_state. intros d o (-> & ->).
  eapply triple_conseq; [by apply (remove_if_there_triple lucky _ _ (delete (segmentPath id 1) (delete (segmentPath id 0) d0)) (delete id o0))|done|].
  intros [e|[]] d o [-> Hd]; [destruct Hd as [Hl ->]; by apply Hfail|]. subst d. done.
Qed.

Lemma deleted_files id (d : files) n : n ∈ session_files id ->
  delete (recordPath id) (delete (segmentPath id 1) (delete (segmentPath id 0) d)) !! n = None.
Proof.
  unfold session_files. rewrite !elem_of_cons, !lookup_delete_None.
  intros [->|[->|[->|Hn]]]; [auto..|by apply not_elem_of_nil in Hn].
Qed.

(** C21: a removal never leaves output behind that no record names: whichever calls fail and
    wherever a crash stops it, the record is still there unless both segments are gone, and
    no file of another session is touched; a removal that reports no error has left nothing
    of the session, its writer included, and with no failing call it reports none. *)
Theorem remove_leaves_no_orphan (w : world) (id : Z) :
  let '(w', answer) := remove id w in
  (forall d, d ∈ passed w' -> d ∈ passed w \/ mid_remove id (fs w) d) /\
  mid_remove id (fs w) (fs w') /\ open w' = delete id (open w) /\
  (answer = inr tt -> forall n, n ∈ session_files id -> fs w' !! n = None) /\
  (fates w = [] -> answer = inr tt).
Proof.
  pose proof (fun d => in_passed false _ _ _ _ w d (remove_triple false id (fs w) (open w)) ltac:(done) ltac:(done)) as Hpassed.
  pose proof (outcome false _ _ _ _ w (remove_triple false id (fs w) (open w)) ltac:(done) ltac:(done)) as (Hmid & Ho & _ & Hok).
  assert (Hlucky : fates w = [] -> snd (remove id w) = inr tt).
  { intros Hf. by destruct (outcome true _ _ _ _ w (remove_triple true id (fs w) (open w)) ltac:(done) ltac:(done)) as (_ & _ & ? & _); auto. }
  destruct (remove id w) as [w' answer]. cbn in *. split_and!; try done.
  intros Ha n Hn. rewrite (Hok Ha). by apply deleted_files.
Qed.

(** ** The output after a crash *)

Section retained.
Context `{PlatformLaws}.

Lemma concat_cons (chunk : octets) rest : concat (chunk :: rest) = chunk ++ concat rest.
Proof. done. Qed.

(** A session's files before any output. *)
Definition newborn (id : Z) (record : sessionRecord) (w : world) : Prop :=
  fs w !! recordPath id = Some (Marshal record ++ newline) /\
  Session record = id /\ two_segments (Segment record) /\ Written record = 0 /\
  fs w !! segmentPath id 0 = None /\ fs w !! segmentPath id 1 = None /\ open w !! id = None.

Lemma newborn_stored id record w : newborn id record w -> stored id [] record 0 (fs w).
Proof.
  intros (Hr & Hid & Hseg & Hw & Hn0 & Hn1 & _).
  assert (Hnone : forall seg, two_segments seg -> segment_bytes id seg (fs w) = []).
  { intros seg [->| ->]; unfold segment_bytes; by rewrite ?Hn0, ?Hn1. }
  split; try done; rewrite ?Hw; try done; apply Hnone; [done|]. unfold two_segments in *. lia.
Qed.

(** Appends that all work: the files hold the whole output. *)
Lemma retention_more n n' hist r start : n <= n' -> retention n hist r start -> retention n' hist r start.
Proof. unfold retention. lia. Qed.

Lemma appends_triple C id r0 chunks : forall hist r start d0 o0,
  same_facts r0 r -> stored id hist r start d0 -> retention (zlen hist) hist r start -> writer_ok id hist r o0 ->
  Forall (fun chunk => zlen chunk <= outputSegmentBound) chunks -> is_u64 (zlen (hist ++ concat chunks)) ->
  (forall d n h data, mid_append id r0 n h data d -> C d) ->
  triple true C (fun d o => d = d0 /\ o = o0) (appends id (zlen hist) chunks)
    (fun a d o => a = inr tt /\ exists r start, same_facts r0 r /\ stored id (hist ++ concat chunks) r start d /\
      retention (zlen (hist ++ concat chunks)) (hist ++ concat chunks) r start /\
      writer_ok id (hist ++ concat chunks) r o).
Proof.
  induction chunks as [|chunk rest IH]; intros hist r start d0 o0 Hf Hst Hret Hw Hfit H64 HC.
  - cbn. rewrite app_nil_r. apply triple_ret. intros d o [-> ->]. split; [done|]. by exists r, start.
  - apply Forall_cons in Hfit as [Hfit Hrest]. rewrite concat_cons, app_assoc in H64 |- *.
    cbn [appends]. eapply triple_bind.
    + apply (append_triple true C id r0 (zlen hist + zlen chunk) hist chunk r start d0 o0 Hf Hst);
        [by apply (retention_more (zlen hist)); [zsolve|]|lia|done|done|zsolve|]. intros d. apply HC.
    + intros []. apply triple_state. intros d o (sent & _ & Hall & _ & r' & start' & Hf' & Hst' & Hret' & Hw').
      rewrite (Hall eq_refl) in Hst', Hret', Hw'. rewrite <- zlen_app in Hret' |- *.
      by apply (IH (hist ++ chunk) r' start').
    + intros e d o (sent & _ & _ & Hl & _). by specialize (Hl eq_refl).
Qed.

Lemma output_read id hist r start atMost d : stored id hist r start d -> is_u64 (zlen hist) ->
  output_after_crash d id atMost = inr (last_bytes atMost (slice_from start hist), zlen hist).
Proof.
  intros Hst H64.
  pose proof (outcome true (fun _ => True) _ _ _ (mkWorld d ∅ [] [])
    (output_triple true _ id hist r start atMost d ∅ Hst ltac:(by unfold writer_ok; rewrite lookup_empty) H64) ltac:(done) ltac:(done)) as (_ & _ & Ha).
  unfold output_after_crash. destruct (snd (output id atMost _)) as [e|x]; [done|]. by rewrite Ha.
Qed.

(** What a restore can make of the directory: the record with the facts the session was
    created with, and the last bytes of the output up to [hist], at its coordinate; all the
    output is retained, or more than one segment's worth counted through [n]. *)
Definition reads_back (id : Z) (record : sessionRecord) (n : Z) (hist : octets) (atMost : Z) (d : files) : Prop :=
  exists r start, record_after_crash d id = inr r /\ same_facts record r /\
    output_after_crash d id atMost = inr (last_bytes atMost (slice_from start hist), zlen hist) /\
    (start = 0 \/ outputSegmentBound < n - start) /\ 0 <= start /\ zlen hist - start <= 2 * outputSegmentBound.

Lemma holds_reads_back id record n hist atMost d : holds id record n hist d -> is_u64 (zlen hist) ->
  reads_back id record n hist atMost d.
Proof.
  intros (r & start & Hf & Hst & R1 & R2 & R3) H64. exists r, start. split_and!; try done.
  - rewrite <- (record_own _ _ _ _ _ Hst). apply record_read. rewrite (record_own _ _ _ _ _ Hst). apply Hst.
  - by eapply output_read.
  - pose proof (record_bounds _ _ _ _ _ Hst). lia.
  - unfold outputSegmentBound in *. lia.
Qed.

(** C15: appended output survives a crash: after any chunks that each fit a segment, an
    append during which any calls fail leaves, wherever a crash stops it, the session's
    facts and the last bytes of the output up to some first part of the chunk, at exactly
    that coordinate, with more than one and at most two segments of it retained; an append
    that reports no error has stored all of the chunk. *)
Theorem output_survives_a_crash (id atMost : Z) (record : sessionRecord) (chunks : list octets)
    (data : octets) (later : list fate) (w : world)
    (Hborn : newborn id record w) (Hlucky : fates w = [])
    (Hfit : Forall (fun chunk => zlen chunk <= outputSegmentBound) (chunks ++ [data]))
    (H64 : is_u64 (zlen (concat chunks ++ data))) :
  let hist := concat chunks in
  let '(w1, before) := appends id 0 chunks w in
  let '(w2, answer) := append id data (zlen hist + zlen data) (w1 <| fates := later |>) in
  before = inr tt /\
  (forall d, d ∈ passed w2 -> d ∈ passed w1 \/
     exists sent, sent `prefix_of` data /\ reads_back id record (zlen hist + zlen data) (hist ++ sent) atMost d) /\
  (answer = inr tt -> reads_back id record (zlen hist + zlen data) (hist ++ data) atMost (fs w2)).
Proof.
  intros hist. apply Forall_app in Hfit as [Hfit Hdata]. rewrite list.Forall_singleton in Hdata.
  pose proof (newborn_stored _ _ _ Hborn) as Hst.
  assert (Ho : writer_ok id [] record (open w)).
  { unfold writer_ok. by destruct Hborn as (_ & _ & _ & _ & _ & _ & ->). }
  assert (Hret : retention 0 [] record 0).
  { destruct Hborn as (_ & _ & _ & Hw & _). unfold retention, outputSegmentBound, zlen. cbn [length]. lia. }
  assert (Hsame : same_facts record record) by (by destruct record).
  pose proof (outcome true _ _ _ _ w (appends_triple (fun _ => True) id record chunks [] record 0 (fs w) (open w)
    Hsame Hst Hret Ho Hfit ltac:(cbn [app]; zsolve) ltac:(done)) ltac:(done) ltac:(done))
    as (Hbefore & r & start & Hf & Hst1 & Hret1 & Ho1).
  change (zlen (A:=Byte.byte) []) with 0 in *. destruct (appends id 0 chunks w) as [w1 before]. cbn [fst snd app] in *. fold hist in Hst1, Hret1, Ho1.
  fold hist in H64. assert (H64' : is_u64 (zlen hist + zlen data)) by (by rewrite <- zlen_app).
  assert (Hgrow : zlen hist <= zlen hist + zlen data) by (pose proof (zlen_nonneg data); lia).
  pose proof (append_triple false (mid_append id record (zlen hist + zlen data) hist data) id record (zlen hist + zlen data) hist data r start (fs w1) (open w1)
    Hf Hst1 (retention_more _ _ _ _ _ Hgrow Hret1) (Z.le_refl _) Ho1 Hdata H64' (fun d Hd => Hd)) as Hrun.
  pose proof (fun d => in_passed false _ _ _ _ (w1 <| fates := later |>) d Hrun ltac:(done) ltac:(done)) as Hpassed.
  pose proof (outcome false _ _ _ _ (w1 <| fates := later |>) Hrun ltac:(done) ltac:(done)) as
    (sent & Hpre & Hall & _ & r2 & start2 & Hf2 & Hst2 & Hret2 & _).
  destruct (append id data _ _) as [w2 answer]. cbn [fst snd] in *. split_and!; [done| |].
  - intros d [Hd|(sent' & Hpre' & Hd)]%Hpassed; [by left|right]. exists sent'. split; [done|].
    apply holds_reads_back; [done|]. destruct Hpre' as [k ->]. zsolve.
  - intros Ha. rewrite (Hall Ha) in *. apply holds_reads_back; [by exists r2, start2|zsolve].
Qed.

End retained.

(** ** A platform to run on *)

Module Concrete.

#[export] Instance byte_eq_dec : EqDecision Byte.byte := Byte.byte_eq_dec.

#[export] Instance byte_countable : Countable Byte.byte.
Proof. apply (inj_countable Byte.to_N Byte.of_N). apply Byte.of_to_N. Defined.

#[export] Instance record_countable : Countable sessionRecord.
Proof.
  apply (inj_countable'
    (fun r => (Session r, PaneID r, WindowLabel r, CWD r, Command r, Environment r, Cols r, Rows r,
               (StartedAtUnixMs r, EndedAtUnixMs r, ExitCode r, EndedThrough r, Segment r, Written r,
                Foreground r, ForegroundCWD r, Modes r)))
    (fun '(a, b, c, d, e, f, g, h, (i, j, k, l, m, n, o, p, q)) => mkRecord a b c d e f g h i j k l m n o p q)).
  by intros [].
Defined.

(** A positive number as its binary digits, one byte each. *)
Fixpoint digits (p : positive) : octets :=
  match p with
  | xH => [Byte.x01]
  | xO p => Byte.x00 :: digits p
  | xI p => Byte.x02 :: digits p
  end.

Fixpoint undigits (l : octets) : option positive :=
  match l with
  | Byte.x00 :: l => xO <$> undigits l
  | Byte.x02 :: l => xI <$> undigits l
  | Byte.x01 :: _ => Some xH
  | _ => None
  end.

Lemma undigits_digits p rest : undigits (digits p ++ rest) = Some p.
Proof. induction p as [p IH|p IH|]; cbn; by rewrite ?IH. Qed.

(** Longer than every name there is. *)
Definition longest (d : files) : nat := max_list (String.length <$> elements (dom d)).

#[export] Instance platform : Platform := {
  Marshal r := digits (encode r);
  Unmarshal body := p ← undigits body; decode p;
  stagedSuffix d := String.string_of_list_ascii (replicate (longest d) Ascii.zero)
}.

Lemma length_chars s : length (String.list_ascii_of_string s) = String.length s.
Proof. induction s as [|c s IH]; [done|]. cbn. by rewrite IH. Qed.

Lemma string_length_app a b : String.length (a ++ b)%string = (String.length a + String.length b)%nat.
Proof. rewrite <- !length_chars, chars_app. apply length_app. Qed.

Lemma longest_spec d n : is_Some (d !! n) -> (String.length n <= longest d)%nat.
Proof.
  intros Hn%elem_of_dom%elem_of_elements%(list_elem_of_fmap_2 String.length).
  unfold longest. revert Hn. generalize (String.length <$> elements (dom d)) as l, (String.length n) as k.
  induction l as [|x l IH]; intros k Hk; [by apply not_elem_of_nil in Hk|].
  apply elem_of_cons in Hk as [->|Hk%IH]; cbn; lia.
Qed.

#[export] Instance laws : PlatformLaws.
Proof.
  split.
  - intros r. cbn [Marshal Unmarshal platform]. rewrite undigits_digits. cbn. apply decode_encode.
  - intros id d. destruct (d !! stagedPath id d) as [b|] eqn:E; [|done]. exfalso.
    assert (Hl := longest_spec d (stagedPath id d) ltac:(by rewrite E)). unfold stagedPath in Hl.
    rewrite !string_length_app in Hl. cbn [stagedSuffix platform] in Hl.
    rewrite <- (length_chars (String.string_of_list_ascii _)), String.list_ascii_of_string_of_list_ascii, length_replicate in Hl.
    assert (Hnext : String.length ".next" = 5%nat) by done. lia.
Defined.

(** A record and a directory that holds it alone. *)
Definition record : sessionRecord :=
  mkRecord 7 "pane" "main" "/home" "/bin/sh" [] 80 24 1000 None None 0 0 0 "" "" [].

Definition directory_of (r : sessionRecord) : files := {[recordPath (Session r) := Marshal r ++ newline]}.

Lemma newborn_record : newborn 7 record (mkWorld (directory_of record) ∅ [] []).
Proof.
  unfold newborn, directory_of. split; [apply lookup_singleton_eq|]. split_and!; try done. by left.
Qed.

End Concrete.

(** ** Witnesses *)

#[local] Existing Instance Concrete.platform.
#[local] Existing Instance Concrete.laws.

Lemma record_write_is_atomic_witness :
  let w := mkWorld (Concrete.directory_of Concrete.record) ∅ [Works; Fails 3] [] in
  let record := Concrete.record <| Cols := 132 |> in
  let '(w', answer) := publish record false w in
  (forall d, d ∈ passed w' -> d ∈ passed w \/
     ((record_after_crash d (Session record) = inr Concrete.record \/ record_after_crash d (Session record) = inr record) /\
      forall other, other <> Session record -> record_after_crash d other = record_after_crash (fs w) other)) /\
  (answer = inr tt -> fs w' = <[recordPath (Session record) := Marshal record ++ newline]> (fs w)) /\
  (fates w = [] -> answer = inr tt).
Proof.
  intros w record. apply (record_write_is_atomic w Concrete.record record false).
  - apply lookup_singleton_eq.
  - reflexivity.
Defined.

Lemma output_survives_a_crash_witness :
  let w := mkWorld (Concrete.directory_of Concrete.record) ∅ [] [] in
  let hist := concat [text "one"; text "two"] in
  let '(w1, before) := appends 7 0 [text "one"; text "two"] w in
  let '(w2, answer) := append 7 (text "three") (zlen hist + zlen (text "three")) (w1 <| fates := [Fails 2] |>) in
  before = inr tt /\
  (forall d, d ∈ passed w2 -> d ∈ passed w1 \/
     exists sent, sent `prefix_of` text "three" /\
       reads_back 7 Concrete.record (zlen hist + zlen (text "three")) (hist ++ sent) 1048576 d) /\
  (answer = inr tt ->
     reads_back 7 Concrete.record (zlen hist + zlen (text "three")) (hist ++ text "three") 1048576 (fs w2)).
Proof.
  apply (output_survives_a_crash 7 1048576 Concrete.record [text "one"; text "two"] (text "three") [Fails 2]).
  - apply Concrete.newborn_record.
  - reflexivity.
  - repeat constructor; unfold outputSegmentBound, zlen; cbn; lia.
  - unfold is_u64, two64, zlen. cbn. lia.
Defined.
