(* ===== verification/StoreLocks.v ===== *)
(** * The locks of the store (store.go)

    Sessions write their output, sizes, modes and ends from goroutines of their own, and the
    store orders them by locks: a writer's lock around what is appended, a record's lock
    around each read and write of a record.  Store says what each operation does when it is
    alone; here each is a program of Threads, a turn at every lock and every call on the
    file system, and any number of them take turns.

    A critical section under [s.mu] looks a map up or changes it and does nothing else, so it
    is one call.  A file that is open is the file that was opened: one that was removed
    meanwhile is written to without any name showing it. *)

From stdpp Require Import pretty.
From S2P Require Import Prelude Threads Decimal Contract Store.

(** ** The store as its goroutines share it *)

(** A writer is known by its number, the [made]th that was made; [held] is the map [open]
    from sessions to writers.  A writer with nothing in [writers] is as it was made.  [disk]
    is the directory and the fates of the calls to come. *)
Record store_state := mkStoreState {
  disk : world;
  held : gmap Z nat;
  writers : gmap nat segmentWriter;
  made : nat
}.

#[export] Instance store_state_settable : Settable store_state :=
  fun s => mkStoreState (disk s) (held s) (writers s) (made s).

Inductive lock := WriterLock (writer : nat) | RecordLock (id : Z).

#[export] Instance lock_eq_dec : EqDecision lock.
Proof. solve_decision. Defined.

#[export] Instance lock_countable : Countable lock.
Proof.
  apply (inj_countable' (fun l => match l with WriterLock p => inl p | RecordLock id => inr id end)
    (fun x => match x with inl p => WriterLock p | inr id => RecordLock id end)). by intros [].
Defined.

Inductive act : Type -> Type :=
| HeldWriter (id : Z) : act (option nat)
| WriterFor (id : Z) : act nat
| TakeWriter (id : Z) : act (option nat)
| TakeAll : act (list nat)
| GetWriter (p : nat) : act segmentWriter
| SetWriter (p : nat) (w : segmentWriter) : act unit
| ReadRecord (id : Z) : act (io_error + octets)
| CreateTemp (id : Z) : act (io_error + string)
| WriteTemp (name : string) (data : octets) : act (Z * bool)
| RemoveTemp (name : string) : act (io_error + unit)
| RenameTo (name : string) (id : Z) : act (io_error + unit)
| RemoveRecord (id : Z) : act (io_error + unit)
| OpenSegment (id seg : Z) : act (io_error + unit)
| StatSegment (id seg : Z) : act (io_error + Z)
| ReadSegment (id seg : Z) : act (io_error + octets)
| WriteSegment (id seg : Z) (data : octets) : act (Z * bool)
| RemoveSegment (id seg : Z) : act (io_error + unit)
| SyncFile : act (io_error + unit)
| CloseFile : act (io_error + unit).

Abbreviation program := (prog act lock).

Definition ask {A} (c : act A) : program A := Call c Done.

Notation "'let*' x := p 'in' k" := (andThen p (fun x => k))
  (at level 10, x pattern, p at level 100, k at level 200) : pty_scope.

(** [x, err := p; if err != nil { return err }] *)
Notation "'let?' x := p 'in' k" := (andThen p (fun a => match a with inl e => Done (inl e) | inr x => k end))
  (at level 10, x pattern, p at level 100, k at level 200) : pty_scope.

Definition writer_at (p : nat) (s : store_state) : segmentWriter := default (mkWriter false (-1) 0) (writers s !! p).

Section store.
Context `{Platform}.

Definition on_disk {A} (m : io A) (s : store_state) : store_state * (io_error + A) :=
  let '(w, x) := m (disk s) in (s <| disk := w |>, x).

(** A write never answers an error of its own ([Store.sys_write]). *)
Definition written_or {A} (x : A) (answer : store_state * (io_error + A)) : store_state * A :=
  (fst answer, match snd answer with inr a => a | inl _ => x end).

(** A write to a file that is open under a name it may have lost. *)
Definition write_open (name : string) (data : octets) : io (Z * bool) :=
  fun w => match fs w !! name with
           | Some _ => sys_write name data w
           | None => let '(w, f) := next_fate w in
                     (w, inr (match f with Works => (zlen data, true) | Fails kept => (zlen (take kept data), false) end))
           end.

Definition create_temp (id : Z) : io string := fun w =>
  let name := stagedPath id (fs w) in (sys_create name;;; Store.ret name) w.

Definition run (B : Type) (c : act B) (s : store_state) : store_state * B :=
  match c in act B return store_state * B with
  | HeldWriter id => (s, held s !! id)
  | WriterFor id =>
      match held s !! id with
      | Some p => (s, p)
      | None => let p := made s in (s <| held := <[id := p]> (held s) |> <| made := S p |>, p)
      end
  | TakeWriter id => (s <| held := delete id (held s) |>, held s !! id)
  | TakeAll => (s <| held := ∅ |>, (map_to_list (held s)).*2)
  | GetWriter p => (s, writer_at p s)
  | SetWriter p w => (s <| writers := <[p := w]> (writers s) |>, tt)
  | ReadRecord id => on_disk (sys_read (recordPath id)) s
  | CreateTemp id => on_disk (create_temp id) s
  | WriteTemp name data => written_or (0, false) (on_disk (write_open name data) s)
  | RemoveTemp name => on_disk (sys_remove name) s
  | RenameTo name id => on_disk (sys_rename name (recordPath id)) s
  | RemoveRecord id => on_disk (sys_remove (recordPath id)) s
  | OpenSegment id seg => on_disk (sys_open_append (segmentPath id seg)) s
  | StatSegment id seg => on_disk (stat_size (segmentPath id seg)) s
  | ReadSegment id seg => on_disk (sys_read (segmentPath id seg)) s
  | WriteSegment id seg data => written_or (0, false) (on_disk (write_open (segmentPath id seg) data) s)
  | RemoveSegment id seg => on_disk (sys_remove (segmentPath id seg)) s
  | SyncFile => on_disk sys_sync s
  | CloseFile => on_disk sys_close s
  end.

(** ** The operations *)

Abbreviation failing := (program (io_error + unit)).

(** The end of [publish]: the staged file is whole and takes the place of the record. *)
Definition put_in_place (record : sessionRecord) (durable : bool) (name : string) : failing :=
  let* closed := ask CloseFile in
  match closed with
  | inl e => let* _ := ask (RemoveTemp name) in Done (inl e)
  | inr _ =>
      let* renamed := ask (RenameTo name (Session record)) in
      match renamed with
      | inl e => let* _ := ask (RemoveTemp name) in Done (inl e)
      | inr _ => if durable then let? _ := ask SyncFile in ask SyncFile else Done (inr tt)
      end
  end.

Definition publish (record : sessionRecord) (durable : bool) : failing :=
  let? name := ask (CreateTemp (Session record)) in
  let* wrote := ask (WriteTemp name (Marshal record ++ newline)) in
  if negb (snd wrote) then
    let* _ := ask CloseFile in let* _ := ask (RemoveTemp name) in Done (inl Fault)
  else
    let* synced := if durable then ask SyncFile else Done (inr tt) in
    match synced with
    | inl e => let* _ := ask CloseFile in let* _ := ask (RemoveTemp name) in Done (inl e)
    | inr _ => put_in_place record durable name
    end.

Definition read (id : Z) : program (io_error + sessionRecord) :=
  let? body := ask (ReadRecord id) in
  Done (match Unmarshal body with
        | None => inl NoParse
        | Some record => if Session record =? id then inr record else inl WrongSession
        end).

Definition create (record : sessionRecord) : failing :=
  holding (RecordLock (Session record)) (publish record false).

Definition setForeground (id : Z) (command cwd : string) : failing :=
  holding (RecordLock id)
    (let? record := read id in publish (record <| Foreground := command |> <| ForegroundCWD := cwd |>) false).

Definition clearStopMark (id : Z) : failing :=
  holding (RecordLock id)
    (let? record := read id in
     publish (record <| EndedAtUnixMs := None |> <| ExitCode := None |> <| EndedThrough := 0 |>) false).

Definition setSize (id cols rows : Z) : failing :=
  holding (RecordLock id)
    (let? record := read id in publish (record <| Cols := cols |> <| Rows := rows |>) false).

Definition setModes (id : Z) (report : octets) : failing :=
  holding (RecordLock id)
    (let? record := read id in publish (record <| Modes := report |>) false).

Definition markEnded (id at_ : Z) (exitCode : option Z) (through : Z) : failing :=
  let* writer := ask (HeldWriter id) in
  let* seg := match writer with
              | None => Done (-1)
              | Some p =>
                  holding (WriterLock p)
                    (let* w := ask (GetWriter p) in
                     if file w then let* _ := ask SyncFile in Done (segment w) else Done (-1))
              end in
  holding (RecordLock id)
    (let? record := read id in
     let record := record <| EndedThrough := through |> in
     let record := if 0 <=? seg then record <| Segment := seg |> else record in
     publish (record <| EndedAtUnixMs := Some at_ |> <| ExitCode := exitCode |>) true).

(** The caller holds the writer's lock. *)
Definition openInto (p : nat) (id seg : Z) : failing :=
  if negb (seg =? 0) && negb (seg =? 1) then Done (inl BadSegment)
  else
    let? _ := ask (OpenSegment id seg) in
    let* size := ask (StatSegment id seg) in
    match size with
    | inl e => let* _ := ask CloseFile in Done (inl e)
    | inr n => let* _ := ask (SetWriter p (mkWriter true seg n)) in Done (inr tt)
    end.

(** The caller holds the writer's lock. *)
Definition roll (p : nat) (id at_ : Z) : failing :=
  let* w := ask (GetWriter p) in
  let next := 1 - segment w in
  let* _ := ask CloseFile in
  let* _ := ask (SetWriter p (w <| file := false |>)) in
  let* removed := ask (RemoveSegment id next) in
  match removed with
  | inl NotExist | inr _ =>
      let? _ := holding (RecordLock id)
                  (let? record := read id in
                   publish (record <| Segment := next |> <| Written := at_ |>) false) in
      openInto p id next
  | inl e => Done (inl e)
  end.

(** The end of [append]: the bytes go to the open segment and are counted. *)
Definition write_segment (p : nat) (id : Z) (data : octets) : failing :=
  let* w := ask (GetWriter p) in
  let* wrote := ask (WriteSegment id (segment w) data) in
  let* _ := ask (SetWriter p (w <| written := written w + fst wrote |>)) in
  Done (if snd wrote then inr tt else inl Fault).

(** Room is made for them when they do not fit. *)
Definition write_with_room (p : nat) (id : Z) (data : octets) (through : Z) : failing :=
  let* w := ask (GetWriter p) in
  let? _ := if (outputSegmentBound <? written w + zlen data) && (0 <? written w)
            then roll p id (through -64 zlen data) else Done (inr tt) in
  write_segment p id data.

Definition append (id : Z) (data : octets) (through : Z) : failing :=
  let* p := ask (WriterFor id) in
  holding (WriterLock p)
    (let* w := ask (GetWriter p) in
     let? _ := if file w then Done (inr tt) else let? record := read id in openInto p id (Segment record) in
     write_with_room p id data through).

Definition size (id seg : Z) : program (io_error + Z) :=
  let* answer := ask (StatSegment id seg) in
  Done (match answer with inl NotExist => inr 0 | other => other end).

Definition tail (id seg atMost : Z) : program (io_error + octets) :=
  if atMost <=? 0 then Done (inr [])
  else
    let* answer := ask (ReadSegment id seg) in
    Done (match answer with
          | inr body => inr (if atMost <? zlen body then slice_from (zlen body - atMost) body else body)
          | inl NotExist => inr []
          | inl e => inl e
          end).

Definition output (id atMost : Z) : program (io_error + (octets * Z)) :=
  let? record := read id in
  let* writer := ask (HeldWriter id) in
  let* record := match writer with
                 | None => Done record
                 | Some p => holding (WriterLock p)
                     (let* w := ask (GetWriter p) in
                      Done (if file w then record <| Segment := segment w |> else record))
                 end in
  let? total := size id (Segment record) in
  let? newer := tail id (Segment record) atMost in
  let? older := tail id (1 - Segment record) (atMost - zlen newer) in
  Done (inr (older ++ newer, Written record +64 total)).

Definition close_writer (p : nat) : program unit :=
  holding (WriterLock p)
    (let* w := ask (GetWriter p) in
     if file w then let* _ := ask CloseFile in ask (SetWriter p (w <| file := false |>)) else Done tt).

Definition if_there (p : failing) : failing :=
  let* answer := p in Done (match answer with inl NotExist => inr tt | other => other end).

Definition remove (id : Z) : failing :=
  let* taken := ask (TakeWriter id) in
  let* _ := match taken with Some p => close_writer p | None => Done tt end in
  holding (RecordLock id)
    (let? _ := if_there (ask (RemoveSegment id 0)) in
     let? _ := if_there (ask (RemoveSegment id 1)) in
     if_there (ask (RemoveRecord id))).

Fixpoint close_writers (ps : list nat) : program unit :=
  match ps with
  | [] => Done tt
  | p :: ps => let* _ := close_writer p in close_writers ps
  end.

Definition close : failing :=
  let* ps := ask TakeAll in let* _ := close_writers ps in Done (inr tt).

(** What a goroutine may ask of the store. *)
Inductive store_op :=
| Create (record : sessionRecord)
| SetForeground (id : Z) (command cwd : string)
| ClearStopMark (id : Z)
| SetSize (id cols rows : Z)
| SetModes (id : Z) (report : octets)
| MarkEnded (id at_ : Z) (exitCode : option Z) (through : Z)
| Append (id : Z) (data : octets) (through : Z)
| Output (id atMost : Z)
| Remove (id : Z)
| CloseStore.

Inductive answer := Returns (x : io_error + unit) | Gives (x : io_error + (octets * Z)).

Definition returning (p : failing) : program answer := let* x := p in Done (Returns x).

Definition program_of (op : store_op) : program answer :=
  match op with
  | Create record => returning (create record)
  | SetForeground id command cwd => returning (setForeground id command cwd)
  | ClearStopMark id => returning (clearStopMark id)
  | SetSize id cols rows => returning (setSize id cols rows)
  | SetModes id report => returning (setModes id report)
  | MarkEnded id at_ exitCode through => returning (markEnded id at_ exitCode through)
  | Append id data through => returning (append id data through)
  | Output id atMost => let* x := output id atMost in Done (Gives x)
  | Remove id => returning (remove id)
  | CloseStore => returning close
  end.

Abbreviation store_machine := (machine (act := act) (lock := lock) (state := store_state) (kind := store_op) (R := answer)).

(** Operations are started at any time and take turns in any order. *)
Inductive store_step : store_machine -> store_machine -> Prop :=
| op_starts op m : store_step m (starts op (program_of op) m)
| op_turn t m m' : turn run t m = Some m' -> store_step m m'.

(** The store of a daemon that just started. *)
Definition newStore (w : world) : store_machine := mkMachine (mkStoreState w ∅ ∅ 0) ∅ [].

(** ** Specification *)

(** What an operation makes of the record it read. *)
Definition updates (op : store_op) (id : Z) (r r' : sessionRecord) : Prop :=
  match op with
  | SetForeground i command cwd => id = i /\ r' = r <| Foreground := command |> <| ForegroundCWD := cwd |>
  | ClearStopMark i => id = i /\ r' = r <| EndedAtUnixMs := None |> <| ExitCode := None |> <| EndedThrough := 0 |>
  | SetSize i cols rows => id = i /\ r' = r <| Cols := cols |> <| Rows := rows |>
  | SetModes i report => id = i /\ r' = r <| Modes := report |>
  | MarkEnded i at_ exitCode through => id = i /\ exists seg, (two_segments seg \/ seg = Segment r) /\
      r' = r <| EndedThrough := through |> <| Segment := seg |> <| EndedAtUnixMs := Some at_ |> <| ExitCode := exitCode |>
  | Append i data through => id = i /\ exists seg, two_segments seg /\
      r' = r <| Segment := seg |> <| Written := through -64 zlen data |>
  | Create _ | Output _ _ | Remove _ | CloseStore => False
  end.

(** What an operation may do to the record of a session: leave it, replace all of it by what
    it makes of the record as it is, make it, or remove it. *)
Definition record_change (op : store_op) (id : Z) (old new : option octets) : Prop :=
  new = old \/
  (exists body r r', old = Some body /\ Unmarshal body = Some r /\ updates op id r r' /\ new = Some (Marshal r' ++ newline)) \/
  (exists r, op = Create r /\ id = Session r /\ new = Some (Marshal r ++ newline)) \/
  (op = Remove id /\ new = None).

Definition changes (op : store_op) (s s' : store_state) : Prop :=
  forall id, record_change op id (fs (disk s) !! recordPath id) (fs (disk s') !! recordPath id).

(** ** The discipline of the operations *)

(** What a goroutine knows: the record it read under its lock, the file it staged with its
    content when it is known, and the writer it holds. *)
Record view := mkView {
  v_read : option (Z * octets);
  v_staged : option (string * option octets);
  v_writer : option (nat * segmentWriter)
}.

#[local] Instance view_settable : Settable view := fun v => mkView (v_read v) (v_staged v) (v_writer v).

Definition rank (l : lock) : nat := match l with WriterLock _ => 0 | RecordLock _ => 1 end.

Definition writes_record (op : store_op) (id : Z) (v : view) (r' : sessionRecord) : Prop :=
  op = Create r' \/ exists body r, v_read v = Some (id, body) /\ Unmarshal body = Some r /\ updates op id r r'.

Definition allowed (op : store_op) (B : Type) (c : act B) (h : gset lock) (v : view) : Prop :=
  match c with
  | GetWriter p => WriterLock p ∈ h
  | SetWriter p w => WriterLock p ∈ h /\ (file w = true -> two_segments (segment w))
  | WriteTemp name data => exists c, v_staged v = Some (name, c)
  | RemoveTemp name => exists c, v_staged v = Some (name, c)
  | RenameTo name id => RecordLock id ∈ h /\ exists r', v_staged v = Some (name, Some (Marshal r' ++ newline)) /\
      Session r' = id /\ writes_record op id v r'
  | RemoveRecord id => RecordLock id ∈ h /\ op = Remove id
  | OpenSegment _ seg | WriteSegment _ seg _ | RemoveSegment _ seg => two_segments seg
  | _ => True
  end.

Definition plausible (B : Type) (c : act B) (h : gset lock) (v : view) : B -> Prop :=
  match c in act B return B -> Prop with
  | GetWriter p => fun w => (file w = true -> two_segments (segment w)) /\
      forall w0, v_writer v = Some (p, w0) -> w = w0
  | CreateTemp id => fun x => match x with inr name => exists d, name = stagedPath id d | inl _ => True end
  | _ => fun _ => True
  end.

Definition after (B : Type) (c : act B) : B -> gset lock -> view -> view :=
  match c in act B return B -> gset lock -> view -> view with
  | GetWriter p => fun w _ v => v <| v_writer := Some (p, w) |>
  | SetWriter p w => fun _ _ v => v <| v_writer := Some (p, w) |>
  | ReadRecord id => fun x h v => match x with
      | inr body => if decide (RecordLock id ∈ h) then v <| v_read := Some (id, body) |> else v
      | inl _ => v end
  | CreateTemp id => fun x _ v => match x with inr name => v <| v_staged := Some (name, Some []) |> | inl _ => v end
  | WriteTemp name data => fun x _ v => v <| v_staged := Some (name, match v_staged v with
      | Some (_, Some []) => if snd x then Some data else None | _ => None end) |>
  | RemoveTemp name => fun _ _ v => v <| v_staged := None |>
  | RenameTo name id => fun x _ v => match x with inr _ => mkView None None (v_writer v) | inl _ => v end
  | RemoveRecord id => fun _ _ v => v <| v_read := None |>
  | _ => fun _ _ v => v
  end.

Definition forget (l : lock) (v : view) : view :=
  match l with
  | WriterLock _ => v <| v_writer := None |>
  | RecordLock _ => v <| v_read := None |>
  end.

Definition nothing_known : view := mkView None None None.

(** A view is true of the store. *)
Record view_ok (s : store_state) (h : gset lock) (v : view) : Prop := {
  view_read : forall id body, v_read v = Some (id, body) -> RecordLock id ∈ h /\ fs (disk s) !! recordPath id = Some body;
  view_staged : forall name c, v_staged v = Some (name, c) -> (exists id d, name = stagedPath id d) /\
    exists content, fs (disk s) !! name = Some content /\ forall x, c = Some x -> content = x;
  view_writer : forall p w, v_writer v = Some (p, w) -> WriterLock p ∈ h /\ writer_at p s = w
}.

Record store_inv (s : store_state) (hs : list (gset lock * view)) : Prop := {
  inv_views : forall t h v, hs !! t = Some (h, v) -> view_ok s h v;
  inv_staged : forall t1 t2 h1 v1 h2 v2 name c1 c2, hs !! t1 = Some (h1, v1) -> hs !! t2 = Some (h2, v2) ->
    v_staged v1 = Some (name, c1) -> v_staged v2 = Some (name, c2) -> t1 = t2;
  inv_writers : forall p w, writers s !! p = Some w -> file w = true -> two_segments (segment w)
}.

(** ** The laws *)

Context `{!PlatformLaws}.

(** What a call on the disk may do to what is not its own. *)
Definition disk_frame (keep : string -> Prop) (s s' : store_state) : Prop :=
  held s' = held s /\ writers s' = writers s /\ forall name, keep name -> fs (disk s') !! name = fs (disk s) !! name.

Lemma on_disk_frame {A} (keep : string -> Prop) (m : io A) s : (forall w name, keep name -> fs (fst (m w)) !! name = fs w !! name) ->
  disk_frame keep s (fst (on_disk m s)).
Proof. intros Hm. unfold on_disk. specialize (Hm (disk s)). destruct (m (disk s)) as [w x]. by split_and!. Qed.

Lemma next_fate_fs w : fs (fst (next_fate w)) = fs w.
Proof. unfold next_fate. by destruct (fates w). Qed.

Lemma look_frame {A} (f : files -> io_error + A) w : fs (fst (look f w)) = fs w.
Proof. unfold look. pose proof (next_fate_fs w). by destruct (next_fate w) as [w1 []]. Qed.

Lemma call_frame f w name : f (fs w) !! name = fs w !! name -> fs (fst (Store.call f w)) !! name = fs w !! name.
Proof. unfold Store.call. pose proof (next_fate_fs w) as E. destruct (next_fate w) as [w1 []]; cbn in *; by rewrite E. Qed.

Lemma remove_frame target w name : name <> target -> fs (fst (sys_remove target w)) !! name = fs w !! name.
Proof.
  intros Hne. unfold sys_remove. pose proof (next_fate_fs w) as E. destruct (next_fate w) as [w1 []]; cbn in *; [|by rewrite E].
  destruct (fs w1 !! target); cbn; rewrite E; [by rewrite lookup_delete_ne|done].
Qed.

Lemma write_frame target data w name : name <> target -> fs (fst (write_open target data w)) !! name = fs w !! name.
Proof.
  intros Hne. unfold write_open, sys_write. pose proof (next_fate_fs w) as E.
  destruct (fs w !! target); destruct (next_fate w) as [w1 []]; cbn in *; rewrite E; by rewrite ?lookup_insert_ne.
Qed.

(** What a view says stays true while the disk keeps what it speaks of. *)
Lemma view_frame keep s s' h v : disk_frame keep s s' -> view_ok s h v ->
  (forall id body, v_read v = Some (id, body) -> keep (recordPath id)) ->
  (forall name c, v_staged v = Some (name, c) -> keep name) -> view_ok s' h v.
Proof.
  intros (_ & Ew & Ek) [V1 V2 V3] Hr Hs. constructor.
  - intros id body Hv. destruct (V1 id body Hv) as [? E]. split; [done|]. rewrite Ek; [done|by eapply Hr].
  - intros name c Hv. destruct (V2 name c Hv) as (? & content & E & ?). split; [done|]. exists content. split; [|done].
    rewrite Ek; [done|by eapply Hs].
  - intros p w Hv. destruct (V3 p w Hv) as [? E]. split; [done|]. unfold writer_at. by rewrite Ew.
Qed.

Definition kept (keep : string -> Prop) (v : view) : Prop :=
  (forall id body, v_read v = Some (id, body) -> keep (recordPath id)) /\
  (forall name c, v_staged v = Some (name, c) -> keep name).

(** A turn of goroutine [t]: the others' views stay true, and what it stages is its own. *)
Lemma inv_turn s s' hs t h v h' v' : store_inv s hs -> hs !! t = Some (h, v) ->
  (forall u h2 v2, u <> t -> hs !! u = Some (h2, v2) -> view_ok s' h2 v2) -> view_ok s' h' v' ->
  (forall name c, v_staged v' = Some (name, c) -> (exists c', v_staged v = Some (name, c')) \/
    forall u h2 v2 c', hs !! u = Some (h2, v2) -> v_staged v2 <> Some (name, c')) ->
  (forall p w, writers s' !! p = Some w -> file w = true -> two_segments (segment w)) ->
  store_inv s' (<[t := (h', v')]> hs).
Proof.
  intros [I1 I2 I3] Ht Hothers Hown Hstaged Hw.
  assert (Hlook : forall u h2 v2, <[t := (h', v')]> hs !! u = Some (h2, v2) ->
    u = t /\ h2 = h' /\ v2 = v' \/ u <> t /\ hs !! u = Some (h2, v2)).
  { intros u h2 v2. destruct (decide (u = t)) as [->|Hne].
    - rewrite list_lookup_insert_eq by (by eapply lookup_lt_Some). intros [= <- <-]. by left.
    - rewrite list_lookup_insert_ne by done. auto. }
  constructor; [|..|done].
  - intros u h2 v2 [(-> & -> & ->)|[Hne E]]%Hlook; [done|by apply (Hothers u)].
  - intros t1 t2 h1 v1 h2 v2 name c1 c2 [(-> & -> & ->)|[N1 E1]]%Hlook [(-> & -> & ->)|[N2 E2]]%Hlook S1 S2; [done|..].
    + destruct (Hstaged name c1 S1) as [[c' Hc]|Hfree]; [|by destruct (Hfree t2 h2 v2 c2 E2)]. by eapply I2.
    + destruct (Hstaged name c2 S2) as [[c' Hc]|Hfree]; [|by destruct (Hfree t1 h1 v1 c1 E1)]. by eapply I2.
    + by eapply I2.
Qed.

Lemma inv_disk keep s s' hs t h v v' : store_inv s hs -> hs !! t = Some (h, v) -> disk_frame keep s s' ->
  (forall u h2 v2, u <> t -> hs !! u = Some (h2, v2) -> kept keep v2) -> view_ok s' h v' ->
  (forall name c, v_staged v' = Some (name, c) -> (exists c', v_staged v = Some (name, c')) \/
    forall u h2 v2 c', hs !! u = Some (h2, v2) -> v_staged v2 <> Some (name, c')) ->
  store_inv s' (<[t := (h, v')]> hs).
Proof.
  intros Hi Ht Hf Hk Hown Hstaged. apply (inv_turn s s' hs t h v); try done.
  - intros u h2 v2 Hne E. apply (view_frame keep s s'); [done|by eapply inv_views|by apply (Hk u h2 v2)..].
  - destruct Hf as (_ & -> & _). apply (inv_writers _ _ Hi).
Qed.

(** A call that leaves every record and every staged file alone. *)
Definition harmless (name : string) : Prop := (exists id, name = recordPath id) \/ (exists id d, name = stagedPath id d).

Lemma kept_harmless s hs u h v : store_inv s hs -> hs !! u = Some (h, v) -> kept harmless v.
Proof.
  intros Hi E. pose proof (inv_views _ _ Hi u h v E) as [V1 V2 V3]. split.
  - intros id body _. left. by exists id.
  - intros name c [? _]%V2. by right.
Qed.

Lemma segment_harmless id seg name : two_segments seg -> harmless name -> name <> segmentPath id seg.
Proof.
  intros Hseg [[id' ->]|(id' & d & ->)] E.
  - by apply (segment_not_record id seg id').
  - by apply (staged_not_segment id' d id seg).
Qed.

Lemma inv_harmless s s' hs t h v : store_inv s hs -> hs !! t = Some (h, v) -> disk_frame harmless s s' ->
  store_inv s' (<[t := (h, v)]> hs) /\ forall op, changes op s s'.
Proof.
  intros Hi Ht Hf. split.
  - apply (inv_disk harmless s s' hs t h v); try done; [intros u h2 v2 _; by apply (kept_harmless s hs)| |eauto].
    pose proof (kept_harmless s hs t h v Hi Ht) as [K1 K2]. by apply (view_frame harmless s s'); [|by eapply inv_views|..].
  - intros op id. left. apply Hf. left. by exists id.
Qed.

(** A call that touches the disk only at the segment [seg], or not at all. *)
Lemma segment_call {A} (m : io A) id seg s hs t h v : two_segments seg ->
  (forall w name, name <> segmentPath id seg -> fs (fst (m w)) !! name = fs w !! name) ->
  store_inv s hs -> hs !! t = Some (h, v) ->
  store_inv (fst (on_disk m s)) (<[t := (h, v)]> hs) /\ forall op, changes op s (fst (on_disk m s)).
Proof.
  intros Hseg Hm Hi Ht. apply inv_harmless; [done|done|]. apply on_disk_frame. intros w name Hh. apply Hm.
  by apply segment_harmless.
Qed.

Lemma looking_call {A} (f : files -> io_error + A) s hs t h v : store_inv s hs -> hs !! t = Some (h, v) ->
  store_inv (fst (on_disk (look f) s)) (<[t := (h, v)]> hs) /\ forall op, changes op s (fst (on_disk (look f) s)).
Proof. intros Hi Ht. apply inv_harmless; [done|done|]. apply on_disk_frame. intros w name _. by rewrite look_frame. Qed.

Definition call_law op B (c : act B) : Prop := forall s hs t h v,
  store_inv s hs -> apart hs -> hs !! t = Some (h, v) -> allowed op B c h v ->
  let '(s', x) := run B c s in
  plausible B c h v x /\ store_inv s' (<[t := (h, after B c x h v)]> hs) /\ changes op s s'.

(** A call that leaves the disk and the writers alone. *)
Lemma maps_call s s' hs t h v : store_inv s hs -> hs !! t = Some (h, v) -> disk s' = disk s -> writers s' = writers s ->
  store_inv s' (<[t := (h, v)]> hs) /\ forall op, changes op s s'.
Proof.
  intros Hi Ht Ed Ew. split; [|intros op id; left; by rewrite Ed]. 
  assert (Hv : forall u h2 v2, hs !! u = Some (h2, v2) -> view_ok s' h2 v2).
  { intros u h2 v2 E. destruct (inv_views _ _ Hi u h2 v2 E) as [V1 V2 V3]. constructor; rewrite ?Ed; try done.
    unfold writer_at. by rewrite Ew. }
  apply (inv_turn s s' hs t h v); [done|done|by eauto|by eauto|by eauto|]. rewrite Ew. apply (inv_writers _ _ Hi).
Qed.

Lemma law_maps op : (forall id, call_law op _ (HeldWriter id)) /\ (forall id, call_law op _ (WriterFor id)) /\
  (forall id, call_law op _ (TakeWriter id)) /\ call_law op _ TakeAll.
Proof.
  split_and!; [intros id..|]; intros s hs t h v Hi Ha Ht _; cbn.
  - destruct (maps_call s s hs t h v) as [H1 H2]; [done..|]. auto.
  - destruct (held s !! id) as [p|].
    + destruct (maps_call s s hs t h v) as [H1 H2]; [done..|]. auto.
    + split; [done|]. match goal with |- store_inv ?s' _ /\ _ => destruct (maps_call s s' hs t h v) as [H1 H2]; [done..|] end. auto.
  - split; [done|]. match goal with |- store_inv ?s' _ /\ _ => destruct (maps_call s s' hs t h v) as [H1 H2]; [done..|] end. auto.
  - split; [done|]. match goal with |- store_inv ?s' _ /\ _ => destruct (maps_call s s' hs t h v) as [H1 H2]; [done..|] end. auto.
Qed.

Lemma writer_at_ok s hs p : store_inv s hs -> file (writer_at p s) = true -> two_segments (segment (writer_at p s)).
Proof.
  intros Hi. unfold writer_at. destruct (writers s !! p) as [w|] eqn:E; [|done]. by apply (inv_writers _ _ Hi p).
Qed.

Lemma law_get op p : call_law op _ (GetWriter p).
Proof.
  intros s hs t h v Hi Ha Ht Hp. cbn in *. pose proof (inv_views _ _ Hi t h v Ht) as [V1 V2 V3]. split_and!.
  - by apply (writer_at_ok s hs).
  - intros w0 Hv. by apply V3.
  - apply (inv_turn s s hs t h v); [done|done|..].
    + intros u h2 v2 _ E. by apply (inv_views _ _ Hi u).
    + constructor; [done|done|]. cbn. by intros p' w [= <- <-].
    + cbn. eauto.
    + apply (inv_writers _ _ Hi).
  - intros id. by left.
Qed.

Lemma law_set op p w : call_law op _ (SetWriter p w).
Proof.
  intros s hs t h v Hi Ha Ht [Hp Hw]. cbn in *. pose proof (inv_views _ _ Hi t h v Ht) as [V1 V2 V3]. split_and!; [done| |].
  - apply (inv_turn s _ hs t h v); [done|done|..].
    + intros u h2 v2 Hne E. destruct (inv_views _ _ Hi u h2 v2 E) as [U1 U2 U3]. constructor; [done|done|].
      intros p' w' Hv. destruct (U3 p' w' Hv) as [Hin Ew]. split; [done|]. unfold writer_at. cbn.
      rewrite lookup_insert_ne; [done|]. intros <-. by apply Hne, (Ha (WriterLock p) u t h2 v2 h v).
    + constructor; [done|done|]. cbn. intros p' w' [= <- <-]. split; [done|]. unfold writer_at. cbn. by rewrite lookup_insert_eq.
    + cbn. eauto.
    + cbn. intros p' w'. destruct (decide (p = p')) as [<-|Hne].
      * rewrite lookup_insert_eq. by intros [= <-].
      * rewrite lookup_insert_ne by done. apply (inv_writers _ _ Hi).
  - intros id. by left.
Qed.

Lemma law_read op id : call_law op _ (ReadRecord id).
Proof.
  intros s hs t h v Hi Ha Ht _. destruct (run _ (ReadRecord id) s) as [s' x] eqn:E. split; [done|].
  destruct (looking_call (fun d => match d !! recordPath id with Some body => inr body | None => inl NotExist end) s hs t h v Hi Ht) as [H1 H2].
  assert (Es : s' = fst (on_disk (sys_read (recordPath id)) s)) by (cbn in E; by rewrite E).
  fold (sys_read (recordPath id)) in H1, H2. rewrite <- Es in H1, H2. split; [|apply H2].
  destruct x as [e|body]; [done|]. cbn. destruct (decide _) as [Hl|]; [|done].
  assert (Ebody : fs (disk s') !! recordPath id = Some body).
  { cbn in E. unfold on_disk, sys_read, look in E. pose proof (next_fate_fs (disk s)) as Ef.
    destruct (next_fate (disk s)) as [w []]; [|done]. cbn in *. rewrite Ef in E.
    destruct (fs (disk s) !! recordPath id) eqn:Er; [|done]. injection E as <- <-. cbn. by rewrite Ef. }
  rewrite <- (list_insert_insert_eq hs t _ (h, v)).
  apply (inv_disk (fun _ => True) s' s' _ t h v); [done|by rewrite list_lookup_insert_eq by (by eapply lookup_lt_Some)|done|done|..].
  - destruct (inv_views _ _ H1 t h v) as [V1 V2 V3]; [by rewrite list_lookup_insert_eq by (by eapply lookup_lt_Some)|].
    constructor; [|done|done]. cbn. by intros id' body' [= <- <-].
  - cbn. eauto.
Qed.

(** The others' knowledge where one goroutine changes a file it staged itself. *)
Lemma others_kept s hs t h v name c : store_inv s hs -> hs !! t = Some (h, v) -> v_staged v = Some (name, c) ->
  forall u h2 v2, u <> t -> hs !! u = Some (h2, v2) -> kept (fun n => n <> name) v2.
Proof.
  intros Hi Ht Hv u h2 v2 Hne E. pose proof (inv_views _ _ Hi t h v Ht) as [V1 V2 V3].
  destruct (V2 name c Hv) as [(id & d & ->) _]. split.
  - intros id' body _ En. by apply (staged_not_record id d id').
  - intros n c' Hn ->. apply Hne. by eapply (inv_staged _ _ Hi u t).
Qed.

Lemma own_read s hs t h v name c : store_inv s hs -> hs !! t = Some (h, v) -> v_staged v = Some (name, c) ->
  forall id, recordPath id <> name.
Proof.
  intros Hi Ht Hv id En. pose proof (inv_views _ _ Hi t h v Ht) as [V1 V2 V3].
  destruct (V2 name c Hv) as [(id' & d & ->) _]. by apply (staged_not_record id' d id).
Qed.

(** The view of the goroutine itself, but for what it staged. *)
Lemma own_view s s' h v st : view_ok s h v -> disk_frame (fun n => exists id, n = recordPath id) s s' ->
  (forall name c, st = Some (name, c) -> (exists id d, name = stagedPath id d) /\
    exists content, fs (disk s') !! name = Some content /\ forall x, c = Some x -> content = x) ->
  view_ok s' h (v <| v_staged := st |>).
Proof.
  intros [V1 V2 V3] (_ & Ew & Ek) Hst. constructor; cbn; [|done|].
  - intros id body Hv. destruct (V1 id body Hv) as [? E]. split; [done|]. rewrite Ek; [done|by exists id].
  - intros p w Hv. destruct (V3 p w Hv) as [? E]. split; [done|]. unfold writer_at. by rewrite Ew.
Qed.

Lemma law_temp op id : call_law op _ (CreateTemp id).
Proof.
  intros s hs t h v Hi Ha Ht _. cbn [run]. set (name := stagedPath id (fs (disk s))).
  assert (Hfresh : forall u h2 v2 c, hs !! u = Some (h2, v2) -> v_staged v2 <> Some (name, c)).
  { intros u h2 v2 c E Hv. destruct (view_staged _ _ _ (inv_views _ _ Hi u h2 v2 E) name c Hv) as [_ (content & Hc & _)].
    unfold name in Hc. by rewrite staged_free in Hc. }
  assert (Hf : disk_frame (fun n => n <> name) s (fst (on_disk (create_temp id) s))).
  { unfold on_disk, create_temp, sys_create, Store.call, bind. fold name. pose proof (next_fate_fs (disk s)) as Ef.
    destruct (next_fate (disk s)) as [w []]; cbn in *; split_and!; try done; intros n Hn; cbn; rewrite Ef; by rewrite ?lookup_insert_ne. }
  assert (Hx : match snd (on_disk (create_temp id) s) with
               | inr n => n = name /\ fs (disk (fst (on_disk (create_temp id) s))) !! name = Some [] | inl _ => True end).
  { unfold on_disk, create_temp, sys_create, Store.call, bind. fold name. pose proof (next_fate_fs (disk s)) as Ef.
    destruct (next_fate (disk s)) as [w []]; cbn in *; [|done]. by rewrite lookup_insert_eq. }
  destruct (on_disk (create_temp id) s) as [s' x]. cbn [fst snd] in *. split_and!.
  - destruct x as [e|n]; [done|]. destruct Hx as [-> _]. cbn. by eexists.
  - assert (Hothers : forall u h2 v2, u <> t -> hs !! u = Some (h2, v2) -> kept (fun n => n <> name) v2).
    { intros u h2 v2 _ E. split; [intros i body _ En; by eapply staged_not_record|]. intros n c Hv ->. by eapply Hfresh. }
    pose proof (inv_views _ _ Hi t h v Ht) as Hv.
    assert (Hrec : disk_frame (fun n => exists i, n = recordPath i) s s').
    { destruct Hf as (? & ? & Hf). split_and!; [done..|]. intros n [i ->]. apply Hf. intros En. by eapply staged_not_record. }
    destruct x as [e|n]; cbn.
    + apply (inv_disk (fun n => n <> name) s s' hs t h v); [done..| |eauto].
      apply (view_frame (fun n => n <> name) s s'); [done..| |].
      * intros i body _ En. by eapply staged_not_record.
      * intros n c Hn ->. by eapply Hfresh.
    + destruct Hx as [-> Hx]. apply (inv_disk (fun n => n <> name) s s' hs t h v); [done..| |].
      * apply (own_view s s'); [done|done|]. intros n c [= <- <-]. split; [by eexists _, _|]. exists []. split; [done|]. by intros x [= <-].
      * cbn. intros n c [= <- <-]. right. intros u h2 v2 c'. apply Hfresh.
  - intros i. left. apply Hf. intros En. by eapply staged_not_record.
Qed.

(** What is written to a file that is there. *)
Lemma write_open_there name data s old : fs (disk s) !! name = Some old ->
  let '(s', wrote) := written_or (0, false) (on_disk (write_open name data) s) in
  exists sent, fs (disk s') !! name = Some (old ++ sent) /\ (snd wrote = true -> sent = data).
Proof.
  intros Hold. unfold on_disk, write_open, sys_write. rewrite Hold. pose proof (next_fate_fs (disk s)) as Ef.
  destruct (next_fate (disk s)) as [w [|n]]; cbn in *; rewrite Ef, Hold; cbn.
  - exists data. by rewrite lookup_insert_eq.
  - exists (take n data). by rewrite lookup_insert_eq.
Qed.

Lemma written_or_fst {A} (x : A) y : fst (written_or x y) = fst y.
Proof. done. Qed.

Lemma law_write_temp op name data : call_law op _ (WriteTemp name data).
Proof.
  intros s hs t h v Hi Ha Ht [c Hv]. cbn [run]. pose proof (inv_views _ _ Hi t h v Ht) as Hview.
  destruct (view_staged _ _ _ Hview name c Hv) as (Hname & old & Hold & Hc).
  pose proof (write_open_there name data s old Hold) as Hw. pose proof (own_read s hs t h v name c Hi Ht Hv) as Hr.
  assert (Hf : disk_frame (fun n => n <> name) s (fst (written_or (0, false) (on_disk (write_open name data) s)))).
  { rewrite written_or_fst. apply on_disk_frame. intros w n Hn. by apply write_frame. }
  destruct (written_or _ _) as [s' wrote]. cbn [fst] in Hf. destruct Hw as (sent & Hs & Hall). split; [done|]. split.
  - apply (inv_disk (fun n => n <> name) s s' hs t h v); [done..|by apply (others_kept s hs t h v name c)| |].
    + cbn. apply (own_view s s'); [done| |].
      * destruct Hf as (? & ? & Hf). split_and!; [done..|]. intros n [i ->]. by apply Hf.
      * intros n c' [= <- <-]. split; [done|]. exists (old ++ sent). split; [done|]. rewrite Hv.
        destruct c as [[|b l]|]; [|done..]. destruct (snd wrote); [|done]. intros x [= <-].
        by rewrite (Hc [] eq_refl), (Hall eq_refl).
    + cbn. intros n c' [= <- <-]. left. eauto.
  - intros i. left. by apply Hf.
Qed.

Lemma law_remove_temp op name : call_law op _ (RemoveTemp name).
Proof.
  intros s hs t h v Hi Ha Ht [c Hv]. cbn [run]. pose proof (inv_views _ _ Hi t h v Ht) as Hview.
  pose proof (own_read s hs t h v name c Hi Ht Hv) as Hr.
  assert (Hf : disk_frame (fun n => n <> name) s (fst (on_disk (sys_remove name) s))).
  { apply on_disk_frame. intros w n Hn. by apply remove_frame. }
  destruct (on_disk (sys_remove name) s) as [s' x]. cbn [fst] in Hf. split; [done|]. split.
  - apply (inv_disk (fun n => n <> name) s s' hs t h v); [done..|by apply (others_kept s hs t h v name c)| |by cbn].
    cbn. apply (own_view s s'); [done| |by intros].
    destruct Hf as (? & ? & Hf). split_and!; [done..|]. intros n [i ->]. by apply Hf.
  - intros i. left. by apply Hf.
Qed.

(** The holder of a record's lock is the only one that knows the record. *)
Lemma others_not_record s hs t h v id : store_inv s hs -> apart hs -> hs !! t = Some (h, v) -> RecordLock id ∈ h ->
  forall u h2 v2 id' body, u <> t -> hs !! u = Some (h2, v2) -> v_read v2 = Some (id', body) -> recordPath id' <> recordPath id.
Proof.
  intros Hi Ha Ht Hl u h2 v2 id' body Hne E Hv ->%recordPath_inj.
  destruct (view_read _ _ _ (inv_views _ _ Hi u h2 v2 E) id body Hv) as [Hl2 _].
  by apply Hne, (Ha (RecordLock id) u t h2 v2 h v).
Qed.

Lemma rename_answer name target s old : fs (disk s) !! name = Some old -> name <> target ->
  let '(s', x) := on_disk (sys_rename name target) s in
  match x with
  | inr _ => fs (disk s') = <[target := old]> (delete name (fs (disk s)))
  | inl _ => fs (disk s') = fs (disk s)
  end.
Proof.
  intros Hold Hne. unfold on_disk, sys_rename, Store.call. pose proof (next_fate_fs (disk s)) as Ef.
  destruct (next_fate (disk s)) as [w []]; cbn in *; [|done]. by rewrite Ef, Hold.
Qed.

Lemma law_rename op name id : call_law op _ (RenameTo name id).
Proof.
  intros s hs t h v Hi Ha Ht (Hl & r' & Hv & Hid & Hop). cbn [run]. pose proof (inv_views _ _ Hi t h v Ht) as Hview.
  destruct (view_staged _ _ _ Hview name _ Hv) as (Hname & old & Hold & Hc). rewrite (Hc _ eq_refl) in Hold. clear old Hc.
  pose proof (own_read s hs t h v name _ Hi Ht Hv) as Hr.
  assert (Hnt : name <> recordPath id) by (intros E; by apply (Hr id)).
  pose proof (rename_answer name (recordPath id) s _ Hold Hnt) as Hans.
  assert (Hmaps : held (fst (on_disk (sys_rename name (recordPath id)) s)) = held s /\
    writers (fst (on_disk (sys_rename name (recordPath id)) s)) = writers s) by (unfold on_disk; by destruct (sys_rename _ _ _)).
  destruct (on_disk _ s) as [s' x]. cbn [fst] in Hmaps. destruct Hmaps as [Eh Ew]. split; [done|].
  set (keep := fun n : string => n <> name /\ n <> recordPath id).
  assert (Hf : disk_frame keep s s').
  { split_and!; [done..|]. intros n [N1 N2]. destruct x; rewrite Hans; [done|]. by rewrite lookup_insert_ne, lookup_delete_ne. }
  assert (Hothers : forall u h2 v2, u <> t -> hs !! u = Some (h2, v2) -> kept keep v2).
  { intros u h2 v2 Hne E. destruct (others_kept s hs t h v name _ Hi Ht Hv u h2 v2 Hne E) as [K1 K2]. split.
    - intros i body Hb. split; [by eapply K1|by eapply (others_not_record s hs t h v id)].
    - intros n c Hn. split; [by eapply K2|]. intros ->.
      destruct (view_staged _ _ _ (inv_views _ _ Hi u h2 v2 E) _ c Hn) as [(i & d & En) _]. by eapply staged_not_record. }
  split.
  - apply (inv_disk keep s s' hs t h v); [done..| |].
    + destruct x as [e|[]]; cbn; [|constructor; [done|done|]; cbn; intros p w Hp; rewrite <- (proj2 (view_writer _ _ _ Hview p w Hp));
        split; [by apply Hview in Hp as [? _]|unfold writer_at; by rewrite Ew]].
      apply (view_frame (fun _ => True) s s'); [|done..]. split_and!; [done..|]. intros n _. by rewrite Hans.
    + destruct x as [e|[]]; cbn; [eauto|done].
  - intros i. destruct (decide (i = id)) as [->|Hne].
    + destruct x as [e|[]]; [left; by rewrite Hans|right]. rewrite Hans, lookup_insert_eq.
      destruct Hop as [->|(body & r & Hb & Hu & Hup)].
      * right. left. by exists r'.
      * left. exists body, r, r'. split_and!; [by apply Hview in Hb as [_ ?]|done..].
    + left. apply Hf. split; [by apply Hr|]. by intros ?%recordPath_inj.
Qed.

Lemma law_remove_record op id : call_law op _ (RemoveRecord id).
Proof.
  intros s hs t h v Hi Ha Ht (Hl & ->). cbn [run]. pose proof (inv_views _ _ Hi t h v Ht) as Hview.
  set (keep := fun n => n <> recordPath id).
  assert (Hf : disk_frame keep s (fst (on_disk (sys_remove (recordPath id)) s))).
  { apply on_disk_frame. intros w n Hn. by apply remove_frame. }
  assert (Hgone : let s' := fst (on_disk (sys_remove (recordPath id)) s) in
    fs (disk s') !! recordPath id = fs (disk s) !! recordPath id \/ fs (disk s') !! recordPath id = None).
  { unfold on_disk, sys_remove. pose proof (next_fate_fs (disk s)) as Ef.
    destruct (next_fate (disk s)) as [w []]; cbn in *; [|left; by rewrite Ef].
    destruct (fs w !! recordPath id) eqn:E; cbn; [right; by rewrite lookup_delete_eq|left; by rewrite Ef]. }
  assert (Hstaged : forall u h2 v2 n c, hs !! u = Some (h2, v2) -> v_staged v2 = Some (n, c) -> keep n).
  { intros u h2 v2 n c E Hn ->. destruct (view_staged _ _ _ (inv_views _ _ Hi u h2 v2 E) _ c Hn) as [(i & d & En) _].
    by eapply staged_not_record. }
  destruct (on_disk _ s) as [s' x]. cbn [fst] in *. split; [done|]. split.
  - apply (inv_disk keep s s' hs t h v); [done..| | |cbn; eauto].
    + intros u h2 v2 Hne E. split; [|by intros n c; eapply Hstaged].
      intros i body Hb. by apply (others_not_record s hs t h v id Hi Ha Ht Hl u h2 v2 i body).
    + cbn. apply (view_frame keep s s' h (v <| v_read := None |>)); [done|..|by cbn|intros n c Hn; exact (Hstaged t h v n c Ht Hn)].
      destruct Hview as [V1 V2 V3]. by constructor.
  - intros i. destruct (decide (i = id)) as [->|Hne].
    + destruct Hgone as [->| ->]; [by left|]. right. right. by right.
    + left. apply Hf. by intros ?%recordPath_inj.
Qed.

Lemma law_segments op id seg : call_law op _ (OpenSegment id seg) /\ call_law op _ (StatSegment id seg) /\
  call_law op _ (ReadSegment id seg) /\ (forall data, call_law op _ (WriteSegment id seg data)) /\ call_law op _ (RemoveSegment id seg).
Proof.
  assert (Hkeep : forall A (m : io A) s hs t h v, two_segments seg ->
    (forall w name, name <> segmentPath id seg -> fs (fst (m w)) !! name = fs w !! name) ->
    store_inv s hs -> hs !! t = Some (h, v) -> store_inv (fst (on_disk m s)) (<[t := (h, v)]> hs) /\ changes op s (fst (on_disk m s))).
  { intros A m s hs t h v Hseg Hm Hi Ht. destruct (segment_call m id seg s hs t h v Hseg Hm Hi Ht) as [H1 H2]. auto. }
  split_and!; [..|intros data|]; intros s hs t h v Hi Ha Ht Hseg; cbn [run after plausible] in *.
  - destruct (Hkeep _ (sys_open_append (segmentPath id seg)) s hs t h v Hseg) as [H1 H2]; [|done..|destruct (on_disk _ s); auto].
    intros w name Hn. apply call_frame. destruct (fs w !! segmentPath id seg); [done|by rewrite lookup_insert_ne].
  - destruct (looking_call (fun d => match d !! segmentPath id seg with Some body => inr (zlen body) | None => inl NotExist end) s hs t h v Hi Ht) as [H1 H2].
    fold (stat_size (segmentPath id seg)) in H1, H2. destruct (on_disk _ s); auto.
  - destruct (looking_call (fun d => match d !! segmentPath id seg with Some body => inr body | None => inl NotExist end) s hs t h v Hi Ht) as [H1 H2].
    fold (sys_read (segmentPath id seg)) in H1, H2. destruct (on_disk _ s); auto.
  - destruct (Hkeep _ (write_open (segmentPath id seg) data) s hs t h v Hseg) as [H1 H2]; [|done..|].
    + intros w name Hn. by apply write_frame.
    + rewrite <- (written_or_fst (0, false)) in H1, H2. destruct (written_or _ _); auto.
  - destruct (Hkeep _ (sys_remove (segmentPath id seg)) s hs t h v Hseg) as [H1 H2]; [|done..|destruct (on_disk _ s); auto].
    intros w name Hn. by apply remove_frame.
Qed.

Lemma law_files op : call_law op _ SyncFile /\ call_law op _ CloseFile.
Proof.
  split; intros s hs t h v Hi Ha Ht _; cbn [run after plausible];
    destruct (looking_call (fun _ => inr tt) s hs t h v Hi Ht) as [H1 H2];
    fold sys_sync in H1, H2; destruct (on_disk (look (fun _ => inr tt)) s) as [s' x] eqn:E;
    change sys_close with (look (fun _ : files => inr (A := io_error) tt)); change sys_sync with (look (fun _ : files => inr (A := io_error) tt)) in *;
    rewrite E; cbn in *; rewrite ?E in H1, H2; auto.
Qed.

Lemma law_any op B (c : act B) : call_law op B c.
Proof.
  destruct (law_maps op) as (M1 & M2 & M3 & M4). destruct (law_files op) as [F1 F2].
  destruct c as [id|id|id| |p|p w|id|id|name data|name|name id|id|id seg|id seg|id seg|id seg data|id seg| |];
    try (destruct (law_segments op id seg) as (S1 & S2 & S3 & S4 & S5));
    auto using law_get, law_set, law_read, law_temp, law_write_temp, law_remove_temp, law_rename, law_remove_record.
Qed.

Lemma store_laws : discipline_laws run allowed plausible after forget store_inv changes.
Proof.
  constructor.
  - intros op B c s hs t h v Hi Ha Ht Hal. exact (law_any op B c s hs t h v Hi Ha Ht Hal).
  - intros s hs t h v l Hi Ht. apply (inv_turn s s hs t h v); [done|done|by intros u h2 v2 _; apply (inv_views _ _ Hi)| |eauto|apply (inv_writers _ _ Hi)].
    destruct (inv_views _ _ Hi t h v Ht) as [V1 V2 V3]. constructor; [|done|].
    + intros id body Hv. destruct (V1 id body Hv). set_solver.
    + intros p w Hv. destruct (V3 p w Hv). set_solver.
  - intros s hs t h v l Hi Ht. apply (inv_turn s s hs t h v); [done|done|by intros u h2 v2 _; apply (inv_views _ _ Hi)| | |apply (inv_writers _ _ Hi)].
    + destruct (inv_views _ _ Hi t h v Ht) as [V1 V2 V3]. destruct l as [p|id]; constructor; cbn; try done.
      * intros id body Hv. destruct (V1 id body Hv). set_solver.
      * intros p' w Hv. destruct (V3 p' w Hv). set_solver.
    + destruct l; cbn; eauto.
  - intros op s id. by left.
Qed.

(** ** The operations keep to the discipline *)

Abbreviation keeps op h v p Q := (safe rank allowed plausible after forget op h v p Q).

(** [p] gives its locks back, and knows the writer it holds as before. *)
Definition restores {A} (h : gset lock) (v : view) : gset lock -> view -> A -> Prop :=
  fun h' v' _ => h' = h /\ v_writer v' = v_writer v.

(** A call whose answer does not matter, or is case analysed. *)
Ltac ask_for := cbn [andThen ask]; cbn [safe]; split; [try done|].

Lemma publish_safe op h v record durable : RecordLock (Session record) ∈ h -> writes_record op (Session record) v record ->
  keeps op h v (publish record durable) (restores h v).
Proof.
  intros Hl Hw. unfold publish. ask_for. intros [e|name] Hx; [by split|]. cbn [after].
  ask_for; [by eexists|]. intros [n whole] _. cbn [snd after v_staged].
  set (content := match v_staged _ with Some (_, Some []) => _ | _ => _ end).
  assert (Hstaged : content = if whole then Some (Marshal record ++ newline) else None) by done. clearbody content.
  assert (Hgone : forall v1 e, (exists c, v_staged v1 = Some (name, c)) -> v_writer v1 = v_writer v ->
    keeps op h v1 (let* _ := ask (RemoveTemp name) in Done (A := io_error + unit) (inl e)) (restores h v)).
  { intros v1 e Hv1 Hv2. ask_for. intros x _. by split. }
  destruct whole; cbn [negb]; subst content.
  2:{ ask_for. intros x _. apply Hgone; [by eexists|done]. }
  assert (Hrest : keeps op h (v <| v_staged := Some (name, Some (Marshal record ++ newline)) |>)
    (put_in_place record durable name) (restores h v)).
  { unfold put_in_place. ask_for. intros [e|[]] _; [apply Hgone; [by eexists|done]|]. ask_for.
    - split; [done|]. exists record. done.
    - intros [e|[]] _; [apply Hgone; [by eexists|done]|]. destruct durable; [|by split].
      ask_for. intros [e|[]] _; [by split|]. ask_for. intros x _. by split. }
  destruct durable; [|exact Hrest]. ask_for. intros [e|[]] _; [|exact Hrest].
  ask_for. intros x _. apply Hgone; [by eexists|done].
Qed.

Lemma read_safe op h v id :
  keeps op h v (read id) (fun h' v' x => h' = h /\ v_writer v' = v_writer v /\ match x with
    | inr r => Session r = id /\ (RecordLock id ∈ h -> exists body, v_read v' = Some (id, body) /\ Unmarshal body = Some r)
    | inl _ => True end).
Proof.
  unfold read. ask_for. intros [e|body] _; [done|]. cbn. split; [done|].
  split; [by destruct (decide _)|]. destruct (Unmarshal body) as [r|] eqn:Er; [|done].
  destruct (Z.eqb_spec (Session r) id) as [E|]; [|done]. split; [done|]. intros Hl. rewrite decide_True by done. by exists body.
Qed.

(** A record read and replaced under its lock. *)
Lemma update_safe op h v id (f : sessionRecord -> sessionRecord) durable :
  (forall l, l ∈ h -> (rank l < 1)%nat) -> (forall r, Session (f r) = Session r) -> (forall r, updates op id r (f r)) ->
  keeps op h v (holding (RecordLock id) (let? r := read id in publish (f r) durable)) (restores h v).
Proof.
  intros Hr Hid Hup. apply safe_holding; [by intros ?%Hr%Nat.lt_irrefl|done|]. apply safe_andThen.
  eapply safe_mono; [|apply read_safe]. intros h1 v1 [e|r] (-> & Ew & Hx); [by split|]. destruct Hx as [<- Hx].
  destruct Hx as (body & Hb & Hu); [set_solver|]. eapply safe_mono; [|apply publish_safe; rewrite Hid].
  - intros h2 v2 x [-> E2]. split; [done|]. split; [done|]. cbn. congruence.
  - set_solver.
  - right. exists body, r. done.
Qed.

(** A writer that is known to be open. *)
Definition knows_open (p : nat) (v : view) : Prop :=
  exists w, v_writer v = Some (p, w) /\ file w = true /\ two_segments (segment w).

Lemma openInto_safe op h v p id seg : WriterLock p ∈ h ->
  keeps op h v (openInto p id seg) (fun h' v' x => h' = h /\ (x = inr tt -> knows_open p v')).
Proof.
  intros Hp. unfold openInto. destruct (negb (seg =? 0) && negb (seg =? 1)) eqn:Es; [by split|].
  assert (Hseg : two_segments seg).
  { unfold two_segments. destruct (Z.eqb_spec seg 0), (Z.eqb_spec seg 1); auto. done. }
  ask_for. intros [e|[]] _; [by split|]. ask_for. intros [e|n] _; ask_for.
  - intros x _. by split.
  - intros x _. split; [done|]. intros _. by eexists.
Qed.

Lemma roll_safe id data through h v p : WriterLock p ∈ h -> (forall l, l ∈ h -> (rank l < 1)%nat) -> knows_open p v ->
  keeps (Append id data through) h v (roll p id (through -64 zlen data)) (fun h' v' x => h' = h /\ (x = inr tt -> knows_open p v')).
Proof.
  intros Hp Hr (w & Hw & Hf & Hs). unfold roll. ask_for. intros w' [_ Hw']. rewrite (Hw' w Hw). clear w' Hw'.
  assert (Hnext : two_segments (1 - segment w)) by (unfold two_segments in *; lia).
  ask_for. intros x _. ask_for. intros x' _. ask_for.
  assert (Hrest : forall v1, keeps (Append id data through) h v1
    (let? _ := holding (RecordLock id)
                 (let? record := read id in
                  publish (record <| Segment := 1 - segment w |> <| Written := through -64 zlen data |>) false) in
     openInto p id (1 - segment w)) (fun h' v' x => h' = h /\ (x = inr tt -> knows_open p v'))).
  { intros v1. apply safe_andThen.
    eapply safe_mono; [|apply (update_safe _ h v1 id (fun r => r <| Segment := 1 - segment w |> <| Written := through -64 zlen data |>)); [done|done|]].
    - intros h2 v2 [e|[]] [-> _]; [by split|]. by apply openInto_safe.
    - intros r. cbn. split; [done|]. by exists (1 - segment w). }
  intros [[]|[]] _; [exact (Hrest _)|by split..|exact (Hrest _)].
Qed.

Lemma append_safe id data through : keeps (Append id data through) ∅ nothing_known (append id data through) (fun h _ _ => h = ∅).
Proof.
  unfold append. ask_for. intros p _. apply safe_holding; [set_solver|set_solver|].
  set (h := {[WriterLock p]} ∪ ∅ : gset lock). assert (Hp : WriterLock p ∈ h) by set_solver.
  assert (Hr : forall l, l ∈ h -> (rank l < 1)%nat) by (intros l Hl; assert (l = WriterLock p) as -> by set_solver; cbn; lia).
  assert (Hwrite : forall v, knows_open p v -> keeps (Append id data through) h v
    (write_segment p id data) (fun h' v' x => h' = h /\ ∅ = (∅ : gset lock))).
  { intros v (w & Hw & Hf & Hs). unfold write_segment. ask_for. intros w' [_ Hw']. rewrite (Hw' w Hw). ask_for. intros x _. ask_for. intros y _. by split. }
  assert (Hroom : forall v, knows_open p v -> keeps (Append id data through) h v
    (write_with_room p id data through) (fun h' v' x => h' = h /\ ∅ = (∅ : gset lock))).
  { intros v Hv. unfold write_with_room. ask_for. intros w' [_ Hw']. pose proof Hv as (w & Hw & Hf & Hs). rewrite (Hw' w Hw). clear w' Hw'.
    assert (Hv' : knows_open p (after _ (GetWriter p) w h v)) by (exists w; done).
    apply safe_andThen. destruct (_ && _); [|by apply Hwrite].
    eapply safe_mono; [|by apply roll_safe]. intros h2 v2 [e|[]] [-> Hk]; [by split|]. apply Hwrite. by apply Hk. }
  ask_for. intros w [Hs _]. apply safe_andThen. destruct (file w) eqn:Ef.
  - apply Hroom. exists w. auto.
  - apply safe_andThen. eapply safe_mono; [|apply read_safe]. intros h1 v1 [e|r] (-> & _ & _); [by split|].
    eapply safe_mono; [|by apply openInto_safe]. intros h2 v2 [e|[]] [-> Hk]; [by split|]. apply Hroom. by apply Hk.
Qed.

Lemma markEnded_safe id at_ exitCode through :
  keeps (MarkEnded id at_ exitCode through) ∅ nothing_known (markEnded id at_ exitCode through) (fun h _ _ => h = ∅).
Proof.
  unfold markEnded. ask_for. intros writer _. apply safe_andThen.
  assert (Hmark : forall v seg, two_segments seg \/ seg = -1 -> keeps (MarkEnded id at_ exitCode through) ∅ v
    (holding (RecordLock id)
      (let? record := read id in
       let record := record <| EndedThrough := through |> in
       let record := if 0 <=? seg then record <| Segment := seg |> else record in
       publish (record <| EndedAtUnixMs := Some at_ |> <| ExitCode := exitCode |>) true)) (fun h _ _ => h = ∅)).
  { intros v seg Hseg. set (f := fun r : sessionRecord => (if 0 <=? seg then r <| EndedThrough := through |> <| Segment := seg |>
      else r <| EndedThrough := through |>) <| EndedAtUnixMs := Some at_ |> <| ExitCode := exitCode |>).
    eapply safe_mono; [|apply (update_safe _ ∅ v id f true)]; [by intros h v' x [-> _]|set_solver|..].
    - intros r. unfold f. by destruct (0 <=? seg).
    - intros r. cbn. split; [done|]. destruct Hseg as [Hs| ->].
      + exists seg. split; [by left|]. unfold f. destruct (Z.leb_spec 0 seg); [done|]. unfold two_segments in Hs. lia.
      + exists (Segment r). split; [by right|]. unfold f. cbn. by destruct r. }
  destruct writer as [p|]; [|apply Hmark; by right].
  apply safe_holding; [set_solver|set_solver|]. ask_for; [set_solver|]. intros w [Hw _]. destruct (file w) eqn:Ef.
  - ask_for. intros x _. split; [done|]. apply Hmark. left. by apply Hw.
  - split; [done|]. apply Hmark. by right.
Qed.

Lemma size_safe op h v id seg : keeps op h v (size id seg) (fun h' _ _ => h' = h).
Proof. unfold size. ask_for. by intros x _. Qed.

Lemma tail_safe op h v id seg atMost : keeps op h v (tail id seg atMost) (fun h' _ _ => h' = h).
Proof. unfold tail. destruct (atMost <=? 0); [done|]. ask_for. by intros x _. Qed.

Lemma output_safe id atMost : keeps (Output id atMost) ∅ nothing_known (output id atMost) (fun h _ _ => h = ∅).
Proof.
  unfold output. apply safe_andThen. eapply safe_mono; [|apply read_safe]. intros h v [e|r] (-> & _ & _); [done|].
  ask_for. intros writer _. apply safe_andThen.
  assert (Htail : forall v r, keeps (Output id atMost) ∅ v
    (let? total := size id (Segment r) in
     let? newer := tail id (Segment r) atMost in
     let? older := tail id (1 - Segment r) (atMost - zlen newer) in
     Done (A := io_error + (octets * Z)) (inr (older ++ newer, Written r +64 total))) (fun h _ _ => h = ∅)).
  { clear. intros v r. apply safe_andThen. eapply safe_mono; [|apply size_safe]. intros h1 v1 [e|n] ->; [done|].
    apply safe_andThen. eapply safe_mono; [|apply tail_safe]. intros h2 v2 [e|newer] ->; [done|].
    apply safe_andThen. eapply safe_mono; [|apply tail_safe]. by intros h3 v3 [e|older] ->. }
  destruct writer as [p|]; [|apply Htail]. apply safe_holding; [set_solver|set_solver|].
  ask_for; [set_solver|]. intros w _. split; [done|]. apply Htail.
Qed.

Lemma close_writer_safe op v p : keeps op ∅ v (close_writer p) (fun h _ _ => h = ∅).
Proof.
  unfold close_writer. apply safe_holding; [set_solver|set_solver|]. ask_for; [set_solver|]. intros w _.
  destruct (file w); [|by split]. ask_for. intros x _. ask_for; [|intros y _; by split]. split; [set_solver|done].
Qed.

Lemma remove_segment_safe id v seg : two_segments seg ->
  keeps (Remove id) ({[RecordLock id]} ∪ ∅) v (if_there (ask (RemoveSegment id seg))) (fun h _ _ => h = {[RecordLock id]} ∪ ∅).
Proof. intros Hs. unfold if_there. ask_for. by intros x _. Qed.

Lemma remove_safe id : keeps (Remove id) ∅ nothing_known (remove id) (fun h _ _ => h = ∅).
Proof.
  unfold remove. ask_for. intros taken _. apply safe_andThen.
  assert (Hrest : forall v, keeps (Remove id) ∅ v
    (holding (RecordLock id)
      (let? _ := if_there (ask (RemoveSegment id 0)) in
       let? _ := if_there (ask (RemoveSegment id 1)) in
       if_there (ask (RemoveRecord id)))) (fun h _ _ => h = ∅)).
  { intros v. apply safe_holding; [set_solver|set_solver|].
    apply safe_andThen. eapply safe_mono; [|apply remove_segment_safe; by left]. intros h1 v1 [e|[]] ->; [by split|].
    apply safe_andThen. eapply safe_mono; [|apply remove_segment_safe; by right]. intros h2 v2 [e|[]] ->; [by split|].
    unfold if_there. ask_for; [split; [set_solver|done]|]. intros x _. by split. }
  destruct taken as [p|]; [|apply Hrest]. eapply safe_mono; [|apply close_writer_safe]. intros h v x ->. apply Hrest.
Qed.

Lemma close_writers_safe op ps : forall v, keeps op ∅ v (close_writers ps) (fun h _ _ => h = ∅).
Proof.
  induction ps as [|p ps IH]; intros v; [done|]. cbn [close_writers]. apply safe_andThen.
  eapply safe_mono; [|apply close_writer_safe]. intros h v1 x ->. apply IH.
Qed.

Lemma close_safe : keeps CloseStore ∅ nothing_known close (fun h _ _ => h = ∅).
Proof.
  unfold close. ask_for. intros ps _. apply safe_andThen. eapply safe_mono; [|apply close_writers_safe]. by intros h v x ->.
Qed.

Lemma create_safe record : keeps (Create record) ∅ nothing_known (create record) (fun h _ _ => h = ∅).
Proof.
  unfold create. apply safe_holding; [set_solver|set_solver|].
  eapply safe_mono; [|apply publish_safe; [set_solver|by left]]. by intros h v x [-> _].
Qed.

Lemma program_safe op : keeps op ∅ nothing_known (program_of op) ends_free.
Proof.
  assert (Hret : forall p, keeps op ∅ nothing_known p (fun h _ _ => h = ∅) -> keeps op ∅ nothing_known (returning p) ends_free).
  { intros p Hp. apply safe_andThen. eapply safe_mono; [|exact Hp]. by intros h v x ->. }
  destruct op as [record|id c w|id|id c r|id report|id at_ code through|id data through|id atMost|id|]; cbn [program_of];
    try (apply Hret).
  - apply create_safe.
  - eapply safe_mono; [|apply (update_safe _ ∅ nothing_known id (fun r => r <| Foreground := c |> <| ForegroundCWD := w |>) false); [set_solver|done|done]]. by intros h v x [-> _].
  - eapply safe_mono; [|apply (update_safe _ ∅ nothing_known id (fun r => r <| EndedAtUnixMs := None |> <| ExitCode := None |> <| EndedThrough := 0 |>) false); [set_solver|done|done]]. by intros h v x [-> _].
  - eapply safe_mono; [|apply (update_safe _ ∅ nothing_known id (fun rec => rec <| Cols := c |> <| Rows := r |>) false); [set_solver|done|done]]. by intros h v x [-> _].
  - eapply safe_mono; [|apply (update_safe _ ∅ nothing_known id (fun r => r <| Modes := report |>) false); [set_solver|done|done]]. by intros h v x [-> _].
  - apply markEnded_safe.
  - apply append_safe.
  - apply safe_andThen. eapply safe_mono; [|apply output_safe]. by intros h v x ->.
  - apply remove_safe.
  - apply close_safe.
Qed.

(** Every store that the operations reach keeps to the discipline. *)
Abbreviation reached_ok := (machine_ok rank allowed plausible after forget store_inv (R := answer)).

Lemma reached w m : rtc store_step (newStore w) m -> reached_ok m.
Proof.
  assert (Hstep : forall m m', reached_ok m -> store_step m m' -> reached_ok m').
  { intros m1 m2 Hok Hs. destruct Hs as [op m1|t m1 m2 Ht].
    - apply starts_ok with (v0 := nothing_known); [|apply program_safe|done].
      intros s hs [I1 I2 I3].
      assert (Hlook : forall t h v, (hs ++ [(∅, nothing_known)]) !! t = Some (h, v) -> hs !! t = Some (h, v) \/ h = ∅ /\ v = nothing_known).
      { intros t h v [E|[_ E]]%lookup_app_Some; [by left|]. destruct (t - length hs)%nat; [|done]. injection E as <- <-. by right. }
      constructor; [|..|done].
      + intros t h v [E|[-> ->]]%Hlook; [by apply (I1 t)|by constructor].
      + intros t1 t2 h1 v1 h2 v2 name c1 c2 [E1|[-> ->]]%Hlook [E2|[-> ->]]%Hlook; [by eapply I2|done..].
    - by destruct (turn_ok run rank allowed plausible after forget store_inv changes store_laws t _ _ Hok Ht). }
  intros Hrun. assert (Hnew : reached_ok (newStore w)).
  { exists []. split; [constructor; cbn; try done; by intros|]. split; [constructor|]. intros l t. split; [done|]. by intros (h & v & ? & _). }
  revert Hnew. induction Hrun as [|x y z Hxy _ IH]; [done|]. intros Hx. apply IH. by eapply Hstep.
Qed.

Lemma moves_steps m m' : rtc (moves run) m m' -> rtc store_step m m'.
Proof. apply rtc_subrel. intros a b [t Ht]. by apply (op_turn t). Qed.

Lemma rank_two l : (rank l < 2)%nat.
Proof. destruct l; cbn; lia. Qed.

(** C13: every operation on the store ends.  However operations were started and took turns,
    with whichever calls failing, as long as one of them has something left to do one of
    them can go on; there is no schedule without an end; and left alone they all return. *)
Theorem store_operations_end w m : rtc store_step (newStore w) m ->
  (forall t op p, threads m !! t = Some (op, p) -> is_done p = false -> exists u m', turn run u m = Some m') /\
  Acc (flip (moves run)) m /\
  exists m', rtc (moves run) m m' /\ finished m'.
Proof.
  intros Hrun%reached. split_and!.
  - intros t op p Et Hp. exact (can_go_on run rank allowed plausible after forget store_inv changes store_laws 2 rank_two m t op p Hrun Et Hp).
  - apply schedules_end.
  - destruct (all_end run rank allowed plausible after forget store_inv changes store_laws 2 rank_two m Hrun) as (m' & ? & ? & _). by exists m'.
Qed.

(** C12: record writes never interleave.  Whatever operations run on the store and whichever
    calls fail, a turn leaves the record of a session as it is, or replaces it whole by what
    the operation makes of the record as it is at that moment, or is the turn of a create or
    a removal of that session. *)
Theorem record_changes_are_whole w m t m' : rtc store_step (newStore w) m -> turn run t m = Some m' ->
  exists op p, threads m !! t = Some (op, p) /\
    forall id, record_change op id (fs (disk (shared m)) !! recordPath id) (fs (disk (shared m')) !! recordPath id).
Proof.
  intros Hrun%reached Ht. by destruct (turn_ok run rank allowed plausible after forget store_inv changes store_laws t m m' Hrun Ht).
Qed.

(** What a goroutine is about to do, and the lock it holds for that. *)
Definition locked {A} (m : store_machine) (t : nat) (p : program A) : Prop :=
  match p with
  | Call (GetWriter q) _ | Call (SetWriter q _) _ => locks m !! WriterLock q = Some t
  | Call (RenameTo _ id) _ | Call (RemoveRecord id) _ => locks m !! RecordLock id = Some t
  | Release l _ => locks m !! l = Some t
  | _ => True
  end.

(** No operation touches what another one has locked.  In every schedule a goroutine that
    is about to read or change the fields of a writer holds that writer's lock, one that is
    about to put a record in place or to remove it holds that record's lock, and none gives
    back a lock it does not hold. *)
Theorem writers_and_records_are_locked w m t op p : rtc store_step (newStore w) m ->
  threads m !! t = Some (op, p) -> locked m t p.
Proof.
  intros (hs & _ & Hsafe & Hlocks)%reached Et.
  destruct (Forall2_lookup_l _ _ _ t (op, p) Hsafe Et) as ([h v] & Eh & Hp). cbn in Hp.
  assert (Hown : forall l, l ∈ h -> locks m !! l = Some t) by (intros l Hl; apply Hlocks; by exists h, v).
  destruct p as [x|B c next|l next|l next]; [done| |done|apply Hown, Hp].
  destruct Hp as [Ha _]. destruct c; try done; cbn in *; apply Hown; tauto.
Qed.

End store.

Abbreviation store_machine := (machine (act := act) (lock := lock) (state := store_state) (kind := store_op) (R := answer)).

(** ** A concrete run *)

#[local] Existing Instance Concrete.platform.
#[local] Existing Instance Concrete.laws.

(** A session's first output and its new size, at once. *)
Abbreviation two_at_once := (starts (SetSize 7 132 50) (program_of (SetSize 7 132 50))
  (starts (Append 7 [Byte.x61] 1) (program_of (Append 7 [Byte.x61] 1))
    (newStore (mkWorld (Concrete.directory_of Concrete.record) ∅ [] [])))).

Lemma two_at_once_run schedule : rtc store_step (newStore (mkWorld (Concrete.directory_of Concrete.record) ∅ [] [])) (turns run schedule two_at_once).
Proof. eapply rtc_l; [apply op_starts|]. eapply rtc_l; [apply op_starts|]. apply moves_steps, turns_moves. Qed.

Lemma store_operations_end_witness :
  let m := turns run [0; 0; 1; 0; 1; 1]%nat two_at_once in
  (forall t op p, threads m !! t = Some (op, p) -> is_done p = false -> exists u m', turn run u m = Some m') /\
  Acc (flip (moves run)) m /\ exists m', rtc (moves run) m m' /\ finished m'.
Proof. exact (store_operations_end _ _ (two_at_once_run _)). Defined.

Lemma record_changes_are_whole_witness :
  let m := turns run (replicate 5 1%nat) two_at_once in
  exists m' : store_machine, turn run 1 m = Some m' /\
    fs (disk (shared m)) !! recordPath 7 <> fs (disk (shared m')) !! recordPath 7 /\
    exists op p, threads m !! 1%nat = Some (op, p) /\
      forall id, record_change op id (fs (disk (shared m)) !! recordPath id) (fs (disk (shared m')) !! recordPath id).
Proof.
  intros m. set (step := fun m' : store_machine => bool_decide (fs (disk (shared m)) !! recordPath 7 <> fs (disk (shared m')) !! recordPath 7)).
  assert (E : match turn run 1 m with Some m' => step m' | None => false end = true) by (vm_compute; reflexivity).
  destruct (turn run 1 m) as [m'|] eqn:Et; [|discriminate E]. exists m'. split; [done|]. split; [by apply bool_decide_eq_true in E|].
  exact (record_changes_are_whole _ m 1 m' (two_at_once_run _) Et).
Defined.

(** The first goroutine is about to open its segment, under its writer's lock. *)
Lemma writers_and_records_are_locked_witness :
  let m := turns run [0; 0; 1]%nat two_at_once in
  exists op p, threads m !! 0%nat = Some (op, p) /\ locked m 0 p /\ locks m !! WriterLock 0 = Some 0%nat.
Proof.
  intros m. assert (E : bool_decide (is_Some (threads m !! 0%nat)) = true) by (vm_compute; reflexivity).
  apply bool_decide_eq_true in E as [[op p] E]. exists op, p. split; [done|]. split; [|vm_compute; reflexivity].
  exact (writers_and_records_are_locked _ m 0 op p (two_at_once_run _) E).
Defined.
