(* ===== verification/StoreAlone.v ===== *)
(** * A store operation that no other one disturbs (store.go)

    The operations of StoreLocks, each run from its start to its end while the others wait,
    are the operations of Store: a writer shared by reference is the writer the map of Store
    holds.  What Store proves of an operation therefore holds of it here, and two runs in
    which operations do disturb each other can be followed to what they leave on the disk. *)

From stdpp Require Import pretty.
From S2P Require Import Prelude Threads Decimal Contract Store StoreLocks.

Section alone.
Context `{PlatformLaws}.

Abbreviation alone p s := (Threads.alone run p s).

(** ** The store of Store *)

Definition as_world (s : store_state) : world :=
  (disk s) <| open := (fun p => writer_at p s) <$> held s |>.

(** A store at rest: each session has a writer of its own, an open one has its file. *)
Record whole (s : store_state) : Prop := {
  whole_own : forall a b p, held s !! a = Some p -> held s !! b = Some p -> a = b;
  whole_made : forall id p, held s !! id = Some p -> (p < made s)%nat;
  whole_fresh : forall p w, writers s !! p = Some w -> (p < made s)%nat;
  whole_file : forall id p, held s !! id = Some p -> file (writer_at p s) = true ->
    two_segments (segment (writer_at p s)) /\ is_Some (fs (disk s) !! segmentPath id (segment (writer_at p s)))
}.

(** The answer of [m] that the answer [x] stands for; [conv] reads it off the state. *)
Definition stands_for {A B} (conv : store_state -> A -> B) (s : store_state) (x : io_error + A) : io_error + B :=
  match x with inl e => inl e | inr a => inr (conv s a) end.

(** [p] from [s] does what [m] does, and what comes of it satisfies [Q]. *)
Definition same_as {A B} (conv : store_state -> A -> B) (s : store_state) (p : program (io_error + A)) (m : io B)
    (Q : store_state -> io_error + A -> Prop) : Prop :=
  let '(s', x) := alone p s in m (as_world s) = (as_world s', stands_for conv s' x) /\ whole s' /\ Q s' x.

Definition itself {A} : store_state -> A -> A := fun _ a => a.

Abbreviation same := (same_as itself).

Lemma stands_itself {A} s (x : io_error + A) : stands_for itself s x = x.
Proof. by destruct x. Qed.

Section rules.
Context {A B C : Type} (conv : store_state -> B -> C).

Lemma same_mono s (p : program (io_error + B)) m (Q Q' : store_state -> io_error + B -> Prop) :
  (forall s' x, whole s' -> Q s' x -> Q' s' x) -> same_as conv s p m Q -> same_as conv s p m Q'.
Proof. unfold same_as. intros HQ. destruct (alone p s) as [s' x]. intros (? & ? & ?). auto. Qed.

Lemma same_done s (x : io_error + B) m (Q : store_state -> io_error + B -> Prop) :
  whole s -> (forall w, m w = (w, stands_for conv s x)) -> Q s x -> same_as conv s (Done x) m Q.
Proof. intros Hs Hm HQ. unfold same_as. cbn [Threads.alone]. by rewrite Hm. Qed.

Lemma same_bind {D} (conv1 : store_state -> A -> D) s (p : program (io_error + A)) m (f : A -> program (io_error + B)) k R Q :
  same_as conv1 s p m R -> (forall s' a, whole s' -> R s' (inr a) -> same_as conv s' (f a) (k (conv1 s' a)) Q) ->
  (forall s' e, R s' (inl e) -> Q s' (inl e)) -> same_as conv s (let? x := p in f x) (bind m k) Q.
Proof.
  unfold same_as. intros Hp Hf He. rewrite alone_andThen. destruct (alone p s) as [s1 [e|x]]; destruct Hp as (Em & Hw & HR); unfold bind; rewrite Em.
  - cbn. auto.
  - exact (Hf s1 x Hw HR).
Qed.

Lemma same_attempt s (p : program (io_error + A)) m (f : io_error + A -> program (io_error + B)) k R Q :
  same s p m R -> (forall s' x, whole s' -> R s' x -> same_as conv s' (f x) (k x) Q) ->
  same_as conv s (andThen p f) (bind (attempt m) k) Q.
Proof.
  unfold same_as. intros Hp Hf. rewrite alone_andThen. destruct (alone p s) as [s1 x]. destruct Hp as (Em & Hw & HR).
  unfold bind, attempt. rewrite Em, stands_itself. exact (Hf s1 x Hw HR).
Qed.

Lemma same_holding s l (p : program (io_error + B)) m Q : same_as conv s p m Q -> same_as conv s (holding l p) m Q.
Proof. unfold same_as. by rewrite alone_holding. Qed.

Lemma same_eq s (p : program (io_error + B)) m m' Q : (forall w, m w = m' w) -> same_as conv s p m' Q -> same_as conv s p m Q.
Proof. intros Em. unfold same_as. destruct (alone p s). by rewrite Em. Qed.

Lemma same_get s p (f : segmentWriter -> program (io_error + B)) m Q :
  same_as conv s (f (writer_at p s)) m Q -> same_as conv s (andThen (ask (GetWriter p)) f) m Q.
Proof. done. Qed.

End rules.

(** ** Calls on the file system *)

Definition ignores_open {A} (m : io A) : Prop :=
  forall w o, m (w <| open := o |>) = let '(w', x) := m w in (w' <| open := o |>, x).

Lemma ignores_look {A} (f : files -> io_error + A) : ignores_open (look f).
Proof. intros w o. unfold look, next_fate. cbn. by destruct (fates w) as [|[|n] rest]. Qed.

Lemma ignores_call f : ignores_open (Store.call f).
Proof. intros w o. unfold Store.call, next_fate. cbn. by destruct (fates w) as [|[|n] rest]. Qed.

Lemma ignores_remove name : ignores_open (sys_remove name).
Proof.
  intros w o. unfold sys_remove, next_fate. cbn. destruct (fates w) as [|[|n] rest]; cbn; [by destruct (fs w !! name)..|done].
Qed.

Lemma ignores_create id : ignores_open (create_temp id).
Proof.
  intros w o. unfold create_temp, bind, sys_create. rewrite ignores_call. cbn [fs].
  change (fs (w <| open := o |>)) with (fs w). by destruct (Store.call _ w) as [w' [e|[]]].
Qed.

Lemma ignores_write name data : ignores_open (write_open name data).
Proof.
  intros w o. unfold write_open, sys_write, next_fate. cbn. by destruct (fs w !! name), (fates w) as [|[|n] rest].
Qed.

(** A file a writer has open. *)
Definition in_use (s : store_state) (name : string) : Prop :=
  exists id p, held s !! id = Some p /\ file (writer_at p s) = true /\ name = segmentPath id (segment (writer_at p s)).

Definition untouched {A} (s : store_state) : store_state -> A -> Prop :=
  fun s' _ => held s' = held s /\ writers s' = writers s /\ made s' = made s.

Lemma on_disk_same {A} (m : io A) s : whole s -> ignores_open m ->
  (forall name, in_use s name -> is_Some (fs (disk s) !! name) -> is_Some (fs (fst (m (disk s))) !! name)) ->
  let '(s', x) := on_disk m s in m (as_world s) = (as_world s', x) /\ whole s' /\ untouched s s' x.
Proof.
  intros [W1 W2 W3 W4] Hm Hk. unfold on_disk, as_world. rewrite Hm. destruct (m (disk s)) as [w x]. cbn [fst] in Hk.
  split; [done|]. split; [|done]. constructor; cbn; [done..|]. intros id p Hp Hf.
  destruct (W4 id p Hp Hf) as [H1 H2]. split; [done|]. apply Hk; [by exists id, p|done].
Qed.

Lemma same_call {A} (c : act (io_error + A)) (m : io A) s : whole s -> (forall s, run _ c s = on_disk m s) -> ignores_open m ->
  (forall name, in_use s name -> is_Some (fs (disk s) !! name) -> is_Some (fs (fst (m (disk s))) !! name)) ->
  same s (ask c) m (untouched s).
Proof.
  intros Hs Hc Hm Hk. unfold same_as. cbn [Threads.alone ask]. rewrite Hc. pose proof (on_disk_same m s Hs Hm Hk) as Hx.
  destruct (on_disk m s) as [s' x]. cbn. by rewrite stands_itself.
Qed.

(** A call that only looks. *)
Definition only_looked {A} (s : store_state) : store_state -> A -> Prop :=
  fun s' x => untouched s s' x /\ fs (disk s') = fs (disk s).

Lemma same_looking {A} (c : act (io_error + A)) f s : whole s -> (forall s, run _ c s = on_disk (look f) s) ->
  same s (ask c) (look f) (only_looked s).
Proof.
  intros Hs Hc. pose proof (same_call c (look f) s Hs Hc (ignores_look f)) as Hx. unfold same_as in *.
  assert (Ef : fs (disk (fst (alone (ask c) s))) = fs (disk s)).
  { cbn [Threads.alone ask]. rewrite Hc. unfold on_disk. pose proof (look_frame f (disk s)) as El. by destruct (look f (disk s)). }
  destruct (alone (ask c) s) as [s' x]. destruct Hx as (? & ? & ?); [intros name _; by rewrite look_frame|done].
Qed.

Lemma same_removal (c : act (io_error + unit)) target s : whole s -> (forall s, run _ c s = on_disk (sys_remove target) s) ->
  ~ in_use s target -> same s (ask c) (sys_remove target) (untouched s).
Proof.
  intros Hs Hc Ht. apply same_call; [done|done|apply ignores_remove|]. intros name Hn. rewrite remove_frame; [done|]. by intros ->.
Qed.

(** What is in use is a segment. *)
Lemma in_use_segment s name : whole s -> in_use s name -> exists id seg, two_segments seg /\ name = segmentPath id seg.
Proof. intros Hs (id & p & Hp & Hf & ->). destruct (whole_file _ Hs id p Hp Hf) as [Hseg _]. by eexists _, _. Qed.

Lemma staged_unused s id d : whole s -> ~ in_use s (stagedPath id d).
Proof. intros Hs (i & seg & Hseg & E)%in_use_segment; [|done]. by eapply staged_not_segment. Qed.

Lemma record_unused s id : whole s -> ~ in_use s (recordPath id).
Proof. intros Hs (i & seg & Hseg & E)%in_use_segment; [|done]. by eapply segment_not_record. Qed.

Lemma create_same s id : whole s -> same s (ask (CreateTemp id)) (create_temp id)
  (fun s' x => untouched s s' x /\ match x with inr name => exists d, name = stagedPath id d /\ is_Some (fs (disk s') !! name) | inl _ => True end).
Proof.
  intros Hs. unfold same_as. cbn [Threads.alone ask run].
  assert (Hk : forall name, in_use s name -> is_Some (fs (disk s) !! name) -> is_Some (fs (fst (create_temp id (disk s))) !! name)).
  { intros name Hn. unfold create_temp, sys_create, Store.call, bind. pose proof (next_fate_fs (disk s)) as Ef.
    destruct (next_fate (disk s)) as [w []]; cbn in *; rewrite Ef; [|done].
    rewrite lookup_insert_ne; [done|]. intros E. rewrite <- E in Hn. exact (staged_unused s id (fs (disk s)) Hs Hn). }
  pose proof (on_disk_same (create_temp id) s Hs (ignores_create id) Hk) as Hx.
  assert (Hname : match snd (on_disk (create_temp id) s) with
    | inr name => name = stagedPath id (fs (disk s)) /\ is_Some (fs (disk (fst (on_disk (create_temp id) s))) !! name) | inl _ => True end).
  { unfold on_disk, create_temp, sys_create, Store.call, bind. destruct (next_fate (disk s)) as [w []]; cbn; [|done].
    rewrite lookup_insert_eq. by split; [|eexists]. }
  destruct (on_disk (create_temp id) s) as [s' x]. cbn [fst snd] in Hname. destruct Hx as (? & ? & ?).
  rewrite stands_itself. split_and!; [done..|]. destruct x; [done|]. destruct Hname. by eexists.
Qed.

(** A write to a file that is there; [c] is the call for it. *)
Lemma same_write {B C} (conv : store_state -> B -> C) s (c : act (Z * bool)) name data (f : Z * bool -> program (io_error + B)) k Q :
  whole s -> (forall s, run _ c s = written_or (0, false) (on_disk (write_open name data) s)) -> is_Some (fs (disk s) !! name) ->
  (forall s' x, whole s' -> untouched s s' x -> same_as conv s' (f x) (k x) Q) ->
  same_as conv s (andThen (ask c) f) (bind (sys_write name data) k) Q.
Proof.
  intros Hs Hc [old Hold] Hf. unfold same_as. cbn [Threads.alone andThen ask]. rewrite Hc.
  assert (Hk : forall n, in_use s n -> is_Some (fs (disk s) !! n) -> is_Some (fs (fst (write_open name data (disk s))) !! n)).
  { intros n _ Hn. destruct (decide (n = name)) as [->|Hne]; [|by rewrite write_frame].
    pose proof (write_open_there name data s old Hold) as Hw. unfold on_disk in Hw.
    destruct (write_open name data (disk s)) as [w [e|x]]; cbn in *; destruct Hw as (sent & -> & _); by eexists. }
  pose proof (on_disk_same (write_open name data) s Hs (ignores_write name data) Hk) as Hx.
  assert (Ew : sys_write name data (as_world s) = write_open name data (as_world s)).
  { unfold write_open. change (fs (as_world s)) with (fs (disk s)). by rewrite Hold. }
  assert (Hno : exists x, snd (on_disk (write_open name data) s) = inr x).
  { unfold on_disk, write_open, sys_write. rewrite Hold. destruct (next_fate (disk s)) as [w []]; cbn; by eexists. }
  unfold bind. rewrite Ew. destruct (on_disk (write_open name data) s) as [s' y]. destruct Hno as [x Ey]. cbn in Ey. subst y.
  destruct Hx as (Em & Hw & Hu). rewrite Em. exact (Hf s' x Hw Hu).
Qed.

Lemma same_sync s : whole s -> same s (ask SyncFile) sys_sync (untouched s).
Proof. intros Hs. eapply same_mono; [|by apply same_looking]. by intros s' x _ [? _]. Qed.

Lemma same_close s : whole s -> same s (ask CloseFile) sys_close (untouched s).
Proof. intros Hs. eapply same_mono; [|by apply same_looking]. by intros s' x _ [? _]. Qed.

Lemma untouched_trans {A B} s s1 s2 (x : A) (y : B) : untouched s s1 x -> untouched s1 s2 y -> untouched s s2 y.
Proof. intros (? & ? & ?) (? & ? & ?). split_and!; congruence. Qed.

(** The staged file is dropped and the error answered. *)
Lemma give_up_same {A} s name (e : io_error) : whole s -> ~ in_use s name ->
  same s (let* _ := ask (RemoveTemp name) in Done (inl e)) (attempt (sys_remove name);;; Store.fail (A := A) e) (untouched s).
Proof.
  intros Hs Hn. eapply same_attempt; [by apply (same_removal (RemoveTemp name) name)|]. intros s' x Hs' Hu.
  apply same_done; [done|done|]. by apply (untouched_trans s s' s' x).
Qed.

Lemma publish_temp record durable w : Store.publish record durable w =
  (do name <- create_temp (Session record);
   do '(_, whole) <- sys_write name (Marshal record ++ newline);
   (if negb whole then attempt sys_close;;; attempt (sys_remove name);;; Store.fail Fault
    else
      do synced <- (if durable then attempt sys_sync else Store.ret (inr tt));
      match synced with
      | inl e => attempt sys_close;;; attempt (sys_remove name);;; Store.fail e
      | inr _ =>
          do closed <- attempt sys_close;
          match closed with
          | inl e => attempt (sys_remove name);;; Store.fail e
          | inr _ =>
              do renamed <- attempt (sys_rename name (recordPath (Session record)));
              match renamed with
              | inl e => attempt (sys_remove name);;; Store.fail e
              | inr _ => if durable then sys_sync;;; sys_sync else Store.ret tt
              end
          end
      end)) w.
Proof.
  unfold Store.publish, create_temp, directory, bind. cbn.
  by destruct (sys_create (stagedPath (Session record) (fs w)) w) as [w1 [e|[]]].
Qed.

Lemma in_use_same {A} s s' (x : A) name : untouched s s' x -> in_use s' name -> in_use s name.
Proof. intros (E1 & E2 & _) (id & p & Hp & Hf & ->). exists id, p. unfold writer_at in *. rewrite E1, E2 in *. auto. Qed.

(** The staged file is dropped, after a close or not, and the error answered. *)
Lemma give_up_after s s2 name {A} (e : io_error) : whole s2 -> untouched s s2 tt -> ~ in_use s2 name ->
  same s2 (let* _ := ask (RemoveTemp name) in Done (inl e)) (attempt (sys_remove name);;; Store.fail (A := A) e) (untouched s).
Proof.
  intros Hs2 Hu Hn. eapply same_mono; [|by apply give_up_same]. intros s3 x _. by apply (untouched_trans s s2 s3 tt).
Qed.

Lemma put_in_place_same s s3 record durable d : let name := stagedPath (Session record) d in whole s3 -> untouched s s3 tt ->
  same s3 (put_in_place record durable name)
    (do closed <- attempt sys_close;
     match closed with
     | inl e => attempt (sys_remove name);;; Store.fail e
     | inr _ =>
         do renamed <- attempt (sys_rename name (recordPath (Session record)));
         match renamed with
         | inl e => attempt (sys_remove name);;; Store.fail e
         | inr _ => if durable then sys_sync;;; sys_sync else Store.ret tt
         end
     end) (untouched s).
Proof.
  intros name Hs3 Hu3. assert (Hfree : forall s2, whole s2 -> ~ in_use s2 name) by (intros s2 Hs2; by apply staged_unused).
  unfold put_in_place. eapply same_attempt; [by apply same_close|]. intros s4 x Hs4 Hu4.
  assert (Hu' : untouched s s4 tt) by (by apply (untouched_trans s s3 s4 tt tt)). clear Hu3 Hu4.
  destruct x as [e|[]]; [by apply give_up_after; [| |apply Hfree]|]. eapply same_attempt.
  - apply (same_call (RenameTo name (Session record)) (sys_rename name (recordPath (Session record)))); [done|done|apply ignores_call|].
    intros n Hn Hthere. unfold sys_rename, Store.call. pose proof (next_fate_fs (disk s4)) as Ef.
    destruct (next_fate (disk s4)) as [w []]; cbn in *; rewrite Ef; [|done].
    destruct (fs (disk s4) !! name); [|done]. rewrite lookup_insert_ne, lookup_delete_ne; [done|..].
    + intros <-. by apply (Hfree s4).
    + intros <-. by apply (record_unused s4 (Session record) Hs4).
  - intros s5 x Hs5 Hu5. assert (Hu6 : untouched s s5 tt) by (by apply (untouched_trans s s4 s5 tt tt)).
    destruct x as [e|[]]; [by apply give_up_after; [| |apply Hfree]|]. destruct durable; [|by apply same_done].
    eapply same_bind; [by apply same_sync| |].
    + intros s6 [] Hs6 Hu7. eapply same_mono; [|by apply same_sync]. intros s7 x _ Hu8.
      apply (untouched_trans s s5 s7 tt); [done|]. by apply (untouched_trans s5 s6 s7 (inr (A := io_error) tt)).
    + intros s6 e Hu7. by apply (untouched_trans s s5 s6 tt).
Qed.

Lemma publish_same s record durable : whole s ->
  same s (publish record durable) (Store.publish record durable) (untouched s).
Proof.
  intros Hs. eapply same_eq; [apply publish_temp|]. unfold publish.
  eapply same_bind; [by apply create_same| |by intros s' e [? _]].
  intros s1 name Hs1 (Hu1 & d & -> & Hthere).
  assert (Hclosed : forall s2 e, whole s2 -> untouched s s2 tt ->
    same s2 (let* _ := ask CloseFile in let* _ := ask (RemoveTemp (stagedPath (Session record) d)) in Done (inl e))
      (attempt sys_close;;; attempt (sys_remove (stagedPath (Session record) d));;; Store.fail (A := unit) e) (untouched s)).
  { intros s2 e Hs2 Hu. eapply same_attempt; [by apply same_close|]. intros s3 x Hs3 Hu3. apply give_up_after; [done| |by apply staged_unused].
    by apply (untouched_trans s s2 s3 tt tt). }
  eapply same_write; [done|done|done|]. intros s2 [n wrote] Hs2 Hu2. cbn [snd].
  assert (Hu : untouched s s2 tt) by (by apply (untouched_trans s s1 s2 (inr (A := io_error) (stagedPath (Session record) d)) tt)). clear Hu1 Hu2 Hs1 Hthere n.
  destruct wrote; cbn [negb]; [|by apply Hclosed]. destruct durable.
  - eapply same_attempt; [by apply same_sync|]. intros s3 x Hs3 Hu3.
    assert (Hu' : untouched s s3 tt) by (by apply (untouched_trans s s2 s3 tt tt)). destruct x as [e|[]]; [by apply Hclosed|by apply put_in_place_same].
  - eapply same_eq; [|by apply put_in_place_same]. intros w. reflexivity.
Qed.

(** ** The operations on a record *)

Lemma read_same s id : whole s -> same s (read id) (Store.read id) (untouched s).
Proof.
  intros Hs. unfold read, Store.read. eapply same_bind; [by apply (same_looking (ReadRecord id))| |by intros s' e [? _]].
  intros s1 body Hs1 [Hu _]. apply same_done; [done| |done]. intros w. unfold itself.
  destruct (Unmarshal body) as [r|]; [|done]. by destruct (Session r =? id).
Qed.

(** A record read and replaced. *)
Lemma update_same s id (f : sessionRecord -> sessionRecord) durable : whole s ->
  same s (holding (RecordLock id) (let? r := read id in publish (f r) durable))
    (do r <- Store.read id; Store.publish (f r) durable) (untouched s).
Proof.
  intros Hs. apply same_holding. eapply same_bind; [by apply read_same| |done].
  intros s1 r Hs1 Hu1. eapply same_mono; [|by apply publish_same].
  intros s2 x _ Hu2. by apply (untouched_trans s s1 s2 (inr (A := io_error) r)).
Qed.

(** ** The operations on a writer *)

Lemma as_world_set s id p w : whole s -> held s !! id = Some p ->
  as_world (s <| writers := <[p := w]> (writers s) |>) = (as_world s) <| open := <[id := w]> (open (as_world s)) |>.
Proof.
  intros Hs Hp.
  assert (E : (fun q => writer_at q (s <| writers := <[p := w]> (writers s) |>)) <$> held s =
    <[id := w]> ((fun q => writer_at q s) <$> held s)).
  { apply map_eq. intros i. rewrite lookup_fmap. unfold writer_at. cbn. destruct (decide (id = i)) as [<-|Hne].
    - rewrite lookup_insert_eq, Hp. cbn. by rewrite lookup_insert_eq.
    - rewrite lookup_insert_ne, lookup_fmap by done. destruct (held s !! i) as [q|] eqn:Eq; [|done]. cbn. f_equal.
      rewrite lookup_insert_ne; [done|]. intros <-. by apply Hne, (whole_own _ Hs id i p). }
  unfold as_world. cbn in *. by rewrite E.
Qed.

(** The writer's file, if it is open. *)
Definition usable (s : store_state) (id : Z) (w : segmentWriter) : Prop :=
  file w = true -> two_segments (segment w) /\ is_Some (fs (disk s) !! segmentPath id (segment w)).

Lemma whole_set s id p w : whole s -> held s !! id = Some p -> usable s id w ->
  whole (s <| writers := <[p := w]> (writers s) |>).
Proof.
  intros Hs Hp Hw. pose proof Hs as [W1 W2 W3 W4]. constructor; cbn; [done|done|..].
  - intros q w'. rewrite lookup_insert_Some. intros [[<- _]|[_ E]]; [by apply (W2 id)|by eapply W3].
  - intros i q Hq. unfold writer_at. cbn. destruct (decide (p = q)) as [<-|Hne].
    + rewrite lookup_insert_eq. cbn. intros Hf. pose proof (W1 i id p Hq Hp) as ->. by apply Hw.
    + rewrite lookup_insert_ne by done. by apply W4.
Qed.

Lemma usable_own s id p : whole s -> held s !! id = Some p -> usable s id (writer_at p s).
Proof. intros Hs Hp. exact (whole_file _ Hs id p Hp). Qed.

Lemma same_set {B C} (conv : store_state -> B -> C) s id p w (f : unit -> program (io_error + B)) m Q :
  whole s -> held s !! id = Some p -> usable s id w ->
  (let s' := s <| writers := <[p := w]> (writers s) |> in
   whole s' -> held s' !! id = Some p -> writer_at p s' = w -> same_as conv s' (f tt) m Q) ->
  same_as conv s (andThen (ask (SetWriter p w)) f) (put_writer id w;;; m) Q.
Proof.
  intros Hs Hp Hw Hf. unfold same_as in *. cbn [Threads.alone andThen ask run].
  specialize (Hf (whole_set s id p w Hs Hp Hw) Hp). unfold put_writer, set_writers, bind.
  rewrite <- (as_world_set s id p w Hs Hp). apply Hf. unfold writer_at. cbn. by rewrite lookup_insert_eq.
Qed.

Abbreviation at_writer p := (fun (s : store_state) (_ : unit) => writer_at p s).

Lemma open_same s id seg : whole s -> same s (ask (OpenSegment id seg)) (sys_open_append (segmentPath id seg))
  (fun s' x => untouched s s' x /\ match x with inr _ => is_Some (fs (disk s') !! segmentPath id seg) | inl _ => True end).
Proof.
  intros Hs. pose proof (same_call (OpenSegment id seg) (sys_open_append (segmentPath id seg)) s Hs ltac:(done) (ignores_call _)) as Hc.
  unfold same_as in *. cbn [Threads.alone ask] in *. destruct (run _ (OpenSegment id seg) s) as [s1 x] eqn:Er.
  destruct Hc as (E1 & E2 & E3).
  - intros name _ Hn. unfold sys_open_append, Store.call. pose proof (next_fate_fs (disk s)) as Ef.
    destruct (next_fate (disk s)) as [w []]; cbn in *; rewrite Ef; [|done].
    destruct (fs (disk s) !! segmentPath id seg); [done|]. apply lookup_insert_is_Some'. by right.
  - split_and!; [done..|]. destruct x as [|[]]; [done|].
    cbn in Er. unfold on_disk, sys_open_append, Store.call in Er. destruct (next_fate (disk s)) as [w []]; [|done].
    injection Er as <-. cbn. destruct (fs w !! segmentPath id seg) eqn:Ew; [by rewrite Ew|by rewrite lookup_insert_eq].
Qed.

Lemma openInto_same s id p seg : whole s -> held s !! id = Some p ->
  same_as (at_writer p) s (openInto p id seg) (Store.openInto id seg)
    (fun s' x => held s' = held s /\ (x = inr tt -> file (writer_at p s') = true)).
Proof.
  intros Hs Hp. unfold openInto, Store.openInto.
  destruct (negb (seg =? 0) && negb (seg =? 1)) eqn:Eseg; [apply same_done; [done|done|by split]|].
  assert (Hseg : two_segments seg) by (unfold two_segments; destruct (Z.eqb_spec seg 0), (Z.eqb_spec seg 1); auto; done).
  eapply same_bind; [by apply open_same| |by intros s' e [[? _] _]].
  intros s1 [] Hs1 [(Eh & Ew & Em) Hthere]. eapply same_attempt; [by apply (same_looking (StatSegment id seg))|].
  intros s2 x Hs2 [(Eh2 & _) Ef2]. destruct x as [e|n].
  - eapply same_attempt; [by apply same_close|]. intros s3 x Hs3 (Eh3 & _). apply same_done; [done|done|].
    split; [|done]. congruence.
  - assert (Hp2 : held s2 !! id = Some p) by congruence. apply (same_set _ s2 id p); [done|done|by rewrite <- Ef2 in Hthere|].
    intros s3 Hs3 Hp3 Ew3. apply same_done; [done| |].
    + intros w. cbn. by rewrite Ew3.
    + rewrite Ew3. split; [|done]. cbn. congruence.
Qed.

(** The other segment is not in use when the writer is closed. *)
Lemma closed_unused s id p seg : whole s -> held s !! id = Some p -> file (writer_at p s) = false -> two_segments seg ->
  ~ in_use s (segmentPath id seg).
Proof.
  intros Hs Hp Hf Hseg (i & q & Hq & Hfq & E). destruct (whole_file _ Hs i q Hq Hfq) as [Hs2 _].
  destruct (decide (id = i)) as [<-|Hne]; [congruence|]. by apply (segment_other_session id i seg (segment (writer_at q s))).
Qed.

Lemma roll_same s id p at_ : whole s -> held s !! id = Some p -> two_segments (segment (writer_at p s)) ->
  same_as (at_writer p) s (roll p id at_) (Store.roll id (writer_at p s) at_)
    (fun s' x => held s' = held s /\ (x = inr tt -> file (writer_at p s') = true)).
Proof.
  intros Hs Hp Hseg. unfold roll, Store.roll. apply same_get. set (w := writer_at p s) in *.
  assert (Hnext : two_segments (1 - segment w)) by (unfold two_segments in *; lia).
  eapply same_attempt; [by apply same_close|]. intros s1 x Hs1 (Eh1 & _).
  apply (same_set _ s1 id p); [done|congruence|done|]. intros s2 Hs2 Hp2 Ew2.
  assert (Eh2 : held s2 = held s) by done. clearbody s2.
  eapply same_attempt; [apply (same_removal (RemoveSegment id (1 - segment w)) (segmentPath id (1 - segment w))); [done|done|]|].
  { apply (closed_unused s2 id p); [done|done|by rewrite Ew2|done]. }
  intros s3 removed Hs3 (Eh3 & _).
  assert (Hrest : same_as (at_writer p) s3
    (let? _ := holding (RecordLock id)
                 (let? record := read id in publish (record <| Segment := 1 - segment w |> <| Written := at_ |>) false) in
     openInto p id (1 - segment w))
    (do record <- Store.read id;
     Store.write (record <| Segment := 1 - segment w |> <| Written := at_ |>);;;
     Store.openInto id (1 - segment w)) (fun s' x => held s' = held s /\ (x = inr tt -> file (writer_at p s') = true))).
  { eapply same_eq; [intros v; symmetry; apply (bind_assoc (Store.read id)
      (fun record => Store.write (record <| Segment := 1 - segment w |> <| Written := at_ |>)) (fun _ => Store.openInto id (1 - segment w)))|].
    eapply same_bind; [by apply (update_same s3 id (fun r => r <| Segment := 1 - segment w |> <| Written := at_ |>) false)| |].
    - intros s4 [] Hs4 (Eh4 & _). eapply same_mono; [|apply openInto_same; [done|congruence]].
      intros s5 x5 _ [Eh5 Hx]. split; [congruence|done].
    - intros s4 e (Eh4 & _). split; [congruence|done]. }
  destruct removed as [[]|[]]; [exact Hrest|..|exact Hrest]; (apply same_done; [done|done|]; split; [congruence|done]).
Qed.

(** *** The map of writers *)

Lemma same_held {B C} (conv : store_state -> B -> C) s id (f : option nat -> program (io_error + B)) k Q :
  same_as conv s (f (held s !! id)) (k ((fun p => writer_at p s) <$> held s !! id)) Q ->
  same_as conv s (andThen (ask (HeldWriter id)) f) (bind (Store.heldWriter id) k) Q.
Proof.
  intros Hf. unfold same_as in *. cbn [Threads.alone andThen ask run]. unfold bind, Store.heldWriter.
  change (open (as_world s)) with ((fun p => writer_at p s) <$> held s). by rewrite lookup_fmap.
Qed.

Lemma same_for {B C} (conv : store_state -> B -> C) s id (f : nat -> program (io_error + B)) k Q : whole s ->
  (forall s1 p, whole s1 -> held s1 !! id = Some p -> same_as conv s1 (f p) (k (writer_at p s1)) Q) ->
  same_as conv s (andThen (ask (WriterFor id)) f) (bind (Store.writerFor id) k) Q.
Proof.
  intros Hs Hf. pose proof Hs as [W1 W2 W3 W4]. unfold same_as in *. cbn [Threads.alone andThen ask run].
  unfold Store.writerFor. rewrite bind_assoc. unfold bind at 1, Store.heldWriter.
  change (open (as_world s)) with ((fun p => writer_at p s) <$> held s). rewrite lookup_fmap.
  destruct (held s !! id) as [p|] eqn:Eh; [exact (Hf s p Hs Eh)|].
  set (s1 := s <| held := <[id := made s]> (held s) |> <| made := S (made s) |>).
  assert (Eat : forall q, writer_at q s1 = writer_at q s) by done.
  assert (Enew : writer_at (made s) s1 = mkWriter false (-1) 0).
  { rewrite Eat. unfold writer_at. destruct (writers s !! made s) as [w|] eqn:E; [|done]. pose proof (W3 _ _ E). lia. }
  assert (Hold : forall i q, held s !! i = Some q -> q <> made s) by (intros i q Hq ->; pose proof (W2 i _ Hq); lia).
  assert (Hs1 : whole s1).
  { constructor; cbn.
    - intros a b p. rewrite !lookup_insert_Some. intros [[<- <-]|[Na Ea]] [[<- Eb]|[Nb Eb]]; [done| | |by eapply W1].
      + by destruct (Hold b _ Eb).
      + subst p. by destruct (Hold a _ Ea).
    - intros i p. rewrite lookup_insert_Some. intros [[_ <-]|[_ E]]; [lia|]. pose proof (W2 i p E). lia.
    - intros p w E. pose proof (W3 p w E). lia.
    - intros i p. rewrite lookup_insert_Some. intros [[<- <-]|[_ E]]; [by rewrite Enew|]. by apply (W4 i p). }
  assert (Ew : as_world s1 = (as_world s) <| open := <[id := mkWriter false (-1) 0]> (open (as_world s)) |>).
  { unfold as_world. cbn. by rewrite fmap_insert, <- Enew. }
  specialize (Hf s1 (made s) Hs1 ltac:(cbn; by rewrite lookup_insert_eq)). rewrite Enew in Hf.
  unfold put_writer, set_writers, bind, Store.ret. cbn [fmap option_fmap option_map]. rewrite <- Ew. exact Hf.
Qed.

Definition whatever {A} : store_state -> A -> Prop := fun _ _ => True.

Lemma append_same s id data through : whole s ->
  same s (append id data through) (Store.append id data through) whatever.
Proof.
  intros Hs. unfold append, Store.append. apply same_for; [done|]. intros s1 p Hs1 Hp1. apply same_holding, same_get.
  set (opened := fun s' (x : io_error + unit) => held s' = held s1 /\ (x = inr tt -> file (writer_at p s') = true)).
  eapply (same_bind itself (at_writer p)) with (R := opened).
  - destruct (file (writer_at p s1)) eqn:Ef; [by apply same_done|].
    eapply same_bind; [by apply read_same| |by intros s' e (? & _)]. intros s2 r Hs2 (Eh & _).
    eapply same_mono; [|by apply openInto_same; [|congruence]]. intros s3 x _ [E Hx]. split; [congruence|done].
  - intros s2 [] Hs2 [Eh2 Hf2]. specialize (Hf2 eq_refl). assert (Hp2 : held s2 !! id = Some p) by congruence.
    unfold write_with_room, write_segment. apply same_get. eapply (same_bind itself (at_writer p)) with (R := opened).
    + destruct (_ && _); [|by apply same_done].
      destruct (whole_file _ Hs2 id p Hp2 Hf2) as [Hseg _].
      eapply same_mono; [|by apply roll_same]. intros s3 x _ [E Hx]. split; [congruence|done].
    + intros s3 [] Hs3 [Eh3 Hf3]. specialize (Hf3 eq_refl). assert (Hp3 : held s3 !! id = Some p) by congruence.
      destruct (whole_file _ Hs3 id p Hp3 Hf3) as [Hseg Hthere]. apply same_get.
      eapply (same_write itself s3 (WriteSegment id _ data)); [done|done|done|]. intros s4 [n ok] Hs4 (Eh4 & Ew4 & _).
      assert (Hp4 : held s4 !! id = Some p) by congruence.
      assert (Eat : writer_at p s4 = writer_at p s3) by (unfold writer_at; by rewrite Ew4).
      apply (same_set _ s4 id p); [done|done| |].
      * rewrite <- Eat. exact (usable_own s4 id p Hs4 Hp4).
      * intros s5 Hs5 Hp5 Ew5. apply same_done; [done| |done]. intros w. cbn. by destruct ok.
    + done.
  - done.
Qed.

Lemma markEnded_same s id at_ exitCode through : whole s ->
  same s (markEnded id at_ exitCode through) (Store.markEnded id at_ exitCode through) whatever.
Proof.
  intros Hs. unfold markEnded, Store.markEnded. apply same_held.
  set (f := fun seg (r : sessionRecord) => (if 0 <=? seg then r <| EndedThrough := through |> <| Segment := seg |>
    else r <| EndedThrough := through |>) <| EndedAtUnixMs := Some at_ |> <| ExitCode := exitCode |>).
  assert (Hmark : forall s' seg, whole s' -> same s'
    (holding (RecordLock id) (let? r := read id in publish (f seg r) true))
    (do r <- Store.read id; Store.writeDurable (f seg r)) whatever).
  { intros s' seg Hs'. eapply same_mono; [|by apply (update_same s' id (f seg) true)]. done. }
  destruct (held s !! id) as [p|] eqn:Ep; cbn [fmap option_fmap option_map andThen]; [|by apply Hmark].
  unfold writer_segment. destruct (file (writer_at p s)) eqn:Ef.
  - eapply same_eq; [intros w; apply bind_assoc|].
    assert (Hsync := same_sync s Hs). unfold same_as in Hsync |- *. rewrite alone_andThen, alone_holding.
    cbn [Threads.alone andThen ask run] in *. rewrite Ef. cbn [Threads.alone andThen ask run] in *.
    destruct (on_disk sys_sync s) as [s1 x]. destruct Hsync as (Em & Hs1 & Hu). rewrite stands_itself in Em.
    unfold bind at 1, attempt. rewrite Em.
    assert (Eat : writer_at p s = writer_at p s) by done.
    specialize (Hmark s1 (segment (writer_at p s)) Hs1). exact Hmark.
  - unfold same_as. rewrite alone_andThen, alone_holding. cbn [Threads.alone andThen ask run]. rewrite Ef.
    cbn [Threads.alone]. exact (Hmark s (-1) Hs).
Qed.

Lemma size_same s id seg : whole s -> same s (size id seg) (Store.size (segmentPath id seg)) (untouched s).
Proof.
  intros Hs. unfold size, Store.size. eapply same_attempt; [by apply (same_looking (StatSegment id seg))|].
  intros s1 x Hs1 [Hu _]. apply same_done; [done| |done]. intros w. by destruct x as [[]|n].
Qed.

Lemma tail_same s id seg atMost : whole s -> same s (tail id seg atMost) (Store.tail (segmentPath id seg) atMost) (untouched s).
Proof.
  intros Hs. unfold tail, Store.tail. destruct (atMost <=? 0); [by apply same_done|].
  eapply same_attempt; [by apply (same_looking (ReadSegment id seg))|].
  intros s1 x Hs1 [Hu _]. apply same_done; [done| |done]. intros w. by destruct x as [[]|n].
Qed.

Lemma output_same s id atMost : whole s -> same s (output id atMost) (Store.output id atMost) whatever.
Proof.
  intros Hs. unfold output, Store.output. eapply same_bind; [by apply read_same| |done]. intros s1 r Hs1 Hu1.
  apply same_held. unfold itself.
  assert (Htail : forall s2 r, whole s2 -> same s2
    (let? total := size id (Segment r) in
     let? newer := tail id (Segment r) atMost in
     let? older := tail id (1 - Segment r) (atMost - zlen newer) in
     Done (A := io_error + (octets * Z)) (inr (older ++ newer, Written r +64 total)))
    (do total <- Store.size (segmentPath id (Segment r));
     do newer <- Store.tail (segmentPath id (Segment r)) atMost;
     do older <- Store.tail (segmentPath id (1 - Segment r)) (atMost - zlen newer);
     Store.ret (older ++ newer, Written r +64 total)) whatever).
  { clear. intros s2 r Hs2. eapply same_bind; [by apply size_same| |done]. intros s3 n Hs3 _.
    eapply same_bind; [by apply tail_same| |done]. intros s4 newer Hs4 _.
    eapply same_bind; [by apply tail_same| |done]. intros s5 older Hs5 _. by apply same_done. }
  destruct (held s1 !! id) as [p|]; cbn [fmap option_fmap option_map andThen]; [|by apply Htail].
  unfold same_as. rewrite alone_andThen, alone_holding. cbn [Threads.alone andThen ask run]. by apply Htail.
Qed.

(** *** Removing *)

(** The session's writer leaves the map. *)
Lemma as_world_taken s id : as_world (s <| held := delete id (held s) |>) =
  (as_world s) <| open := delete id (open (as_world s)) |>.
Proof. unfold as_world. cbn. by rewrite fmap_delete. Qed.

Lemma whole_taken s id : whole s -> whole (s <| held := delete id (held s) |>).
Proof.
  intros [W1 W2 W3 W4]. constructor; cbn; [|by intros i p [_ E]%lookup_delete_Some; apply (W2 i)|done|].
  - intros a b p [_ Ea]%lookup_delete_Some [_ Eb]%lookup_delete_Some. by eapply W1.
  - intros i p [_ E]%lookup_delete_Some. by apply W4.
Qed.

(** A writer that no session has is closed. *)
Lemma close_writer_same s p : whole s -> (forall id, held s !! id <> Some p) -> (p < made s)%nat ->
  let '(s', x) := alone (close_writer p) s in
  (if file (writer_at p s) then attempt sys_close;;; Store.ret tt else Store.ret tt) (as_world s) = (as_world s', inr tt) /\
  whole s' /\ held s' = held s.
Proof.
  intros Hs Hno Hp. unfold close_writer. rewrite alone_holding. cbn [Threads.alone andThen ask run].
  destruct (file (writer_at p s)); [|done]. pose proof (same_close s Hs) as Hc. unfold same_as in Hc.
  cbn [Threads.alone andThen ask run] in *. destruct (on_disk sys_close s) as [s1 x]. destruct Hc as (Em & Hs1 & Eh & Ew & Emade).
  rewrite stands_itself in Em. set (w := (writer_at p s) <| file := false |>).
  assert (Eat : forall id q, held s1 !! id = Some q -> writer_at q (s1 <| writers := <[p := w]> (writers s1) |>) = writer_at q s1).
  { intros id q Hq. unfold writer_at. cbn. rewrite lookup_insert_ne; [done|]. intros <-. apply (Hno id). congruence. }
  split; [|split; [|done]].
  - assert (E : (fun q => writer_at q (s1 <| writers := <[p := w]> (writers s1) |>)) <$> held s1 = (fun q => writer_at q s1) <$> held s1)
      by (apply map_fmap_ext; exact Eat).
    unfold bind, attempt, Store.ret. rewrite Em. f_equal. unfold as_world. cbn. by rewrite E.
  - destruct Hs1 as [W1 W2 W3 W4]. constructor; cbn; [done|done|..].
    + intros q v. rewrite lookup_insert_Some. intros [[<- _]|[_ E]]; [lia|by eapply W3].
    + intros id q Hq. rewrite (Eat id q Hq). by apply W4.
Qed.

(** The other writers are as they were. *)
Lemma close_writer_other p s : let s' := fst (alone (close_writer p) s) in
  made s' = made s /\ forall q, q <> p -> writer_at q s' = writer_at q s.
Proof.
  unfold close_writer. rewrite alone_holding. cbn [Threads.alone andThen ask run].
  destruct (file (writer_at p s)); [|done]. cbn [Threads.alone andThen ask run].
  unfold on_disk. destruct (sys_close (disk s)) as [w x]. cbn. split; [done|]. intros q Hq. unfold writer_at. cbn.
  by rewrite lookup_insert_ne.
Qed.

Lemma if_there_same s (c : act (io_error + unit)) name : whole s -> (forall s, run _ c s = on_disk (sys_remove name) s) ->
  ~ in_use s name -> same s (if_there (ask c)) (Store.remove_if_there name) (untouched s).
Proof.
  intros Hs Hc Hn. unfold if_there, Store.remove_if_there. eapply same_attempt; [by apply (same_removal c name)|].
  intros s1 x Hs1 Hu. apply same_done; [done| |done]. intros w. by destruct x as [[]|[]].
Qed.

Lemma remove_same s id : whole s -> same s (remove id) (Store.remove id) whatever.
Proof.
  intros Hs. unfold remove, Store.remove, drop_writer.
  assert (Hrest : forall s1, whole s1 -> held s1 !! id = None -> same s1
    (holding (RecordLock id)
      (let? _ := if_there (ask (RemoveSegment id 0)) in
       let? _ := if_there (ask (RemoveSegment id 1)) in
       if_there (ask (RemoveRecord id))))
    (remove_if_there (segmentPath id 0);;; remove_if_there (segmentPath id 1);;; remove_if_there (recordPath id)) whatever).
  { intros s1 Hs1 Hno. apply same_holding.
    assert (Hfree : forall s' seg, whole s' -> held s' = held s1 -> two_segments seg -> ~ in_use s' (segmentPath id seg)).
    { intros s' seg Hs' Eh Hseg (i & q & Hq & Hfq & E). destruct (whole_file _ Hs' i q Hq Hfq) as [Hs2 _].
      destruct (decide (id = i)) as [<-|Hne]; [congruence|]. by apply (segment_other_session id i seg (segment (writer_at q s'))). }
    eapply same_bind; [apply (if_there_same s1 (RemoveSegment id 0) (segmentPath id 0)); [done|done|apply Hfree; [done|done|by left]]| |done].
    intros s2 [] Hs2 (E2 & _).
    eapply same_bind; [apply (if_there_same s2 (RemoveSegment id 1) (segmentPath id 1)); [done|done|apply Hfree; [done|done|by right]]| |done].
    intros s3 [] Hs3 (E3 & _). eapply same_mono; [|apply (if_there_same s3 (RemoveRecord id) (recordPath id)); [done|done|by apply record_unused]].
    done. }
  pose proof (whole_taken s id Hs) as Hs1. set (s1 := s <| held := delete id (held s) |>) in *.
  assert (Hno : held s1 !! id = None) by (cbn; apply lookup_delete_eq).
  eapply same_eq; [intros w; apply bind_assoc|]. unfold same_as. cbn [andThen ask Threads.alone run]. fold s1.
  unfold bind at 1, Store.heldWriter.
  change (open (as_world s) !! id) with (((fun p => writer_at p s) <$> held s) !! id). rewrite lookup_fmap.
  rewrite bind_assoc. unfold bind at 1, set_writers. rewrite <- as_world_taken. fold s1.
  destruct (held s !! id) as [p|] eqn:Ep; cbn [fmap option_fmap option_map]; [|exact (Hrest s1 Hs1 Hno)].
  rewrite alone_andThen.
  assert (Hnone : forall i, held s1 !! i <> Some p).
  { intros i Hi. cbn in Hi. apply lookup_delete_Some in Hi as [Hne Hi]. by apply Hne, (whole_own _ Hs id i p). }
  pose proof (close_writer_same s1 p Hs1 Hnone (whole_made _ Hs id p Ep)) as Hc.
  destruct (alone (close_writer p) s1) as [s2 []]. destruct Hc as (Em & Hs2 & Eh). unfold bind at 1.
  change (writer_at p s1) with (writer_at p s) in Em. rewrite Em. apply Hrest; [done|congruence].
Qed.

(** *** Closing *)

(** The writers that were in the map, none of them there any more. *)
Lemma close_writers_same ps : forall s, whole s -> held s = ∅ -> NoDup ps -> Forall (fun p => p < made s)%nat ps ->
  let '(s', x) := alone (close_writers ps) s in
  close_files ((fun p => writer_at p s) <$> ps) (as_world s) = (as_world s', inr tt) /\ whole s'.
Proof.
  induction ps as [|p ps IH]; intros s Hs Hno Hnd Hmade; [done|]. cbn [close_writers close_files fmap list_fmap].
  apply NoDup_cons in Hnd as [Hp Hnd]. apply Forall_cons in Hmade as [Hmp Hmade]. rewrite alone_andThen.
  pose proof (close_writer_same s p Hs) as Hc. pose proof (close_writer_other p s) as Ho.
  destruct (alone (close_writer p) s) as [s1 []]. cbn [fst] in Ho. destruct Hc as (Em & Hs1 & Eh); [by rewrite Hno|done|].
  destruct Ho as [Emade Ho]. unfold bind at 1. rewrite Em.
  replace ((fun q => writer_at q s) <$> ps) with ((fun q => writer_at q s1) <$> ps).
  - apply IH; [done|congruence|done|by rewrite Emade].
  - apply list_fmap_ext. intros i q Hq. apply Ho. intros ->. by apply Hp, (list_elem_of_lookup_2 _ i).
Qed.

Lemma close_same s : whole s -> same s close Store.close whatever.
Proof.
  intros Hs. pose proof Hs as [W1 W2 W3 W4]. unfold close, Store.close, same_as. cbn [Threads.alone andThen ask run].
  rewrite alone_andThen. set (s1 := s <| held := ∅ |>).
  assert (Hs1 : whole s1) by (by constructor).
  pose proof (close_writers_same (map_to_list (held s)).*2 s1 Hs1 eq_refl) as Hc.
  destruct (alone (close_writers _) s1) as [s2 []]. destruct Hc as [Em Hs2].
  - apply NoDup_fmap_2_strong; [|apply NoDup_map_to_list]. intros [a p] [b q] Ha Hb E. cbn in E. subst q.
    apply elem_of_map_to_list in Ha, Hb. by rewrite (W1 a b p Ha Hb).
  - apply Forall_fmap, Forall_forall. intros [id p] Hin%elem_of_map_to_list. exact (W2 id p Hin).
  - split; [|by split]. unfold bind at 1 2, set_writers.
    change (open (as_world s)) with ((fun p => writer_at p s) <$> held s).
    rewrite map_to_list_fmap, <- list_fmap_compose.
    replace (snd ∘ prod_map id (fun p => writer_at p s) <$> map_to_list (held s))
      with ((fun p => writer_at p s1) <$> (map_to_list (held s)).*2) by (by rewrite <- list_fmap_compose).
    replace ((as_world s) <| open := ∅ |>) with (as_world s1) by (unfold as_world; cbn; by rewrite fmap_empty).
    by rewrite Em.
Qed.

(** *** Every operation *)

(** The operation of Store with what it answers. *)
Definition operation (op : store_op) (w : world) : world * answer :=
  let returns (m : io unit) := let '(w, x) := m w in (w, Returns x) in
  match op with
  | Create record => returns (Store.create record)
  | SetForeground id command cwd => returns (Store.setForeground id command cwd)
  | ClearStopMark id => returns (Store.clearStopMark id)
  | SetSize id cols rows => returns (Store.setSize id cols rows)
  | SetModes id report => returns (Store.setModes id report)
  | MarkEnded id at_ exitCode through => returns (Store.markEnded id at_ exitCode through)
  | Append id data through => returns (Store.append id data through)
  | Output id atMost => let '(w, x) := Store.output id atMost w in (w, Gives x)
  | Remove id => returns (Store.remove id)
  | CloseStore => returns Store.close
  end.

Lemma alone_returning p m s Q : same s p m Q ->
  let '(s', x) := alone (returning p) s in (let '(w, x) := m (as_world s) in (w, Returns x)) = (as_world s', x) /\ whole s'.
Proof.
  unfold same_as, returning. rewrite alone_andThen. destruct (alone p s) as [s' x]. intros (-> & Hs' & _).
  by rewrite stands_itself.
Qed.

Lemma alone_program op s : whole s ->
  let '(s', x) := alone (program_of op) s in operation op (as_world s) = (as_world s', x) /\ whole s'.
Proof.
  intros Hs. destruct op; cbn [program_of operation];
    try (eapply alone_returning; by eauto using append_same, markEnded_same, remove_same, close_same, same_holding, publish_same).
  - eapply alone_returning, (update_same s id (fun r => r <| Foreground := command |> <| ForegroundCWD := cwd |>) false Hs).
  - eapply alone_returning, (update_same s id (fun r => r <| EndedAtUnixMs := None |> <| ExitCode := None |> <| EndedThrough := 0 |>) false Hs).
  - eapply alone_returning, (update_same s id (fun r => r <| Cols := cols |> <| Rows := rows |>) false Hs).
  - eapply alone_returning, (update_same s id (fun r => r <| Modes := report |>) false Hs).
  - pose proof (output_same s id atMost Hs) as Ho. unfold same_as in Ho. rewrite alone_andThen.
    destruct (alone (output id atMost) s) as [s' x]. destruct Ho as (-> & Hs' & _). by rewrite stands_itself.
Qed.

(** ** One operation at a time *)

(** An operation is started when all that were are at their end. *)
Inductive serial_step : store_machine -> store_machine -> Prop :=
| serial_starts op m : finished m -> serial_step m (starts op (program_of op) m)
| serial_turn t m m' : turn run t m = Some m' -> serial_step m m'.

Definition result {A} (p : program A) : option A := match p with Done x => Some x | _ => None end.

Definition answers (m : store_machine) : list answer := omap (fun kp => result kp.2) (threads m).

Fixpoint operations (ops : list store_op) (w : world) : world * list answer :=
  match ops with
  | [] => (w, [])
  | op :: ops => let '(w, x) := operation op w in let '(w, xs) := operations ops w in (w, x :: xs)
  end.

Lemma operations_snoc ops op : forall w, operations (ops ++ [op]) w =
  let '(w, xs) := operations ops w in let '(w, x) := operation op w in (w, xs ++ [x]).
Proof.
  induction ops as [|o ops IH]; intros w; cbn; [by destruct (operation op w)|].
  destruct (operation o w) as [w1 x]. rewrite IH. destruct (operations ops w1) as [w2 xs]. by destruct (operation op w2).
Qed.

(** All but the last operation are at their end, and the last is on its way from where they
    left the store to where it goes alone. *)
Definition in_series (w : world) (m : store_machine) : Prop :=
  exists ts s, Forall (fun kp => is_done kp.2 = true) ts /\ whole s /\
    operations ts.*1 (w <| open := ∅ |>) = (as_world s, omap (fun kp => result kp.2) ts) /\
    ((threads m = ts /\ shared m = s) \/
     exists op p, threads m = ts ++ [(op, p)] /\ alone p (shared m) = alone (program_of op) s).

Lemma in_series_end w m : in_series w m -> finished m ->
  whole (shared m) /\ operations (threads m).*1 (w <| open := ∅ |>) = (as_world (shared m), answers m).
Proof.
  intros (ts & s & Hts & Hs & Ho & [[E1 E2]|(op & p & E & Ep)]) Hf.
  - unfold answers. rewrite E1, E2. by split.
  - destruct (Hf (length ts) op p) as [x ->]; [by rewrite E, lookup_app_r, Nat.sub_diag|].
    cbn [Threads.alone] in Ep. pose proof (alone_program op s Hs) as Ha. rewrite <- Ep in Ha. destruct Ha as [Ha Hw].
    split; [done|]. unfold answers. rewrite E, fmap_app, omap_app. cbn. by rewrite operations_snoc, Ho, Ha.
Qed.

Lemma turn_alone t op p (m m' : store_machine) : threads m !! t = Some (op, p) -> turn run t m = Some m' ->
  exists q, threads m' = <[t := (op, q)]> (threads m) /\ alone q (shared m') = alone p (shared m).
Proof.
  intros Et. unfold turn. rewrite Et. destruct p as [x|B c next|l next|l next]; [done| | |].
  - destruct (run B c (shared m)) as [s x] eqn:Er. intros [= <-]. exists (next x). split; [done|]. cbn. by rewrite Er.
  - destruct (locks m !! l); [done|]. intros [= <-]. by exists next.
  - intros [= <-]. by exists next.
Qed.

Lemma in_series_step w m m' : in_series w m -> serial_step m m' -> in_series w m'.
Proof.
  intros Hm Hstep. destruct Hstep as [op m Hf|t m m' Ht].
  - destruct (in_series_end w m Hm Hf) as [Hw Ho]. exists (threads m), (shared m). split_and!; [|done|done|].
    + apply Forall_lookup. intros i [k p] Hi. by destruct (Hf i k p Hi) as [x ->].
    + right. by exists op, (program_of op).
  - destruct Hm as (ts & s & Hts & Hs & Ho & [[E1 E2]|(op & p & E & Ep)]).
    + exfalso. destruct (turn_nearer run t m m' Ht) as (k & p & q & Et & Hq & _). rewrite E1 in Et.
      pose proof (Forall_lookup_1 _ _ _ _ Hts Et) as Hd. by destruct p.
    + exists ts, s. split_and!; [done..|]. right. destruct (turn_nearer run t m m' Ht) as (k & p' & q & Et & Hq & _).
      assert (t = length ts) as ->.
      { rewrite E in Et. apply lookup_app_Some in Et as [Et|[Hle Et]].
        - pose proof (Forall_lookup_1 _ _ _ _ Hts Et) as Hd. by destruct p'.
        - apply list_lookup_singleton_Some in Et as [? _]. lia. }
      assert (Et' : threads m !! length ts = Some (op, p)) by (by rewrite E, lookup_app_r, Nat.sub_diag).
      destruct (turn_alone _ op p m m' Et' Ht) as (q' & E' & Eq). exists op, q'. split; [|congruence].
      rewrite E', E. rewrite <- (Nat.add_0_r (length ts)). by rewrite insert_app_r.
Qed.

Lemma serial_series w m : rtc serial_step (newStore w) m -> in_series w m.
Proof.
  assert (Hstart : in_series w (newStore w)).
  { exists [], (mkStoreState w ∅ ∅ 0). split_and!; [done| | |by left].
    - by constructor.
    - unfold as_world. cbn. by rewrite fmap_empty. }
  intros Hrun. revert Hstart. induction Hrun as [m|m m1 m2 Hs _ IH]; [done|]. intros Hm. by apply IH, (in_series_step w m).
Qed.

(** C14: an operation that no other one disturbs is the operation of Store.  When operations are
    started one at a time, each with whichever calls failing, what they answered and where
    they left the directory and the writers is what the operations of Store answer and leave,
    one after the other. *)
Theorem one_at_a_time_is_the_store w m : rtc serial_step (newStore w) m -> finished m ->
  operations (threads m).*1 (w <| open := ∅ |>) = (as_world (shared m), answers m).
Proof. intros Hrun%serial_series Hf. by apply in_series_end. Qed.

End alone.

(** ** A concrete run *)

#[local] Existing Instance Concrete.platform.
#[local] Existing Instance Concrete.laws.

Lemma finished_by (m : store_machine) : forallb (fun kp => is_done kp.2) (threads m) = true -> finished m.
Proof.
  intros Hd t k p Et. rewrite forallb_forall in Hd. specialize (Hd (k, p)). cbn in Hd.
  destruct p as [x|B c next|l next|l next]; [by exists x|..]; by (discriminate Hd; apply list_elem_of_In, (list_elem_of_lookup_2 _ t)).
Qed.

Lemma serial_turns schedule (m : store_machine) : rtc serial_step m (turns run schedule m).
Proof. eapply rtc_subrel, turns_moves. intros a b [t Ht]. by apply (serial_turn t). Qed.

Abbreviation one_session := (mkWorld (Concrete.directory_of Concrete.record) ∅ [] []).

(** A session's first output, then the end of the session. *)
Abbreviation first_output := (turns run (replicate 20 0%nat) (starts (Append 7 [Byte.x61] 1) (program_of (Append 7 [Byte.x61] 1)) (newStore one_session))).
Abbreviation then_its_end := (turns run (replicate 20 1%nat) (starts (MarkEnded 7 3 None 1) (program_of (MarkEnded 7 3 None 1)) first_output)).

Lemma first_output_run : rtc serial_step (newStore one_session) first_output /\ finished first_output.
Proof.
  split; [|by apply finished_by; vm_compute].
  eapply rtc_l; [apply serial_starts|apply serial_turns]. intros t k p E. cbn in E. by destruct t.
Qed.

Lemma one_at_a_time_is_the_store_witness : finished then_its_end /\
  operations [Append 7 [Byte.x61] 1; MarkEnded 7 3 None 1] one_session = (as_world (shared then_its_end), answers then_its_end).
Proof.
  destruct first_output_run as [Hrun Hfin].
  assert (Hend : finished then_its_end) by (apply finished_by; vm_compute; reflexivity).
  assert (E : (threads then_its_end).*1 = [Append 7 [Byte.x61] 1; MarkEnded 7 3 None 1]) by (vm_compute; reflexivity).
  split; [exact Hend|]. rewrite <- E. apply (one_at_a_time_is_the_store one_session then_its_end); [|exact Hend].
  etrans; [exact Hrun|]. eapply rtc_l; [by apply serial_starts|apply serial_turns].
Defined.
