(* ===== verification/Session.v ===== *)
(** * One session (session.go)

    A session is a shell with an output ring, a set of observers and the marks that say
    who is showing it.  Every operation below is one method of the source, or the critical
    section of one; the process and the clock answer from outside ([now] is what
    [value.stamp()] read).  The theorems are about presence (when a session may be called
    abandoned), renderer generations, and what each observer is given. *)

From S2P Require Import Prelude Contract OutputRing Observer StoreFeed.

(** ** State *)

(** [heap] holds the observers ever bound to the session, open or not, and [madeObservers]
    names the next one; the other fields are the source's.  A zero [time.Time] is [None].
    [resume] is the channel of capacity one; [hasStore] says whether a store is attached. *)
Record session := mkSession {
  id : Z;
  paneID : string;
  windowLabel : string;
  cwd : string;
  command : string;
  startedAt : Z;
  generation : Z;
  ring : OutputRing.ring;
  observers : gset nat;
  observerTokens : gmap string nat;
  displaying : gset nat;
  heap : gmap nat observer;
  madeObservers : nat;
  written : Z;
  closed : bool;
  paused : bool;
  rendererGeneration : Z;
  rendererAttached : bool;
  detachedAt : option Z;
  writtenAt : option Z;
  resume : bool;
  eventSequence : Z;
  cols : Z;
  rows : Z;
  environment : list string;
  hasStore : bool;
  feed : option storeFeed
}.

#[export] Instance session_settable : Settable session :=
  fun v => mkSession (id v) (paneID v) (windowLabel v) (cwd v) (command v) (startedAt v)
    (generation v) (ring v) (observers v) (observerTokens v) (displaying v) (heap v)
    (madeObservers v) (written v) (closed v) (paused v) (rendererGeneration v)
    (rendererAttached v) (detachedAt v) (writtenAt v) (resume v) (eventSequence v) (cols v)
    (rows v) (environment v) (hasStore v) (feed v).

(** What a session asks of what is around it. *)
Inductive action :=
| StoreSetSize (session cols rows : Z)
| StoreRemove (session : Z)
| FeedClose
| ProcessEnded (session endedAtUnixMs : Z)
| ProcessTerminate
| ProcessClose
| ProcessWait
| ProcessWrite (data : octets)
| ProcessResize (cols rows : Z).

Inductive session_error := SessionEnded | BadSize | ProcessFailed | TokenNotBound.

(** ** Operations *)

Section operations.
Context `{PtyContract}.

(** Anything showing the session: an attached renderer or a displaying observer. *)
Definition presenceLocked (v : session) : bool :=
  rendererAttached v || bool_decide (displaying v <> ∅).

(** A send on [resume] that gives up when the channel is full. *)
Definition signal (v : session) : session := v <| resume := true |>.

(** One event to every observer of the session. *)
Definition publish_all (f : observer -> observer) (v : session) : session :=
  v <| heap := map_imap (fun o x => Some (if decide (o ∈ observers v) then f x else x)) (heap v) |>.

(** What [pump] does under the lock with one chunk it read. *)
Definition pump_chunk (data : octets) (now : Z) (v : session) : session * list report :=
  let from := written v in
  let held := feed v in
  let '(r, through) := OutputRing.write data (ring v) in
  let v := v <| ring := r |> <| written := through |> in
  let '(v, reports) :=
    match held with
    | None => (v, [])
    | Some f => let '(f, reports) := offer data through f in (v <| feed := Some f |>, reports)
    end in
  let v := v <| writtenAt := Some now |> <| eventSequence := eventSequence v +64 1 |> in
  (publish_all (publishOutput (mkOutput (eventSequence v) from through data)) v, reports).

(** The rendererGeneration that follows one; it is never zero. *)
Definition next_generation (g : Z) : Z := let g := g +64 1 in if g =? 0 then 1 else g.

Definition attachRenderer (v : session) : session * Z :=
  let g := next_generation (rendererGeneration v) in
  (v <| rendererGeneration := g |> <| rendererAttached := true |> <| detachedAt := None |>, g).

Definition replaceRenderer (v : session) : session * Z :=
  let g := next_generation (rendererGeneration v) in
  (v <| rendererGeneration := g |> <| rendererAttached := true |> <| detachedAt := None |>, g).

Definition detachRenderer (gen now : Z) (v : session) : session :=
  let v :=
    if rendererAttached v && (rendererGeneration v =? gen) then
      let v := v <| rendererAttached := false |> in
      if negb (presenceLocked v) then v <| detachedAt := Some now |> else v
    else v in
  signal v.

Definition detachActiveRenderer (now : Z) (v : session) : session * bool :=
  let detached := rendererAttached v in
  let v := v <| rendererAttached := false |> in
  let v := if detached && negb (presenceLocked v) then v <| detachedAt := Some now |> else v in
  (if detached then signal v else v, detached).

(** [t.Before(moment)] on a stamp. *)
Definition before_moment (stamp : option Z) (moment : Z) : bool :=
  match stamp with None => true | Some t => t <? moment end.

Definition abandonedSince (moment : Z) (v : session) : bool :=
  if presenceLocked v || bool_decide (detachedAt v = None) || negb (before_moment (detachedAt v) moment)
  then false
  else bool_decide (writtenAt v = None) || before_moment (writtenAt v) moment.

Definition rendererIsAttached (v : session) : bool := rendererAttached v.

Definition shouldPause (through : Z) (v : session) : bool :=
  rendererAttached v && OutputRing.paused through (ring v).

(** [write]; [processOk] is whether the process took the bytes. *)
Definition write (data : octets) (processOk : bool) (v : session) : option session_error * list action :=
  if closed v then (Some SessionEnded, [])
  else (if processOk then None else Some ProcessFailed, [ProcessWrite data]).

Definition resize (c r : Z) (processOk : bool) (v : session)
    : session * option session_error * list action :=
  if (c =? 0) || (r =? 0) then (v, Some BadSize, [])
  else if negb processOk then (v, Some ProcessFailed, [ProcessResize c r])
  else
    let v := v <| eventSequence := eventSequence v +64 1 |> <| cols := c |> <| rows := r |> in
    let v := publish_all (publishResize (mkResize (eventSequence v) c r)) v in
    (v, None, ProcessResize c r :: if hasStore v then [StoreSetSize (id v) c r] else []).

(** [observe]; it answers the observer and where its events start. *)
Definition observe (token : string) (displays : bool) (v : session)
    : session * (session_error + (nat * Observed)) :=
  if negb (String.eqb token "") then
    match observerTokens v !! token with
    | None => (v, inl TokenNotBound)
    | Some o =>
        let v := v <| observerTokens := delete token (observerTokens v) |> in
        let v := if displays
                 then v <| displaying := {[o]} ∪ displaying v |> <| detachedAt := None |> else v in
        (v, inr (o, mkObserved (id v) (generation v) (eventSequence v) (written v)))
    end
  else
    let o := madeObservers v in
    let v := v <| madeObservers := S o |> <| observers := {[o]} ∪ observers v |> in
    let v := if displays
             then v <| displaying := {[o]} ∪ displaying v |> <| detachedAt := None |> else v in
    let '(floor, through, retained) := snapshot (ring v) in
    let x := newObserver ObserverBufferBytes in
    let x := if 0 <? floor then publishGapLocked (mkGap 0 (eventSequence v) 0 floor) x else x in
    let x := if 0 <? zlen retained
             then publishOutput (mkOutput (eventSequence v) floor through retained) x else x in
    (v <| heap := <[o := x]> (heap v) |>,
     inr (o, mkObserved (id v) (generation v) (eventSequence v) floor)).

Definition removeObserver (o : nat) (now : Z) (v : session) : session :=
  let showed := bool_decide (o ∈ displaying v) in
  let v := v <| observers := observers v ∖ {[o]} |> <| displaying := displaying v ∖ {[o]} |>
             <| observerTokens := filter (fun kv => kv.2 <> o) (observerTokens v) |> in
  let v := if showed && negb (presenceLocked v) && bool_decide (detachedAt v = None)
           then v <| detachedAt := Some now |> else v in
  v <| heap := alter Observer.close o (heap v) |>.

Definition setDisplays (token : string) (displays : bool) (now : Z) (v : session)
    : session * option session_error :=
  match observerTokens v !! token with
  | None => (v, Some TokenNotBound)
  | Some o =>
      if displays then
        (v <| displaying := {[o]} ∪ displaying v |> <| detachedAt := None |>, None)
      else if bool_decide (o ∈ displaying v) then
        let v := v <| displaying := displaying v ∖ {[o]} |> in
        (if negb (presenceLocked v) then v <| detachedAt := Some now |> else v, None)
      else (v, None)
  end.

Definition ack (through : Z) (v : session) : session :=
  let through := if written v <? through then written v else through in
  let v := v <| ring := OutputRing.ack through (ring v) |> in
  if OutputRing.resumed (written v) (ring v) then signal v else v.

(** [adoptObserver]: a prepared observer [x], bound to the session under a new name. *)
Definition adoptObserver (token : string) (displays : bool) (x : observer) (v : session)
    : session * nat :=
  let o := madeObservers v in
  let v := v <| madeObservers := S o |> <| observers := {[o]} ∪ observers v |>
             <| observerTokens := <[token := o]> (observerTokens v) |> in
  let v := if displays then v <| displaying := {[o]} ∪ displaying v |> else v in
  let '(floor, through, retained) := snapshot (ring v) in
  let x := publishOpened (mkOpened (id v) (generation v) (eventSequence v) floor) x in
  let x := if 0 <? floor then publishGap (mkGap 0 (eventSequence v) 0 floor) x else x in
  let x := if 0 <? zlen retained
           then publishOutput (mkOutput (eventSequence v) floor through retained) x else x in
  (v <| heap := <[o := x]> (heap v) |>, o).

(** [reap]: what it does to the session, and the calls it makes, in order. *)
Definition reap (ended : bool) (now : Z) (v : session) : session * list action :=
  if closed v then (v, [])
  else
    let held := feed v in
    let v := v <| closed := true |> <| eventSequence := eventSequence v +64 1 |> in
    let v := publish_all (publishEnd (mkEnd (eventSequence v) 0)) v in
    let '(v, drained) :=
      match held with
      | None => (v, [])
      | Some f => (v <| feed := Some (fst (close_locked f)) |>, [FeedClose])
      end in
    (signal (v <| ring := end_ring (ring v) |>),
     drained ++ [ProcessEnded (id v) now] ++
     (if ended && hasStore v then [StoreRemove (id v)] else []) ++
     [ProcessTerminate; ProcessClose; ProcessWait]).

(** A session as [openWithObserver] builds it, before it is filed; [prepared] is the
    observer that was ready for it, with its token and whether it displays. *)
Definition newSession (sid : Z) (pane window dir cmd : string) (at_ gen c r : Z) (env : list string)
    (store : bool) (prepared : option (string * bool * observer)) : session :=
  let v := mkSession sid pane window dir cmd at_ gen (newRing HighWatermark) ∅ ∅ ∅ ∅ 0
    0 false false 0 false None None false 0 c r env store None in
  match prepared with
  | None => v
  | Some (token, displays, x) =>
      v <| madeObservers := 1%nat |> <| observers := {[0%nat]} |> <| observerTokens := {[token := 0%nat]} |>
        <| heap := {[0%nat := x]} |> <| displaying := if displays then {[0%nat]} else ∅ |>
  end.

(** [publishOpened] of a new session to the observer prepared for it. *)
Definition announce (v : session) : session :=
  v <| heap := alter (publishOpened (mkOpened (id v) (generation v) 0 0)) 0%nat (heap v) |>.

End operations.

#[global] Arguments publish_all : simpl never.
#[global] Arguments next_generation : simpl never.
#[global] Arguments presenceLocked : simpl never.

(** ** Sequences of operations *)

Section runs.
Context `{PtyContract}.

(** What the daemon does to a session, each one critical section.  [OpTake] and
    [OpCloseObserver] are what an observer's stream does with it. *)
Inductive session_op :=
| OpPump (data : octets)
| OpPaused (is_paused : bool)
| OpAttach
| OpReplace
| OpDetach (gen : Z)
| OpDetachActive
| OpResize (c r : Z) (processOk : bool)
| OpObserve (token : string) (displays : bool)
| OpSetDisplays (token : string) (displays : bool)
| OpAdopt (token : string) (displays : bool) (x : observer)
| OpRemove (o : nat)
| OpTake (o : nat)
| OpCloseObserver (o : nat)
| OpAck (through : Z)
| OpRing (op : ring_op)
| OpReap (ended : bool).

(** A stream takes the next event of its observer. *)
Definition take_event (o : nat) (v : session) : session * option observation :=
  match heap v !! o with
  | None => (v, None)
  | Some x => let '(x, answer) := next x in (v <| heap := <[o := x]> (heap v) |>, answer)
  end.

Definition run_op (op : session_op) (now : Z) (v : session) : session :=
  match op with
  | OpPump data => fst (pump_chunk data now v)
  | OpPaused is_paused => v <| paused := is_paused |>
  | OpAttach => fst (attachRenderer v)
  | OpReplace => fst (replaceRenderer v)
  | OpDetach gen => detachRenderer gen now v
  | OpDetachActive => fst (detachActiveRenderer now v)
  | OpResize c r processOk => fst (fst (resize c r processOk v))
  | OpObserve token displays => fst (observe token displays v)
  | OpSetDisplays token displays => fst (setDisplays token displays now v)
  | OpAdopt token displays x => fst (adoptObserver token displays x v)
  | OpRemove o => removeObserver o now v
  | OpTake o => fst (take_event o v)
  | OpCloseObserver o => v <| heap := alter Observer.close o (heap v) |>
  | OpAck through => ack through v
  | OpRing op => v <| ring := apply_op op (ring v) |>
  | OpReap ended => fst (reap ended now v)
  end.

(** A session with notes on its past: when it was last shown, and when it last wrote.
    [lastCounted] is when it was last shown by what counts; [uncounted] says that what shows
    it now does not: a display that an adoption brought to a session that had been shown
    before and was not. *)
Record witnessed := mkWitnessed {
  current : session;
  lastShown : option Z;
  lastWrote : option Z;
  lastCounted : option Z;
  uncounted : bool
}.

Definition is_output (op : session_op) : bool := match op with OpPump _ => true | _ => false end.

(** A command that shows the session: a renderer that attaches, an observer that displays. *)
Definition reveals (op : session_op) (v : session) : bool :=
  match op with
  | OpAttach | OpReplace => true
  | OpObserve token displays => displays && (String.eqb token "" || bool_decide (observerTokens v !! token <> None))
  | OpSetDisplays token displays => displays && bool_decide (observerTokens v !! token <> None)
  | _ => false
  end.

Definition is_removal (op : session_op) : bool := match op with OpRemove _ => true | _ => false end.

(** An operation at [now] on a session shown before it or after it shows it at [now].  An
    uncounted showing begins with an adoption, and counts from the next command that shows
    the session on; if none comes it counts at its end unless it ends by its observer
    leaving. *)
Definition witness_op (w : witnessed) (timed : Z * session_op) : witnessed :=
  let '(now, op) := timed in
  let v := run_op op now (current w) in
  let was := presenceLocked (current w) in
  let shows := presenceLocked v in
  let uncounts := shows && negb (reveals op (current w)) &&
    (if was then uncounted w else bool_decide (lastCounted w <> None)) in
  mkWitnessed v
    (if was || shows then Some now else lastShown w)
    (if is_output op then Some now else lastWrote w)
    (if shows then if uncounts then lastCounted w else Some now
     else if was && negb (uncounted w && is_removal op) then Some now else lastCounted w)
    uncounts.

Definition witness_ops (ops : list (Z * session_op)) (w : witnessed) : witnessed :=
  fold_left witness_op ops w.

(** Adoption by a displaying observer of a session that nothing shows. *)
Definition adopts_unseen (op : session_op) (v : session) : Prop :=
  match op with OpAdopt _ true _ => presenceLocked v = false | _ => False end.

Fixpoint no_unseen_adoption (ops : list (Z * session_op)) (w : witnessed) : Prop :=
  match ops with
  | [] => True
  | timed :: ops => ~ adopts_unseen (snd timed) (current w) /\ no_unseen_adoption ops (witness_op w timed)
  end.

(** The stamps say what happened. *)
Record stamps_ok (w : witnessed) : Prop := {
  stamps_detached : detachedAt (current w) =
    (if presenceLocked (current w) && negb (uncounted w) then None else lastCounted w);
  stamps_written : writtenAt (current w) = lastWrote w;
  stamps_uncounted : uncounted w = true ->
    presenceLocked (current w) = true /\ rendererAttached (current w) = false /\ lastCounted w <> None
}.

Definition is_attach (op : session_op) : bool :=
  match op with OpAttach | OpReplace => true | _ => false end.

(** Renderers attached by a list of operations. *)
Definition attaches (ops : list (Z * session_op)) : Z := zlen (filter (fun timed => is_attach (snd timed)) ops).

Definition run_ops (ops : list (Z * session_op)) (v : session) : session :=
  fold_left (fun v timed => run_op (snd timed) (fst timed) v) ops v.

(** A session followed from outside: everything its shell has printed, and what the
    stream of each observer has taken. *)
Record followed := mkFollowed {
  tracked : session;
  output : octets;
  takenBy : gmap nat (list observation)
}.

Definition taken_of (o : nat) (s : followed) : list observation := default [] (takenBy s !! o).

Definition follow_op (s : followed) (timed : Z * session_op) : followed :=
  let '(now, op) := timed in
  mkFollowed (run_op op now (tracked s))
    (match op with OpPump data => output s ++ data | _ => output s end)
    (match op with
     | OpTake o =>
         match snd (take_event o (tracked s)) with
         | Some ObsNone | None => takenBy s
         | Some event => <[o := taken_of o s ++ [event]]> (takenBy s)
         end
     | _ => takenBy s
     end).

Definition follow_ops (ops : list (Z * session_op)) (s : followed) : followed := fold_left follow_op ops s.

(** An observer as [prepareObserver] makes it, whose peer may have left since. *)
Definition prepared_ok (x : observer) : Prop :=
  exists cap, x = newObserver cap \/ x = Observer.close (newObserver cap).

Definition op_ok (op : session_op) : Prop :=
  match op with
  | OpAdopt _ _ x => prepared_ok x
  | OpRing op => op_output op = []
  | _ => True
  end.

Record followed_ok (s : followed) : Prop := {
  ring_holds : ring_ok (output s) (ring (tracked s));
  written_all : written (tracked s) = zlen (output s);
  observers_cover : forall o x, heap (tracked s) !! o = Some x ->
    (o < madeObservers (tracked s))%nat /\ feed_ok 0 (mkFeed (output s) x (taken_of o s)) /\
    (o ∉ observers (tracked s) -> Observer.closed x = true);
  taken_made : forall o, (madeObservers (tracked s) <= o)%nat -> takenBy s !! o = None
}.

End runs.

(** ** Presence *)

Section presence.
Context `{PtyContract}.

Lemma publish_all_fields f v :
  let v' := publish_all f v in
  rendererAttached v' = rendererAttached v /\ displaying v' = displaying v /\
  detachedAt v' = detachedAt v /\ writtenAt v' = writtenAt v /\
  rendererGeneration v' = rendererGeneration v.
Proof. done. Qed.

(** Operations that touch none of the presence marks. *)
Definition same_marks (v v' : session) : Prop :=
  rendererAttached v' = rendererAttached v /\ displaying v' = displaying v /\
  detachedAt v' = detachedAt v /\ writtenAt v' = writtenAt v.

Lemma same_marks_presence v v' : same_marks v v' -> presenceLocked v' = presenceLocked v.
Proof. intros (H1 & H2 & _). unfold presenceLocked. by rewrite H1, H2. Qed.

Lemma presence_attached v : rendererAttached v = true -> presenceLocked v = true.
Proof. intros E. unfold presenceLocked. by rewrite E. Qed.

Lemma presence_displaying o v : o ∈ displaying v -> presenceLocked v = true.
Proof.
  intros Ho. unfold presenceLocked. rewrite bool_decide_true by set_solver. by rewrite orb_true_r.
Qed.

Lemma presence_false v : presenceLocked v = false <-> rendererAttached v = false /\ displaying v = ∅.
Proof.
  unfold presenceLocked. rewrite orb_false_iff, bool_decide_eq_false. split; intros [H1 H2]; split; try done.
  - destruct (decide (displaying v = ∅)); [done|]. by destruct H2.
  - by intros Hn.
Qed.

(** An operation keeps what shows the session and the stamp, or reveals it, or ends its
    showing with a stamp; a removal does not stamp over a stamp, and an adoption may show a
    session and leave its stamp. *)
Inductive marks_step (op : session_op) (now : Z) (v v' : session) : Prop :=
| marks_same : reveals op v = false -> presenceLocked v' = presenceLocked v -> detachedAt v' = detachedAt v ->
    (rendererAttached v = false -> rendererAttached v' = false) -> marks_step op now v v'
| marks_shown : reveals op v = true -> presenceLocked v' = true -> detachedAt v' = None -> marks_step op now v v'
| marks_hidden : reveals op v = false -> presenceLocked v = true -> presenceLocked v' = false -> detachedAt v' = Some now ->
    (is_removal op = true -> detachedAt v = None) -> marks_step op now v v'
| marks_left : is_removal op = true -> reveals op v = false -> presenceLocked v = true -> presenceLocked v' = false ->
    detachedAt v' = detachedAt v -> detachedAt v <> None -> marks_step op now v v'
| marks_adopted : reveals op v = false -> adopts_unseen op v -> presenceLocked v' = true -> detachedAt v' = detachedAt v ->
    rendererAttached v' = false -> marks_step op now v v'.

Lemma hide_step op now v v' : reveals op v = false -> is_removal op = false -> detachedAt v' = detachedAt v ->
  rendererAttached v' = false \/ rendererAttached v' = rendererAttached v -> presenceLocked v = true ->
  marks_step op now v (if negb (presenceLocked v') then v' <| detachedAt := Some now |> else v').
Proof.
  intros Hr Hno Hd Ha Hp. destruct (presenceLocked v') eqn:E; cbn.
  - apply marks_same; [done|by rewrite E|done|]. by destruct Ha as [| ->].
  - apply marks_hidden; [done|done|done|done|by rewrite Hno].
Qed.

Lemma pump_chunk_marks data now v :
  let v' := fst (pump_chunk data now v) in
  rendererAttached v' = rendererAttached v /\ displaying v' = displaying v /\
  detachedAt v' = detachedAt v /\ writtenAt v' = Some now.
Proof.
  unfold pump_chunk. destruct (OutputRing.write data (ring v)) as [r through].
  destruct (feed v) as [f|]; [destruct (offer data through f)|]; done.
Qed.

Lemma reap_marks ended now v : same_marks v (fst (reap ended now v)).
Proof.
  unfold reap. destruct (closed v); [done|]. by destruct (feed v).
Qed.

Lemma ack_marks through v : same_marks v (ack through v).
Proof. unfold ack. destruct (OutputRing.resumed _ _); done. Qed.

Lemma resize_marks c r ok v : same_marks v (fst (fst (resize c r ok v))).
Proof. unfold resize. destruct ((c =? 0) || (r =? 0)); [done|]. by destruct ok. Qed.

Lemma take_marks o v : same_marks v (fst (take_event o v)).
Proof. unfold take_event. destruct (heap v !! o) as [x|]; [|done]. by destruct (next x). Qed.

Lemma same_marks_step op now v v' : reveals op v = false -> same_marks v v' -> marks_step op now v v'.
Proof. intros Hr Hs. pose proof Hs as (Ha & _ & Hd & _). apply marks_same; [done|by apply same_marks_presence|done|by rewrite Ha]. Qed.

Lemma observe_step token displays now v : marks_step (OpObserve token displays) now v (fst (observe token displays v)).
Proof.
  unfold observe. destruct (String.eqb token "") eqn:Et; cbn [negb].
  - destruct displays.
    + apply marks_shown; [by cbn; rewrite Et| |done]. apply (presence_displaying (madeObservers v)). cbn. set_solver.
    + by apply marks_same.
  - destruct (observerTokens v !! token) as [o|] eqn:Eo.
    + destruct displays; [|by apply marks_same]. apply marks_shown; [by cbn; rewrite Et, Eo| |done].
      apply (presence_displaying o). cbn. set_solver.
    + apply marks_same; try done. cbn. rewrite Et, Eo. by rewrite andb_comm.
Qed.

Lemma setDisplays_step token displays now v :
  marks_step (OpSetDisplays token displays) now v (fst (setDisplays token displays now v)).
Proof.
  unfold setDisplays. destruct (observerTokens v !! token) as [o|] eqn:Eo.
  - destruct displays.
    + apply marks_shown; [by cbn; rewrite Eo| |done]. apply (presence_displaying o). cbn. set_solver.
    + case_bool_decide as Ho; [|by apply marks_same].
      apply (hide_step _ now v); [done|done|done|by right|by eapply presence_displaying].
  - apply marks_same; try done. cbn. rewrite Eo. by rewrite andb_comm.
Qed.

Lemma detachRenderer_step gen now v : marks_step (OpDetach gen) now v (detachRenderer gen now v).
Proof.
  unfold detachRenderer. destruct (rendererAttached v) eqn:Ea; cbn [andb]; [|by apply marks_same].
  destruct (rendererGeneration v =? gen); [|by apply marks_same].
  destruct (hide_step (OpDetach gen) now v (v <| rendererAttached := false |>)) as [Hr H1 H2 H3|Hr H1 H2|Hr H1 H2 H3 H4| |Hr Ha];
    [done|done|done|by left|by apply presence_attached|..]; try done; [by apply marks_same|by apply marks_hidden].
Qed.

Lemma detachActive_step now v : marks_step OpDetachActive now v (fst (detachActiveRenderer now v)).
Proof.
  unfold detachActiveRenderer. destruct (rendererAttached v) eqn:Ea; cbn [andb].
  - destruct (hide_step OpDetachActive now v (v <| rendererAttached := false |>)) as [Hr H1 H2 H3|Hr H1 H2|Hr H1 H2 H3 H4| |Hr Ha];
      [done|done|done|by left|by apply presence_attached|..]; try done; [by apply marks_same|by apply marks_hidden].
  - apply marks_same; [done| |done|done]. unfold presenceLocked. cbn. by rewrite Ea.
Qed.

Lemma remove_step o now v : marks_step (OpRemove o) now v (removeObserver o now v).
Proof.
  unfold removeObserver. case_bool_decide as Ho; cbn [andb].
  - pose proof (presence_displaying o v Ho) as Hp.
    set (v1 := v <| observers := _ |> <| displaying := _ |> <| observerTokens := _ |>).
    change (detachedAt v1) with (detachedAt v). destruct (presenceLocked v1) eqn:E1; cbn [negb andb].
    + apply marks_same; [done|by rewrite Hp|done|done].
    + case_bool_decide as Hd; [by apply marks_hidden|by apply marks_left].
  - apply marks_same; [done| |done|done]. unfold presenceLocked. cbn.
    by replace (displaying v ∖ {[o]}) with (displaying v) by set_solver.
Qed.

Lemma adopt_step token displays x now v : marks_step (OpAdopt token displays x) now v (fst (adoptObserver token displays x v)).
Proof.
  unfold adoptObserver. destruct displays; cbn; [|by apply marks_same].
  assert (Hp : forall v', displaying v' = {[madeObservers v]} ∪ displaying v -> presenceLocked v' = true)
    by (intros v' E; apply (presence_displaying (madeObservers v)); rewrite E; set_solver).
  destruct (presenceLocked v) eqn:Ep.
  - apply marks_same; [done|rewrite Ep; by apply Hp|done|done].
  - pose proof (proj1 (presence_false v) Ep) as [Ha _]. by apply marks_adopted; [| |apply Hp| |].
Qed.

Lemma op_step op now v : marks_step op now v (run_op op now v).
Proof.
  destruct op as [data|b| | |gen| |c r ok|token d|token d|token d x|o|o|o|t|ro|e]; cbn [run_op].
  - destruct (pump_chunk_marks data now v) as (H1 & H2 & H3 & _).
    apply marks_same; [done|unfold presenceLocked; by rewrite H1, H2|done|by rewrite H1].
  - by apply marks_same.
  - apply marks_shown; [done|by apply presence_attached|done].
  - apply marks_shown; [done|by apply presence_attached|done].
  - apply detachRenderer_step.
  - apply detachActive_step.
  - apply same_marks_step; [done|apply resize_marks].
  - apply observe_step.
  - apply setDisplays_step.
  - apply adopt_step.
  - apply remove_step.
  - apply same_marks_step; [done|apply take_marks].
  - by apply marks_same.
  - apply same_marks_step; [done|apply ack_marks].
  - by apply marks_same.
  - apply same_marks_step; [done|apply reap_marks].
Qed.

Lemma op_wrote op now v :
  writtenAt (run_op op now v) = if is_output op then Some now else writtenAt v.
Proof.
  destruct op as [data|b| | |gen| |c r ok|token d|token d|token d x|o|o|o|t|ro|e]; cbn [run_op is_output]; try done.
  - apply pump_chunk_marks.
  - unfold detachRenderer. destruct (rendererAttached v && (rendererGeneration v =? gen)); [|done].
    by destruct (negb (presenceLocked _)).
  - unfold detachActiveRenderer. destruct (rendererAttached v); cbn [andb]; [|done].
    by destruct (negb (presenceLocked _)).
  - apply resize_marks.
  - unfold observe. destruct (negb (String.eqb token "")); [|by destruct d].
    destruct (observerTokens v !! token); [|done]. by destruct d.
  - unfold setDisplays. destruct (observerTokens v !! token); [|done]. destruct d; [done|].
    case_bool_decide; [|done]. by destruct (negb (presenceLocked _)).
  - unfold adoptObserver. by destruct d.
  - unfold removeObserver. by destruct (_ && _).
  - apply take_marks.
  - apply ack_marks.
  - apply reap_marks.
Qed.

Lemma witness_op_ok timed w : stamps_ok w -> stamps_ok (witness_op w timed).
Proof.
  destruct timed as [now op]. intros [Hd Hw Hu]. pose proof (op_wrote op now (current w)) as Hwrote.
  pose proof (op_step op now (current w)) as Hstep.
  destruct Hstep as [Hr H1 H2 H3|Hr H1 H2|Hr H1 H2 H3 H4|Hi Hr H1 H2 H3 H4|Hr H0 H1 H2 H3];
    constructor; cbn [witness_op current lastShown lastWrote lastCounted uncounted]; rewrite ?Hr, ?Hwrote, ?Hw; try done.
  - rewrite H1, H2, Hd. destruct (presenceLocked (current w)) eqn:Ep; cbn; [by destruct (uncounted w)|done].
  - rewrite H1. destruct (presenceLocked (current w)) eqn:Ep; cbn; [|done]. intros E. rewrite E. destruct (Hu E) as (_ & Ha & Hc). auto.
  - by rewrite H1, H2.
  - by rewrite H1.
  - rewrite H1, H2. cbn. rewrite H3. destruct (uncounted w) eqn:Eu; cbn; [|done]. destruct (is_removal op) eqn:Ei; cbn; [|done].
    destruct (Hu eq_refl) as (_ & _ & Hc). rewrite H1 in Hd. cbn in Hd. rewrite (H4 eq_refl) in Hd. by destruct Hc.
  - by rewrite H2.
  - rewrite H1, H2. cbn. rewrite H3, Hd, H1, Hi. cbn. rewrite Hd, H1 in H4. cbn in H4. by destruct (uncounted w).
  - by rewrite H2.
  - assert (Ep : presenceLocked (current w) = false) by (destruct op as [| | | | | | | | |token [] x| | | | | |]; done).
    rewrite H1, Ep, H2, Hd, Ep. cbn. by destruct (lastCounted w).
  - assert (Ep : presenceLocked (current w) = false) by (destruct op as [| | | | | | | | |token [] x| | | | | |]; done).
    rewrite H1, Ep. cbn. intros Hc. rewrite Hc. apply bool_decide_eq_true in Hc. by split_and!.
Qed.

Lemma witness_ops_ok ops : forall w, stamps_ok w -> stamps_ok (witness_ops ops w).
Proof. induction ops as [|timed ops IH]; intros w Hw; [done|]. cbn. by apply IH, witness_op_ok. Qed.

(** A session and the notes on it when nothing was done yet. *)
Definition newWitnessed (v : session) (now0 : Z) : witnessed :=
  let shown := if presenceLocked v then Some now0 else None in mkWitnessed v shown None shown false.

Lemma new_stamps sid pane window dir cmd at_ gen c r env store prepared now0 :
  stamps_ok (newWitnessed (newSession sid pane window dir cmd at_ gen c r env store prepared) now0).
Proof.
  set (v := newSession _ _ _ _ _ _ _ _ _ _ _ _). constructor; cbn [newWitnessed current lastShown lastWrote lastCounted uncounted]; [|..|done].
  - destruct (presenceLocked v); unfold v, newSession; destruct prepared as [[[token d] x]|]; done.
  - unfold v, newSession. by destruct prepared as [[[token d] x]|].
Qed.

(** While no adoption shows a session that nothing shows, all showing counts. *)
Lemma all_counted ops : forall w, stamps_ok w -> uncounted w = false -> lastCounted w = lastShown w -> no_unseen_adoption ops w ->
  lastCounted (witness_ops ops w) = lastShown (witness_ops ops w).
Proof.
  induction ops as [|[now op] ops IH]; intros w Hok Hu He Hno; [done|]. destruct Hno as [Hn Hrest]. cbn [snd] in Hn.
  cbn [witness_ops fold_left]. apply IH; [by apply witness_op_ok|..|done]; cbn [witness_op lastCounted lastShown uncounted];
    destruct (op_step op now (current w)) as [Hr H1 H2 H3|Hr H1 H2|Hr H1 H2 H3 H4|Hi Hr H1 H2 H3 H4|Hr H0 H1 H2 H3]; try done;
    rewrite ?Hr, ?H1, ?H2, ?Hu; cbn; try done; try (by destruct (presenceLocked (current w))).
  all: rewrite andb_false_r; try done.
Qed.


(** Adoption does not clear the stamp.  A session that nothing shows, stamped at [t],
    then adopted by a displaying observer, is shown; when that observer leaves at [now],
    the old stamp stands and the session is abandoned by every moment after [t], however
    recent [now] is. *)
Theorem adopted_display_keeps_old_stamp v token x t moment now :
  presenceLocked v = false -> detachedAt v = Some t -> t < moment ->
  (forall t', writtenAt v = Some t' -> t' < moment) ->
  madeObservers v ∉ displaying v ->
  let '(shown, o) := adoptObserver token true x v in
  presenceLocked shown = true /\ detachedAt shown = Some t /\
  abandonedSince moment (removeObserver o now shown) = true.
Proof.
  intros Hp Hd Ht Hw Hfresh. destruct (adoptObserver token true x v) as [shown o] eqn:E.
  assert (Ho : o = madeObservers v /\ displaying shown = {[o]} ∪ displaying v /\ detachedAt shown = detachedAt v /\
    writtenAt shown = writtenAt v /\ rendererAttached shown = rendererAttached v).
  { unfold adoptObserver in E. by injection E as <- <-. }
  destruct Ho as (-> & Hdisp & Hdet & Hwrote & Hatt). apply presence_false in Hp as [Ha Hnone].
  split_and!; [|by rewrite Hdet|].
  - apply (presence_displaying (madeObservers v)). rewrite Hdisp. set_solver.
  - set (v' := removeObserver _ now shown).
    assert (H1 : presenceLocked v' = false /\ detachedAt v' = Some t /\ writtenAt v' = writtenAt v).
    { unfold v', removeObserver. rewrite (bool_decide_false (detachedAt _ = None)) by (cbn; by rewrite Hdet, Hd).
      rewrite andb_false_r. split_and!; [|cbn; by rewrite Hdet|cbn; by rewrite Hwrote].
      apply presence_false. cbn. rewrite Hatt, Hdisp, Hnone. split; [done|set_solver]. }
    destruct H1 as (H1 & H2 & H3). unfold abandonedSince. rewrite H1, H2, H3. cbn.
    rewrite (proj2 (Z.ltb_lt t moment) Ht). cbn. apply orb_true_iff. rewrite bool_decide_eq_true.
    destruct (writtenAt v) as [t'|]; [right|by left]. cbn. by apply Z.ltb_lt, Hw.
Qed.

End presence.

(** ** Renderer generations *)

Section generations.
Context `{PtyContract}.

Lemma next_generation_eq g : is_u64 g -> next_generation g = 1 + g mod (two64 - 1).
Proof.
  intros Hg. unfold next_generation, add64, wrap64. unfold is_u64, two64 in *.
  destruct (decide (g = 18446744073709551615)) as [->|]; [done|].
  rewrite !Z.mod_small by lia. destruct (Z.eqb_spec (g + 1) 0); lia.
Qed.

Lemma generation_op op now v :
  rendererGeneration (run_op op now v) =
    match op with
    | OpAttach | OpReplace => next_generation (rendererGeneration v)
    | _ => rendererGeneration v
    end.
Proof.
  destruct op as [data|b| | |gen| |c r ok|token d|token d|token d x|o|o|o|t|ro|e]; cbn [run_op]; try done.
  - unfold pump_chunk. destruct (OutputRing.write data (ring v)) as [r through].
    destruct (feed v) as [f|]; [destruct (offer data through f)|]; done.
  - unfold detachRenderer. destruct (rendererAttached v && (rendererGeneration v =? gen)); [|done].
    by destruct (negb (presenceLocked _)).
  - unfold detachActiveRenderer. destruct (rendererAttached v); cbn [andb]; [|done].
    by destruct (negb (presenceLocked _)).
  - unfold resize. destruct ((c =? 0) || (r =? 0)); [done|]. by destruct ok.
  - unfold observe. destruct (negb (String.eqb token "")); [|by destruct d].
    destruct (observerTokens v !! token); [|done]. by destruct d.
  - unfold setDisplays. destruct (observerTokens v !! token); [|done]. destruct d; [done|].
    case_bool_decide; [|done]. by destruct (negb (presenceLocked _)).
  - unfold adoptObserver. by destruct d.
  - unfold removeObserver. by destruct (_ && _).
  - unfold take_event. destruct (heap v !! o) as [x|]; [|done]. by destruct (next x).
  - unfold ack. by destruct (OutputRing.resumed _ _).
  - unfold reap. destruct (closed v); [done|]. by destruct (feed v).
Qed.

Lemma generation_ops ops : forall v, 1 <= rendererGeneration v < two64 ->
  rendererGeneration (run_ops ops v) = 1 + (rendererGeneration v - 1 + attaches ops) mod (two64 - 1).
Proof.
  induction ops as [|[now op] ops IH]; intros v Hv.
  - unfold attaches. cbn. rewrite zlen_nil, Z.add_0_r, Z.mod_small; unfold two64 in *; lia.
  - unfold run_ops. cbn [fold_left fst snd]. fold (run_ops ops (run_op op now v)).
    assert (Hcase : rendererGeneration (run_op op now v) = rendererGeneration v /\
        attaches ((now, op) :: ops) = attaches ops \/
      rendererGeneration (run_op op now v) = next_generation (rendererGeneration v) /\
        attaches ((now, op) :: ops) = attaches ops + 1).
    { rewrite generation_op. unfold attaches. rewrite filter_cons. cbn [snd].
      destruct op; cbn [is_attach];
        first [by left; rewrite decide_False by (intros []) | by right; rewrite decide_True, zlen_cons by done]. }
    destruct Hcase as [[Hg Ha]|[Hg Ha]].
    + rewrite IH, Hg, Ha by by rewrite Hg. done.
    + rewrite next_generation_eq in Hg by (unfold is_u64; lia).
      rewrite IH; rewrite Hg.
      * rewrite Ha. f_equal. replace (1 + _ - 1) with (rendererGeneration v mod (two64 - 1)) by lia.
        rewrite Zplus_mod_idemp_l. f_equal. lia.
      * pose proof (Z.mod_pos_bound (rendererGeneration v) (two64 - 1)). unfold two64 in *. lia.
Qed.

(** A renderer that left holds an older generation, so its detach takes nothing from
    the one that replaced it: after at least one more attachment, and fewer than 2^64 - 1,
    the presence marks stand; while no other attached, it is the one that detaches. *)
Theorem stale_detach_is_nothing v ops now :
  is_u64 (rendererGeneration v) ->
  let '(v1, g) := attachRenderer v in
  let v2 := run_ops ops v1 in
  attaches ops < two64 - 1 ->
  let v3 := detachRenderer g now v2 in
  (attaches ops <> 0 -> rendererAttached v3 = rendererAttached v2 /\
    detachedAt v3 = detachedAt v2 /\ presenceLocked v3 = presenceLocked v2) /\
  (attaches ops = 0 -> rendererAttached v3 = false).
Proof.
  intros Hv. cbn zeta. unfold attachRenderer. set (g := next_generation (rendererGeneration v)).
  set (v1 := v <| rendererGeneration := g |> <| rendererAttached := true |> <| detachedAt := None |>).
  intros Hlt. set (v2 := run_ops ops v1).
  assert (Hg : 1 <= g < two64).
  { unfold g. rewrite next_generation_eq by done.
    pose proof (Z.mod_pos_bound (rendererGeneration v) (two64 - 1)). unfold two64 in *. lia. }
  assert (H2 : rendererGeneration v2 = 1 + (g - 1 + attaches ops) mod (two64 - 1)).
  { unfold v2. by rewrite generation_ops. }
  assert (Hpos : 0 <= attaches ops) by apply zlen_nonneg.
  split; intros Hn.
  - assert (Hne : rendererGeneration v2 <> g).
    { rewrite H2. intros E.
      assert (Hm : (g - 1 + attaches ops) mod (two64 - 1) = g - 1) by lia.
      pose proof (Z.div_mod (g - 1 + attaches ops) (two64 - 1)) as Hd. rewrite Hm in Hd.
      unfold two64 in *. nia. }
    unfold detachRenderer. rewrite (proj2 (Z.eqb_neq _ _) Hne), andb_false_r. done.
  - rewrite Hn, Z.add_0_r, Z.mod_small in H2 by (unfold two64 in *; lia).
    unfold detachRenderer. rewrite H2. replace (1 + (g - 1)) with g by lia. rewrite Z.eqb_refl, andb_true_r.
    destruct (rendererAttached v2) eqn:Ea; [|exact Ea]. by destruct (negb (presenceLocked _)).
Qed.

End generations.

(** ** What observers are given *)

Section following.
Context `{PtyContractLaws}.

Lemma feed_ok_longer hist x taken_ more : Observer.closed x = true ->
  feed_ok 0 (mkFeed hist x taken_) -> feed_ok 0 (mkFeed (hist ++ more) x taken_).
Proof.
  intros Hc [Hq Hb (through & Hw & Hle & Hend) Hg]. cbn in *. constructor; cbn; [done..| |done].
  exists through. rewrite Hc. split_and!; [by apply walk_extend|zsolve|done].
Qed.

Lemma publish_ok_feed hist hist' v v' : Observer.closed v = false ->
  feed_ok 0 (mkFeed hist v []) -> publish_ok [] 0 hist' v v' -> feed_ok 0 (mkFeed hist' v' []).
Proof.
  intros Hc [Hq Hb _ _] [E1 E2 E3 E4 E5 E6]. cbn in *. constructor; cbn; [lia|by apply E4| |done].
  exists (zlen hist'). split_and!; [done|lia|done].
Qed.

Lemma published_eq floor es (hist retained : octets) through :
  0 <= floor -> floor + zlen retained = zlen hist -> retained = slice_from floor hist -> through = zlen hist ->
  mkOutput es floor through retained = published (slice_to floor hist) es retained /\
  slice_to floor hist ++ retained = hist.
Proof.
  intros Hf Hl -> ->. pose proof (zlen_nonneg (slice_from floor hist)) as Hn.
  assert (Hcat : slice_to floor hist ++ slice_from floor hist = hist) by apply take_drop.
  unfold published. rewrite Hcat, zlen_slice_to by lia. done.
Qed.

(** An observer that has been given nothing is caught up by the gap below the floor and
    the output the ring retains. *)
Lemma catch_up_ok hist r es x : ring_ok hist r -> feed_ok 0 (mkFeed [] x []) ->
  let '(floor, through, retained) := snapshot r in
  let x := if 0 <? floor then publishGap (mkGap 0 es 0 floor) x else x in
  let x := if 0 <? zlen retained then publishOutput (mkOutput es floor through retained) x else x in
  feed_ok 0 (mkFeed hist x []).
Proof.
  intros Hok Hx. unfold snapshot. rewrite (ring_ok_live hist r Hok).
  destruct Hok as [[[Hf _ _ _] _] [Hlen Hbytes]].
  set (x1 := if 0 <? floor r then _ else x).
  assert (H1 : feed_ok 0 (mkFeed (slice_to (floor r) hist) x1 [])).
  { pose proof (zlen_nonneg (bytes r)). unfold x1. destruct (Z.ltb_spec 0 (floor r)) as [Hpos|Hz].
    - unfold publishGap. destruct (Observer.closed x) eqn:Ec.
      + by apply (feed_ok_longer [] x [] (slice_to (floor r) hist)).
      + eapply publish_ok_feed; [done|exact Hx|]. destruct Hx as [Hq Hb (t & Hw & Hle & Hend) Hg]. cbn in *.
        rewrite (Hend Ec) in Hw. apply (publishGapLocked_ok [] 0 [] (slice_to (floor r) hist)); [done..|].
        cbn. by rewrite zlen_slice_to by lia.
    - replace (floor r) with 0 by lia. exact Hx. }
  destruct (published_eq (floor r) es hist (bytes r) (zlen hist)) as [Hpub Hcat]; [done|done|done|done|].
  destruct (Z.ltb_spec 0 (zlen (bytes r))) as [Hpos|Hz].
  - rewrite Hpub. rewrite <- Hcat at 1.
    exact (run_pump_ok 0 es (bytes r) (mkFeed (slice_to (floor r) hist) x1 []) (Z.le_refl 0) H1).
  - assert (Hnil : bytes r = []) by (apply zlen_pos_nil; pose proof (zlen_nonneg (bytes r)); lia).
    rewrite Hnil, app_nil_r in Hcat. by rewrite <- Hcat.
Qed.

Lemma prepared_feed x : prepared_ok x -> feed_ok 0 (mkFeed [] x []).
Proof.
  intros [cap [->| ->]].
  - apply (new_feed_ok [] cap).
  - exact (run_command_ok 0 CloseIt _ (Z.le_refl 0) I (new_feed_ok [] cap)).
Qed.

Lemma note_feed hist x taken_ event : plain_note event -> feed_ok 0 (mkFeed hist x taken_) ->
  feed_ok 0 (mkFeed hist (publish event x) taken_).
Proof. intros Hn Hx. exact (publish_note_ok 0 event _ Hn Hx). Qed.

Lemma close_feed hist x taken_ : feed_ok 0 (mkFeed hist x taken_) ->
  feed_ok 0 (mkFeed hist (Observer.close x) taken_).
Proof. exact (run_command_ok 0 CloseIt _ (Z.le_refl 0) I). Qed.

(** An operation whose only effect on what is followed is on the heap. *)
Lemma followed_heap s v : followed_ok s -> ring_ok (output s) (ring v) -> written v = written (tracked s) ->
  madeObservers v = madeObservers (tracked s) ->
  (forall o x, heap v !! o = Some x -> exists y, heap (tracked s) !! o = Some y /\
    (feed_ok 0 (mkFeed (output s) y (taken_of o s)) -> feed_ok 0 (mkFeed (output s) x (taken_of o s))) /\
    (o ∉ observers v -> (o ∉ observers (tracked s) -> Observer.closed y = true) -> Observer.closed x = true)) ->
  followed_ok (mkFollowed v (output s) (takenBy s)).
Proof.
  intros [Hr Hw Ho Ht] Hring Hwr Hmade Hheap. split; cbn; [done|by rewrite Hwr| |by rewrite Hmade].
  intros o x Hx. destruct (Hheap o x Hx) as (y & Hy & Hfeed & Hclosed).
  destruct (Ho o y Hy) as (Hlt & Hok & Hcl). split_and!; [by rewrite Hmade|by apply Hfeed|auto].
Qed.

Lemma publish_all_lookup f v o x : heap (publish_all f v) !! o = Some x ->
  exists y, heap v !! o = Some y /\ x = if decide (o ∈ observers v) then f y else y.
Proof.
  unfold publish_all. cbn. rewrite map_lookup_imap. destruct (heap v !! o) as [y|]; [|done].
  cbn. intros [= <-]. by exists y.
Qed.

(** A note to every observer. *)
Lemma followed_note s v event : followed_ok s -> plain_note event ->
  ring_ok (output s) (ring v) -> written v = written (tracked s) -> heap v = heap (tracked s) ->
  observers v = observers (tracked s) -> madeObservers v = madeObservers (tracked s) ->
  followed_ok (mkFollowed (publish_all (publish event) v) (output s) (takenBy s)).
Proof.
  intros Hs Hn Hr Hw Hh Ho Hm. apply followed_heap; [done..|].
  intros o x (y & Hy & ->)%publish_all_lookup. rewrite Hh in Hy. exists y. split; [done|].
  change (observers (publish_all (publish event) v)) with (observers v). rewrite Ho.
  case_decide; (split; [intros; try apply note_feed; done|]).
  - by intros ?.
  - auto.
Qed.

Lemma followed_same s v : followed_ok s -> ring_ok (output s) (ring v) -> written v = written (tracked s) ->
  heap v = heap (tracked s) -> observers v = observers (tracked s) ->
  madeObservers v = madeObservers (tracked s) ->
  followed_ok (mkFollowed v (output s) (takenBy s)).
Proof.
  intros Hs Hr Hw Hh Ho Hm. apply followed_heap; [done..|].
  intros o x Hx. rewrite Hh in Hx. exists x. rewrite Ho. auto.
Qed.

(** A new observer [x], bound under the next name. *)
Lemma followed_bind s v x : followed_ok s -> ring_ok (output s) (ring v) -> written v = written (tracked s) ->
  madeObservers v = S (madeObservers (tracked s)) ->
  observers v = {[madeObservers (tracked s)]} ∪ observers (tracked s) ->
  heap v = <[madeObservers (tracked s) := x]> (heap (tracked s)) ->
  feed_ok 0 (mkFeed (output s) x []) ->
  followed_ok (mkFollowed v (output s) (takenBy s)).
Proof.
  intros [Hr Hw Ho Ht] Hring Hwr Hmade Hobs Hheap Hx. split; cbn; [done|by rewrite Hwr| |].
  - intros o y. rewrite Hheap, Hobs, Hmade.
    intros [[<- <-]|[Hne Hy]]%lookup_insert_Some.
    + split_and!; [lia| |set_solver]. unfold taken_of. cbn. by rewrite Ht by lia.
    + destruct (Ho o y Hy) as (Hlt & Hok & Hcl). split_and!; [lia|done|]. intros Hno. apply Hcl. set_solver.
  - intros o Hle. apply Ht. lia.
Qed.

Lemma pump_followed data now s : followed_ok s -> zlen (output s) + zlen data < two64 ->
  followed_ok (mkFollowed (fst (pump_chunk data now (tracked s))) (output s ++ data) (takenBy s)).
Proof.
  intros [Hr Hw Ho Ht] Hlen. destruct (write_ok (output s) data (ring (tracked s)) Hr Hlen) as [Hr' Hnext].
  set (v := tracked s) in *.
  assert (Hv : exists es v1, fst (pump_chunk data now v) =
      publish_all (publishOutput (mkOutput es (written v) (snd (OutputRing.write data (ring v))) data)) v1 /\
      ring v1 = fst (OutputRing.write data (ring v)) /\ written v1 = snd (OutputRing.write data (ring v)) /\
      heap v1 = heap v /\ observers v1 = observers v /\ madeObservers v1 = madeObservers v).
  { unfold pump_chunk. destruct (OutputRing.write data (ring v)) as [r through].
    destruct (feed v) as [f|]; [destruct (offer data through f)|]; eexists _, _; by split. }
  destruct Hv as (es & v1 & -> & H1 & H2 & H3 & H4 & H5). split; cbn [tracked output takenBy].
  - change (ring (publish_all _ v1)) with (ring v1). by rewrite H1.
  - change (written (publish_all _ v1)) with (written v1). by rewrite H2.
  - intros o x (y & Hy & ->)%publish_all_lookup. change (madeObservers (publish_all _ v1)) with (madeObservers v1).
    change (observers (publish_all _ v1)) with (observers v1).
    rewrite H3 in Hy. rewrite H4, H5. destruct (Ho o y Hy) as (Hlt & Hok & Hcl). split; [done|].
    rewrite Hnext, Hw. fold (published (output s) es data).
    pose proof (run_pump_ok 0 es data _ (Z.le_refl 0) Hok) as Hpump. case_decide as Hin; [by split|].
    split; [|done]. unfold taken_of in *. by apply feed_ok_longer; [apply Hcl|].
  - change (madeObservers (publish_all _ v1)) with (madeObservers v1). by rewrite H5.
Qed.

Lemma take_followed o now s : followed_ok s -> followed_ok (follow_op s (now, OpTake o)).
Proof.
  intros Hs. pose proof Hs as [Hr Hw Ho Ht]. cbn. unfold take_event.
  destruct (heap (tracked s) !! o) as [x|] eqn:Ex; [|by apply followed_same].
  destruct (Ho o x Ex) as (Hlt & Hok & Hcl).
  pose proof (take_ok 0 _ Hok) as Htake. cbn in Htake.
  assert (Hnc : Observer.closed (fst (next x)) = Observer.closed x).
  { unfold next. destruct (events x) as [|[]]; [destruct (Observer.closed x) eqn:Ec; by cbn|done..]. }
  destruct (next x) as [x' answer] eqn:En. cbn [fst snd] in *.
  set (tb := match answer with Some ObsNone | None => takenBy s | Some _ => _ end).
  assert (Htb : forall i, default [] (tb !! i) = if decide (i = o) then
      taken_of o s ++ match answer with Some ObsNone | None => [] | Some event => [event] end else taken_of i s).
  { intros i. unfold tb, taken_of. destruct answer as [[]|]; destruct (decide (i = o)) as [->|];
      rewrite ?lookup_insert_eq, ?lookup_insert_ne, ?app_nil_r by done; done. }
  split; cbn [tracked output takenBy].
  - done.
  - done.
  - intros i y Hy. unfold taken_of. cbn [takenBy]. rewrite Htb. cbn in Hy.
    apply lookup_insert_Some in Hy as [[<- <-]|[Hne Hy]].
    + rewrite decide_True by done. split_and!; [done|done|]. rewrite Hnc. exact Hcl.
    + rewrite decide_False by done. by apply Ho.
  - intros i Hi. unfold tb. cbn in Hi. specialize (Ht i Hi). destruct answer as [[]|]; try done;
      rewrite lookup_insert_ne by lia; done.
Qed.

(** Closing one observer, and no longer publishing to it. *)
Lemma followed_close o s v : followed_ok s -> ring v = ring (tracked s) -> written v = written (tracked s) ->
  heap v = heap (tracked s) -> madeObservers v = madeObservers (tracked s) ->
  (forall i, i ∉ observers v -> i = o \/ (i ∉ observers (tracked s))) ->
  followed_ok (mkFollowed (v <| heap := alter Observer.close o (heap v) |>) (output s) (takenBy s)).
Proof.
  intros Hs Hr Hw Hh Hm Hobs. pose proof Hs as [Hring _ _ _].
  apply followed_heap; [done|by cbn; rewrite Hr|done|done|]. cbn. rewrite Hh. intros i x Hx.
  destruct (decide (i = o)) as [->|Hne].
  - rewrite lookup_alter_eq in Hx. destruct (heap (tracked s) !! o) as [y|]; [|done].
    injection Hx as <-. exists y. split_and!; [done|apply close_feed|done].
  - rewrite lookup_alter_ne in Hx by done. exists x. split_and!; [done..|].
    intros Hi Hcl. destruct (Hobs i Hi); [done|auto].
Qed.

(** An operation that leaves the ring, the observers and what was written alone. *)
Lemma followed_still s v : followed_ok s -> ring v = ring (tracked s) -> written v = written (tracked s) ->
  heap v = heap (tracked s) -> observers v = observers (tracked s) ->
  madeObservers v = madeObservers (tracked s) -> followed_ok (mkFollowed v (output s) (takenBy s)).
Proof. intros Hs E1 E2 E3 E4 E5. pose proof Hs as [Hr _ _ _]. apply followed_same; [done|by rewrite E1|done..]. Qed.

Lemma detach_followed s now gen : followed_ok s ->
  followed_ok (mkFollowed (detachRenderer gen now (tracked s)) (output s) (takenBy s)) /\
  followed_ok (mkFollowed (fst (detachActiveRenderer now (tracked s))) (output s) (takenBy s)).
Proof.
  intros Hs. unfold detachRenderer, detachActiveRenderer. split.
  - destruct (rendererAttached _ && _); [|by apply followed_still]. destruct (negb (presenceLocked _)); by apply followed_still.
  - destruct (rendererAttached _); cbn [andb]; [|by apply followed_still]. destruct (negb (presenceLocked _)); by apply followed_still.
Qed.

Lemma setDisplays_followed s token d now : followed_ok s ->
  followed_ok (mkFollowed (fst (setDisplays token d now (tracked s))) (output s) (takenBy s)).
Proof.
  intros Hs. unfold setDisplays. destruct (observerTokens (tracked s) !! token); [|by apply followed_still].
  destruct d; [by apply followed_still|]. case_bool_decide; [|by apply followed_still].
  destruct (negb (presenceLocked _)); by apply followed_still.
Qed.

Lemma observe_followed s token d : followed_ok s ->
  followed_ok (mkFollowed (fst (observe token d (tracked s))) (output s) (takenBy s)).
Proof.
  intros Hs. pose proof Hs as [Hr _ _ _]. unfold observe. destruct (negb (String.eqb token "")).
  - destruct (observerTokens (tracked s) !! token); [|by apply followed_still]. destruct d; by apply followed_still.
  - pose proof (catch_up_ok (output s) (ring (tracked s)) (eventSequence (tracked s))
      (newObserver ObserverBufferBytes) Hr (new_feed_ok [] ObserverBufferBytes)) as Hx.
    destruct d; (eapply followed_bind; [done|exact Hr|done|done|done|done|exact Hx]).
Qed.

Lemma adopt_followed s token d x : followed_ok s -> prepared_ok x ->
  followed_ok (mkFollowed (fst (adoptObserver token d x (tracked s))) (output s) (takenBy s)).
Proof.
  intros Hs Hop. pose proof Hs as [Hr _ _ _]. pose proof (prepared_feed x Hop) as Hx0.
  pose proof (catch_up_ok (output s) (ring (tracked s)) (eventSequence (tracked s)) _ Hr
    (note_feed [] x [] (ObsOpened (mkOpened (id (tracked s)) (generation (tracked s))
      (eventSequence (tracked s)) (floor (ring (tracked s))))) I Hx0)) as Hx.
  unfold adoptObserver. destruct d; (eapply followed_bind; [done|exact Hr|done|done|done|done|exact Hx]).
Qed.

Lemma remove_followed s o now : followed_ok s ->
  followed_ok (mkFollowed (removeObserver o now (tracked s)) (output s) (takenBy s)).
Proof.
  intros Hs. unfold removeObserver. set (v1 := if _ && _ && _ then _ else _).
  assert (Hv1 : ring v1 = ring (tracked s) /\ written v1 = written (tracked s) /\ heap v1 = heap (tracked s) /\
    observers v1 = observers (tracked s) ∖ {[o]} /\ madeObservers v1 = madeObservers (tracked s)).
  { unfold v1. by destruct (_ && _). }
  destruct Hv1 as (E1 & E2 & E3 & E4 & E5). apply (followed_close o s v1); [done..|].
  intros i Hi. rewrite E4 in Hi. destruct (decide (i = o)); [by left|right]. set_solver.
Qed.

Lemma reap_followed s e now : followed_ok s ->
  followed_ok (mkFollowed (fst (reap e now (tracked s))) (output s) (takenBy s)).
Proof.
  intros Hs. pose proof Hs as [Hr _ _ _]. unfold reap.
  destruct (closed (tracked s)); [by apply followed_still|]. set (v1 := publish_all _ _).
  assert (Hv1 : followed_ok (mkFollowed v1 (output s) (takenBy s))) by by apply followed_note.
  destruct (feed (tracked s)); apply (followed_same (mkFollowed v1 (output s) (takenBy s))); try done; by apply end_ok.
Qed.

Lemma followed_op s now op : followed_ok s -> op_ok op ->
  zlen (output (follow_op s (now, op))) < two64 -> followed_ok (follow_op s (now, op)).
Proof.
  intros Hs Hop Hlen. pose proof Hs as [Hr Hw Ho Ht].
  destruct op as [data|b| | |gen| |c r ok|token d|token d|token d x|o|o|o|t|ro|e]; cbn [follow_op run_op] in *;
    try by apply followed_still.
  - apply pump_followed; [done|]. cbn [output] in Hlen. by rewrite zlen_app in Hlen.
  - by apply (detach_followed s now gen).
  - by apply (detach_followed s now 0).
  - unfold resize. destruct ((c =? 0) || (r =? 0)); [by apply followed_still|]. destruct ok; [|by apply followed_still].
    cbn [negb fst]. by apply followed_note.
  - by apply observe_followed.
  - by apply setDisplays_followed.
  - by apply adopt_followed.
  - by apply remove_followed.
  - by apply (take_followed o now).
  - apply (followed_close o s (tracked s)); [done..|]. by right.
  - unfold ack. destruct (OutputRing.resumed _ _); apply followed_same; try done; by apply ack_ok.
  - apply followed_same; try done. cbn. cbn in Hop.
    pose proof (apply_op_ok (output s) ro (ring (tracked s)) Hr) as Happ. rewrite Hop, app_nil_r in Happ.
    apply Happ. cbn [output] in Hlen. rewrite zlen_nil. lia.
  - by apply reap_followed.
Qed.

Lemma follow_output_grows ops : forall s, zlen (output s) <= zlen (output (follow_ops ops s)).
Proof.
  induction ops as [|[now op] ops IH]; intros s; [apply Z.le_refl|].
  etransitivity; [|apply IH]. cbn. destruct op; zsolve.
Qed.

Lemma follow_ops_ok ops : forall s, followed_ok s -> Forall (fun timed => op_ok (snd timed)) ops ->
  zlen (output (follow_ops ops s)) < two64 -> followed_ok (follow_ops ops s).
Proof.
  induction ops as [|[now op] ops IH]; intros s Hs Hall Hlen; [done|].
  apply Forall_cons in Hall as [Hop Hall]. apply IH; [|done|done]. apply followed_op; [done|exact Hop|].
  eapply Z.le_lt_trans; [apply follow_output_grows|exact Hlen].
Qed.

Lemma newSession_ok sid pane window dir cmd at_ gen c r env store prepared :
  (forall token displays x, prepared = Some (token, displays, x) -> prepared_ok x) ->
  followed_ok (mkFollowed (announce (newSession sid pane window dir cmd at_ gen c r env store prepared)) [] ∅).
Proof.
  intros Hx. pose proof high_watermark_size.
  assert (Hring : ring_ok [] (newRing HighWatermark)) by (apply newRing_ok; lia).
  destruct prepared as [[[token d] x]|]; cbn [newSession]; split; cbn; try done.
  - intros o y Hy. rewrite lookup_alter_Some in Hy.
    destruct Hy as [(-> & z & Hz & ->)|[Hne Hy]]; [|by apply lookup_singleton_Some in Hy as [<- _]].
    apply lookup_singleton_Some in Hz as [_ <-].
    split_and!; [lia| |intros Hn; destruct Hn; by apply elem_of_singleton].
    apply note_feed; [done|]. by eapply prepared_feed, Hx.
Qed.

(** C7: from the opening of a session on, whatever its shell prints and whoever attaches,
    watches, leaves or is adopted, the written count is what the shell has printed, and
    what each observer was given (taken by its stream, or still queued) covers that output
    from its first byte without overlap or omission, losses marked as gaps, up to the live
    edge while the observer is open; an observer no longer published to is closed. *)
Theorem session_observers_cover sid pane window dir cmd at_ gen c r env store prepared ops :
  (forall token displays x, prepared = Some (token, displays, x) -> prepared_ok x) ->
  Forall (fun timed => op_ok (snd timed)) ops ->
  let v := announce (newSession sid pane window dir cmd at_ gen c r env store prepared) in
  let s := follow_ops ops (mkFollowed v [] ∅) in
  zlen (output s) < two64 ->
  written (tracked s) = zlen (output s) /\
  forall o x, heap (tracked s) !! o = Some x ->
    (exists through, walk (output s) 0 (taken_of o s ++ events x) = Some through /\
      through <= zlen (output s) /\ (Observer.closed x = false -> through = zlen (output s))) /\
    Observer.queued x <= Observer.capacity x /\ (o ∈ observers (tracked s) \/ Observer.closed x = true).
Proof.
  intros Hx Hall v s Hlen.
  destruct (follow_ops_ok ops _ (newSession_ok sid pane window dir cmd at_ gen c r env store prepared Hx)
    Hall Hlen) as [_ Hw Ho _]. fold s in Hw, Ho. split; [done|]. intros o x Hox.
  destruct (Ho o x Hox) as (_ & [_ Hb Hcov _] & Hcl). split_and!; [exact Hcov|exact Hb|].
  destruct (decide (o ∈ observers (tracked s))); [by left|right; by apply Hcl].
Qed.

End following.

(** ** Witnesses *)

Section witnesses.
#[local] Existing Instance sample_contract.
#[local] Existing Instance sample_contract_laws.

Definition sample_session : session :=
  newSession 7 "p1" "w1" "/" "sh -l" 100 3 80 24 [] false (Some ("t", true, newObserver 12)).

Definition shown_ops : list (Z * session_op) :=
  [(110, OpAttach); (120, OpPump (text "hello")); (130, OpDetach 1); (140, OpRemove 0); (150, OpObserve "" false)].

Definition sample_start : witnessed := newWitnessed sample_session 100.

(** A prepared observer is adopted at 160 and shows the session until it leaves at 200. *)
Definition adopted_ops : list (Z * session_op) :=
  shown_ops ++ [(160, OpAdopt "u" true (newObserver 12)); (200, OpRemove 2)].

Example sample_abandoned :
  let v := current (witness_ops shown_ops sample_start) in
  (detachedAt v, writtenAt v, abandonedSince 141 v, abandonedSince 140 v) = (Some 140, Some 120, true, false).
Proof. vm_compute. reflexivity. Qed.

(** With no hypothesis to discharge: a session shown and left, and one whose adopter does not
    count. *)
Example sample_counted :
  (lastShown (witness_ops shown_ops sample_start), lastCounted (witness_ops shown_ops sample_start)) = (Some 140, Some 140) /\
  (lastShown (witness_ops adopted_ops sample_start), lastCounted (witness_ops adopted_ops sample_start),
   abandonedSince 150 (current (witness_ops adopted_ops sample_start))) = (Some 200, Some 140, true).
Proof. vm_compute. by split. Qed.


(** A session whose renderer left at 130, then adopted. *)
Definition detached_session : session :=
  detachRenderer 1 130 (fst (attachRenderer (newSession 7 "p1" "w1" "/" "sh -l" 100 3 80 24 [] false None))).

Lemma adopted_display_keeps_old_stamp_witness :
  let '(shown, o) := adoptObserver "t" true (newObserver 12) detached_session in
  presenceLocked shown = true /\ detachedAt shown = Some 130 /\
  abandonedSince 1000 (removeObserver o 999 shown) = true.
Proof.
  apply (adopted_display_keeps_old_stamp detached_session "t" (newObserver 12) 130 1000 999).
  - vm_compute. reflexivity.
  - vm_compute. reflexivity.
  - lia.
  - cbn. intros t'. discriminate.
  - cbn. set_solver.
Defined.


Lemma session_observers_cover_witness :
  let v := announce (newSession 7 "p1" "w1" "/" "sh -l" 100 3 80 24 [] false (Some ("t", true, newObserver 12))) in
  let s := follow_ops shown_ops (mkFollowed v [] ∅) in
  written (tracked s) = zlen (output s) /\
  forall o x, heap (tracked s) !! o = Some x ->
    (exists through, walk (output s) 0 (taken_of o s ++ events x) = Some through /\
      through <= zlen (output s) /\ (Observer.closed x = false -> through = zlen (output s))) /\
    Observer.queued x <= Observer.capacity x /\ (o ∈ observers (tracked s) \/ Observer.closed x = true).
Proof.
  apply (session_observers_cover 7 "p1" "w1" "/" "sh -l" 100 3 80 24 [] false
    (Some ("t", true, newObserver 12)) shown_ops).
  - intros token displays x [= <- <- <-]. exists 12. by left.
  - repeat constructor.
  - reflexivity.
Defined.

End witnesses.
