(* ===== verification/UnixProcess.v ===== *)
(** * A shell on a pseudo terminal (process_unix.go)

    The shell leads a session and a process group of its own, and [Terminate] signals that
    group.  [kernel] is what POSIX keeps of processes: their groups and sessions, and which
    of them still run; [kernel_step] is anything that the processes themselves do.  A number
    is not given to a new process while it names a process, a group or a session.  The
    package that opens the terminal is an argument. *)

From S2P Require Import Prelude Contract Session.

(** ** The kernel *)

Record process := mkProcess {
  pgid : Z;
  sid : Z;
  running : bool
}.

(** A process that no longer runs stays in the table until its parent waited for it. *)
Record kernel := mkKernel {
  table : gmap Z process;
  foreground : Z
}.

#[export] Instance process_settable : Settable process := fun p => mkProcess (pgid p) (sid p) (running p).
#[export] Instance kernel_settable : Settable kernel := fun k => mkKernel (table k) (foreground k).

Definition unused (pid : Z) (k : kernel) : Prop :=
  0 < pid < 2147483648 /\ table k !! pid = None /\
  forall q p, table k !! q = Some p -> pgid p <> pid /\ sid p <> pid.

(** What processes do.  [child] is the child of the daemon, which no one else waits for. *)
Inductive kernel_step (child : Z) : kernel -> kernel -> Prop :=
| forks parent p pid k : table k !! parent = Some p -> running p = true -> unused pid k ->
    kernel_step child k (k <| table := <[pid := mkProcess (pgid p) (sid p) true]> (table k) |>)
| joins_group pid p g k : table k !! pid = Some p -> running p = true -> pid <> sid p ->
    g = pid \/ (exists q p', table k !! q = Some p' /\ pgid p' = g /\ sid p' = sid p) ->
    kernel_step child k (k <| table := <[pid := p <| pgid := g |>]> (table k) |>)
| leads_session pid p k : table k !! pid = Some p -> running p = true ->
    (forall q p', table k !! q = Some p' -> pgid p' <> pid) ->
    kernel_step child k (k <| table := <[pid := mkProcess pid pid true]> (table k) |>)
| exits pid p k : table k !! pid = Some p ->
    kernel_step child k (k <| table := <[pid := p <| running := false |>]> (table k) |>)
| waited_for pid p k : table k !! pid = Some p -> running p = false -> pid <> child ->
    kernel_step child k (k <| table := delete pid (table k) |>)
| takes_terminal g k : kernel_step child k (k <| foreground := g |>).

(** ** The process of a session *)

(** [master] is the terminal, [None] for a nil one, and whether it is open. *)
Record unixSessionProcess := mkUnixProcess {
  master : option bool;
  cmd_pid : Z
}.

#[export] Instance unix_settable : Settable unixSessionProcess := fun p => mkUnixProcess (master p) (cmd_pid p).

(** The command that is started, with the size of its terminal. *)
Record command := mkCommand {
  argv : list string;
  Env : list string;
  Dir : string;
  winsize : Z * Z
}.

Definition shell_command (shell cwd : string) (environment : list string) (cols rows : Z) : command :=
  mkCommand [shell; "-l"%string] environment cwd (cols, rows).

(** [pty.StartWithSize]: the pid of the command, as the leader of a session on the terminal. *)
Definition startSessionProcess (StartWithSize : command -> option Z) (shell cwd : string) (environment : list string)
    (cols rows : Z) : option unixSessionProcess :=
  match StartWithSize (shell_command shell cwd environment cols rows) with
  | None => None
  | Some pid => Some (mkUnixProcess (Some true) pid)
  end.

Definition PID (p : unixSessionProcess) : Z := cmd_pid p mod 4294967296.

(** The processes that [kill] of a group reaches. *)
Definition in_group (g : Z) (k : kernel) : gmap Z process :=
  filter (fun qp => pgid qp.2 = g /\ running qp.2 = true) (table k).

Definition kill_group (g : Z) (k : kernel) : kernel :=
  k <| table := (fun p => if bool_decide (pgid p = g) then p <| running := false |> else p) <$> table k |>.

Definition Terminate (p : unixSessionProcess) (k : kernel) : kernel :=
  if 0 <? cmd_pid p then kill_group (cmd_pid p) k else k.

Definition Close (p : unixSessionProcess) : unixSessionProcess := p <| master := Some false |>.

(** [None] while the process runs: the caller waits. *)
Definition Wait (p : unixSessionProcess) (k : kernel) : option kernel :=
  match table k !! cmd_pid p with
  | Some q => if running q then None else Some (k <| table := delete (cmd_pid p) (table k) |>)
  | None => Some k
  end.

(** [ioctl] is the answer of a terminal that is open, [None] for an error. *)
Definition ForegroundGroup (ioctl : option Z) (p : unixSessionProcess) : Z :=
  match master p with
  | Some true => match ioctl with
                 | None => 0
                 | Some group => if group <=? 0 then 0 else group mod 4294967296
                 end
  | _ => 0
  end.

(** ** A reap *)

(** [todo] is what the reap still asks of the process; [hit] are the processes that its
    signals reached. *)
Record reaping := mkReaping {
  kern : kernel;
  handle : unixSessionProcess;
  todo : list action;
  hit : list (Z * process)
}.

#[export] Instance reaping_settable : Settable reaping := fun r => mkReaping (kern r) (handle r) (todo r) (hit r).

(** The next call of the reap, [None] while it waits; the calls that are not on the process
    are made elsewhere. *)
Definition reap_turn (r : reaping) : option reaping :=
  match todo r with
  | [] => None
  | a :: rest =>
      let r := r <| todo := rest |> in
      match a with
      | ProcessTerminate =>
          Some (r <| hit := hit r ++ (if 0 <? cmd_pid (handle r) then map_to_list (in_group (cmd_pid (handle r)) (kern r)) else []) |>
                  <| kern := Terminate (handle r) (kern r) |>)
      | ProcessClose => Some (r <| handle := Close (handle r) |>)
      | ProcessWait => k ← Wait (handle r) (kern r); Some (r <| kern := k |>)
      | _ => Some r
      end
  end.

Inductive reap_step (child : Z) : reaping -> reaping -> Prop :=
| others_go_on r k : kernel_step child (kern r) k -> reap_step child r (r <| kern := k |>)
| reap_goes_on r r' : reap_turn r = Some r' -> reap_step child r r'.

(** The shell has started: it leads a new session. *)
Definition shell_started (pid : Z) (k0 k : kernel) : Prop :=
  unused pid k0 /\ k = k0 <| table := <[pid := mkProcess pid pid true]> (table k0) |>.

(** ** What a reap ends *)

(** Until the reap waited for it the shell is the leader of its session, and its group is in
    that session. *)
Definition leads (pid : Z) (k : kernel) : Prop :=
  0 < pid /\ (exists p, table k !! pid = Some p /\ pgid p = pid /\ sid p = pid) /\
  forall q p, table k !! q = Some p -> pgid p = pid -> sid p = pid.

Lemma started_leads pid k0 k : shell_started pid k0 k -> leads pid k.
Proof.
  intros [[Hpos [Hno Hun]] ->]. split; [lia|]. split.
  - exists (mkProcess pid pid true). split; [apply lookup_insert_eq|done].
  - cbn. intros q p [[<- <-]|[_ E]]%lookup_insert_Some; [done|]. intros Hp. by destruct (Hun q p E).
Qed.

(** A process that keeps its session, and joins only groups of it. *)
Lemma leads_insert pid q p' k : leads pid k -> (pgid p' = pid -> sid p' = pid) ->
  (q = pid -> pgid p' = pid /\ sid p' = pid) -> leads pid (k <| table := <[q := p']> (table k) |>).
Proof.
  intros (Hpos & (p & Ep & Hp) & Hall) Hnew Hown. split; [done|]. split; cbn.
  - destruct (decide (q = pid)) as [->|Hne]; [exists p'; split; [apply lookup_insert_eq|by apply Hown]|].
    exists p. by rewrite lookup_insert_ne.
  - intros u x [[<- <-]|[_ E]]%lookup_insert_Some; [done|by apply (Hall u)].
Qed.

Lemma kernel_step_leads pid k k' : kernel_step pid k k' -> leads pid k -> leads pid k'.
Proof.
  intros Hstep Hk. pose proof Hk as (Hpos & (p0 & Ep0 & Hg0 & Hs0) & Hall). destruct Hstep as
    [parent p q k Hp _ (_ & Hno & Hun)|q p g k Hp _ Hlead Hg|q p k Hp _ Hnone|q p k Hp|q p k Hp _ Hne|g k]; [apply leads_insert..| |].
  - done.
  - cbn. by apply (Hall parent).
  - intros ->. exfalso. congruence.
  - done.
  - cbn. intros ->. destruct Hg as [->|(u & p' & Hu & Hu2 & <-)]; [congruence|by apply (Hall u)].
  - intros ->. exfalso. congruence.
  - done.
  - done.
  - intros ->. by destruct (Hnone pid p0 Ep0).
  - done.
  - cbn. by apply (Hall q).
  - cbn. intros ->. by replace p with p0 by congruence.
  - split; [done|]. split; cbn.
    + exists p0. by rewrite lookup_delete_ne.
    + intros u x [_ E]%lookup_delete_Some. by apply (Hall u).
  - done.
Qed.

Lemma terminate_leads pid k g : leads pid k -> leads pid (kill_group g k).
Proof.
  intros (Hpos & (p0 & Ep0 & Hg0 & Hs0) & Hall). split; [done|]. unfold kill_group. split; cbn.
  - rewrite lookup_fmap, Ep0. cbn. eexists. split; [done|]. by destruct (bool_decide (pgid p0 = g)).
  - intros q p. rewrite lookup_fmap. intros Hx. apply fmap_Some_1 in Hx as (x & Ex & ->). destruct (bool_decide (pgid x = g)); exact (Hall q x Ex).
Qed.

(** A process that ended stays ended. *)
Definition ended_process (pid : Z) (k : kernel) : Prop := exists p, table k !! pid = Some p /\ running p = false.

Lemma ended_insert pid q p p' k : ended_process pid k -> table k !! q = Some p -> (running p = false -> running p' = false) ->
  ended_process pid (k <| table := <[q := p']> (table k) |>).
Proof.
  intros (x & Ex & Hx) Eq Hr. destruct (decide (q = pid)) as [->|Hne].
  - exists p'. cbn. rewrite lookup_insert_eq. split; [done|]. apply Hr. congruence.
  - exists x. cbn. by rewrite lookup_insert_ne.
Qed.

Lemma kernel_step_ended pid k k' : kernel_step pid k k' -> ended_process pid k -> ended_process pid k'.
Proof.
  intros Hstep He. destruct Hstep as [parent p q k Hp _ (_ & Hno & _)|q p g k Hp Hr _ _|q p k Hp Hr _|q p k Hp|q p k Hp _ Hne|g k].
  - destruct He as (x & Ex & Hx). exists x. cbn. rewrite lookup_insert_ne; [done|]. intros ->. congruence.
  - by apply (ended_insert pid q p).
  - apply (ended_insert pid q p); [done|done|congruence].
  - by apply (ended_insert pid q p).
  - destruct He as (x & Ex & Hx). exists x. cbn. by rewrite lookup_delete_ne.
  - done.
Qed.

Lemma terminate_ends pid k : leads pid k -> ended_process pid (kill_group pid k).
Proof.
  intros (_ & (p & Ep & Hg & _) & _). exists (p <| running := false |>). unfold kill_group. cbn. rewrite lookup_fmap, Ep. cbn.
  by rewrite (bool_decide_eq_true_2 _ Hg).
Qed.

(** What a reap asks of the process. *)
Definition of_process (a : action) : bool :=
  match a with ProcessTerminate | ProcessClose | ProcessWait => true | _ => false end.

Lemma reap_asks `{PtyContract} ended now v : closed v = false ->
  exists before, snd (reap ended now v) = before ++ [ProcessTerminate; ProcessClose; ProcessWait] /\ Forall (fun a => of_process a = false) before.
Proof.
  intros Hc. unfold reap. rewrite Hc. destruct (feed v) as [f|]; cbn [snd]; eexists; (split; [rewrite !app_assoc; reflexivity|]);
    destruct (ended && _); repeat constructor.
Qed.

(** The turns of a reap of the shell [pid]: what was hit belongs to the shell's session, and
    the shell leads it until the reap waited for it. *)
Definition reap_ok (pid : Z) (r : reaping) : Prop :=
  cmd_pid (handle r) = pid /\ (forall q p, (q, p) ∈ hit r -> pgid p = pid /\ sid p = pid /\ running p = true) /\
  (todo r = [] \/
   exists before, leads pid (kern r) /\ Forall (fun a => of_process a = false) before /\
     (todo r = before ++ [ProcessTerminate; ProcessClose; ProcessWait] \/
      ended_process pid (kern r) /\ (todo r = [ProcessClose; ProcessWait] \/ todo r = [ProcessWait]))).

Lemma reap_step_ok pid r r' : reap_step pid r r' -> reap_ok pid r -> reap_ok pid r'.
Proof.
  intros Hstep (Hpid & Hhit & Htodo). destruct Hstep as [r k Hk|r r' Ht].
  - split_and!; [done..|]. destruct Htodo as [E|(before & Hl & Hb & E)]; [by left|right].
    exists before. split_and!; [by apply (kernel_step_leads pid (kern r))|done|].
    destruct E as [E|[He E]]; [by left|]. right. split; [by apply (kernel_step_ended pid (kern r))|done].
  - unfold reap_turn in Ht. destruct Htodo as [E|(before & Hl & Hb & E)]; [by rewrite E in Ht|].
    pose proof Hl as (Hpos & _ & Hall). destruct E as [E|[He [E|E]]]; [destruct before as [|a before]| |]; rewrite E in Ht; cbn in Ht.
    + injection Ht as <-. rewrite Hpid. replace (0 <? pid) with true by lia. split_and!; [done|cbn|].
      * intros q p [Hq|Hq]%elem_of_app; [exact (Hhit q p Hq)|].
        apply elem_of_map_to_list, map_lookup_filter_Some in Hq as (Ep & Hg & Hr). cbn in *. split_and!; [done| |done]. exact (Hall q p Ep Hg).
      * assert (Ek : Terminate (handle r) (kern r) = kill_group pid (kern r)) by (unfold Terminate; rewrite Hpid; by replace (0 <? pid) with true by lia).
        right. exists []. cbn. rewrite Ek. split_and!; [by apply terminate_leads|done|]. right. split; [by apply terminate_ends|by left].
    + apply Forall_cons in Hb as [Ha Hb].
      destruct a; try discriminate Ha; injection Ht as <-; (split_and!; [done..|]); right; exists before; by split_and!; [| |left].
    + injection Ht as <-. split_and!; [done..|]. right. exists []. split_and!; [done|done|]. right. split; [done|by right].
    + destruct (Wait _ _) as [k|]; [|done]. injection Ht as <-. split_and!; [done..|]. by left.
Qed.

(** It can always go on: by the time it waits for the shell the shell has ended. *)
Lemma reap_can_go_on pid r : reap_ok pid r -> todo r <> [] ->
  exists r', reap_turn r = Some r' /\ (length (todo r') < length (todo r))%nat.
Proof.
  intros (Hpid & _ & [E|(before & _ & Hb & E)]) Hne; [done|]. unfold reap_turn.
  destruct (todo r) as [|a rest]; [done|].
  assert (Hok : a = ProcessWait -> ended_process pid (kern r)).
  { intros ->. destruct E as [E|[He _]]; [|done]. destruct before as [|b before]; [done|].
    injection E as <- _. by apply Forall_cons in Hb as [? _]. }
  destruct a; try (eexists; split; [reflexivity|cbn; lia]).
  destruct (Hok eq_refl) as (p & Ep & Hp). unfold Wait. cbn. rewrite Hpid, Ep, Hp. eexists. split; [reflexivity|cbn; lia].
Qed.

(** The reap of an open session, whatever its shell did since it started. *)
Definition reap_of `{PtyContract} (pid : Z) (ended : bool) (now : Z) (v : session) (k : kernel) : reaping :=
  mkReaping k (mkUnixProcess (Some true) pid) (snd (reap ended now v)) [].

(** C24: a reap ends the group of its shell and nothing outside the shell's session.  Whatever the
    shell and everything else on the machine did before and do meanwhile, each process its
    signal reached runs in the group the shell leads and in its session - the number was never
    given to another group - and the reap never waits: it has a next call, and fewer left,
    until it waited for the shell. *)
Theorem reap_stays_in_its_session `{PtyContract} pid k0 k1 k ended now v r : closed v = false -> shell_started pid k0 k1 ->
  rtc (kernel_step pid) k1 k -> rtc (reap_step pid) (reap_of pid ended now v k) r ->
  (forall q p, (q, p) ∈ hit r -> pgid p = pid /\ sid p = pid /\ running p = true) /\
  (todo r <> [] -> exists r', reap_turn r = Some r' /\ (length (todo r') < length (todo r))%nat).
Proof.
  intros Hc Hstart Hlife Hrun.
  assert (Hlead : leads pid k).
  { apply started_leads in Hstart. clear Hrun. induction Hlife as [k|k1 k2 k Hs _ IH]; [done|]. by apply IH, (kernel_step_leads pid k1). }
  assert (Hok : reap_ok pid r).
  { destruct (reap_asks ended now v Hc) as (before & E & Hb).
    assert (Hfirst : reap_ok pid (reap_of pid ended now v k)).
    { split_and!; [done|by intros q p ?%not_elem_of_nil|]. right. exists before. split_and!; [done..|]. by left. }
    clear E Hb Hlead Hlife. remember (reap_of pid ended now v k) as r0 eqn:E. clear E.
    induction Hrun as [r|r r1 r2 Hs _ IH]; [done|]. by apply IH, (reap_step_ok pid r). }
  split; [apply Hok|by apply (reap_can_go_on pid)].
Qed.

(** ** What a reap leaves *)

(** A job that the shell put in a group of its own, as a shell with job control does with
    every job. *)
Section jobs.
Context `{PtyContract}.

Definition machine0 : kernel := mkKernel {[1 := mkProcess 1 1 true]} 0.
Definition shell_alone : kernel := machine0 <| table := <[10 := mkProcess 10 10 true]> (table machine0) |>.
Definition job_forked : kernel := shell_alone <| table := <[11 := mkProcess 10 10 true]> (table shell_alone) |>.
Definition job_grouped : kernel := job_forked <| table := <[11 := mkProcess 11 10 true]> (table job_forked) |>.

Lemma job_runs : shell_started 10 machine0 shell_alone /\ rtc (kernel_step 10) shell_alone job_grouped.
Proof.
  assert (Hone : forall q p, table machine0 !! q = Some p -> q = 1 /\ p = mkProcess 1 1 true).
  { cbn. intros q p [<- <-]%lookup_singleton_Some. done. }
  split.
  - split; [|done]. split; [done|]. split; [done|]. intros q p [_ ->]%Hone. done.
  - eapply rtc_l; [apply (forks 10 10 (mkProcess 10 10 true) 11 shell_alone); [done|done|]|].
    + split; [done|]. split; [done|]. cbn. intros q p [[_ <-]|[_ [_ ->]%Hone]]%lookup_insert_Some; done.
    + eapply rtc_l; [apply (joins_group 10 11 (mkProcess 10 10 true) 11 job_forked); [done|done|done|by left]|]. apply rtc_refl.
Qed.

(** The reap is over, the shell is gone, and the job runs on in the session of the shell. *)
Theorem job_outlives_the_reap ended now v : closed v = false -> exists r,
  rtc (reap_step 10) (reap_of 10 ended now v job_grouped) r /\ todo r = [] /\
  table (kern r) !! 10 = None /\ table (kern r) !! 11 = Some (mkProcess 11 10 true).
Proof.
  intros Hc. destruct (reap_asks ended now v Hc) as (before & E & Hb).
  assert (Hskip : forall before, Forall (fun a => of_process a = false) before -> forall rest h,
    rtc (reap_step 10) (mkReaping job_grouped (mkUnixProcess (Some true) 10) (before ++ rest) h) (mkReaping job_grouped (mkUnixProcess (Some true) 10) rest h)).
  { clear. induction before as [|a before IH]; intros Hb rest h; [apply rtc_refl|]. apply Forall_cons in Hb as [Ha Hb].
    eapply rtc_l; [apply reap_goes_on|by apply IH]. by destruct a. }
  unfold reap_of. rewrite E. eexists. split.
  - etrans; [by apply Hskip|]. eapply rtc_l; [by apply reap_goes_on|]. eapply rtc_l; [by apply reap_goes_on|].
    eapply rtc_l; [apply reap_goes_on; vm_compute; reflexivity|]. apply rtc_refl.
  - split_and!; vm_compute; reflexivity.
Qed.

End jobs.

(** The group that holds the terminal is a process id, or 0 when there is none to name. *)
Lemma ForegroundGroup_range ioctl p : 0 <= ForegroundGroup ioctl p < 4294967296.
Proof.
  unfold ForegroundGroup. destruct (master p) as [[]|]; try lia. destruct ioctl as [g|]; [|lia].
  destruct (g <=? 0); [lia|]. apply Z.mod_pos_bound. lia.
Qed.

(** ** A concrete reap *)

#[local] Existing Instance sample_contract.

Definition sample_session : session := newSession 7 "p" "w" "/" "sh" 0 1 80 24 [] false None.

(** The reap once its signal was sent. *)
Definition signalled : reaping :=
  let r := reap_of 10 true 5 sample_session job_grouped in
  let r := default r (reap_turn r) in default r (reap_turn r).

Lemma reap_stays_in_its_session_witness :
  hit signalled = [(10, mkProcess 10 10 true)] /\
  (forall q p, (q, p) ∈ hit signalled -> pgid p = 10 /\ sid p = 10 /\ running p = true) /\
  (todo signalled <> [] -> exists r', reap_turn signalled = Some r' /\ (length (todo r') < length (todo signalled))%nat).
Proof.
  destruct job_runs as [Hstart Hlife]. split; [vm_compute; reflexivity|].
  apply (reap_stays_in_its_session 10 machine0 shell_alone job_grouped true 5 sample_session signalled eq_refl Hstart Hlife).
  unfold signalled. eapply rtc_l; [apply reap_goes_on; reflexivity|]. eapply rtc_l; [apply reap_goes_on; reflexivity|]. apply rtc_refl.
Defined.
