(* ===== verification/Flow.v ===== *)
(** * Holding the shell back (session.go [pump])

    The pump reads a chunk off the shell, writes it to the ring and, while a renderer is
    attached and more than the high watermark behind, waits on the session's [resume]
    channel before it reads again.  The pump takes one step at a time, anything else that
    happens to the session comes in between.  The theorem is that no wake-up is lost: a
    pump that waits with nothing in the channel waits for a renderer that is attached and
    still behind. *)

From S2P Require Import Prelude Contract OutputRing Observer StoreFeed Session.

(** ** The loop *)

(** Where [pump] is: reading, at the loop test with what it wrote last, about to mark the
    session paused, waiting on [resume], about to clear the mark, or returned. *)
Inductive pump_pc :=
| Reading
| Testing (through : Z)
| Marking (through : Z)
| Waiting (through : Z)
| Clearing
| Returned.

#[export] Instance pump_pc_eq_dec : EqDecision pump_pc.
Proof. solve_decision. Defined.

Record pumped := mkPumped {
  sess : session;
  pc : pump_pc
}.

Section pump.
Context `{PtyContract}.

(** What the read answers: bytes, possibly with the end of the shell behind them. *)
Definition pump_reads (data : octets) (now : Z) (s : pumped) : option pumped :=
  match pc s with
  | Reading => match data with
               | [] => None
               | _ :: _ => let v := fst (pump_chunk data now (sess s)) in Some (mkPumped v (Testing (written v)))
               end
  | _ => None
  end.

(** The read answers an error: the shell exited, and the session is over. *)
Definition pump_ends (now : Z) (s : pumped) : option pumped :=
  match pc s with
  | Reading =>
      let v := sess s in
      Some (mkPumped (fst (reap true now (v <| ring := end_ring (ring v) |>))) Returned)
  | _ => None
  end.

(** A step of the loop that waits; [None] when it cannot take one. *)
Definition pump_turn (s : pumped) : option pumped :=
  let v := sess s in
  match pc s with
  | Testing through => Some (mkPumped v (if shouldPause through v then Marking through else Clearing))
  | Marking through => Some (mkPumped (v <| paused := true |>) (Waiting through))
  | Waiting through => if resume v then Some (mkPumped (v <| resume := false |>) (Testing through)) else None
  | Clearing => Some (mkPumped (v <| paused := false |>) Reading)
  | Reading | Returned => None
  end.

Fixpoint pump_turns (n : nat) (s : pumped) : option pumped :=
  match n with
  | O => Some s
  | S n => match pump_turn s with None => None | Some s => pump_turns n s end
  end.

(** What is left to the others: the pump alone writes output, and only [Session.ack]
    acknowledges. *)
Definition from_outside (op : session_op) : bool :=
  match op with
  | OpPump _ | OpPaused _ | OpRing (OutputRing.OpWrite _) | OpRing (OutputRing.OpAck _) => false
  | _ => true
  end.

Inductive pumped_step : pumped -> pumped -> Prop :=
| step_reads data now s s' : pump_reads data now s = Some s' -> pumped_step s s'
| step_ends now s s' : pump_ends now s = Some s' -> pumped_step s s'
| step_turn s s' : pump_turn s = Some s' -> pumped_step s s'
| step_outside op now s : from_outside op = true -> pumped_step s (mkPumped (run_op op now (sess s)) (pc s)).

(** A renderer is attached and more than the low watermark behind. *)
Definition behind (v : session) : Prop :=
  rendererAttached v = true /\ OutputRing.resumed (written v) (ring v) = false.

(** The output the pump last wrote, where it still goes by it. *)
Definition pc_through (p : pump_pc) : option Z :=
  match p with Testing t | Marking t | Waiting t => Some t | _ => None end.

Definition holding (p : pump_pc) : bool := match p with Marking _ | Waiting _ => true | _ => false end.

Record pumped_ok (s : pumped) : Prop := {
  goes_by_written : forall t, pc_through (pc s) = Some t -> t = written (sess s);
  waits_for_someone : holding (pc s) = true -> resume (sess s) = true \/ behind (sess s);
  marked_waiting : forall t, pc s = Waiting t -> paused (sess s) = true;
  unmarked_reading : pc s = Reading -> paused (sess s) = false
}.

End pump.

(** ** What the others do to it *)

Section outside.
Context `{PtyContractLaws}.

Lemma trim_acked_eq r : acked (trimLocked r) = acked r.
Proof.
  unfold trimLocked. destruct (trim_loop _ _ _ _) as [held target]. cbn.
  by destruct (floor r <? target).
Qed.

Lemma ring_op_acked op r : match op with OutputRing.OpWrite _ | OutputRing.OpAck _ => False | _ => True end ->
  acked (apply_op op r) = acked r.
Proof.
  destruct op as [d|t f|t|t|x|a|]; intros Hop; try done; cbn [apply_op].
  - unfold lease. by destruct (_ || _).
  - unfold consumeLease. destruct (leases r !! t); [|done]. by destruct (_ || _); cbn [fst]; rewrite trim_acked_eq.
  - unfold expireLease. by rewrite trim_acked_eq.
  - unfold read_once. destruct (_ <? live r); [done|]. by destruct (ended r).
Qed.

(** An operation that leaves everything the wait looks at. *)
Definition same_wait (v v' : session) : Prop :=
  written v' = written v /\ paused v' = paused v /\ resume v' = resume v /\
  rendererAttached v' = rendererAttached v /\ acked (ring v') = acked (ring v).

(** What an operation may do: wake the pump, or leave it as far behind as it was. *)
Definition keeps_wait (v v' : session) : Prop :=
  written v' = written v /\ paused v' = paused v /\ (resume v = true -> resume v' = true) /\
  (behind v -> resume v' = true \/ behind v').

Lemma same_keeps v v' : same_wait v v' -> keeps_wait v v'.
Proof.
  intros (H1 & H2 & H3 & H4 & H5). unfold keeps_wait, behind, OutputRing.resumed. rewrite H1, H3, H4, H5. auto.
Qed.

Lemma signals_keeps v v' : written v' = written v -> paused v' = paused v -> resume v' = true -> keeps_wait v v'.
Proof. intros H1 H2 H3. unfold keeps_wait. rewrite H3. auto. Qed.

Lemma outside_keeps op now v : from_outside op = true -> keeps_wait v (run_op op now v).
Proof.
  intros Hop. destruct op as [data|b| | |gen| |c r ok|token d|token d|token d x|o|o|o|t|ro|e]; cbn [run_op]; try done.
  - unfold keeps_wait, behind, attachRenderer. cbn. intuition.
  - unfold keeps_wait, behind, replaceRenderer. cbn. intuition.
  - apply signals_keeps; unfold detachRenderer; destruct (rendererAttached v && (rendererGeneration v =? gen)); try done;
      by destruct (negb (presenceLocked _)).
  - unfold detachActiveRenderer. destruct (rendererAttached v) eqn:E; cbn [andb fst].
    + apply signals_keeps; by destruct (negb (presenceLocked _)).
    + unfold keeps_wait, behind. cbn. rewrite E. intuition.
  - apply same_keeps. unfold resize. destruct ((c =? 0) || (r =? 0)); [done|]. by destruct ok.
  - apply same_keeps. unfold Session.observe. destruct (negb (String.eqb token "")); [|by destruct d].
    destruct (observerTokens v !! token); [|done]. by destruct d.
  - apply same_keeps. unfold setDisplays. destruct (observerTokens v !! token); [|done]. destruct d; [done|].
    case_bool_decide; [|done]. by destruct (negb (presenceLocked _)).
  - apply same_keeps. unfold adoptObserver. by destruct d.
  - apply same_keeps. unfold removeObserver. by destruct (_ && _).
  - apply same_keeps. unfold take_event. destruct (heap v !! o) as [x|]; [|done]. by destruct (Observer.next x).
  - by apply same_keeps.
  - unfold Session.ack. cbv zeta. destruct (OutputRing.resumed _ _) eqn:E.
    + by apply signals_keeps.
    + unfold keeps_wait, behind. split_and!; try done. intros [Ha _]. right. done.
  - apply same_keeps. unfold same_wait. split_and!; try done. cbn. apply ring_op_acked. by destruct ro.
  - unfold reap. destruct (closed v); [by apply same_keeps|]. apply signals_keeps; by destruct (feed v).
Qed.

Lemma resumed_paused w r : OutputRing.paused w r = true -> OutputRing.resumed w r = false.
Proof.
  unfold OutputRing.paused, OutputRing.resumed. pose proof low_watermark_below.
  intros E%Z.leb_le. apply Z.leb_gt. lia.
Qed.

Lemma pumped_step_ok s s' : pumped_ok s -> pumped_step s s' -> pumped_ok s'.
Proof.
  intros [H1 H2 H3 H4] Hstep. destruct Hstep as [data now s s' E|now s s' E|s s' E|op now s Hop].
  - unfold pump_reads in E. destruct (pc s); try done. destruct data; [done|]. injection E as <-.
    constructor; cbn; try done. by intros t [= <-].
  - unfold pump_ends in E. destruct (pc s); try done. injection E as <-. by constructor.
  - unfold pump_turn in E. destruct s as [v p]. cbn [sess pc] in *. destruct p as [|t|t|t| |]; try done.
    + injection E as <-. specialize (H1 t eq_refl) as ->. destruct (shouldPause _ v) eqn:Ep; [|by constructor].
      constructor; cbn; try done.
      * by intros t [= <-].
      * intros _. right. unfold shouldPause in Ep. apply andb_true_iff in Ep as [Ea Ep].
        split; [done|]. by apply resumed_paused.
    + injection E as <-. constructor; cbn; try done.
    + destruct (resume v); [|done]. injection E as <-. constructor; cbn; try done.
    + injection E as <-. by constructor.
  - destruct (outside_keeps op now (sess s) Hop) as (E1 & E2 & E3 & E4). constructor; cbn; rewrite ?E1, ?E2; try done.
    intros Hh. destruct (H2 Hh) as [Hr|Hb]; [left; by apply E3|by apply E4].
Qed.

(** C17: no wake-up of the pump is lost: whatever happens to the session between its steps,
    a pump that waits has marked the session paused and waits only while its channel is
    empty and a renderer is attached that is more than the low watermark behind; and once
    it is woken by a renderer that left, or that came to within the high watermark, it
    reads again after three steps of its own with the mark cleared. *)
Theorem waiting_pump_has_a_reader s0 s through :
  pc s0 = Reading -> paused (sess s0) = false -> rtc pumped_step s0 s -> pc s = Waiting through ->
  paused (sess s) = true /\ through = written (sess s) /\
  (resume (sess s) = true \/ behind (sess s)) /\
  (resume (sess s) = true -> shouldPause through (sess s) = false ->
     exists s', pump_turns 3 s = Some s' /\ pc s' = Reading /\ paused (sess s') = false).
Proof.
  intros Hpc Hp Hrun Hw.
  assert (Hok : pumped_ok s).
  { assert (Hstart : pumped_ok s0) by (constructor; rewrite Hpc; done).
    clear Hw Hpc Hp. induction Hrun as [|x y z Hxy _ IH]; [done|]. by eapply IH, pumped_step_ok. }
  destruct Hok as [H1 H2 H3 _]. destruct s as [v p]. cbn [sess pc] in *. subst p.
  split_and!; [by apply (H3 through)|by apply H1|by apply H2|].
  intros Hr Hs. cbn [pump_turns]. unfold pump_turn. cbn [sess pc]. rewrite Hr. cbn [sess pc].
  change (shouldPause through (v <| resume := false |>)) with (shouldPause through v). rewrite Hs.
  by eexists.
Qed.

End outside.

(** ** Witness *)

#[local] Existing Instance sample_contract.
#[local] Existing Instance sample_contract_laws.

Definition shown : session := fst (attachRenderer (newSession 7 "p" "w" "/" "sh" 0 1 80 24 [] false None)).

Lemma waiting_pump_has_a_reader_witness :
  let s0 := mkPumped shown Reading in
  let v1 := fst (pump_chunk (text "abcdefgh") 5 shown) in
  let s := mkPumped (v1 <| paused := true |>) (Waiting 8) in
  rtc pumped_step s0 s /\
  paused (sess s) = true /\ 8 = written (sess s) /\ (resume (sess s) = true \/ behind (sess s)) /\
  (resume (sess s) = true -> shouldPause 8 (sess s) = false ->
     exists s', pump_turns 3 s = Some s' /\ pc s' = Reading /\ paused (sess s') = false).
Proof.
  assert (Hrun : rtc pumped_step (mkPumped shown Reading)
    (mkPumped ((fst (pump_chunk (text "abcdefgh") 5 shown)) <| paused := true |>) (Waiting 8))).
  { eapply rtc_l; [by apply (step_reads (text "abcdefgh") 5)|].
    eapply rtc_l; [by apply step_turn|]. eapply rtc_l; [by apply step_turn|]. apply rtc_refl. }
  split; [exact Hrun|]. by apply (waiting_pump_has_a_reader (mkPumped shown Reading) _ 8).
Defined.
