(* ===== verification/Monitor.v ===== *)
(** * Process monitors (process_monitor.go, control.go [processRecord], [descendantRecord])

    A session's monitor puts the shell and its descendants into the process ledger: once
    when the session starts, again at every notification of its watch, and not at all once
    the session has ended.  The start, the notifications and the end run on goroutines of
    their own; a step below is one critical section of one of them.  The watch is any
    implementation of [ProcessTreeWatch]; the snapshots, the clock and the store answer
    from outside. *)

From stdpp Require Import pretty.
From S2P Require Import Prelude Decimal Contract OutputRing Observer StoreFeed Inventory ProcessTree ProcessWatch Session.

(** ** Records *)

Definition optionalString (value : string) : option string :=
  if String.eqb value "" then None else Some value.

Definition sessionRecordID (sid : Z) : string := ("pty-session-" ++ number sid)%string.

Definition descendantRecordID (sid pid : Z) : string :=
  (sessionRecordID sid ++ ("-process-" ++ number pid))%string.

Section records.
Context (identity : string) (daemonPID : Z).

Definition processRecord (v : session) (pid : Z) (state : string) (endedAt : option Z) : Process :=
  mkProcess (sessionRecordID (id v)) identity (optionalString (windowLabel v)) (optionalString (paneID v))
    (Session.cwd v) pid daemonPID (Session.command v) state (startedAt v) endedAt.

Definition descendantRecord (v : session) (child : processTreeEntry) : Process :=
  mkProcess (descendantRecordID (id v) (ProcessTree.PID child)) identity
    (optionalString (windowLabel v)) (optionalString (paneID v))
    (ProcessTree.CWD child) (ProcessTree.PID child) (ProcessTree.ParentPID child)
    (ProcessTree.Command child) "running" (startedAt v) None.

End records.

(** ** State *)

Inductive monitor_error := TreeFailed (e : tree_error) | SyncFailed (e : watch_error) | NotSupported | ObserveFailed.

Section monitors.
Context `{PtyContract} {W : Type} `{ProcessTreeWatch W}.
Context (identity : string) (daemonPID : Z).

Record processSessionMonitor := mkMonitor {
  session_ : session;
  pid_ : Z;
  watch : option W;
  mclosed : bool;
  lastError : option monitor_error;
  foreground : string;
  foregroundCWD : string
}.

#[export] Instance monitor_settable : Settable processSessionMonitor :=
  fun m => mkMonitor (session_ m) (pid_ m) (watch m) (mclosed m) (lastError m) (foreground m) (foregroundCWD m).

(** The ledger, the monitors by session, and every monitor ever made: a goroutine holds
    its monitor after the session's entry is gone. *)
Record monitoring := mkMonitoring {
  processState : processInventoryState;
  processSessions : gmap Z nat;
  monitors : gmap nat processSessionMonitor;
  madeMonitors : nat
}.

#[export] Instance monitoring_settable : Settable monitoring :=
  fun s => mkMonitoring (processState s) (processSessions s) (monitors s) (madeMonitors s).

(** What a reconcile finds outside: a reader of the process table and what it answers, the
    kernel's answers to registrations, the terminal's foreground group, the store and
    whether it takes the record, and the time. *)
Record surroundings := mkSurroundings {
  hasTree : bool;
  tree : tree_error + list processTreeEntry;
  kernel : Z -> add_answer;
  group : Z;
  storeHeld : bool;
  storeTakes : bool;
  now : Z
}.

Inductive monitor_action := SetForeground (session_id : Z) (command cwd : string).

(** ** Operations *)

Definition replace (sid : Z) (next : list Process) (endedAt : Z) (s : monitoring) : monitoring :=
  s <| processState := fst (replaceSession sid next endedAt (processState s)) |>.

Definition set_monitor (m : nat) (mon : processSessionMonitor) (s : monitoring) : monitoring :=
  s <| monitors := <[m := mon]> (monitors s) |>.

Definition recordForeground (out : surroundings) (entries : list processTreeEntry) (mon : processSessionMonitor)
    : processSessionMonitor * list monitor_action :=
  if negb (storeHeld out) then (mon, [])
  else
    let '(command, cwd) := foregroundOf entries (pid_ mon) (group out) in
    if String.eqb command (foreground mon) && String.eqb cwd (foregroundCWD mon) then (mon, [])
    else (if storeTakes out then mon <| foreground := command |> <| foregroundCWD := cwd |> else mon,
          [SetForeground (id (session_ mon)) command cwd]).

(** What a reconcile makes of the snapshot: the records to commit, or the error kept. *)
Definition observed (out : surroundings) (mon : processSessionMonitor)
    : processSessionMonitor * option (list Process) * list monitor_action :=
  let own := processRecord identity daemonPID (session_ mon) (pid_ mon) "running" None in
  if negb (hasTree out) then (mon, Some [own], [])
  else
    match tree out with
    | inl e => (mon <| lastError := Some (TreeFailed e) |>, None, [])
    | inr entries =>
        let '(mon, found) :=
          match watch mon with
          | None => (mon, inr entries)
          | Some w => let '(w, found) := watch_sync (kernel out) entries w in (mon <| watch := Some w |>, found)
          end in
        match found with
        | inl e => (mon <| lastError := Some (SyncFailed e) |>, None, [])
        | inr entries =>
            let records := own :: map (descendantRecord identity (session_ mon)) entries in
            let '(mon, acts) := recordForeground out entries mon in (mon, Some records, acts)
        end
    end.

Definition reconcile (m : nat) (out : surroundings) (s : monitoring) : monitoring * list monitor_action :=
  match monitors s !! m with
  | None => (s, [])
  | Some mon =>
      if mclosed mon then (s, [])
      else
        let '(mon, records, acts) := observed out mon in
        match records with
        | None => (set_monitor m mon s, acts)
        | Some records =>
            (replace (id (session_ mon)) records (now out) (set_monitor m (mon <| lastError := None |>) s), acts)
        end
  end.

(** [processSessionStarted] up to the commit of the shell's record; [None] when there is
    nothing to start. *)
Definition started_enter (ended : bool) (v : session) (pid : Z) (s : monitoring) : monitoring * option nat :=
  if ended then (s, None)
  else match processSessions s !! id v with
  | Some _ => (s, None)
  | None =>
      let m := madeMonitors s in
      (s <| madeMonitors := S m |> <| monitors := <[m := mkMonitor v pid None false None "" ""]> (monitors s) |>
         <| processSessions := <[id v := m]> (processSessions s) |>, Some m)
  end.

Definition started_commit (m : nat) (at_ : Z) (s : monitoring) : monitoring :=
  match monitors s !! m with
  | None => s
  | Some mon => replace (id (session_ mon)) [processRecord identity daemonPID (session_ mon) (pid_ mon) "running" None] at_ s
  end.

(** [supported] is what the event source says, [observed] the watch it gave. *)
Definition started_watch (m : nat) (supported : bool) (given : option W) (s : monitoring) : monitoring :=
  match monitors s !! m with
  | None => s
  | Some mon =>
      set_monitor m (if supported
                     then match given with
                          | Some w => mon <| watch := Some w |> <| lastError := None |>
                          | None => mon <| watch := None |> <| lastError := Some ObserveFailed |>
                          end
                     else mon <| lastError := Some NotSupported |>) s
  end.

(** [processSessionEnded] up to the end of its first critical section. *)
Definition ended_enter (sid : Z) (s : monitoring) : monitoring * option nat :=
  (s <| processSessions := delete sid (processSessions s) |>, processSessions s !! sid).

(** The critical section of [close]; [false] when the monitor was closed already. *)
Definition close_locked (m : nat) (s : monitoring) : monitoring * bool :=
  match monitors s !! m with
  | None => (s, false)
  | Some mon =>
      if mclosed mon then (s, false)
      else (set_monitor m (mon <| mclosed := true |> <| watch := None |>) s, true)
  end.

(** The whole calls, as they run when nothing comes between their steps. *)
Record start_answers := mkStartAnswers {
  startedPID : Z;
  startedAt_ : Z;
  supported_ : bool;
  given_ : option W;
  found_ : surroundings
}.

Definition processSessionStarted (ended : bool) (v : session) (ans : start_answers) (s : monitoring) : monitoring :=
  match started_enter ended v (startedPID ans) s with
  | (s, None) => s
  | (s, Some m) => fst (reconcile m (found_ ans) (started_watch m (supported_ ans) (given_ ans) (started_commit m (startedAt_ ans) s)))
  end.

Definition processSessionEnded (sid at_ : Z) (s : monitoring) : monitoring :=
  match ended_enter sid s with
  | (s, None) => replace sid [] at_ s
  | (s, Some m) => let '(s, closing) := close_locked m s in if closing then replace sid [] at_ s else s
  end.

Definition newMonitoring : monitoring := mkMonitoring newProcessInventoryState ∅ ∅ 0.

(** [startProcessMonitoring] sets the ledger up once, with the sessions there are by then. *)
Definition startProcessMonitoring (answers : Z -> start_answers) (existing : list session) (s : option monitoring) : monitoring :=
  match s with
  | Some s => s
  | None => fold_left (fun s v => processSessionStarted (Session.closed v) v (answers (id v)) s) existing newMonitoring
  end.

(** ** The goroutines *)

(** Where a start stands: its monitor is filed, its shell is committed, its watch is in. *)
Inductive start_pc := Committing | Installing | Reconciling.

#[export] Instance start_pc_eq_dec : EqDecision start_pc.
Proof. solve_decision. Defined.

(** Where an end stands: called, at its monitor's close, at its last replacement, returned. *)
Inductive end_pc := Called | Closing (m : nat) | Clearing | Returned.

(** [dead] holds the sessions that were reaped: their flag is set before the end is called.
    [starting] is who holds [processSessionsMu]; a start keeps it until it returns. *)
Record watched := mkWatched {
  live : monitoring;
  dead : gset Z;
  starting : option (nat * start_pc);
  ending : gmap Z end_pc
}.

Definition initial : watched := mkWatched newMonitoring ∅ None ∅.

Inductive watched_step : watched -> watched -> Prop :=
| w_start v pid s s' m : starting s = None ->
    started_enter (bool_decide (id v ∈ dead s)) v pid (live s) = (s', Some m) ->
    watched_step s (mkWatched s' (dead s) (Some (m, Committing)) (ending s))
| w_commit m at_ s : starting s = Some (m, Committing) ->
    watched_step s (mkWatched (started_commit m at_ (live s)) (dead s) (Some (m, Installing)) (ending s))
| w_install m supported given s : starting s = Some (m, Installing) ->
    watched_step s (mkWatched (started_watch m supported given (live s)) (dead s) (Some (m, Reconciling)) (ending s))
| w_started m out s : starting s = Some (m, Reconciling) ->
    watched_step s (mkWatched (fst (reconcile m out (live s))) (dead s) None (ending s))
| w_notify m out s :
    watched_step s (mkWatched (fst (reconcile m out (live s))) (dead s) (starting s) (ending s))
| w_reap sid s : sid ∉ dead s ->
    watched_step s (mkWatched (live s) ({[sid]} ∪ dead s) (starting s) (<[sid := Called]> (ending s)))
| w_end sid s s' held : ending s !! sid = Some Called -> starting s = None ->
    ended_enter sid (live s) = (s', held) ->
    watched_step s (mkWatched s' (dead s) None
      (<[sid := match held with None => Clearing | Some m => Closing m end]> (ending s)))
| w_close sid m s s' ok : ending s !! sid = Some (Closing m) -> close_locked m (live s) = (s', ok) ->
    watched_step s (mkWatched s' (dead s) (starting s) (<[sid := if ok then Clearing else Returned]> (ending s)))
| w_clear sid at_ s : ending s !! sid = Some Clearing ->
    watched_step s (mkWatched (replace sid [] at_ (live s)) (dead s) (starting s) (<[sid := Returned]> (ending s))).

(** The shell's record, as long as the session runs. *)
Definition shell_record (mon : processSessionMonitor) : Process :=
  processRecord identity daemonPID (session_ mon) (pid_ mon) "running" None.

Record watched_ok (s : watched) : Prop := {
  ledger_ok : ledger_keyed (processState (live s));
  monitor_made : forall m mon, monitors (live s) !! m = Some mon -> (m < madeMonitors (live s))%nat;
  filed_monitor : forall sid m, processSessions (live s) !! sid = Some m ->
    exists mon, monitors (live s) !! m = Some mon /\ id (session_ mon) = sid /\ mclosed mon = false;
  open_monitor : forall m mon, monitors (live s) !! m = Some mon -> mclosed mon = false ->
    processSessions (live s) !! id (session_ mon) = Some m \/
    (ending s !! id (session_ mon) = Some (Closing m) /\ processSessions (live s) !! id (session_ mon) = None);
  closing_monitor : forall sid m, ending s !! sid = Some (Closing m) ->
    exists mon, monitors (live s) !! m = Some mon /\ id (session_ mon) = sid /\ mclosed mon = false;
  taken_out : forall sid pc, ending s !! sid = Some pc -> sid ∈ dead s /\
    (pc <> Called -> processSessions (live s) !! sid = None);
  start_filed : forall m pc, starting s = Some (m, pc) -> exists mon, monitors (live s) !! m = Some mon /\
    processSessions (live s) !! id (session_ mon) = Some m;
  cleared : forall sid, ending s !! sid = Some Returned -> Inventory.sessions (processState (live s)) !! sid = None;
  shell_there : forall sid m mon, processSessions (live s) !! sid = Some m -> monitors (live s) !! m = Some mon ->
    starting s <> Some (m, Committing) -> exists recs, Inventory.sessions (processState (live s)) !! sid = Some recs /\
      recs !! sessionRecordID sid = Some (shell_record mon)
}.

End monitors.

(** ** Records of one session *)

Lemma descendant_not_shell sid pid sid' : sid = sid' -> descendantRecordID sid pid <> sessionRecordID sid'.
Proof.
  intros <- E. apply (f_equal String.length) in E. unfold descendantRecordID in E.
  rewrite !length_append in E. change (String.length "-process-") with 9%nat in E. lia.
Qed.

Lemma by_id_others own next : forall m, (forall p, p ∈ next -> Contract.ID p <> own) ->
  fold_left (fun m p => <[Contract.ID p := cloneProcess p]> m) next m !! own = (m : gmap string Process) !! own.
Proof.
  induction next as [|p next IH]; intros m Hne; [done|]. cbn. rewrite IH by (intros q Hq; apply Hne; by right).
  rewrite lookup_insert_ne; [done|]. apply Hne. by left.
Qed.

Section proofs.
Context `{PtyContractLaws} {W : Type} `{ProcessTreeWatch W}.
Context (identity : string) (daemonPID : Z).

Abbreviation watched := (@watched W).
Abbreviation watched_step := (watched_step (W := W) identity daemonPID).
Abbreviation watched_ok := (watched_ok (W := W) identity daemonPID).
Abbreviation shell_record := (shell_record (W := W) identity daemonPID).

Lemma by_id_shell (mon : processSessionMonitor (W := W)) entries :
  by_id (shell_record mon :: map (descendantRecord identity (session_ mon)) entries) !! sessionRecordID (id (session_ mon)) =
  Some (shell_record mon).
Proof.
  unfold by_id. cbn [fold_left]. rewrite by_id_others.
  - change (Contract.ID (shell_record mon)) with (sessionRecordID (id (session_ mon))). by rewrite lookup_insert_eq, cloneProcess_id.
  - intros p (child & -> & _)%list_elem_of_fmap. by apply descendant_not_shell.
Qed.

Lemma replace_sessions sid next at_ (s : monitoring (W := W)) sid' : ledger_keyed (processState s) ->
  Inventory.sessions (processState (replace sid next at_ s)) !! sid' =
    if decide (sid' = sid) then if decide (by_id next = ∅) then None else Some (by_id next)
    else Inventory.sessions (processState s) !! sid'.
Proof.
  intros Hk. unfold replace. cbn. rewrite replaceSession_sessions by done.
  destruct (decide (by_id next = ∅)), (decide (sid' = sid)) as [->|]; by rewrite ?lookup_delete_eq, ?lookup_insert_eq, ?lookup_delete_ne, ?lookup_insert_ne.
Qed.

Definition shell_among (mon : processSessionMonitor (W := W)) (records : option (list Process)) : Prop :=
  match records with
  | Some records => by_id records !! sessionRecordID (id (session_ mon)) = Some (shell_record mon)
  | None => True
  end.

Lemma shell_leads (mon : processSessionMonitor (W := W)) entries :
  shell_among mon (Some (shell_record mon :: map (descendantRecord identity (session_ mon)) entries)).
Proof. apply by_id_shell. Qed.

(** The monitor after a look around, and the records it commits. *)
Lemma observed_spec out (mon : processSessionMonitor (W := W)) :
  let '(mon', records, _) := observed identity daemonPID out mon in
  session_ mon' = session_ mon /\ pid_ mon' = pid_ mon /\ mclosed mon' = mclosed mon /\
  shell_among mon records.
Proof.
  unfold observed. destruct (hasTree out); cbn [negb].
  2:{ split_and!; try done. exact (shell_leads mon []). }
  destruct (tree out) as [e|entries]; [done|].
  assert (Hrest : forall (mon1 : processSessionMonitor (W := W)) (found : watch_error + list processTreeEntry), session_ mon1 = session_ mon -> pid_ mon1 = pid_ mon -> mclosed mon1 = mclosed mon ->
    let '(mon', records, _) := match found with
      | inl e => (mon1 <| lastError := Some (SyncFailed e) |>, None, [])
      | inr entries =>
          let records := processRecord identity daemonPID (session_ mon) (pid_ mon) "running" None :: map (descendantRecord identity (session_ mon1)) entries in
          let '(mon', acts) := recordForeground out entries mon1 in (mon', Some records, acts)
      end in
    session_ mon' = session_ mon /\ pid_ mon' = pid_ mon /\ mclosed mon' = mclosed mon /\
    shell_among mon records).
  { intros mon1 [e|found] E1 E2 E3; [done|]. rewrite E1. unfold recordForeground.
    destruct (storeHeld out); cbn [negb]; [|split_and!; try done; apply shell_leads].
    destruct (foregroundOf _ _ _) as [c d]. destruct (_ && _); [split_and!; try done; apply shell_leads|].
    destruct (storeTakes out); (split_and!; try done; apply shell_leads). }
  destruct (watch mon) as [w|]; [|by apply (Hrest mon (inr entries))].
  destruct (watch_sync (kernel out) entries w) as [w' found]. by apply (Hrest (mon <| watch := Some w' |>) found).
Qed.

(** What a reconcile does: to the monitor nothing that says who it is, to the ledger at
    most its own session's records, the shell's among them. *)
Lemma reconcile_spec m out (s : monitoring (W := W)) : ledger_keyed (processState s) ->
  let s' := fst (reconcile identity daemonPID m out s) in
  processSessions s' = processSessions s /\ madeMonitors s' = madeMonitors s /\ ledger_keyed (processState s') /\
  (forall k, match monitors s !! k with
             | None => monitors s' !! k = None
             | Some mon => exists mon', monitors s' !! k = Some mon' /\ session_ mon' = session_ mon /\
                             pid_ mon' = pid_ mon /\ mclosed mon' = mclosed mon
             end) /\
  (forall sid, Inventory.sessions (processState s') !! sid = Inventory.sessions (processState s) !! sid \/
     exists mon, monitors s !! m = Some mon /\ mclosed mon = false /\ id (session_ mon) = sid /\
       exists recs, Inventory.sessions (processState s') !! sid = Some recs /\
         recs !! sessionRecordID sid = Some (shell_record mon)).
Proof.
  intros Hk. unfold reconcile. assert (Hsame : forall k, match monitors s !! k with
    | None => monitors s !! k = None
    | Some mon => exists mon', monitors s !! k = Some mon' /\ session_ mon' = session_ mon /\ pid_ mon' = pid_ mon /\ mclosed mon' = mclosed mon end).
  { intros k. destruct (monitors s !! k) as [x|]; [by exists x|done]. }
  destruct (monitors s !! m) as [mon|] eqn:Em; [|by split_and!; try done; left].
  destruct (mclosed mon) eqn:Ec; [by split_and!; try done; left|].
  pose proof (observed_spec out mon) as Hobs. destruct (observed _ _ out mon) as [[mon' records] acts].
  destruct Hobs as (E1 & E2 & E3 & Hrec).
  assert (Hset : forall mon2 : processSessionMonitor (W := W), session_ mon2 = session_ mon -> pid_ mon2 = pid_ mon -> mclosed mon2 = mclosed mon ->
    forall k, match monitors s !! k with
    | None => monitors (set_monitor m mon2 s) !! k = None
    | Some x => exists y, monitors (set_monitor m mon2 s) !! k = Some y /\ session_ y = session_ x /\ pid_ y = pid_ x /\ mclosed y = mclosed x end).
  { intros mon2 F1 F2 F3 k. unfold set_monitor. cbn. destruct (decide (k = m)) as [->|Hne].
    - rewrite Em, lookup_insert_eq. by exists mon2.
    - rewrite lookup_insert_ne by done. apply Hsame. }
  destruct records as [records|]; cbn [fst shell_among] in *.
  - split_and!; try done.
    + by apply replaceSession_keyed.
    + apply Hset; done.
    + intros sid. rewrite replace_sessions by done. cbn. rewrite E1. destruct (decide (sid = id (session_ mon))) as [->|]; [right|by left].
      exists mon. split_and!; try done. destruct (decide (by_id records = ∅)) as [E|]; [by rewrite E, lookup_empty in Hrec|].
      by eexists.
  - split_and!; try done; [by apply Hset|by left].
Qed.

(** A step that files no monitor and closes none: what it does to the ledger is the shell's
    record of an open monitor, among others. *)
Definition only_records (s s' : monitoring (W := W)) : Prop :=
  processSessions s' = processSessions s /\ madeMonitors s' = madeMonitors s /\ ledger_keyed (processState s') /\
  (forall k, match monitors s !! k with
             | None => monitors s' !! k = None
             | Some mon => exists mon', monitors s' !! k = Some mon' /\ session_ mon' = session_ mon /\
                             pid_ mon' = pid_ mon /\ mclosed mon' = mclosed mon
             end) /\
  (forall sid, Inventory.sessions (processState s') !! sid = Inventory.sessions (processState s) !! sid \/
     exists m mon, monitors s !! m = Some mon /\ mclosed mon = false /\ id (session_ mon) = sid /\
       exists recs, Inventory.sessions (processState s') !! sid = Some recs /\
         recs !! sessionRecordID sid = Some (shell_record mon)).

Lemma only_records_ok s l' st : watched_ok s -> only_records (live s) l' ->
  (forall m pc, st = Some (m, pc) -> exists pc0, starting s = Some (m, pc0) /\ (pc = Committing -> pc0 = Committing)) ->
  (forall m mon, starting s = Some (m, Committing) -> st <> starting s -> monitors l' !! m = Some mon ->
     exists recs, Inventory.sessions (processState l') !! id (session_ mon) = Some recs /\
      recs !! sessionRecordID (id (session_ mon)) = Some (shell_record mon)) ->
  watched_ok (mkWatched l' (dead s) st (ending s)).
Proof.
  intros Hok (P1 & P2 & P3 & P4 & P5) Hst Hcommit.
  assert (Hback : forall m mon', monitors l' !! m = Some mon' -> exists mon, monitors (live s) !! m = Some mon /\
    session_ mon' = session_ mon /\ pid_ mon' = pid_ mon /\ mclosed mon' = mclosed mon).
  { intros m mon' E. specialize (P4 m). destruct (monitors (live s) !! m) as [mon|]; [|congruence].
    exists mon. destruct P4 as (x & Ex & ?). by simplify_eq. }
  assert (Hforth : forall m mon, monitors (live s) !! m = Some mon -> exists mon', monitors l' !! m = Some mon' /\
    session_ mon' = session_ mon /\ pid_ mon' = pid_ mon /\ mclosed mon' = mclosed mon).
  { intros m mon E. specialize (P4 m). by rewrite E in P4. }
  constructor; cbn [live dead starting ending]; rewrite ?P1, ?P2; try done.
  - intros m mon' (mon & E & _)%Hback. by apply (monitor_made _ _ _ Hok _ _ E).
  - intros sid m E. destruct (filed_monitor _ _ _ Hok _ _ E) as (mon & Em & Eid & Ec).
    destruct (Hforth _ _ Em) as (mon' & Em' & F1 & F2 & F3). exists mon'. by rewrite F1, F3.
  - intros m mon' (mon & E & F1 & F2 & F3)%Hback Ec. rewrite F1. apply (open_monitor _ _ _ Hok _ _ E). congruence.
  - intros sid m E. destruct (closing_monitor _ _ _ Hok _ _ E) as (mon & Em & Eid & Ec).
    destruct (Hforth _ _ Em) as (mon' & Em' & F1 & F2 & F3). exists mon'. by rewrite F1, F3.
  - intros sid pc E. by apply (taken_out _ _ _ Hok).
  - intros m pc E. destruct (Hst _ _ E) as (pc0 & E0 & _). destruct (start_filed _ _ _ Hok _ _ E0) as (mon & Em & Ef).
    destruct (Hforth _ _ Em) as (mon' & Em' & F1 & _). exists mon'. by rewrite F1.
  - intros sid E. destruct (P5 sid) as [->|(m & mon & Em & Ec & Eid & _)]; [by apply (cleared _ _ _ Hok)|].
    exfalso. destruct (open_monitor _ _ _ Hok _ _ Em Ec) as [Hf|[Hf _]]; rewrite Eid in Hf; [|congruence].
    destruct (taken_out _ _ _ Hok _ _ E) as [_ Hn]. rewrite Hn in Hf by done. done.
  - intros sid m mon' Ef Em' Hnc.  destruct (Hback _ _ Em') as (mon & Em & F1 & F2 & F3).
    destruct (filed_monitor _ _ _ Hok _ _ Ef) as (y & Ey & Eid & Ec). simplify_eq.
    assert (Hsame : shell_record mon' = shell_record mon) by (unfold Monitor.shell_record; by rewrite F1, F2).
    destruct (P5 (id (session_ mon))) as [E|(m2 & mon2 & Em2 & Ec2 & Eid2 & Hr)].
    + destruct (decide (starting s = Some (m, Committing))) as [Hs|Hs].
      * rewrite <-F1. apply (Hcommit m); [done| |done]. congruence.
      * rewrite E, Hsame. by apply (shell_there _ _ _ Hok _ m).
    + assert (m2 = m) as ->; [|rewrite Em in Em2; injection Em2 as <-; by rewrite Hsame].
      destruct (open_monitor _ _ _ Hok _ _ Em2 Ec2) as [Hf|[_ Hf]]; rewrite Eid2 in Hf; congruence.
Qed.

Lemma reconcile_only_records m out (s : monitoring (W := W)) : ledger_keyed (processState s) ->
  only_records s (fst (reconcile identity daemonPID m out s)).
Proof.
  intros Hk. pose proof (reconcile_spec m out s Hk) as (A & B & C & D & E). split_and!; try done.
  intros sid. destruct (E sid) as [?|(mon & ?)]; [by left|right]. by exists m, mon.
Qed.

Lemma committed_monitors m at_ (s : monitoring (W := W)) :
  monitors (started_commit identity daemonPID m at_ s) = monitors s.
Proof. unfold started_commit. by destruct (monitors s !! m). Qed.

Lemma committed_record m at_ (s : monitoring (W := W)) mon : ledger_keyed (processState s) -> monitors s !! m = Some mon ->
  Inventory.sessions (processState (started_commit identity daemonPID m at_ s)) !! id (session_ mon) =
    Some (by_id [shell_record mon]).
Proof.
  intros Hk E. unfold started_commit. rewrite E, replace_sessions by done. rewrite decide_True by done.
  change (processRecord _ _ _ _ _ _) with (shell_record mon). rewrite decide_False; [done|]. intros F.
  pose proof (by_id_shell mon []) as G. cbn [map] in G. rewrite F, lookup_empty in G. done.
Qed.

Lemma same_monitors (s : monitoring (W := W)) k :
  match monitors s !! k with
  | None => monitors s !! k = None
  | Some mon => exists mon', monitors s !! k = Some mon' /\ session_ mon' = session_ mon /\
                  pid_ mon' = pid_ mon /\ mclosed mon' = mclosed mon
  end.
Proof. destruct (monitors s !! k) as [x|]; [by exists x|done]. Qed.

Lemma commit_only_records m at_ (s : monitoring (W := W)) : ledger_keyed (processState s) ->
  (forall mon, monitors s !! m = Some mon -> mclosed mon = false) ->
  only_records s (started_commit identity daemonPID m at_ s).
Proof.
  intros Hk Hopen. pose proof (committed_record m at_ s) as Hc. unfold started_commit in *.
  destruct (monitors s !! m) as [mon|] eqn:E.
  - split; [done|]. split; [done|]. split; [by apply replaceSession_keyed|]. split; [exact (same_monitors s)|].
    intros sid. destruct (decide (sid = id (session_ mon))) as [->|Hne].
    + right. exists m, mon. split; [done|]. split; [by apply Hopen|]. split; [done|].
      eexists. split; [by apply Hc|]. exact (by_id_shell mon []).
    + left. rewrite replace_sessions by done. by rewrite decide_False.
  - split; [done|]. split; [done|]. split; [done|]. split; [exact (same_monitors s)|by left].
Qed.

Lemma install_only_records m supported given (s : monitoring (W := W)) : ledger_keyed (processState s) ->
  only_records s (started_watch m supported given s).
Proof.
  intros Hk. unfold started_watch. destruct (monitors s !! m) as [mon|] eqn:E.
  - split_and!; try done; [|by left]. intros k. unfold set_monitor. cbn. destruct (decide (k = m)) as [->|].
    + rewrite E, lookup_insert_eq. eexists. split; [done|]. by destruct supported, given.
    + rewrite lookup_insert_ne by done. destruct (monitors s !! k) as [x|]; [by exists x|done].
  - split_and!; try done; [|by left]. intros k. destruct (monitors s !! k) as [x|]; [by exists x|done].
Qed.

(** *** The steps that file and close *)

Lemma initial_ok : watched_ok initial.
Proof. constructor; cbn; intros; by simplify_map_eq. Qed.

Lemma start_ok v pid (s : watched) s' m : watched_ok s -> starting s = None ->
  started_enter (bool_decide (id v ∈ dead s)) v pid (live s) = (s', Some m) ->
  watched_ok (mkWatched s' (dead s) (Some (m, Committing)) (ending s)).
Proof.
  intros Hok Hs. unfold started_enter. case_bool_decide as Hd; [done|].
  destruct (processSessions (live s) !! id v) eqn:Hf; [done|]. intros [= <- <-]. set (m := madeMonitors (live s)).
  assert (Hfresh : forall k mon, monitors (live s) !! k = Some mon -> k <> m).
  { intros k mon E ->. apply (monitor_made _ _ _ Hok) in E. unfold m in E. lia. }
  assert (Hnone : forall sid pc, ending s !! sid = Some pc -> sid <> id v).
  { intros sid pc E ->. by destruct (taken_out _ _ _ Hok _ _ E). }
  constructor; cbn [live dead starting ending processState processSessions monitors madeMonitors]; cbn.
  - apply (ledger_ok _ _ _ Hok).
  - intros k mon [[<- <-]|[Hne E]]%lookup_insert_Some; [lia|]. apply (monitor_made _ _ _ Hok) in E. lia.
  - intros sid k [[<- <-]|[Hne E]]%lookup_insert_Some.
    + eexists. by rewrite lookup_insert_eq.
    + destruct (filed_monitor _ _ _ Hok _ _ E) as (mon & Em & ?). exists mon. rewrite lookup_insert_ne; [done|].
      symmetry. by apply (Hfresh _ mon).
  - intros k mon [[<- <-]|[Hne E]]%lookup_insert_Some Ec; cbn in *; [left; by rewrite lookup_insert_eq|].
    destruct (open_monitor _ _ _ Hok _ _ E Ec) as [Hk|[Hk1 Hk2]].
    + left. rewrite lookup_insert_ne; [done|]. congruence.
    + right. split; [done|]. rewrite lookup_insert_ne; [done|]. intros Eq. by apply (Hnone _ _ Hk1).
  - intros sid k E. destruct (closing_monitor _ _ _ Hok _ _ E) as (mon & Em & ?). exists mon. rewrite lookup_insert_ne; [done|].
    symmetry. by apply (Hfresh _ mon).
  - intros sid pc E. destruct (taken_out _ _ _ Hok _ _ E) as [? Hp]. split; [done|]. intros Hpc.
    rewrite lookup_insert_ne by (intros Eq; by apply (Hnone _ _ E)). by apply Hp.
  - intros k pc [= <- <-]. eexists. rewrite lookup_insert_eq. split; [done|]. cbn. by rewrite lookup_insert_eq.
  - apply (cleared _ _ _ Hok).
  - intros sid k mon [[<- <-]|[Hne E]]%lookup_insert_Some Em Hnc; [done|].
    rewrite lookup_insert_ne in Em; [|destruct (filed_monitor _ _ _ Hok _ _ E) as (y & Ey & _); symmetry; by apply (Hfresh _ y)].
    apply (shell_there _ _ _ Hok _ k); [done..|]. by rewrite Hs.
Qed.

Lemma reap_ok sid (s : watched) : watched_ok s -> sid ∉ dead s ->
  watched_ok (mkWatched (live s) ({[sid]} ∪ dead s) (starting s) (<[sid := Called]> (ending s))).
Proof.
  intros Hok Hd.
  assert (Hnone : forall pc, ending s !! sid <> Some pc).
  { intros pc E. by destruct (taken_out _ _ _ Hok _ _ E). }
  constructor; cbn [live dead starting ending].
  - apply (ledger_ok _ _ _ Hok).
  - apply (monitor_made _ _ _ Hok).
  - apply (filed_monitor _ _ _ Hok).
  - intros m mon E Ec. destruct (open_monitor _ _ _ Hok _ _ E Ec) as [?|[Hk ?]]; [by left|right]. split; [|done].
    rewrite lookup_insert_ne; [done|]. intros ->. by apply Hnone in Hk.
  - intros k m [[<- ?]|[Hne E]]%lookup_insert_Some; [done|]. by apply (closing_monitor _ _ _ Hok).
  - intros k pc [[<- <-]|[Hne E]]%lookup_insert_Some; [split; [set_solver|done]|].
    destruct (taken_out _ _ _ Hok _ _ E). split; [set_solver|done].
  - apply (start_filed _ _ _ Hok).
  - intros k [[<- ?]|[Hne E]]%lookup_insert_Some; [done|]. by apply (cleared _ _ _ Hok).
  - apply (shell_there _ _ _ Hok).
Qed.

Lemma take_out_ok sid (s : watched) s' held : watched_ok s -> ending s !! sid = Some Called -> starting s = None ->
  ended_enter sid (live s) = (s', held) ->
  watched_ok (mkWatched s' (dead s) None (<[sid := match held with None => Clearing | Some m => Closing m end]> (ending s))).
Proof.
  intros Hok Hc Hs [= <- <-]. pose proof (taken_out _ _ _ Hok _ _ Hc) as [Hd _].
  constructor; cbn [live dead starting ending processState processSessions monitors madeMonitors]; cbn.
  - apply (ledger_ok _ _ _ Hok).
  - apply (monitor_made _ _ _ Hok).
  - intros k m [Hne E]%lookup_delete_Some. by apply (filed_monitor _ _ _ Hok).
  - intros m mon E Ec. destruct (decide (id (session_ mon) = sid)) as [Eq|Hne].
    + right. rewrite Eq, lookup_delete_eq. split; [|done].
      destruct (open_monitor _ _ _ Hok _ _ E Ec) as [Hk|[Hk _]]; rewrite Eq in Hk; [|congruence].
      by rewrite Hk, lookup_insert_eq.
    + rewrite lookup_delete_ne, lookup_insert_ne by done. by apply (open_monitor _ _ _ Hok).
  - intros k m [[<- E]|[Hne E]]%lookup_insert_Some; [|by apply (closing_monitor _ _ _ Hok)].
    destruct (processSessions (live s) !! sid) as [m'|] eqn:Ef; [|done]. injection E as <-. by apply (filed_monitor _ _ _ Hok).
  - intros k pc [[<- _]|[Hne E]]%lookup_insert_Some; [by rewrite lookup_delete_eq|].
    rewrite lookup_delete_ne by done. by apply (taken_out _ _ _ Hok).
  - done.
  - intros k [[<- E]|[Hne E]]%lookup_insert_Some; [by destruct (processSessions (live s) !! sid)|]. by apply (cleared _ _ _ Hok).
  - intros k m mon [Hne E]%lookup_delete_Some Em _. apply (shell_there _ _ _ Hok _ m); [done..|]. by rewrite Hs.
Qed.

Lemma close_ok sid m (s : watched) s' ok : watched_ok s -> ending s !! sid = Some (Closing m) ->
  close_locked m (live s) = (s', ok) ->
  watched_ok (mkWatched s' (dead s) (starting s) (<[sid := if ok then Clearing else Returned]> (ending s))).
Proof.
  intros Hok Hc. unfold close_locked. destruct (closing_monitor _ _ _ Hok _ _ Hc) as (mon & Em & Eid & Eo).
  rewrite Em, Eo. intros [= <- <-]. destruct (taken_out _ _ _ Hok _ _ Hc) as [Hd Hout]. specialize (Hout ltac:(done)).
  assert (Hfiled : forall k m', processSessions (live s) !! k = Some m' -> m' <> m).
  { intros k m' E ->. destruct (filed_monitor _ _ _ Hok _ _ E) as (y & Ey & Eidy & _). congruence. }
  constructor; cbn [live dead starting ending]; unfold set_monitor; cbn.
  - apply (ledger_ok _ _ _ Hok).
  - intros k y [[<- _]|[Hne E]]%lookup_insert_Some; eapply (monitor_made _ _ _ Hok); eassumption.
  - intros k m' E. rewrite lookup_insert_ne by (symmetry; by apply (Hfiled k)). by apply (filed_monitor _ _ _ Hok).
  - intros k y [[<- <-]|[Hne E]]%lookup_insert_Some Ec; [done|].
    destruct (open_monitor _ _ _ Hok _ _ E Ec) as [?|[Hk ?]]; [by left|right]. split; [|done].
    rewrite lookup_insert_ne; [done|]. congruence.
  - intros k m' [[<- E]|[Hne E]]%lookup_insert_Some; [done|].
    destruct (closing_monitor _ _ _ Hok _ _ E) as (y & Ey & Eidy & Ecy). exists y. rewrite lookup_insert_ne; [done|]. congruence.
  - intros k pc [[<- <-]|[Hne E]]%lookup_insert_Some; [done|]. by apply (taken_out _ _ _ Hok).
  - intros k pc E. destruct (start_filed _ _ _ Hok _ _ E) as (y & Ey & Ef). exists y.
    rewrite lookup_insert_ne by (symmetry; by apply (Hfiled _ _ Ef)). done.
  - intros k [[<- E]|[Hne E]]%lookup_insert_Some; [done|]. by apply (cleared _ _ _ Hok).
  - intros k m' y E. rewrite lookup_insert_ne by (symmetry; by apply (Hfiled _ _ E)). by apply (shell_there _ _ _ Hok).
Qed.

Lemma clear_ok sid at_ (s : watched) : watched_ok s -> ending s !! sid = Some Clearing ->
  watched_ok (mkWatched (replace sid [] at_ (live s)) (dead s) (starting s) (<[sid := Returned]> (ending s))).
Proof.
  intros Hok Hc. pose proof (ledger_ok _ _ _ Hok) as Hk. destruct (taken_out _ _ _ Hok _ _ Hc) as [Hd Hout].
  specialize (Hout ltac:(done)).
  assert (Hsess : forall k, Inventory.sessions (processState (replace sid [] at_ (live s))) !! k =
    if decide (k = sid) then None else Inventory.sessions (processState (live s)) !! k).
  { intros k. rewrite replace_sessions by done. destruct (decide (k = sid)); [|done]. by rewrite decide_True. }
  constructor; cbn [live dead starting ending]; try (change (processSessions (replace sid [] at_ (live s))) with (processSessions (live s)));
    try (change (monitors (replace sid [] at_ (live s))) with (monitors (live s))).
  - by apply replaceSession_keyed.
  - apply (monitor_made _ _ _ Hok).
  - apply (filed_monitor _ _ _ Hok).
  - intros k y E Ec. destruct (open_monitor _ _ _ Hok _ _ E Ec) as [?|[Hk' ?]]; [by left|right]. split; [|done].
    rewrite lookup_insert_ne; [done|]. congruence.
  - intros k m' [[<- E]|[Hne E]]%lookup_insert_Some; [done|]. by apply (closing_monitor _ _ _ Hok).
  - intros k pc [[<- <-]|[Hne E]]%lookup_insert_Some; [done|]. by apply (taken_out _ _ _ Hok).
  - apply (start_filed _ _ _ Hok).
  - intros k [[<- _]|[Hne E]]%lookup_insert_Some; rewrite Hsess; [by rewrite decide_True|].
    rewrite decide_False by done. by apply (cleared _ _ _ Hok).
  - intros k m y E Ey Hnc. rewrite Hsess, decide_False by congruence. by apply (shell_there _ _ _ Hok _ m).
Qed.

Lemma watched_step_ok s s' : watched_ok s -> watched_step s s' -> watched_ok s'.
Proof.
  intros Hok Hstep. pose proof (ledger_ok _ _ _ Hok) as Hk.
  destruct Hstep as [v pid s l' m Hs E|m at_ s Hs|m supported given s Hs|m out s Hs|m out s|sid s Hd|sid s l' held Hc Hs E
    |sid m s l' ok Hc E|sid at_ s Hc].
  - by eapply start_ok.
  - apply only_records_ok; [done| | |].
    + apply commit_only_records; [done|]. intros mon E. destruct (start_filed _ _ _ Hok _ _ Hs) as (y & Ey & Ef).
      destruct (filed_monitor _ _ _ Hok _ _ Ef) as (z & Ez & _ & Ec). congruence.
    + intros k pc [= <- <-]. by eexists.
    + intros k mon Hs' _ Em. rewrite Hs in Hs'. injection Hs' as <-.
      rewrite committed_monitors in Em.
      eexists. split; [by apply committed_record|]. exact (by_id_shell mon []).
  - apply only_records_ok; [done|by apply install_only_records| |].
    + intros k pc [= <- <-]. by eexists.
    + intros k mon Hs'. congruence.
  - apply only_records_ok; [done|by apply reconcile_only_records|done|]. intros k mon Hs'. congruence.
  - apply only_records_ok; [done|by apply reconcile_only_records| |done]. intros k pc E. by exists pc.
  - by apply reap_ok.
  - by eapply take_out_ok.
  - by eapply close_ok.
  - by apply clear_ok.
Qed.

Lemma watched_reachable s s' : rtc watched_step s s' -> watched_ok s -> watched_ok s'.
Proof. induction 1 as [|x y z Hxy _ IH]; [done|]. intros Hok. apply IH. by eapply watched_step_ok. Qed.

(** *** One call at a time *)

(** Between calls a session is filed exactly when the ledger has it; [but] is a session
    whose start is under way. *)
Record settled (but : option Z) (s : monitoring (W := W)) : Prop := {
  settled_keyed : ledger_keyed (processState s);
  settled_made : forall m mon, monitors s !! m = Some mon -> (m < madeMonitors s)%nat;
  settled_filed : forall sid m, processSessions s !! sid = Some m ->
    exists mon, monitors s !! m = Some mon /\ id (session_ mon) = sid /\ mclosed mon = false;
  settled_open : forall m mon, monitors s !! m = Some mon -> mclosed mon = false ->
    processSessions s !! id (session_ mon) = Some m;
  settled_ledger : forall sid, but <> Some sid ->
    (is_Some (Inventory.sessions (processState s) !! sid) <-> is_Some (processSessions s !! sid))
}.

Lemma settled_new : settled None newMonitoring.
Proof. constructor; cbn; intros; by simplify_map_eq. Qed.

Lemma settled_records but s s' : settled but s -> only_records s s' ->
  settled but s' /\ processSessions s' = processSessions s.
Proof.
  intros Hs (P1 & P2 & P3 & P4 & P5). split; [|done].
  assert (Hback : forall m mon', monitors s' !! m = Some mon' -> exists mon, monitors s !! m = Some mon /\
    session_ mon' = session_ mon /\ mclosed mon' = mclosed mon).
  { intros m mon' E. specialize (P4 m). destruct (monitors s !! m) as [mon|]; [|congruence].
    exists mon. destruct P4 as (x & Ex & ? & ? & ?). simplify_eq. done. }
  constructor; rewrite ?P1, ?P2; [done|..].
  - intros m mon' (mon & E & _)%Hback. by apply (settled_made _ _ Hs _ _ E).
  - intros sid m E. destruct (settled_filed _ _ Hs _ _ E) as (mon & Em & Eid & Ec).
    specialize (P4 m). rewrite Em in P4. destruct P4 as (mon' & E' & F1 & F2 & F3). exists mon'. by rewrite F1, F3.
  - intros m mon' (mon & E & F1 & F3)%Hback Ec. rewrite F1. apply (settled_open _ _ Hs _ _ E). congruence.
  - intros sid Hb. destruct (P5 sid) as [->|(m & mon & Em & Ec & <- & recs & -> & _)]; [by apply (settled_ledger _ _ Hs)|].
    by rewrite (settled_open _ _ Hs _ _ Em Ec).
Qed.

Lemma settled_reconcile m out s : settled None s ->
  settled None (fst (reconcile identity daemonPID m out s)) /\
  processSessions (fst (reconcile identity daemonPID m out s)) = processSessions s.
Proof. intros Hs. apply settled_records; [done|]. apply reconcile_only_records, Hs. Qed.

Lemma settled_enter v pid s s' m : settled None s -> started_enter false v pid s = (s', Some m) ->
  settled (Some (id v)) s' /\ processSessions s' = <[id v := m]> (processSessions s) /\
  exists mon, monitors s' !! m = Some mon /\ id (session_ mon) = id v /\ mclosed mon = false.
Proof.
  intros Hs. unfold started_enter. destruct (processSessions s !! id v) eqn:Hf; [done|]. intros [= <- <-].
  set (m := madeMonitors s). assert (Hfresh : forall k mon, monitors s !! k = Some mon -> k <> m).
  { intros k mon E ->. apply (settled_made _ _ Hs) in E. unfold m in E. lia. }
  split; [|split; [done|eexists; cbn; by rewrite lookup_insert_eq]].
  constructor; cbn [processState processSessions monitors madeMonitors]; cbn.
  - apply Hs.
  - intros k mon [[<- <-]|[Hne E]]%lookup_insert_Some; [lia|]. apply (settled_made _ _ Hs) in E. lia.
  - intros sid k [[<- <-]|[Hne E]]%lookup_insert_Some; [eexists; by rewrite lookup_insert_eq|].
    destruct (settled_filed _ _ Hs _ _ E) as (mon & Em & ?). exists mon. rewrite lookup_insert_ne; [done|].
    symmetry. by apply (Hfresh _ mon).
  - intros k mon [[<- <-]|[Hne E]]%lookup_insert_Some Ec; cbn in *; [by rewrite lookup_insert_eq|].
    pose proof (settled_open _ _ Hs _ _ E Ec). rewrite lookup_insert_ne; [done|]. congruence.
  - intros sid Hne. rewrite lookup_insert_ne by congruence. by apply (settled_ledger _ _ Hs).
Qed.

(** A start files the session and puts it into the ledger. *)
Lemma settled_started v ans s : settled None s ->
  let s' := processSessionStarted identity daemonPID false v ans s in
  settled None s' /\ forall sid, is_Some (processSessions s' !! sid) <-> sid = id v \/ is_Some (processSessions s !! sid).
Proof.
  intros Hs. unfold processSessionStarted. destruct (started_enter false v (startedPID ans) s) as [s1 [m|]] eqn:E.
  - destruct (settled_enter _ _ _ _ _ Hs E) as (K1 & Hf & mon & Em & Eid & Ec).
    set (s2 := started_commit identity daemonPID m (startedAt_ ans) s1).
    assert (Hr2 : only_records s1 s2).
    { apply commit_only_records; [apply K1|]. intros x Ex. congruence. }
    destruct (settled_records _ _ _ K1 Hr2) as [K2 Hf2].
    assert (K2' : settled None s2).
    { constructor; try apply K2. intros sid _. destruct (decide (sid = id v)) as [->|Hne]; [|apply (settled_ledger _ _ K2); congruence].
      rewrite Hf2, Hf, lookup_insert_eq. unfold s2. rewrite <- Eid, (committed_record m _ s1 mon) by (done || apply K1). done. }
    set (s3 := started_watch m (supported_ ans) (given_ ans) s2).
    destruct (settled_records None s2 s3 K2') as [K3 Hf3]; [apply install_only_records, K2'|].
    destruct (settled_reconcile m (found_ ans) s3 K3) as [K4 Hf4]. split; [done|]. intros sid.
    rewrite Hf4, Hf3, Hf2, Hf. destruct (decide (sid = id v)) as [->|Hne].
    + rewrite lookup_insert_eq. split; [by left|done].
    + rewrite lookup_insert_ne by done. split; [by right|by intros [?|?]].
  - revert E. unfold started_enter. destruct (processSessions s !! id v) eqn:Hf; [|done]. intros [= <-]. split; [done|].
    intros sid. split; [by right|]. intros [->|?]; [by eexists|done].
Qed.

(** An end takes it out of both. *)
Lemma settled_ended sid at_ s : settled None s ->
  let s' := processSessionEnded sid at_ s in
  settled None s' /\ forall k, is_Some (processSessions s' !! k) <-> k <> sid /\ is_Some (processSessions s !! k).
Proof.
  intros Hs. pose proof (settled_keyed _ _ Hs) as Hk. unfold processSessionEnded, ended_enter.
  assert (Hdel : forall k, is_Some (delete sid (processSessions s) !! k) <-> k <> sid /\ is_Some (processSessions s !! k)).
  { intros k. destruct (decide (k = sid)) as [->|Hne].
    - rewrite lookup_delete_eq. split; [by intros [? ?]|by intros [? _]].
    - rewrite lookup_delete_ne by done. tauto. }
  assert (Hrep : forall s1 : monitoring (W := W), processState s1 = processState s -> processSessions s1 = delete sid (processSessions s) ->
    forall k, is_Some (Inventory.sessions (processState (replace sid [] at_ s1)) !! k) <-> is_Some (delete sid (processSessions s) !! k)).
  { intros s1 E1 E2 k. rewrite replace_sessions by (by rewrite E1). rewrite Hdel, E1. destruct (decide (k = sid)) as [->|Hne].
    - rewrite decide_True by done. split; [by intros [? ?]|by intros [? _]].
    - rewrite (settled_ledger _ _ Hs) by done. tauto. }
  destruct (processSessions s !! sid) as [m|] eqn:Ef.
  - destruct (settled_filed _ _ Hs _ _ Ef) as (mon & Em & Eid & Ec). unfold close_locked. cbn [monitors]. cbn.
    rewrite Em, Ec. split; [|exact Hdel]. constructor.
    + by apply replaceSession_keyed.
    + cbn. intros k y [[<- _]|[Hne E]]%lookup_insert_Some; by eapply (settled_made _ _ Hs).
    + cbn. intros k m' [Hne E]%lookup_delete_Some. destruct (settled_filed _ _ Hs _ _ E) as (y & Ey & Eidy & Ecy).
      exists y. rewrite lookup_insert_ne; [done|]. congruence.
    + cbn. intros k y [[<- <-]|[Hne E]]%lookup_insert_Some Ecy; [done|].
      pose proof (settled_open _ _ Hs _ _ E Ecy). rewrite lookup_delete_ne; [done|]. congruence.
    + intros k _. by apply Hrep.
  - split; [|exact Hdel]. constructor.
    + by apply replaceSession_keyed.
    + apply (settled_made _ _ Hs).
    + cbn. intros k m' [Hne E]%lookup_delete_Some. by apply (settled_filed _ _ Hs).
    + cbn. intros k y E Ecy. pose proof (settled_open _ _ Hs _ _ E Ecy). rewrite lookup_delete_ne; [done|]. congruence.
    + intros k _. by apply Hrep.
Qed.

(** *** The calls are runs of steps *)

Lemma started_runs v ans (s : watched) : starting s = None ->
  rtc watched_step s
    (mkWatched (processSessionStarted identity daemonPID (bool_decide (id v ∈ dead s)) v ans (live s)) (dead s) None (ending s)).
Proof.
  intros Hs. unfold processSessionStarted. destruct (started_enter _ v (startedPID ans) (live s)) as [l [m|]] eqn:E.
  - eapply rtc_l; [by eapply w_start|]. eapply rtc_l; [by apply (w_commit _ _ m (startedAt_ ans))|].
    eapply rtc_l; [by apply (w_install _ _ m (supported_ ans) (given_ ans))|]. cbn [live dead ending].
    eapply rtc_l; [by apply (w_started _ _ m (found_ ans))|]. apply rtc_refl.
  - assert (l = live s) as ->.
    { revert E. unfold started_enter. destruct (bool_decide _); [by intros [= <-]|]. destruct (_ !! _); [by intros [= <-]|done]. }
    destruct s as [l d st e]. cbn in *. subst st. apply rtc_refl.
Qed.

Lemma ended_runs sid at_ (s : watched) : starting s = None -> ending s !! sid = Some Called ->
  rtc watched_step s
    (mkWatched (processSessionEnded sid at_ (live s)) (dead s) None (<[sid := Returned]> (ending s))).
Proof.
  intros Hs Hc. unfold processSessionEnded. destruct (ended_enter sid (live s)) as [l [m|]] eqn:E;
    (eapply rtc_l; [by eapply w_end|]).
  - destruct (close_locked m l) as [l2 ok] eqn:Ec.
    eapply rtc_l; [eapply (w_close _ _ sid m); cbn; [by rewrite lookup_insert_eq|done]|].
    cbn [dead starting ending]. rewrite insert_insert_eq. destruct ok; [|apply rtc_refl].
    eapply rtc_l; [apply (w_clear _ _ sid at_); cbn; by rewrite lookup_insert_eq|].
    cbn [live dead starting ending]. rewrite insert_insert_eq. apply rtc_refl.
  - eapply rtc_l; [apply (w_clear _ _ sid at_); cbn; by rewrite lookup_insert_eq|].
    cbn [live dead starting ending]. rewrite insert_insert_eq. apply rtc_refl.
Qed.

(** C6: whatever order the starts, the notifications and the ends of sessions run in, a
    session whose end has returned has nothing in the ledger and no notification puts it
    back; and from the commit of its start until its end is taken, a session has its
    shell's record in the ledger, under the identity it started with. *)
Theorem ended_session_stays_out (s : watched) (sid : Z) : rtc watched_step initial s ->
  (ending s !! sid = Some Returned -> Inventory.sessions (processState (live s)) !! sid = None) /\
  (forall m mon, processSessions (live s) !! sid = Some m -> monitors (live s) !! m = Some mon ->
     starting s <> Some (m, Committing) ->
     exists recs, Inventory.sessions (processState (live s)) !! sid = Some recs /\
       recs !! sessionRecordID sid = Some (shell_record mon)).
Proof.
  intros Hr. pose proof (watched_reachable _ _ Hr initial_ok) as Hok. split.
  - apply (cleared _ _ _ Hok).
  - intros m mon. apply (shell_there _ _ _ Hok).
Qed.

End proofs.

(** ** Witness *)

Section witness.
#[local] Existing Instance sample_contract.
#[local] Existing Instance sample_contract_laws.

Definition sample_surroundings : surroundings := mkSurroundings true (inr sample_entries) sample_kernel 0 false true 150.

(** One session's life, a notification after its end among its steps. *)
Abbreviation life := (watched (W := darwinProcessTreeWatch)).

Definition life0 : life := initial.
Definition life1 : life :=
  mkWatched (fst (started_enter false sample_session 10 (live life0))) (dead life0) (Some (0%nat, Committing)) (ending life0).
Definition life2 : life :=
  mkWatched (started_commit "pty" 7 0 100 (live life1)) (dead life1) (Some (0%nat, Installing)) (ending life1).
Definition life3 : life :=
  mkWatched (started_watch 0 true (Some (mkWatch 10 {[10]} false)) (live life2)) (dead life2) (Some (0%nat, Reconciling)) (ending life2).
Definition life4 : life :=
  mkWatched (fst (reconcile "pty" 7 0 sample_surroundings (live life3))) (dead life3) None (ending life3).
Definition life5 : life :=
  mkWatched (live life4) ({[7]} ∪ dead life4) (starting life4) (<[7 := Called]> (ending life4)).
Definition life6 : life :=
  mkWatched (fst (ended_enter 7 (live life5))) (dead life5) None (<[7 := Closing 0]> (ending life5)).
Definition life7 : life :=
  mkWatched (fst (close_locked 0 (live life6))) (dead life6) (starting life6) (<[7 := Clearing]> (ending life6)).
Definition life8 : life :=
  mkWatched (fst (reconcile "pty" 7 0 sample_surroundings (live life7))) (dead life7) (starting life7) (ending life7).
Definition life9 : life :=
  mkWatched (replace 7 [] 200 (live life8)) (dead life8) (starting life8) (<[7 := Returned]> (ending life8)).

Lemma ended_session_stays_out_witness :
  (size <$> Inventory.sessions (processState (live life4)) !! 7) = Some 3%nat /\
  rtc (watched_step "pty" 7) initial life9 /\ ending life9 !! 7 = Some Returned /\
  ((ending life9 !! 7 = Some Returned -> Inventory.sessions (processState (live life9)) !! 7 = None) /\
   (forall m mon, processSessions (live life9) !! 7 = Some m -> monitors (live life9) !! m = Some mon ->
     starting life9 <> Some (m, Committing) ->
     exists recs, Inventory.sessions (processState (live life9)) !! 7 = Some recs /\
       recs !! sessionRecordID 7 = Some (shell_record "pty" 7 mon))).
Proof.
  assert (Hr : rtc (watched_step "pty" 7) initial life9).
  { apply (rtc_l _ _ life1); [refine (w_start "pty" 7 sample_session 10 life0 _ 0 _ _); vm_compute; reflexivity|].
    apply (rtc_l _ _ life2); [refine (w_commit "pty" 7 0 100 life1 _); vm_compute; reflexivity|].
    apply (rtc_l _ _ life3); [refine (w_install "pty" 7 0 true (Some (mkWatch 10 {[10]} false)) life2 _); vm_compute; reflexivity|].
    apply (rtc_l _ _ life4); [refine (w_started "pty" 7 0 sample_surroundings life3 _); vm_compute; reflexivity|].
    apply (rtc_l _ _ life5); [exact (w_reap "pty" 7 7 life4 (not_elem_of_empty 7))|].
    apply (rtc_l _ _ life6); [refine (w_end "pty" 7 7 life5 _ (Some 0%nat) _ _ _); vm_compute; reflexivity|].
    apply (rtc_l _ _ life7); [refine (w_close "pty" 7 7 0 life6 _ true _ _); vm_compute; reflexivity|].
    apply (rtc_l _ _ life8); [exact (w_notify "pty" 7 0 sample_surroundings life7)|].
    apply (rtc_l _ _ life9); [refine (w_clear "pty" 7 7 200 life8 _); vm_compute; reflexivity|].
    apply rtc_refl. }
  split; [vm_compute; reflexivity|]. split; [exact Hr|]. split; [vm_compute; reflexivity|].
  exact (ended_session_stays_out "pty" 7 life9 7 Hr).
Defined.

End witness.
