(* ===== verification/Registry.v ===== *)
(** * The sessions a daemon holds (session.go [registry], control.go [open], [closeWindow])

    The registry files sessions under ids it issues, ends the ones nothing reaches, and
    ends all of them when the daemon stops.  Go leaves the iteration order of a map open,
    so an operation that walks the sessions takes their ids in some order ([ids]).  The
    calls the registry makes on its surroundings are logged in order. *)

From S2P Require Import Prelude Contract OutputRing Observer StoreFeed Environment Session.

(** ** State *)

Inductive outcome_kind := SessionFull | SessionDegraded | SessionFailed | SessionLost.

Record restoreOutcome := mkOutcome {
  OutcomeSession : string;
  Outcome : outcome_kind;
  Reason : string
}.

Record registry := mkRegistry {
  next : Z;
  regGeneration : Z;
  sessions : gmap Z session;
  shell : string;
  stopped : bool;
  store : bool;
  abandonAfter : Z;
  outcomes : gmap Z restoreOutcome;
  readStore : bool
}.

#[export] Instance registry_settable : Settable registry :=
  fun r => mkRegistry (next r) (regGeneration r) (sessions r) (shell r) (stopped r) (store r)
    (abandonAfter r) (outcomes r) (readStore r).

(** A request to open a session, and the observer prepared for it: whether it displays, and
    the observer itself, bound to [ObserverToken]. *)
Record Open := mkOpen {
  Cols : Z;
  Rows : Z;
  Shell : string;
  OpenCWD : string;
  PaneID : string;
  WindowLabel : string;
  ObserverToken : string
}.

Record preparedObserver := mkPrepared {
  Displays : bool;
  prepared_observer : observer
}.

Inductive open_error := NoSize | NoShell | StartFailed | ShuttingDown.

Inductive reg_action :=
| Act (a : action)
| StoreCreate (session : Z)
| StoreMarkEnded (session at_ through : Z)
| RecordStays (session : Z).

Record Info := mkInfo {
  InfoSession : Z;
  InfoPane : string;
  InfoWindow : option string;
  InfoGeneration : Z;
  Written : Z;
  Acked : Z;
  Paused : bool;
  Retained : Z;
  InfoCols : Z;
  InfoRows : Z;
  InfoEventSequence : Z
}.

(** ** Operations *)

Section operations.
Context `{PtyContract}.

Definition newRegistry (shell_ : string) (after seedGeneration seedNext : Z) : registry :=
  mkRegistry seedNext seedGeneration ∅ shell_ false false after ∅ false.

(** The loop of [issueLocked]; [None] when the fuel runs out. *)
Fixpoint issue_loop {A} (fuel : nat) (candidate : Z) (taken : gmap Z A) : option Z :=
  match fuel with
  | O => None
  | S fuel =>
      let candidate := candidate +64 1 in
      match taken !! candidate with
      | None => Some candidate
      | Some _ => issue_loop fuel candidate taken
      end
  end.

(** One turn more than there are sessions is enough. *)
Definition issueLocked (reg : registry) : option (registry * Z) :=
  match issue_loop (S (size (sessions reg))) (next reg) (sessions reg) with
  | None => None
  | Some issued => Some (reg <| next := issued |>, issued)
  end.

Definition open_check (request : Open) (reg : registry) : open_error + string :=
  if (Cols request =? 0) || (Rows request =? 0) then inl NoSize
  else
    let named := if String.eqb (Shell request) "" then shell reg else Shell request in
    if String.eqb named "" then inl NoShell else inr named.

(** The part of [openWithObserver] under the lock: a shell is running by now. *)
Definition register (request : Open) (named : string) (env : list string) (now : Z)
    (prepared : option preparedObserver) (reg : registry)
    : option (registry * (open_error + Z) * list reg_action) :=
  if stopped reg then Some (reg, inl ShuttingDown, map Act [ProcessTerminate; ProcessClose; ProcessWait])
  else
    let reg := reg <| regGeneration := regGeneration reg +64 1 |> in
    match issueLocked reg with
    | None => None
    | Some (reg, sid) =>
        let value := newSession sid (PaneID request) (WindowLabel request) (OpenCWD request)
          (named ++ " -l")%string now (regGeneration reg) (Cols request) (Rows request) env (store reg)
          (match prepared with
           | None => None
           | Some p => Some (ObserverToken request, Displays p, prepared_observer p)
           end) in
        Some (reg <| sessions := <[sid := value]> (sessions reg) |>, inr sid, [])
    end.

(** The rest of [openWithObserver] on the session just filed: its record, its feed and the
    announcement.  [recordOk] is whether the record could be created. *)
Definition finish_open (recordOk announced : bool) (value : session) : session :=
  let value := if hasStore value
               then if recordOk then value <| feed := Some newStoreFeed |> else value <| hasStore := false |>
               else value in
  if announced then announce value else value.

Definition openWithObserver (request : Open) (env : list string) (processOk recordOk : bool) (now : Z)
    (prepared : option preparedObserver) (reg : registry)
    : option (registry * (open_error + Z) * list reg_action) :=
  match open_check request reg with
  | inl e => Some (reg, inl e, [])
  | inr named =>
      if negb processOk then Some (reg, inl StartFailed, [])
      else
        match register request named env now prepared reg with
        | None => None
        | Some (reg, inl e, acts) => Some (reg, inl e, acts)
        | Some (reg, inr sid, acts) =>
            Some (reg <| sessions := alter (finish_open recordOk (bool_decide (prepared <> None))) sid (sessions reg) |>,
                  inr sid, acts ++ if store reg then [StoreCreate sid] else [])
        end
  end.

Definition get (sid : Z) (reg : registry) : option session := sessions reg !! sid.

Fixpoint byPane (ids : list Z) (pane : string) (reg : registry) : option session :=
  match ids with
  | [] => None
  | sid :: ids =>
      match sessions reg !! sid with
      | Some value => if String.eqb (paneID value) pane then Some value else byPane ids pane reg
      | None => byPane ids pane reg
      end
  end.

(** [daemon.open], past its argument checks: a pane that holds a session is answered with
    it.  The answer is the session's id and whether it was created. *)
Definition daemon_open (ids : list Z) (request : Open) (env : list string) (processOk recordOk : bool)
    (now : Z) (prepared : option preparedObserver) (reg : registry)
    : option (registry * (open_error + Z * bool) * list reg_action) :=
  match byPane ids (PaneID request) reg with
  | Some existing =>
      if negb (String.eqb (PaneID request) "") then
        let reg :=
          match prepared with
          | None => reg
          | Some p =>
              reg <| sessions := alter (fun v => fst (adoptObserver (ObserverToken request) (Displays p)
                (prepared_observer p) v)) (id existing) (sessions reg) |>
          end in
        Some (reg, inr (id existing, false), [])
      else
        match openWithObserver request env processOk recordOk now prepared reg with
        | None => None
        | Some (reg, inl e, acts) => Some (reg, inl e, acts)
        | Some (reg, inr sid, acts) => Some (reg, inr (sid, true), acts)
        end
  | None =>
      match openWithObserver request env processOk recordOk now prepared reg with
      | None => None
      | Some (reg, inl e, acts) => Some (reg, inl e, acts)
      | Some (reg, inr sid, acts) => Some (reg, inr (sid, true), acts)
      end
  end.

(** The ids the sweep ends: a session is taken out of the map as it is met. *)
Definition endAbandoned (ids : list Z) (now : Z) (reg : registry) : registry * Z * list reg_action :=
  if abandonAfter reg <=? 0 then (reg, 0, [])
  else
    let deadline := now - abandonAfter reg in
    let abandoned := omap (fun sid => sessions reg !! sid ≫= fun v =>
                            if abandonedSince deadline v then Some (sid, v) else None) ids in
    (reg <| sessions := fold_left (fun m kv => delete kv.1 m) abandoned (sessions reg) |>,
     zlen abandoned,
     concat (map (fun kv => map Act (snd (reap true now kv.2))) abandoned)).

Definition forgetOutcome (sid : Z) (reg : registry) : registry :=
  reg <| outcomes := delete sid (outcomes reg) |>.

(** [removed] is whether the store could drop the record before the reap. *)
Definition close (sid : Z) (now : Z) (removed : bool) (reg : registry) : registry * bool * list reg_action :=
  let value := sessions reg !! sid in
  let reg := reg <| sessions := delete sid (sessions reg) |> in
  let dropped := if store reg
                 then Act (StoreRemove sid) :: if removed then [] else [RecordStays sid] else [] in
  let reg := forgetOutcome sid reg in
  match value with
  | None => (reg, false, dropped)
  | Some v => (reg, true, dropped ++ map Act (snd (reap true now v)))
  end.

Definition info (v : session) : Info :=
  let '(acked, retained) := state (ring v) in
  mkInfo (id v) (paneID v) (if String.eqb (windowLabel v) "" then None else Some (windowLabel v))
    (generation v) (written v) acked (paused v) retained (cols v) (rows v) (eventSequence v).

Definition list_sessions (ids : list Z) (reg : registry) : list Info :=
  omap (fun sid => info <$> sessions reg !! sid) ids.

(** [closeWindow] (control.go): every session listed under the label, one close at a time. *)
Fixpoint close_labelled (infos : list Info) (label : string) (now : Z) (reg : registry)
    : registry * list Z * list reg_action :=
  match infos with
  | [] => (reg, [], [])
  | i :: infos =>
      if bool_decide (InfoWindow i = Some label) then
        let '(reg, closed_, acts) := close (InfoSession i) now true reg in
        let '(reg, ended, more) := close_labelled infos label now reg in
        (reg, if closed_ then InfoSession i :: ended else ended, acts ++ more)
      else close_labelled infos label now reg
  end.

Definition closeWindow (ids : list Z) (label : string) (now : Z) (reg : registry)
    : registry * list Z * list reg_action :=
  close_labelled (list_sessions ids reg) label now reg.

(** One session's part of [shutdown]: the stop write, then the reap. *)
Definition stop_session (held : bool) (now : Z) (sid : Z) (v : session) : list reg_action :=
  (if held then [StoreMarkEnded (id v) now (written v)] else []) ++ map Act (snd (reap false now v)).

Definition shutdown (ids : list Z) (now : Z) (reg : registry) : registry * Z * list reg_action :=
  let values := omap (fun sid => (fun v => (sid, v)) <$> sessions reg !! sid) ids in
  (reg <| stopped := true |>
       <| sessions := fold_left (fun m kv => delete kv.1 m) values (sessions reg) |>,
   zlen values,
   concat (map (fun kv => stop_session (store reg) now kv.1 kv.2) values)).

(** What another connection does to one session. *)
Definition update_session (sid : Z) (op : session_op) (now : Z) (reg : registry) : registry :=
  reg <| sessions := alter (run_op op now) sid (sessions reg) |>.

End operations.

(** ** Specification *)

Section specification.
Context `{PtyContract}.

(** The ids of a walk over the sessions: every session's, once. *)
Definition covers (ids : list Z) (reg : registry) : Prop :=
  NoDup ids /\ forall sid, sid ∈ ids <-> is_Some (sessions reg !! sid).

(** Sessions are filed under their own ids. *)
Definition filed (reg : registry) : Prop := forall sid v, sessions reg !! sid = Some v -> id v = sid.

(** A named pane has one session, but for the sessions that [held] it from the start. *)
Definition one_per_pane (held : Z -> string -> Prop) (reg : registry) : Prop :=
  forall s1 s2 v1 v2, sessions reg !! s1 = Some v1 -> sessions reg !! s2 = Some v2 ->
    paneID v1 = paneID v2 -> paneID v1 <> ""%string -> s1 = s2 \/ held s1 (paneID v1) /\ held s2 (paneID v1).

(** The daemon's requests, one at a time. *)
Inductive reg_step : registry -> registry -> Prop :=
| step_open ids request env processOk recordOk now prepared reg reg' answer acts :
    covers ids reg -> daemon_open ids request env processOk recordOk now prepared reg = Some (reg', answer, acts) ->
    reg_step reg reg'
| step_update sid op now reg : reg_step reg (update_session sid op now reg)
| step_close sid now removed reg : reg_step reg (fst (fst (close sid now removed reg)))
| step_window ids label now reg : covers ids reg -> reg_step reg (fst (fst (closeWindow ids label now reg)))
| step_sweep ids now reg : covers ids reg -> reg_step reg (fst (fst (endAbandoned ids now reg)))
| step_shutdown ids now reg : covers ids reg -> reg_step reg (fst (fst (shutdown ids now reg))).

(** Several connections opening a session for one pane.  Each asks whether the pane holds
    one, then registers a shell of its own if it does not; the two are separate critical
    sections. *)
Inductive opener := Asking | Starting | Opened (sid : Z).

Record opening := mkOpening {
  shared : registry;
  openers : list opener
}.

Inductive open_step (request : Open) (named : string) (env : list string) (now : Z) : opening -> opening -> Prop :=
| open_held i ids s v : openers s !! i = Some Asking -> covers ids (shared s) ->
    byPane ids (PaneID request) (shared s) = Some v ->
    open_step request named env now s (mkOpening (shared s) (<[i := Opened (id v)]> (openers s)))
| open_free i ids s : openers s !! i = Some Asking -> covers ids (shared s) ->
    byPane ids (PaneID request) (shared s) = None ->
    open_step request named env now s (mkOpening (shared s) (<[i := Starting]> (openers s)))
| open_register i s reg sid acts : openers s !! i = Some Starting ->
    register request named env now None (shared s) = Some (reg, inr sid, acts) ->
    open_step request named env now s (mkOpening reg (<[i := Opened sid]> (openers s))).

(** The ids [issueLocked] tries, in order. *)
Definition candidates (from : Z) (n : nat) : list Z := map (fun k => wrap64 (from + Z.of_nat k)) (seq 1 n).

End specification.

#[global] Arguments candidates : simpl never.

(** ** Issued ids *)

Section issuing.
Context `{PtyContract}.

Lemma candidates_succ from n : is_u64 from ->
  candidates from (S n) = (from +64 1) :: candidates (from +64 1) n.
Proof.
  intros Hf. unfold candidates. cbn [seq map]. f_equal.
  rewrite <- (seq_shift n 1), map_map. apply map_ext. intros k. unfold add64, wrap64.
  rewrite Zplus_mod_idemp_l. f_equal. lia.
Qed.

Lemma candidates_nodup from n : Z.of_nat n <= two64 -> NoDup (candidates from n).
Proof.
  intros Hn. unfold candidates. apply (NoDup_fmap_2_strong (fun k => wrap64 (from + Z.of_nat k))); [|apply NoDup_seq].
  intros x y Hx%elem_of_seq Hy%elem_of_seq E. unfold wrap64 in E.
  pose proof (Z.div_mod (from + Z.of_nat x) two64). pose proof (Z.div_mod (from + Z.of_nat y) two64).
  unfold two64 in *. lia.
Qed.

Lemma issue_loop_spec {A} (taken : gmap Z A) fuel : forall from, is_u64 from ->
  match issue_loop fuel from taken with
  | Some sid => taken !! sid = None /\ is_u64 sid /\ exists n, (n < fuel)%nat /\
      (forall c, c ∈ candidates from n -> is_Some (taken !! c)) /\ sid = wrap64 (from + Z.of_nat (S n))
  | None => forall c, c ∈ candidates from fuel -> is_Some (taken !! c)
  end.
Proof.
  induction fuel as [|fuel IH]; intros from Hf; cbn; [by intros c ?%elem_of_nil|].
  pose proof (add64_range from 1) as Hr. destruct (taken !! (from +64 1)) eqn:E.
  - specialize (IH (from +64 1) Hr). destruct (issue_loop fuel (from +64 1) taken) as [sid|].
    + destruct IH as (H1 & H2 & n & Hn & Hall & Hsid). split_and!; [done|done|]. exists (S n).
      split_and!; [lia| |].
      * intros c. rewrite candidates_succ by done. intros [->|Hc]%elem_of_cons; [by eexists|by apply Hall].
      * rewrite Hsid. unfold add64, wrap64. rewrite Zplus_mod_idemp_l. f_equal. lia.
    + intros c. rewrite candidates_succ by done. intros [->|Hc]%elem_of_cons; [by eexists|by apply IH].
  - split_and!; [done|done|]. exists 0%nat. split_and!; [lia|by intros c ?%elem_of_nil|done].
Qed.

Lemma issue_loop_total {A} (taken : gmap Z A) from : is_u64 from -> Z.of_nat (size taken) < two64 ->
  is_Some (issue_loop (S (size taken)) from taken).
Proof.
  intros Hf Hsize. pose proof (issue_loop_spec taken (S (size taken)) from Hf) as Hspec.
  destruct (issue_loop _ _ _); [by eexists|]. exfalso.
  assert (Hnd : NoDup (candidates from (S (size taken)))) by (apply candidates_nodup; lia).
  assert (Hle : (length (candidates from (S (size taken))) <= size (dom taken))%nat).
  { rewrite <- (size_list_to_set (C := gset Z)) by done. apply subseteq_size.
    intros c Hc%elem_of_list_to_set. by apply elem_of_dom, Hspec. }
  rewrite size_dom in Hle. unfold candidates in Hle. rewrite length_map, length_seq in Hle. lia.
Qed.

(** [issueLocked] returns: it answers the first id after the last one issued that no
    session holds, so a session it names never takes the place of another. *)
Theorem issued_id_is_fresh reg :
  is_u64 (next reg) -> Z.of_nat (size (sessions reg)) < two64 ->
  exists sid n, issueLocked reg = Some (reg <| next := sid |>, sid) /\
    sessions reg !! sid = None /\ is_u64 sid /\
    sid = wrap64 (next reg + Z.of_nat (S n)) /\
    forall c, c ∈ candidates (next reg) n -> is_Some (sessions reg !! c).
Proof.
  intros Hn Hsize. unfold issueLocked.
  destruct (issue_loop_total (sessions reg) (next reg) Hn Hsize) as [sid Hsid].
  pose proof (issue_loop_spec (sessions reg) (S (size (sessions reg))) (next reg) Hn) as Hspec.
  rewrite Hsid in *. destruct Hspec as (H1 & H2 & n & _ & Hall & Heq). exists sid, n. done.
Qed.

Lemma issueLocked_fresh reg reg' sid : is_u64 (next reg) -> issueLocked reg = Some (reg', sid) ->
  reg' = reg <| next := sid |> /\ sessions reg !! sid = None /\ is_u64 sid.
Proof.
  intros Hn. unfold issueLocked.
  pose proof (issue_loop_spec (sessions reg) (S (size (sessions reg))) (next reg) Hn) as Hspec.
  destruct (issue_loop _ _ _); [|done]. intros [= <- <-]. by destruct Hspec as (? & ? & _).
Qed.

End issuing.

(** ** Panes *)

Section panes.
Context `{PtyContract}.

(** An operation on a session leaves its name, pane and window alone. *)
Definition same_names (v v' : session) : Prop :=
  id v' = id v /\ paneID v' = paneID v /\ windowLabel v' = windowLabel v.

Lemma run_op_names op now v : same_names v (run_op op now v).
Proof.
  destruct op as [data|b| | |gen| |c r ok|token d|token d|token d x|o|o|o|t|ro|e]; cbn [run_op]; try done.
  - unfold pump_chunk. destruct (OutputRing.write data (ring v)) as [r through].
    destruct (feed v) as [f|]; [destruct (offer data through f)|]; done.
  - unfold detachRenderer. destruct (rendererAttached v && (rendererGeneration v =? gen)); [|done].
    by destruct (negb (presenceLocked _)).
  - unfold detachActiveRenderer. destruct (rendererAttached v); cbn [andb]; [|done].
    by destruct (negb (presenceLocked _)).
  - unfold resize. destruct ((c =? 0) || (r =? 0)); [done|]. by destruct ok.
  - unfold Session.observe. destruct (negb (String.eqb token "")); [|by destruct d].
    destruct (observerTokens v !! token); [|done]. by destruct d.
  - unfold setDisplays. destruct (observerTokens v !! token); [|done]. destruct d; [done|].
    case_bool_decide; [|done]. by destruct (negb (presenceLocked _)).
  - unfold adoptObserver. by destruct d.
  - unfold removeObserver. by destruct (_ && _).
  - unfold take_event. destruct (heap v !! o) as [x|]; [|done]. by destruct (Observer.next x).
  - unfold Session.ack. by destruct (OutputRing.resumed _ _).
  - unfold reap. destruct (closed v); [done|]. by destruct (feed v).
Qed.

(** The well-formedness every request keeps. *)
Definition reg_ok held (reg : registry) : Prop := is_u64 (next reg) /\ filed reg /\ one_per_pane held reg.

(** Every session of the new map was in the old one, under the same id and names. *)
Definition shrinks (m m' : gmap Z session) : Prop :=
  forall sid v', m' !! sid = Some v' -> exists v, m !! sid = Some v /\ same_names v v'.

Lemma shrinks_ok held reg reg' : reg_ok held reg -> next reg' = next reg -> shrinks (sessions reg) (sessions reg') ->
  reg_ok held reg'.
Proof.
  intros (Hn & Hf & Hp) Hnext Hs. split_and!; [by rewrite Hnext| |].
  - intros sid v' (v & Hv & -> & _ & _)%Hs. by apply Hf.
  - intros s1 s2 v1' v2' (v1 & H1 & _ & E1 & _)%Hs (v2 & H2 & _ & E2 & _)%Hs.
    rewrite E1, E2. by apply Hp.
Qed.

Lemma shrinks_delete m sid : shrinks m (delete sid m).
Proof. intros s v [_ Hv]%lookup_delete_Some. by exists v. Qed.

Lemma shrinks_refl m : shrinks m m.
Proof. intros s v Hv. by exists v. Qed.

Lemma shrinks_trans m1 m2 m3 : shrinks m1 m2 -> shrinks m2 m3 -> shrinks m1 m3.
Proof.
  intros H12 H23 s v3 (v2 & (v1 & H1 & E1 & E2 & E3)%H12 & F1 & F2 & F3)%H23. exists v1.
  split; [done|]. unfold same_names. by rewrite F1, F2, F3.
Qed.

Lemma shrinks_alter m sid f : (forall v, same_names v (f v)) -> shrinks m (alter f sid m).
Proof.
  intros Hf s v'. rewrite lookup_alter_Some. intros [(-> & v & Hv & ->)|[Hne Hv]]; [|by exists v'].
  exists v. by split.
Qed.

Lemma shrinks_deletes {A} (l : list (Z * A)) : forall m, shrinks m (fold_left (fun m kv => delete kv.1 m) l m).
Proof.
  induction l as [|kv l IH]; intros m; [apply shrinks_refl|]. cbn.
  eapply shrinks_trans; [apply shrinks_delete|apply IH].
Qed.

Lemma close_shrinks sid now removed reg :
  shrinks (sessions reg) (sessions (fst (fst (close sid now removed reg)))) /\
  next (fst (fst (close sid now removed reg))) = next reg.
Proof. unfold close. destruct (sessions reg !! sid); (split; [apply shrinks_delete|done]). Qed.

Lemma close_labelled_shrinks infos label now : forall reg,
  shrinks (sessions reg) (sessions (fst (fst (close_labelled infos label now reg)))) /\
  next (fst (fst (close_labelled infos label now reg))) = next reg.
Proof.
  induction infos as [|i infos IH]; intros reg; cbn; [by split; [apply shrinks_refl|]|].
  case_bool_decide; [|apply IH].
  pose proof (close_shrinks (InfoSession i) now true reg) as [H1 H2].
  destruct (close (InfoSession i) now true reg) as [[reg1 c] acts]. cbn in H1, H2.
  specialize (IH reg1). destruct (close_labelled infos label now reg1) as [[reg2 ended] more].
  destruct IH as [H3 H4]. cbn in *. split; [by eapply shrinks_trans|by rewrite H4].
Qed.

Lemma byPane_none ids pane reg : byPane ids pane reg = None <->
  forall sid v, sid ∈ ids -> sessions reg !! sid = Some v -> paneID v <> pane.
Proof.
  induction ids as [|s ids IH]; cbn.
  { split; [|done]. by intros _ sid v ?%elem_of_nil. }
  destruct (sessions reg !! s) as [w|] eqn:E; [destruct (String.eqb_spec (paneID w) pane) as [Hp|Hp]|].
  - split; [done|]. intros Hall. by destruct (Hall s w); [left| |].
  - rewrite IH. split.
    + intros Hall sid v [->|Hin]%elem_of_cons Hv; [congruence|by eapply Hall].
    + intros Hall sid v Hin. apply Hall. by right.
  - rewrite IH. split.
    + intros Hall sid v [->|Hin]%elem_of_cons Hv; [congruence|by eapply Hall].
    + intros Hall sid v Hin. apply Hall. by right.
Qed.

Lemma byPane_some ids pane reg v : byPane ids pane reg = Some v ->
  exists sid, sid ∈ ids /\ sessions reg !! sid = Some v /\ paneID v = pane.
Proof.
  induction ids as [|s ids IH]; cbn; [done|].
  destruct (sessions reg !! s) as [w|] eqn:E; [destruct (String.eqb_spec (paneID w) pane) as [Hp|Hp]|].
  - intros [= <-]. exists s. split_and!; [by left|done|done].
  - intros (sid & Hin & Hv)%IH. exists sid. split; [by right|done].
  - intros (sid & Hin & Hv)%IH. exists sid. split; [by right|done].
Qed.

(** A pane that one session holds is answered with it, in whatever order they are asked. *)
Lemma byPane_the_one ids pane reg sid v : sid ∈ ids -> sessions reg !! sid = Some v -> paneID v = pane ->
  (forall k w, sessions reg !! k = Some w -> paneID w = pane -> k = sid) -> byPane ids pane reg = Some v.
Proof.
  intros Hin Hv Hp Hone. destruct (byPane ids pane reg) as [w|] eqn:E.
  - apply byPane_some in E as (k & _ & Hw & Epane). pose proof (Hone k w Hw Epane) as ->. congruence.
  - rewrite byPane_none in E. destruct (E sid v Hin Hv Hp).
Qed.

(** Registration adds one session, under a fresh id, with the request's pane. *)
Lemma register_spec request named env now prepared reg reg' sid acts : is_u64 (next reg) ->
  register request named env now prepared reg = Some (reg', inr sid, acts) ->
  stopped reg = false /\ sessions reg !! sid = None /\ next reg' = sid /\ is_u64 sid /\ acts = [] /\
  store reg' = store reg /\ stopped reg' = false /\
  exists v, sessions reg' = <[sid := v]> (sessions reg) /\ id v = sid /\ paneID v = PaneID request /\
    windowLabel v = WindowLabel request.
Proof.
  intros Hn. unfold register. destruct (stopped reg) eqn:Es; [done|].
  destruct (issueLocked _) as [[reg1 s1]|] eqn:E; [|done].
  apply issueLocked_fresh in E as (-> & Hfresh & Hu); [|done]. intros [= <- <- <-]. cbn in *.
  split_and!; [done..|]. eexists. split; [done|].
  destruct prepared as [p|]; [by destruct (Displays p)|done].
Qed.

Lemma finish_open_names recordOk announced v : same_names v (finish_open recordOk announced v).
Proof. unfold finish_open. destruct (hasStore v), recordOk, announced; done. Qed.

Lemma openWithObserver_ok held request env processOk recordOk now prepared reg reg' answer acts : reg_ok held reg ->
  (PaneID request <> ""%string -> forall sid v, sessions reg !! sid = Some v -> paneID v <> PaneID request) ->
  openWithObserver request env processOk recordOk now prepared reg = Some (reg', answer, acts) ->
  reg_ok held reg'.
Proof.
  intros Hok Hfree. pose proof Hok as (Hn & Hf & Hp). unfold openWithObserver.
  destruct (open_check request reg) as [e|named]; [by intros [= <- _ _]|].
  destruct processOk; cbn [negb]; [|by intros [= <- _ _]].
  destruct (register request named env now prepared reg) as [[[reg1 [e|sid]] a]|] eqn:E; [| |done].
  - unfold register in E. destruct (stopped reg); [by injection E as <- _ _; intros [= <- _ _]|].
    by destruct (issueLocked _) as [[? ?]|].
  - apply register_spec in E as (_ & Hfresh & Hnext & Hu & _ & _ & _ & v & Hs & Hid & Hpane & _); [|done].
    intros [= <- _ _].
    assert (Hlook : forall s w, alter (finish_open recordOk (bool_decide (prepared <> None))) sid (sessions reg1) !! s = Some w ->
      s = sid /\ id w = sid /\ paneID w = PaneID request \/ s <> sid /\ sessions reg !! s = Some w).
    { intros s w. rewrite lookup_alter_Some, Hs. intros [(-> & w0 & Hw0 & ->)|[Hne Hw]].
      - rewrite lookup_insert_eq in Hw0. injection Hw0 as <-. left.
        pose proof (finish_open_names recordOk (bool_decide (prepared <> None)) v) as (-> & -> & _). done.
      - rewrite lookup_insert_ne in Hw by done. by right. }
    split_and!; cbn; [by rewrite Hnext| |].
    + intros s w [(-> & -> & _)|[_ Hw]]%Hlook; [done|by apply Hf].
    + intros s1 s2 w1 w2 [(-> & _ & P1)|[N1 W1]]%Hlook [(-> & _ & P2)|[N2 W2]]%Hlook Heq Hne; [by left| | |].
      * rewrite P1 in Heq, Hne. by destruct (Hfree Hne s2 w2 W2).
      * rewrite P2 in Heq. rewrite Heq in Hne. by destruct (Hfree Hne s1 w1 W1).
      * by apply (Hp s1 s2 w1 w2).
Qed.

Lemma daemon_open_ok held ids request env processOk recordOk now prepared reg reg' answer acts : reg_ok held reg ->
  covers ids reg -> daemon_open ids request env processOk recordOk now prepared reg = Some (reg', answer, acts) ->
  reg_ok held reg'.
Proof.
  intros Hok [_ Hcov]. unfold daemon_open.
  destruct (byPane ids (PaneID request) reg) as [existing|] eqn:Eb.
  - destruct (String.eqb_spec (PaneID request) "") as [Hempty|Hne]; cbn [negb].
    + destruct (openWithObserver _ _ _ _ _ _ _) as [[[reg1 [e|sid]] a]|] eqn:E; [| |done];
        intros [= <- _ _]; (eapply openWithObserver_ok; [exact Hok| |exact E]); by intros Hn.
    + intros [= <- _ _]. destruct prepared as [p|]; [|done].
      apply (shrinks_ok held reg); [done|done|]. apply shrinks_alter. intros v.
      unfold adoptObserver. by destruct (Displays p).
  - rewrite byPane_none in Eb.
    destruct (openWithObserver _ _ _ _ _ _ _) as [[[reg1 [e|sid]] a]|] eqn:E; [| |done];
      intros [= <- _ _]; (eapply openWithObserver_ok; [exact Hok| |exact E]);
      intros _ s v Hv; apply (Eb s v); try done; apply Hcov; by eexists.
Qed.

Lemma reg_step_ok held reg reg' : reg_step reg reg' -> reg_ok held reg -> reg_ok held reg'.
Proof.
  intros Hstep Hok. destruct Hstep as [ids request env pOk rOk now prepared reg reg' answer acts Hcov E|
      sid op now reg|sid now removed reg|ids label now reg Hcov|ids now reg Hcov|ids now reg Hcov].
  - by eapply daemon_open_ok.
  - apply (shrinks_ok held reg); [done|done|]. apply shrinks_alter. intros v. apply run_op_names.
  - apply (shrinks_ok held reg); [done|apply close_shrinks|apply close_shrinks].
  - apply (shrinks_ok held reg); [done|apply close_labelled_shrinks|apply close_labelled_shrinks].
  - unfold endAbandoned. destruct (abandonAfter reg <=? 0); [done|].
    apply (shrinks_ok held reg); [done|done|]. apply shrinks_deletes.
  - apply (shrinks_ok held reg); [done|done|]. apply shrinks_deletes.
Qed.

Lemma reg_steps_ok held reg reg' : rtc reg_step reg reg' -> reg_ok held reg -> reg_ok held reg'.
Proof. induction 1 as [|reg reg1 reg2 Hstep _ IH]; [done|]. intros Hok. apply IH. by eapply reg_step_ok. Qed.

(** C40: [daemon.open] asks for the pane's session and registers a new one in two critical
    sections, so two connections opening one pane can each find it free, and each gets a
    shell: two sessions of one pane. *)
Theorem interleaved_opens_give_two_shells request named env now ids reg :
  stopped reg = false -> is_u64 (next reg) -> Z.of_nat (size (sessions reg)) + 1 < two64 ->
  covers ids reg -> byPane ids (PaneID request) reg = None ->
  exists s sid1 sid2 v1 v2, rtc (open_step request named env now) (mkOpening reg [Asking; Asking]) s /\
    openers s = [Opened sid1; Opened sid2] /\ sid1 <> sid2 /\
    sessions (shared s) !! sid1 = Some v1 /\ sessions (shared s) !! sid2 = Some v2 /\
    paneID v1 = PaneID request /\ paneID v2 = PaneID request.
Proof.
  intros Hrun Hn Hsize Hcov Hfree.
  assert (Hreg : forall r, stopped r = false -> is_u64 (next r) -> Z.of_nat (size (sessions r)) < two64 ->
    exists r' sid acts, register request named env now None r = Some (r', inr sid, acts)).
  { intros r Hs Hu Hsz. unfold register. rewrite Hs. unfold issueLocked. cbn.
    destruct (issue_loop_total (sessions r) (next r) Hu Hsz) as [sid E]. cbn in E. rewrite E. by eexists _, _, _. }
  destruct (Hreg reg Hrun Hn) as (r1 & sid1 & a1 & E1); [lia|].
  pose proof (register_spec _ _ _ _ _ _ _ _ _ Hn E1) as (_ & Hf1 & Hn1 & Hu1 & _ & _ & Hs1 & v1 & Hm1 & _ & Hp1 & _).
  destruct (Hreg r1) as (r2 & sid2 & a2 & E2); [done|by rewrite Hn1| |].
  { rewrite Hm1, map_size_insert_None by done. lia. }
  rewrite <- Hn1 in Hu1.
  pose proof (register_spec _ _ _ _ _ _ _ _ _ Hu1 E2) as (_ & Hf2 & _ & _ & _ & _ & _ & v2 & Hm2 & _ & Hp2 & _).
  assert (Hne : sid1 <> sid2).
  { intros <-. by rewrite Hm1, lookup_insert_eq in Hf2. }
  exists (mkOpening r2 [Opened sid1; Opened sid2]), sid1, sid2, v1, v2. split_and!; [|done|done| | |done|done].
  - eapply rtc_l; [by apply (open_free request named env now 0%nat ids)|]. cbn.
    eapply rtc_l; [by apply (open_free request named env now 1%nat ids)|]. cbn.
    eapply rtc_l; [by apply (open_register request named env now 0%nat (mkOpening reg [Starting; Starting]) r1 sid1 a1)|]. cbn.
    eapply rtc_l; [by apply (open_register request named env now 1%nat (mkOpening r1 [Opened sid1; Starting]) r2 sid2 a2)|].
    apply rtc_refl.
  - cbn. rewrite Hm2, lookup_insert_ne, Hm1 by done. apply lookup_insert_eq.
  - cbn. rewrite Hm2. apply lookup_insert_eq.
Qed.

End panes.

(** ** Sweeps and stops *)

Section endings.
Context `{PtyContract}.

(** What one session's reap asks of its surroundings. *)
Definition reap_calls (ended : bool) (now : Z) (v : session) : list action := snd (reap ended now v).

Lemma deletes_lookup {A} (l : list (Z * A)) : forall (m : gmap Z session) sid,
  fold_left (fun m kv => delete kv.1 m) l m !! sid = if decide (sid ∈ l.*1) then None else m !! sid.
Proof.
  induction l as [|[k x] l IH]; intros m sid; [done|]. cbn. rewrite IH.
  destruct (decide (sid ∈ l.*1)) as [Hin|Hout].
  - rewrite decide_True; [done|]. by right.
  - destruct (decide (sid = k)) as [->|Hne].
    + rewrite lookup_delete_eq, decide_True; [done|]. by left.
    + rewrite lookup_delete_ne, decide_False; [done| |done]. intros [?|?]%elem_of_cons; done.
Qed.

(** The sessions of a walk that pass a test, with their ids. *)
Definition chosen (test : session -> bool) (ids : list Z) (reg : registry) : list (Z * session) :=
  omap (fun sid => sessions reg !! sid ≫= fun v => if test v then Some (sid, v) else None) ids.

Lemma chosen_in test ids reg sid v :
  (sid, v) ∈ chosen test ids reg <-> sid ∈ ids /\ sessions reg !! sid = Some v /\ test v = true.
Proof.
  unfold chosen. rewrite list_elem_of_omap. split.
  - intros (s & Hs & Hv). destruct (sessions reg !! s) as [w|] eqn:E; [|done]. cbn in Hv.
    destruct (test w) eqn:Et; [|done]. by injection Hv as -> ->.
  - intros (Hin & Hv & Ht). exists sid. split; [done|]. rewrite Hv. cbn. by rewrite Ht.
Qed.

Lemma chosen_ids test ids reg sid : covers ids reg ->
  sid ∈ (chosen test ids reg).*1 <-> exists v, sessions reg !! sid = Some v /\ test v = true.
Proof.
  intros [_ Hcov]. rewrite list_elem_of_fmap. split.
  - intros ([s v] & -> & (_ & Hv & Ht)%chosen_in). by exists v.
  - intros (v & Hv & Ht). exists (sid, v). split; [done|]. apply chosen_in. split_and!; [|done|done].
    apply Hcov. by eexists.
Qed.

(** A removal is asked of the store by a reap of an open session that ended, and only then. *)
Lemma reap_removes ended now v sid :
  StoreRemove sid ∈ reap_calls ended now v <->
  closed v = false /\ ended = true /\ hasStore v = true /\ sid = id v.
Proof.
  unfold reap_calls, reap. destruct (closed v); [split; [by intros ?%elem_of_nil|by intros (? & _)]|].
  assert (Hin : forall drained, (drained = [] \/ drained = [FeedClose]) ->
    StoreRemove sid ∈ drained ++ [ProcessEnded (id v) now] ++
      (if ended && hasStore v then [StoreRemove (id v)] else []) ++ [ProcessTerminate; ProcessClose; ProcessWait] <->
    false = false /\ ended = true /\ hasStore v = true /\ sid = id v).
  { intros drained [->| ->]; destruct ended, (hasStore v); cbn;
      rewrite ?elem_of_cons, ?elem_of_nil; intuition congruence. }
  destruct (feed v); cbn [snd]; apply Hin; tauto.
Qed.

(** Whether a walk finds a session under an id, and it passes the test. *)
Definition passes (test : session -> bool) (reg : registry) (sid : Z) : bool :=
  match sessions reg !! sid with Some v => test v | None => false end.

Lemma chosen_count test reg ids : zlen (chosen test ids reg) = zlen (filter (passes test reg) ids).
Proof.
  unfold chosen. induction ids as [|s ids IH]; [done|]. rewrite filter_cons. cbn.
  destruct (decide (passes test reg s)) as [Hp|Hp]; unfold passes in Hp;
    (destruct (sessions reg !! s) as [v|]; [destruct (test v) eqn:Et|]; cbn; rewrite ?Et; cbn; try done).
  by rewrite !zlen_cons, IH.
Qed.

Lemma chosen_deleted test ids reg sid : covers ids reg ->
  fold_left (fun m kv => delete kv.1 m) (chosen test ids reg) (sessions reg) !! sid =
    match sessions reg !! sid with
    | Some v => if test v then None else Some v
    | None => None
    end.
Proof.
  intros Hcov. rewrite deletes_lookup. pose proof (chosen_ids test ids reg sid Hcov) as Hin.
  destruct (sessions reg !! sid) as [v|] eqn:E; [|by case_decide].
  destruct (test v) eqn:Et.
  - rewrite decide_True; [done|]. apply Hin. by exists v.
  - rewrite decide_False; [done|]. intros (w & [= ->] & Hw)%Hin. congruence.
Qed.

(** One sweep takes out exactly the sessions abandoned since the window began and
    leaves every other as it was; it counts them, and the record of each one that was
    still open is removed, and of no other. *)
Theorem sweep_ends_the_abandoned ids now reg :
  filed reg -> covers ids reg -> 0 < abandonAfter reg ->
  let abandoned := abandonedSince (now - abandonAfter reg) in
  let '(reg', ended, acts) := endAbandoned ids now reg in
  (forall sid, sessions reg' !! sid =
    match sessions reg !! sid with
    | Some v => if abandoned v then None else Some v
    | None => None
    end) /\
  ended = zlen (filter (passes abandoned reg) ids) /\
  (forall sid, Act (StoreRemove sid) ∈ acts <->
    exists v, sessions reg !! sid = Some v /\ abandoned v = true /\ closed v = false /\ hasStore v = true).
Proof.
  intros Hf Hcov Hpos abandoned. unfold endAbandoned. rewrite (proj2 (Z.leb_gt _ _) Hpos).
  fold abandoned. fold (chosen abandoned ids reg). split_and!.
  - intros sid. cbn. by apply chosen_deleted.
  - apply chosen_count.
  - intros sid. rewrite list_elem_of_In, in_concat. split.
    + intros (l & Hl & Hin). apply in_map_iff in Hl as ([s v] & <- & Hs%list_elem_of_In%chosen_in).
      destruct Hs as (_ & Hv & Ht). apply in_map_iff in Hin as (a & [= ->] & Ha%list_elem_of_In).
      apply reap_removes in Ha as (Hc & _ & Hst & E). cbn in *. rewrite (Hf s v Hv) in E. exists v. by rewrite E.
    + intros (v & Hv & Ht & Hc & Hst). exists (map Act (snd (reap true now v))). split.
      * apply (in_map (fun kv : Z * session => map Act (snd (reap true now kv.2))) _ (sid, v)).
        apply list_elem_of_In, chosen_in. split_and!; [|done|done]. apply Hcov. by eexists.
      * apply in_map, list_elem_of_In, reap_removes. split_and!; [done..|]. by rewrite (Hf sid v Hv).
Qed.

(** The stop of the daemon empties the registry and removes no record: with a store,
    each session is marked ended, at what it had written, before it is reaped; and a shell
    started by a request that comes later is ended instead of registered. *)
Theorem shutdown_marks_and_keeps ids now reg request named env later prepared :
  covers ids reg ->
  let '(reg', ended, acts) := shutdown ids now reg in
  sessions reg' = ∅ /\ ended = zlen ids /\
  (forall sid, Act (StoreRemove sid) ∉ acts) /\
  (store reg = true -> forall sid v, sessions reg !! sid = Some v ->
    exists before after, acts = before ++ StoreMarkEnded (id v) now (written v) ::
      map Act (snd (reap false now v)) ++ after) /\
  register request named env later prepared reg' =
    Some (reg', inl ShuttingDown, map Act [ProcessTerminate; ProcessClose; ProcessWait]).
Proof.
  intros Hcov. unfold shutdown.
  set (values := omap (fun sid => (fun v => (sid, v)) <$> sessions reg !! sid) ids).
  assert (Hval : values = chosen (fun _ => true) ids reg) by done.
  split_and!.
  - apply map_eq. intros sid. cbn. rewrite Hval, chosen_deleted, lookup_empty by done.
    by destruct (sessions reg !! sid).
  - rewrite Hval, chosen_count. destruct Hcov as [_ Hcov]. unfold zlen. do 2 f_equal.
    assert (Hall : Forall (passes (fun _ => true) reg) ids).
    { apply list.Forall_forall. intros sid [v Hv]%Hcov. unfold passes. by rewrite Hv. }
    clear Hcov Hval values. induction Hall as [|s ids Hs _ IH]; [done|].
    rewrite filter_cons, decide_True by done. by f_equal.
  - intros sid Hin. apply list_elem_of_In, in_concat in Hin as (l & Hl & Hin).
    apply in_map_iff in Hl as ([s v] & <- & _). cbn in Hin. unfold stop_session in Hin.
    apply in_app_iff in Hin as [Hin|Hin]; [destruct (store reg); [by destruct Hin|done]|].
    apply in_map_iff in Hin as (a & [= ->] & Ha%list_elem_of_In). by apply reap_removes in Ha as (_ & ? & _).
  - intros Hst sid v Hv.
    assert (Hin : (sid, v) ∈ values).
    { rewrite Hval. apply chosen_in. split_and!; [|done|done]. apply Hcov. by eexists. }
    apply list_elem_of_split in Hin as (l1 & l2 & ->).
    exists (concat (map (fun kv => stop_session (store reg) now kv.1 kv.2) l1)),
      (concat (map (fun kv => stop_session (store reg) now kv.1 kv.2) l2)).
    rewrite map_app, concat_app. cbn [map concat fst snd]. unfold stop_session at 2. rewrite Hst.
    by rewrite <- app_assoc.
  - done.
Qed.

(** The stop write of a session comes before its feed is drained, and it records the
    coordinate the session has printed to: what the feed still holds is behind the record
    that claims it, although [reap] says nothing writes the record before the drain. *)
Theorem stop_write_precedes_the_drain now sid v f :
  closed v = false -> feed v = Some f ->
  exists after, stop_session true now sid v =
    StoreMarkEnded (id v) now (written v) :: Act FeedClose :: after /\
    StoreMarkEnded (id v) now (written v) ∉ after.
Proof.
  intros Hc Hf. unfold stop_session, reap. rewrite Hc, Hf. cbn. eexists. split; [done|].
  rewrite !elem_of_cons, elem_of_nil. intuition congruence.
Qed.

Lemma close_labelled_spec label now infos : forall reg,
  NoDup (map InfoSession infos) ->
  (forall i, i ∈ infos -> exists v, sessions reg !! InfoSession i = Some v) ->
  let '(reg', ended, _) := close_labelled infos label now reg in
  ended = map InfoSession (filter (fun i => InfoWindow i = Some label) infos) /\
  forall sid, sessions reg' !! sid = if decide (sid ∈ ended) then None else sessions reg !! sid.
Proof.
  induction infos as [|i infos IH]; intros reg Hnd Hin; [done|].
  cbn in Hnd. apply NoDup_cons in Hnd as [Hni Hnd]. cbn [close_labelled]. rewrite filter_cons.
  assert (Hrest : forall j, j ∈ infos -> exists v, sessions reg !! InfoSession j = Some v)
    by (intros j Hj; apply Hin; by right).
  case_bool_decide as Hl; [rewrite decide_True by done|rewrite decide_False by done; by apply IH].
  destruct (Hin i) as [v Hv]; [by left|]. unfold close. rewrite Hv.
  set (reg1 := forgetOutcome (InfoSession i) _).
  specialize (IH reg1 Hnd). destruct (close_labelled infos label now reg1) as [[reg' ended] more].
  destruct IH as [-> Hlook].
  { intros j Hj. destruct (Hrest j Hj) as [w Hw]. exists w. cbn. rewrite lookup_delete_ne; [done|].
    intros E. apply Hni. rewrite E. by apply (list_elem_of_fmap_2 InfoSession). }
  split; [done|]. intros sid. rewrite Hlook. cbn.
  set (rest := map InfoSession (filter _ infos)).
  destruct (decide (sid ∈ rest)) as [Hr|Hr].
  - by rewrite decide_True by by right.
  - destruct (decide (sid = InfoSession i)) as [->|Hne].
    + rewrite lookup_delete_eq, decide_True; [done|]. by left.
    + rewrite lookup_delete_ne, decide_False; [done| |done]. by intros [|]%elem_of_cons.
Qed.

(** Closing a window ends exactly the sessions opened under its label, each once, and
    leaves every other; a window with no label ends none, whatever sessions have none. *)
Theorem close_window_ends_its_sessions ids label now reg :
  filed reg -> covers ids reg ->
  let '(reg', ended, _) := closeWindow ids label now reg in
  NoDup ended /\
  (forall sid, sid ∈ ended <->
    exists v, sessions reg !! sid = Some v /\ windowLabel v = label /\ label <> ""%string) /\
  (forall sid, sessions reg' !! sid = if decide (sid ∈ ended) then None else sessions reg !! sid).
Proof.
  intros Hf [Hnd Hcov]. unfold closeWindow.
  assert (Hinfos : map InfoSession (list_sessions ids reg) = ids).
  { unfold list_sessions. clear Hnd. assert (Hall : Forall (fun s => is_Some (sessions reg !! s)) ids)
      by (apply list.Forall_forall; intros s Hs; by apply Hcov).
    clear Hcov. induction Hall as [|s ids [v Hv] _ IH]; [done|]. cbn. rewrite Hv. cbn. rewrite IH.
    f_equal. unfold info. by rewrite (Hf s v Hv). }
  assert (Hin : forall i, i ∈ list_sessions ids reg <->
    exists sid v, sid ∈ ids /\ sessions reg !! sid = Some v /\ i = info v).
  { intros i. unfold list_sessions. rewrite list_elem_of_omap. split.
    - intros (s & Hs & Hi). destruct (sessions reg !! s) as [v|] eqn:E; [|done]. injection Hi as <-. by exists s, v.
    - intros (s & v & Hs & Hv & ->). exists s. by rewrite Hv. }
  pose proof (close_labelled_spec label now (list_sessions ids reg) reg) as Hspec.
  destruct (close_labelled _ label now reg) as [[reg' ended] acts].
  destruct Hspec as [-> Hlook]; [by rewrite Hinfos| |].
  { intros i (s & v & _ & Hv & ->)%Hin. exists v. unfold info. cbn. by rewrite (Hf s v Hv). }
  split_and!; [| |done].
  - rewrite <- Hinfos in Hnd. clear -Hnd.
    induction (list_sessions ids reg) as [|i l IH]; [constructor|]. cbn in Hnd.
    apply NoDup_cons in Hnd as [Hi Hnd]. rewrite filter_cons. case_decide; [|by apply IH].
    cbn. apply NoDup_cons. split; [|by apply IH].
    intros (j & Hj & (_ & Hjl)%list_elem_of_filter)%list_elem_of_fmap. apply Hi. rewrite Hj.
    by apply (list_elem_of_fmap_2 InfoSession).
  - intros sid. split.
    + intros (i & -> & (Hl & (s & v & Hs & Hv & ->)%Hin)%list_elem_of_filter)%list_elem_of_fmap.
      exists v. unfold info in *. cbn in *. rewrite (Hf s v Hv).
      destruct (String.eqb_spec (windowLabel v) ""); [done|]. by injection Hl as <-.
    + intros (v & Hv & <- & Hne).
      assert (Hs : InfoSession (info v) = sid) by by apply Hf.
      assert (Hw : InfoWindow (info v) = Some (windowLabel v)).
      { unfold info. cbn. by destruct (String.eqb_spec (windowLabel v) "") as [E|E]; [destruct Hne|]. }
      rewrite <- Hs. apply (list_elem_of_fmap_2 InfoSession), list_elem_of_filter. split; [done|].
      apply Hin. exists sid, v. split_and!; [|done|done]. apply Hcov. by eexists.
Qed.

End endings.

(** ** Witnesses *)

Section witnesses.
#[local] Existing Instance sample_contract.
#[local] Existing Instance sample_contract_laws.

Definition sample_open (pane window : string) : Open := mkOpen 80 24 "" "/" pane window "".

(** A registry of two sessions, with a store; its next id wraps round to zero. *)
Definition empty_registry : registry := (newRegistry "sh" 30 5 (two64 - 2)) <| store := true |>.

Definition opened_after (request : Open) (now : Z) (reg : registry) : registry :=
  match openWithObserver request [] true true now None reg with
  | Some (reg, _, _) => reg
  | None => reg
  end.

Definition sample_registry : registry :=
  update_session 0 OpDetachActive 120 (update_session 0 OpAttach 110
    (opened_after (sample_open "p2" "w1") 101 (opened_after (sample_open "p1" "") 100 empty_registry))).

Definition sample_ids : list Z := [0; two64 - 1].

Lemma sample_lookup sid v : sessions sample_registry !! sid = Some v ->
  (sid = 0 \/ sid = two64 - 1) /\ id v = sid.
Proof.
  assert (Hall : Forall (fun kv : Z * session => (kv.1 = 0 \/ kv.1 = two64 - 1) /\ id kv.2 = kv.1)
    (map_to_list (sessions sample_registry))).
  { apply (bool_decide_unpack _). vm_compute. exact I. }
  rewrite list.Forall_forall in Hall. intros Hv%elem_of_map_to_list. exact (Hall (sid, v) Hv).
Qed.

Lemma sample_filed : filed sample_registry.
Proof. intros sid v Hv. by apply sample_lookup. Qed.

Lemma sample_covers : covers sample_ids sample_registry.
Proof.
  split; [apply (bool_decide_unpack _); vm_compute; exact I|]. intros sid. split.
  - intros [->|[->|?%elem_of_nil]%elem_of_cons]%elem_of_cons; [..|done];
      apply (bool_decide_unpack _); vm_compute; exact I.
  - intros [v [[->| ->] _]%sample_lookup]; [by left|right; by left].
Qed.

Lemma issued_id_is_fresh_witness :
  exists sid n, issueLocked sample_registry = Some (sample_registry <| next := sid |>, sid) /\
    sessions sample_registry !! sid = None /\ is_u64 sid /\
    sid = wrap64 (next sample_registry + Z.of_nat (S n)) /\
    forall c, c ∈ candidates (next sample_registry) n -> is_Some (sessions sample_registry !! c).
Proof.
  apply (issued_id_is_fresh sample_registry); [split; [discriminate|reflexivity]|reflexivity].
Defined.

Lemma interleaved_opens_give_two_shells_witness :
  exists s sid1 sid2 v1 v2,
    rtc (open_step (sample_open "p3" "w") "sh" [] 130) (mkOpening sample_registry [Asking; Asking]) s /\
    openers s = [Opened sid1; Opened sid2] /\ sid1 <> sid2 /\
    sessions (shared s) !! sid1 = Some v1 /\ sessions (shared s) !! sid2 = Some v2 /\
    paneID v1 = PaneID (sample_open "p3" "w") /\ paneID v2 = PaneID (sample_open "p3" "w").
Proof.
  apply (interleaved_opens_give_two_shells (sample_open "p3" "w") "sh" [] 130 sample_ids sample_registry).
  - reflexivity.
  - split; [discriminate|reflexivity].
  - reflexivity.
  - exact sample_covers.
  - vm_compute. reflexivity.
Defined.

Lemma sweep_ends_the_abandoned_witness :
  let abandoned := abandonedSince (200 - abandonAfter sample_registry) in
  let '(reg', ended, acts) := endAbandoned sample_ids 200 sample_registry in
  (forall sid, sessions reg' !! sid =
    match sessions sample_registry !! sid with
    | Some v => if abandoned v then None else Some v
    | None => None
    end) /\
  ended = zlen (filter (passes abandoned sample_registry) sample_ids) /\
  (forall sid, Act (StoreRemove sid) ∈ acts <->
    exists v, sessions sample_registry !! sid = Some v /\ abandoned v = true /\
      closed v = false /\ hasStore v = true).
Proof.
  exact (sweep_ends_the_abandoned sample_ids 200 sample_registry sample_filed sample_covers eq_refl).
Defined.

Example sample_sweep : snd (fst (endAbandoned sample_ids 200 sample_registry)) = 1.
Proof. vm_compute. reflexivity. Qed.

Lemma shutdown_marks_and_keeps_witness :
  let '(reg', ended, acts) := shutdown sample_ids 200 sample_registry in
  sessions reg' = ∅ /\ ended = zlen sample_ids /\
  (forall sid, Act (StoreRemove sid) ∉ acts) /\
  (store sample_registry = true -> forall sid v, sessions sample_registry !! sid = Some v ->
    exists before after, acts = before ++ StoreMarkEnded (id v) 200 (written v) ::
      map Act (snd (reap false 200 v)) ++ after) /\
  register (sample_open "p" "w") "sh" [] 210 None reg' =
    Some (reg', inl ShuttingDown, map Act [ProcessTerminate; ProcessClose; ProcessWait]).
Proof.
  exact (shutdown_marks_and_keeps sample_ids 200 sample_registry (sample_open "p" "w") "sh" [] 210 None
    sample_covers).
Defined.

(** A session whose feed holds output the store has not been given. *)
Definition feeding_session : session :=
  fst (pump_chunk (text "abc") 105 (finish_open true false
    (newSession 7 "p1" "w1" "/" "sh -l" 100 3 80 24 [] true None))).

End witnesses.
