(* ===== verification/Restore.v ===== *)
(** * Standing sessions back up (restore.go)

    A start reads every record the store lists and makes a session of each: a new shell
    with the old output ahead of it, at the coordinate and under the id it had.  The model
    composes the store ([Store.io]) with the registry, which is passed along.  What the
    system answers to the start of a shell is an argument ([starts]). *)

From stdpp Require Import pretty.
From S2P Require Import Prelude Decimal Contract OutputRing Observer StoreFeed Store Session Registry.

(** ** Data *)

Definition shellBoundary : octets := [Byte.x0d; Byte.x0a].

Definition sessionText (sid : Z) : string := number sid.

Definition sessionNumber (name : string) : option Z := ParseUint 64 name.

(** The shell a restore starts: the arguments of [startSessionProcess]. *)
Record start_shell := mkStart {
  startShell : string;
  startCWD : string;
  startEnvironment : list string;
  startCols : Z;
  startRows : Z
}.

Inductive restore_action :=
| StartShell (asked : start_shell)
| RestoreAct (a : reg_action)
| FeedReport (r : report).

Record SessionReport := mkReport {
  Complete : bool;
  Sessions : list restoreOutcome
}.

Record SessionCloseResult := mkClosed {
  ClosedSession : string;
  Closed : bool;
  Held : bool
}.

(** ** Operations *)

(** [Shell]: the first field of the command line. *)
Fixpoint Shell (command : string) : string :=
  match command with
  | EmptyString => EmptyString
  | String c rest => if code c =? 32 then EmptyString else String c (Shell rest)
  end.

(** The last byte is there and ends no line. *)
Definition mid_line (output : octets) : bool :=
  match last output with
  | None => false
  | Some b => negb (bool_decide (b = Byte.x0a))
  end.

Section operations.
Context `{PtyContract} `{Platform}.

(** The texts of the errors, which a failed outcome carries. *)
Context (explain : io_error -> string) (not_started stopping : string).

(** The session a restore registers, with what its feed reports. *)
Definition restored_session (sid : Z) (record : sessionRecord) (output : octets) (through now gen : Z)
    : session * list report :=
  let v := newSession sid (Store.PaneID record) (Store.WindowLabel record)
    (Store.CWD record) (Store.Command record) now gen (Store.Cols record) (Store.Rows record)
    (Store.Environment record) true None in
  let f := newStoreFeed in
  let r := OutputRing.restore output through (ring v) in
  let '(_, at_live, _) := snapshot r in
  if mid_line output then
    let '(r, next_at) := OutputRing.write shellBoundary r in
    let '(f, reported) := offer shellBoundary next_at f in
    (v <| ring := r |> <| written := next_at |> <| feed := Some f |>, reported)
  else (v <| ring := r |> <| written := at_live |> <| feed := Some f |>, []).

Definition outcome_of (sid : Z) (kind : outcome_kind) (reason : string) : restoreOutcome :=
  mkOutcome (sessionText sid) kind reason.

(** Full is marked cleanly ended and restored as far as the mark says. *)
Definition verdict (record : sessionRecord) (through : Z) : outcome_kind :=
  match EndedAtUnixMs record with
  | Some _ => if EndedThrough record <=? through then SessionFull else SessionDegraded
  | None => SessionDegraded
  end.

Definition restoreOne (started : bool) (now sid : Z) (reg : registry)
    : io (registry * restoreOutcome * list restore_action) :=
  do found <- attempt (Store.read sid);
  match found with
  | inl e => ret (reg, outcome_of sid SessionFailed (explain e), [])
  | inr record =>
      do held <- attempt (Store.output sid HighWatermark);
      match held with
      | inl e => ret (reg, outcome_of sid SessionFailed (explain e), [])
      | inr (output, through) =>
          let named := Shell (Store.Command record) in
          let named := if String.eqb named "" then shell reg else named in
          let asked := mkStart named (Store.CWD record) (Store.Environment record) (Store.Cols record) (Store.Rows record) in
          if negb started then ret (reg, outcome_of sid SessionFailed not_started, [StartShell asked])
          else if stopped reg then
            ret (reg, outcome_of sid SessionFailed stopping,
                 StartShell asked :: map (fun a => RestoreAct (Act a)) [ProcessTerminate; ProcessClose; ProcessWait])
          else
            let reg := reg <| regGeneration := regGeneration reg +64 1 |> in
            let '(value, reported) := restored_session sid record output through now (regGeneration reg) in
            let reg := reg <| sessions := <[sid := value]> (sessions reg) |> in
            do cleared <- attempt (clearStopMark sid);
            ret (reg, outcome_of sid (verdict record through) "", StartShell asked :: map FeedReport reported)
      end
  end.

Definition recordOutcome (sid : Z) (outcome : restoreOutcome) (reg : registry) : registry :=
  reg <| outcomes := <[sid := outcome]> (outcomes reg) |>.

Definition markStoreRead (reg : registry) : registry := reg <| readStore := true |>.

Fixpoint restore_each (starts : Z -> bool) (now : Z) (ids : list Z) (reg : registry)
    : io (registry * list restoreOutcome * list restore_action) :=
  match ids with
  | [] => ret (reg, [], [])
  | sid :: ids =>
      do '(reg, outcome, acts) <- restoreOne (starts sid) now sid reg;
      do '(reg, others, more) <- restore_each starts now ids (recordOutcome sid outcome reg);
      ret (reg, outcome :: others, acts ++ more)
  end.

Definition restore (starts : Z -> bool) (now : Z) (reg : registry)
    : io (registry * list restoreOutcome * list restore_action) :=
  if negb (store reg) then ret (markStoreRead reg, [], [])
  else
    do found <- attempt list_ids;
    match found with
    | inl _ => ret (reg, [], [])
    | inr ids =>
        do '(reg, all, acts) <- restore_each starts now ids reg;
        ret (markStoreRead reg, all, acts)
    end.

Definition byID (sid : Z) (reg : registry) : option session := sessions reg !! sid.

(** What the report says of one name. *)
Definition report_of (reg : registry) (name : string) : restoreOutcome :=
  let lost := mkOutcome name SessionLost "" in
  match sessionNumber name with
  | None => lost
  | Some sid =>
      match outcomes reg !! sid with
      | Some outcome => outcome
      | None => match sessions reg !! sid with
                | Some _ => mkOutcome name SessionFull ""
                | None => lost
                end
      end
  end.

(** The names an empty request stands for: the sessions, and what else has an outcome. *)
Definition all_names (reg : registry) : list string :=
  map sessionText (map_to_list (sessions reg)).*1 ++
  map sessionText (filter (fun sid => sessions reg !! sid = None) (map_to_list (outcomes reg)).*1).

Definition by_session (a b : restoreOutcome) : Prop := String.le (OutcomeSession a) (OutcomeSession b).

#[export] Instance by_session_dec : RelDecision by_session.
Proof. intros a b. unfold by_session. apply _. Defined.

#[export] Instance by_session_total : Total by_session.
Proof. intros a b. apply (total String.le). Qed.

Definition restoreReport (named : list string) (reg : registry) : SessionReport :=
  let named := match named with [] => all_names reg | _ => named end in
  mkReport (readStore reg) (merge_sort by_session (map (report_of reg) named)).

(** The removal of a record that a reap asks for. *)
Fixpoint perform (acts : list reg_action) : io unit :=
  match acts with
  | [] => ret tt
  | Act (StoreRemove sid) :: acts => attempt (Store.remove sid);;; perform acts
  | _ :: acts => perform acts
  end.

(** [close] of the registry with the store behind it: the record goes, then the session. *)
Definition close_stored (sid now : Z) (reg : registry) : io (registry * bool * list reg_action) :=
  do removed <- (if store reg then attempt (Store.remove sid) else ret (inr tt));
  let '(reg', ended, acts) := Registry.close sid now (match removed with inr _ => true | inl _ => false end) reg in
  perform (if store reg then List.tl acts else acts);;;
  ret (reg', ended, acts).

Definition closeSession (name : string) (now : Z) (reg : registry)
    : io (registry * SessionCloseResult * list reg_action) :=
  match sessionNumber name with
  | None => ret (reg, mkClosed name true false, [])
  | Some sid =>
      let held := bool_decide (is_Some (sessions reg !! sid)) in
      do '(reg, ended, acts) <- close_stored sid now reg;
      ret (reg, mkClosed name (negb (negb ended && held)) held, acts)
  end.

End operations.

#[global] Arguments restored_session : simpl never.

(** ** Specification *)

(** What the output a restore found comes to: a line break behind it if it ends in a line. *)
Definition continued (hist kept : octets) : octets := hist ++ if mid_line kept then shellBoundary else [].

(** The record of a session that runs: no mark of an end. *)
Definition unmarked (r : sessionRecord) : sessionRecord :=
  r <| EndedAtUnixMs := None |> <| Store.ExitCode := None |> <| EndedThrough := 0 |>.

(** A session made from a record, with the output [hist] behind it of which [kept] was read. *)
Record stands `{PtyContract} (sid : Z) (record : sessionRecord) (hist kept : octets) (v : session) : Prop := {
  stands_id : id v = sid;
  stands_pane : paneID v = Store.PaneID record;
  stands_window : windowLabel v = Store.WindowLabel record;
  stands_cwd : cwd v = Store.CWD record;
  stands_command : Session.command v = Store.Command record;
  stands_size : cols v = Store.Cols record /\ rows v = Store.Rows record;
  stands_environment : environment v = Store.Environment record;
  stands_ring : ring_ok (continued hist kept) (ring v);
  stands_written : written v = zlen (continued hist kept);
  stands_live : hasStore v = true /\ closed v = false;
  stands_retained : zlen kept <= zlen (OutputRing.bytes (ring v));
  stands_fed : feed v = Some (mkStoreFeed
    (if mid_line kept then [mkChunk shellBoundary (zlen (continued hist kept))] else [])
    (if mid_line kept then 2 else 0) false)
}.

(** ** One session *)

Section one.
Context `{PtyContractLaws} `{PlatformLaws}.
Context (explain : io_error -> string) (not_started stopping : string).

Lemma last_bytes_suffix n l : exists pre, l = pre ++ last_bytes n l.
Proof.
  unfold last_bytes. destruct (n <=? 0); [exists l; by rewrite app_nil_r|].
  destruct (n <? zlen l); [|by exists []]. exists (slice_to (zlen l - n) l). symmetry. apply take_drop.
Qed.

Lemma zlen_last_bytes n l : 0 <= n -> zlen (last_bytes n l) = Z.min n (zlen l).
Proof.
  intros Hn. unfold last_bytes. pose proof (zlen_nonneg l).
  destruct (Z.leb_spec n 0); [rewrite zlen_nil; lia|]. destruct (Z.ltb_spec n (zlen l)); [|lia].
  rewrite zlen_slice_from; lia.
Qed.

Lemma restored_capacity data through r : OutputRing.capacity (OutputRing.restore data through r) = OutputRing.capacity r.
Proof.
  unfold OutputRing.restore, trimLocked. cbv zeta. destruct (trim_loop _ _ _ _) as [held target]. cbn.
  by destruct (_ <? target).
Qed.

Lemma trim_empty r : leases r = ∅ -> leases (trimLocked r) = ∅.
Proof.
  intros Hl. unfold trimLocked. cbv zeta. unfold lease_keys. rewrite Hl, map_to_list_empty. cbn.
  by destruct (_ <? _).
Qed.

Lemma restored_leases data through : leases (OutputRing.restore data through (newRing HighWatermark)) = ∅.
Proof. by apply trim_empty. Qed.

(** A write to a ring that no lease holds back keeps what it held, up to the window. *)
Lemma write_retains data r k : coords_ok r -> leases r = ∅ -> k <= OutputRing.capacity r ->
  OutputRing.floor r + zlen (OutputRing.bytes r) + zlen data < two64 -> k <= zlen (OutputRing.bytes r) ->
  k <= zlen (OutputRing.bytes (fst (OutputRing.write data r))).
Proof.
  intros Hc Hl Hk H64 Hb. set (r1 := r <| OutputRing.bytes := OutputRing.bytes r ++ data |>).
  assert (Hc1 : coords_ok r1).
  { destruct Hc as [C1 C2 C3 C4]. constructor; cbn; try done; [zsolve|]. intros token l. rewrite Hl. by intros ?%lookup_empty_Some. }
  change (OutputRing.bytes (fst (OutputRing.write data r))) with (OutputRing.bytes (trimLocked r1)).
  pose proof (trimLocked_result r1 Hc1) as Ht. pose proof (trim_no_leases r1 Hc1 Hl) as Hf.
  pose proof (trim_forward _ _ Ht). pose proof (floor_nonneg _ Hc). rewrite (trim_bytes _ _ Ht), zlen_slice_from by lia. rewrite Hf.
  unfold window, r1 in *. cbn in *. pose proof (zlen_nonneg data). rewrite zlen_app in *.
  destruct (Z.ltb_spec (OutputRing.capacity r) (OutputRing.floor r + (zlen (OutputRing.bytes r) + zlen data))); lia.
Qed.

Lemma new_capacity : OutputRing.capacity (newRing HighWatermark) = HighWatermark.
Proof. pose proof high_watermark_size. unfold newRing. cbn. by destruct (Z.leb_spec HighWatermark 0); [lia|]. Qed.

Lemma restored_stands sid record hist start now gen :
  0 <= start <= zlen hist -> is_u64 (zlen hist + 2) ->
  let kept := last_bytes HighWatermark (slice_from start hist) in
  let '(v, reported) := restored_session sid record kept (zlen hist) now gen in
  stands sid record hist kept v /\ reported = [].
Proof.
  intros Hstart H64 kept. pose proof high_watermark_size as Hhw.
  assert (Hsuf : exists pre, hist = pre ++ kept).
  { destruct (last_bytes_suffix HighWatermark (slice_from start hist)) as [pre Hpre].
    exists (slice_to start hist ++ pre). rewrite <- app_assoc. fold kept in Hpre. rewrite <- Hpre.
    symmetry. apply take_drop. }
  destruct Hsuf as [pre Hpre].
  assert (Hz : zlen hist = zlen pre + zlen kept) by (rewrite Hpre at 1; apply zlen_app).
  pose proof (zlen_nonneg pre). pose proof (zlen_nonneg kept). unfold is_u64 in H64.
  destruct (restored_ring HighWatermark pre kept (zlen hist)) as (Hok & Hlive & Hlen); [lia..|].
  rewrite <- Hpre in Hok. rewrite restored_capacity, new_capacity in Hlen.
  assert (Hkept : zlen kept <= HighWatermark) by (unfold kept; rewrite zlen_last_bytes; lia).
  set (r := OutputRing.restore kept (zlen hist) (newRing HighWatermark)) in *.
  unfold restored_session. change (ring (newSession _ _ _ _ _ _ _ _ _ _ _ _)) with (newRing HighWatermark). fold r.
  unfold snapshot. assert (Hr2 : live r = zlen hist) by (by apply ring_ok_live).
  unfold continued. destruct (mid_line kept) eqn:Em.
  - pose proof (write_ok hist shellBoundary r Hok) as Hw. assert (Hb : zlen shellBoundary = 2) by done.
    destruct Hw as [Hok' Hnext]; [zsolve|].
    assert (Hretained : zlen kept <= zlen (OutputRing.bytes (fst (OutputRing.write shellBoundary r)))).
    { apply write_retains; [apply Hok|apply restored_leases|unfold r; rewrite restored_capacity, new_capacity; lia| |lia].
      destruct Hok as [_ [Hrep _]]. rewrite Hb. lia. }
    destruct (OutputRing.write shellBoundary r) as [r' next_at]. cbn [fst snd] in *. subst next_at.
    unfold offer. cbn [StoreFeed.closed newStoreFeed queued]. rewrite Hb.
    change (feedDepth <? 0 + 2) with false. split; [|done]. constructor; try done; cbn.
    + unfold continued. by rewrite Em.
    + unfold continued. by rewrite Em.
    + unfold continued. by rewrite Em.
  - split; [|done]. constructor; unfold continued; rewrite ?Em, ?app_nil_r; cbn; try done. lia.
Qed.

Lemma clear_triple (C : files -> Prop) id hist r start d0 o0 : stored id hist r start d0 ->
  (forall d, stored id hist r start d \/ stored id hist (unmarked r) start d -> C d) ->
  triple true C (fun d o => d = d0 /\ o = o0) (clearStopMark id)
    (fun a d o => a = inr tt /\ o = o0 /\ stored id hist (unmarked r) start d).
Proof.
  intros Hst HC. eapply triple_conseq; [apply (update_triple true C id hist r start unmarked d0 o0 Hst); try done|done|].
  intros a d o (-> & Hok & Hl & _). split_and!; [by apply Hl|done|by apply Hok, Hl].
Qed.

(** Restoring a session whose files hold its output. *)
Lemma restoreOne_triple (C : files -> Prop) id hist r start now reg d0 :
  stored id hist r start d0 -> is_u64 (zlen hist + 2) -> stopped reg = false ->
  (forall d, stored id hist r start d \/ stored id hist (unmarked r) start d -> C d) ->
  triple true C (fun d o => d = d0 /\ o = ∅)
    (restoreOne explain not_started stopping true now id reg)
    (fun a d o => exists reg' acts v,
       a = inr (reg', outcome_of id (verdict r (zlen hist)) "", acts) /\
       sessions reg' = <[id := v]> (sessions reg) /\ outcomes reg' = outcomes reg /\
       stands id r hist (last_bytes HighWatermark (slice_from start hist)) v /\
       o = ∅ /\ stored id hist (unmarked r) start d).
Proof.
  intros Hst H64 Hns HC. unfold restoreOne. assert (H64' : is_u64 (zlen hist)) by zsolve.
  pose proof (record_bounds _ _ _ _ _ Hst) as Hb.
  apply (triple_bind _ _ _ _ _ (fun a d o => d = d0 /\ o = ∅ /\ a = inr (inr r))).
  { apply triple_attempt. eapply triple_conseq; [by apply (read_triple true C id hist r start d0 ∅)|done|].
    intros [e|x] d o (-> & -> & Hx); by subst. }
  2:{ by intros e d o (_ & _ & ?). }
  intros x. apply triple_state. intros d o (-> & -> & [= ->]).
  apply (triple_bind _ _ _ _ _ (fun a d o => d = d0 /\ o = ∅ /\
    a = inr (inr (last_bytes HighWatermark (slice_from start hist), zlen hist)))).
  { apply triple_attempt. eapply triple_conseq; [apply (output_triple true C id hist r start HighWatermark d0 ∅ Hst)|done|];
      [by unfold writer_ok; rewrite lookup_empty|done|].
    intros [e|y] d o (-> & -> & Hy); [done|by subst]. }
  2:{ by intros e d o (_ & _ & ?). }
  intros y. apply triple_state. intros d o (-> & -> & [= ->]). cbv zeta. cbn [negb]. rewrite Hns.
  pose proof (restored_stands id r hist start now (regGeneration reg +64 1) ltac:(lia) H64) as Hv.
  cbn zeta in Hv. change (regGeneration (reg <| regGeneration := regGeneration reg +64 1 |>)) with (regGeneration reg +64 1).
  destruct (restored_session _ _ _ _ _ _) as [v reported]. destruct Hv as [Hv ->].
  apply (triple_bind _ _ _ _ _ (fun a d o => o = ∅ /\ stored id hist (unmarked r) start d /\ match a with inr _ => True | inl _ => False end)).
  { apply triple_attempt. eapply triple_conseq; [apply (clear_triple C id hist r start d0 ∅ Hst HC)|done|].
    by intros a d1 o1 (-> & -> & ?). }
  2:{ by intros e d1 o1 (_ & _ & ?). }
  intros _. apply triple_ret. intros d1 o1 (-> & Hst1 & _). by eexists _, _, v.
Qed.

(** How the previous process ended.  A stop marks the record with the output that the shell
    had printed and only then drains the feed: [drained] are the chunks that still reached the
    store, [lost] is what did not in time. *)
Inductive ending := Crashed | Stopped (drained : list octets) (lost : octets).

Definition drained_of (e : ending) : list octets := match e with Crashed => [] | Stopped drained _ => drained end.

Definition lost_of (e : ending) : octets := match e with Crashed => [] | Stopped _ lost => lost end.

(** A session is restored in full from a stop that lost nothing. *)
Definition kind_of (e : ending) : outcome_kind := match e with Stopped _ [] => SessionFull | _ => SessionDegraded end.

(** The life of a session's files in the previous process: its output stored chunk by chunk,
    and the stop, in the order of [shutdown], if it stopped. *)
Definition previous_life (e : ending) (sid : Z) (chunks : list octets) (at_ : Z) (code : option Z) : io unit :=
  appends sid 0 chunks;;;
  match e with
  | Crashed => ret tt
  | Stopped drained lost =>
      markEnded sid at_ code (zlen (concat (chunks ++ drained) ++ lost));;;
      appends sid (zlen (concat chunks)) drained
  end.

(** The facts a session is made of. *)
Definition facts (r : sessionRecord) :=
  (Store.PaneID r, Store.WindowLabel r, Store.CWD r, Store.Command r, (Store.Cols r, Store.Rows r), Store.Environment r).

Lemma same_facts_self r : same_facts r r.
Proof. by destruct r. Qed.

Lemma same_facts_unmarked record r : unmarked record = record -> same_facts record r ->
  same_facts record (unmarked r) /\ facts r = facts record.
Proof. unfold same_facts. intros Hun Hf. rewrite Hf. split; [|done]. rewrite <- Hun at 2. done. Qed.

Lemma same_facts_ended record r at_ code through r2 : unmarked record = record -> same_facts record r ->
  same_facts (ended r at_ code through) r2 ->
  same_facts record (unmarked r2) /\ facts r2 = facts record /\ EndedAtUnixMs r2 = Some at_ /\ EndedThrough r2 = through.
Proof. unfold same_facts. intros Hun Hf Hf2. rewrite Hf2, Hf. split; [|done]. rewrite <- Hun at 2. done. Qed.

Lemma previous_life_triple e sid record chunks at_ code w :
  newborn sid record w -> unmarked record = record ->
  Forall (fun chunk => zlen chunk <= outputSegmentBound) (chunks ++ drained_of e) ->
  is_u64 (zlen (concat (chunks ++ drained_of e) ++ lost_of e)) ->
  let hist := concat (chunks ++ drained_of e) in
  triple true (fun _ => True) (fun d o => d = fs w /\ o = open w) (previous_life e sid chunks at_ code)
    (fun a d o => a = inr tt /\ exists r start, same_facts record (unmarked r) /\
      stored sid hist r start d /\ retention (zlen hist) hist r start /\
      verdict r (zlen hist) = kind_of e /\ facts r = facts record).
Proof.
  intros Hborn Hun Hfit H64 hist. pose proof (newborn_stored _ _ _ Hborn) as Hst0.
  assert (Ho : writer_ok sid [] record (open w)).
  { unfold writer_ok. by destruct Hborn as (_ & _ & _ & _ & _ & _ & ->). }
  assert (Hret : retention 0 [] record 0).
  { destruct Hborn as (_ & _ & _ & Hw & _). unfold retention, outputSegmentBound, zlen. cbn [length]. lia. }
  apply Forall_app in Hfit as [Hfit Hfit2]. unfold hist in *. rewrite !concat_app, !zlen_app in H64.
  pose proof (zlen_nonneg (concat chunks)). pose proof (zlen_nonneg (concat (drained_of e))). pose proof (zlen_nonneg (lost_of e)).
  unfold previous_life. eapply triple_bind;
    [apply (appends_triple (fun _ => True) sid record chunks [] record 0 (fs w) (open w)); try done;
      first [apply same_facts_self|cbn [app]; unfold is_u64 in *; lia]| |by intros f d o [? _]].
  intros []. apply triple_state. intros d o (_ & r & start & Hf & Hst & Hr & Hwo). cbn [app] in *.
  destruct e as [|drained lost]; cbn [drained_of lost_of kind_of] in *.
  - rewrite app_nil_r. destruct (same_facts_unmarked record r Hun Hf) as [Hf1 Hf2].
    apply triple_ret. intros d1 o1 [-> ->]. split; [done|]. exists r, start. split_and!; [done|done|done| |done].
    unfold verdict. replace (EndedAtUnixMs r) with (EndedAtUnixMs record); [by rewrite <- Hun|].
    unfold same_facts in Hf. by rewrite Hf.
  - set (through := zlen (concat (chunks ++ drained) ++ lost)).
    eapply triple_bind; [apply (markEnded_triple true (fun _ => True) sid (concat chunks) r start at_ code through d o Hst Hwo); done| |].
    2:{ intros f d1 o1 (_ & _ & Hl & _). by specialize (Hl eq_refl). }
    intros []. apply triple_state. intros d1 o1 (-> & Hok & _). specialize (Hok eq_refl).
    eapply triple_conseq; [apply (appends_triple (fun _ => True) sid (ended r at_ code through) drained (concat chunks)
      (ended r at_ code through) start d1 o); try done; first [apply same_facts_self|rewrite zlen_app; unfold is_u64 in *; lia]|done|].
    intros a d2 o2 (-> & r2 & start2 & Hf2 & Hst2 & Hr2 & _). rewrite <- concat_app in Hst2, Hr2. split; [done|].
    destruct (same_facts_ended record r at_ code through r2 Hun Hf Hf2) as (F1 & F2 & F3 & F4).
    exists r2, start2. split_and!; [done|done|done| |done]. unfold verdict. rewrite F3, F4. unfold through. rewrite zlen_app.
    destruct lost as [|x lost]; [by rewrite zlen_nil, Z.add_0_r, Z.leb_refl|]. rewrite zlen_cons.
    pose proof (zlen_nonneg lost). by replace (_ <=? _) with false by lia.
Qed.

(** A restart stands a session up again: from what the previous process stored, a restore
    answers full after a stop that lost nothing - although the stop marks the record before
    the rest of the output reaches the store - and degraded after a stop that lost some or a
    crash, and the session it registers has the record's facts under the same id and its
    ring holds the end of the output at exactly the coordinate it had, a line break behind it
    where it ended in a line; the record it leaves states no end, so that it reads as a crash
    from here on. *)
Theorem restart_stands_the_session_up e sid record chunks at_ code now w reg :
  newborn sid record w -> unmarked record = record -> fates w = [] ->
  Forall (fun chunk => zlen chunk <= outputSegmentBound) (chunks ++ drained_of e) ->
  is_u64 (zlen (concat (chunks ++ drained_of e) ++ lost_of e) + 2) -> stopped reg = false ->
  let hist := concat (chunks ++ drained_of e) in
  let '(w1, before) := previous_life e sid chunks at_ code w in
  let '(w2, answer) := restoreOne explain not_started stopping true now sid reg (restarted w1) in
  before = inr tt /\ exists reg' acts v start,
    answer = inr (reg', outcome_of sid (kind_of e) "", acts) /\
    sessions reg' = <[sid := v]> (sessions reg) /\
    stands sid record hist (last_bytes HighWatermark (slice_from start hist)) v /\
    (start = 0 \/ 0 < start /\ outputSegmentBound < zlen hist - start) /\
    exists r, record_after_crash (fs w2) sid = inr r /\ same_facts record r.
Proof.
  intros Hborn Hun Hfates Hfit H64 Hns hist.
  assert (H64' : is_u64 (zlen (concat (chunks ++ drained_of e) ++ lost_of e))) by (unfold is_u64 in *; pose proof (zlen_nonneg (concat (chunks ++ drained_of e) ++ lost_of e)); lia).
  assert (H64h : is_u64 (zlen hist + 2)).
  { unfold hist, is_u64 in *. rewrite zlen_app in H64. pose proof (zlen_nonneg (concat (chunks ++ drained_of e))). pose proof (zlen_nonneg (lost_of e)). lia. }
  pose proof (previous_life_triple e sid record chunks at_ code w Hborn Hun Hfit H64') as Hlife. fold hist in Hlife.
  pose proof (outcome true _ _ _ _ w Hlife ltac:(done) ltac:(done)) as (Hb & r & start & Hf & Hst & Hret & Hv & Hfacts).
  assert (Hf1 : fates (fst (previous_life e sid chunks at_ code w)) = []).
  { pose proof (Hlife w ltac:(done) ltac:(done)) as Hrun. destruct (previous_life e sid chunks at_ code w) as [w1 b]. by apply Hrun. }
  destruct (previous_life e sid chunks at_ code w) as [w1 before]. cbn [fst snd] in *.
  pose proof (outcome true _ _ _ _ (restarted w1) (restoreOne_triple (fun _ => True) sid hist r start now reg (fs w1) Hst H64h Hns ltac:(done))
    ltac:(done) ltac:(done)) as (reg' & acts & v & Ha & Hs & _ & Hstand & _ & Hst2).
  destruct (restoreOne _ _ _ _ _ _ _ _) as [w2 answer]. cbn [fst snd] in *. split; [done|].
  exists reg', acts, v, start. rewrite Hv in Ha. pose proof (record_bounds _ _ _ _ _ Hst).
  split_and!; [done|done| | |].
  - injection Hfacts as E1 E2 E3 E4 E5 E6 E7. destruct Hstand as [S1 S2 S3 S4 S5 S6 S7 S8 S9 S10 S11 S12].
    rewrite E1 in S2. rewrite E2 in S3. rewrite E3 in S4. rewrite E4 in S5. rewrite E5, E6 in S6. rewrite E7 in S7.
    by constructor.
  - destruct Hret as [[?|?] _]; [by left|]. destruct (decide (start = 0)); [by left|right; lia].
  - exists (unmarked r). split; [|done]. rewrite <- (record_own _ _ _ _ _ Hst2). apply record_read.
    rewrite (record_own _ _ _ _ _ Hst2). apply Hst2.
Qed.

End one.

(** ** Every record *)

(** A file the store goes by, as opposed to one it has staged. *)
Definition store_name (n : string) : Prop :=
  exists sid, n = recordPath sid \/ n = segmentPath sid 0 \/ n = segmentPath sid 1.

(** Files that may differ: the record of [sid]. *)
Definition touches_only (sid : Z) (d0 d : files) : Prop :=
  forall n, store_name n -> n <> recordPath sid -> d !! n = d0 !! n.

(** The registry of a daemon that starts, its store attached. *)
Abbreviation opening_registry shell_ after seedGeneration seedNext :=
  ((newRegistry shell_ after seedGeneration seedNext) <| store := true |>).

Section every.
Context `{PtyContractLaws} `{PlatformLaws}.
Context (explain : io_error -> string) (not_started stopping : string).

Lemma staged_no_name a d n : store_name n -> n <> stagedPath a d.
Proof.
  intros [sid [->|[->| ->]]] E; symmetry in E; [by apply staged_not_record in E|..];
    apply staged_not_segment in E; unfold two_segments; auto.
Qed.

(** A record that can be read. *)
Definition names_pane (d : files) (sid : Z) (pane : string) : Prop :=
  exists r, record_after_crash d sid = inr r /\ Store.PaneID r = pane.

(** No record of [d] names a pane that it did not name in [d0]. *)
Definition panes_of (d0 d : files) : Prop := forall sid pane, names_pane d sid pane -> names_pane d0 sid pane.

Lemma read_any C sid d0 o0 :
  triple false C (fun d o => d = d0 /\ o = o0) (Store.read sid)
    (fun a d o => d = d0 /\ o = o0 /\
       match a with inr r => record_after_crash d0 sid = inr r /\ Store.Session r = sid | inl _ => True end).
Proof.
  unfold Store.read. apply (triple_bind _ _ _ _ _ (fun a d o => d = d0 /\ o = o0 /\
    match a with inr body => d0 !! recordPath sid = Some body | inl _ => True end)).
  - apply triple_look; [|by intros _ d o [-> ->]]. intros d o [-> ->]. by destruct (d0 !! recordPath sid).
  - intros body. destruct (Unmarshal body) as [r|] eqn:Er; [|apply triple_fail; by intros d o (-> & -> & _)].
    destruct (Z.eqb_spec (Store.Session r) sid) as [Es|]; [apply triple_ret|apply triple_fail; by intros d o (-> & -> & _)].
    intros d o (-> & -> & Hd). split_and!; [done|done| |done].
    unfold record_after_crash, Store.read, bind, sys_read, look. cbn. by rewrite Hd, Er, (proj2 (Z.eqb_eq _ _) Es).
  - by intros e d o (-> & -> & _).
Qed.

Lemma clear_touches sid d0 o0 :
  triple false (fun _ => True) (fun d o => d = d0 /\ o = o0) (clearStopMark sid)
    (fun a d o => touches_only sid d0 d /\ panes_of d0 d).
Proof.
  unfold clearStopMark. eapply triple_bind; [apply read_any| |intros e d o (-> & -> & _); split; [done|by intros s pane]].
  intros r. apply triple_state. intros d o (-> & -> & Hread & Hid). fold (unmarked r).
  eapply triple_conseq; [apply (publish_triple false (fun _ => True) d0 o0 (unmarked r)); [done|apply staged_free]|done|].
  intros a d o (_ & [Hframe Hrec] & _). change (Store.Session (unmarked r)) with (Store.Session r) in *. split.
  - intros n Hn Hne. apply Hframe; [|by apply staged_no_name]. by rewrite Hid.
  - intros s pane (r1 & Hr1 & <-). destruct (decide (s = sid)) as [->|Hne].
    + exists r. split; [done|]. rewrite Hid in Hrec. destruct Hrec as [Hold|Hnew].
      * rewrite (record_read_same d0 d sid Hold) in Hr1. congruence.
      * pose proof (record_read d (unmarked r)) as Hnew'. change (Store.Session (unmarked r)) with (Store.Session r) in Hnew'.
        rewrite Hid in Hnew'. rewrite (Hnew' Hnew) in Hr1. by injection Hr1 as <-.
    + exists r1. split; [|done]. rewrite <- Hr1. symmetry. apply record_read_same, Hframe.
      * rewrite Hid. intros E%recordPath_inj. done.
      * intros E. symmetry in E. by apply staged_not_record in E.
Qed.

Lemma session_file_name sid n : n ∈ session_files sid -> store_name n.
Proof.
  unfold session_files. rewrite !elem_of_cons. intros Hn. exists sid.
  destruct Hn as [->|[->|[->|Hn]]]; auto. by apply not_elem_of_nil in Hn.
Qed.

Lemma file_of_session a b n : n ∈ session_files b -> n = recordPath a -> a = b.
Proof.
  unfold session_files. rewrite !elem_of_cons. intros Hn ->.
  destruct Hn as [E|[E|[E|Hn]]]; [symmetry in E; apply segment_not_record in E; unfold two_segments; auto; done..| |by apply not_elem_of_nil in Hn].
  by apply recordPath_inj.
Qed.

(** What restoring one record may come to. *)
Definition one_restored (sid : Z) (reg reg' : registry) (outcome : restoreOutcome) (d0 d : files) : Prop :=
  OutcomeSession outcome = sessionText sid /\ outcomes reg' = outcomes reg /\ store reg' = store reg /\
  touches_only sid d0 d /\
  ((Outcome outcome = SessionFailed /\ reg' = reg /\ d = d0) \/
   (Outcome outcome <> SessionFailed /\ exists v, id v = sid /\ sessions reg' = <[sid := v]> (sessions reg))).

(** A session that was there before or that the record of its id made. *)
Definition from_records (d0 : files) (reg reg' : registry) : Prop :=
  next reg' = next reg /\ forall sid v, sessions reg' !! sid = Some v ->
    sessions reg !! sid = Some v \/ id v = sid /\ names_pane d0 sid (paneID v).

Lemma restored_id sid record output through now gen :
  let v := fst (restored_session sid record output through now gen) in id v = sid /\ paneID v = Store.PaneID record.
Proof.
  unfold restored_session, snapshot. destruct (mid_line output); [|done].
  destruct (OutputRing.write _ _) as [r n]. by destruct (offer _ _ _) as [f rs].
Qed.

Lemma one_failed sid reg reason d0 : one_restored sid reg reg (outcome_of sid SessionFailed reason) d0 d0 /\
  panes_of d0 d0 /\ from_records d0 reg reg.
Proof.
  split; [split_and!; try done; by left|]. split; [by intros s pane|]. split; [done|]. by left.
Qed.

Lemma restoreOne_any started now sid reg d0 :
  triple false (fun _ => True) (fun d o => d = d0)
    (restoreOne explain not_started stopping started now sid reg)
    (fun a d o => exists reg' outcome acts, a = inr (reg', outcome, acts) /\
       one_restored sid reg reg' outcome d0 d /\ panes_of d0 d /\ from_records d0 reg reg').
Proof.
  assert (Hret : forall reason (acts : list restore_action), triple false (fun _ => True) (fun d o => d = d0)
    (ret (reg, outcome_of sid SessionFailed reason, acts))
    (fun a d o => exists reg' outcome acts, a = inr (reg', outcome, acts) /\
       one_restored sid reg reg' outcome d0 d /\ panes_of d0 d /\ from_records d0 reg reg')).
  { intros reason acts. apply triple_ret. intros d o ->. eexists _, _, _. split; [done|]. apply one_failed. }
  unfold restoreOne. apply (triple_bind _ _ _ _ _ (fun a d o => d = d0 /\
    match a with inr (inr r) => record_after_crash d0 sid = inr r | inr (inl _) => True | inl _ => False end)).
  { apply triple_attempt, triple_state. intros d o ->. eapply triple_conseq; [apply (read_any _ sid d0 o)|done|].
    intros [e|r] d1 o1 (-> & _ & Hr); [done|]. by destruct Hr. }
  2:{ by intros e d o [_ ?]. }
  intros found. apply triple_state. intros d o [-> Hrecord].
  apply (triple_pre _ _ (fun d _ => d = d0)); [|by intros ? ? [-> _]].
  destruct found as [e|record]; [apply Hret|].
  eapply triple_bind; [apply attempt_quiet, quiet_output| |by intros e d1 o1 [_ [? ?]]].
  intros held. apply (triple_pre _ _ (fun d _ => d = d0)); [|by intros ? ? [-> _]].
  destruct held as [e|[output through]]; [apply Hret|]. cbv zeta.
  destruct started; cbn [negb]; [|apply Hret]. destruct (stopped reg); [apply Hret|].
  set (gen := regGeneration (reg <| regGeneration := regGeneration reg +64 1 |>)).
  pose proof (restored_id sid record output through now gen) as Hid.
  destruct (restored_session sid record output through now gen) as [v reported]. cbn [fst] in Hid. destruct Hid as [Hid Hpane].
  apply (triple_bind _ _ _ _ _ (fun a d o => (touches_only sid d0 d /\ panes_of d0 d) /\ exists x, a = inr x)).
  - apply triple_attempt. apply triple_state. intros d1 o1 ->.
    eapply triple_conseq; [apply (clear_touches sid d0 o1)|done|]. intros a d2 o2 Ht. split; [done|by eexists].
  - intros x. apply triple_ret. intros d2 o2 [[Ht Hp] _]. eexists _, _, _. split; [done|]. split_and!; try done.
    + split_and!; try done. right. split; [unfold verdict; cbn; by destruct (EndedAtUnixMs record); [destruct (_ <=? _)|]|]. by exists v.
    + split; [done|]. cbn. intros s w [[<- <-]|[_ Hw]]%lookup_insert_Some; [right|by left]. split; [done|]. by exists record.
  - by intros e d2 o2 [_ [? ?]].
Qed.

(** A walk over the records makes the sessions they name, whatever the directory lists. *)
Lemma restore_each_panes starts now ids : forall reg d0,
  triple false (fun _ => True) (fun d o => d = d0)
    (restore_each explain not_started stopping starts now ids reg)
    (fun a d o => exists reg' all acts, a = inr (reg', all, acts) /\ from_records d0 reg reg').
Proof.
  induction ids as [|sid ids IH]; intros reg d0.
  - apply triple_ret. intros d o ->. eexists _, _, _. split; [done|]. split; [done|]. by left.
  - cbn [restore_each]. eapply triple_bind; [apply restoreOne_any| |by intros e d o (? & ? & ? & ? & _)].
    intros [[reg1 outcome] acts1]. apply triple_state. intros d1 o1 (? & ? & ? & [= <- <- <-] & _ & Hp & Hn1 & Hs1).
    eapply triple_bind; [eapply triple_conseq; [apply (IH (recordOutcome sid outcome reg1) d1)|by intros ? ? [-> _]|]| |].
    { intros a d o Ha. exact Ha. }
    2:{ by intros e d o (? & ? & ? & ? & _). }
    intros [[reg2 others] more]. apply triple_ret. intros d o (? & ? & ? & [= <- <- <-] & Hn2 & Hs2).
    eexists _, _, _. split; [done|]. split; [by rewrite Hn2|]. intros s v [Hv|[Hid Hv]]%Hs2; [by apply Hs1|].
    right. split; [done|by apply Hp].
Qed.

(** What a walk over the records comes to: one outcome each, and what each left. *)
Lemma restore_each_any starts now ids : forall reg d0, NoDup ids ->
  triple false (fun _ => True) (fun d o => d = d0)
    (restore_each explain not_started stopping starts now ids reg)
    (fun a d o => exists reg' all acts, a = inr (reg', all, acts) /\
       map OutcomeSession all = map sessionText ids /\ store reg' = store reg /\
       (forall n, store_name n -> (forall sid, sid ∈ ids -> n <> recordPath sid) -> d !! n = d0 !! n) /\
       (forall sid, sid ∉ ids -> outcomes reg' !! sid = outcomes reg !! sid /\ sessions reg' !! sid = sessions reg !! sid) /\
       forall sid, sid ∈ ids -> exists o, o ∈ all /\ outcomes reg' !! sid = Some o /\ OutcomeSession o = sessionText sid /\
         (Outcome o <> SessionFailed -> is_Some (sessions reg' !! sid)) /\
         (Outcome o = SessionFailed -> sessions reg' !! sid = sessions reg !! sid /\
            forall n, n ∈ session_files sid -> d !! n = d0 !! n)).
Proof.
  induction ids as [|sid ids IH]; intros reg d0 Hnd.
  - apply triple_ret. intros d o ->. eexists _, _, _. split; [done|]. split_and!; try done. by intros sid ?%elem_of_nil.
  - apply NoDup_cons in Hnd as [Hnin Hnd]. cbn [restore_each].
    eapply triple_bind; [apply restoreOne_any| |by intros e d o (? & ? & ? & ? & _)].
    intros [[reg1 outcome] acts1]. apply triple_state. intros d1 o1 (? & ? & ? & [= <- <- <-] & Hone & _).
    eapply triple_bind; [eapply triple_conseq; [apply (IH (recordOutcome sid outcome reg1) d1 Hnd)|by intros ? ? [-> _]|]| |].
    { intros a d o Ha. exact Ha. }
    2:{ by intros e d o (? & ? & ? & ? & _). }
    intros [[reg2 others] more]. apply triple_ret. intros d o (? & ? & ? & [= <- <- <-] & Hmap & Hst & Hfr & Hout & Hin).
    eexists _, _, _. split; [done|]. destruct Hone as (Ho1 & Ho2 & Ho3 & Ho4 & Ho5).
    destruct (Hout sid Hnin) as [Hout1 Hout2]. cbn in Hout1, Hout2. rewrite lookup_insert_eq in Hout1.
    split_and!.
    + cbn. by rewrite Ho1, Hmap.
    + by rewrite Hst.
    + intros n Hn Hne. rewrite Hfr; [|done|intros s Hs; apply Hne; by right]. apply Ho4; [done|]. apply Hne. by left.
    + intros s [Hne Hs]%not_elem_of_cons. destruct (Hout s Hs) as [-> ->]. cbn. rewrite lookup_insert_ne by done.
      rewrite Ho2. split; [done|]. destruct Ho5 as [(_ & -> & _)|(_ & v & _ & ->)]; [done|by rewrite lookup_insert_ne].
    + intros s [->|Hs]%elem_of_cons.
      * exists outcome. split_and!; [by left|done|done| |].
        -- intros Hnf. rewrite Hout2. destruct Ho5 as [(? & _ & _)|(_ & v & _ & ->)]; [done|]. by rewrite lookup_insert_eq.
        -- intros Hf. rewrite Hout2. destruct Ho5 as [(_ & -> & ->)|[? _]]; [|done]. split; [done|].
           intros n Hn. apply Hfr; [by apply session_file_name in Hn|]. intros s Hs E.
           assert (s = sid) as ->; [|done]. by eapply file_of_session.
      * destruct (Hin s Hs) as (o' & Hm & G1 & G2 & G3 & G4). exists o'. split_and!; [by right|done|done|done|].
        intros Hf. destruct (G4 Hf) as [G5 G6]. cbn in G5. assert (Hne : s <> sid) by (by intros ->). split.
        -- rewrite G5. destruct Ho5 as [(_ & -> & _)|(_ & v & _ & ->)]; [done|by rewrite lookup_insert_ne].
        -- intros n Hn. rewrite G6 by done. apply Ho4; [by apply session_file_name in Hn|].
           intros E. apply Hne. symmetry. by eapply file_of_session.
Qed.

Lemma restore_each_answers starts now ids : forall reg w,
  exists r, snd (restore_each explain not_started stopping starts now ids reg w) = inr r.
Proof.
  induction ids as [|sid ids IH]; intros reg w; [by eexists|]. cbn [restore_each]. unfold bind at 1.
  pose proof (outcome false (fun _ => True) _ _ _ w (restoreOne_any (starts sid) now sid reg (fs w)) ltac:(done) ltac:(done))
    as (reg1 & o & acts & Ha & _).
  destruct (restoreOne _ _ _ _ _ _ _ _) as [w1 a]. cbn [snd] in Ha. subst a. unfold bind.
  destruct (IH (recordOutcome sid o reg1) w1) as [r Hr].
  destruct (restore_each _ _ _ _ _ _ _ _) as [w2 a]. cbn [snd] in Hr. subst a. destruct r as [[reg2 others] more].
  by eexists.
Qed.

(** C16: a start accounts for every record it lists, whichever calls on the store fail: each
    listed session has an outcome under its own name, one that did not fail stands in the
    registry, and one that failed keeps its record and its output as they were; the report
    is final exactly when the store could be listed. *)
Theorem start_accounts_for_every_record starts now reg w :
  store reg = true ->
  let '(w', answer) := restore explain not_started stopping starts now reg w in
  exists reg' all acts, answer = inr (reg', all, acts) /\
    match snd (list_ids w) with
    | inl _ => reg' = reg /\ all = [] /\ fs w' = fs w
    | inr ids => NoDup ids ->
        readStore reg' = true /\ map OutcomeSession all = map sessionText ids /\
        forall sid, sid ∈ ids -> exists o, o ∈ all /\ outcomes reg' !! sid = Some o /\
          OutcomeSession o = sessionText sid /\
          (Outcome o <> SessionFailed -> is_Some (sessions reg' !! sid)) /\
          (Outcome o = SessionFailed -> sessions reg' !! sid = sessions reg !! sid /\
             forall n, n ∈ session_files sid -> fs w' !! n = fs w !! n)
    end.
Proof.
  intros Hstore. unfold restore. rewrite Hstore. cbn [negb]. unfold bind at 1, attempt.
  assert (Hq : quiet list_ids).
  { apply quiet_bind; [apply quiet_look|]. intros names. apply quiet_ret. }
  pose proof (outcome false (fun _ => True) _ _ _ w (Hq false (fs w)) ltac:(done) ltac:(done)) as Hfs.
  destruct (list_ids w) as [w1 [e|ids]]; cbn [fst snd] in *.
  - eexists _, _, _. by split_and!.
  - unfold bind at 1. rewrite <- Hfs. destruct (decide (NoDup ids)) as [Hnd|Hnd].
    + pose proof (outcome false (fun _ => True) _ _ _ w1 (restore_each_any starts now ids reg (fs w1) Hnd) ltac:(done) ltac:(done))
        as (reg' & all & acts & Ha & Hmap & _ & _ & _ & Hin).
      destruct (restore_each _ _ _ _ _ _ _ _) as [w2 a]. cbn [fst snd] in *. subst a.
      eexists _, _, _. split; [done|]. intros _. split_and!; [done|done|]. exact Hin.
    + pose proof (restore_each_answers starts now ids reg w1) as Hsome.
      destruct (restore_each _ _ _ _ _ _ _ _) as [w2 a]. cbn [snd] in Hsome. destruct Hsome as [[[reg' all] acts] ->].
      by eexists _, _, _.
Qed.

(** C11: from the start of a daemon on, whatever calls of the restore fail, and whatever is
    then opened, closed, swept or stopped while requests are answered one at a time, every
    session is filed under its own id, and two sessions of one named pane are two that the
    store had records of, both naming that pane: the restore stands up every record, and
    nothing else gives a pane a second session. *)
Theorem one_session_per_pane starts now shell_ after seedGeneration seedNext w reg1 all acts reg : is_u64 seedNext ->
  snd (restore explain not_started stopping starts now (opening_registry shell_ after seedGeneration seedNext) w)
    = inr (reg1, all, acts) ->
  rtc reg_step reg1 reg ->
  filed reg /\ one_per_pane (names_pane (fs w)) reg.
Proof.
  intros Hseed Hrestore Hrun. set (reg0 := opening_registry shell_ after seedGeneration seedNext) in *.
  enough (Hok : reg_ok (names_pane (fs w)) reg1) by (by apply (reg_steps_ok _ _ _ Hrun) in Hok as (_ & ? & ?)).
  assert (Hnone : forall sid v, sessions reg0 !! sid <> Some v) by (intros sid v Hv; exact (lookup_empty_Some sid v Hv)).
  enough (Hfrom : from_records (fs w) reg0 reg1).
  { destruct Hfrom as [Hn Hs]. split_and!; [by rewrite Hn|..].
    - intros sid v [Hv|[Hid _]]%Hs; [by destruct (Hnone sid v)|done].
    - intros s1 s2 v1 v2 [Hv|[_ H1']]%Hs; [by destruct (Hnone s1 v1)|].
      intros [Hv|[_ H2']]%Hs Heq _; [by destruct (Hnone s2 v2)|]. right. rewrite Heq in *. by split. }
  unfold restore in Hrestore. cbn [negb store] in Hrestore. change (store reg0) with true in Hrestore. cbn [negb] in Hrestore.
  unfold bind at 1, attempt in Hrestore.
  assert (Hq : quiet list_ids) by (apply quiet_bind; [apply quiet_look|intros names; apply quiet_ret]).
  pose proof (outcome false (fun _ => True) _ _ _ w (Hq false (fs w)) ltac:(done) ltac:(done)) as Hfs.
  destruct (list_ids w) as [w1 [e|ids]]; cbn [fst snd] in *.
  - cbn in Hrestore. injection Hrestore as <- _ _. split; [done|]. by left.
  - pose proof (outcome false (fun _ => True) _ _ _ w1 (restore_each_panes starts now ids reg0 (fs w1)) ltac:(done) ltac:(done))
      as (reg' & all' & acts' & Ha & Hfrom).
    unfold bind in Hrestore. destruct (restore_each _ _ _ _ _ _ _ _) as [w2 a]. cbn [fst snd] in *. subst a.
    cbn in Hrestore. injection Hrestore as <- _ _. by rewrite <- Hfs.
Qed.

Lemma keys_in {A} (m : gmap Z A) k : k ∈ (map_to_list m).*1 <-> is_Some (m !! k).
Proof.
  rewrite list_elem_of_fmap. split.
  - intros ([k' a] & -> & Hk%elem_of_map_to_list). by exists a.
  - intros [a Ha]. exists (k, a). split; [done|]. by apply elem_of_map_to_list.
Qed.

(** Asked for nothing in particular, the report answers each session the daemon knows
    of exactly once, in order: those it holds and those a start ended otherwise. *)
Theorem empty_report_lists_every_session reg :
  (forall sid o, outcomes reg !! sid = Some o -> OutcomeSession o = sessionText sid) ->
  (forall sid, is_Some (sessions reg !! sid) \/ is_Some (outcomes reg !! sid) -> is_u64 sid) ->
  let report := restoreReport [] reg in
  Complete report = readStore reg /\
  Sorted by_session (Sessions report) /\ NoDup (map OutcomeSession (Sessions report)) /\
  forall o, o ∈ Sessions report <-> exists sid,
    (is_Some (sessions reg !! sid) \/ is_Some (outcomes reg !! sid)) /\
    o = default (mkOutcome (sessionText sid) SessionFull "") (outcomes reg !! sid).
Proof.
  intros Hnames H64 report. split; [done|].
  set (ids := (map_to_list (sessions reg)).*1 ++ filter (fun sid => sessions reg !! sid = None) (map_to_list (outcomes reg)).*1).
  assert (Hids : forall sid, sid ∈ ids <-> is_Some (sessions reg !! sid) \/ is_Some (outcomes reg !! sid)).
  { intros sid. unfold ids. rewrite elem_of_app, list_elem_of_filter, !keys_in.
    destruct (sessions reg !! sid); [split; [by left|by left]|]. split.
    - intros [[? ?]|[_ ?]]; [done|by right].
    - intros [[? ?]|?]; [done|by right]. }
  assert (Hnd : NoDup ids).
  { apply NoDup_app. split_and!; [apply NoDup_fst_map_to_list| |apply NoDup_filter, NoDup_fst_map_to_list].
    intros sid Hs%keys_in [Hn _]%list_elem_of_filter. rewrite Hn in Hs. by destruct Hs. }
  assert (Hans : map (report_of reg) (all_names reg) =
    map (fun sid => default (mkOutcome (sessionText sid) SessionFull "") (outcomes reg !! sid)) ids).
  { unfold all_names. rewrite <- map_app, map_map. fold ids. apply map_ext_in.
    intros sid Hs%list_elem_of_In%Hids. unfold report_of, sessionNumber, sessionText.
    rewrite parse_number by (by apply H64). destruct (outcomes reg !! sid); [done|].
    by destruct Hs as [[v ->]|[? ?]]. }
  assert (Hperm : Sessions report ≡ₚ
    map (fun sid => default (mkOutcome (sessionText sid) SessionFull "") (outcomes reg !! sid)) ids).
  { rewrite <- Hans. apply merge_sort_Permutation. }
  split_and!.
  - by apply (Sorted_merge_sort by_session).
  - rewrite Hperm, map_map. erewrite (map_ext_in _ sessionText).
    + apply (NoDup_fmap_2 sessionText), Hnd.
    + intros sid _. destruct (outcomes reg !! sid) as [o|] eqn:E; [by apply Hnames|done].
  - intros o. rewrite Hperm, list_elem_of_fmap. split.
    + intros (sid & -> & Hs%Hids). by exists sid.
    + intros (sid & Hs%Hids & ->). by exists sid.
Qed.

(** ** Closing *)

Lemma close_registry sid now removed reg :
  let '(reg', ended, _) := Registry.close sid now removed reg in
  sessions reg' !! sid = None /\ outcomes reg' !! sid = None /\ ended = bool_decide (is_Some (sessions reg !! sid)).
Proof.
  unfold Registry.close. destruct (sessions reg !! sid) as [v|] eqn:E; cbn; rewrite !lookup_delete_eq; split_and!; try done.
Qed.

Lemma perform_lucky acts w : fates w = [] ->
  fates (fst (perform acts w)) = [] /\ (forall n, fs w !! n = None -> fs (fst (perform acts w)) !! n = None) /\
  snd (perform acts w) = inr tt.
Proof.
  revert w. induction acts as [|a acts IH]; intros w Hf; [done|]. cbn [perform].
  destruct a as [[| sid| | | | | | |]| | |]; try by apply IH.
  unfold bind, attempt. pose proof (remove_triple true sid (fs w) (open w) w ltac:(done) ltac:(done)) as Hr.
  destruct (Store.remove sid w) as [w1 r]. destruct Hr as ((_ & _ & Ha & Hd) & Hf1 & _).
  destruct (IH w1 (Hf1 eq_refl)) as (G1 & G2 & G3). destruct (perform acts w1) as [w2 a]. cbn [fst snd] in *.
  split_and!; [done| |done]. intros n Hn. apply G2. rewrite (Hd (Ha eq_refl)).
  rewrite !lookup_delete_None. auto.
Qed.

Lemma perform_answers acts : forall w, snd (perform acts w) = inr tt.
Proof.
  induction acts as [|a acts IH]; intros w; [done|]. cbn [perform].
  destruct a as [[| sid| | | | | | |]| | |]; try by apply IH.
  unfold bind, attempt. by destruct (Store.remove sid w) as [w1 r].
Qed.

(** Closing a session by name always comes to the same end: whatever calls fail, the
    daemon reports the name as lost from then on, the answer says it is closed and whether
    it was held; and with a store and no failing call, nothing of it is left on disk. *)
Theorem closed_session_is_lost name now reg w :
  let '(w', answer) := closeSession name now reg w in
  exists reg' acts, answer = inr (reg', mkClosed name true
      (match sessionNumber name with Some sid => bool_decide (is_Some (sessions reg !! sid)) | None => false end), acts) /\
    report_of reg' name = mkOutcome name SessionLost "" /\
    (store reg = true -> fates w = [] -> forall sid, sessionNumber name = Some sid ->
       forall n, n ∈ session_files sid -> fs w' !! n = None).
Proof.
  unfold closeSession, report_of. destruct (sessionNumber name) as [sid|] eqn:En.
  2:{ cbn. eexists _, _. by split_and!. }
  unfold bind at 1. unfold close_stored. unfold bind at 1.
  set (m := if store reg then attempt (Store.remove sid) else ret (inr tt)).
  assert (Hm : exists r, snd (m w) = inr r).
  { unfold m, attempt. destruct (store reg); [|by eexists]. destruct (Store.remove sid w). by eexists. }
  assert (Hgone : store reg = true -> fates w = [] ->
    fates (fst (m w)) = [] /\ forall n, n ∈ session_files sid -> fs (fst (m w)) !! n = None).
  { intros Hs Hf. unfold m, attempt. rewrite Hs.
    pose proof (remove_triple true sid (fs w) (open w) w ltac:(done) ltac:(done)) as Hr.
    destruct (Store.remove sid w) as [w1 r]. destruct Hr as ((_ & _ & Ha & Hd) & Hf1 & _). cbn [fst].
    split; [by apply Hf1|]. intros n Hn. rewrite (Hd (Ha eq_refl)). by apply deleted_files. }
  destruct (m w) as [w1 a]. cbn [fst snd] in *. destruct Hm as [r ->].
  set (removed := match r with inl _ => false | inr _ => true end).
  pose proof (close_registry sid now removed reg) as Hc.
  destruct (Registry.close sid now removed reg) as [[reg' ended] acts]. destruct Hc as (C1 & C2 & ->).
  unfold bind. set (rest := if store reg then List.tl acts else acts).
  pose proof (perform_answers rest w1) as Hp. pose proof (perform_lucky rest w1) as Hl.
  destruct (perform rest w1) as [w2 a]. cbn [fst snd] in *. subst a. cbn. eexists _, _. split_and!.
  - by destruct (bool_decide _).
  - by rewrite ?En, C1, C2.
  - intros Hs Hf sid' [= <-] n Hn. destruct (Hgone Hs Hf) as [Hf1 Hg]. by apply Hl, Hg.
Qed.

End every.

(** ** Witnesses *)

#[local] Existing Instance sample_contract.
#[local] Existing Instance sample_contract_laws.
#[local] Existing Instance Concrete.platform.
#[local] Existing Instance Concrete.laws.

Definition sample_explain (e : io_error) : string := match e with NotExist => "not there" | _ => "failed" end.

Definition sample_registry : registry := (newRegistry "/bin/sh" 1800 5 9) <| store := true |>.

(** A stop with the prompt still on its way to the store. *)
Lemma restart_stands_the_session_up_witness :
  let w := mkWorld (Concrete.directory_of Concrete.record) ∅ [] [] in
  let hist := concat [text "make"; text "$ "] in
  let '(w1, before) := previous_life (Stopped [text "$ "] []) 7 [text "make"] 99 None w in
  let '(w2, answer) := restoreOne sample_explain "no shell" "stopping" true 200 7 sample_registry (restarted w1) in
  before = inr tt /\ exists reg' acts v start,
    answer = inr (reg', outcome_of 7 SessionFull "", acts) /\
    sessions reg' = <[7 := v]> (sessions sample_registry) /\
    stands 7 Concrete.record hist (last_bytes HighWatermark (slice_from start hist)) v /\
    (start = 0 \/ 0 < start /\ outputSegmentBound < zlen hist - start) /\
    exists r, record_after_crash (fs w2) 7 = inr r /\ same_facts Concrete.record r.
Proof.
  apply (restart_stands_the_session_up sample_explain "no shell" "stopping" (Stopped [text "$ "] []) 7 Concrete.record
    [text "make"] 99 None 200 (mkWorld (Concrete.directory_of Concrete.record) ∅ [] []) sample_registry).
  - apply Concrete.newborn_record.
  - reflexivity.
  - reflexivity.
  - repeat constructor; unfold outputSegmentBound, zlen; cbn; lia.
  - unfold is_u64, two64, zlen. cbn. lia.
  - reflexivity.
Defined.

Lemma start_accounts_for_every_record_witness :
  let w := mkWorld (Concrete.directory_of Concrete.record) ∅ [Works; Works; Fails 0] [] in
  let '(w', answer) := restore sample_explain "no shell" "stopping" (fun _ => true) 200 sample_registry w in
  exists reg' all acts, answer = inr (reg', all, acts) /\
    match snd (list_ids w) with
    | inl _ => reg' = sample_registry /\ all = [] /\ fs w' = fs w
    | inr ids => NoDup ids ->
        readStore reg' = true /\ map OutcomeSession all = map sessionText ids /\
        forall sid, sid ∈ ids -> exists o, o ∈ all /\ outcomes reg' !! sid = Some o /\
          OutcomeSession o = sessionText sid /\
          (Outcome o <> SessionFailed -> is_Some (sessions reg' !! sid)) /\
          (Outcome o = SessionFailed -> sessions reg' !! sid = sessions sample_registry !! sid /\
             forall n, n ∈ session_files sid -> fs w' !! n = fs w !! n)
    end.
Proof.
  apply (start_accounts_for_every_record sample_explain "no shell" "stopping" (fun _ => true) 200 sample_registry
    (mkWorld (Concrete.directory_of Concrete.record) ∅ [Works; Works; Fails 0] [])). reflexivity.
Defined.

Definition known_registry : registry :=
  sample_registry <| outcomes := {[12 := mkOutcome "12" SessionFailed "lost"]} |>
                  <| sessions := {[3 := newSession 3 "p" "w" "/" "sh" 0 1 80 24 [] false None]} |>.

Lemma empty_report_lists_every_session_witness :
  let report := restoreReport [] known_registry in
  Complete report = readStore known_registry /\
  Sorted by_session (Sessions report) /\ NoDup (map OutcomeSession (Sessions report)) /\
  forall o, o ∈ Sessions report <-> exists sid,
    (is_Some (sessions known_registry !! sid) \/ is_Some (outcomes known_registry !! sid)) /\
    o = default (mkOutcome (sessionText sid) SessionFull "") (outcomes known_registry !! sid).
Proof.
  apply (empty_report_lists_every_session known_registry).
  - intros sid o. change (outcomes known_registry) with ({[12 := mkOutcome "12" SessionFailed "lost"]} : gmap Z restoreOutcome).
    intros [<- <-]%lookup_singleton_Some. vm_compute. reflexivity.
  - intros sid [[v Hv]|[o Ho]].
    + change (sessions known_registry) with ({[3 := newSession 3 "p" "w" "/" "sh" 0 1 80 24 [] false None]} : gmap Z session) in Hv.
      apply lookup_singleton_Some in Hv as [<- _]. unfold is_u64, two64. lia.
    + change (outcomes known_registry) with ({[12 := mkOutcome "12" SessionFailed "lost"]} : gmap Z restoreOutcome) in Ho.
      apply lookup_singleton_Some in Ho as [<- _]. unfold is_u64, two64. lia.
Defined.

(** Two records of one pane: both are stood up, and an open of another pane adds a third
    session. *)
Definition two_records : world :=
  mkWorld (Concrete.directory_of (Concrete.record <| Store.Session := 8 |>) ∪ Concrete.directory_of Concrete.record) ∅ [] [].

Definition from_two_records : registry :=
  match snd (restore sample_explain "no shell" "stopping" (fun _ => true) 200 (opening_registry "/bin/sh" 1800 5 9) two_records) with
  | inr (reg, _, _) => reg
  | inl _ => sample_registry
  end.

Definition with_a_third : registry :=
  match daemon_open [7; 8] (mkOpen 80 24 "" "/" "elsewhere" "" "") [] true true 300 None from_two_records with
  | Some (reg, _, _) => reg
  | None => sample_registry
  end.

Lemma from_two_records_covers : covers [7; 8] from_two_records.
Proof.
  split; [apply (bool_decide_unpack _); vm_compute; exact I|]. intros sid. split.
  - rewrite !elem_of_cons, elem_of_nil. intros [->|[->|[]]]; apply (bool_decide_unpack _); vm_compute; exact I.
  - intros [v Hv%elem_of_map_to_list].
    assert (Hall : Forall (fun kv : Z * session => kv.1 ∈ [7; 8]) (map_to_list (sessions from_two_records)))
      by (apply (bool_decide_unpack _); vm_compute; exact I).
    rewrite list.Forall_forall in Hall. exact (Hall (sid, v) Hv).
Qed.

Lemma one_session_per_pane_witness :
  (sessions with_a_third !! 7 ≫= fun v => Some (paneID v)) = (sessions with_a_third !! 8 ≫= fun v => Some (paneID v)) /\
  (paneID <$> sessions with_a_third !! 10) = Some "elsewhere"%string /\
  filed with_a_third /\ one_per_pane (names_pane (fs two_records)) with_a_third.
Proof.
  split; [vm_compute; reflexivity|]. split; [vm_compute; reflexivity|].
  destruct (snd (restore sample_explain "no shell" "stopping" (fun _ => true) 200 (opening_registry "/bin/sh" 1800 5 9) two_records))
    as [e|[[reg all] acts]] eqn:E; [exfalso; revert E; vm_compute; discriminate|].
  apply (one_session_per_pane sample_explain "no shell" "stopping" (fun _ => true) 200 "/bin/sh" 1800 5 9 two_records reg all acts);
    [split; [discriminate|reflexivity]|exact E|].
  assert (Er : from_two_records = reg) by (unfold from_two_records; by rewrite E). rewrite <- Er.
  destruct (daemon_open [7; 8] (mkOpen 80 24 "" "/" "elsewhere" "" "") [] true true 300 None from_two_records)
    as [[[reg2 answer] acts2]|] eqn:E2; [|exfalso; revert E2; vm_compute; discriminate].
  assert (Er2 : with_a_third = reg2) by (unfold with_a_third; by rewrite E2). rewrite Er2.
  eapply rtc_l; [|apply rtc_refl]. exact (step_open [7; 8] _ _ _ _ _ _ _ _ _ _ from_two_records_covers E2).
Defined.
