(* ===== verification/StoreRaces.v ===== *)
(** * Store operations that disturb each other (store.go)

    What StoreLocks proves of every schedule is that no operation waits for ever and that no
    record is torn.  It is not that an operation is one step: two of them let go of a lock
    between what they look at and what they make of it.  Here are the schedules that show
    what then is on the disk, with every call on the file system working. *)

From stdpp Require Import pretty.
From S2P Require Import Prelude Contract OutputRing Session Registry Restore Decimal Threads Store StoreLocks StoreAlone.

(** ** Operations whose calls all work *)

Section races.
Context `{PtyContractLaws} `{PlatformLaws}.

(** From the directory [d] and the writers [o], [m] answers [x] and leaves [d'] and [o']. *)
Definition works {A} (m : io A) (d : files) (o : gmap Z segmentWriter) (d' : files) (o' : gmap Z segmentWriter) (x : A) : Prop :=
  forall l, exists l', m (mkWorld d o [] l) = (mkWorld d' o' [] l', inr x).

Lemma works_ret {A} (x : A) d o : works (Store.ret x) d o d o x.
Proof. intros l. by exists l. Qed.

Lemma works_bind {A B} (m : io A) (k : A -> io B) d o d1 o1 d2 o2 x y :
  works m d o d1 o1 x -> works (k x) d1 o1 d2 o2 y -> works (bind m k) d o d2 o2 y.
Proof. intros Hm Hk l. destruct (Hm l) as [l1 E1]. destruct (Hk l1) as [l2 E2]. exists l2. unfold bind. by rewrite E1. Qed.

Lemma works_look {A} (f : files -> io_error + A) d o x : f d = inr x -> works (look f) d o d o x.
Proof. intros E l. exists l. unfold look, next_fate. cbn. by rewrite E. Qed.

Lemma works_attempt_look {A} (f : files -> io_error + A) d o : works (attempt (look f)) d o d o (f d).
Proof. intros l. by exists l. Qed.

Lemma works_call f d o : works (Store.call f) d o (f d) o tt.
Proof. intros l. by eexists. Qed.

Lemma works_attempt {A} (m : io A) d o d' o' x : works m d o d' o' x -> works (attempt m) d o d' o' (inr x).
Proof. intros Hm l. destruct (Hm l) as [l' E]. exists l'. unfold attempt. by rewrite E. Qed.

Lemma works_write name data d o :
  works (sys_write name data) d o (<[name := default [] (d !! name) ++ data]> d) o (zlen data, true).
Proof. intros l. by eexists. Qed.

Lemma works_set f d o : works (set_writers f) d o d (f o) tt.
Proof. intros l. by exists l. Qed.

Lemma works_held id d o : works (Store.heldWriter id) d o d o (o !! id).
Proof. intros l. by exists l. Qed.

Lemma works_read d o r : d !! recordPath (Session r) = Some (Marshal r ++ newline) -> works (Store.read (Session r)) d o d o r.
Proof.
  intros Hr. unfold Store.read, sys_read. eapply works_bind; [by apply works_look; rewrite Hr|].
  rewrite parse_record, Z.eqb_refl. apply works_ret.
Qed.

Lemma works_eq {A} (m m' : io A) d o d' o' x : (forall w, m w = m' w) -> works m' d o d' o' x -> works m d o d' o' x.
Proof. intros E Hm l. rewrite E. apply Hm. Qed.

Lemma works_create id d o : works (create_temp id) d o (<[stagedPath id d := []]> d) o (stagedPath id d).
Proof. intros l. by eexists. Qed.

(** The staged file comes and goes. *)
Lemma works_publish r durable d o :
  works (Store.publish r durable) d o (<[recordPath (Session r) := Marshal r ++ newline]> d) o tt.
Proof.
  eapply works_eq; [apply publish_temp|]. set (name := stagedPath (Session r) d).
  assert (E : forall body, <[recordPath (Session r) := body]> (delete name (<[name := body]> (<[name := []]> d))) = <[recordPath (Session r) := body]> d).
  { intros body. rewrite insert_insert_eq, delete_insert_id; [done|apply staged_free]. }
  eapply works_bind; [apply works_create|]. eapply works_bind; [apply works_write|]. cbn [negb]. fold name.
  rewrite lookup_insert_eq. cbn [default from_option app].
  apply (works_bind _ _ _ _ (<[name := Marshal r ++ newline]> (<[name := []]> d)) o _ _ (inr tt));
    [destruct durable; [exact (works_attempt_look (fun _ => inr tt) _ _)|apply works_ret]|].
  eapply works_bind; [exact (works_attempt_look (fun _ => inr tt) _ _)|].
  eapply works_bind; [apply works_attempt, works_call|]. rewrite lookup_insert_eq, E.
  destruct durable; [eapply works_bind; by apply works_look|apply works_ret].
Qed.

Lemma works_update r (f : sessionRecord -> sessionRecord) durable d o : d !! recordPath (Session r) = Some (Marshal r ++ newline) ->
  Session (f r) = Session r ->
  works (do r <- Store.read (Session r); Store.publish (f r) durable) d o (<[recordPath (Session r) := Marshal (f r) ++ newline]> d) o tt.
Proof. intros Hr Hf. eapply works_bind; [by apply works_read|]. rewrite <- Hf. apply works_publish. Qed.

(** A file that is made when it is opened is empty. *)
Lemma works_openInto id seg d o : two_segments seg -> d !! segmentPath id seg = None ->
  works (Store.openInto id seg) d o (<[segmentPath id seg := []]> d) (<[id := mkWriter true seg 0]> o) (mkWriter true seg 0).
Proof.
  intros Hseg Hd. unfold Store.openInto. replace (negb (seg =? 0) && negb (seg =? 1)) with false by (by destruct Hseg as [-> | ->]).
  eapply works_bind; [apply works_call|]. rewrite Hd.
  eapply works_bind; [apply works_attempt_look|]. cbn. rewrite lookup_insert_eq.
  eapply works_bind; [apply works_set|]. apply works_ret.
Qed.

(** The first append of a daemon opens the segment behind what is there. *)
Lemma works_reopening r body data through d o : d !! recordPath (Session r) = Some (Marshal r ++ newline) -> two_segments (Segment r) ->
  d !! segmentPath (Session r) (Segment r) = Some body -> o !! Session r = None -> zlen body + zlen data <= outputSegmentBound ->
  exists o', works (Store.append (Session r) data through) d o (<[segmentPath (Session r) (Segment r) := body ++ data]> d) o' tt /\
    o' !! Session r = Some (mkWriter true (Segment r) (zlen body + zlen data)).
Proof.
  intros Hr Hseg Hd Ho Hfit. set (target := segmentPath (Session r) (Segment r)) in *. eexists. split; [|apply lookup_insert_eq].
  unfold Store.append. eapply works_bind.
  { unfold Store.writerFor. eapply works_bind; [apply works_held|]. rewrite Ho. eapply works_bind; [apply works_set|apply works_ret]. }
  cbn [file]. eapply works_bind.
  { eapply works_bind; [by apply works_read|]. unfold Store.openInto.
    replace (negb (Segment r =? 0) && negb (Segment r =? 1)) with false by (by destruct Hseg as [-> | ->]).
    eapply works_bind; [apply works_call|]. fold target. rewrite Hd. eapply works_bind; [apply works_attempt_look|]. rewrite Hd.
    eapply works_bind; [apply works_set|]. apply works_ret. }
  cbn [written]. replace (outputSegmentBound <? zlen body + zlen data) with false by lia. cbn [andb].
  eapply works_bind; [apply works_ret|]. cbn [segment]. eapply works_bind; [apply works_write|]. fold target. rewrite Hd.
  eapply works_bind; [apply works_set|apply works_ret].
Qed.

Lemma works_removed name d o : exists x, works (attempt (sys_remove name)) d o (delete name d) o x /\ (x = inl NotExist \/ x = inr tt).
Proof.
  destruct (d !! name) as [body|] eqn:E; [exists (inr tt)|exists (inl NotExist)]; (split; [|by auto]); intros l.
  - unfold attempt, sys_remove, next_fate. cbn. rewrite E. by eexists.
  - unfold attempt, sys_remove, next_fate. cbn. rewrite E. exists l. by rewrite (delete_id _ _ E).
Qed.

(** What is in the directory when [data] went to the other segment. *)
Definition rolled_with (r : sessionRecord) (at_ : Z) (data : octets) (d : files) : files :=
  let other := segmentPath (Session r) (1 - Segment r) in
  <[other := data]> (<[recordPath (Session r) := Marshal (rolled r at_) ++ newline]> (delete other d)).

Lemma works_rolling r n data through d o : d !! recordPath (Session r) = Some (Marshal r ++ newline) -> two_segments (Segment r) ->
  o !! Session r = Some (mkWriter true (Segment r) n) -> 0 < n -> outputSegmentBound < n + zlen data ->
  exists o', works (Store.append (Session r) data through) d o (rolled_with r (through -64 zlen data) data d) o' tt /\
    o' !! Session r = Some (mkWriter true (1 - Segment r) (zlen data)).
Proof.
  intros Hr Hseg Ho Hn Hfull. set (other := segmentPath (Session r) (1 - Segment r)).
  assert (Hother : two_segments (1 - Segment r)) by (unfold two_segments in *; lia).
  assert (Hne : other <> recordPath (Session r)) by (by apply segment_not_record).
  eexists. split; [|apply lookup_insert_eq]. unfold Store.append. eapply works_bind.
  { unfold Store.writerFor. eapply works_bind; [apply works_held|]. rewrite Ho. apply works_ret. }
  eapply works_bind; [apply works_ret|]. cbn [written].
  replace ((outputSegmentBound <? n + zlen data) && (0 <? n)) with true by lia.
  eapply works_bind.
  { unfold Store.roll. cbn [segment]. eapply works_bind; [apply works_attempt_look|].
    eapply works_bind; [apply works_set|]. destruct (works_removed other d (<[Session r := mkWriter false (Segment r) n]> o)) as (x & Hx & Hx2).
    eapply works_bind; [exact Hx|]. clear Hx. assert (Hrest : works (do record <- Store.read (Session r);
        Store.write (record <| Segment := 1 - Segment r |> <| Written := through -64 zlen data |>);;;
        Store.openInto (Session r) (1 - Segment r)) (delete other d) (<[Session r := mkWriter false (Segment r) n]> o)
       (<[other := []]> (<[recordPath (Session r) := Marshal (rolled r (through -64 zlen data)) ++ newline]> (delete other d)))
       (<[Session r := mkWriter true (1 - Segment r) 0]> (<[Session r := mkWriter false (Segment r) n]> o))
       (mkWriter true (1 - Segment r) 0)).
    { eapply works_bind; [apply works_read; by rewrite lookup_delete_ne|].
      eapply works_bind; [apply works_publish|]. apply works_openInto; [done|].
      rewrite lookup_insert_ne by done. apply lookup_delete_eq. }
    by destruct Hx2 as [-> | ->]. }
  eapply works_bind; [apply works_write|].
  eapply works_bind; [apply works_set|]. cbn [segment]. fold other. rewrite lookup_insert_eq, insert_insert_eq.
  apply works_ret.
Qed.

(** ** A program of StoreLocks whose calls all work *)

Lemma alone_works {A} (p : program (io_error + A)) m s Q d' o' x : same_as itself s p m Q -> fates (disk s) = [] ->
  works m (fs (disk s)) (open (as_world s)) d' o' x ->
  let '(s', y) := Threads.alone run p s in
  y = inr x /\ whole s' /\ fs (disk s') = d' /\ fates (disk s') = [] /\ open (as_world s') = o'.
Proof.
  unfold same_as. intros Hp Hf Hm. destruct (Threads.alone run p s) as [s' y]. destruct Hp as (E & Hw & _).
  destruct (Hm (passed (disk s))) as [l' El].
  replace (mkWorld (fs (disk s)) (open (as_world s)) [] (passed (disk s))) with (as_world s) in El
    by (unfold as_world; rewrite <- Hf; by destruct (disk s)).
  rewrite El, stands_itself in E. injection E as E1 E2 E3 E4 E5. split_and!; [done|done|..].
  - by rewrite E1.
  - by rewrite E3.
  - by rewrite E2.
Qed.

(** ** A stop in the middle *)

(** What is left of a stop that looked at its writer. *)
Definition stop_rest (id at_ : Z) (exitCode : option Z) (through seg : Z) : program (io_error + unit) :=
  holding (RecordLock id)
    (let? record := read id in
     let record := record <| EndedThrough := through |> in
     let record := if 0 <=? seg then record <| Segment := seg |> else record in
     publish (record <| EndedAtUnixMs := Some at_ |> <| ExitCode := exitCode |>) true).

(** The first five turns of a stop: it looks at its writer and lets go of it. *)
Lemma stop_looks m t id p seg n at_ exitCode through : threads m !! t = Some (MarkEnded id at_ exitCode through, program_of (MarkEnded id at_ exitCode through)) ->
  locks m = ∅ -> fates (disk (shared m)) = [] -> held (shared m) !! id = Some p -> writer_at p (shared m) = mkWriter true seg n ->
  rtc (moves run) m (mkMachine (shared m) ∅
    (<[t := (MarkEnded id at_ exitCode through, returning (stop_rest id at_ exitCode through seg))]> (threads m))).
Proof.
  intros Et El Hf Hp Hw. set (k := MarkEnded id at_ exitCode through) in *.
  assert (Hlen : (t < length (threads m))%nat) by (by eapply lookup_lt_Some).
  assert (Hself : forall q, <[t := q]> (threads m) !! t = Some q) by (intros q; by apply list_lookup_insert_eq).
  cbn [program_of] in Et. unfold returning, markEnded in Et. cbn [andThen ask] in Et.
  eapply rtc_l; [exists t; eapply turn_asks; [exact Et|done]|]. rewrite Hp. cbn [andThen ask holding]. rewrite El.
  eapply rtc_l; [exists t; eapply turn_takes; [apply Hself|done]|]. cbn [threads locks shared]. rewrite list_insert_insert_eq.
  eapply rtc_l; [exists t; eapply turn_asks; [apply Hself|done]|]. cbn [threads locks shared]. rewrite list_insert_insert_eq, Hw. cbn [file andThen ask].
  eapply rtc_l; [exists t; eapply turn_asks; [apply Hself|]|].
  { cbn [threads locks shared run]. unfold on_disk, sys_sync, look, next_fate. rewrite Hf. done. }
  cbn [threads locks shared]. rewrite list_insert_insert_eq. cbn [andThen].
  eapply rtc_l; [exists t; eapply turn_gives; apply Hself|]. cbn [threads locks shared]. rewrite list_insert_insert_eq.
  rewrite delete_insert_id by done. replace ((shared m) <| disk := disk (shared m) |>) with (shared m) by (by destruct (shared m)).
  apply rtc_refl.
Qed.

(** ** What they leave *)

(** While the others are not in the middle of anything a goroutine runs as if alone. *)
Lemma runs_on w m t k p : rtc store_step (newStore w) m -> locks m = ∅ -> threads m !! t = Some (k, p) ->
  exists m', rtc (moves run) m m' /\ shared m' = fst (Threads.alone run p (shared m)) /\ locks m' = ∅ /\
    threads m' = <[t := (k, Done (snd (Threads.alone run p (shared m))))]> (threads m).
Proof.
  intros Hrun%reached El Et.
  destruct (runs_alone run rank allowed plausible after forget store_inv changes store_laws 2 rank_two t k p m (shared m)) as (m' & ? & _ & ? & ? & ?);
    [|done|done|by exists m'].
  split; [done|]. intros l u. by rewrite El, lookup_empty.
Qed.

(** No lock is taken when all are at their end. *)
Lemma finished_unlocked w m : rtc store_step (newStore w) m -> finished m -> locks m = ∅.
Proof.
  intros (hs & _ & Hsafe & Hlocks)%reached Hf. apply map_eq. intros l. rewrite lookup_empty.
  destruct (locks m !! l) as [u|] eqn:El; [|done]. apply Hlocks in El as (h & v & Eh & Hin).
  destruct (Forall2_lookup_r _ _ _ u (h, v) Hsafe Eh) as ([k p] & Ep & Hp). destruct (Hf u k p Ep) as [x ->].
  cbn in Hp. unfold ends_free in Hp. set_solver.
Qed.

Lemma alone_returning_fst p s : Threads.alone run (returning p) s = let '(s', x) := Threads.alone run p s in (s', Returns x).
Proof. unfold returning. rewrite alone_andThen. by destruct (Threads.alone run p s). Qed.

(** A session at rest whose writer has its segment open, which the next [data] does not fit in. *)
Record full_segment (s : store_state) (r : sessionRecord) (hist : octets) (start : Z) (p : nat) (data : octets) : Prop := {
  full_whole : whole s;
  full_works : fates (disk s) = [];
  full_stored : stored (Session r) hist r start (fs (disk s));
  full_held : held s !! Session r = Some p;
  full_writer : writer_at p s = mkWriter true (Segment r) (zlen hist - Written r);
  full_some : Written r < zlen hist;
  full_bound : outputSegmentBound < zlen hist - Written r + zlen data;
  full_u64 : is_u64 (zlen hist + zlen data)
}.

Lemma roll_alone s r hist start p data : full_segment s r hist start p data ->
  let '(s', x) := Threads.alone run (append (Session r) data (zlen hist + zlen data)) s in
  x = inr tt /\ whole s' /\ fs (disk s') = rolled_with r (zlen hist) data (fs (disk s)) /\ fates (disk s') = [].
Proof.
  intros [Hs Hf Hst Hp Hw Hsome Hfull Hu].
  destruct (works_rolling r (zlen hist - Written r) data (zlen hist + zlen data) (fs (disk s)) (open (as_world s))) as (o' & Ho & _).
  - apply Hst.
  - apply Hst.
  - change (open (as_world s)) with ((fun p => writer_at p s) <$> held s). rewrite lookup_fmap, Hp. cbn. by rewrite Hw.
  - lia.
  - done.
  - replace (zlen hist + zlen data -64 zlen data) with (zlen hist) in Ho.
    + pose proof (alone_works _ _ s _ _ _ _ (append_same s (Session r) data (zlen hist + zlen data) Hs) Hf Ho) as Ha.
      destruct (Threads.alone _ _ _). by destruct Ha as (? & ? & ? & ? & _).
    + pose proof (zlen_nonneg hist). pose proof (zlen_nonneg data). rewrite sub64_small; unfold is_u64 in *; lia.
Qed.

(** The record that the stop leaves: the coordinate of the roll, and the segment from before. *)
Definition put_back (r : sessionRecord) (n at_ : Z) (exitCode : option Z) (through : Z) : sessionRecord :=
  (rolled r n) <| EndedThrough := through |> <| Segment := Segment r |> <| EndedAtUnixMs := Some at_ |> <| ExitCode := exitCode |>.

(** The output that the files then are the output of: the last that was printed before what was
    printed before it. *)
Definition misplaced (r : sessionRecord) (hist data : octets) : octets :=
  slice_to (zlen hist - zlen data) hist ++ data ++ slice_from (Written r) hist.

(** What the rest of the stop makes of the directory that the roll left. *)
Lemma stop_after_roll s s' r hist start p data at_ exitCode through : full_segment s r hist start p data -> whole s' ->
  fs (disk s') = rolled_with r (zlen hist) data (fs (disk s)) -> fates (disk s') = [] -> zlen data <= zlen hist ->
  let '(s2, x) := Threads.alone run (stop_rest (Session r) at_ exitCode through (Segment r)) s' in
  x = inr tt /\ stored (Session r) (misplaced r hist data) (put_back r (zlen hist) at_ exitCode through) (zlen hist - zlen data) (fs (disk s2)).
Proof.
  intros [Hs Hf Hst Hp Hw Hsome Hfull Hu] Hs' Ed Hf' Hfit. pose proof Hst as [Hr _ Hseg [Hb1 Hb2] Hnew _].
  set (f := fun rec : sessionRecord => (if 0 <=? Segment r then rec <| EndedThrough := through |> <| Segment := Segment r |>
    else rec <| EndedThrough := through |>) <| EndedAtUnixMs := Some at_ |> <| ExitCode := exitCode |>).
  set (r1 := rolled r (zlen hist)). assert (Epos : (0 <=? Segment r) = true) by (destruct Hseg as [-> | ->]; done).
  assert (Hother : two_segments (1 - Segment r)) by (unfold two_segments in *; lia).
  assert (Hne : forall seg, two_segments seg -> segmentPath (Session r) seg <> recordPath (Session r)) by (intros seg; apply segment_not_record).
  assert (Hr1 : fs (disk s') !! recordPath (Session r1) = Some (Marshal r1 ++ newline)).
  { rewrite Ed. unfold rolled_with. cbn [Session rolled r1]. rewrite lookup_insert_ne by (by apply Hne). apply lookup_insert_eq. }
  pose proof (works_update r1 f true (fs (disk s')) (open (as_world s')) Hr1 ltac:(unfold f; by rewrite Epos)) as Hm.
  pose proof (alone_works _ _ s' _ _ _ _ (update_same s' (Session r) f true Hs') Hf' Hm) as Ha.
  change (holding (RecordLock (Session r)) _) with (stop_rest (Session r) at_ exitCode through (Segment r)) in Ha.
  destruct (Threads.alone run _ s') as [s2 x]. destruct Ha as (-> & _ & Ed2 & _). split; [done|].
  change (Session r1) with (Session r) in Ed2.
  assert (Ef : f r1 = put_back r (zlen hist) at_ exitCode through) by (unfold f; by rewrite Epos).
  rewrite Ef in Ed2. assert (Hlook : forall seg, two_segments seg -> segment_bytes (Session r) seg (fs (disk s2)) = segment_bytes (Session r) seg (fs (disk s'))).
  { intros seg Hs2. unfold segment_bytes. by rewrite Ed2, lookup_insert_ne by (symmetry; by apply Hne). }
  pose proof (zlen_nonneg data). assert (Hto : zlen (slice_to (zlen hist - zlen data) hist) = zlen hist - zlen data) by (apply zlen_slice_to; lia).
  assert (Hfrom : zlen (slice_from (Written r) hist) = zlen hist - Written r) by (apply zlen_slice_from; lia).
  assert (Hpre : zlen (slice_to (zlen hist - zlen data) hist ++ data) = zlen hist) by (rewrite zlen_app; lia).
  constructor; change (Segment (put_back r (zlen hist) at_ exitCode through)) with (Segment r);
    change (Written (put_back r (zlen hist) at_ exitCode through)) with (zlen hist).
  - rewrite Ed2. apply lookup_insert_eq.
  - done.
  - done.
  - split; [lia|]. unfold misplaced. rewrite app_assoc, zlen_app, Hpre. lia.
  - rewrite Hlook by done. rewrite Ed. unfold misplaced, segment_bytes, rolled_with.
    rewrite lookup_insert_ne by (symmetry; by apply segment_other). rewrite lookup_insert_ne by (symmetry; by apply Hne).
    rewrite lookup_delete_ne by (symmetry; by apply segment_other). fold (segment_bytes (Session r) (Segment r) (fs (disk s))).
    pose proof (zlen_nonneg hist). rewrite Hnew, app_assoc. rewrite (slice_from_app (zlen hist) (_ ++ data)) by lia.
    by rewrite (slice_from_all (zlen hist) (_ ++ data)) by lia.
  - rewrite Hlook by done. rewrite Ed. unfold misplaced, segment_bytes, rolled_with. rewrite lookup_insert_eq. cbn [default from_option].
    rewrite app_assoc, range_app_l by lia. pose proof (range_appended (slice_to (zlen hist - zlen data) hist) data) as Hlast.
    by rewrite Hto, Hpre in Hlast.
Qed.

(** All of a start reads is in the segment the record names. *)
Lemma last_bytes_within n (l k : octets) : 0 < n <= zlen k -> last_bytes n (l ++ k) = last_bytes n k.
Proof.
  intros Hn. unfold last_bytes. replace (n <=? 0) with false by lia. rewrite zlen_app. pose proof (zlen_nonneg l).
  destruct (Z.ltb_spec n (zlen k)).
  - replace (n <? zlen l + zlen k) with true by lia. replace (zlen l + zlen k - n) with (zlen l + (zlen k - n)) by lia.
    rewrite <- slice_from_from by lia. f_equal. rewrite slice_from_app by lia. by rewrite slice_from_all.
  - assert (n = zlen k) as -> by lia. destruct (Z.ltb_spec (zlen k) (zlen l + zlen k)).
    + replace (zlen l + zlen k - zlen k) with (zlen l) by lia. rewrite slice_from_app by lia. by rewrite slice_from_all.
    + assert (l = []) as -> by (apply zlen_pos_nil; lia). done.
Qed.

Lemma last_bytes_from n m (l : octets) : 0 < n -> 0 <= m -> n <= zlen l - m -> last_bytes n (slice_from m l) = last_bytes n l.
Proof.
  intros Hn Hm Hle. rewrite <- (take_drop (Z.to_nat m) l) at 2. symmetry. apply last_bytes_within.
  change (drop (Z.to_nat m) l) with (slice_from m l). rewrite zlen_slice_from by lia. lia.
Qed.

(** The first append of a daemon to a segment that is there, which it fills. *)
Lemma first_append_fills r hist last data d : d !! recordPath (Session r) = Some (Marshal r ++ newline) -> two_segments (Segment r) ->
  Written r = 0 -> d !! segmentPath (Session r) (Segment r) = Some hist -> segment_bytes (Session r) (1 - Segment r) d = [] ->
  0 < zlen (hist ++ last) <= outputSegmentBound -> outputSegmentBound < zlen (hist ++ last) + zlen data ->
  is_u64 (zlen (hist ++ last) + zlen data) ->
  exists m p, rtc store_step (newStore (mkWorld d ∅ [] [])) m /\ finished m /\ full_segment (shared m) r (hist ++ last) 0 p data.
Proof.
  intros Hr Hseg Hz Hd Hother Hfit Hfull Hu. set (w0 := mkWorld d ∅ [] []). set (s0 := mkStoreState w0 ∅ ∅ 0).
  set (op := Append (Session r) last (zlen (hist ++ last))). set (m1 := starts op (program_of op) (newStore w0)).
  assert (Hm1 : rtc store_step (newStore w0) m1) by (eapply rtc_l; [apply op_starts|apply rtc_refl]).
  destruct (runs_on w0 m1 0 op (program_of op) Hm1 eq_refl eq_refl) as (m & Hm & Es & El & Ets).
  change (shared m1) with s0 in Es, Ets.
  change (program_of op) with (returning (append (Session r) last (zlen (hist ++ last)))) in Es, Ets.
  assert (Hwhole : whole s0) by (constructor; cbn; [intros a b q Ha|intros i q Ha|intros q y Ha|intros i q Ha]; by rewrite lookup_empty in Ha).
  destruct (works_reopening r hist last (zlen (hist ++ last)) d ∅ Hr Hseg Hd (lookup_empty _) ltac:(rewrite <- zlen_app; lia)) as (o' & Hworks & Ho').
  assert (Eo : open (as_world s0) = ∅) by (unfold s0, as_world; cbn; apply fmap_empty). rewrite <- Eo in Hworks.
  pose proof (alone_works _ _ s0 _ _ _ _ (append_same s0 (Session r) last (zlen (hist ++ last)) Hwhole) eq_refl Hworks) as Ha.
  rewrite alone_returning_fst in Es, Ets. destruct (Threads.alone run (append (Session r) _ _) s0) as [s' x].
  destruct Ha as (-> & Hs' & Ed & Ef & Eop). cbn [fst snd] in Es, Ets. rewrite <- zlen_app in Ho'.
  assert (Hp : exists p, held s' !! Session r = Some p /\ writer_at p s' = mkWriter true (Segment r) (zlen (hist ++ last))).
  { rewrite <- Eop in Ho'. change (open (as_world s')) with ((fun p => writer_at p s') <$> held s') in Ho'.
    apply lookup_fmap_Some in Ho' as (p & Hw & Hp). by exists p. }
  destruct Hp as (p & Hp & Hw). exists m, p. split_and!.
  - etrans; [exact Hm1|by apply moves_steps].
  - intros t k q Et. rewrite Ets in Et. cbn in Et. destruct t as [|t]; [|done]. injection Et as _ <-. by eexists.
  - rewrite Es. constructor; rewrite ?Hz; try done; [|by rewrite Z.sub_0_r|lia|by rewrite Z.sub_0_r].
    rewrite Ed. assert (Hne : segmentPath (Session r) (Segment r) <> recordPath (Session r)) by (by apply segment_not_record).
    constructor; rewrite ?Hz; [|done|done|lia| |].
    + by rewrite lookup_insert_ne.
    + unfold segment_bytes. by rewrite lookup_insert_eq.
    + unfold segment_bytes in *. by rewrite lookup_insert_ne by (by apply segment_other).
Qed.

(** What a start makes of the files that the stop put back. *)
Lemma misplaced_restores explain not_started stopping r hist data at_ exitCode through now reg d :
  stored (Session r) (misplaced r hist data) (put_back r (zlen hist) at_ exitCode through) (zlen hist - zlen data) d ->
  HighWatermark <= zlen hist - Written r -> zlen data <= zlen hist - Written r -> through <= zlen hist + zlen data ->
  0 <= Written r <= zlen hist -> is_u64 (zlen hist + (zlen hist - Written r) + 2) -> stopped reg = false ->
  let '(w', answer) := restoreOne explain not_started stopping true now (Session r) reg (mkWorld d ∅ [] []) in
  let kept := last_bytes HighWatermark hist in
  exists reg' acts v, answer = inr (reg', outcome_of (Session r) SessionFull "", acts) /\
    sessions reg' = <[Session r := v]> (sessions reg) /\
    ring_ok (continued (misplaced r hist data) kept) (ring v) /\ zlen kept <= zlen (OutputRing.bytes (ring v)) /\
    Session.written v = zlen hist + (zlen hist - Written r) + if mid_line kept then 2 else 0.
Proof.
  intros Hout Hmost Hfit Hthrough Hbounds H64 Hns. pose proof high_watermark_size as Hhw.
  pose proof (zlen_nonneg data). assert (Hmis : zlen (misplaced r hist data) = zlen hist + (zlen hist - Written r)).
  { unfold misplaced. rewrite !zlen_app, zlen_slice_to, zlen_slice_from by lia. lia. }
  assert (Hkept : last_bytes HighWatermark (slice_from (zlen hist - zlen data) (misplaced r hist data)) = last_bytes HighWatermark hist).
  { unfold misplaced. assert (Hto : zlen (slice_to (zlen hist - zlen data) hist) = zlen hist - zlen data) by (apply zlen_slice_to; lia).
    rewrite (slice_from_app _ (slice_to _ _)) by lia. rewrite (slice_from_all _ (slice_to _ _)) by lia.
    cbn [app]. rewrite last_bytes_within by (rewrite zlen_slice_from; lia). apply last_bytes_from; lia. }
  pose proof (outcome true _ _ _ _ (mkWorld d ∅ [] []) (restoreOne_triple explain not_started stopping (fun _ => True) (Session r)
    (misplaced r hist data) _ _ now reg d Hout ltac:(by rewrite Hmis) Hns ltac:(done)) (conj eq_refl eq_refl) (fun _ => eq_refl))
    as (reg' & acts & v & Ha & Hsess & _ & Hstand & _).
  destruct (restoreOne _ _ _ _ _ _ _ _) as [w' answer]. cbn [fst snd] in *. rewrite Hkept in Hstand.
  destruct Hstand as [S1 S2 S3 S4 S5 S6 S7 S8 S9 S10 S11 S12]. exists reg', acts, v. split_and!; [|done|done|done|].
  - rewrite Ha. unfold verdict. cbn. rewrite Hmis. by replace (through <=? _) with true by lia.
  - rewrite S9. unfold continued. rewrite zlen_app, Hmis. by destruct (mid_line _).
Qed.


End races.

(** ** A concrete run *)

#[local] Existing Instance Concrete.platform.
#[local] Existing Instance Concrete.laws.

#[local] Existing Instance wide_contract.
#[local] Existing Instance wide_contract_laws.

(** As much as a segment holds but for the last byte. *)
Definition almost_full : octets := replicate (Z.to_nat (outputSegmentBound - 1)) Byte.x00.

Lemma almost_full_length : zlen almost_full = outputSegmentBound - 1.
Proof. unfold zlen, almost_full. rewrite length_replicate. by apply Z2Nat.id. Qed.

#[local] Opaque almost_full.

(** A daemon starts on that segment, and its first append fills it. *)
Definition almost_files : files :=
  <[segmentPath 7 0 := almost_full]> {[recordPath 7 := Store.Marshal Concrete.record ++ newline]}.

Lemma filled : exists m p, rtc store_step (newStore (mkWorld almost_files ∅ [] [])) m /\ finished m /\
  full_segment (shared m) Concrete.record (almost_full ++ [Byte.x61]) 0 p (text "zz").
Proof.
  assert (Hlen : zlen (almost_full ++ [Byte.x61]) = outputSegmentBound) by (rewrite zlen_app, almost_full_length; done).
  apply (first_append_fills Concrete.record almost_full [Byte.x61] (text "zz") almost_files).
  - unfold almost_files. rewrite lookup_insert_ne by done. apply lookup_singleton_eq.
  - by left.
  - done.
  - unfold almost_files. apply lookup_insert_eq.
  - unfold segment_bytes, almost_files. change (segmentPath (Session Concrete.record) (1 - Segment Concrete.record)) with (segmentPath 7 1).
    by rewrite lookup_insert_ne, lookup_singleton_ne by done.
  - rewrite Hlen. clear Hlen. by vm_compute.
  - rewrite Hlen. clear Hlen. by vm_compute.
  - rewrite Hlen. clear Hlen. by vm_compute.
Qed.

