(* ===== verification/Control.v ===== *)
(** * The control socket's commands (control.go, sort.go)

    One command is one call of a handler on the daemon: the registry with the store behind
    it, the leases, the prepared observers and the process ledger.  A handler answers with
    data or refuses with a code.  JSON, the random source, the clock, the shells and the
    order Go walks a map in answer from outside. *)

From S2P Require Import Prelude Decimal Base64 Contract OutputRing Observer Environment Inventory Store Session Monitor Registry Restore.

(** ** The contract's names *)

Class ControlContract := {
  Protocol : Z;
  ContractVersion : string;
  HandoffNone : string;
  HelloCommand : string;
  SessionsCommand : string;
  SessionCloseCommand : string;
  CommandOpen : string;
  CommandWrite : string;
  CommandResize : string;
  CommandAck : string;
  CommandClose : string;
  CommandSessions : string;
  CommandPane : string;
  CommandCloseWindow : string;
  CommandStatus : string;
  CommandModes : string;
  CommandLease : string;
  CommandDetachRenderer : string;
  CommandPrepareObserver : string;
  CommandDisplays : string;
  CommandProcessInventory : string;
  CommandHandoff : string;
  CommandAttach : string;
  CommandAttachLease : string;
  CommandObserve : string;
  CommandObservePrepared : string;
  CommandProcessObserve : string
}.

(** ** Payloads *)

Record OpenRequest := mkOpenRequest {
  asked : Open;
  askedEnvironment : EnvironmentRequest;
  askedDrop : list string
}.

Record tailRequest := mkTail { TailPaneID : string; TailBytes : Z }.
Record WriteRequest := mkWriteRequest { WriteSession : Z; DataBase64 : string }.
Record ResizeRequest := mkResizeRequest { ResizeSession : Z; AskedCols : Z; AskedRows : Z }.
Record AckRequest := mkAckRequest { AckSession : Z; ThroughSeq : Z }.
Record ModesRequest := mkModesRequest { ModesSession : Z; Report : octets }.
Record LeaseRequest := mkLeaseRequest { LeaseSession : Z; AfterSequence : Z }.
Record DisplaysRequest := mkDisplaysRequest { DisplaysSession : Z; DisplaysToken : string; AskedDisplays : bool }.
Record PrepareObserver := mkPrepare { PreparePaneID : string; PrepareWindowLabel : string; Provider : string; PrepareDisplays : bool }.
Record ObserveRequest := mkObserve { ObserveSession : Z; ObserveToken : string; ObserveDisplays : bool }.
Record AttachRequest := mkAttach { AttachSession : Z; FromSeq : option Z }.

(** How a payload is read out of JSON, and what the contract accepts of an [Open]. *)
Class Wire (Raw : Type) := {
  asOpen : Raw -> option OpenRequest;
  asTail : Raw -> option tailRequest;
  asWrite : Raw -> option WriteRequest;
  asResize : Raw -> option ResizeRequest;
  asAck : Raw -> option AckRequest;
  asSession : Raw -> option Z;
  asPane : Raw -> option string;
  asWindow : Raw -> option string;
  asModes : Raw -> option ModesRequest;
  asLease : Raw -> option LeaseRequest;
  asDisplays : Raw -> option DisplaysRequest;
  asPrepare : Raw -> option PrepareObserver;
  asObserve : Raw -> option ObserveRequest;
  asAttach : Raw -> option AttachRequest;
  asToken : Raw -> option string;
  asSessions : Raw -> option (list string);
  asSessionName : Raw -> option string;
  asInt : Raw -> option Z;
  asString : Raw -> option string;
  Validate : OpenRequest -> bool
}.

(** ** Answers *)

Record OpenedAnswer := mkOpenedAnswer {
  AnswerSession : Z;
  AnswerPane : string;
  AnswerGeneration : Z;
  ShellPID : Z;
  Created : bool
}.

Record observerCount := mkObserverCount {
  CountSession : Z;
  CountPane : string;
  CountObservers : nat;
  CountDisplaying : nat;
  CountTokens : nat;
  CountClosed : bool
}.

Record tailAnswer := mkTailAnswer {
  AnsweredPane : string;
  AnsweredFloor : Z;
  AnsweredThrough : Z;
  AnsweredRetained : Z;
  Returned : Z;
  DataB64 : string
}.

Inductive Data :=
| DOpened (o : OpenedAnswer)
| DWritten (bytes : Z)
| DResized (r : ResizeRequest)
| DAcked (a : AckRequest)
| DClosed (session : Z)
| DSessions (l : list Info)
| DHeld (pane : string) (o : option OpenedAnswer)
| DWindow (label : string) (ended : list Z)
| DStatus (version handoff : string) (l : list Info)
| DReport (r : SessionReport)
| DSessionClosed (r : SessionCloseResult)
| DModes (session : Z) (report : octets)
| DLeased (token : string) (session after : Z)
| DDetached (session : Z) (detached : bool)
| DPrepared (token : string)
| DDisplayed (session : Z) (displays : bool)
| DInventory (l : ProcessInventory)
| DObservers (l : list observerCount)
| DTail (t : tailAnswer).

(** [NoReturn] is a handler that never comes back. *)
Inductive reply := Refuse (code : string) | Answers (d : Data) | NoReturn.

(** ** State *)

(** A prepared observer: an object that the table, its stream and, once it is adopted, a
    session point to. *)
Record preparedObserver := mkPreparedObserver {
  request : PrepareObserver;
  observer_ : observer;
  ready : bool;
  adoptedBy : option (Z * nat)
}.

#[export] Instance prepared_settable : Settable preparedObserver :=
  fun p => mkPreparedObserver (request p) (observer_ p) (ready p) (adoptedBy p).

Section daemon.
Context {W : Type}.

(** [prepared] holds every prepared observer made, [pendingObservers] what the table of
    tokens points to. *)
Record daemon := mkDaemon {
  registry_ : registry;
  token : string;
  leases_ : gmap string Z;
  prepared : gmap nat preparedObserver;
  pendingObservers : gmap string nat;
  madePrepared : nat;
  processes_ : option (monitoring (W := W))
}.

#[export] Instance daemon_settable : Settable daemon :=
  fun d => mkDaemon (registry_ d) (token d) (leases_ d) (prepared d) (pendingObservers d) (madePrepared d) (processes_ d).

(** What answers a call from outside. *)
Record around := mkAround {
  order : list Z;
  clock : Z;
  random : option octets;
  environ : list string;
  shellStarts : bool;
  processTook : bool;
  eventsSupported : bool;
  pidOf : Z -> Z;
  startAnswers : Z -> start_answers (W := W)
}.

End daemon.

Arguments daemon : clear implicits.
Arguments around : clear implicits.

Section handlers.
Context `{PtyContract} `{ControlContract} `{Platform} {Raw : Type} `{Wire Raw} {W : Type} `{ProcessWatch.ProcessTreeWatch W}.
Context (goos : string) (toUpper : string -> string).
Context (identity : string) (daemonPID : Z).

Abbreviation daemon := (daemon W).
Abbreviation around := (around W).

Definition handler := around -> gmap string Raw -> daemon -> io (daemon * reply * list reg_action).

(** [decode]. *)
Definition payload {T} (unmarshal : Raw -> option T) (args : gmap string Raw) : option T :=
  match args !! "request"%string with
  | None => None
  | Some raw => unmarshal raw
  end.

(** A handler that reads its payload first. *)
Definition with_payload {T} (unmarshal : Raw -> option T) (run : T -> around -> daemon -> io (daemon * reply * list reg_action))
    : handler :=
  fun out args d =>
    match payload unmarshal args with
    | None => ret (d, Refuse "ARGUMENT", [])
    | Some request => run request out d
    end.

Definition on_registry (f : registry -> registry) (d : daemon) : daemon :=
  d <| registry_ := f (registry_ d) |>.

Definition put_session (v : session) : daemon -> daemon :=
  on_registry (fun reg => reg <| sessions := <[id v := v]> (sessions reg) |>).

(** What the monitors hear of a call: a session that started, and the ends it caused. *)
Definition hear_started (out : around) (v : session) (d : daemon) : daemon :=
  d <| processes_ := processSessionStarted identity daemonPID (closed v) v (startAnswers out (id v)) <$> processes_ d |>.

Definition hear_act (s : option (monitoring (W := W))) (a : reg_action) : option (monitoring (W := W)) :=
  match a with
  | Act (ProcessEnded sid at_) => processSessionEnded sid at_ <$> s
  | _ => s
  end.

Definition hear_ended (acts : list reg_action) (d : daemon) : daemon :=
  d <| processes_ := fold_left hear_act acts (processes_ d) |>.

(** A handler that works on a session the registry holds. *)
Definition with_session (sid : Z) (d : daemon)
    (run : session -> io (daemon * reply * list reg_action)) : io (daemon * reply * list reg_action) :=
  match get sid (registry_ d) with
  | None => ret (d, Refuse "NO_SESSION", [])
  | Some v => run v
  end.

(** *** Opening *)

Definition creationFacts (v : session) : sessionRecord :=
  mkRecord (id v) (paneID v) (windowLabel v) (cwd v) (command v) (environment v) (cols v) (rows v)
    (startedAt v) None None 0 0 0 "" "" [].

Definition opened (out : around) (v : session) (created : bool) : OpenedAnswer :=
  mkOpenedAnswer (id v) (paneID v) (generation v) (pidOf out (id v)) created.

(** The prepared observer a request names, taken out of the table when it is ready and
    prepared for this pane and window; [None] for a token that is none of that. *)
Definition take_prepared (r : Open) (d : daemon) : daemon * option (option nat) :=
  if String.eqb (ObserverToken r) "" then (d, Some None)
  else
    match pendingObservers d !! ObserverToken r with
    | None => (d, None)
    | Some n =>
        match prepared d !! n with
        | None => (d, None)
        | Some p =>
            if ready p && String.eqb (PreparePaneID (request p)) (PaneID r) &&
               String.eqb (PrepareWindowLabel (request p)) (WindowLabel r)
            then (d <| pendingObservers := delete (ObserverToken r) (pendingObservers d) |>, Some (Some n))
            else (d, None)
        end
    end.

Definition held_prepared (taken : option nat) (d : daemon) : option preparedObserver :=
  match taken with None => None | Some n => prepared d !! n end.

(** The session an observer is with from now on. *)
Definition mark_adopted (taken : option nat) (sid : Z) (o : nat) (d : daemon) : daemon :=
  match taken with
  | None => d
  | Some n => d <| prepared := alter (fun p => p <| adoptedBy := Some (sid, o) |>) n (prepared d) |>
  end.

(** [registry.openWithObserver], its store and its monitors behind it. *)
Definition openWithObserver (r : OpenRequest) (taken : option nat) (out : around) (d : daemon)
    : io (daemon * reply * list reg_action) :=
  match open_check (asked r) (registry_ d) with
  | inl _ => ret (d, Refuse "OPEN", [])
  | inr named =>
      let env := sessionEnvironment goos toUpper (environ out) (askedEnvironment r) (askedDrop r) in
      let given := (fun p => Registry.mkPrepared (PrepareDisplays (request p)) (observer_ p)) <$> held_prepared taken d in
      if negb (shellStarts out) then ret (d, Refuse "OPEN", [])
      else
        match register (asked r) named env (clock out) given (registry_ d) with
        | None => ret (d, NoReturn, [])
        | Some (reg, inl _, acts) => ret (d <| registry_ := reg |>, Refuse "OPEN", acts)
        | Some (reg, inr sid, acts) =>
            let d := d <| registry_ := reg |> in
            match sessions reg !! sid with
            | None => ret (d, NoReturn, acts)
            | Some v =>
                do created <- (if hasStore v then attempt (Store.create (creationFacts v)) else ret (inr tt));
                let v := finish_open (match created with inr _ => true | inl _ => false end)
                           (bool_decide (given <> None)) v in
                ret (mark_adopted taken sid 0%nat (hear_started out v (put_session v d)),
                     Answers (DOpened (opened out v true)), acts)
            end
        end
  end.

Definition adopt_prepared (token : string) (taken : option nat) (v : session) (d : daemon) : daemon :=
  match held_prepared taken d with
  | None => d
  | Some p =>
      let '(v, o) := adoptObserver token (PrepareDisplays (request p)) (observer_ p) v in
      mark_adopted taken (id v) o (put_session v d)
  end.

Definition open : handler := with_payload asOpen (fun r out d =>
  if negb (Validate r) then ret (d, Refuse "ARGUMENT", [])
  else
    match take_prepared (asked r) d with
    | (d, None) => ret (d, Refuse "OBSERVER_NOT_READY", [])
    | (d, Some taken) =>
        match byPane (order out) (PaneID (asked r)) (registry_ d) with
        | Some existing =>
            if negb (String.eqb (PaneID (asked r)) "")
            then ret (adopt_prepared (ObserverToken (asked r)) taken existing d, Answers (DOpened (opened out existing false)), [])
            else openWithObserver r taken out d
        | None => openWithObserver r taken out d
        end
    end).

(** *** Sessions *)

Definition write : handler := with_payload asWrite (fun r out d =>
  match Base64.decode (DataBase64 r) with
  | None => ret (d, Refuse "ARGUMENT", [])
  | Some data => with_session (WriteSession r) d (fun v =>
      let '(failed, acts) := Session.write data (processTook out) v in
      ret (d, match failed with None => Answers (DWritten (zlen data)) | Some _ => Refuse "WRITE" end, map Act acts))
  end).

Definition resize : handler := with_payload asResize (fun r out d =>
  with_session (ResizeSession r) d (fun v =>
    let '(v, failed, acts) := Session.resize (AskedCols r) (AskedRows r) (processTook out) v in
    do sized <- (match failed with
                 | None => if hasStore v then attempt (Store.setSize (id v) (AskedCols r) (AskedRows r)) else ret (inr tt)
                 | Some _ => ret (inr tt)
                 end);
    ret (put_session v d, match failed with None => Answers (DResized r) | Some _ => Refuse "RESIZE" end, map Act acts))).

Definition ack : handler := with_payload asAck (fun r out d =>
  with_session (AckSession r) d (fun v =>
    ret (put_session (Session.ack (ThroughSeq r) v) d, Answers (DAcked r), []))).

Definition closeSession : handler := with_payload asSession (fun sid out d =>
  with_session sid d (fun _ =>
    do '(reg, ended, acts) <- close_stored sid (clock out) (registry_ d);
    ret (hear_ended acts (d <| registry_ := reg |>), if (ended : bool) then Answers (DClosed sid) else Refuse "NO_SESSION", acts))).

Definition sessions_ : handler := fun out _ d => ret (d, Answers (DSessions (list_sessions (order out) (registry_ d))), []).

Definition status : handler := fun out _ d =>
  ret (d, Answers (DStatus ContractVersion HandoffNone (list_sessions (order out) (registry_ d))), []).

Definition pane : handler := with_payload asPane (fun name out d =>
  ret (d, Answers (DHeld name ((fun v => opened out v false) <$> byPane (order out) name (registry_ d))), [])).

Definition closeWindow : handler := with_payload asWindow (fun label out d =>
  let '(reg, ended, acts) := Registry.closeWindow (order out) label (clock out) (registry_ d) in
  perform acts;;;
  ret (hear_ended acts (d <| registry_ := reg |>), Answers (DWindow label ended), acts)).

Definition sessionReport : handler := with_payload asSessions (fun named out d =>
  ret (d, Answers (DReport (restoreReport named (registry_ d))), [])).

Definition sessionClose : handler := with_payload asSessionName (fun name out d =>
  do '(reg, closed_, acts) <- Restore.closeSession name (clock out) (registry_ d);
  ret (hear_ended acts (d <| registry_ := reg |>), Answers (DSessionClosed closed_), acts)).

Definition modes : handler := with_payload asModes (fun r out d =>
  if negb (store (registry_ d)) then ret (d, Refuse "UNSUPPORTED", [])
  else
    do set_ <- (if 0 <? zlen (Report r) then attempt (Store.setModes (ModesSession r) (Report r)) else ret (inr tt));
    match set_ with
    | inl _ => ret (d, Refuse "TARGET_NOT_FOUND", [])
    | inr _ =>
        do record <- attempt (Store.read (ModesSession r));
        ret (d, match record with
                | inl _ => Refuse "TARGET_NOT_FOUND"
                | inr record => Answers (DModes (ModesSession r) (Modes record))
                end, [])
    end).

Definition tail : handler := with_payload asTail (fun r out d =>
  if String.eqb (TailPaneID r) "" then ret (d, Refuse "ARGUMENT", [])
  else
    let limit := if TailBytes r =? 0 then 4096 else TailBytes r in
    if (limit <? 1) || (65536 <? limit) then ret (d, Refuse "ARGUMENT", [])
    else
      match byPane (order out) (TailPaneID r) (registry_ d) with
      | None => ret (d, Refuse "NO_SESSION", [])
      | Some v =>
          let '(floor, through, data) := snapshot (ring v) in
          let retained := zlen data in
          let data := if limit <? zlen data then slice_from (zlen data - limit) data else data in
          ret (d, Answers (DTail (mkTailAnswer (TailPaneID r) floor through retained (zlen data) (Base64.encode data))), [])
      end).

(** *** Renderers, observers, processes *)

Definition lease : handler := with_payload asLease (fun r out d =>
  with_session (LeaseSession r) d (fun v =>
    match random out with
    | None => ret (d, Refuse "RANDOM", [])
    | Some bytes =>
        let token := Base64.hex bytes in
        let '(held, kept) := OutputRing.lease token (AfterSequence r) (ring v) in
        if negb kept then ret (d, Refuse "LEASE_CURSOR", [])
        else ret ((put_session (v <| ring := held |>) d) <| leases_ := <[token := LeaseSession r]> (leases_ d) |>,
                  Answers (DLeased token (LeaseSession r) (AfterSequence r)), [])
    end)).

Definition detachRenderer : handler := with_payload asSession (fun sid out d =>
  with_session sid d (fun v =>
    let '(v, detached) := detachActiveRenderer (clock out) v in
    ret (put_session v d, Answers (DDetached sid detached), []))).

Definition displays : handler := with_payload asDisplays (fun r out d =>
  if String.eqb (DisplaysToken r) "" then ret (d, Refuse "ARGUMENT", [])
  else with_session (DisplaysSession r) d (fun v =>
    match setDisplays (DisplaysToken r) (AskedDisplays r) (clock out) v with
    | (v, Some _) => ret (d, Refuse "OBSERVER_NOT_FOUND", [])
    | (v, None) => ret (put_session v d, Answers (DDisplayed (DisplaysSession r) (AskedDisplays r)), [])
    end)).

Definition prepareObserver : handler := with_payload asPrepare (fun r out d =>
  if String.eqb (PreparePaneID r) "" || String.eqb (PrepareWindowLabel r) "" || String.eqb (Provider r) ""
  then ret (d, Refuse "ARGUMENT", [])
  else
    match random out with
    | None => ret (d, Refuse "RANDOM", [])
    | Some bytes =>
        let token := Base64.hex bytes in
        let n := madePrepared d in
        ret (d <| madePrepared := S n |> <| pendingObservers := <[token := n]> (pendingObservers d) |>
               <| prepared := <[n := mkPreparedObserver r (newObserver ObserverBufferBytes) false None]> (prepared d) |>,
             Answers (DPrepared token), [])
    end).

Definition observers_ : handler := fun out _ d =>
  ret (d, Answers (DObservers (omap (fun sid => (fun v => mkObserverCount (id v) (paneID v)
    (base.size (Session.observers v)) (base.size (displaying v)) (base.size (observerTokens v)) (closed v)) <$> sessions (registry_ d) !! sid) (order out))), []).

Definition start_monitoring (out : around) (d : daemon) : daemon :=
  d <| processes_ := Some (startProcessMonitoring identity daemonPID (startAnswers out)
         (omap (fun sid => sessions (registry_ d) !! sid) (order out)) (processes_ d)) |>.

Definition ledger (d : daemon) : processInventoryState :=
  match processes_ d with Some s => processState s | None => newProcessInventoryState end.

Definition processInventory : handler := fun out _ d =>
  let d := start_monitoring out d in ret (d, Answers (DInventory (snapshotLocked (ledger d))), []).

(** *** The table *)

Definition command_table : list (string * handler) :=
  [(CommandOpen, open); (CommandWrite, write); (CommandResize, resize); (CommandAck, ack);
   (CommandClose, closeSession); (CommandSessions, sessions_); (CommandPane, pane);
   (CommandCloseWindow, closeWindow); (CommandStatus, status); (SessionsCommand, sessionReport);
   (SessionCloseCommand, sessionClose); (CommandModes, modes); (CommandLease, lease);
   (CommandDetachRenderer, detachRenderer); (CommandPrepareObserver, prepareObserver);
   (CommandDisplays, displays); (CommandProcessInventory, processInventory);
   ("pty.observers"%string, observers_); ("pty.tail"%string, tail)].

Definition commands : gmap string handler := list_to_map command_table.

Definition unserved : gset string := {[CommandHandoff]}.

End handlers.

(** ** The tail of a pane *)

Section tails.
Context `{PtyContractLaws} `{ControlContract} `{Platform} {Raw : Type} `{Wire Raw} {W : Type} `{ProcessWatch.ProcessTreeWatch W}.

Definition tail_limit (r : tailRequest) : Z := if TailBytes r =? 0 then 4096 else TailBytes r.

Lemma last_bytes_of (data : octets) limit : 1 <= limit ->
  let kept := if limit <? zlen data then slice_from (zlen data - limit) data else data in
  zlen kept = Z.min limit (zlen data) /\ kept = slice_from (zlen data - zlen kept) data.
Proof.
  intros Hl. pose proof (zlen_nonneg data). cbn zeta. destruct (Z.ltb_spec limit (zlen data)).
  - rewrite !zlen_slice_from by lia. split; [lia|f_equal; lia].
  - split; [lia|]. by rewrite Z.sub_diag.
Qed.

(** C32: a tail changes nothing.  It is answered with the last bytes the pane's session
    retains, as many as were asked for when there are as many, at most 65536; in the
    coordinates of the whole output they are its very end.  It is refused for a payload
    that is not one, an empty pane or a count out of range, and for a pane without a session;
    it is answered only for a pane that is named and a count in range. *)
Theorem tail_within_bounds (out : around W) (args : gmap string Raw) (d : daemon W) w :
  let '(w', answer) := tail out args d w in
  w' = w /\
  match answer with
  | inl _ => False
  | inr (d', reply, acts) => d' = d /\ acts = [] /\
      match payload asTail args, reply with
      | None, Refuse code => code = "ARGUMENT"%string
      | Some r, Refuse code =>
          code = "ARGUMENT"%string /\ (TailPaneID r = ""%string \/ ~ 1 <= tail_limit r <= 65536) \/
          code = "NO_SESSION"%string /\ byPane (order out) (TailPaneID r) (registry_ d) = None
      | Some r, Answers data => TailPaneID r <> ""%string /\ exists v t, data = DTail t /\ byPane (order out) (TailPaneID r) (registry_ d) = Some v /\
          1 <= tail_limit r <= 65536 /\ AnsweredRetained t = zlen (OutputRing.bytes (ring v)) /\
          Returned t = Z.min (tail_limit r) (AnsweredRetained t) /\
          forall hist, ring_ok hist (ring v) -> AnsweredThrough t = zlen hist /\
            Base64.decode (DataB64 t) = Some (slice_from (zlen hist - Returned t) hist)
      | _, _ => False
      end
  end.
Proof.
  unfold tail, with_payload. destruct (payload asTail args) as [r|]; [|done]. fold (tail_limit r).
  destruct (String.eqb_spec (TailPaneID r) ""); [cbn; split; [done|]; split; [done|]; split; [done|]; left; auto|].
  destruct (Z.ltb_spec (tail_limit r) 1), (Z.ltb_spec 65536 (tail_limit r)); cbn [orb];
    try (cbn; split; [done|]; split; [done|]; split; [done|]; left; split; [done|right; lia]).
  destruct (byPane (order out) (TailPaneID r) (registry_ d)) as [v|]; [|cbn; auto 10].
  unfold snapshot. destruct (last_bytes_of (OutputRing.bytes (ring v)) (tail_limit r)) as [Hlen Hkept]; [lia|].
  cbn zeta in Hlen, Hkept. set (kept := if tail_limit r <? _ then _ else _) in *.
  split; [done|]. split; [done|]. split; [done|]. split; [done|]. eexists v, _. split; [done|]. split; [done|]. split; [lia|].
  split; [done|]. split; [exact Hlen|]. intros hist Hring. cbn [AnsweredThrough DataB64 Returned]. split; [by apply ring_ok_live|].
  rewrite Base64.decode_encode. f_equal. destruct Hring as [[Hok _] [Hl Hb]]. pose proof (floor_nonneg _ Hok). pose proof (zlen_nonneg kept).
  transitivity (slice_from (zlen (OutputRing.bytes (ring v)) - zlen kept) (OutputRing.bytes (ring v))); [exact Hkept|].
  replace (zlen (OutputRing.bytes (ring v))) with (zlen hist - floor (ring v)) by lia.
  rewrite Hb, slice_from_from by lia. f_equal. lia.
Qed.

End tails.
