(* ===== verification/Pipeline.v ===== *)
(** * A session's output from its shell to the next life (session.go, feed.go, store.go, restore.go)

    What a shell prints goes through the session and its feed to the store, and from the
    store to the session that a later start stands up.  Here the parts are put together: the
    pump, the goroutine of the feed, the record writes, the parts of a stop, the death
    of the process at any point and the restore, over any number of lives.  Each part is the
    definition of its own file.  One step is one critical section of the session or one call
    of the store, whose calls on the file system may fail; the stop write is two, since it
    lets go of its writer before it writes the record, and the feed runs on in between.  A
    process that dies leaves any directory its last step passed through. *)

From stdpp Require Import pretty.
From S2P Require Import Prelude Control Threads Decimal Contract OutputRing Observer StoreFeed StoreLocks StoreAlone StoreRaces Store Session Registry Restore.

(** ** The parts *)

(** What the daemon says about a session on the standard error. *)
Inductive complaint :=
| FeedSays (r : report)
| KeepsOldSize
| NotMarked.

(** [inflight] and [returned] are the goroutine of the feed, [disk] the store.  [alive] says
    whether the process runs.  [looked] is a stop in the middle: where it will say that the
    output ends, and the segment it saw once it looked.  [marked] is where the stop said the output ends,
    [crossed] that a stop wrote back a segment that the feed had left meanwhile, and [history]
    everything the coordinates of the session name: what its shells printed. *)
Record pipeline := mkPipeline {
  value : session;
  inflight : option chunk;
  returned : bool;
  disk : world;
  said : list complaint;
  alive : bool;
  looked : option (Z * option Z);
  marked : option Z;
  crossed : bool;
  history : octets
}.

#[export] Instance pipeline_settable : Settable pipeline :=
  fun s => mkPipeline (value s) (inflight s) (returned s) (disk s) (said s) (alive s) (looked s) (marked s) (crossed s) (history s).

(** The buffer of [pump]. *)
Definition readBuffer : Z := 32 * 1024.

Section pipeline.
Context `{PtyContract} `{Platform}.
Context (explain : io_error -> string) (not_started stopping : string).

(** The sink of [storeFeedFor], and what [run] says when it fails. *)
Definition storeFeedFor (sid : Z) (data : octets) (through : Z) : io unit := Store.append sid data through.

(** The goroutine of the feed: it takes the next chunk, hands the one it holds to the sink,
    or returns; [None] when it waits or has returned. *)
Definition run_turn (s : pipeline) : option pipeline :=
  if returned s then None
  else match inflight s with
  | Some next =>
      let '(w, answer) := storeFeedFor (id (value s)) (StoreFeed.data next) (StoreFeed.through next) (disk s) in
      Some (s <| inflight := None |> <| disk := w |>
              <| said := said s ++ match answer with inr _ => [] | inl _ => [FeedSays (Failed (zlen (StoreFeed.data next)))] end |>)
  | None =>
      match feed (value s) with
      | None => None
      | Some f =>
          match run_locked f with
          | RunWaits => None
          | RunReturns => Some (s <| returned := true |>)
          | RunTakes next f => Some (s <| value := (value s) <| feed := Some f |> |> <| inflight := Some next |>)
          end
      end
  end.

(** The shell prints [data]. *)
Definition prints (data : octets) (now : Z) (s : pipeline) : pipeline :=
  let '(v, reports) := pump_chunk data now (value s) in
  s <| value := v |> <| said := said s ++ map FeedSays reports |> <| history := history s ++ data |>.

(** The record writes among the calls a session makes. *)
Fixpoint record_sizes (acts : list action) (w : world) : world * list complaint :=
  match acts with
  | [] => (w, [])
  | StoreSetSize sid c r :: acts =>
      let '(w, answer) := setSize sid c r w in
      let '(w, more) := record_sizes acts w in
      (w, match answer with inr _ => [] | inl _ => [KeepsOldSize] end ++ more)
  | _ :: acts => record_sizes acts w
  end.

Definition resized (c r : Z) (processOk : bool) (s : pipeline) : pipeline :=
  let '(v, _, acts) := resize c r processOk (value s) in
  let '(w, complaints) := record_sizes acts (disk s) in
  s <| value := v |> <| disk := w |> <| said := said s ++ complaints |>.

(** [shutdown] for one session.  First it reads where the output ends, under the lock of the
    session. *)
Definition stop_begin (s : pipeline) : pipeline := s <| looked := Some (Session.written (value s), None) |>.

(** Then the stop write, up to the release of the writer. *)
Definition stop_look (s : pipeline) : pipeline :=
  match looked s with
  | Some (through, None) =>
      let '(w, seg) := (do held <- Store.heldWriter (id (value s)); writer_segment held) (disk s) in
      s <| disk := w |> <| looked := Some (through, Some (match seg with inr seg => seg | inl _ => -1 end)) |>
  | _ => s
  end.

(** The record names another segment than the one that was seen. *)
Definition left_since (sid seg : Z) (d : files) : bool :=
  match record_after_crash d sid with
  | inr record => (0 <=? seg) && negb (Store.Segment record =? seg)
  | inl _ => false
  end.

(** The rest of the stop write: the record. *)
Definition stop_record (at_ : Z) (s : pipeline) : pipeline :=
  match looked s with
  | Some (through, Some seg) =>
      let '(w, answer) := mark_record (id (value s)) at_ None through seg (disk s) in
      s <| disk := w |> <| looked := None |> <| marked := Some through |>
        <| crossed := crossed s || left_since (id (value s)) seg (fs (disk s)) |>
        <| said := said s ++ match answer with inr _ => [] | inl _ => [NotMarked] end |>
  | _ => s
  end.

(** The last part: the reap, up to the wait for the feed. *)
Definition stop_reap (now : Z) (s : pipeline) : pipeline := s <| value := fst (reap false now (value s)) |>.

(** Operations of a session that are not steps of their own. *)
Definition aside (op : session_op) : Prop :=
  match op with OpPump _ | OpResize _ _ _ | OpReap _ => False | _ => op_ok op end.

(** Where a process that dies now leaves the directory. *)
Definition left_behind (s : pipeline) (d : files) : Prop := d = fs (disk s) \/ d ∈ passed (disk s).

(** The text that the coordinates of a session restored from [d] name. *)
Definition recovered (sid : Z) (d : files) (hist : octets) : octets :=
  match output_after_crash d sid HighWatermark with
  | inr (kept, through) => continued (slice_to through hist) kept
  | inl _ => hist
  end.

(** The states the directory passes through are those of the last step. *)
Definition fresh (s : pipeline) : pipeline := s <| disk := (disk s) <| passed := [] |> |>.

Inductive pipe_step : pipeline -> pipeline -> Prop :=
| pipe_prints data now s : alive s = true -> 0 < zlen data <= readBuffer ->
    zlen (history s ++ data) + 2 < two64 -> pipe_step s (prints data now (fresh s))
| pipe_runs s s' : alive s = true -> run_turn (fresh s) = Some s' -> pipe_step s s'
| pipe_session op now s : alive s = true -> aside op ->
    pipe_step s ((fresh s) <| value := run_op op now (value s) |>)
| pipe_resizes c r processOk s : alive s = true -> pipe_step s (resized c r processOk (fresh s))
| pipe_foreground prog dir s : alive s = true ->
    pipe_step s ((fresh s) <| disk := fst (setForeground (id (value s)) prog dir (disk (fresh s))) |>)
| pipe_modes report s : alive s = true ->
    pipe_step s ((fresh s) <| disk := fst (setModes (id (value s)) report (disk (fresh s))) |>)
| pipe_begins s : alive s = true -> marked s = None -> looked s = None -> pipe_step s (stop_begin (fresh s))
| pipe_looks s : alive s = true -> pipe_step s (stop_look (fresh s))
| pipe_records at_ s : alive s = true -> pipe_step s (stop_record at_ (fresh s))
| pipe_reaps now s : alive s = true -> marked s <> None -> pipe_step s (stop_reap now (fresh s))
| pipe_dies d s : alive s = true -> left_behind s d ->
    pipe_step s (s <| disk := mkWorld d ∅ [] [] |> <| alive := false |> <| looked := None |> <| returned := false |>)
| pipe_cut d now reg s : alive s = false -> stopped reg = false ->
    d ∈ passed (fst (restoreOne explain not_started stopping true now (id (value s)) reg (disk s))) ->
    pipe_step s (s <| disk := mkWorld d ∅ [] [] |>)
| pipe_restarts now reg reg' outcome acts v w later s : alive s = false -> stopped reg = false ->
    zlen (history s) + 4 < two64 ->
    restoreOne explain not_started stopping true now (id (value s)) reg (disk s) = (w, inr (reg', outcome, acts)) ->
    sessions reg' !! id (value s) = Some v ->
    pipe_step s (mkPipeline v None false (mkWorld (fs w) (Store.open w) later []) (said s) true None None (crossed s)
                   (recovered (id (value s)) (fs (disk s)) (history s))).

(** A session that was just opened, its record written: [openWithObserver] past the lock. *)
Inductive begins (sid : Z) : pipeline -> Prop :=
| begins_open pane window dir cmd at_ gen c r env prepared announced w w1 :
    let v := newSession sid pane window dir cmd at_ gen c r env true prepared in
    (forall n, n ∈ session_files sid -> fs w !! n = None) -> Store.open w !! sid = None ->
    Store.create (creationFacts v) w = (w1, inr tt) ->
    begins sid (mkPipeline (finish_open true announced v) None false (w1 <| passed := [] |>) [] true None None false []).

(** ** What the files hold *)

(** The chunk in the goroutine's hands and those in the queue. *)
Definition on_the_way (s : pipeline) (f : storeFeed) : list chunk :=
  match inflight s with Some c => [c] | None => [] end ++ pending f.

Definition bytes_of (cs : list chunk) : octets := concat (map StoreFeed.data cs).

#[global] Arguments bytes_of : simpl never.
#[global] Arguments on_the_way : simpl never.

#[global] Arguments chunk_bytes : simpl never.

(** Chunks that fit the read buffer and state where they end, from [at_] on. *)
Fixpoint numbered (at_ : Z) (cs : list chunk) : Prop :=
  match cs with
  | [] => True
  | c :: cs => StoreFeed.through c = at_ + zlen (StoreFeed.data c) /\ zlen (StoreFeed.data c) <= readBuffer /\
               numbered (at_ + zlen (StoreFeed.data c)) cs
  end.

Definition session_place (v : session) := (paneID v, windowLabel v, cwd v, Session.command v, environment v).

Definition record_place (r : sessionRecord) :=
  (Store.PaneID r, Store.WindowLabel r, Store.CWD r, Store.Command r, Store.Environment r).

(** Where the record says the output ended, if it says the session was stopped. *)
Definition stop_mark (r : sessionRecord) : option Z :=
  match EndedAtUnixMs r with Some _ => Some (EndedThrough r) | None => None end.

End pipeline.

Section correct.
Context `{PtyContractLaws} `{PlatformLaws}.
Context (explain : io_error -> string) (not_started stopping : string).

(** The directory [d] holds the output up to [hist], the end of which is [start] on, and the
    session it is the output of. *)
Record survives (sid : Z) (s : pipeline) (d : files) (hist : octets) (r : sessionRecord) (start : Z) : Prop := {
  survives_stored : stored sid hist r start d;
  survives_prefix : hist `prefix_of` history s;
  survives_retained : retention (zlen hist + readBuffer) hist r start;
  survives_place : record_place r = session_place (value s);
  survives_mark : stop_mark r = None \/ stop_mark r = marked s;
  survives_bound : (exists f, feed (value s) = Some f /\ StoreFeed.closed f = true) \/
    zlen (history s) <= zlen hist + feedDepth + readBuffer
}.

(** A running session and its files: what the session printed is on the disk, in the hands of
    the goroutine or in the queue, in this order, but for what came after the feed closed. *)
Record settled (sid : Z) (s : pipeline) (f : storeFeed) (hist : octets) (r : sessionRecord) (start : Z) (late : octets) : Prop := {
  settled_feed : feed (value s) = Some f;
  settled_stored : stored sid hist r start (fs (disk s));
  settled_retained : retention (zlen hist + readBuffer) hist r start;
  settled_writer : writer_ok sid hist r (Store.open (disk s));
  settled_place : record_place r = session_place (value s);
  settled_size : (Store.Cols r, Store.Rows r) = (cols (value s), rows (value s));
  settled_mark : stop_mark r = marked s;
  settled_text : history s = hist ++ bytes_of (on_the_way s f) ++ late;
  settled_numbered : numbered (zlen hist) (on_the_way s f);
  settled_queued : queued f = chunk_bytes (pending f) /\ queued f <= feedDepth;
  settled_late : StoreFeed.closed f = false -> late = [];
  settled_closed : StoreFeed.closed f = true -> marked s <> None;
  settled_marked : forall m, marked s = Some m -> m <= zlen (history s) - zlen late;
  settled_returned : returned s = true -> StoreFeed.closed f = true /\ on_the_way s f = [];
  settled_looked : forall m seg, looked s = Some (m, seg) -> marked s = None /\ m <= zlen (history s)
}.

(** The session in memory. *)
Record live (sid : Z) (s : pipeline) : Prop := {
  live_id : id (value s) = sid;
  live_store : hasStore (value s) = true;
  live_ring : ring_ok (history s) (ring (value s));
  live_written : written (value s) = zlen (history s);
  live_room : zlen (history s) + 2 < two64
}.

Definition pipe_ok (sid : Z) (s : pipeline) : Prop :=
  said s = [] -> crossed s = false ->
  live sid s /\
  (if alive s
   then (exists f hist r start late, settled sid s f hist r start late) /\
        (forall d, d ∈ passed (disk s) -> exists hist r start, survives sid s d hist r start)
   else Store.open (disk s) = ∅ /\ fates (disk s) = [] /\ passed (disk s) = [] /\ returned s = false /\
        exists hist r start, survives sid s (fs (disk s)) hist r start).

(** ** The parts keep what they should *)

Lemma bytes_of_app cs cs' : bytes_of (cs ++ cs') = bytes_of cs ++ bytes_of cs'.
Proof. unfold bytes_of. by rewrite map_app, concat_app. Qed.

Lemma bytes_of_cons c cs : bytes_of (c :: cs) = StoreFeed.data c ++ bytes_of cs.
Proof. done. Qed.

Lemma zlen_bytes_of cs : zlen (bytes_of cs) = chunk_bytes cs.
Proof. done. Qed.

Lemma numbered_snoc at_ cs data : numbered at_ cs -> zlen data <= readBuffer ->
  numbered at_ (cs ++ [mkChunk data (at_ + zlen (bytes_of cs) + zlen data)]).
Proof.
  intros Hcs Hd. revert at_ Hcs. induction cs as [|c cs IH]; intros at_ Hcs; cbn.
  - split_and!; [zsolve|done|done].
  - destruct Hcs as (Hc1 & Hc2 & Hc3). split_and!; [done|done|]. rewrite bytes_of_cons, zlen_app.
    rewrite Z.add_assoc. by apply IH.
Qed.

(** What an operation on the side leaves of a session. *)
Definition standing (v : session) :=
  (id v, session_place v, (cols v, rows v), hasStore v, feed v, written v, closed v).

Lemma aside_keeps hist op now v : aside op ->
  standing (run_op op now v) = standing v /\ (ring_ok hist (ring v) -> zlen hist < two64 -> ring_ok hist (ring (run_op op now v))).
Proof.
  destruct op as [data|b| | |gen| |c r ok|token d|token d|token d x|o|o|o|t|ro|e]; cbn [aside run_op]; intros Ha; try done.
  - unfold detachRenderer. destruct (rendererAttached v && (rendererGeneration v =? gen)); [|done].
    by destruct (negb (presenceLocked _)).
  - unfold detachActiveRenderer. destruct (rendererAttached v); cbn [andb]; [|done].
    by destruct (negb (presenceLocked _)).
  - unfold observe. destruct (negb (String.eqb token "")); [|by destruct d].
    destruct (observerTokens v !! token); [|done]. by destruct d.
  - unfold setDisplays. destruct (observerTokens v !! token); [|done]. destruct d; [done|].
    case_bool_decide; [|done]. by destruct (negb (presenceLocked _)).
  - unfold adoptObserver. by destruct d.
  - unfold removeObserver. by destruct (_ && _).
  - unfold take_event. destruct (heap v !! o) as [x|]; [|done]. by destruct (Observer.next x).
  - unfold ack. destruct (OutputRing.resumed _ _); (split; [done|]); intros; by apply ack_ok.
  - split; [done|]. cbn in Ha. intros Hr Hlen. pose proof (apply_op_ok hist ro (ring v) Hr) as Hro. rewrite Ha, app_nil_r in Hro.
    apply Hro. rewrite zlen_nil. lia.
Qed.

(** A call of the store on its own: what it leaves and what it passes through. *)
Lemma store_call {A} (C : files -> Prop) (m : io A) w Q :
  triple false C (fun d o => d = fs w /\ o = Store.open w) m Q -> passed w = [] ->
  let '(w', a) := m w in Q a (fs w') (Store.open w') /\ forall d, d ∈ passed w' -> C d.
Proof.
  intros Hm Hw. pose proof (outcome false C _ m Q w Hm ltac:(done) ltac:(done)) as Ho.
  pose proof (fun d => in_passed false C _ m Q w d Hm ltac:(done) ltac:(done)) as Hp. rewrite Hw in Hp.
  destruct (m w) as [w' a]. cbn in *. split; [done|]. intros d Hd. destruct (Hp d Hd) as [?%elem_of_nil|]; done.
Qed.

Lemma settled_survives sid s f hist r start late : settled sid s f hist r start late ->
  survives sid s (fs (disk s)) hist r start.
Proof.
  intros Hs. pose proof Hs as [Sf Sst Sret Sw Sp Ssz Sm St Sn [Sq Sb] Sl Sc Smk Sr Slk]. constructor; try done.
  - rewrite St. by apply prefix_app_r.
  - by right.
  - destruct (StoreFeed.closed f) eqn:Ec; [left; by exists f|right]. rewrite St, (Sl eq_refl), app_nil_r, zlen_app, zlen_bytes_of.
    unfold on_the_way. rewrite chunk_bytes_app, <- Sq. unfold on_the_way in Sn. destruct (inflight s) as [c|]; cbn [app numbered] in *.
    + destruct Sn as (_ & Hc & _). rewrite chunk_bytes_cons. change (chunk_bytes []) with 0. lia.
    + change (chunk_bytes []) with 0. unfold readBuffer. lia.
Qed.

(** Facts that the output fields of a record do not touch. *)
Lemma same_facts_keep r r' : same_facts r r' ->
  record_place r' = record_place r /\ stop_mark r' = stop_mark r /\ (Store.Cols r', Store.Rows r') = (Store.Cols r, Store.Rows r).
Proof. unfold same_facts. by intros ->. Qed.

Lemma reader_fits : readBuffer <= outputSegmentBound.
Proof. unfold readBuffer, outputSegmentBound. lia. Qed.

(** A chunk that reaches the store, or a first part of it. *)
Lemma sink_call sid w hist data r start : passed w = [] ->
  stored sid hist r start (fs w) -> retention (zlen hist + readBuffer) hist r start -> writer_ok sid hist r (Store.open w) ->
  zlen data <= readBuffer -> is_u64 (zlen hist + zlen data) ->
  let '(w', a) := storeFeedFor sid data (zlen hist + zlen data) w in
  (a = inr tt -> exists r' start', same_facts r r' /\ stored sid (hist ++ data) r' start' (fs w') /\
     retention (zlen hist + readBuffer) (hist ++ data) r' start' /\ writer_ok sid (hist ++ data) r' (Store.open w')) /\
  forall d, d ∈ passed w' -> mid_append sid r (zlen hist + readBuffer) hist data d.
Proof.
  intros Hw Sst Sret Sw Hfit H64. pose proof reader_fits.
  pose proof (store_call (mid_append sid r (zlen hist + readBuffer) hist data) _ w _
    (append_triple false _ sid r (zlen hist + readBuffer) hist data r start _ _ (same_facts_self r) Sst Sret
      ltac:(lia) Sw ltac:(lia) H64 (fun d Hd => Hd)) Hw) as Hcall.
  unfold storeFeedFor. destruct (Store.append _ _ _ _) as [w' a]. destruct Hcall as [(sent & _ & Hall & _ & r' & start' & Hrest) Hpassed].
  split; [|done]. intros Ha. rewrite (Hall Ha) in Hrest. by exists r', start'.
Qed.

(** The goroutine of the feed goes on. *)
Lemma run_turn_ok sid s s' : pipe_ok sid s -> alive s = true -> run_turn (fresh s) = Some s' -> pipe_ok sid s'.
Proof.
  intros Hok Ha Hrun Hsaid Hcr. unfold run_turn in Hrun. change (returned (fresh s)) with (returned s) in Hrun.
  change (inflight (fresh s)) with (inflight s) in Hrun. change (value (fresh s)) with (value s) in Hrun.
  destruct (returned s) eqn:Er; [done|]. destruct (inflight s) as [c|] eqn:Ei.
  - destruct (storeFeedFor _ _ _ _) as [w a] eqn:Ecall in Hrun.
    injection Hrun as <-. cbn in Hsaid. apply app_eq_nil in Hsaid as [Hsaid Hworked]. destruct a as [|[]]; [done|].
    destruct (Hok Hsaid Hcr) as [Hlive Hrest]. rewrite Ha in Hrest. destruct Hrest as [(f & hist & r & start & late & Hs) _].
    pose proof Hlive as [Lid Lst Lr Lw Lroom]. pose proof Hs as [Sf Sst Sret Sw Sp Ssz Sm St Sn [Sq Sb] Sl Sc Smk Sr Slk].
    unfold on_the_way in St, Sn. rewrite Ei in St, Sn. cbn [app numbered] in St, Sn. destruct Sn as (Hthrough & Hfit & Hnum).
    rewrite bytes_of_cons in St.
    assert (Hlen : zlen (history s) = zlen hist + zlen (StoreFeed.data c) + zlen (bytes_of (pending f) ++ late)) by (rewrite St; zsolve).
    rewrite Lid, Hthrough in Ecall.
    pose proof (sink_call sid (disk (fresh s)) hist (StoreFeed.data c) r start eq_refl Sst Sret Sw Hfit ltac:(zsolve)) as Hcall.
    rewrite Ecall in Hcall. destruct Hcall as [Hdone Hpassed].
    destruct (Hdone eq_refl) as (r' & start' & Hf' & Sst' & Sret' & Sw'). destruct (same_facts_keep _ _ Hf') as (F1 & F2 & F3).
    split; [by constructor|]. cbn. rewrite Ha. split.
    + exists f, (hist ++ StoreFeed.data c), r', start', late. constructor; cbn; try done.
      * apply (retention_more (zlen hist + readBuffer)); [zsolve|done].
      * by rewrite F1.
      * by rewrite F3.
      * by rewrite F2.
      * unfold on_the_way. cbn. rewrite St, <- !app_assoc. done.
      * unfold on_the_way. cbn. by rewrite zlen_app.
      * by rewrite Er.
    + intros d (sent & Hpre & r2 & start2 & Hf2 & Hst2 & Hret2)%Hpassed. destruct (same_facts_keep _ _ Hf2) as (G1 & G2 & G3).
      exists (hist ++ sent), r2, start2. constructor; cbn; try done.
      * rewrite St. apply prefix_app. rewrite <- app_assoc. by apply prefix_app_r.
      * apply (retention_more (zlen hist + readBuffer)); [zsolve|done].
      * by rewrite G1.
      * right. by rewrite G2.
      * destruct (StoreFeed.closed f) eqn:Ec; [left; by exists f|right]. rewrite Hlen, (Sl eq_refl), app_nil_r, zlen_bytes_of, <- Sq. zsolve.
  - destruct (feed (value s)) as [f|] eqn:Ef; [|done].
    assert (Hsd : said s = [] /\ crossed s = false) by (destruct (run_locked f); [done|by injection Hrun as <-..]).
    destruct Hsd as [Hsd Hcs]. destruct (Hok Hsd Hcs) as [[Lid Lst Lr Lw Lroom] Hrest]. rewrite Ha in Hrest. destruct Hrest as [(f0 & hist & r & start & late & Hs) _].
    pose proof Hs as [Sf Sst Sret Sw Sp Ssz Sm St Sn [Sq Sb] Sl Sc Smk Sr Slk].
    rewrite Ef in Sf. injection Sf as <-. unfold on_the_way in St, Sn. rewrite Ei in St, Sn. cbn [app] in St, Sn.
    unfold run_locked in Hrun. destruct (pending f) as [|c rest] eqn:Ep; [destruct (StoreFeed.closed f) eqn:Ec; [|done]|]; injection Hrun as <-;
      (split; [by constructor|]); cbn; rewrite Ha; (split; [|by intros d ?%elem_of_nil]).
    + exists f, hist, r, start, late. unfold fresh. constructor; cbn; unfold on_the_way; cbn; rewrite ?Ei, ?Ep, ?Ec; try done.
    + exists (f <| pending := rest |> <| queued := queued f - zlen (StoreFeed.data c) |>), hist, r, start, late.
      rewrite chunk_bytes_cons in Sq. pose proof (zlen_nonneg (StoreFeed.data c)).
      constructor; unfold on_the_way; cbn; try done; [lia|congruence].
Qed.

Lemma pump_standing data now v f : feed v = Some f ->
  let '(v', reports) := pump_chunk data now v in
  let '(ring', through) := OutputRing.write data (ring v) in
  id v' = id v /\ session_place v' = session_place v /\ (cols v', rows v') = (cols v, rows v) /\ hasStore v' = hasStore v /\
  ring v' = ring' /\ written v' = through /\ feed v' = Some (fst (offer data through f)) /\ reports = snd (offer data through f).
Proof. intros Ef. unfold pump_chunk. rewrite Ef. destruct (OutputRing.write data (ring v)) as [r through]. by destruct (offer data through f). Qed.

(** The shell prints. *)
Lemma prints_ok sid s data now : pipe_ok sid s -> alive s = true -> 0 < zlen data <= readBuffer ->
  zlen (history s ++ data) + 2 < two64 -> pipe_ok sid (prints data now (fresh s)).
Proof.
  intros Hok Ha Hfit H64 Hsaid Hcr. unfold prints in *. change (value (fresh s)) with (value s) in *.
  change (history (fresh s)) with (history s) in *. change (said (fresh s)) with (said s) in *.
  assert (Hsd : said s = []) by (destruct (pump_chunk data now (value s)); by apply app_eq_nil in Hsaid as [? _]).
  assert (Hcs : crossed s = false) by (by destruct (pump_chunk data now (value s))).
  destruct (Hok Hsd Hcs) as [[Lid Lst Lr Lw Lroom] Hrest]. rewrite Ha in Hrest. destruct Hrest as [(f & hist & r & start & late & Hs) _].
  pose proof Hs as [Sf Sst Sret Sw Sp Ssz Sm St Sn [Sq Sb] Sl Sc Smk Sr Slk].
  destruct (write_ok (history s) data (ring (value s)) Lr ltac:(zsolve)) as [Hring Hnext].
  pose proof (pump_standing data now (value s) f Sf) as Hpump. destruct (pump_chunk data now (value s)) as [v reports].
  destruct (OutputRing.write data (ring (value s))) as [ring' through]. cbn [fst snd] in *. subst through.
  destruct Hpump as (P1 & P2 & P3 & P4 & P5 & P6 & P7 & P8). cbn in Hsaid. rewrite Hsd in Hsaid. apply map_eq_nil in Hsaid.
  split; [constructor; cbn; congruence|]. cbn. rewrite Ha. split; [|by intros d ?%elem_of_nil].
  rewrite P8 in Hsaid. unfold offer in Hsaid, P7. destruct (StoreFeed.closed f) eqn:Ec.
  - exists f, hist, r, start, (late ++ data). constructor; cbn; rewrite ?P2, ?P3, ?Ec; try done.
    + rewrite St, <- !app_assoc. done.
    + intros m Hm. specialize (Smk m Hm). zsolve.
    + intros m seg Hm. destruct (Slk m seg Hm). split; [done|zsolve].
  - destruct (Z.ltb_spec feedDepth (queued f + zlen data)) as [|Hroom]; [done|]. rewrite (Sl eq_refl), app_nil_r in St. cbn in P7.
    assert (Hf : exists f', feed v = Some f' /\ StoreFeed.closed f' = false /\ queued f' = queued f + zlen data /\
      pending f' = pending f ++ [mkChunk data (zlen (history s ++ data))]) by (eexists; split_and!; [exact P7|exact Ec|done|done]).
    destruct Hf as (f' & Hf & Hc' & Hq' & Hp').
    assert (Hway : forall s', inflight s' = inflight s -> on_the_way s' f' = on_the_way s f ++ [mkChunk data (zlen (history s ++ data))]).
    { intros s' E. unfold on_the_way. by rewrite E, Hp', app_assoc. }
    exists f', hist, r, start, []. constructor; cbn; rewrite ?P2, ?P3, ?Hc', ?Hq', ?Hp'; try (rewrite Hway; [|done]); try done.
    + rewrite bytes_of_app. rewrite bytes_of_cons. change (bytes_of []) with (@nil Byte.byte). cbn. by rewrite !app_nil_r, St, app_assoc.
    + rewrite St. replace (zlen ((hist ++ _) ++ data)) with (zlen hist + zlen (bytes_of (on_the_way s f)) + zlen data) by zsolve.
      apply numbered_snoc; [done|lia].
    + rewrite chunk_bytes_app, chunk_bytes_cons. change (chunk_bytes []) with 0. cbn. lia.
    + intros m Hm. rewrite zlen_app, zlen_nil. specialize (Smk m Hm). rewrite (Sl eq_refl), zlen_nil in Smk. lia.
    + intros Hr. by destruct (Sr Hr).
    + intros m seg Hm. destruct (Slk m seg Hm). split; [done|zsolve].
Qed.

(** A record write that leaves the output fields alone. *)
Definition output_same (r r' : sessionRecord) : Prop :=
  Store.Session r' = Store.Session r /\ Store.Segment r' = Store.Segment r /\ Store.Written r' = Store.Written r /\ record_place r' = record_place r.

Lemma record_call sid (g : sessionRecord -> sessionRecord) w hist r start : passed w = [] ->
  stored sid hist r start (fs w) -> output_same r (g r) ->
  let '(w', a) := (do record <- Store.read sid; Store.write (g record)) w in
  Store.open w' = Store.open w /\ (stored sid hist r start (fs w') \/ stored sid hist (g r) start (fs w')) /\
  (a = inr tt -> stored sid hist (g r) start (fs w')) /\
  forall d, d ∈ passed w' -> stored sid hist r start d \/ stored sid hist (g r) start d.
Proof.
  intros Hw Sst (E1 & E2 & E3 & _).
  pose proof (store_call _ _ w _ (update_triple false (fun d => stored sid hist r start d \/ stored sid hist (g r) start d)
    sid hist r start g _ _ Sst E1 E2 E3 (fun d Hd => Hd)) Hw) as Hcall.
  destruct ((do record <- Store.read sid; Store.write (g record)) w) as [w' a]. destruct Hcall as [(Ho & Hdone & _ & Hor) Hpassed].
  by split_and!.
Qed.

(** A state that differs in the record, which has become [r'], and where the process may die
    in between. *)
Lemma rewritten_ok sid s s' f hist r r' start late :
  live sid s' -> settled sid s f hist r start late -> alive s' = true -> output_same r r' ->
  session_place (value s') = session_place (value s) -> feed (value s') = feed (value s) ->
  inflight s' = inflight s -> returned s' = returned s -> history s' = history s ->
  (marked s' = marked s /\ looked s' = looked s \/
   marked s = None /\ looked s' = None /\ exists m, marked s' = Some m /\ m <= zlen (history s)) ->
  (Store.Cols r', Store.Rows r') = (cols (value s'), rows (value s')) -> stop_mark r' = marked s' ->
  Store.open (disk s') = Store.open (disk s) -> stored sid hist r' start (fs (disk s')) ->
  (forall d, d ∈ passed (disk s') -> exists r2, output_same r r2 /\ (stop_mark r2 = None \/ stop_mark r2 = marked s') /\
     stored sid hist r2 start d) ->
  pipe_ok sid s'.
Proof.
  intros Hlive Hs Ha (Q1 & Q2 & Q3 & Q4) E1 E2 E3 E4 E5 E6 E7 E8 E9 Hst Hpassed _ _. split; [done|]. rewrite Ha.
  pose proof Hs as [Sf Sst Sret Sw Sp Ssz Sm St Sn [Sq Sb] Sl Sc Smk Sr Slk].
  assert (Hret : forall r2, output_same r r2 -> retention (zlen hist + readBuffer) hist r2 start).
  { intros r2 (_ & _ & R & _). unfold retention in *. by rewrite R. }
  assert (Hway : on_the_way s' f = on_the_way s f) by (unfold on_the_way; by rewrite E3).
  assert (Hs' : settled sid s' f hist r' start late).
  { constructor; rewrite ?E1, ?E2, ?E5, ?Hway; try done.
    - by apply Hret.
    - unfold writer_ok in *. by rewrite E9, Q2, Q3.
    - by rewrite Q4.
    - intros Hc. destruct E6 as [[-> _]|(_ & _ & m & -> & _)]; [by apply Sc|done].
    - intros m Hm. destruct E6 as [[E6 _]|(En & _ & m' & E6 & Hle)]; rewrite E6 in Hm; [by apply Smk|]. injection Hm as <-.
      destruct (StoreFeed.closed f) eqn:Ec; [by destruct (Sc eq_refl)|]. rewrite (Sl eq_refl), zlen_nil. lia.
    - by rewrite E4.
    - intros m seg Hm. destruct E6 as [[-> E6]|(_ & E6 & _)]; rewrite E6 in Hm; [by apply (Slk m seg)|done]. }
  split; [by exists f, hist, r', start, late|]. pose proof (settled_survives _ _ _ _ _ _ _ Hs') as [V1 V2 V3 V4 V5 V6].
  intros d (r2 & Hr2 & Hm2 & Hd)%Hpassed. exists hist, r2, start. pose proof Hr2 as (_ & _ & _ & R4).
  constructor; try done; [by apply Hret|by rewrite R4, E1].
Qed.

(** The session and the files of a state that runs, under fixed names. *)
Ltac running Hok Hsd Hcr Ha :=
  destruct (Hok Hsd Hcr) as [Hlive Hrest]; rewrite Ha in Hrest; destruct Hrest as [(f & hist & r & start & late & Hs) _].

(** An operation on the side. *)
Lemma aside_ok sid s op now : pipe_ok sid s -> alive s = true -> aside op ->
  pipe_ok sid ((fresh s) <| value := run_op op now (value s) |>).
Proof.
  intros Hok Ha Hop Hsd Hcr. running Hok Hsd Hcr Ha. pose proof Hlive as [Lid Lst Lr Lw Lroom].
  destruct (aside_keeps (history s) op now (value s) Hop) as [Hstand Hring].
  unfold standing in Hstand. injection Hstand as K1 K2 K3 K4 K5 K6 K7 K8 K9 K10.
  assert (Kp : session_place (run_op op now (value s)) = session_place (value s)) by (unfold session_place; congruence).
  split; [constructor; cbn; try congruence; apply Hring; [done|lia]|]. cbn. rewrite Ha. split; [|by intros d ?%elem_of_nil].
  exists f, hist, r, start, late. destruct Hs as [Sf Sst Sret Sw Sp Ssz Sm St Sn Sq Sl Sc Smk Sr Slk].
  constructor; cbn; try done; congruence.
Qed.

Lemma fresh_ok sid s : pipe_ok sid s -> alive s = true -> pipe_ok sid (fresh s).
Proof.
  intros Hok Ha Hsd Hcr. running Hok Hsd Hcr Ha. destruct Hlive as [Lid Lst Lr Lw Lroom]. destruct Hs as [Sf Sst Sret Sw Sp Ssz Sm St Sn Sq Sl Sc Smk Sr Slk].
  split; [by constructor|]. cbn. rewrite Ha. split; [|by intros d ?%elem_of_nil]. exists f, hist, r, start, late. by constructor.
Qed.

(** A resize that is refused, or that the terminal refuses. *)
Lemma resized_not c rr processOk s : (c =? 0) || (rr =? 0) || negb processOk = true -> resized c rr processOk s = s.
Proof.
  intros Hno. unfold resized, resize. destruct ((c =? 0) || (rr =? 0)); cbn in *; [|destruct processOk; [done|]]; cbn;
    rewrite app_nil_r; by destruct s.
Qed.

Lemma resize_standing c rr v : (c =? 0) || (rr =? 0) = false -> hasStore v = true ->
  let '(v', _, acts) := resize c rr true v in
  acts = [ProcessResize c rr; StoreSetSize (id v) c rr] /\ (cols v', rows v') = (c, rr) /\
  (id v', session_place v', hasStore v', feed v', written v', ring v') = (id v, session_place v, hasStore v, feed v, written v, ring v).
Proof. intros Hsize Hst. unfold resize, publish_all. rewrite Hsize. cbn. by rewrite Hst. Qed.

Lemma resized_ok sid s c rr processOk : pipe_ok sid s -> alive s = true -> pipe_ok sid (resized c rr processOk (fresh s)).
Proof.
  intros Hok Ha. destruct ((c =? 0) || (rr =? 0) || negb processOk) eqn:Etest; [rewrite resized_not by done; by apply fresh_ok|].
  apply orb_false_iff in Etest as [Esize Eok]. destruct processOk; [|done]. unfold resized. change (value (fresh s)) with (value s).
  intros Hsaid Hcr. pose proof (resize_standing c rr (value s) Esize) as Hz. destruct (resize c rr true (value s)) as [[v e] acts].
  assert (Hsd : said s = []) by (destruct (record_sizes acts _); by apply app_eq_nil in Hsaid as [? _]).
  assert (Hcs : crossed s = false) by (by destruct (record_sizes acts _)). running Hok Hsd Hcs Ha. pose proof Hlive as [Lid Lst Lr Lw Lroom]. pose proof Hs as [Sf Sst Sret Sw Sp Ssz Sm St Sn Sq Sl Sc Smk Sr Slk].
  destruct (Hz Lst) as (-> & Ksize & K). injection K as K1 K2 K3 K4 K5 K6 K7 K8 K9 K10.
  assert (Kp : session_place v = session_place (value s)) by (unfold session_place; congruence). revert Hsaid Hcr.
  cbn [record_sizes]. rewrite Lid.
  pose proof (record_call sid (fun x => x <| Store.Cols := c |> <| Store.Rows := rr |>) (disk (fresh s)) hist r start eq_refl Sst ltac:(done)) as Hcall.
  cbv beta in Hcall. fold (setSize sid c rr) in Hcall. destruct (setSize sid c rr (disk (fresh s))) as [w a]. destruct Hcall as (Ho & _ & Hdone & Hpassed).
  intros Hsaid Hcr. assert (Ha2 : a = inr tt). { cbn in Hsaid. rewrite Hsd in Hsaid. by destruct a as [|[]]. }
  revert Hsaid Hcr. apply (rewritten_ok sid s _ f hist r (r <| Store.Cols := c |> <| Store.Rows := rr |>) start late); try done; [|by left|by apply Hdone|].
  - constructor; cbn; congruence.
  - intros d [Hd|Hd]%Hpassed; eexists; (split_and!; [|right|exact Hd]; done).
Qed.

(** The program in front, or the modes of the terminal, recorded. *)
Lemma noted_ok sid s g w a : pipe_ok sid s -> alive s = true ->
  (forall r, output_same r (g r) /\ (Store.Cols (g r), Store.Rows (g r)) = (Store.Cols r, Store.Rows r) /\ stop_mark (g r) = stop_mark r) ->
  (do record <- Store.read (id (value s)); Store.write (g record)) (disk (fresh s)) = (w, a) ->
  pipe_ok sid ((fresh s) <| disk := w |>).
Proof.
  intros Hok Ha Hg Hcall Hsd Hcr. running Hok Hsd Hcr Ha. pose proof Hlive as [Lid Lst Lr Lw Lroom].
  pose proof Hs as [Sf Sst Sret Sw Sp Ssz Sm St Sn Sq Sl Sc Smk Sr Slk]. rewrite Lid in Hcall. destruct (Hg r) as (G1 & G2 & G3).
  pose proof (record_call sid g (disk (fresh s)) hist r start eq_refl Sst G1) as Hdone. rewrite Hcall in Hdone.
  destruct Hdone as (Ho & Hor & _ & Hpassed).
  assert (Hp : forall d, d ∈ passed w -> exists r2, output_same r r2 /\ (stop_mark r2 = None \/ stop_mark r2 = marked s) /\ stored sid hist r2 start d).
  { intros d [Hd|Hd]%Hpassed; [exists r|exists (g r)]; (split_and!; [done|right; congruence|done]). }
  destruct Hor as [Hst|Hst]; revert Hsd Hcr.
  - apply (rewritten_ok sid s _ f hist r r start late); try done. by left.
  - apply (rewritten_ok sid s _ f hist r (g r) start late); try done; [by left|cbn; congruence..].
Qed.

(** The stop reads where the output ends. *)
Lemma stop_begin_ok sid s : pipe_ok sid s -> alive s = true -> marked s = None -> pipe_ok sid (stop_begin (fresh s)).
Proof.
  intros Hok Ha Hm Hsd Hcr. running Hok Hsd Hcr Ha. pose proof Hlive as [Lid Lst Lr Lw Lroom].
  pose proof Hs as [Sf Sst Sret Sw Sp Ssz Sm St Sn [Sq Sb] Sl Sc Smk Sr Slk].
  split; [by constructor|]. cbn. rewrite Ha. split; [|by intros d ?%elem_of_nil].
  exists f, hist, r, start, late. constructor; cbn; try done. intros m seg [= <- _]. split; [done|lia].
Qed.

(** The look of the stop. *)
Lemma stop_look_ok sid s : pipe_ok sid s -> alive s = true -> pipe_ok sid (stop_look (fresh s)).
Proof.
  intros Hok Ha. unfold stop_look. change (looked (fresh s)) with (looked s). change (value (fresh s)) with (value s).
  destruct (looked s) as [[through [seg0|]]|] eqn:El; [by apply fresh_ok| |by apply fresh_ok].
  destruct ((do held <- Store.heldWriter (id (value s)); writer_segment held) (disk (fresh s))) as [w seg] eqn:Ecall.
  intros Hsd Hcr. running Hok Hsd Hcr Ha. pose proof Hlive as [Lid Lst Lr Lw Lroom].
  pose proof Hs as [Sf Sst Sret Sw Sp Ssz Sm St Sn [Sq Sb] Sl Sc Smk Sr Slk]. rewrite Lid in Ecall.
  pose proof (store_call _ _ (disk (fresh s)) _ (look_triple false (fun d => d = fs (disk s)) sid hist r _ _ Sw) eq_refl) as Hcall.
  rewrite Ecall in Hcall. destruct Hcall as [(Hd & Ho & _) Hpassed].
  assert (Hs' : settled sid (s <| disk := w |> <| looked := Some (through, Some (match seg with inr seg => seg | inl _ => -1 end)) |>)
      f hist r start late).
  { constructor; cbn; rewrite ?Hd, ?Ho; try done. intros m seg' [= <- _]. exact (Slk through None El). }
  split; [by constructor|]. cbn. rewrite Ha. split; [by exists f, hist, r, start, late|].
  intros d ->%Hpassed. exists hist, r, start. pose proof (settled_survives _ _ _ _ _ _ _ Hs') as Hv. cbn in Hv. rewrite Hd in Hv. exact Hv.
Qed.

(** The record write of the stop. *)
Lemma stop_record_ok sid s at_ : pipe_ok sid s -> alive s = true -> pipe_ok sid (stop_record at_ (fresh s)).
Proof.
  intros Hok Ha. unfold stop_record. change (looked (fresh s)) with (looked s). change (value (fresh s)) with (value s).
  destruct (looked s) as [[through [seg|]]|] eqn:El; [|by apply fresh_ok..]. intros Hsaid Hcr. pose proof Hsaid as Hsd. pose proof Hcr as Hcs.
  destruct (mark_record (id (value s)) at_ None through seg (disk (fresh s))) as [w a] eqn:Ecall.
  cbn in Hsd. apply app_eq_nil in Hsd as [Hsd Hworked]. destruct a as [|[]]; [done|]. cbn in Hcs. apply orb_false_iff in Hcs as [Hcs Hsame].
  running Hok Hsd Hcs Ha. pose proof Hlive as [Lid Lst Lr Lw Lroom].
  pose proof Hs as [Sf Sst Sret Sw Sp Ssz Sm St Sn [Sq Sb] Sl Sc Smk Sr Slk]. destruct (Slk through _ El) as [Hm Hle].
  rewrite Lid in *. set (r' := ended r at_ None through).
  assert (Hseg : 0 <= seg -> seg = Store.Segment r).
  { intros Hpos. pose proof (record_read (fs (disk s)) r) as Hread. rewrite (record_own _ _ _ _ _ Sst) in Hread.
    specialize (Hread (record_there _ _ _ _ _ Sst)). unfold left_since in Hsame. rewrite Hread in Hsame.
    replace (0 <=? seg) with true in Hsame by lia. cbn in Hsame. apply negb_false_iff, Z.eqb_eq in Hsame. done. }
  pose proof (store_call _ _ (disk (fresh s)) _ (mark_triple false (fun d => stored sid hist r start d \/ stored sid hist r' start d)
    sid hist r start at_ None through seg _ _ Sst Hseg (fun d Hd => Hd)) eq_refl) as Hcall.
  rewrite Ecall in Hcall. destruct Hcall as [(Ho & Hdone & _) Hpassed]. revert Hsaid Hcr.
  apply (rewritten_ok sid s _ f hist r r' start late); try done; [right; split_and!; [done|done|by exists through]|by apply Hdone|].
  intros d [Hd|Hd]%Hpassed; eexists; (split_and!; [| |exact Hd]); try done; [left; congruence|by right].
Qed.

Lemma reap_standing ended now v f : feed v = Some f ->
  let v' := fst (reap ended now v) in
  (id v', session_place v', (cols v', rows v'), hasStore v', written v') = (id v, session_place v, (cols v, rows v), hasStore v, written v) /\
  feed v' = Some (if closed v then f else fst (close_locked f)) /\
  (forall hist, ring_ok hist (ring v) -> ring_ok hist (ring v')).
Proof.
  intros Ef. unfold reap. destruct (closed v); [done|]. rewrite Ef. cbn. split_and!; [done|done|]. intros hist Hr. by apply end_ok.
Qed.

(** The reap of a stop. *)
Lemma stop_reap_ok sid s now : pipe_ok sid s -> alive s = true -> marked s <> None -> pipe_ok sid (stop_reap now (fresh s)).
Proof.
  intros Hok Ha Hm Hsd Hcr. running Hok Hsd Hcr Ha. pose proof Hlive as [Lid Lst Lr Lw Lroom].
  pose proof Hs as [Sf Sst Sret Sw Sp Ssz Sm St Sn [Sq Sb] Sl Sc Smk Sr Slk].
  destruct (reap_standing false now (value s) f Sf) as (Hstand & Hfeed & Hring). injection Hstand as K1 K2 K3 K4 K5 K6 K7 K8 K9 K10.
  assert (Kp : session_place (fst (reap false now (value s))) = session_place (value s)) by (unfold session_place; congruence).
  unfold stop_reap. change (value (fresh s)) with (value s).
  split; [constructor; cbn; try congruence; by apply Hring|]. cbn. rewrite Ha. split; [|by intros d ?%elem_of_nil].
  set (f' := if closed (value s) then f else fst (close_locked f)) in *.
  assert (Hf' : pending f' = pending f /\ queued f' = queued f /\ (StoreFeed.closed f' = false -> StoreFeed.closed f = false) /\
    (StoreFeed.closed f = true -> StoreFeed.closed f' = true)).
  { unfold f', close_locked. destruct (closed (value s)); [done|]. destruct (StoreFeed.closed f) eqn:Ec; cbn; by rewrite ?Ec. }
  destruct Hf' as (F1 & F2 & F3 & F4).
  assert (Hway : forall s', inflight s' = inflight s -> on_the_way s' f' = on_the_way s f) by (intros s' E; unfold on_the_way; by rewrite E, F1).
  exists f', hist, r, start, late. constructor; cbn; rewrite ?F1, ?F2; try (rewrite Hway; [|done]); try done; try congruence.
  - intros Hc. by apply Sl, F3.
  - intros Hr. destruct (Sr Hr). auto.
Qed.

(** The process dies. *)
Lemma dies_ok sid s d : pipe_ok sid s -> alive s = true -> left_behind s d ->
  pipe_ok sid (s <| disk := mkWorld d ∅ [] [] |> <| alive := false |> <| looked := None |> <| returned := false |>).
Proof.
  intros Hok Ha Hd Hsd Hcr. destruct (Hok Hsd Hcr) as [Hlive Hrest]. rewrite Ha in Hrest. destruct Hrest as [(f & hist & r & start & late & Hs) Hpassed].
  split; [destruct Hlive as [Lid Lst Lr Lw Lroom]; by constructor|]. cbn. split_and!; try done.
  destruct Hd as [->|Hd].
  - apply settled_survives in Hs as [V1 V2 V3 V4 V5 V6]. exists hist, r, start. by constructor.
  - destruct (Hpassed d Hd) as (hist' & r' & start' & [V1 V2 V3 V4 V5 V6]). exists hist', r', start'. by constructor.
Qed.

Lemma prefix_slice (l k : octets) : l `prefix_of` k -> slice_to (zlen l) k = l.
Proof. intros [m ->]. unfold slice_to, zlen. rewrite Nat2Z.id. apply take_app_length. Qed.

Lemma zlen_prefix (l k : octets) : l `prefix_of` k -> zlen l <= zlen k.
Proof. intros [m ->]. zsolve. Qed.

(** A restore from files that a session survives in. *)
Lemma survivor_restores sid s w hist r start now reg : survives sid s (fs w) hist r start -> zlen (history s) + 2 < two64 ->
  Store.open w = ∅ -> fates w = [] -> passed w = [] -> stopped reg = false ->
  let '(w', a) := restoreOne explain not_started stopping true now sid reg w in
  (exists reg' acts v, a = inr (reg', outcome_of sid (verdict r (zlen hist)) "", acts) /\
     sessions reg' = <[sid := v]> (sessions reg) /\ stands sid r hist (last_bytes HighWatermark (slice_from start hist)) v) /\
  Store.open w' = ∅ /\ stored sid hist (unmarked r) start (fs w') /\
  (forall d, d ∈ passed w' -> stored sid hist r start d \/ stored sid hist (unmarked r) start d) /\
  recovered sid (fs w) (history s) = continued hist (last_bytes HighWatermark (slice_from start hist)).
Proof.
  intros [V1 V2 V3 V4 V5 V6] Hroom Ho Hf Hp Hns. pose proof (zlen_prefix _ _ V2) as Hle.
  assert (H64 : is_u64 (zlen hist + 2)) by zsolve. assert (H64' : is_u64 (zlen hist)) by zsolve.
  set (C := fun d => stored sid hist r start d \/ stored sid hist (unmarked r) start d).
  pose proof (restoreOne_triple explain not_started stopping C sid hist r start now reg (fs w) V1 H64 Hns (fun d Hd => Hd)) as Hm.
  pose proof (outcome true C _ _ _ w Hm (conj eq_refl Ho) (fun _ => Hf)) as (reg' & acts & v & Hans & Hs & _ & Hst & Ho' & Hst').
  pose proof (fun d => in_passed true C _ _ _ w d Hm (conj eq_refl Ho) (fun _ => Hf)) as Hpassed. rewrite Hp in Hpassed.
  destruct (restoreOne _ _ _ _ _ _ _ w) as [w' a]. cbn in *. split_and!; [by exists reg', acts, v|done|done| |].
  - intros d Hd. by destruct (Hpassed d Hd) as [?%elem_of_nil|].
  - unfold recovered. by rewrite (output_read sid hist r start HighWatermark (fs w) V1 H64'), prefix_slice.
Qed.

(** The process dies again in the middle of a restore. *)
Lemma cut_ok sid s d now reg : pipe_ok sid s -> alive s = false -> stopped reg = false ->
  d ∈ passed (fst (restoreOne explain not_started stopping true now (id (value s)) reg (disk s))) ->
  pipe_ok sid (s <| disk := mkWorld d ∅ [] [] |>).
Proof.
  intros Hok Ha Hns Hd Hsd Hcr. destruct (Hok Hsd Hcr) as [Hlive Hrest]. rewrite Ha in Hrest. destruct Hrest as (Ho & Hf & Hp & Hr & hist & r & start & Hs).
  pose proof Hlive as [Lid Lst Lr Lw Lroom]. rewrite Lid in Hd.
  pose proof (survivor_restores sid s (disk s) hist r start now reg Hs Lroom Ho Hf Hp Hns) as Hrun.
  destruct (restoreOne _ _ _ _ _ _ _ (disk s)) as [w' a]. destruct Hrun as (_ & _ & _ & Hpassed & _).
  split; [by constructor|]. cbn. rewrite Ha. split_and!; try done. destruct Hs as [V1 V2 V3 V4 V5 V6].
  destruct (Hpassed d Hd) as [Hst|Hst]; [exists hist, r, start|exists hist, (unmarked r), start]; constructor; cbn; try done. by left.
Qed.

(** A later start stands the session up. *)
Lemma restarts_ok sid s now reg reg' kind acts v w later : pipe_ok sid s -> alive s = false -> stopped reg = false ->
  zlen (history s) + 4 < two64 ->
  restoreOne explain not_started stopping true now (id (value s)) reg (disk s) = (w, inr (reg', kind, acts)) ->
  sessions reg' !! id (value s) = Some v ->
  pipe_ok sid (mkPipeline v None false (mkWorld (fs w) (Store.open w) later []) (said s) true None None (crossed s)
                 (recovered (id (value s)) (fs (disk s)) (history s))).
Proof.
  intros Hok Ha Hns H64 Hrun Hv Hsd Hcr. cbn in Hsd, Hcr. destruct (Hok Hsd Hcr) as [Hlive Hrest]. rewrite Ha in Hrest.
  destruct Hrest as (Ho & Hf & Hp & Hr & hist & r & start & Hs). pose proof Hlive as [Lid Lst Lr Lw Lroom]. rewrite Lid in *.
  pose proof (survivor_restores sid s (disk s) hist r start now reg Hs Lroom Ho Hf Hp Hns) as Hdone. rewrite Hrun in Hdone.
  destruct Hdone as ((reg1 & acts1 & v1 & Hans & Hsess & Hst) & Ho' & Hst' & _ & ->). injection Hans as -> _ _.
  rewrite Hsess, lookup_insert_eq in Hv. injection Hv as ->. pose proof Hs as [V1 V2 V3 V4 V5 V6]. pose proof (zlen_prefix _ _ V2) as Hle.
  set (kept := last_bytes HighWatermark (slice_from start hist)) in *. destruct Hst as [S1 S2 S3 S4 S5 S6 S7 S8 S9 [S10 S10'] S11 S12].
  assert (Hcont : continued hist kept = hist ++ if mid_line kept then shellBoundary else []) by done.
  assert (Hcl : zlen (continued hist kept) = zlen hist + if mid_line kept then 2 else 0).
  { rewrite Hcont, zlen_app. by destruct (mid_line kept). }
  split; [constructor; cbn; try done; rewrite Hcl; destruct (mid_line kept); lia|].
  split; [|by intros d ?%elem_of_nil]. eexists _, hist, (unmarked r), start, [].
  constructor; cbn; [exact S12|exact Hst'|done| |by unfold record_place, session_place; rewrite S2, S3, S4, S5, S7|
    by destruct S6 as [-> ->]|done| | | |done|done|done|done|done].
  - unfold writer_ok. by rewrite Ho', lookup_empty.
  - unfold on_the_way. cbn. rewrite Hcont, app_nil_r. f_equal. by destruct (mid_line kept).
  - unfold on_the_way. cbn. destruct (mid_line kept); cbn; [|done]. rewrite Hcl. split_and!; done.
  - by destruct (mid_line kept).
Qed.

Lemma pipe_step_ok sid s s' : pipe_step explain not_started stopping s s' -> pipe_ok sid s -> pipe_ok sid s'.
Proof.
  intros Hstep Hok. destruct Hstep as [data now s Ha Hd Hn|s s' Ha Hr|op now s Ha Hop|c r k s Ha|prog dir s Ha|report s Ha|s Ha Hm Hl|s Ha|at_ s Ha|now s Ha Hm|
    d s Ha Hd|d now reg s Ha Hns Hd|now reg reg' o acts v w later s Ha Hns Hn Hr Hv].
  - by apply prints_ok.
  - by eapply run_turn_ok.
  - by apply aside_ok.
  - by apply resized_ok.
  - destruct (setForeground (id (value s)) prog dir (disk (fresh s))) as [w a] eqn:E.
    by apply (noted_ok sid s (fun x => x <| Store.Foreground := prog |> <| Store.ForegroundCWD := dir |>) w a).
  - destruct (setModes (id (value s)) report (disk (fresh s))) as [w a] eqn:E.
    by apply (noted_ok sid s (fun x => x <| Store.Modes := report |>) w a).
  - by apply stop_begin_ok.
  - by apply stop_look_ok.
  - by apply stop_record_ok.
  - by apply stop_reap_ok.
  - by apply dies_ok.
  - by eapply cut_ok.
  - by eapply restarts_ok.
Qed.

Lemma opened_standing sid pane window dir cmd at_ gen c r env prepared announced :
  let v := newSession sid pane window dir cmd at_ gen c r env true prepared in
  let v' := finish_open true announced v in
  id v' = sid /\ hasStore v' = true /\ ring v' = newRing HighWatermark /\ written v' = 0 /\ feed v' = Some newStoreFeed /\
  session_place v' = record_place (creationFacts v) /\ (cols v', rows v') = (c, r) /\
  creationFacts v = mkRecord sid pane window dir cmd env c r at_ None None 0 0 0 "" "" [].
Proof. unfold newSession, finish_open, announce. destruct prepared as [[[token displays] x]|], announced; done. Qed.

Lemma begins_ok sid s : begins sid s -> pipe_ok sid s.
Proof.
  intros [pane window dir cmd at_ gen c r env prepared announced w w1 v Hfree Hshut Hcreate] _ _.
  destruct (opened_standing sid pane window dir cmd at_ gen c r env prepared announced) as (O1 & O2 & O3 & O4 & O5 & O6 & O7 & O8).
  fold v in O1, O2, O3, O4, O5, O6, O7, O8. rewrite O8 in *. set (record := mkRecord _ _ _ _ _ _ _ _ _ _ _ _ _ _ _ _ _) in *.
  pose proof (outcome false (fun _ => True) _ _ _ w (publish_triple false (fun _ => True) (fs w) (Store.open w) record ltac:(done)
    ltac:(apply staged_free) false) ltac:(done) ltac:(done)) as (Ho & _ & Hpub & _).
  unfold Store.create, Store.write in Hcreate. rewrite Hcreate in Ho, Hpub. cbn in Ho, Hpub. specialize (Hpub eq_refl).
  assert (Hborn : newborn sid record w1).
  { unfold newborn. rewrite Hpub, Ho. split_and!; [apply lookup_insert_eq|done|by left|done| | |done];
      (rewrite lookup_insert_ne by (intros E; symmetry in E; revert E; apply segment_not_record; unfold two_segments; lia)); apply Hfree; set_solver. }
  pose proof (newborn_stored _ _ _ Hborn) as Hst.
  split; [constructor; cbn; rewrite ?O3; try done; exact (proj1 (newRing_ok HighWatermark (proj2 high_watermark_size)))|].
  cbn. split; [|by intros d ?%elem_of_nil].
  exists newStoreFeed, [], record, 0, []. constructor; cbn; try done.
  - unfold retention, outputSegmentBound, zlen. cbn. lia.
  - unfold writer_ok. by rewrite Ho, Hshut.
Qed.

Lemma pipe_reachable sid s0 s : begins sid s0 -> rtc (pipe_step explain not_started stopping) s0 s -> pipe_ok sid s.
Proof. intros Hb%begins_ok Hrun. induction Hrun as [|x y z Hxy _ IH]; [done|]. by apply IH, (pipe_step_ok sid x). Qed.

(** What a process leaves behind, with the size of the session and the end of a drained stop
    where its last step was not a call it died in. *)
Lemma left_survives sid s d : pipe_ok sid s -> said s = [] -> crossed s = false -> left_behind s d ->
  exists hist r start, survives sid s d hist r start /\
    (alive s = true -> d = fs (disk s) -> (Store.Cols r, Store.Rows r) = (cols (value s), rows (value s))) /\
    (returned s = true -> d = fs (disk s) -> exists m, stop_mark r = Some m /\ m <= zlen hist).
Proof.
  intros Hok Hsd Hcr Hd. destruct (Hok Hsd Hcr) as [Hlive Hrest]. destruct (alive s) eqn:Ea.
  - destruct Hrest as [(f & hist & r & start & late & Hs) Hpassed]. pose proof (settled_survives _ _ _ _ _ _ _ Hs) as Hv.
    pose proof Hs as [Sf Sst Sret Sw Sp Ssz Sm St Sn Sq Sl Sc Smk Sr Slk].
    destruct (decide (d = fs (disk s))) as [->|Hne].
    + exists hist, r, start. split_and!; [done|done|]. intros Hr _. destruct (Sr Hr) as [Hc Hway]. rewrite Sm.
      destruct (marked s) as [m|] eqn:Em; [|by destruct (Sc Hc)]. exists m. split; [done|]. specialize (Smk m eq_refl).
      rewrite St, Hway in Smk. change (bytes_of []) with (@nil Byte.byte) in Smk. zsolve.
    + destruct Hd as [?|Hd]; [done|]. destruct (Hpassed d Hd) as (hist' & r' & start' & Hv'). by exists hist', r', start'.
  - destruct Hrest as (Ho & Hf & Hp & Hr & hist & r & start & Hv). unfold left_behind in Hd. rewrite Hp in Hd.
    destruct Hd as [->|?%elem_of_nil]; [|done]. exists hist, r, start. split_and!; [done|done|congruence].
Qed.

Lemma verdict_mark r n : verdict r n = SessionFull <-> exists m, stop_mark r = Some m /\ m <= n.
Proof.
  unfold verdict, stop_mark. destruct (EndedAtUnixMs r); [|by split; [|intros (? & ? & _)]].
  destruct (Z.leb_spec (EndedThrough r) n); split; try done; [by exists (EndedThrough r)|]. intros (m & [= <-] & ?). lia.
Qed.

(** C1: what a shell printed comes back: however its printing, the feed, the operations on the
    session, the record writes, the parts of a stop and the death of the process follow each
    other over any number of lives, and whichever calls of the store fail, as long as the
    daemon complained of nothing and no stop crossed a roll - wrote back the segment it had
    seen after an append had left it for the other one, which is the subject of C37 - a
    process that dies at any point leaves files from which the next start stands the session
    up under its id and with its facts: its ring continues, at the very same coordinates, a
    first part of everything they name.  While the feed is open no more than its queue and one
    read are missing; the restore answers full only if a stop said where the output ends and
    all of that is there; and it does after a stop whose feed drained.  Each append, record
    write and part of a stop is one step here: what lies between the steps of these calls is
    the subject of StoreLocks. *)
Theorem what_was_printed_comes_back sid s0 s d now reg :
  begins sid s0 -> rtc (pipe_step explain not_started stopping) s0 s -> said s = [] -> crossed s = false ->
  left_behind s d -> stopped reg = false ->
  let '(w, answer) := restoreOne explain not_started stopping true now sid reg (mkWorld d ∅ [] []) in
  exists hist lost start reg' kind acts v,
    history s = hist ++ lost /\ answer = inr (reg', outcome_of sid kind "", acts) /\
    sessions reg' = <[sid := v]> (sessions reg) /\
    (let kept := last_bytes HighWatermark (slice_from start hist) in
     ring_ok (continued hist kept) (ring v) /\ written v = zlen (continued hist kept) /\
     zlen kept <= zlen (OutputRing.bytes (ring v))) /\
    (start = 0 \/ outputSegmentBound < zlen hist + readBuffer - start) /\
    session_place v = session_place (value s) /\
    (alive s = true -> d = fs (disk s) -> (cols v, rows v) = (cols (value s), rows (value s))) /\
    ((exists f, feed (value s) = Some f /\ StoreFeed.closed f = true) \/ zlen lost <= feedDepth + readBuffer) /\
    (kind = SessionFull -> exists m, marked s = Some m /\ m <= zlen hist) /\
    (returned s = true -> d = fs (disk s) -> kind = SessionFull).
Proof.
  intros Hb Hrun Hsd Hcr Hd Hns. pose proof (pipe_reachable sid s0 s Hb Hrun) as Hok. destruct (Hok Hsd Hcr) as [[_ _ _ _ Hroom] _].
  destruct (left_survives sid s d Hok Hsd Hcr Hd) as (hist & r & start & Hv & Hsize & Hend).
  pose proof (survivor_restores sid s (mkWorld d ∅ [] []) hist r start now reg Hv Hroom eq_refl eq_refl eq_refl Hns) as Hrest.
  destruct (restoreOne _ _ _ _ _ _ _ (mkWorld d ∅ [] [])) as [w answer]. destruct Hrest as ((reg' & acts & v & Ha & Hs & Hst) & _).
  destruct Hv as [V1 [lost V2] [V3 _] V4 V5 V6]. destruct Hst as [S1 S2 S3 S4 S5 S6 S7 S8 S9 S10 S11 S12].
  exists hist, lost, start, reg', (verdict r (zlen hist)), acts, v. split_and!; try done.
  - unfold session_place. rewrite S2, S3, S4, S5, S7. exact V4.
  - intros Ha' E. destruct S6 as [-> ->]. by apply Hsize.
  - rewrite V2, zlen_app in V6. destruct V6; [by left|right; lia].
  - rewrite verdict_mark. intros (m & Hm & Hle). exists m. split; [|done]. destruct V5; congruence.
  - intros Hr E. apply verdict_mark. by apply Hend.
Qed.

(** ** A stop drains its feed *)

(** How many turns the goroutine of a closed feed has left. *)
Definition runs_left (s : pipeline) (f : storeFeed) : nat :=
  if returned s then 0 else 1 + 2 * length (pending f) + match inflight s with Some _ => 1 | None => 0 end.

(** The goroutine of a closed feed goes on until it returns, within two turns for each chunk
    of the queue and two more, whatever the calls of the store answer. *)
Theorem closed_feed_runs_out s f : feed (value s) = Some f -> StoreFeed.closed f = true -> returned s = false ->
  exists s' f', run_turn (fresh s) = Some s' /\ feed (value s') = Some f' /\ StoreFeed.closed f' = true /\
    S (runs_left s' f') = runs_left s f.
Proof.
  intros Ef Hc Hr. unfold run_turn, runs_left. change (returned (fresh s)) with (returned s).
  change (inflight (fresh s)) with (inflight s). change (value (fresh s)) with (value s). rewrite Hr. destruct (inflight s) as [c|] eqn:Ei.
  - destruct (storeFeedFor _ _ _ _) as [w a]. eexists _, f. split_and!; [done|done|done|]. cbn. rewrite Hr. lia.
  - rewrite Ef. unfold run_locked. destruct (pending f) as [|c rest] eqn:Ep.
    + rewrite Hc. eexists _, f. by split_and!.
    + eexists _, _. split_and!; [done|done|done|]. cbn. rewrite Hr. lia.
Qed.

(** ** A hole in the stored output *)

(** What a roll makes of the files when [b] never reached the store: the bytes of the older
    segment stand [zlen b] further on than they were printed. *)
Lemma hole_stored sid a b c r start d : stored sid a r start d ->
  stored sid (slice_to (Store.Written r) a ++ b ++ slice_from (Store.Written r) a ++ c) (rolled r (zlen (a ++ b)))
    (Store.Written r + zlen b) (rolled_with r (zlen (a ++ b)) c d).
Proof.
  intros [Sr Sid Sseg [Sb1 Sb2] Snew Sold]. set (W := Store.Written r) in *. unfold rolled_with. rewrite Sid.
  assert (Hother : two_segments (1 - Store.Segment r)) by (unfold two_segments in *; lia).
  assert (Hne : segmentPath sid (1 - Store.Segment r) <> recordPath sid) by (by apply segment_not_record).
  assert (Hseg : segmentPath sid (Store.Segment r) <> segmentPath sid (1 - Store.Segment r)) by (by apply segment_other).
  assert (Hto : zlen (slice_to W a) = W) by (apply zlen_slice_to; lia). pose proof (zlen_nonneg b). pose proof (zlen_nonneg c).
  assert (Hfrom : zlen (slice_from W a) = zlen a - W) by (apply zlen_slice_from; lia).
  assert (Hsplit : slice_to W a ++ b ++ slice_from W a ++ c = ((slice_to W a ++ b) ++ slice_from W a) ++ c) by (by rewrite <- !app_assoc).
  constructor; cbn [Store.Session Store.Segment Store.Written rolled].
  - rewrite lookup_insert_ne by done. apply lookup_insert_eq.
  - done.
  - done.
  - change (Store.Written (rolled r (zlen (a ++ b)))) with (zlen (a ++ b)). rewrite !zlen_app. lia.
  - unfold segment_bytes. change (Store.Segment (rolled r (zlen (a ++ b)))) with (1 - Store.Segment r).
    change (Store.Written (rolled r (zlen (a ++ b)))) with (zlen (a ++ b)). rewrite lookup_insert_eq. cbn.
    rewrite Hsplit, slice_from_app, slice_from_all; [done|rewrite !zlen_app..]; rewrite ?zlen_app; lia.
  - unfold segment_bytes. change (Store.Segment (rolled r (zlen (a ++ b)))) with (1 - Store.Segment r).
    change (Store.Written (rolled r (zlen (a ++ b)))) with (zlen (a ++ b)).
    replace (1 - (1 - Store.Segment r)) with (Store.Segment r) by lia. rewrite lookup_insert_ne by (by symmetry).
    rewrite lookup_insert_ne by (intros E; symmetry in E; revert E; by apply segment_not_record).
    rewrite lookup_delete_ne by (by symmetry). fold (segment_bytes sid (Store.Segment r) d). rewrite Snew.
    rewrite Hsplit, range_app_l; [|rewrite ?zlen_app; lia..].
    replace (zlen (a ++ b)) with (zlen ((slice_to W a ++ b) ++ slice_from W a)) by (rewrite !zlen_app; lia).
    replace (W + zlen b) with (zlen (slice_to W a ++ b)) by (rewrite zlen_app; lia). symmetry. apply range_appended.
Qed.

(** C33: a hole in the stored output disappears from sight when a segment rolls: the feed
    dropped [b] behind [a], the next chunk rolls, the session is stopped and restored with
    every call working.  The restore answers full, [b] is not there, and what the session
    printed before [b] has moved to coordinates it never had. *)
Theorem hole_behind_a_roll_reads_full sid a b c r start at_ now w reg :
  stored sid a r start (fs w) -> Store.open w !! sid = Some (mkWriter true (Store.Segment r) (zlen a - Store.Written r)) ->
  fates w = [] -> Store.Written r < zlen a -> outputSegmentBound < zlen a - Store.Written r + zlen c ->
  is_u64 (zlen (a ++ b ++ c) + 2) -> stopped reg = false ->
  let end_ := zlen (a ++ b ++ c) in
  let '(w1, before) := (storeFeedFor sid c end_;;; markEnded sid at_ None end_) w in
  let '(w2, answer) := restoreOne explain not_started stopping true now sid reg (restarted w1) in
  before = inr tt /\ exists reg' acts v,
    answer = inr (reg', outcome_of sid SessionFull "", acts) /\ sessions reg' = <[sid := v]> (sessions reg) /\
    let kept := last_bytes HighWatermark (slice_from (Store.Written r) a ++ c) in
    ring_ok (continued (slice_to (Store.Written r) a ++ b ++ slice_from (Store.Written r) a ++ c) kept) (ring v) /\
    written v = zlen (continued (a ++ b ++ c) kept) /\ zlen kept <= zlen (OutputRing.bytes (ring v)).
Proof.
  intros Hst Ho Hf Hsome Hfull H64 Hns end_. pose proof (hole_stored sid a b c r start (fs w) Hst) as Hst1.
  pose proof Hst as [Sr Sid Sseg [Sb1 Sb2] Snew Sold]. set (W := Store.Written r) in *.
  set (h := slice_to W a ++ b ++ slice_from W a ++ c) in *.
  assert (Hh : zlen h = end_).
  { unfold h, end_. rewrite !zlen_app, zlen_slice_to, zlen_slice_from by lia. lia. }
  destruct (works_rolling r (zlen a - W) c end_ (fs w) (Store.open w)) as (o' & Happ & Ho');
    [by rewrite Sid|done|by rewrite Sid|lia|done|]. rewrite Sid in Happ, Ho'.
  assert (Hat : end_ -64 zlen c = zlen (a ++ b)) by (rewrite sub64_small; unfold end_ in *; unfold is_u64 in *; zsolve).
  rewrite Hat in Happ. set (r1 := rolled r (zlen (a ++ b))) in *.
  assert (Hr1 : Store.Written r1 = zlen (a ++ b)) by done.
  assert (Hw1 : writer_ok sid h r1 o').
  { unfold writer_ok. rewrite Ho'. intros _. split; [done|]. rewrite Hr1, Hh. unfold end_. rewrite !zlen_app. cbn. lia. }
  assert (Hend : is_u64 (zlen h + 2)) by (by rewrite Hh).
  unfold bind at 1, storeFeedFor. specialize (Happ (passed w)) as [l Happ].
  replace (mkWorld (fs w) (Store.open w) [] (passed w)) with w in Happ by (rewrite <- Hf; by destruct w). rewrite Happ.
  set (wb := mkWorld (rolled_with r (zlen (a ++ b)) c (fs w)) o' [] l).
  pose proof (markEnded_triple true (fun _ => True) sid h r1 (W + zlen b) at_ None end_ _ _ Hst1 Hw1 ltac:(done) wb (conj eq_refl eq_refl) (fun _ => eq_refl)) as Hstop.
  destruct (markEnded sid at_ None end_ wb) as [w1 before]. destruct Hstop as ((_ & Hdone & Hworks & _) & Hf1 & _).
  specialize (Hworks eq_refl). specialize (Hdone Hworks). specialize (Hf1 eq_refl).
  pose proof (outcome true _ _ _ _ (restarted w1) (restoreOne_triple explain not_started stopping (fun _ => True) sid h
    (ended r1 at_ None end_) (W + zlen b) now reg (fs w1) Hdone Hend Hns ltac:(done)) (conj eq_refl eq_refl) (fun _ => Hf1))
    as (reg' & acts & v & Ha & Hs & _ & [S1 S2 S3 S4 S5 S6 S7 S8 S9 S10 S11 S12] & _).
  destruct (restoreOne _ _ _ _ _ _ _ (restarted w1)) as [w2 answer]. cbn [fst snd] in *. split; [done|]. exists reg', acts, v.
  assert (Hkept : slice_from (W + zlen b) h = slice_from W a ++ c).
  { unfold h. rewrite app_assoc. replace (W + zlen b) with (zlen (slice_to W a ++ b)) by (rewrite zlen_app, zlen_slice_to; lia).
    rewrite slice_from_app, slice_from_all; [done|lia|]. pose proof (zlen_nonneg (slice_to W a ++ b)). lia. }
  rewrite Hkept in S8, S9, S11. split_and!; try done.
  - rewrite Ha. unfold verdict. cbn. by rewrite Hh, Z.leb_refl.
  - rewrite S9. unfold continued. by rewrite (zlen_app h), (zlen_app (a ++ b ++ c)), Hh.
Qed.

End correct.

(** ** Concrete runs *)

#[local] Existing Instance sample_contract.
#[local] Existing Instance sample_contract_laws.
#[local] Existing Instance Concrete.platform.
#[local] Existing Instance Concrete.laws.

Definition no_reason (e : io_error) : string := "failed".

Definition goes (s : pipeline) : pipeline := default s (run_turn (fresh s)).

Definition born_session : session := newSession 7 "p" "w" "/" "sh -l" 5 1 80 24 [] true None.

Definition born : pipeline :=
  mkPipeline (finish_open true false born_session) None false
    ((fst (Store.create (creationFacts born_session) (mkWorld ∅ ∅ [] []))) <| passed := [] |>) [] true None None false [].

(** The shell prints, and the process dies when the segment was made and is still empty. *)
Definition printed : pipeline := prints (text "make") 6 (fresh born).
Definition writing : pipeline := goes (goes printed).
Definition cut_short : files := default ∅ (head (passed (disk writing))).
Definition dead : pipeline := writing <| disk := mkWorld cut_short ∅ [] [] |> <| alive := false |> <| looked := None |> <| returned := false |>.

(** The next life: it prints again, is stopped, and its feed drains. *)
Definition found : world * (io_error + (registry * restoreOutcome * list restore_action)) :=
  restoreOne no_reason "no shell" "stopping" true 9 7 sample_registry (disk dead).
Definition found_registry : registry := match snd found with inr (reg, _, _) => reg | inl _ => sample_registry end.
Definition again : pipeline :=
  mkPipeline (default born_session (sessions found_registry !! 7)) None false
    (mkWorld (fs (fst found)) (Store.open (fst found)) [] []) [] true None None false (recovered 7 (fs (disk dead)) (history dead)).
(** The stop looks at the writer while the feed still has the line break of the restore to write;
    the feed goes on, and the record is written after it. *)
Definition begun : pipeline := stop_begin (fresh (prints (text "ls") 10 (fresh again))).
Definition looking : pipeline := stop_look (fresh begun).
Definition overlapped : pipeline := goes (goes looking).
Definition stopping_ : pipeline := stop_reap 12 (fresh (stop_record 11 (fresh overlapped))).
Definition drained : pipeline := goes stopping_.

Abbreviation steps := (pipe_step no_reason "no shell" "stopping").

Definition can_go (s : pipeline) : bool := alive s && match run_turn (fresh s) with Some _ => true | None => false end.

Lemma goes_step s : can_go s = true -> steps s (goes s).
Proof. unfold can_go, goes. intros [Ha Hr]%andb_true_iff. apply pipe_runs; [done|]. by destruct (run_turn (fresh s)). Qed.

Lemma first_life : rtc steps born dead.
Proof.
  apply (rtc_l _ _ printed); [apply (pipe_prints _ _ _ (text "make") 6 born); by vm_compute|].
  apply (rtc_l _ _ (goes printed)); [apply goes_step; vm_compute; reflexivity|].
  apply (rtc_l _ _ writing); [apply (goes_step (goes printed)); vm_compute; reflexivity|].
  apply (rtc_l _ _ dead); [|apply rtc_refl]. apply (pipe_dies _ _ _ cut_short writing); [vm_compute; reflexivity|right].
  apply (list_elem_of_lookup_2 _ 0). vm_compute. reflexivity.
Qed.

Lemma second_life : rtc steps dead drained.
Proof.
  apply (rtc_l _ _ again).
  { apply (pipe_restarts _ _ _ 9 sample_registry found_registry (outcome_of 7 SessionDegraded "")
      (match snd found with inr (_, _, acts) => acts | inl _ => [] end) (default born_session (sessions found_registry !! 7)) (fst found) [] dead);
      vm_compute; reflexivity. }
  apply (rtc_l _ _ (prints (text "ls") 10 (fresh again))); [apply (pipe_prints _ _ _ (text "ls") 10 again); by vm_compute|].
  apply (rtc_l _ _ begun); [apply pipe_begins; vm_compute; reflexivity|].
  apply (rtc_l _ _ looking); [apply (pipe_looks _ _ _ begun); vm_compute; reflexivity|].
  apply (rtc_l _ _ (goes looking)); [apply goes_step; vm_compute; reflexivity|].
  apply (rtc_l _ _ overlapped); [apply (goes_step (goes looking)); vm_compute; reflexivity|].
  apply (rtc_l _ _ (stop_record 11 (fresh overlapped))); [apply pipe_records; by vm_compute|].
  apply (rtc_l _ _ stopping_); [apply (pipe_reaps _ _ _ 12); by vm_compute|].
  apply (rtc_l _ _ drained); [apply (goes_step stopping_); vm_compute; reflexivity|]. apply rtc_refl.
Qed.

Lemma born_begins : begins 7 born.
Proof.
  apply (begins_open 7 "p" "w" "/" "sh -l" 5 1 80 24 [] None false (mkWorld ∅ ∅ [] []) (fst (Store.create (creationFacts born_session) (mkWorld ∅ ∅ [] []))));
    [done|done|vm_compute; reflexivity].
Qed.

Lemma what_was_printed_comes_back_witness :
  let s := drained in let d := fs (disk drained) in
  (returned s = true /\ history s = text "ls") /\
  let '(w, answer) := restoreOne no_reason "no shell" "stopping" true 20 7 sample_registry (mkWorld d ∅ [] []) in
  exists hist lost start reg' kind acts v,
    history s = hist ++ lost /\ answer = inr (reg', outcome_of 7 kind "", acts) /\
    sessions reg' = <[7 := v]> (sessions sample_registry) /\
    (let kept := last_bytes HighWatermark (slice_from start hist) in
     ring_ok (continued hist kept) (ring v) /\ written v = zlen (continued hist kept) /\
     zlen kept <= zlen (OutputRing.bytes (ring v))) /\
    (start = 0 \/ outputSegmentBound < zlen hist + readBuffer - start) /\
    session_place v = session_place (value s) /\
    (alive s = true -> d = fs (disk s) -> (cols v, rows v) = (cols (value s), rows (value s))) /\
    ((exists f, feed (value s) = Some f /\ StoreFeed.closed f = true) \/ zlen lost <= feedDepth + readBuffer) /\
    (kind = SessionFull -> exists m, marked s = Some m /\ m <= zlen hist) /\
    (returned s = true -> d = fs (disk s) -> kind = SessionFull).
Proof.
  split; [by vm_compute|].
  apply (what_was_printed_comes_back no_reason "no shell" "stopping" 7 born drained (fs (disk drained)) 20 sample_registry);
    [apply born_begins|exact (transitivity first_life second_life)|by vm_compute|by vm_compute|by left|reflexivity].
Defined.

(** As much as a segment holds. *)
Definition a_segment : octets := replicate (Z.to_nat outputSegmentBound) Byte.x00.

Lemma a_segment_length : zlen a_segment = outputSegmentBound.
Proof. unfold zlen, a_segment. rewrite length_replicate. apply Z2Nat.id. by unfold outputSegmentBound. Qed.

(** A session whose segment is full, its writer open. *)
Definition full_files : files :=
  <[segmentPath 7 0 := a_segment]> {[recordPath 7 := Store.Marshal Concrete.record ++ newline]}.

Definition full_world : world := mkWorld full_files {[7 := mkWriter true 0 outputSegmentBound]} [] [].

Lemma full_stored : stored 7 a_segment Concrete.record 0 full_files.
Proof.
  constructor; [|done|by left| | |].
  - unfold full_files. rewrite lookup_insert_ne by done. apply lookup_singleton_eq.
  - rewrite a_segment_length. done.
  - unfold segment_bytes, full_files. change (Store.Segment Concrete.record) with 0. rewrite lookup_insert_eq.
    change (Store.Written Concrete.record) with 0. by rewrite slice_from_0.
  - unfold segment_bytes, full_files. change (Store.Segment Concrete.record) with 0.
    rewrite lookup_insert_ne by done. by rewrite lookup_singleton_ne by done.
Qed.

Lemma hole_behind_a_roll_reads_full_witness :
  let a := a_segment in let b := text "lost" in let c := [Byte.x62] in
  let end_ := zlen (a ++ b ++ c) in
  let '(w1, before) := (storeFeedFor 7 c end_;;; markEnded 7 11 None end_) full_world in
  let '(w2, answer) := restoreOne no_reason "no shell" "stopping" true 20 7 sample_registry (restarted w1) in
  before = inr tt /\ exists reg' acts v,
    answer = inr (reg', outcome_of 7 SessionFull "", acts) /\ sessions reg' = <[7 := v]> (sessions sample_registry) /\
    let kept := last_bytes HighWatermark (slice_from 0 a ++ c) in
    ring_ok (continued (slice_to 0 a ++ b ++ slice_from 0 a ++ c) kept) (ring v) /\
    written v = zlen (continued (a ++ b ++ c) kept) /\ zlen kept <= zlen (OutputRing.bytes (ring v)).
Proof.
  apply (hole_behind_a_roll_reads_full no_reason "no shell" "stopping" 7 a_segment (text "lost") [Byte.x62] Concrete.record 0 11 20 full_world sample_registry).
  - exact full_stored.
  - rewrite a_segment_length. reflexivity.
  - reflexivity.
  - rewrite a_segment_length. reflexivity.
  - rewrite a_segment_length. reflexivity.
  - unfold is_u64. rewrite !zlen_app, a_segment_length. by vm_compute.
  - reflexivity.
Defined.
