(* ===== verification/Arrival.v ===== *)
(** * An open beside the other connections (session.go [openWithObserver], [close])

    An open files its session under the lock of the registry and lets go of it before the
    session has a record, a feed or a pump.  A step is one of the stretches of the open or
    something another connection does in between; the session is a pointer the open keeps
    also after a close has taken it out of the registry.  Run alone the stretches are
    [Registry.openWithObserver]; a close in between leaves a record behind it. *)

From S2P Require Import Prelude Control Contract OutputRing Observer StoreFeed Store Session Registry Restore.

(** ** The stretches of an open *)

Inductive arrival_pc :=
| Registering
| Recording (sid : Z)
| Announcing (sid : Z)
| Answered (sid : Z)
| TurnedAway.

(** [gone] is the session of the open once it is out of the registry. *)
Record arrival := mkArrival {
  reg : registry;
  disk : world;
  gone : option session;
  at_ : arrival_pc
}.

#[export] Instance arrival_settable : Settable arrival := fun s => mkArrival (reg s) (disk s) (gone s) (at_ s).

(** The session an open is at work on. *)
Definition its (pc : arrival_pc) : option Z :=
  match pc with Recording sid | Announcing sid | Answered sid => Some sid | Registering | TurnedAway => None end.

Definition session_at (sid : Z) (s : arrival) : option session :=
  match Registry.sessions (reg s) !! sid with Some v => Some v | None => gone s end.

Definition put (sid : Z) (v : session) (s : arrival) : arrival :=
  match Registry.sessions (reg s) !! sid with
  | Some _ => s <| reg := (reg s) <| Registry.sessions := <[sid := v]> (Registry.sessions (reg s)) |> |>
  | None => s <| gone := Some v |>
  end.

Section arrival.
Context `{PtyContract} `{Platform}.
Context (request : Open) (named : string) (env : list string) (prepared : option preparedObserver).

(** The creation write, and the feed of a session that has a record. *)
Definition record_it (sid : Z) (s : arrival) : arrival :=
  match session_at sid s with
  | None => s
  | Some v =>
      if hasStore v
      then let '(w, created) := Store.create (creationFacts v) (disk s) in
           put sid (finish_open (match created with inr _ => true | inl _ => false end) false v) (s <| disk := w |>)
      else s
  end.

Definition announce_it (sid : Z) (s : arrival) : arrival :=
  match session_at sid s with
  | None => s
  | Some v => put sid (if bool_decide (prepared <> None) then announce v else v) s
  end.

Definition arrive_turn (now : Z) (s : arrival) : option arrival :=
  match at_ s with
  | Registering =>
      match register request named env now prepared (reg s) with
      | None => None
      | Some (reg', inl _, _) => Some (s <| reg := reg' |> <| at_ := TurnedAway |>)
      | Some (reg', inr sid, _) => Some (s <| reg := reg' |> <| at_ := Recording sid |>)
      end
  | Recording sid => Some ((record_it sid s) <| at_ := Announcing sid |>)
  | Announcing sid => Some ((announce_it sid s) <| at_ := Answered sid |>)
  | Answered _ | TurnedAway => None
  end.

(** What a close leaves of the registry, the store and the session of the open. *)
Definition closed_beside (sid now : Z) (reg' : registry) (w : world) (s : arrival) : arrival :=
  s <| reg := reg' |> <| disk := w |>
    <| gone := match Registry.sessions (reg s) !! sid with
               | Some v => if bool_decide (its (at_ s) = Some sid) then Some (fst (reap true now v)) else gone s
               | None => gone s
               end |>.

Inductive arrival_step : arrival -> arrival -> Prop :=
| a_turn now s s' : arrive_turn now s = Some s' -> arrival_step s s'
| a_close sid now s w reg' ended acts : close_stored sid now (reg s) (disk s) = (w, inr (reg', ended, acts)) ->
    arrival_step s (closed_beside sid now reg' w s)
| a_session sid op now s : arrival_step s (s <| reg := update_session sid op now (reg s) |>).

End arrival.

(** ** An open that nothing disturbs *)

Section alone.
Context `{PtyContractLaws} `{PlatformLaws}.
Context (request : Open) (named : string) (env : list string) (prepared : option preparedObserver).

Abbreviation arrive_turn := (arrive_turn request named env prepared).
Abbreviation arrival_step := (arrival_step request named env prepared).

(** A session just registered has the store of the registry. *)
Lemma registered_session now r reg' sid acts : register request named env now prepared r = Some (reg', inr sid, acts) ->
  exists v, Registry.sessions reg' = <[sid := v]> (Registry.sessions r) /\ hasStore v = store r /\ closed v = false /\ id v = sid /\
    creationFacts v = mkRecord sid (PaneID request) (WindowLabel request) (OpenCWD request) (named ++ " -l") env
      (Cols request) (Rows request) now None None 0 0 0 "" "" [] /\ store reg' = store r /\ stopped r = false.
Proof.
  unfold register. destruct (stopped r) eqn:Es; [done|]. unfold issueLocked. destruct (issue_loop _ _ _) as [n|]; [|done].
  intros [= <- <- <-]. cbn. eexists. split; [done|]. unfold newSession. by destruct prepared as [[displays x]|].
Qed.

(** The three stretches together are [Registry.openWithObserver] with the creation write. *)
Lemma undisturbed_open r w now r1 r2 sid acts recordOk acts' : open_check request r = inr named ->
  register request named env now prepared r = Some (r1, inr sid, acts) ->
  (forall v, Registry.sessions r1 !! sid = Some v -> store r = true ->
     recordOk = match snd (Store.create (creationFacts v) w) with inr _ => true | inl _ => false end) ->
  Registry.openWithObserver request env true recordOk now prepared r = Some (r2, inr sid, acts') ->
  exists s1 s2 s3, arrive_turn now (mkArrival r w None Registering) = Some s1 /\ arrive_turn now s1 = Some s2 /\
    arrive_turn now s2 = Some s3 /\ reg s3 = r2 /\ gone s3 = None /\ at_ s3 = Answered sid.
Proof.
  intros Hcheck Hreg Hok Hopen. unfold Registry.openWithObserver in Hopen. rewrite Hcheck in Hopen. cbn [negb] in Hopen.
  rewrite Hreg in Hopen. injection Hopen as <- _.
  destruct (registered_session _ _ _ _ _ Hreg) as (v & Es & Hstore & _).
  assert (Ev : Registry.sessions r1 !! sid = Some v) by (rewrite Es; apply lookup_insert_eq). specialize (Hok v Ev).
  unfold Arrival.arrive_turn at 1. cbn [at_ reg]. rewrite Hreg.
  eexists _, _, _. split; [done|]. split; [done|]. split; [done|]. cbn [at_].
  set (s1 := mkArrival r1 w None (Recording sid)).
  set (made := match snd (Store.create (creationFacts v) w) with inr _ => true | inl _ => false end) in *.
  assert (E2 : exists w', record_it sid s1 = mkArrival
    (r1 <| Registry.sessions := <[sid := finish_open recordOk false v]> (Registry.sessions r1) |>) w' None (Recording sid)).
  { unfold record_it, session_at. cbn [reg s1]. rewrite Ev, Hstore.
    assert (Hput : forall w', put sid (finish_open made false v) (s1 <| disk := w' |>) = mkArrival
      (r1 <| Registry.sessions := <[sid := finish_open made false v]> (Registry.sessions r1) |>) w' None (Recording sid)).
    { intros w'. unfold put. cbn. by rewrite Ev. }
    destruct (store r).
    - exists (fst (Store.create (creationFacts v) w)). rewrite Hok by done. unfold made in Hput.
      change (disk s1) with w. destruct (Store.create (creationFacts v) w) as [w' a]. apply Hput.
    - exists w. unfold finish_open. rewrite Hstore. cbn. rewrite insert_id by done. by destruct r1. }
  destruct E2 as [w' E2]. change ((mkArrival r w None Registering) <| reg := r1 |> <| at_ := Recording sid |>) with s1.
  rewrite E2. unfold announce_it, session_at, put. cbn. rewrite lookup_insert_eq. cbn.
  split; [|done]. rewrite insert_insert_eq.
  match goal with |- context [<[sid := ?x]> (Registry.sessions r1)] =>
    assert (E : <[sid := x]> (Registry.sessions r1) =
      alter (finish_open recordOk (bool_decide (prepared <> None))) sid (Registry.sessions r1)) end; [|by rewrite E].
  apply map_eq. intros k. destruct (decide (k = sid)) as [->|Hne].
  - rewrite lookup_insert_eq, lookup_alter_eq, Ev. cbn [fmap option_fmap option_map]. unfold finish_open.
    by destruct (hasStore v), recordOk, (bool_decide (prepared <> None)).
  - by rewrite lookup_insert_ne, lookup_alter_ne by done.
Qed.

(** ** A close beside it *)

Lemma close_stored_works sid now r w v : fates w = [] -> store r = true -> Registry.sessions r !! sid = Some v ->
  (forall n, n ∈ session_files sid -> fs w !! n = None) ->
  exists w' reg' acts, close_stored sid now r w = (w', inr (reg', true, acts)) /\ fates w' = [] /\
    (forall n, n ∈ session_files sid -> fs w' !! n = None) /\
    reg' = fst (fst (Registry.close sid now true r)).
Proof.
  intros Hf Hs Hv Hn. unfold close_stored. rewrite Hs. unfold bind at 1, attempt.
  pose proof (remove_triple true sid (fs w) (Store.open w) w ltac:(done) ltac:(done)) as Hr.
  destruct (Store.remove sid w) as [w1 x]. destruct Hr as ((_ & _ & Ha & Hd) & Hf1 & _).
  rewrite (Ha eq_refl). pose proof (close_registry sid now true r) as Hc.
  destruct (Registry.close sid now true r) as [[reg' ended] acts]. destruct Hc as (_ & _ & ->). unfold bind.
  destruct (perform_lucky (List.tl acts) w1 (Hf1 eq_refl)) as (Hf2 & Hn2 & Hans).
  destruct (perform (List.tl acts) w1) as [w2 a]. cbn [fst snd] in *. subst a. exists w2, reg', acts.
  rewrite Hv. split; [done|]. split; [done|]. split; [|done]. intros n Hin. apply Hn2. rewrite (Hd (Ha eq_refl)).
  by apply deleted_files.
Qed.

Lemma create_works v w sid : fates w = [] -> id v = sid -> (forall n, n ∈ session_files sid -> fs w !! n = None) ->
  exists w', Store.create (creationFacts v) w = (w', inr tt) /\ fates w' = [] /\ stored sid [] (creationFacts v) 0 (fs w').
Proof.
  intros Hf <- Hfree. unfold Store.create, Store.write.
  pose proof (publish_triple true (fun _ => True) (fs w) (Store.open w) (creationFacts v) ltac:(done)
    ltac:(apply staged_free) false w ltac:(done) ltac:(done)) as Hp.
  destruct (publish (creationFacts v) false w) as [w' a]. destruct Hp as ((_ & _ & Hd & Ha) & Hf' & _).
  specialize (Ha eq_refl). exists w'. rewrite Ha. split; [done|]. split; [by apply Hf'|]. rewrite (Hd Ha).
  assert (Hnone : forall seg, two_segments seg -> segment_bytes (id v) seg
    (<[recordPath (id v) := Marshal (creationFacts v) ++ newline]> (fs w)) = []).
  { intros seg Hseg. unfold segment_bytes. rewrite lookup_insert_ne by (intros E; symmetry in E; by apply segment_not_record in E).
    destruct Hseg as [->| ->]; rewrite Hfree; [done|set_solver|done|set_solver]. }
  constructor; [apply lookup_insert_eq|done|by left|done|by apply Hnone; left|by apply Hnone; right].
Qed.

(** C34: an open lets go of the registry before the session has a record, so another connection
    can close the session in between, is told that it ended it, and takes a record that is
    not there yet; the open then writes it.  With every call working the session is out of
    the registry, its opener is answered with it, and the next start stands it up again with
    a shell of its own. *)
Theorem closed_while_opening_comes_back (explain : io_error -> string) (not_started stopping : string) now later next_reg r w r1 sid acts :
  store r = true -> fates w = [] -> register request named env now prepared r = Some (r1, inr sid, acts) ->
  (forall n, n ∈ session_files sid -> fs w !! n = None) -> stopped next_reg = false ->
  exists w2 r2 more s1 s, arrival_step (mkArrival r w None Registering) s1 /\
    close_stored sid now (reg s1) (disk s1) = (w2, inr (r2, true, more)) /\
    rtc arrival_step (closed_beside sid now r2 w2 s1) s /\ at_ s = Answered sid /\ fates (disk s) = [] /\
    Registry.sessions (reg s) !! sid = None /\
    let '(w3, answer) := restoreOne explain not_started stopping true later sid next_reg (restarted (disk s)) in
    exists reg' moreacts v, answer = inr (reg', outcome_of sid SessionDegraded "", moreacts) /\
      Registry.sessions reg' = <[sid := v]> (Registry.sessions next_reg) /\ closed v = false /\
      paneID v = PaneID request /\ windowLabel v = WindowLabel request /\ Session.command v = (named ++ " -l")%string.
Proof.
  intros Hs Hf Hreg Hfree Hns. destruct (registered_session _ _ _ _ _ Hreg) as (v & Es & Hstore & Hc & Hid & Hfacts & Hs1 & _).
  assert (Ev : Registry.sessions r1 !! sid = Some v) by (rewrite Es; apply lookup_insert_eq).
  set (s1 := mkArrival r1 w None (Recording sid)).
  destruct (close_stored_works sid now r1 w v Hf ltac:(by rewrite Hs1) Ev Hfree) as (w2 & r2 & more & Hclose & Hf2 & Hfree2 & Hr2).
  assert (Hgone : Registry.sessions r2 !! sid = None).
  { pose proof (close_registry sid now true r1) as Hx. rewrite Hr2. destruct (Registry.close sid now true r1) as [[? ?] ?]. apply Hx. }
  set (v2 := fst (reap true now v)). set (s2 := closed_beside sid now r2 w2 s1).
  assert (E2 : s2 = mkArrival r2 w2 (Some v2) (Recording sid)).
  { unfold s2, closed_beside. cbn. rewrite Ev. by rewrite bool_decide_true. }
  assert (Hv2 : creationFacts v2 = creationFacts v /\ hasStore v2 = hasStore v /\ id v2 = id v).
  { unfold v2, reap. rewrite Hc. by destruct (feed v). }
  destruct Hv2 as (Hfacts2 & Hstore2 & Hid2).
  destruct (create_works v2 w2 sid Hf2 ltac:(congruence) Hfree2) as (w3 & Hcreate & Hf3 & Hst).
  set (s3 := mkArrival r2 w3 (Some (finish_open true false v2)) (Announcing sid)).
  assert (T3 : arrive_turn now s2 = Some s3).
  { rewrite E2. unfold Arrival.arrive_turn, record_it, session_at. cbn [at_ reg gone disk]. rewrite Hgone.
    rewrite Hstore2, Hstore, Hs, Hcreate. unfold put. cbn. by rewrite Hgone. }
  assert (T4 : exists s4, arrive_turn now s3 = Some s4 /\ reg s4 = r2 /\ disk s4 = w3 /\ at_ s4 = Answered sid).
  { unfold Arrival.arrive_turn, announce_it, session_at, put. cbn [at_ reg gone s3]. rewrite Hgone. eexists. split; [done|]. by split_and!. }
  destruct T4 as (s4 & T4 & Er & Ed & Ea). exists w2, r2, more, s1, s4. rewrite Er, Ed.
  split; [apply (a_turn _ _ _ _ now); unfold Arrival.arrive_turn; cbn; by rewrite Hreg|]. split; [done|].
  split; [fold s2; apply (rtc_l _ _ s3); [by apply (a_turn _ _ _ _ now)|]; apply (rtc_l _ _ s4); [by apply (a_turn _ _ _ _ now)|apply rtc_refl]|].
  split; [done|]. split; [done|]. split; [done|].
  pose proof (outcome true _ _ _ _ (restarted w3) (restoreOne_triple explain not_started stopping (fun _ => True) sid []
    (creationFacts v2) 0 later next_reg (fs w3) Hst ltac:(done) Hns ltac:(done)) (conj eq_refl eq_refl) (fun _ => Hf3))
    as (reg' & macts & v3 & Ha & Hsess & _ & [S1 S2 S3 S4 S5 S6 S7 S8 S9 S10 S11 S12] & _).
  destruct (restoreOne _ _ _ _ _ _ _ (restarted w3)) as [w4 answer]. cbn [fst snd] in *.
  exists reg', macts, v3. rewrite Hfacts2, Hfacts in *. split; [exact Ha|]. by split_and!; [|apply S10|..].
Qed.

End alone.

(** ** Witness *)

Section witness.
#[local] Existing Instance sample_contract.
#[local] Existing Instance sample_contract_laws.
#[local] Existing Instance Concrete.platform.
#[local] Existing Instance Concrete.laws.

Definition storing_registry : registry := (newRegistry "sh" 30 5 7) <| store := true |>.
Definition filed_registry : registry :=
  match register (sample_open "p3" "w") "sh" [] 130 None storing_registry with Some (r, _, _) => r | None => storing_registry end.
Definition empty_world : world := mkWorld ∅ ∅ [] [].

Lemma closed_while_opening_comes_back_witness :
  exists w2 r2 more s1 s, arrival_step (sample_open "p3" "w") "sh" [] None (mkArrival storing_registry empty_world None Registering) s1 /\
    close_stored 8 130 (reg s1) (disk s1) = (w2, inr (r2, true, more)) /\
    rtc (arrival_step (sample_open "p3" "w") "sh" [] None) (closed_beside 8 130 r2 w2 s1) s /\ at_ s = Answered 8 /\ fates (disk s) = [] /\
    Registry.sessions (reg s) !! 8 = None /\
    let '(w3, answer) := restoreOne (fun _ => "failed"%string) "no shell" "stopping" true 200 8 storing_registry (restarted (disk s)) in
    exists reg' moreacts v, answer = inr (reg', outcome_of 8 SessionDegraded "", moreacts) /\
      Registry.sessions reg' = <[8 := v]> (Registry.sessions storing_registry) /\ closed v = false /\
      paneID v = PaneID (sample_open "p3" "w") /\ windowLabel v = WindowLabel (sample_open "p3" "w") /\
      Session.command v = ("sh" ++ " -l")%string.
Proof.
  apply (closed_while_opening_comes_back (sample_open "p3" "w") "sh" [] None (fun _ => "failed"%string) "no shell" "stopping"
    130 200 storing_registry storing_registry empty_world filed_registry 8 []);
    [reflexivity|reflexivity|vm_compute; reflexivity|intros n _; apply lookup_empty|reflexivity].
Defined.

End witness.
