(* ===== verification/Connection.v ===== *)
(** * Connections of the control socket (control.go [serveControl])

    A connection sends requests, one per line.  It is greeted first; a stream command ends
    the requests and hands the connection over to a stream.  [serve_turn] is one line of the
    loop, what a stream then delivers is in Stream.v, and [stream_ends] is what the daemon
    does when it is over. *)

From S2P Require Import Prelude Contract ProcessWatch OutputRing Observer Inventory Store Session Monitor Registry Control.

(** ** Requests and responses *)

Record Request {Raw : Type} := mkRequest {
  RequestID : string;
  Command : string;
  Args : gmap string Raw
}.
Arguments Request : clear implicits.
Arguments mkRequest {Raw} RequestID Command Args.
Arguments RequestID {Raw}.
Arguments Command {Raw}.
Arguments Args {Raw}.

Record Greeting := mkGreeting {
  SpokenProtocol : Z;
  Identity : string;
  ProcessLabel : string;
  TableCommands : list string;
  TableUnserved : list string
}.

Record Attached := mkAttached {
  AttachedSession : Z;
  Mode : string;
  StartSeq : Z
}.

Inductive body :=
| NotARequest
| Refusal (code : string)
| Greeted (g : Greeting)
| Answered (data : Data)
| AnsweredAttached (a : Attached)
| AnsweredObserved (o : Observed)
| AnsweredPrepared (token : string)
| AnsweredLedger (l : ProcessInventory).

Record Response := mkResponse {
  ResponseID : string;
  Result : body
}.

(** What a connection that changed carries. *)
Inductive stream :=
| RendererStream (session generation at_ : Z)
| ObserverStream (session : Z) (o : nat)
| PreparedStream (n : nat)
| LedgerStream (subscriber : nat).

(** A connection in its requests, in its stream, or gone; [Stuck] is one whose handler never
    returned. *)
Inductive connection := Requesting (greeted : bool) | Streaming (s : stream) | HungUp | Stuck.

Section connections.
Context `{PtyContract} `{ControlContract} `{Platform} {Raw : Type} `{Wire Raw} {W : Type} `{ProcessWatch.ProcessTreeWatch W}.
Context (goos : string) (toUpper : string -> string).
Context (identity processLabel : string) (daemonPID : Z).

Abbreviation daemon := (daemon W).
Abbreviation around := (around W).
Abbreviation Request := (Request Raw).
Abbreviation commands := (commands goos toUpper identity daemonPID).

Definition refusal (r : Request) (code : string) : Response := mkResponse (RequestID r) (Refusal code).

(** ** Greeting *)

(** The token a greeting carries; [None] for one that is not a string. *)
Definition presented (r : Request) : option string :=
  match Args r !! "token"%string with
  | None => Some ""%string
  | Some raw => asString raw
  end.

Definition agreed (r : Request) : bool :=
  match Args r !! "protocol"%string with
  | None => true
  | Some raw => match asInt raw with None => false | Some wanted => wanted =? Protocol end
  end.

(** The names of a table, in order ([sortTable]). *)
Definition sorted_table (names : gset string) : list string := merge_sort String.le (elements names).

Definition greeting : Greeting :=
  mkGreeting Protocol identity processLabel (sorted_table (dom commands)) (sorted_table unserved).

Definition greet (r : Request) (greeted : bool) (d : daemon) : Response * bool :=
  if negb (agreed r) then (refusal r "PROTOCOL", greeted)
  else
    match presented r with
    | None => (refusal r "TOKEN", greeted)
    | Some sent =>
        if negb (String.eqb sent (token d)) then (refusal r "TOKEN", greeted)
        else (mkResponse (RequestID r) (Greeted greeting), true)
    end.

(** ** One request *)

Definition answer (out : around) (r : Request) (greeted : bool) (d : daemon)
    : io (daemon * bool * option Response * list reg_action) :=
  if String.eqb (Command r) HelloCommand then
    let '(response, greeted) := greet r greeted d in ret (d, greeted, Some response, [])
  else if negb greeted then ret (d, greeted, Some (refusal r "GREETING"), [])
  else if bool_decide (Command r ∈ unserved) then ret (d, greeted, Some (refusal r "UNSERVED"), [])
  else
    match commands !! Command r with
    | None => ret (d, greeted, Some (refusal r "UNKNOWN_COMMAND"), [])
    | Some run =>
        do '(d, reply, acts) <- run out (Args r) d;
        ret (d, greeted,
             match reply with
             | Refuse code => Some (refusal r code)
             | Answers data => Some (mkResponse (RequestID r) (Answered data))
             | NoReturn => None
             end, acts)
    end.

(** ** Streams *)

(** What the daemon does when a stream is over: the deferred calls of its handler. *)
Definition stream_ends (out : around) (s : stream) (d : daemon) : daemon :=
  match s with
  | RendererStream sid gen _ =>
      on_registry (fun reg => reg <| sessions := alter (Session.detachRenderer gen (clock out)) sid (sessions reg) |>) d
  | ObserverStream sid o =>
      on_registry (fun reg => reg <| sessions := alter (removeObserver o (clock out)) sid (sessions reg) |>) d
  | PreparedStream n =>
      match prepared d !! n with
      | None => d
      | Some p =>
          match byPane (order out) (PreparePaneID (request p)) (registry_ d) with
          | None => d
          | Some v =>
              match adoptedBy p with
              | Some (sid, o) =>
                  if sid =? id v then put_session (removeObserver o (clock out) v) d
                  else on_registry (fun reg => reg <| sessions := alter (run_op (OpCloseObserver o) (clock out)) sid (sessions reg) |>) d
              | None => d <| prepared := <[n := p <| observer_ := Observer.close (observer_ p) |>]> (prepared d) |>
              end
          end
      end
  | LedgerStream me =>
      d <| processes_ := (fun s => s <| processState := Inventory.stop me (processState s) |>) <$> processes_ d |>
  end.

Definition attach (out : around) (r : Request) (d : daemon) : daemon * Response * option stream :=
  match payload asAttach (Args r) with
  | None => (d, refusal r "ARGUMENT", None)
  | Some ask =>
      match get (AttachSession ask) (registry_ d) with
      | None => (d, refusal r "NO_SESSION", None)
      | Some v =>
          let '(v, gen) := attachRenderer v in
          let '(at_, mode) := resolve (FromSeq ask) (ring v) in
          (put_session v d, mkResponse (RequestID r) (AnsweredAttached (mkAttached (id v) mode at_)),
           Some (RendererStream (id v) gen at_))
      end
  end.

Definition attachLease (out : around) (r : Request) (d : daemon) : daemon * Response * option stream :=
  match payload asToken (Args r) with
  | None => (d, refusal r "ARGUMENT", None)
  | Some ask =>
      match leases_ d !! ask with
      | None => (d, refusal r "LEASE_NOT_FOUND", None)
      | Some sid =>
          let d := d <| leases_ := delete ask (leases_ d) |> in
          match get sid (registry_ d) with
          | None => (d, refusal r "NO_SESSION", None)
          | Some v =>
              let '(v, gen) := replaceRenderer v in
              let '(held, consumed) := consumeLease ask (ring v) in
              let d := put_session (v <| ring := held |>) d in
              match consumed with
              | inr _ => (stream_ends out (RendererStream (id v) gen 0) d, refusal r "LEASE_BROKEN", None)
              | inl at_ => (d, mkResponse (RequestID r) (AnsweredAttached (mkAttached sid ModeResumed at_)),
                            Some (RendererStream (id v) gen at_))
              end
          end
      end
  end.

Definition observe (out : around) (r : Request) (d : daemon) : daemon * Response * option stream :=
  match payload asObserve (Args r) with
  | None => (d, refusal r "ARGUMENT", None)
  | Some ask =>
      match get (ObserveSession ask) (registry_ d) with
      | None => (d, refusal r "NO_SESSION", None)
      | Some v =>
          match Session.observe (ObserveToken ask) (ObserveDisplays ask) v with
          | (v, inl _) => (d, refusal r "OBSERVER_TOKEN", None)
          | (v, inr (o, observed)) =>
              (put_session v d, mkResponse (RequestID r) (AnsweredObserved observed), Some (ObserverStream (id v) o))
          end
      end
  end.

Definition observePrepared (out : around) (r : Request) (d : daemon) : daemon * Response * option stream :=
  match payload asToken (Args r) with
  | None => (d, refusal r "ARGUMENT", None)
  | Some ask =>
      match pendingObservers d !! ask with
      | None => (d, refusal r "OBSERVER_NOT_FOUND", None)
      | Some n => (d <| prepared := alter (fun p => p <| ready := true |>) n (prepared d) |>,
                   mkResponse (RequestID r) (AnsweredPrepared ask), Some (PreparedStream n))
      end
  end.

Definition processObserve (out : around) (r : Request) (d : daemon) : daemon * Response * option stream :=
  let d := start_monitoring identity daemonPID out d in
  if negb (eventsSupported out) then (d, refusal r "PROCESS_OBSERVE_UNSUPPORTED", None)
  else
    match processes_ d with
    | None => (d, refusal r "PROCESS_OBSERVE_UNSUPPORTED", None)
    | Some s =>
        let '(state, snapshot, me) := Inventory.observe (processState s) in
        (d <| processes_ := Some (s <| processState := state |>) |>,
         mkResponse (RequestID r) (AnsweredLedger snapshot), Some (LedgerStream me))
    end.

(** The handler of a stream command. *)
Definition stream_command (command : string) : option (around -> Request -> daemon -> daemon * Response * option stream) :=
  if String.eqb command CommandProcessObserve then Some processObserve
  else if String.eqb command CommandAttach then Some attach
  else if String.eqb command CommandAttachLease then Some attachLease
  else if String.eqb command CommandObserve then Some observe
  else if String.eqb command CommandObservePrepared then Some observePrepared
  else None.

(** ** The loop *)

(** One line: a request, or [None] for a line that is not one.  [sent] is whether the
    answer could be written.  The answers are all there were, written or not. *)
Definition serve_turn (line : option Request) (sent : bool) (out : around) (c : connection) (d : daemon)
    : io (connection * daemon * option Response * list reg_action) :=
  match c with
  | Requesting greeted =>
      match line with
      | None => ret (if sent then Requesting greeted else HungUp, d, Some (mkResponse "" NotARequest), [])
      | Some r =>
          match stream_command (Command r) with
          | Some start =>
              if negb greeted then ret (HungUp, d, Some (refusal r "GREETING"), [])
              else
                match start out r d with
                | (d, response, None) => ret (HungUp, d, Some response, [])
                | (d, response, Some s) =>
                    if sent then ret (Streaming s, d, Some response, [])
                    else ret (HungUp, match s with PreparedStream _ => d | _ => stream_ends out s d end, Some response, [])
                end
          | None =>
              do '(d, greeted, response, acts) <- answer out r greeted d;
              ret (match response with
                   | None => Stuck
                   | Some _ => if sent then Requesting greeted else HungUp
                   end, d, response, acts)
          end
      end
  | _ => ret (c, d, None, [])
  end.

Fixpoint serve (lines : list (option Request * bool * around)) (c : connection) (d : daemon)
    : io (connection * daemon * list (option Response) * list reg_action) :=
  match lines with
  | [] => ret (c, d, [], [])
  | (line, sent, out) :: lines =>
      do '(c, d, response, acts) <- serve_turn line sent out c d;
      do '(c, d, responses, more) <- serve lines c d;
      ret (c, d, response :: responses, acts ++ more)
  end.

(** ** Timers and peers *)

(** The time of a lease or of a preparation is up. *)
Definition expire_lease (ask : string) (sid : Z) (d : daemon) : daemon :=
  on_registry (fun reg => reg <| sessions := alter (run_op (OpRing (OpExpire ask)) 0) sid (sessions reg) |>)
    (d <| leases_ := delete ask (leases_ d) |>).

Definition expire_prepared (ask : string) (d : daemon) : daemon :=
  d <| pendingObservers := delete ask (pendingObservers d) |>.

(** The peer of a prepared observer's stream is gone: the observer is closed where it is. *)
Definition prepared_peer_left (n : nat) (d : daemon) : daemon :=
  match prepared d !! n with
  | None => d
  | Some p =>
      match adoptedBy p with
      | Some (sid, o) =>
          on_registry (fun reg => reg <| sessions := alter (run_op (OpCloseObserver o) 0) sid (sessions reg) |>) d
      | None => d <| prepared := <[n := p <| observer_ := Observer.close (observer_ p) |>]> (prepared d) |>
      end
  end.

End connections.

(** ** Before the greeting *)

Section ungreeted.
Context `{PtyContract} `{ControlContract} `{Platform} {Raw : Type} `{Wire Raw} {W : Type} `{ProcessWatch.ProcessTreeWatch W}.
Context (goos : string) (toUpper : string -> string).
Context (identity processLabel : string) (daemonPID : Z).

Abbreviation greet := (greet goos toUpper identity processLabel daemonPID).
Abbreviation serve_turn := (serve_turn goos toUpper identity processLabel daemonPID).
Abbreviation serve := (serve goos toUpper identity processLabel daemonPID).

(** An answer that says no. *)
Definition turns_away (b : body) : Prop :=
  b = NotARequest \/ exists code, code ∈ ["GREETING"; "PROTOCOL"; "TOKEN"]%string /\ b = Refusal code.

Definition outside (c : connection) : Prop := c = Requesting false \/ c = HungUp.

Lemma greet_refused (r : Request Raw) (d : daemon W) : presented r <> Some (token d) ->
  exists code, code ∈ ["GREETING"; "PROTOCOL"; "TOKEN"]%string /\ greet r false d = (refusal r code, false).
Proof.
  intros Hr. unfold Connection.greet. destruct (negb (agreed r)); [exists "PROTOCOL"%string; set_solver|].
  destruct (presented r) as [sent|]; [|exists "TOKEN"%string; set_solver].
  destruct (String.eqb_spec sent (token d)) as [->|]; [done|]. exists "TOKEN"%string. set_solver.
Qed.

Lemma outside_turn line sent out c (d : daemon W) w : outside c ->
  (forall r : Request Raw, line = Some r -> Command r = HelloCommand -> presented r <> Some (token d)) ->
  exists c' response, serve_turn line sent out c d w = (w, inr (c', d, response, [])) /\ outside c' /\
    forall a, response = Some a -> turns_away (Result a).
Proof.
  intros Hc Hline. unfold Connection.serve_turn. destruct Hc as [->| ->].
  2:{ exists HungUp, None. split; [done|]. split; [by right|done]. }
  assert (Hgreeting : turns_away (Refusal "GREETING")) by (right; exists "GREETING"%string; set_solver).
  assert (Hnext : forall b : bool, outside (if b then Requesting false else HungUp)) by (intros []; [by left|by right]).
  destruct line as [r|].
  - destruct (stream_command identity daemonPID (Command r)); cbn [negb].
    + eexists _, _. split; [done|]. split; [by right|]. by intros a [= <-].
    + unfold answer. destruct (String.eqb_spec (Command r) HelloCommand) as [Eh|].
      * destruct (greet_refused r d (Hline r eq_refl Eh)) as (code & Hcode & ->).
        eexists _, _. split; [done|]. split; [apply Hnext|]. intros a [= <-]. right. by exists code.
      * eexists _, _. split; [done|]. split; [apply Hnext|]. by intros a [= <-].
  - eexists _, _. split; [done|]. split; [apply Hnext|]. intros a [= <-]. by left.
Qed.

(** C3: whatever lines a connection sends, while none of them is a greeting with the token
    of this daemon they change nothing, in the daemon and on the disk, and start no
    stream: every answer turns the caller away. *)
Theorem no_token_no_effect (lines : list (option (Request Raw) * bool * around W)) (d : daemon W) w :
  (forall line sent out r, (line, sent, out) ∈ lines -> line = Some r -> Command r = HelloCommand ->
     presented r <> Some (token d)) ->
  exists c responses, serve lines (Requesting false) d w = (w, inr (c, d, responses, [])) /\ outside c /\
    forall a, Some a ∈ responses -> turns_away (Result a).
Proof.
  assert (Hgen : forall c, outside c -> (forall line sent out r, (line, sent, out) ∈ lines -> line = Some r ->
      Command r = HelloCommand -> presented r <> Some (token d)) ->
    exists c' responses, serve lines c d w = (w, inr (c', d, responses, [])) /\ outside c' /\
      forall a, Some a ∈ responses -> turns_away (Result a)).
  { induction lines as [|[[line sent] out] lines IH]; intros c Hc Hl.
    - exists c, []. split; [done|]. split; [done|]. by intros a ?%elem_of_nil.
    - destruct (outside_turn line sent out c d w Hc) as (c1 & response & E1 & Hc1 & Ha).
      { intros r Er. apply (Hl line sent out r); [by left|done]. }
      destruct (IH c1 Hc1) as (c2 & responses & E2 & Hc2 & Hr).
      { intros line' sent' out' r Hin. apply (Hl line' sent' out' r). by right. }
      exists c2, (response :: responses). split; [|split; [done|]].
      + cbn [Connection.serve]. unfold bind. rewrite E1. cbn. by rewrite E2.
      + intros a [E|Hin]%elem_of_cons; [by apply Ha|by apply Hr]. }
  intros Hl. apply Hgen; [by left|exact Hl].
Qed.

End ungreeted.

(** ** A concrete contract and wire *)

Definition sample_control : ControlContract := {|
  Protocol := 1;
  ContractVersion := "1";
  HandoffNone := "none";
  HelloCommand := "hello";
  SessionsCommand := "sessions";
  SessionCloseCommand := "session.close";
  CommandOpen := "pty.open";
  CommandWrite := "pty.write";
  CommandResize := "pty.resize";
  CommandAck := "pty.ack";
  CommandClose := "pty.close";
  CommandSessions := "pty.sessions";
  CommandPane := "pty.pane";
  CommandCloseWindow := "pty.closeWindow";
  CommandStatus := "pty.status";
  CommandModes := "pty.modes";
  CommandLease := "pty.lease";
  CommandDetachRenderer := "pty.detachRenderer";
  CommandPrepareObserver := "pty.prepareObserver";
  CommandDisplays := "pty.displays";
  CommandProcessInventory := "process.inventory";
  CommandHandoff := "pty.handoff";
  CommandAttach := "pty.attach";
  CommandAttachLease := "pty.attachLease";
  CommandObserve := "pty.observe";
  CommandObservePrepared := "pty.observePrepared";
  CommandProcessObserve := "process.observe"
|}.

Inductive sample_raw :=
| RawOpen (o : OpenRequest)
| RawPrepare (p : PrepareObserver)
| RawText (s : string)
| RawInt (n : Z).

Definition sample_wire : Wire sample_raw := {|
  asOpen := fun r => match r with RawOpen o => Some o | _ => None end;
  asTail := fun r => match r with RawText s => Some (mkTail s 0) | _ => None end;
  asWrite := fun r => match r with RawInt n => Some (mkWriteRequest n "") | _ => None end;
  asResize := fun r => match r with RawInt n => Some (mkResizeRequest n 80 24) | _ => None end;
  asAck := fun r => match r with RawInt n => Some (mkAckRequest n 0) | _ => None end;
  asSession := fun r => match r with RawInt n => Some n | _ => None end;
  asPane := fun r => match r with RawText s => Some s | _ => None end;
  asWindow := fun r => match r with RawText s => Some s | _ => None end;
  asModes := fun r => match r with RawInt n => Some (mkModesRequest n []) | _ => None end;
  asLease := fun r => match r with RawInt n => Some (mkLeaseRequest n 0) | _ => None end;
  asDisplays := fun r => match r with RawInt n => Some (mkDisplaysRequest n "" false) | _ => None end;
  asPrepare := fun r => match r with RawPrepare p => Some p | _ => None end;
  asObserve := fun r => match r with RawInt n => Some (mkObserve n "" false) | _ => None end;
  asAttach := fun r => match r with RawInt n => Some (mkAttach n None) | _ => None end;
  asToken := fun r => match r with RawText s => Some s | _ => None end;
  asSessions := fun r => match r with RawText s => Some [s] | _ => None end;
  asSessionName := fun r => match r with RawText s => Some s | _ => None end;
  asInt := fun r => match r with RawInt n => Some n | _ => None end;
  asString := fun r => match r with RawText s => Some s | _ => None end;
  Validate := fun _ => true
|}.

Section witness.
#[local] Existing Instance sample_contract.
#[local] Existing Instance sample_control.
#[local] Existing Instance sample_wire.
#[local] Existing Instance Concrete.platform.

Definition sample_around : around ProcessWatch.darwinProcessTreeWatch :=
  mkAround [] 100 (Some (text "ab")) ["PATH=/bin"%string] true true true (fun sid => sid + 1000)
    (fun sid => mkStartAnswers (sid + 1000) 100 true (Some (ProcessWatch.mkWatch (sid + 1000) {[sid + 1000]} false))
       (mkSurroundings true (inr []) (fun _ => ProcessWatch.AddOk) 0 false true 100)).

Definition sample_daemon : daemon ProcessWatch.darwinProcessTreeWatch :=
  mkDaemon (newRegistry "/bin/sh" 1800 5 9) "secret" ∅ ∅ ∅ 0 None.

Definition sample_lines : list (option (Request sample_raw) * bool * around ProcessWatch.darwinProcessTreeWatch) :=
  [(None, true, sample_around);
   (Some (mkRequest "1" "pty.open" {["request" := RawOpen (mkOpenRequest (mkOpen 80 24 "" "/" "p" "w" "") (Environment.mkEnvironment [] ∅) [])]}), true, sample_around);
   (Some (mkRequest "2" "hello" {["token" := RawText "guess"]}), true, sample_around);
   (Some (mkRequest "3" "pty.attach" {["request" := RawInt 10]}), true, sample_around)]%string.

Lemma no_token_no_effect_witness :
  (forall line sent out r, (line, sent, out) ∈ sample_lines -> line = Some r -> Command r = HelloCommand ->
     presented r <> Some (token sample_daemon)) /\
  exists c responses, serve "linux" (fun s => s) "pty" "label" 7 sample_lines (Requesting false) sample_daemon
      (mkWorld ∅ ∅ [] []) = (mkWorld ∅ ∅ [] [], inr (c, sample_daemon, responses, [])) /\ outside c /\
    forall a, Some a ∈ responses -> turns_away (Result a).
Proof.
  assert (Hl : forall line sent out r, (line, sent, out) ∈ sample_lines -> line = Some r -> Command r = HelloCommand ->
     presented r <> Some (token sample_daemon)).
  { intros line sent out r Hin Er Eh. unfold sample_lines in Hin. subst line.
    repeat (apply elem_of_cons in Hin as [E|Hin]; [|]); try by apply elem_of_nil in Hin.
    all: try discriminate E; injection E as -> _ _; try discriminate Eh. vm_compute. discriminate. }
  split; [exact Hl|].
  exact (no_token_no_effect "linux" (fun s => s) "pty" "label" 7 sample_lines sample_daemon (mkWorld ∅ ∅ [] []) Hl).
Defined.

End witness.
