(* ===== verification/Daemon.v ===== *)
(** * The daemon over its life (control.go, session.go, process_monitor.go together)

    The commands, the streams, the timers and the sessions themselves act on one daemon;
    [daemon_step] is one of them at a time.  Two things hold over any run: the process
    ledger has exactly the sessions the registry holds open, and a prepared observer is
    adopted once, by a session of the pane it was prepared for. *)

From S2P Require Import Prelude Contract OutputRing Observer Inventory ProcessWatch Store Session Monitor Registry Restore Control Connection.

(** ** What a call returns *)

Definition returns {A} (P : A -> Prop) (m : io A) : Prop :=
  forall w, match m w with (_, inr x) => P x | _ => True end.

Lemma returns_ret {A} (P : A -> Prop) x : P x -> returns P (ret x).
Proof. by intros Hx w. Qed.

Lemma returns_bind {A B} (Q : A -> Prop) (P : B -> Prop) (m : io A) (k : A -> io B) :
  returns Q m -> (forall x, Q x -> returns P (k x)) -> returns P (bind m k).
Proof. intros Hm Hk w. unfold bind. specialize (Hm w). destruct (m w) as [w1 [e|x]]; [done|]. by apply Hk. Qed.

Lemma returns_any {A B} (P : B -> Prop) (m : io A) (k : A -> io B) :
  (forall x, returns P (k x)) -> returns P (bind m k).
Proof. intros Hk. apply (returns_bind (fun _ => True)); [|by intros x _]. intros w. by destruct (m w) as [? [?|?]]. Qed.

Lemma returns_weaken {A} (P Q : A -> Prop) (m : io A) : (forall x, P x -> Q x) -> returns P m -> returns Q m.
Proof. intros Hpq Hm w. specialize (Hm w). destruct (m w) as [w1 [e|x]]; [done|]. by apply Hpq. Qed.

Section daemon.
Context `{PtyContractLaws} `{ControlContract} `{Platform} {Raw : Type} `{Wire Raw} {W : Type} `{ProcessTreeWatch W}.
Context (goos : string) (toUpper : string -> string).
Context (identity processLabel : string) (daemonPID : Z).

Abbreviation daemon := (daemon W).
Abbreviation around := (around W).
Abbreviation settled := (settled (W := W)).

(** ** Specification *)

Definition open_in (reg : registry) (sid : Z) : Prop :=
  exists v, sessions reg !! sid = Some v /\ closed v = false.

Record daemon_ok (d : daemon) : Prop := {
  ok_next : is_u64 (next (registry_ d));
  ok_filed : filed (registry_ d);
  ok_prepared : forall n p, prepared d !! n = Some p -> (n < madePrepared d)%nat;
  ok_pending : forall t n, pendingObservers d !! t = Some n -> exists p, prepared d !! n = Some p /\ adoptedBy p = None;
  ok_single : forall t1 t2 n, pendingObservers d !! t1 = Some n -> pendingObservers d !! t2 = Some n -> t1 = t2;
  ok_ledger : forall s, processes_ d = Some s -> settled None s /\
    forall sid, is_Some (processSessions s !! sid) <-> open_in (registry_ d) sid
}.

(** What may become of the prepared observers in a step. *)
Definition prepared_step (d d' : daemon) : Prop := forall n p, prepared d !! n = Some p ->
  exists p', prepared d' !! n = Some p' /\ request p' = request p /\
    (adoptedBy p' = adoptedBy p \/
     adoptedBy p = None /\ ready p = true /\ exists sid o v, adoptedBy p' = Some (sid, o) /\
       sessions (registry_ d') !! sid = Some v /\ paneID v = PreparePaneID (request p) /\ o ∈ Session.observers v).

(** A stopped registry stays stopped, and takes no session once it has none. *)
Definition late (reg reg' : registry) : Prop := stopped reg = true ->
  stopped reg' = true /\ (sessions reg = ∅ -> sessions reg' = ∅).

Definition good (d d' : daemon) : Prop := daemon_ok d' /\ prepared_step d d' /\ late (registry_ d) (registry_ d').

(** A shell that exited: its session is reaped and stays filed. *)
Definition shell_exits (sid now : Z) (d : daemon) : daemon :=
  match sessions (registry_ d) !! sid with
  | None => d
  | Some v => let '(v, acts) := reap true now v in
              hear_ended (map Act acts)
                (on_registry (fun reg => reg <| sessions := <[sid := v]> (sessions reg) |>) d)
  end.

Definition sweep (out : around) (d : daemon) : daemon :=
  let '(reg, _, acts) := endAbandoned (order out) (clock out) (registry_ d) in hear_ended acts (d <| registry_ := reg |>).

Definition stops (out : around) (d : daemon) : daemon :=
  let '(reg, _, acts) := shutdown (order out) (clock out) (registry_ d) in hear_ended acts (d <| registry_ := reg |>).

(** One record of the store stood up again, its outcome kept ([restore]'s loop). *)
Definition restores (explain : io_error -> string) (not_started stopping : string) (started : bool) (sid : Z) (out : around)
    (d : daemon) : io daemon :=
  do '(reg, outcome, acts) <- restoreOne explain not_started stopping started (clock out) sid (registry_ d);
  let d := d <| registry_ := recordOutcome sid outcome reg |> in
  ret (match Outcome outcome, sessions reg !! sid with
       | SessionFailed, _ | _, None => d
       | _, Some v => hear_started identity daemonPID out v d
       end).

Definition is_reap (op : session_op) : bool := match op with OpReap _ => true | _ => false end.

Inductive daemon_step : daemon -> daemon -> Prop :=
| d_line line sent out c d w w' c' d' response acts : covers (order out) (registry_ d) ->
    serve_turn goos toUpper identity processLabel daemonPID line sent out c d w = (w', inr (c', d', response, acts)) ->
    daemon_step d d'
| d_stream_ends out s d : covers (order out) (registry_ d) -> daemon_step d (stream_ends out s d)
| d_peer_left n d : daemon_step d (prepared_peer_left n d)
| d_lease_expires ask sid d : daemon_step d (expire_lease ask sid d)
| d_preparation_expires ask d : daemon_step d (expire_prepared ask d)
| d_session sid op now d : is_reap op = false ->
    daemon_step d (on_registry (fun reg => update_session sid op now reg) d)
| d_shell_exits sid now d : daemon_step d (shell_exits sid now d)
| d_attach_store d : daemon_step d (on_registry (fun reg => reg <| store := true |>) d)
| d_restores explain not_started stopping started sid out d w w' d' :
    restores explain not_started stopping started sid out d w = (w', inr d') -> daemon_step d d'
| d_sweep out d : covers (order out) (registry_ d) -> daemon_step d (sweep out d)
| d_stops out d : covers (order out) (registry_ d) -> daemon_step d (stops out d)
| d_notified m found d :
    daemon_step d (d <| processes_ := (fun s => fst (reconcile identity daemonPID m found s)) <$> processes_ d |>).

(** The daemon as [run] makes it. *)
Definition newDaemon (shell_ secret : string) (after seedGeneration seedNext : Z) : daemon :=
  mkDaemon (newRegistry shell_ after seedGeneration seedNext) secret ∅ ∅ ∅ 0 None.

(** ** Steps that open and end nothing *)

Definition marks (v : session) : Z * string * bool := (id v, paneID v, closed v).

Record quiet (d d' : daemon) : Prop := {
  quiet_next : next (registry_ d') = next (registry_ d);
  quiet_stopped : stopped (registry_ d') = stopped (registry_ d);
  quiet_sessions : forall sid, marks <$> sessions (registry_ d') !! sid = marks <$> sessions (registry_ d) !! sid;
  quiet_prepared : prepared_step d d';
  quiet_made : madePrepared d' = madePrepared d;
  quiet_others : forall n, is_Some (prepared d' !! n) -> is_Some (prepared d !! n);
  quiet_pending : pendingObservers d' ⊆ pendingObservers d;
  quiet_adopted : forall n p p', prepared d !! n = Some p -> prepared d' !! n = Some p' -> adoptedBy p' = adoptedBy p;
  quiet_processes : processes_ d' = processes_ d
}.

Lemma prepared_same (d d' : daemon) : prepared d' = prepared d -> prepared_step d d'.
Proof. intros E n p Hp. exists p. rewrite E. auto. Qed.

Lemma marks_open (d d' : daemon) sid : (forall sid, marks <$> sessions (registry_ d') !! sid = marks <$> sessions (registry_ d) !! sid) ->
  open_in (registry_ d') sid <-> open_in (registry_ d) sid.
Proof.
  intros Hm. specialize (Hm sid). unfold open_in.
  destruct (sessions (registry_ d') !! sid) as [v'|], (sessions (registry_ d) !! sid) as [v|]; try done.
  injection Hm as _ _ Ec. split; intros (x & [= <-] & Hc); eexists; (split; [done|congruence]).
Qed.

Lemma late_refl reg : late reg reg.
Proof. by intros Hs. Qed.

Lemma late_trans r1 r2 r3 : late r1 r2 -> late r2 r3 -> late r1 r3.
Proof. intros H12 H23 Hs. destruct (H12 Hs) as [Hs2 He2]. destruct (H23 Hs2) as [Hs3 He3]. auto. Qed.

Lemma quiet_late (d d' : daemon) : quiet d d' -> late (registry_ d) (registry_ d').
Proof.
  intros Hq Hs. rewrite (quiet_stopped _ _ Hq). split; [done|]. intros He. apply map_empty. intros sid.
  pose proof (quiet_sessions _ _ Hq sid) as Hm. rewrite He, lookup_empty in Hm.
  by destruct (sessions (registry_ d') !! sid).
Qed.

Lemma quiet_good (d d' : daemon) : daemon_ok d -> quiet d d' -> good d d'.
Proof.
  intros Hok Hq. split; [|split; [apply Hq|by apply quiet_late]]. constructor.
  - rewrite (quiet_next _ _ Hq). apply Hok.
  - intros sid v' E. pose proof (quiet_sessions _ _ Hq sid) as Hm. rewrite E in Hm.
    destruct (sessions (registry_ d) !! sid) as [v|] eqn:Ev; [|done]. injection Hm as -> _ _. by apply (ok_filed _ Hok).
  - intros n p E. rewrite (quiet_made _ _ Hq). destruct (quiet_others _ _ Hq n) as [p0 Hp0]; [by eexists|].
    by apply (ok_prepared _ Hok n p0).
  - intros t n E. destruct (ok_pending _ Hok t n) as (p & Hp & Ha); [by eapply lookup_weaken; [|apply Hq]|].
    destruct (quiet_prepared _ _ Hq n p Hp) as (p' & Hp' & _). exists p'. split; [done|].
    rewrite <- Ha. by apply (quiet_adopted _ _ Hq n).
  - intros t1 t2 n E1 E2. apply (ok_single _ Hok t1 t2 n); (eapply lookup_weaken; [eassumption|apply Hq]).
  - intros s. rewrite (quiet_processes _ _ Hq). intros Es. destruct (ok_ledger _ Hok s Es) as [Hs Hl]. split; [done|].
    intros sid. rewrite Hl. symmetry. apply marks_open, Hq.
Qed.

Lemma quiet_refl (d : daemon) : quiet d d.
Proof. constructor; try done; [by apply prepared_same|]. intros n p p' ? ?. by simplify_eq. Qed.

(** A change of the registry alone that keeps the marks of the sessions. *)
Lemma quiet_registry (d d' : daemon) : next (registry_ d') = next (registry_ d) ->
  stopped (registry_ d') = stopped (registry_ d) ->
  (forall sid, marks <$> sessions (registry_ d') !! sid = marks <$> sessions (registry_ d) !! sid) ->
  prepared d' = prepared d -> madePrepared d' = madePrepared d -> pendingObservers d' ⊆ pendingObservers d ->
  processes_ d' = processes_ d -> quiet d d'.
Proof.
  intros E1 E0 E2 E3 E4 E5 E6. constructor; try done; [by apply prepared_same|by rewrite E3|].
  intros n p p'. rewrite E3. intros ? ?. by simplify_eq.
Qed.

Lemma closed_run_op op now v : is_reap op = false -> closed (run_op op now v) = closed v.
Proof.
  intros Hop. destruct op as [data|b| | |gen| |c r ok|token d|token d|token d x|o|o|o|t|ro|e]; cbn [run_op]; try done.
  - unfold pump_chunk. destruct (OutputRing.write data (ring v)) as [r through].
    destruct (feed v) as [f|]; [destruct (StoreFeed.offer data through f)|]; done.
  - unfold Session.detachRenderer. destruct (rendererAttached v && (rendererGeneration v =? gen)); [|done].
    by destruct (negb (presenceLocked _)).
  - unfold detachActiveRenderer. destruct (rendererAttached v); cbn [andb]; [|done].
    by destruct (negb (presenceLocked _)).
  - unfold Session.resize. destruct ((c =? 0) || (r =? 0)); [done|]. by destruct ok.
  - unfold Session.observe. destruct (negb (String.eqb token "")); [|by destruct d].
    destruct (observerTokens v !! token); [|done]. by destruct d.
  - unfold setDisplays. destruct (observerTokens v !! token); [|done]. destruct d; [done|].
    case_bool_decide; [|done]. by destruct (negb (presenceLocked _)).
  - unfold adoptObserver. by destruct d.
  - unfold removeObserver. by destruct (_ && _).
  - unfold take_event. destruct (heap v !! o) as [x|]; [|done]. by destruct (Observer.next x).
  - unfold Session.ack. by destruct (OutputRing.resumed _ _).
Qed.

Lemma marks_run_op op now v : is_reap op = false -> marks (run_op op now v) = marks v.
Proof.
  intros Hop. destruct (run_op_names op now v) as (E1 & E2 & _). unfold marks. by rewrite E1, E2, closed_run_op.
Qed.

Lemma marks_alter (m : gmap Z session) f k sid : (forall v, marks (f v) = marks v) ->
  marks <$> alter f k m !! sid = marks <$> m !! sid.
Proof.
  intros Hf. destruct (decide (k = sid)) as [->|Hne].
  - rewrite lookup_alter_eq. destruct (m !! sid); cbn; [by rewrite Hf|done].
  - by rewrite lookup_alter_ne.
Qed.

(** A registered session changed by an operation, and put back. *)
Lemma quiet_put (d : daemon) v v' : filed (registry_ d) -> sessions (registry_ d) !! id v = Some v -> marks v' = marks v ->
  quiet d (put_session v' d).
Proof.
  intros Hf Ev Em. apply quiet_registry; try done. intros sid. cbn.
  assert (Eid : id v' = id v) by (by injection Em as ->). rewrite Eid.
  destruct (decide (id v = sid)) as [<-|Hne]; [by rewrite lookup_insert_eq, Ev; cbn; rewrite Em|by rewrite lookup_insert_ne].
Qed.

Lemma quiet_trans (d d1 d2 : daemon) : quiet d d1 -> quiet d1 d2 -> quiet d d2.
Proof.
  intros [A1 A0 A2 A3 A4 A5 A6 A7 A8] [B1 B0 B2 B3 B4 B5 B6 B7 B8]. constructor.
  - congruence.
  - congruence.
  - intros sid. rewrite (B2 sid). apply A2.
  - intros n p Hp. destruct (A3 n p Hp) as (p1 & Hp1 & R1 & _). destruct (B3 n p1 Hp1) as (p2 & Hp2 & R2 & _).
    exists p2. split; [done|]. split; [congruence|left]. rewrite (B7 n p1 p2 Hp1 Hp2). by apply (A7 n).
  - congruence.
  - intros n Hn. by apply A5, B5.
  - by transitivity (pendingObservers d1).
  - intros n p p2 Hp Hp2. destruct (A3 n p Hp) as (p1 & Hp1 & _). rewrite (B7 n p1 p2 Hp1 Hp2). by apply (A7 n).
  - congruence.
Qed.

Lemma quiet_leases (d d' : daemon) l : quiet d d' -> quiet d (d' <| leases_ := l |>).
Proof. intros [A1 A0 A2 A3 A4 A5 A6 A7 A8]. by constructor. Qed.

(** A prepared observer that is not adopted, changed but for its request. *)
Lemma quiet_prepared_object (d : daemon) n p p' : prepared d !! n = Some p -> request p' = request p ->
  adoptedBy p' = adoptedBy p -> quiet d (d <| prepared := <[n := p']> (prepared d) |>).
Proof.
  intros Hp Er Ea. assert (Hlook : forall k q, prepared d !! k = Some q ->
    exists q', <[n := p']> (prepared d) !! k = Some q' /\ request q' = request q /\ adoptedBy q' = adoptedBy q).
  { intros k q Hq. destruct (decide (k = n)) as [->|Hne].
    - exists p'. rewrite lookup_insert_eq. by simplify_eq.
    - exists q. by rewrite lookup_insert_ne. }
  constructor; try done; cbn.
  - intros k q (q' & Hq' & E1 & E2)%Hlook. exists q'. auto.
  - intros k. destruct (decide (k = n)) as [->|Hne]; [by rewrite Hp|by rewrite lookup_insert_ne].
  - intros k q q' (q2 & Hq2 & _ & E2)%Hlook Hq'. cbn in Hq'. congruence.
Qed.

(** ** Steps that end sessions *)

Definition ended_ids (acts : list reg_action) : list Z :=
  omap (fun a => match a with Act (ProcessEnded sid _) => Some sid | _ => None end) acts.

Lemma ended_ids_app a b : ended_ids (a ++ b) = ended_ids a ++ ended_ids b.
Proof. apply omap_app. Qed.

(** A change of the registry that ends what its calls say it ends. *)
Definition closes (reg reg' : registry) (acts : list reg_action) : Prop :=
  next reg' = next reg /\ filed reg' /\
  (forall sid, open_in reg' sid <-> open_in reg sid /\ sid ∉ ended_ids acts) /\ late reg reg'.

Lemma closes_trans r1 r2 r3 a b : closes r1 r2 a -> closes r2 r3 b -> closes r1 r3 (a ++ b).
Proof.
  intros (A1 & A2 & A3 & A4) (B1 & B2 & B3 & B4). split; [congruence|]. split; [done|]. split; [|by eapply late_trans]. intros sid.
  rewrite B3, A3, ended_ids_app, elem_of_app. tauto.
Qed.

Lemma closes_refl reg : filed reg -> closes reg reg [].
Proof.
  intros Hf. split; [done|]. split; [done|]. split; [|apply late_refl]. intros sid.
  split; [intros Ho; split; [done|by intros ?%elem_of_nil]|by intros [? _]].
Qed.

Lemma hear_processes acts : forall s, settled None s ->
  exists s', fold_left hear_act acts (Some s) = Some s' /\ settled None s' /\
  forall k, is_Some (processSessions s' !! k) <-> is_Some (processSessions s !! k) /\ k ∉ ended_ids acts.
Proof.
  induction acts as [|a acts IH]; intros s Hs.
  - exists s. split; [done|]. split; [done|]. intros k. split; [intros Hk; split; [done|by intros ?%elem_of_nil]|by intros [? _]].
  - assert (Hskip : hear_act (Some s) a = Some s -> ended_ids (a :: acts) = ended_ids acts ->
      exists s', fold_left hear_act (a :: acts) (Some s) = Some s' /\ settled None s' /\
      forall k, is_Some (processSessions s' !! k) <-> is_Some (processSessions s !! k) /\ k ∉ ended_ids (a :: acts)).
    { intros E ->. cbn [fold_left]. rewrite E. by apply IH. }
    destruct a as [a'| | |]; [destruct a' as [| | |sid at_| | | | |]|..]; try (by apply Hskip). cbn [fold_left].
    change (hear_act (Some s) (Act (ProcessEnded sid at_))) with (Some (processSessionEnded sid at_ s)).
    destruct (settled_ended sid at_ s Hs) as [Hs1 Hk1].
    destruct (IH _ Hs1) as (s' & E & Hs' & Hk'). exists s'. split; [done|]. split; [done|]. intros k.
    rewrite Hk', Hk1. change (ended_ids (Act (ProcessEnded sid at_) :: acts)) with (sid :: ended_ids acts).
    rewrite not_elem_of_cons. tauto.
Qed.

Lemma hear_none acts : fold_left (hear_act (W := W)) acts None = None.
Proof. induction acts as [|a acts IH]; [done|]. cbn [fold_left]. destruct a as [a'| | |]; [destruct a'|..]; apply IH. Qed.

Lemma ends_good (d : daemon) reg acts : daemon_ok d -> closes (registry_ d) reg acts ->
  good d (hear_ended acts (d <| registry_ := reg |>)).
Proof.
  intros Hok (E1 & E2 & E3 & E4). split; [|split; [by apply prepared_same|exact E4]]. constructor; try apply Hok.
  - cbn. rewrite E1. apply Hok.
  - exact E2.
  - intros s. unfold hear_ended. cbn. destruct (processes_ d) as [s0|] eqn:Ep; [|by rewrite hear_none].
    destruct (ok_ledger _ Hok s0 Ep) as [Hs0 Hl0]. destruct (hear_processes acts s0 Hs0) as (s' & -> & Hs' & Hk').
    intros [= <-]. split; [done|]. intros sid. rewrite Hk', Hl0, E3. done.
Qed.

Lemma ended_ids_reap ended now v : ended_ids (map Act (snd (reap ended now v))) = if closed v then [] else [id v].
Proof.
  unfold reap. destruct (closed v); [done|]. destruct (feed v) as [f|]; cbn [snd];
    rewrite !map_app, !ended_ids_app; match goal with |- context [if ?b then _ else _] => by destruct b end.
Qed.

Lemma close_closes sid now removed reg : filed reg ->
  let '(reg', _, acts) := Registry.close sid now removed reg in closes reg reg' acts.
Proof.
  intros Hf. unfold Registry.close.
  assert (Hdel : forall acts, (forall k, k ∈ ended_ids acts -> k = sid) ->
    (open_in reg sid -> sid ∈ ended_ids acts) -> closes reg (forgetOutcome sid (reg <| sessions := delete sid (sessions reg) |>)) acts).
  { intros acts Honly Hin. split; [done|]. split; [intros k v Hv; cbn in Hv; apply lookup_delete_Some in Hv as [_ Hv]; by apply Hf|].
    split; [|intros Hs; split; [done|]; intros He; cbn; by rewrite He, delete_empty]. intros k. unfold open_in. cbn. destruct (decide (k = sid)) as [->|Hne].
    - rewrite lookup_delete_eq. split; [by intros (? & ? & _)|]. intros [Ho Hn]. by apply Hin in Ho.
    - rewrite lookup_delete_ne by done. split; [|by intros [? _]]. intros Ho. split; [done|]. by intros ?%Honly. }
  assert (Hdropped : ended_ids (if store reg then Act (StoreRemove sid) :: (if removed then [] else [RecordStays sid]) else []) = []).
  { by destruct (store reg), removed. }
  change (store (reg <| sessions := delete sid (sessions reg) |>)) with (store reg).
  destruct (sessions reg !! sid) as [v|] eqn:Ev; apply Hdel.
  - intros k. rewrite ended_ids_app, Hdropped, ended_ids_reap, (Hf sid v Ev). destruct (closed v); [by intros ?%elem_of_nil|].
    by intros ?%list_elem_of_singleton.
  - intros (x & Ex & Hc). rewrite Ex in Ev. injection Ev as ->.
    rewrite ended_ids_app, Hdropped, ended_ids_reap, Hc, (Hf sid v Ex). by left.
  - intros k. rewrite Hdropped. by intros ?%elem_of_nil.
  - intros (x & Ex & _). congruence.
Qed.

Lemma close_labelled_closes infos label now : forall reg, filed reg ->
  let '(reg', _, acts) := close_labelled infos label now reg in closes reg reg' acts.
Proof.
  induction infos as [|i infos IH]; intros reg Hf; cbn [close_labelled]; [by apply closes_refl|].
  case_bool_decide; [|by apply IH]. pose proof (close_closes (InfoSession i) now true reg Hf) as Hc.
  destruct (Registry.close (InfoSession i) now true reg) as [[reg1 c] acts]. pose proof Hc as (_ & Hf1 & _).
  specialize (IH reg1 Hf1). destruct (close_labelled infos label now reg1) as [[reg2 e] more].
  by eapply closes_trans.
Qed.

Lemma close_stored_closes sid now reg : filed reg ->
  returns (fun '(reg', _, acts) => closes reg reg' acts) (close_stored sid now reg).
Proof.
  intros Hf. unfold close_stored. apply returns_any. intros removed.
  pose proof (close_closes sid now (match removed with inr _ => true | inl _ => false end) reg Hf) as Hc.
  destruct (Registry.close _ _ _ _) as [[reg' ended] acts]. apply returns_any. intros []. by apply returns_ret.
Qed.

Lemma closeSession_closes name now reg : filed reg ->
  returns (fun '(reg', _, acts) => closes reg reg' acts) (Restore.closeSession name now reg).
Proof.
  intros Hf. unfold Restore.closeSession. destruct (sessionNumber name) as [sid|]; [|by apply returns_ret, closes_refl].
  eapply returns_bind; [by apply close_stored_closes|]. intros [[reg' ended] acts] Hc. by apply returns_ret.
Qed.

Lemma ended_concat (calls : Z -> session -> list reg_action) l sid :
  sid ∈ ended_ids (concat (map (fun kv => calls kv.1 kv.2) l)) <-> exists k v, (k, v) ∈ l /\ sid ∈ ended_ids (calls k v).
Proof.
  induction l as [|[k v] l IH]; cbn [map concat].
  - split; [by intros ?%elem_of_nil|by intros (? & ? & ?%elem_of_nil & _)].
  - rewrite ended_ids_app, elem_of_app, IH. setoid_rewrite elem_of_cons. split.
    + intros [?|(a & b & ? & ?)]; [by exists k, v; auto|by exists a, b; auto].
    + intros (a & b & [[= -> ->]|?] & ?); [by left|right; by exists a, b].
Qed.

(** Ending the sessions of a walk that pass a test, all at once. *)
Lemma chosen_closes test ids reg reg' (calls : Z -> session -> list reg_action) : filed reg -> covers ids reg ->
  next reg' = next reg -> (stopped reg = true -> stopped reg' = true) -> sessions reg' = fold_left (fun m kv => delete kv.1 m) (chosen test ids reg) (sessions reg) ->
  (forall sid v, ended_ids (calls sid v) = if closed v then [] else [id v]) ->
  closes reg reg' (concat (map (fun kv => calls kv.1 kv.2) (chosen test ids reg))).
Proof.
  intros Hf Hcov En Est Es Hcalls.
  assert (Hlook : forall sid v, sessions reg' !! sid = Some v <-> sessions reg !! sid = Some v /\ test v = false).
  { intros sid v. rewrite Es, chosen_deleted by done. destruct (sessions reg !! sid) as [w|]; [|by split; [|intros [? _]]].
    destruct (test w) eqn:Et; split; try done; [by intros [[= ->] ?]; congruence|by intros [= ->]|by intros [[= ->] _]]. }
  assert (Hin : forall sid, sid ∈ ended_ids (concat (map (fun kv => calls kv.1 kv.2) (chosen test ids reg))) <->
    exists v, sessions reg !! sid = Some v /\ test v = true /\ closed v = false).
  { intros sid. transitivity (exists k v, (k, v) ∈ chosen test ids reg /\ sid ∈ ended_ids (calls k v)).
    - apply ended_concat.
    - split.
      + intros (k & v & (Hk & Hv & Ht)%chosen_in & Hs). rewrite Hcalls in Hs. destruct (closed v) eqn:Ec; [by apply elem_of_nil in Hs|].
        apply list_elem_of_singleton in Hs as ->. rewrite (Hf k v Hv). by exists v.
      + intros (v & Hv & Ht & Hc). exists sid, v. split; [apply chosen_in; split; [apply Hcov; by eexists|done]|].
        rewrite Hcalls, Hc, (Hf sid v Hv). by left. }
  split; [done|]. split; [intros sid v [Hv _]%Hlook; by apply Hf|]. split.
  2:{ intros Hs. split; [by apply Est|]. intros He. apply map_empty. intros sid. destruct (sessions reg' !! sid) as [v|] eqn:Ev; [|done].
      apply Hlook in Ev as [Ev _]. by rewrite He, lookup_empty in Ev. }
  intros sid. rewrite Hin. unfold open_in. split.
  - intros (v & [Hv Ht]%Hlook & Hc). split; [by exists v|]. intros (w & Hw & Htw & _). congruence.
  - intros [(v & Hv & Hc) Hn]. exists v. split; [|done]. apply Hlook. split; [done|]. destruct (test v) eqn:Et; [|done].
    exfalso. apply Hn. by exists v.
Qed.

Lemma sweep_good out (d : daemon) : daemon_ok d -> covers (order out) (registry_ d) -> good d (sweep out d).
Proof.
  intros Hok Hcov. unfold sweep. destruct (endAbandoned (order out) (clock out) (registry_ d)) as [[reg n] acts] eqn:E.
  apply ends_good; [done|]. unfold endAbandoned in E. destruct (abandonAfter (registry_ d) <=? 0).
  - injection E as <- <- <-. apply closes_refl, Hok.
  - injection E as <- <- <-.
    apply (chosen_closes (abandonedSince (clock out - abandonAfter (registry_ d))) (order out) (registry_ d) _ (fun _ v => map Act (snd (reap true (clock out) v)))).
    + apply Hok.
    + done.
    + done.
    + done.
    + done.
    + intros _ v. apply ended_ids_reap.
Qed.

Lemma stops_good out (d : daemon) : daemon_ok d -> covers (order out) (registry_ d) -> good d (stops out d).
Proof.
  intros Hok Hcov. unfold stops. destruct (shutdown (order out) (clock out) (registry_ d)) as [[reg n] acts] eqn:E.
  apply ends_good; [done|]. unfold shutdown in E. injection E as <- <- <-.
  assert (Hall : omap (fun sid => (fun v => (sid, v)) <$> sessions (registry_ d) !! sid) (order out) =
    chosen (fun _ => true) (order out) (registry_ d)).
  { unfold chosen. apply list_omap_ext, Forall_Forall2_diag, Forall_true. intros sid. by destruct (sessions (registry_ d) !! sid). }
  rewrite Hall.
  apply (chosen_closes (fun _ => true) (order out) (registry_ d) _ (fun sid v => stop_session (store (registry_ d)) (clock out) sid v)).
  - apply Hok.
  - done.
  - done.
  - done.
  - done.
  - intros sid v. unfold stop_session. rewrite ended_ids_app, ended_ids_reap. by destruct (store (registry_ d)).
Qed.

Lemma reaped_marks ended now v : marks (fst (reap ended now v)) = (id v, paneID v, true).
Proof. unfold reap, marks. destruct (closed v) eqn:Ec; [by rewrite <- Ec|]. by destruct (feed v). Qed.

Lemma shell_exits_good sid now (d : daemon) : daemon_ok d -> good d (shell_exits sid now d).
Proof.
  intros Hok. unfold shell_exits. destruct (sessions (registry_ d) !! sid) as [v|] eqn:Ev; [|by apply quiet_good, quiet_refl].
  pose proof (reaped_marks true now v) as Hm. pose proof (ended_ids_reap true now v) as Hi.
  destruct (reap true now v) as [v' acts]. cbn [fst snd] in *. injection Hm as E1 E2 E3.
  assert (Hid : id v = sid) by (by apply (ok_filed _ Hok)).
  apply (ends_good d ((registry_ d) <| sessions := <[sid := v']> (sessions (registry_ d)) |>)); [done|].
  split; [done|]. split; [|split].
  - intros k w. cbn. intros [[<- <-]|[Hne Hw]]%lookup_insert_Some; [congruence|by apply (ok_filed _ Hok)].
  - intros k. rewrite Hi. unfold open_in. cbn. destruct (decide (k = sid)) as [->|Hne].
    + rewrite lookup_insert_eq. split; [intros (x & [= <-] & Hc); congruence|].
      intros [(x & Ex & Hc) Hn]. rewrite Ex in Ev. injection Ev as ->. rewrite Hc, Hid in Hn. by destruct Hn; left.
    + rewrite lookup_insert_ne by done. split; [|by intros [? _]]. intros Ho. split; [done|].
      destruct (closed v); [by intros ?%elem_of_nil|]. intros ?%list_elem_of_singleton. congruence.
  - intros Hs. split; [done|]. intros He. by rewrite He, lookup_empty in Ev.
Qed.

(** The session of a shell that exited keeps its pane: an [open] of the pane finds it, closed,
    and is answered with it where a pane without a session is given a shell. *)
Theorem exited_shell_keeps_its_pane sid now ids v (d : daemon) : sessions (registry_ d) !! sid = Some v -> sid ∈ ids ->
  one_per_pane (fun _ _ => False) (registry_ d) -> paneID v <> ""%string ->
  byPane ids (paneID v) (registry_ (shell_exits sid now d)) = Some (fst (reap true now v)) /\
  closed (fst (reap true now v)) = true /\ paneID (fst (reap true now v)) = paneID v.
Proof.
  intros Hv Hin Hone Hpane. pose proof (reaped_marks true now v) as [= _ Ep Ec]. split; [|done].
  assert (Hs : sessions (registry_ (shell_exits sid now d)) = <[sid := fst (reap true now v)]> (sessions (registry_ d))).
  { unfold shell_exits. rewrite Hv. by destruct (reap true now v). }
  apply (byPane_the_one _ _ _ sid); [done|by rewrite Hs, lookup_insert_eq|done|].
  rewrite Hs. intros k w [[<- _]|[_ Hw]]%lookup_insert_Some Ew; [done|].
  destruct (Hone k sid w v Hw Hv) as [|[[] _]]; congruence.
Qed.

(** ** Commands that open and end nothing *)

Abbreviation result := (daemon * reply * list reg_action)%type.

Definition quietly (d : daemon) (x : result) : Prop := quiet d (fst (fst x)).

Lemma payload_returns {T} (P : result -> Prop) (unmarshal : Raw -> option T) run (out : around) args (d : daemon) :
  P (d, Refuse "ARGUMENT", []) -> (forall r, returns P (run r out d)) -> returns P (with_payload unmarshal run out args d).
Proof. intros Hd Hr. unfold with_payload. destruct (payload unmarshal args); [apply Hr|by apply returns_ret]. Qed.

Lemma session_returns (P : result -> Prop) sid (d : daemon) run : daemon_ok d -> P (d, Refuse "NO_SESSION", []) ->
  (forall v, sessions (registry_ d) !! id v = Some v -> returns P (run v)) -> returns P (with_session sid d run).
Proof.
  intros Hok Hd Hr. unfold with_session, get. destruct (sessions (registry_ d) !! sid) as [v|] eqn:Ev; [|by apply returns_ret].
  apply Hr. by rewrite (ok_filed _ Hok sid v Ev).
Qed.

(** A session changed by one of its operations and put back. *)
Lemma quiet_op (d : daemon) v op now : daemon_ok d -> sessions (registry_ d) !! id v = Some v -> is_reap op = false ->
  quiet d (put_session (run_op op now v) d).
Proof. intros Hok Ev Hop. apply (quiet_put d v); [apply Hok|done|by apply marks_run_op]. Qed.

Ltac calm := repeat first
  [ apply returns_ret; first [apply quiet_refl | done]
  | apply payload_returns; [apply quiet_refl|intros ?]
  | apply session_returns; [done|apply quiet_refl|intros ? ?]
  | apply returns_any; intros ? ].

Lemma write_quiet out args (d : daemon) : daemon_ok d -> returns (quietly d) (write out args d).
Proof.
  intros Hok. unfold write. calm. destruct (Base64.decode _); calm. destruct (Session.write _ _ _). calm.
Qed.

Lemma resize_quiet out args (d : daemon) : daemon_ok d -> returns (quietly d) (resize out args d).
Proof.
  intros Hok. unfold resize. calm.
  match goal with E : sessions _ !! id ?v = Some ?v |- context [Session.resize ?c ?r ?ok ?v] =>
    pose proof (quiet_op d v (OpResize c r ok) 0 Hok E eq_refl) as Hq; cbn [run_op] in Hq;
    destruct (Session.resize c r ok v) as [[v' failed] acts] end.
  calm.
Qed.

Lemma ack_quiet out args (d : daemon) : daemon_ok d -> returns (quietly d) (ack out args d).
Proof.
  intros Hok. unfold ack. calm. apply returns_ret.
  match goal with E : sessions _ !! id ?v = Some ?v |- context [Session.ack ?t ?v] => exact (quiet_op d v (OpAck t) 0 Hok E eq_refl) end.
Qed.

Lemma detach_quiet out args (d : daemon) : daemon_ok d -> returns (quietly d) (detachRenderer out args d).
Proof.
  intros Hok. unfold detachRenderer. calm.
  match goal with E : sessions _ !! id ?v = Some ?v |- context [detachActiveRenderer ?n ?v] =>
    pose proof (quiet_op d v OpDetachActive n Hok E eq_refl) as Hq; cbn [run_op] in Hq;
    destruct (detachActiveRenderer n v) as [v' detached] end.
  apply returns_ret. exact Hq.
Qed.

Lemma displays_quiet out args (d : daemon) : daemon_ok d -> returns (quietly d) (displays out args d).
Proof.
  intros Hok. unfold displays. calm. destruct (String.eqb _ _); calm.
  match goal with E : sessions _ !! id ?v = Some ?v |- context [setDisplays ?t ?b ?n ?v] =>
    pose proof (quiet_op d v (OpSetDisplays t b) n Hok E eq_refl) as Hq; cbn [run_op] in Hq;
    destruct (setDisplays t b n v) as [v' [e|]] end; [calm|].
  apply returns_ret. exact Hq.
Qed.

Lemma lease_quiet out args (d : daemon) : daemon_ok d -> returns (quietly d) (lease out args d).
Proof.
  intros Hok. unfold lease. calm. destruct (random out) as [bytes|]; [|calm].
  match goal with E : sessions _ !! id ?v = Some ?v |- context [OutputRing.lease ?t ?n (ring ?v)] =>
    pose proof (quiet_op d v (OpRing (OpLease t n)) 0 Hok E eq_refl) as Hq; cbn [run_op apply_op] in Hq;
    destruct (OutputRing.lease t n (ring v)) as [held kept] end.
  destruct kept; cbn [negb]; [|calm]. apply returns_ret. cbn [fst] in Hq. by apply (quiet_leases d (put_session (v <| ring := held |>) d)).
Qed.

Lemma modes_quiet out args (d : daemon) : daemon_ok d -> returns (quietly d) (modes out args d).
Proof. intros Hok. unfold modes. calm. destruct (negb _); calm. destruct x; calm. Qed.

Lemma tail_quiet out args (d : daemon) : daemon_ok d -> returns (quietly d) (tail out args d).
Proof.
  intros Hok. unfold tail. calm. destruct (String.eqb _ _); [calm|]. destruct (_ || _); [calm|].
  destruct (byPane _ _ _) as [v|]; [|calm]. destruct (snapshot (ring v)) as [[floor through] data]. calm.
Qed.

Lemma prepare_good out args (d : daemon) : daemon_ok d ->
  returns (fun x => good d (fst (fst x))) (prepareObserver out args d).
Proof.
  intros Hok. unfold prepareObserver. apply payload_returns; [by apply quiet_good, quiet_refl|]. intros r.
  destruct (_ || _); [by apply returns_ret, quiet_good, quiet_refl|].
  destruct (random out) as [bytes|]; [|by apply returns_ret, quiet_good, quiet_refl]. apply returns_ret. cbn [fst].
  assert (Hfresh : forall n p, prepared d !! n = Some p -> n <> madePrepared d).
  { intros n p Hp ->. apply (ok_prepared _ Hok) in Hp. lia. }
  split; [|split; [|apply late_refl]].
  - constructor; try apply Hok; cbn.
    + intros n p [[<- _]|[Hne Hp]]%lookup_insert_Some; [lia|]. apply (ok_prepared _ Hok) in Hp. lia.
    + intros t n [[<- <-]|[Hne Ht]]%lookup_insert_Some; [eexists; by rewrite lookup_insert_eq|].
      destruct (ok_pending _ Hok _ _ Ht) as (p & Hp & Ha). exists p. rewrite lookup_insert_ne; [done|].
      symmetry. by apply (Hfresh _ p).
    + intros t1 t2 n E1 E2. assert (Hnew : forall t, pendingObservers d !! t <> Some (madePrepared d)).
      { intros t Ht. destruct (ok_pending _ Hok _ _ Ht) as (p & Hp & _). by apply Hfresh in Hp. }
      apply lookup_insert_Some in E1 as [[<- <-]|[N1 E1]], E2 as [[<- E2]|[N2 E2]]; try done.
      * by apply Hnew in E2.
      * subst. by apply Hnew in E1.
      * by apply (ok_single _ Hok _ _ n).
  - intros n p Hp. exists p. cbn. rewrite lookup_insert_ne by (symmetry; by apply (Hfresh _ p)). auto.
Qed.

(** ** The ledger's own steps *)

Lemma ledger_good (d : daemon) (s : monitoring (W := W)) : daemon_ok d -> settled None s ->
  (forall sid, is_Some (processSessions s !! sid) <-> open_in (registry_ d) sid) ->
  good d (d <| processes_ := Some s |>).
Proof.
  intros Hok Hs Hl. split; [|split; [by apply prepared_same|apply late_refl]]. constructor; try apply Hok. intros x [= <-]. done.
Qed.

Lemma existing_open answers : forall l s, settled None s ->
  let s' := fold_left (fun s v => processSessionStarted identity daemonPID (closed v) v (answers (id v)) s) l s in
  settled None s' /\ forall sid, is_Some (processSessions s' !! sid) <->
    is_Some (processSessions s !! sid) \/ exists v, v ∈ l /\ id v = sid /\ closed v = false.
Proof.
  induction l as [|v l IH]; intros s Hs; cbn [fold_left].
  - split; [done|]. intros sid. split; [by left|]. intros [?|(v & ?%elem_of_nil & _)]; done.
  - destruct (closed v) eqn:Ec.
    + change (processSessionStarted identity daemonPID true v (answers (id v)) s) with s.
      destruct (IH s Hs) as [Hs' Hk]. split; [done|]. intros sid. rewrite Hk. setoid_rewrite elem_of_cons.
      split; [intros [?|(x & ? & ? & ?)]; [by left|right; exists x; auto]|].
      intros [?|(x & [->|?] & ? & ?)]; [by left|congruence|right; by exists x].
    + destruct (settled_started identity daemonPID v (answers (id v)) s Hs) as [Hs1 Hk1].
      destruct (IH _ Hs1) as [Hs' Hk]. split; [done|]. intros sid. rewrite Hk, Hk1. setoid_rewrite elem_of_cons. split.
      * intros [[->|?]|(x & ? & ? & ?)]; [right; exists v; auto|by left|right; exists x; auto].
      * intros [?|(x & [->|?] & <- & ?)]; [left; by right|left; by left|right; by exists x].
Qed.

Lemma start_monitoring_good out (d : daemon) : daemon_ok d -> covers (order out) (registry_ d) ->
  good d (start_monitoring identity daemonPID out d).
Proof.
  intros Hok [_ Hcov]. unfold start_monitoring, startProcessMonitoring. destruct (processes_ d) as [s|] eqn:Ep.
  - destruct (ok_ledger _ Hok s Ep) as [Hs Hl]. by apply ledger_good.
  - destruct (existing_open (startAnswers out) (omap (fun sid => sessions (registry_ d) !! sid) (order out)) newMonitoring (settled_new)) as [Hs Hk].
    apply ledger_good; [done|done|]. intros sid. rewrite Hk. unfold open_in. cbn. rewrite lookup_empty. split.
    + intros [[? ?]|(v & (k & _ & Hv)%list_elem_of_omap & Hid & Hc)]; [done|]. exists v. split; [|done].
      by rewrite <- Hid, (ok_filed _ Hok k v Hv).
    + intros (v & Hv & Hc). right. exists v. split; [|split; [by apply (ok_filed _ Hok)|done]].
      apply list_elem_of_omap. exists sid. split; [|done]. apply Hcov. by eexists.
Qed.

(** A subscriber that comes or goes leaves the records alone. *)
Lemma settled_same_sessions (s : monitoring (W := W)) state : settled None s -> ledger_keyed state ->
  Inventory.sessions state = Inventory.sessions (processState s) -> settled None (s <| processState := state |>).
Proof. intros Hs Hk E. constructor; try apply Hs; [done|]. intros sid Hb. cbn. rewrite E. by apply (settled_ledger _ _ Hs). Qed.

Lemma quiet_then_good (d d1 d2 : daemon) : prepared d1 = prepared d -> late (registry_ d) (registry_ d1) -> good d1 d2 -> good d d2.
Proof. intros E Hl (Hok & Hp & Hl2). split; [done|]. split; [|by eapply late_trans]. intros n p. rewrite <- E. apply Hp. Qed.

(** ** Opening *)

(** What a prepared observer taken out of the table is: ready, prepared for the pane, with
    no session yet, and in the table no more. *)
Definition free (taken : option nat) (named : string) (d : daemon) : Prop :=
  match taken with
  | None => True
  | Some n => exists p, prepared d !! n = Some p /\ ready p = true /\ PreparePaneID (request p) = named /\
      adoptedBy p = None /\ forall t, pendingObservers d !! t <> Some n
  end.

Lemma take_spec r (d : daemon) : daemon_ok d ->
  let '(d1, answer) := take_prepared r d in
  quiet d d1 /\ prepared d1 = prepared d /\ registry_ d1 = registry_ d /\
  match answer with None => True | Some taken => free taken (PaneID r) d1 end.
Proof.
  intros Hok. unfold take_prepared. destruct (String.eqb _ _); [by split; [apply quiet_refl|]|].
  destruct (pendingObservers d !! ObserverToken r) as [n|] eqn:Et; [|by split; [apply quiet_refl|]].
  destruct (prepared d !! n) as [p|] eqn:Ep; [|by split; [apply quiet_refl|]].
  destruct (ready p) eqn:Er; cbn [andb]; [|by split; [apply quiet_refl|]].
  destruct (String.eqb_spec (PreparePaneID (request p)) (PaneID r)) as [Epane|]; cbn [andb]; [|by split; [apply quiet_refl|]].
  destruct (String.eqb _ _); [|by split; [apply quiet_refl|]]. split.
  - apply quiet_registry; try done. cbn. apply delete_subseteq.
  - split; [done|]. split; [done|]. exists p. cbn. split; [done|]. split; [done|]. split; [done|]. split.
    + destruct (ok_pending _ Hok _ _ Et) as (q & Hq & Ha). congruence.
    + intros t [Hne Ht]%lookup_delete_Some. apply Hne. by apply (ok_single _ Hok _ _ n).
Qed.

(** The adoption of a free observer by a session of its pane. *)
Lemma mark_good (d : daemon) taken named sid o v : daemon_ok d -> free taken named d ->
  (taken <> None -> sessions (registry_ d) !! sid = Some v /\ paneID v = named /\ o ∈ Session.observers v) ->
  good d (mark_adopted taken sid o d).
Proof.
  intros Hok Hfree Hv. destruct taken as [n|]; [|by apply quiet_good, quiet_refl].
  destruct Hfree as (p & Hp & Hr & Hpane & Ha & Hout). destruct (Hv ltac:(done)) as (Hs & Hvp & Ho). cbn [mark_adopted]. split; [|split; [|apply late_refl]].
  - constructor; try apply Hok; cbn.
    + intros k q. rewrite lookup_alter_Some. intros [(<- & q0 & Hq & _)|[_ Hq]]; by apply (ok_prepared _ Hok) in Hq.
    + intros t k Ht. assert (k <> n) by (intros ->; by apply Hout in Ht). rewrite lookup_alter_ne by done.
      by apply (ok_pending _ Hok t).
  - intros k q Hq. cbn. destruct (decide (n = k)) as [<-|Hne].
    + rewrite lookup_alter_eq, Hp. eexists. split; [done|]. assert (q = p) as -> by congruence. split; [done|]. right.
      split; [done|]. split; [done|]. exists sid, o, v. split; [done|]. split; [done|]. split; [congruence|done].
    + rewrite lookup_alter_ne by done. exists q. auto.
Qed.

Lemma adopt_names token shows x v : marks (fst (adoptObserver token shows x v)) = marks v /\
  snd (adoptObserver token shows x v) ∈ Session.observers (fst (adoptObserver token shows x v)).
Proof. unfold adoptObserver. destruct shows; (split; [done|]); cbn; set_solver. Qed.

Lemma adopt_good (d : daemon) t taken v : daemon_ok d -> sessions (registry_ d) !! id v = Some v ->
  free taken (paneID v) d -> good d (adopt_prepared t taken v d).
Proof.
  intros Hok Ev Hfree. unfold adopt_prepared. destruct (held_prepared taken d) as [p|]; [|by apply quiet_good, quiet_refl].
  destruct (adopt_names t (PrepareDisplays (request p)) (observer_ p) v) as [Hm Ho].
  destruct (adoptObserver t (PrepareDisplays (request p)) (observer_ p) v) as [v' o]. cbn [fst snd] in *.
  pose proof (quiet_put d v v' (ok_filed _ Hok) Ev Hm) as Hq. destruct (quiet_good _ _ Hok Hq) as [Hok1 _].
  apply (quiet_then_good d (put_session v' d)); [done|by apply quiet_late|].
  apply (mark_good _ taken (paneID v) (id v') o v'); [done|exact Hfree|].
  intros _. cbn. rewrite lookup_insert_eq. injection Hm as _ -> _. done.
Qed.

(** A session just registered. *)
Lemma register_new r named env now given reg reg' sid acts :
  Registry.register r named env now given reg = Some (reg', inr sid, acts) ->
  exists v, sessions reg' !! sid = Some v /\ closed v = false /\ (given <> None -> 0%nat ∈ Session.observers v).
Proof.
  unfold register. destruct (stopped reg); [done|]. destruct (issueLocked _) as [[reg1 s1]|]; [|done].
  intros [= <- <- <-]. cbn. rewrite lookup_insert_eq. eexists. split; [done|].
  destruct given as [p|]; [|done]. split; [by destruct (Registry.Displays p)|]. intros _. cbn. set_solver.
Qed.

Lemma finish_same created announced v :
  marks (finish_open created announced v) = marks v /\ Session.observers (finish_open created announced v) = Session.observers v.
Proof. unfold finish_open. by destruct (hasStore v), created, announced. Qed.

(** The new session is put into the registry and into the ledger. *)
Lemma registered_good out (d : daemon) reg sid v : daemon_ok d -> is_u64 (next reg) ->
  (forall k, sessions reg !! k = if decide (k = sid) then Some v else sessions (registry_ d) !! k) ->
  id v = sid -> closed v = false -> stopped (registry_ d) = false ->
  good d (hear_started identity daemonPID out v (d <| registry_ := reg |>)).
Proof.
  intros Hok Hnext Hsess Hid Hc Hns. split; [|split; [by apply prepared_same|intros ?; congruence]]. constructor; try apply Hok.
  - done.
  - intros k w Hw. change (sessions reg !! k = Some w) in Hw. rewrite Hsess in Hw.
    destruct (decide (k = sid)) as [->|]; [by injection Hw as <-|by apply (ok_filed _ Hok)].
  - intros s Es. unfold hear_started in Es. cbn in Es. apply fmap_Some in Es as (s0 & Es0 & ->).
    destruct (ok_ledger _ Hok s0 Es0) as [Hs0 Hl0]. rewrite Hc.
    destruct (settled_started identity daemonPID v (startAnswers out (id v)) s0 Hs0) as [Hs' Hk']. split; [done|].
    intros k. rewrite Hk', Hl0. change (registry_ (hear_started identity daemonPID out v (d <| registry_ := reg |>))) with reg.
    unfold open_in. setoid_rewrite Hsess. rewrite Hid. destruct (decide (k = sid)) as [->|Hne].
    + split; [intros _; by exists v|by left].
    + split; [by intros [?|?]|by right].
Qed.

Lemma inserted_lookup (m : gmap Z session) sid v k :
  <[sid := v]> m !! k = if decide (k = sid) then Some v else m !! k.
Proof. destruct (decide (k = sid)) as [->|]; [by rewrite lookup_insert_eq|by rewrite lookup_insert_ne]. Qed.

Lemma openWithObserver_good r taken out (d : daemon) : daemon_ok d -> free taken (PaneID (asked r)) d ->
  returns (fun x => good d (fst (fst x))) (openWithObserver goos toUpper identity daemonPID r taken out d).
Proof.
  intros Hok Hfree. assert (Hself : good d d) by (by apply quiet_good, quiet_refl). unfold openWithObserver.
  destruct (open_check (asked r) (registry_ d)) as [e|named]; [by apply returns_ret|].
  destruct (negb (shellStarts out)); [by apply returns_ret|].
  set (given := (fun p => Registry.mkPrepared (PrepareDisplays (request p)) (observer_ p)) <$> held_prepared taken d).
  set (env := Environment.sessionEnvironment _ _ _ _ _).
  destruct (register (asked r) named env (clock out) given (registry_ d)) as [[[reg [e|sid]] acts]|] eqn:E; [| |by apply returns_ret].
  - unfold register in E. destruct (stopped (registry_ d)); [|by destruct (issueLocked _) as [[? ?]|]].
    injection E as <- <- <-. apply returns_ret. apply quiet_good; [done|]. by apply quiet_registry.
  - destruct (register_new _ _ _ _ _ _ _ _ _ E) as (v & Ev & Hc & Hobs).
    apply register_spec in E as (Hns & Hfresh & Hnext & Hu & _ & _ & _ & v0 & Hs & Hid & Hpane & _); [|apply Hok].
    rewrite Hs, lookup_insert_eq in Ev. injection Ev as ->. rewrite Hs, lookup_insert_eq. apply returns_any. intros created.
    apply returns_ret. cbn [fst]. set (made := match created with inr _ => true | inl _ => false end).
    destruct (finish_same made (bool_decide (given <> None)) v) as [Hm Ho].
    set (v' := finish_open made (bool_decide (given <> None)) v) in *.
    assert (Hg : good d (hear_started identity daemonPID out v' (put_session v' (d <| registry_ := reg |>)))).
    { injection Hm as Eid _ Ec. apply (registered_good out d (reg <| sessions := <[id v' := v']> (sessions reg) |>) sid v'); [done| | |congruence..].
      - cbn. by rewrite Hnext.
      - intros k. cbn. rewrite Hs, Eid, Hid, insert_insert_eq. apply inserted_lookup. }
    apply (quiet_then_good d (hear_started identity daemonPID out v' (put_session v' (d <| registry_ := reg |>)))); [done|apply Hg|].
    apply (mark_good _ taken (PaneID (asked r)) sid 0%nat v'); [apply Hg|exact Hfree|]. intros Ht. injection Hm as Eid Epane _.
    split; [cbn; by rewrite Eid, Hid, lookup_insert_eq|]. split; [congruence|]. rewrite Ho. apply Hobs.
    destruct taken as [n|]; [|done]. destruct Hfree as (p & Hp & _). unfold given. cbn. by rewrite Hp.
Qed.

Lemma open_good out args (d : daemon) : daemon_ok d -> covers (order out) (registry_ d) ->
  returns (fun x => good d (fst (fst x))) (open goos toUpper identity daemonPID out args d).
Proof.
  intros Hok Hcov. assert (Hself : good d d) by (by apply quiet_good, quiet_refl). unfold open.
  apply payload_returns; [done|]. intros r. destruct (negb (Validate r)); [by apply returns_ret|].
  pose proof (take_spec (asked r) d Hok) as Ht. destruct (take_prepared (asked r) d) as [d1 answer].
  destruct Ht as (Hq & Hp & Hreg & Hfree). destruct (quiet_good _ _ Hok Hq) as [Hok1 Hstep1].
  destruct answer as [taken|]; [|by apply returns_ret]. rewrite Hreg.
  assert (Hnew : returns (fun x => good d (fst (fst x))) (openWithObserver goos toUpper identity daemonPID r taken out d1)).
  { eapply returns_weaken; [|by apply openWithObserver_good]. intros x Hx. by apply (quiet_then_good d d1); [|apply quiet_late|]. }
  destruct (byPane (order out) (PaneID (asked r)) (registry_ d)) as [v|] eqn:Eb; [|done].
  destruct (negb _); [|done]. apply returns_ret. apply (quiet_then_good d d1); [done|by apply quiet_late|].
  apply byPane_some in Eb as (k & _ & Hv & Epane). apply adopt_good; [done| |by rewrite Epane].
  by rewrite Hreg, (ok_filed _ Hok k v Hv).
Qed.

(** ** Restoring *)

Lemma restored_session_marks sid record output through now gen :
  marks (fst (restored_session sid record output through now gen)) = (sid, Store.PaneID record, false).
Proof.
  unfold restored_session. destruct (snapshot _) as [[floor live_] held]. destruct (mid_line output); [|done].
  destruct (OutputRing.write _ _) as [r n]. by destruct (StoreFeed.offer _ _ _).
Qed.

Lemma restoreOne_registers explain not_started stopping started now sid reg :
  returns (fun '(reg', outcome, _) => next reg' = next reg /\ stopped reg' = stopped reg /\
    match Outcome outcome with
    | SessionFailed => sessions reg' = sessions reg
    | _ => stopped reg = false /\ exists v, sessions reg' = <[sid := v]> (sessions reg) /\ id v = sid /\ closed v = false
    end) (restoreOne explain not_started stopping started now sid reg).
Proof.
  unfold restoreOne. apply returns_any. intros [e|record]; [by apply returns_ret|].
  apply returns_any. intros [e|[output through]]; [by apply returns_ret|].
  destruct (negb started); [by apply returns_ret|]. destruct (stopped reg) eqn:Est; [by apply returns_ret|].
  pose proof (restored_session_marks sid record output through now (regGeneration reg +64 1)) as Hm. cbn.
  destruct (restored_session sid record output through now (regGeneration reg +64 1)) as [v reported]. injection Hm as Eid _ Ec.
  apply returns_any. intros cleared. apply returns_ret. split; [done|]. split; [exact Est|]. cbn.
  assert (Hv : exists v0, <[sid := v]> (sessions reg) = <[sid := v0]> (sessions reg) /\ id v0 = sid /\ closed v0 = false) by (by exists v).
  unfold verdict. destruct (EndedAtUnixMs record); [destruct (EndedThrough record <=? through)|]; split; done.
Qed.

Lemma restores_good explain not_started stopping started sid out (d : daemon) : daemon_ok d ->
  returns (good d) (restores explain not_started stopping started sid out d).
Proof.
  intros Hok. unfold restores. eapply returns_bind; [apply restoreOne_registers|]. intros [[reg outcome] acts] (Hnext & Hst & Hout).
  apply returns_ret.
  assert (Hstand : forall v, sessions reg = <[sid := v]> (sessions (registry_ d)) -> id v = sid -> closed v = false ->
    stopped (registry_ d) = false ->
    good d (match sessions reg !! sid with
            | Some v => hear_started identity daemonPID out v (d <| registry_ := recordOutcome sid outcome reg |>)
            | None => d <| registry_ := recordOutcome sid outcome reg |>
            end)).
  { intros v Es Eid Ec Hns. rewrite Es, lookup_insert_eq.
    apply (registered_good out d (recordOutcome sid outcome reg) sid v); [done| | |done..].
    - cbn. rewrite Hnext. apply Hok.
    - intros k. cbn. rewrite Es. apply inserted_lookup. }
  destruct (Outcome outcome).
  - destruct Hout as (Hns & v & Es & Eid & Ec). by apply (Hstand v).
  - destruct Hout as (Hns & v & Es & Eid & Ec). by apply (Hstand v).
  - apply quiet_good; [done|]. apply quiet_registry; try done. intros k. cbn. by rewrite Hout.
  - destruct Hout as (Hns & v & Es & Eid & Ec). by apply (Hstand v).
Qed.

(** ** Streams, timers and sessions *)

(** A session found under an id, changed by an operation, or not there. *)
Lemma quiet_alter (d : daemon) f sid : (forall v, marks (f v) = marks v) ->
  quiet d (on_registry (fun reg => reg <| sessions := alter f sid (sessions reg) |>) d).
Proof. intros Hf. apply quiet_registry; try done. intros k. by apply marks_alter. Qed.

Lemma quiet_update (d : daemon) op now sid : is_reap op = false ->
  quiet d (on_registry (fun reg => reg <| sessions := alter (run_op op now) sid (sessions reg) |>) d).
Proof. intros Hop. apply quiet_alter. intros v. by apply marks_run_op. Qed.

Lemma ledger_step_good (d : daemon) (f : monitoring (W := W) -> monitoring (W := W)) : daemon_ok d ->
  (forall s, settled None s -> settled None (f s) /\ processSessions (f s) = processSessions s) ->
  good d (d <| processes_ := f <$> processes_ d |>).
Proof.
  intros Hok Hf. split; [|split; [by apply prepared_same|apply late_refl]]. constructor; try apply Hok. cbn. intros s Hs.
  apply fmap_Some in Hs as (s0 & Es & ->). destruct (ok_ledger _ Hok s0 Es) as [Hs0 Hl0].
  destruct (Hf s0 Hs0) as [Hs' Hk]. split; [done|]. intros sid. by rewrite Hk.
Qed.

Lemma stream_ends_good out st (d : daemon) : daemon_ok d -> good d (stream_ends out st d).
Proof.
  intros Hok. destruct st as [sid gen at_|sid o|n|me]; cbn [stream_ends].
  - apply quiet_good; [done|]. exact (quiet_update d (OpDetach gen) (clock out) sid eq_refl).
  - apply quiet_good; [done|]. exact (quiet_update d (OpRemove o) (clock out) sid eq_refl).
  - apply quiet_good; [done|]. destruct (prepared d !! n) as [p|] eqn:Ep; [|apply quiet_refl].
    destruct (byPane _ _ _) as [v|] eqn:Eb; [|apply quiet_refl].
    apply byPane_some in Eb as (k & _ & Hv & _). rewrite <- (ok_filed _ Hok k v Hv) in Hv.
    destruct (adoptedBy p) as [[sid o]|] eqn:Ea; [|by apply (quiet_prepared_object d n p)].
    destruct (sid =? id v).
    + by apply (quiet_op d v (OpRemove o) (clock out)).
    + by apply quiet_update.
  - apply ledger_step_good; [done|]. intros s Hs. split; [|done].
    apply settled_same_sessions; [done|by apply stop_keyed, (settled_keyed _ _ Hs)|]. unfold Inventory.stop. by case_decide.
Qed.

Lemma peer_left_quiet n (d : daemon) : quiet d (prepared_peer_left n d).
Proof.
  unfold prepared_peer_left. destruct (prepared d !! n) as [p|] eqn:Ep; [|apply quiet_refl].
  destruct (adoptedBy p) as [[sid o]|] eqn:Ea; [by apply quiet_update|by apply (quiet_prepared_object d n p)].
Qed.

Lemma lease_expires_quiet ask sid (d : daemon) : quiet d (expire_lease ask sid d).
Proof.
  apply (quiet_trans d (d <| leases_ := delete ask (leases_ d) |>)); [apply quiet_leases, quiet_refl|].
  by apply (quiet_update _ (OpRing (OpExpire ask))).
Qed.

Lemma preparation_expires_quiet ask (d : daemon) : quiet d (expire_prepared ask d).
Proof. apply quiet_registry; try done. cbn. apply delete_subseteq. Qed.

(** ** The starts of streams *)

(** The start of a stream adopts nothing. *)
Definition adopts_nothing (d d' : daemon) : Prop := forall n p, prepared d !! n = Some p ->
  exists p', prepared d' !! n = Some p' /\ request p' = request p /\ adoptedBy p' = adoptedBy p.

Definition started_well (d : daemon) (x : daemon * Response * option stream) : Prop :=
  good d (fst (fst x)) /\ adopts_nothing d (fst (fst x)).

Lemma quiet_started (d d' : daemon) response st : daemon_ok d -> quiet d d' -> started_well d (d', response, st).
Proof.
  intros Hok Hq. split; [by apply quiet_good|]. intros n p Hp. destruct (quiet_prepared _ _ Hq n p Hp) as (p' & Hp' & Hr & _).
  exists p'. split; [done|]. split; [done|]. by apply (quiet_adopted _ _ Hq n).
Qed.

Lemma started_self (d : daemon) response st : daemon_ok d -> started_well d (d, response, st).
Proof. intros Hok. apply quiet_started; [done|apply quiet_refl]. Qed.

Lemma attach_good out (r : Request Raw) (d : daemon) : daemon_ok d -> started_well d (attach out r d).
Proof.
  intros Hok. pose proof (fun response st => started_self d response st Hok) as Hself. unfold attach.
  destruct (payload asAttach (Args r)) as [ask|]; [|by apply Hself]. unfold get.
  destruct (sessions (registry_ d) !! AttachSession ask) as [v|] eqn:Ev; [|by apply Hself].
  rewrite <- (ok_filed _ Hok _ v Ev) in Ev. pose proof (quiet_op d v OpAttach 0 Hok Ev eq_refl) as Hq. cbn [run_op] in Hq.
  destruct (attachRenderer v) as [v' gen]. destruct (resolve _ _) as [at_ mode]. by apply quiet_started.
Qed.

Lemma attachLease_good out (r : Request Raw) (d : daemon) : daemon_ok d -> covers (order out) (registry_ d) ->
  started_well d (attachLease out r d).
Proof.
  intros Hok Hcov. pose proof (fun response st => started_self d response st Hok) as Hself. unfold attachLease.
  destruct (payload asToken (Args r)) as [ask|]; [|by apply Hself]. destruct (leases_ d !! ask) as [sid|]; [|by apply Hself].
  set (d1 := d <| leases_ := delete ask (leases_ d) |>).
  assert (Hq1 : quiet d d1) by apply quiet_leases, quiet_refl. destruct (quiet_good _ _ Hok Hq1) as [Hok1 Hp1].
  unfold get. change (registry_ d1) with (registry_ d). destruct (sessions (registry_ d) !! sid) as [v|] eqn:Ev; [|by apply quiet_started].
  rewrite <- (ok_filed _ Hok _ v Ev) in Ev. pose proof (marks_run_op OpReplace 0 v eq_refl) as Hm1. cbn [run_op] in Hm1.
  destruct (replaceRenderer v) as [v1 gen]. cbn [fst] in Hm1.
  pose proof (marks_run_op (OpRing (OpConsume ask)) 0 v1 eq_refl) as Hm2. cbn [run_op apply_op] in Hm2.
  destruct (consumeLease ask (ring v1)) as [held consumed]. cbn [fst] in Hm2.
  assert (Hq2 : quiet d (put_session (v1 <| ring := held |>) d1)).
  { apply (quiet_trans d d1); [done|]. apply (quiet_put d1 v); [apply Hok|exact Ev|congruence]. }
  destruct consumed as [at_|e]; [by apply quiet_started|]. apply quiet_started; [done|].
  apply (quiet_trans d (put_session (v1 <| ring := held |>) d1)); [done|].
  exact (quiet_update _ (OpDetach gen) (clock out) (id v1) eq_refl).
Qed.

Lemma observe_good out (r : Request Raw) (d : daemon) : daemon_ok d -> started_well d (Connection.observe out r d).
Proof.
  intros Hok. pose proof (fun response st => started_self d response st Hok) as Hself. unfold Connection.observe.
  destruct (payload asObserve (Args r)) as [ask|]; [|by apply Hself]. unfold get.
  destruct (sessions (registry_ d) !! ObserveSession ask) as [v|] eqn:Ev; [|by apply Hself].
  rewrite <- (ok_filed _ Hok _ v Ev) in Ev.
  pose proof (quiet_op d v (OpObserve (ObserveToken ask) (ObserveDisplays ask)) 0 Hok Ev eq_refl) as Hq. cbn [run_op] in Hq.
  destruct (Session.observe _ _ v) as [v' [e|[o seen]]]; [by apply Hself|]. by apply quiet_started.
Qed.

Lemma observePrepared_good out (r : Request Raw) (d : daemon) : daemon_ok d -> started_well d (observePrepared out r d).
Proof.
  intros Hok. pose proof (fun response st => started_self d response st Hok) as Hself. unfold observePrepared.
  destruct (payload asToken (Args r)) as [ask|]; [|by apply Hself]. destruct (pendingObservers d !! ask) as [n|] eqn:Et; [|by apply Hself].
  destruct (ok_pending _ Hok _ _ Et) as (p & Hp & Ha). apply quiet_started; [done|].
  assert (E : alter (fun p => p <| ready := true |>) n (prepared d) = <[n := p <| ready := true |>]> (prepared d)).
  { apply map_eq. intros k. destruct (decide (n = k)) as [<-|Hne].
    - by rewrite lookup_alter_eq, lookup_insert_eq, Hp.
    - by rewrite lookup_alter_ne, lookup_insert_ne. }
  rewrite E. by apply (quiet_prepared_object d n p).
Qed.

Lemma processObserve_good out (r : Request Raw) (d : daemon) : daemon_ok d -> covers (order out) (registry_ d) ->
  started_well d (processObserve identity daemonPID out r d).
Proof.
  intros Hok Hcov. unfold processObserve. pose proof (start_monitoring_good out d Hok Hcov) as (Hok1 & Hp1 & Hl1).
  assert (Hsame : prepared (start_monitoring identity daemonPID out d) = prepared d) by done.
  assert (Hnothing : adopts_nothing d (start_monitoring identity daemonPID out d)).
  { intros n p Hp. exists p. by rewrite Hsame. }
  destruct (negb (eventsSupported out)); [by split|].
  destruct (processes_ (start_monitoring identity daemonPID out d)) as [s|] eqn:Es; [|by split].
  destruct (Inventory.observe (processState s)) as [[state snapshot] me] eqn:Eo.
  split; [|exact Hnothing]. apply (quiet_then_good d (start_monitoring identity daemonPID out d)); [done|done|].
  destruct (ok_ledger _ Hok1 s Es) as [Hs Hl].
  apply ledger_good; [done| |done]. unfold Inventory.observe in Eo. injection Eo as <- _ _.
  apply settled_same_sessions; [done|apply (settled_keyed _ _ Hs)|done].
Qed.

Lemma stream_command_good name start out (r : Request Raw) (d : daemon) : stream_command identity daemonPID name = Some start ->
  daemon_ok d -> covers (order out) (registry_ d) -> started_well d (start out r d).
Proof.
  intros E Hok Hcov. unfold stream_command in E. repeat case_match; simplify_eq;
    [by apply processObserve_good|by apply attach_good|by apply attachLease_good|by apply observe_good|by apply observePrepared_good].
Qed.

(** ** Commands *)

Lemma quietly_good (d : daemon) (m : io result) : daemon_ok d -> returns (quietly d) m -> returns (fun x => good d (fst (fst x))) m.
Proof. intros Hok. apply returns_weaken. intros x Hx. by apply quiet_good. Qed.

Lemma ender_good (d : daemon) (m : io (registry * bool * list reg_action)) (reply_ : bool -> reply) : daemon_ok d ->
  returns (fun '(reg, _, acts) => closes (registry_ d) reg acts) m ->
  returns (fun x => good d (fst (fst x))) (do '(reg, ended, acts) <- m; ret (hear_ended acts (d <| registry_ := reg |>), reply_ ended, acts)).
Proof.
  intros Hok Hm. eapply returns_bind; [exact Hm|]. intros [[reg ended] acts] Hc. apply returns_ret. by apply ends_good.
Qed.

Lemma command_good name run out args (d : daemon) :
  commands goos toUpper identity daemonPID !! name = Some run -> daemon_ok d -> covers (order out) (registry_ d) ->
  returns (fun x => good d (fst (fst x))) (run out args d).
Proof.
  intros E Hok Hcov. apply elem_of_list_to_map_2 in E.
  assert (Hself : good d d) by (by apply quiet_good, quiet_refl).
  unfold command_table in E. repeat (apply elem_of_cons in E as [[= _ ->]|E]); [..|by apply elem_of_nil in E].
  - by apply open_good.
  - by apply quietly_good, write_quiet.
  - by apply quietly_good, resize_quiet.
  - by apply quietly_good, ack_quiet.
  - unfold closeSession. apply payload_returns; [done|]. intros sid. apply session_returns; [done|done|]. intros v Hv.
    apply (ender_good d _ (fun ended => if ended then Answers (DClosed sid) else Refuse "NO_SESSION")); [done|].
    apply close_stored_closes, Hok.
  - by apply returns_ret.
  - unfold pane. apply payload_returns; [done|]. intros n. by apply returns_ret.
  - unfold closeWindow. apply payload_returns; [done|]. intros label.
    pose proof (close_labelled_closes (list_sessions (order out) (registry_ d)) label (clock out) (registry_ d) (ok_filed _ Hok)) as Hc.
    fold (Registry.closeWindow (order out) label (clock out) (registry_ d)) in Hc.
    destruct (Registry.closeWindow (order out) label (clock out) (registry_ d)) as [[reg ended] acts].
    apply returns_any. intros []. apply returns_ret. by apply ends_good.
  - by apply returns_ret.
  - unfold sessionReport. apply payload_returns; [done|]. intros named. by apply returns_ret.
  - unfold sessionClose. apply payload_returns; [done|]. intros n. eapply returns_bind; [apply closeSession_closes, Hok|].
    intros [[reg ended] acts] Hc. apply returns_ret. by apply ends_good.
  - by apply quietly_good, modes_quiet.
  - by apply quietly_good, lease_quiet.
  - by apply quietly_good, detach_quiet.
  - by apply prepare_good.
  - by apply quietly_good, displays_quiet.
  - apply returns_ret. by apply start_monitoring_good.
  - by apply returns_ret.
  - by apply quietly_good, tail_quiet.
Qed.

Lemma answer_good out (r : Request Raw) greeted (d : daemon) : daemon_ok d -> covers (order out) (registry_ d) ->
  returns (fun '(d', _, _, _) => good d d') (answer goos toUpper identity processLabel daemonPID out r greeted d).
Proof.
  intros Hok Hcov. assert (Hself : good d d) by (by apply quiet_good, quiet_refl). unfold answer.
  destruct (String.eqb (Command r) HelloCommand); [destruct (greet _ _ _ _ _ _ _ _) as [response g]; by apply returns_ret|].
  destruct (negb greeted); [by apply returns_ret|]. case_bool_decide; [by apply returns_ret|].
  destruct (commands goos toUpper identity daemonPID !! Command r) as [run|] eqn:E; [|by apply returns_ret].
  eapply returns_bind; [by eapply command_good|]. intros [[d1 rep] acts] Hg. by apply returns_ret.
Qed.

(** A stream whose first answer could not be written is over at once. *)
Lemma unsent_good out st (d d1 : daemon) : daemon_ok d -> good d d1 -> adopts_nothing d d1 ->
  good d (match st with PreparedStream _ => d1 | _ => stream_ends out st d1 end).
Proof.
  intros Hok (Hok1 & Hp1 & Hl1) Hn.
  assert (Hends : prepared (stream_ends out st d1) = prepared d1 -> good d (stream_ends out st d1)).
  { intros E. destruct (stream_ends_good out st d1 Hok1) as (Hok2 & _ & Hl2). split; [done|]. split; [|by eapply late_trans]. intros n p Hp. destruct (Hn n p Hp) as (p' & Hp' & Hr & Ha).
    exists p'. rewrite E. auto. }
  destruct st; [by apply Hends|by apply Hends|by split|by apply Hends].
Qed.

Lemma serve_turn_good line sent out c (d : daemon) : daemon_ok d -> covers (order out) (registry_ d) ->
  returns (fun '(_, d', _, _) => good d d') (serve_turn goos toUpper identity processLabel daemonPID line sent out c d).
Proof.
  intros Hok Hcov. assert (Hself : good d d) by (by apply quiet_good, quiet_refl). unfold serve_turn.
  destruct c as [greeted| | |]; [|by apply returns_ret..]. destruct line as [r|]; [|by apply returns_ret].
  destruct (stream_command identity daemonPID (Command r)) as [start|] eqn:Es.
  - destruct (negb greeted); [by apply returns_ret|].
    pose proof (stream_command_good _ _ out r d Es Hok Hcov) as [Hg Hn].
    destruct (start out r d) as [[d1 response] [st|]]; [|by apply returns_ret]. cbn [fst] in Hg, Hn.
    destruct sent; [by apply returns_ret|]. apply returns_ret. by apply unsent_good.
  - eapply returns_bind; [by apply answer_good|]. intros [[[d1 g1] response] acts] Hg. by apply returns_ret.
Qed.

Lemma daemon_step_good (d d' : daemon) : daemon_step d d' -> daemon_ok d -> good d d'.
Proof.
  intros Hstep Hok. destruct Hstep as [line sent out c d w w' c' d' response acts Hcov E|out st d Hcov|n d|ask sid d|ask d|sid op now d Hop
    |sid now d|d|explain not_started stopping started sid out d w w' d' E|out d Hcov|out d Hcov|m found d].
  - pose proof (serve_turn_good line sent out c d Hok Hcov w) as Hg. by rewrite E in Hg.
  - by apply stream_ends_good.
  - apply quiet_good; [done|apply peer_left_quiet].
  - apply quiet_good; [done|apply lease_expires_quiet].
  - apply quiet_good; [done|apply preparation_expires_quiet].
  - apply quiet_good; [done|by apply quiet_update].
  - by apply shell_exits_good.
  - apply quiet_good; [done|]. by apply quiet_registry.
  - pose proof (restores_good explain not_started stopping started sid out d Hok w) as Hg. by rewrite E in Hg.
  - by apply sweep_good.
  - by apply stops_good.
  - apply ledger_step_good; [done|]. intros s Hs. by apply settled_reconcile.
Qed.

Lemma new_ok shell_ secret after seedGeneration seedNext : is_u64 seedNext ->
  daemon_ok (newDaemon shell_ secret after seedGeneration seedNext).
Proof. intros Hseed. constructor; cbn; try done; intros *; by rewrite lookup_empty. Qed.

Lemma reachable_ok (d d' : daemon) : rtc daemon_step d d' -> daemon_ok d -> daemon_ok d'.
Proof. induction 1 as [|x y z Hxy _ IH]; [done|]. intros Hok. by apply IH, (daemon_step_good x). Qed.

(** C2: whatever is opened, closed, swept, stopped or exits, in whatever order, and whenever
    the monitoring began, the process ledger has records of exactly the sessions the
    registry holds whose shell still runs. *)
Theorem ledger_follows_the_registry shell_ secret after seedGeneration seedNext (d : daemon) s :
  is_u64 seedNext -> rtc daemon_step (newDaemon shell_ secret after seedGeneration seedNext) d ->
  processes_ d = Some s ->
  forall sid, is_Some (Inventory.sessions (processState s) !! sid) <-> open_in (registry_ d) sid.
Proof.
  intros Hseed Hrun Hs sid. pose proof (reachable_ok _ _ Hrun (new_ok _ _ _ _ _ Hseed)) as Hok.
  destruct (ok_ledger _ Hok s Hs) as [Hset Hl]. rewrite <- Hl. by apply (settled_ledger _ _ Hset).
Qed.

(** C5: a prepared observer keeps its request, is adopted by no session before it was marked
    ready, which its stream does right before it writes its answer, only by a session of the
    pane it was prepared for, which then feeds it, and stays with that session: nothing
    adopts it again. *)
Theorem prepared_observer_adopted_once shell_ secret after seedGeneration seedNext (d d' : daemon) n p :
  is_u64 seedNext -> rtc daemon_step (newDaemon shell_ secret after seedGeneration seedNext) d ->
  daemon_step d d' -> prepared d !! n = Some p ->
  exists p', prepared d' !! n = Some p' /\ request p' = request p /\
    match adoptedBy p with
    | Some place => adoptedBy p' = Some place
    | None =>
        adoptedBy p' = None \/
        exists sid o v, adoptedBy p' = Some (sid, o) /\ ready p = true /\ sessions (registry_ d') !! sid = Some v /\
          paneID v = PreparePaneID (request p) /\ o ∈ Session.observers v
    end.
Proof.
  intros Hseed Hrun Hstep Hp. pose proof (reachable_ok _ _ Hrun (new_ok _ _ _ _ _ Hseed)) as Hok.
  destruct (daemon_step_good d d' Hstep Hok) as (_ & Hprep & _). destruct (Hprep n p Hp) as (p' & Hp' & Hr & Ha).
  exists p'. split; [done|]. split; [done|]. destruct (adoptedBy p) as [place|].
  - destruct Ha as [?|[? _]]; done.
  - destruct Ha as [?|(_ & Hready & sid & o & v & E & ? & ? & ?)]; [by left|right]. exists sid, o, v. done.
Qed.

End daemon.

(** ** Witnesses *)

Section witnesses.
#[local] Existing Instance sample_contract.
#[local] Existing Instance sample_contract_laws.
#[local] Existing Instance sample_control.
#[local] Existing Instance sample_wire.
#[local] Existing Instance Concrete.platform.

Abbreviation sample_step := (daemon_step "linux" (fun s => s) "pty" "label" 7).

Definition sample_turn (command : string) (raw : sample_raw) (d : daemon darwinProcessTreeWatch) :=
  serve_turn "linux" (fun s => s) "pty" "label" 7 (Some (mkRequest "1" command {["request"%string := raw]})) true sample_around
    (Requesting true) d (mkWorld ∅ ∅ [] []).

Definition after (command : string) (raw : sample_raw) (d : daemon darwinProcessTreeWatch) : daemon darwinProcessTreeWatch :=
  match sample_turn command raw d with (_, inr (_, d, _, _)) => d | _ => d end.

Definition answers_to (command : string) (raw : sample_raw) (d : daemon darwinProcessTreeWatch) : bool :=
  match sample_turn command raw d with (_, inr _) => true | _ => false end.

Lemma step_after command raw d : sessions (registry_ d) = ∅ -> answers_to command raw d = true ->
  sample_step d (after command raw d).
Proof.
  intros Hs Ha. unfold answers_to, after in *. destruct (sample_turn command raw d) as [w' [e|[[[c' d'] response] acts]]] eqn:E; [done|].
  eapply d_line; [|exact E]. split; [constructor|]. intros sid. rewrite Hs, lookup_empty.
  split; [by intros ?%elem_of_nil|by intros [? ?]].
Qed.

Definition sample_request (ask : string) : sample_raw :=
  RawOpen (mkOpenRequest (mkOpen 80 24 "" "/" "p" "w" ask) (Environment.mkEnvironment [] ∅) []).

Definition quiet_daemon : daemon darwinProcessTreeWatch := newDaemon "/bin/sh" "secret" 1800 5 9.
Definition watching_daemon : daemon darwinProcessTreeWatch := after "process.inventory" (RawInt 0) quiet_daemon.
Definition serving_daemon : daemon darwinProcessTreeWatch := after "pty.open" (sample_request "") watching_daemon.

Lemma ledger_follows_the_registry_witness :
  rtc sample_step quiet_daemon serving_daemon /\
  exists s, processes_ serving_daemon = Some s /\ is_Some (Inventory.sessions (processState s) !! 10) /\
  forall sid, is_Some (Inventory.sessions (processState s) !! sid) <-> open_in (registry_ serving_daemon) sid.
Proof.
  assert (Hr : rtc sample_step quiet_daemon serving_daemon).
  { apply (rtc_l _ _ watching_daemon); [apply step_after; vm_compute; reflexivity|].
    apply (rtc_l _ _ serving_daemon); [apply step_after; vm_compute; reflexivity|]. apply rtc_refl. }
  split; [exact Hr|].
  assert (Hp : match processes_ serving_daemon with
               | Some s => bool_decide (is_Some (Inventory.sessions (processState s) !! 10)) | None => false end = true).
  { vm_compute. reflexivity. }
  destruct (processes_ serving_daemon) as [s|] eqn:E; [|discriminate Hp]. exists s. split; [reflexivity|].
  split; [exact (bool_decide_eq_true_1 _ Hp)|].
  apply (ledger_follows_the_registry "linux" (fun s => s) "pty" "label" 7 "/bin/sh" "secret" 1800 5 9 serving_daemon s);
    [unfold is_u64, two64; lia|exact Hr|exact E].
Defined.

Definition preparing_daemon : daemon darwinProcessTreeWatch :=
  after "pty.prepareObserver" (RawPrepare (mkPrepare "p" "w" "engine" true)) quiet_daemon.
Definition ready_daemon : daemon darwinProcessTreeWatch := after "pty.observePrepared" (RawText "6162") preparing_daemon.
Definition adopting_daemon : daemon darwinProcessTreeWatch := after "pty.open" (sample_request "6162") ready_daemon.

Lemma prepared_observer_adopted_once_witness :
  rtc sample_step quiet_daemon ready_daemon /\ sample_step ready_daemon adopting_daemon /\
  exists p, prepared ready_daemon !! 0%nat = Some p /\ adoptedBy p = None /\
  (adoptedBy <$> prepared adopting_daemon !! 0%nat) = Some (Some (10, 0%nat)) /\
  exists p', prepared adopting_daemon !! 0%nat = Some p' /\ request p' = request p /\
    match adoptedBy p with
    | Some place => adoptedBy p' = Some place
    | None =>
        adoptedBy p' = None \/
        exists sid o v, adoptedBy p' = Some (sid, o) /\ ready p = true /\ sessions (registry_ adopting_daemon) !! sid = Some v /\
          paneID v = PreparePaneID (request p) /\ o ∈ Session.observers v
    end.
Proof.
  assert (Hr : rtc sample_step quiet_daemon ready_daemon).
  { apply (rtc_l _ _ preparing_daemon); [apply step_after; vm_compute; reflexivity|].
    apply (rtc_l _ _ ready_daemon); [apply step_after; vm_compute; reflexivity|]. apply rtc_refl. }
  assert (Hs : sample_step ready_daemon adopting_daemon) by (apply step_after; vm_compute; reflexivity).
  split; [exact Hr|]. split; [exact Hs|].
  exists (mkPreparedObserver (mkPrepare "p" "w" "engine" true) (newObserver ObserverBufferBytes) true None).
  split; [vm_compute; reflexivity|]. split; [reflexivity|]. split; [vm_compute; reflexivity|].
  apply (prepared_observer_adopted_once "linux" (fun s => s) "pty" "label" 7 "/bin/sh" "secret" 1800 5 9 ready_daemon adopting_daemon 0%nat);
    [unfold is_u64, two64; lia|exact Hr|exact Hs|vm_compute; reflexivity].
Defined.

End witnesses.
