(* ===== verification/Startup.v ===== *)
(** * A start of the daemon (main.go, listen_unix.go, limits_unix.go, process_label.go)

    A start is a program of Threads whose calls are those it makes on the host: the token
    file, the session store, the limit on open files, the socket and the announcement.  Run
    alone it is one start of the daemon; several of them take turns when a launcher starts a
    daemon while another one is starting or runs.  The contract packages derive the paths of
    the token and the socket; [restore] is that of Restore, in one turn. *)

From S2P Require Import Prelude Decimal Base64 Contract Store Session Registry Restore Threads.

(** ** The host *)

(** A file, or a socket with the listener that was bound to it. *)
Inductive node :=
| RegularFile (mode : Z) (content : octets)
| SocketFile (mode : Z) (listener : nat).

(** The line a daemon prints when it serves. *)
Record announcement := mkAnnouncement {
  Socket : string;
  ProcessLabel : string;
  Token : octets
}.

(** [listening] are the listeners that are open, of the [opened] ones there were; [draws]
    are the random bytes to come and [faults] what becomes of the calls to come ([Works]
    when none is left); [disk] is the session store, with the fates of its own calls. *)
Record host := mkHost {
  directories : gset string;
  nodes : gmap string node;
  listening : gset nat;
  opened : nat;
  limits : gmap nat (Z * Z);
  draws : list octets;
  faults : list fate;
  disk : world;
  shells : list (nat * start_shell);
  announced : list (nat * announcement)
}.

#[export] Instance host_settable : Settable host := fun h =>
  mkHost (directories h) (nodes h) (listening h) (opened h) (limits h) (draws h) (faults h) (disk h) (shells h) (announced h).

(** What [restore] leaves: the registry and the outcomes. *)
Abbreviation restored := (registry * list restoreOutcome)%type.

(** The calls; [me] is the process that makes them. *)
Inductive sys : Type -> Type :=
| MkdirAll (path : string) : sys (io_error + unit)
| ReadFile (path : string) : sys (io_error + octets)
| RandomBytes : sys (io_error + octets)
| WriteFile (path : string) (data : octets) (mode : Z) : sys (io_error + unit)
| Getrlimit (me : nat) : sys (option (Z * Z))
| Setrlimit (me : nat) (limit : Z * Z) : sys unit
| Dial (path : string) : sys bool
| RemoveFile (path : string) : sys (io_error + unit)
| Listen (path : string) : sys (io_error + nat)
| Chmod (path : string) (mode : Z) : sys (io_error + unit)
| CloseListener (listener : nat) (path : string) : sys unit
| RestoreAll (me : nat) (reg : registry) : sys restored
| Announce (me : nat) (line : announcement) : sys unit.

(** No locks are taken. *)
Abbreviation program := (prog sys Empty_set).

Definition ask {A} (c : sys A) : program A := Call c Done.

Notation "'let*' x := p 'in' k" := (andThen p (fun x => k))
  (at level 10, x pattern, p at level 100, k at level 200) : pty_scope.

Definition next_fault (h : host) : host * fate :=
  match faults h with
  | [] => (h, Works)
  | f :: rest => (h <| faults := rest |>, f)
  end.

(** A listener that is open at the end of the path. *)
Definition answers_at (path : string) (h : host) : bool :=
  match nodes h !! path with
  | Some (SocketFile _ l) => bool_decide (l ∈ listening h)
  | _ => false
  end.

(** [filepath.IsAbs]. *)
Definition IsAbs (path : string) : bool := HasPrefix path "/".

(** The shells that a restore started. *)
Definition started_shells (acts : list restore_action) : list start_shell :=
  omap (fun a => match a with StartShell asked => Some asked | _ => None end) acts.

Section start.
Context `{PtyContractLaws} `{PlatformLaws}.

(** Texts of errors and the answers to the starts of shells, as in Restore. *)
Context (explain : io_error -> string) (not_started stopping : string) (starts : Z -> bool) (clock : Z).

Definition run (B : Type) (c : sys B) (h : host) : host * B :=
  match c in sys B return host * B with
  | MkdirAll path =>
      match next_fault h with
      | (h, Works) => (h <| directories := {[path]} ∪ directories h |>, inr tt)
      | (h, Fails _) => (h, inl Fault)
      end
  | ReadFile path =>
      match next_fault h with
      | (h, Works) => (h, match nodes h !! path with
                          | Some (RegularFile _ content) => inr content
                          | Some (SocketFile _ _) => inl Fault
                          | None => inl NotExist
                          end)
      | (h, Fails _) => (h, inl Fault)
      end
  | RandomBytes =>
      match next_fault h with
      | (h, Works) => match draws h with
                      | [] => (h, inl Fault)
                      | bytes :: rest => (h <| draws := rest |>, inr bytes)
                      end
      | (h, Fails _) => (h, inl Fault)
      end
  (* an open with O_CREATE and O_TRUNC, then the bytes: one that fails after the open has
     emptied the file and may have written some of them *)
  | WriteFile path data mode =>
      let kept := match nodes h !! path with Some (RegularFile mode _) => Some mode | Some (SocketFile _ _) => None | None => Some mode end in
      match next_fault h, kept with
      | (h, Works), Some mode => (h <| nodes := <[path := RegularFile mode data]> (nodes h) |>, inr tt)
      | (h, Fails (S n)), Some mode => (h <| nodes := <[path := RegularFile mode (take n data)]> (nodes h) |>, inl Fault)
      | (h, _), _ => (h, inl Fault)
      end
  | Getrlimit me =>
      match next_fault h with
      | (h, Works) => (h, limits h !! me)
      | (h, Fails _) => (h, None)
      end
  | Setrlimit me limit =>
      match next_fault h with
      | (h, Works) => (h <| limits := <[me := limit]> (limits h) |>, tt)
      | (h, Fails _) => (h, tt)
      end
  | Dial path =>
      match next_fault h with
      | (h, Works) => (h, answers_at path h)
      | (h, Fails _) => (h, false)
      end
  | RemoveFile path =>
      match next_fault h with
      | (h, Works) => match nodes h !! path with
                      | None => (h, inl NotExist)
                      | Some _ => (h <| nodes := delete path (nodes h) |>, inr tt)
                      end
      | (h, Fails _) => (h, inl Fault)
      end
  | Listen path =>
      match next_fault h with
      | (h, Works) => match nodes h !! path with
                      | Some _ => (h, inl Fault)
                      | None => (h <| nodes := <[path := SocketFile 511 (opened h)]> (nodes h) |>
                                   <| listening := {[opened h]} ∪ listening h |> <| opened := S (opened h) |>,
                                 inr (opened h))
                      end
      | (h, Fails _) => (h, inl Fault)
      end
  | Chmod path mode =>
      match next_fault h with
      | (h, Works) => match nodes h !! path with
                      | None => (h, inl NotExist)
                      | Some (RegularFile _ content) => (h <| nodes := <[path := RegularFile mode content]> (nodes h) |>, inr tt)
                      | Some (SocketFile _ l) => (h <| nodes := <[path := SocketFile mode l]> (nodes h) |>, inr tt)
                      end
      | (h, Fails _) => (h, inl Fault)
      end
  (* the listener of the standard library unlinks its path, whatever is there *)
  | CloseListener l path => (h <| listening := listening h ∖ {[l]} |> <| nodes := delete path (nodes h) |>, tt)
  | RestoreAll me reg =>
      match restore explain not_started stopping starts clock reg (restarted (disk h)) with
      | (w, inr (reg, outcomes, acts)) =>
          (h <| disk := w |> <| shells := shells h ++ map (pair me) (started_shells acts) |>, (reg, outcomes))
      | (w, inl _) => (h <| disk := w |>, (reg, []))
      end
  | Announce me line => (h <| announced := announced h ++ [(me, line)] |>, tt)
  end.

(** ** The start *)

Inductive start_error :=
| Preparing (path : string)
| ReadingToken
| GeneratingToken
| WritingToken
| AlreadyListening
| Clearing
| PathTooLong
| Binding
| Restricting.

(** [x, err := p; if err != nil { return failed }] *)
Definition orFail {A B} (failed : start_error) (p : program (io_error + A)) (k : A -> program (start_error + B)) : program (start_error + B) :=
  let* answer := p in match answer with inl _ => Done (inl failed) | inr x => k x end.

Definition loadOrCreateToken (path : string) : program (start_error + octets) :=
  let* existing := ask (ReadFile path) in
  let create :=
    orFail GeneratingToken (ask RandomBytes) (fun raw =>
      let token := text (hex raw) in
      orFail WritingToken (ask (WriteFile path token 384)) (fun _ => Done (inr token))) in
  match existing with
  | inr content => if 0 <? zlen content then Done (inr content) else create
  | inl NotExist => create
  | inl _ => Done (inl ReadingToken)
  end.

Definition raiseOpenFileLimit (me : nat) : program unit :=
  let* limit := ask (Getrlimit me) in
  match limit with
  | None => Done tt
  | Some (soft, hard) => if hard <=? soft then Done tt else ask (Setrlimit me (hard, hard))
  end.

Definition socketPathLimit : Z := 104.

Definition listen (path : string) : program (start_error + nat) :=
  let* answered := ask (Dial path) in
  if answered : bool then Done (inl AlreadyListening)
  else
    let* removed := ask (RemoveFile path) in
    match removed with
    | inl NotExist | inr _ =>
        if socketPathLimit <? zlen (text path) then Done (inl PathTooLong)
        else
          orFail Binding (ask (Listen path)) (fun listener =>
            let* restricted := ask (Chmod path 384) in
            match restricted with
            | inl _ => let* _ := ask (CloseListener listener path) in Done (inl Restricting)
            | inr _ => Done (inr listener)
            end)
    | inl _ => Done (inl Clearing)
    end.

Definition storeDirName : string := "pty-sessions".

(** [seedCeiling] and [randomInstanceSeed], which [newRegistry] calls for each of its counters:
    eight random bytes, or the clock when there are none. *)
Definition seedCeiling : Z := Z.shiftl 1 48.

Definition big_endian (bytes : octets) : Z := fold_left (fun n b => n * 256 + byte_val b) bytes 0.

Definition randomInstanceSeed (bytes : option octets) (unixNano : Z) : Z :=
  match bytes with
  | Some bytes => wrap64 (big_endian bytes) mod seedCeiling
  | None => wrap64 unixNano mod seedCeiling
  end.

(** A counter that starts there is exact as a float64 for 2^53 - 2^48 counts. *)
Lemma seed_is_exact bytes unixNano n : 0 <= n <= 9007199254740992 - seedCeiling ->
  let counter := randomInstanceSeed bytes unixNano +64 n in
  counter = randomInstanceSeed bytes unixNano + n /\ 0 <= counter < 9007199254740992.
Proof.
  intros Hn. assert (Hs : 0 <= randomInstanceSeed bytes unixNano < seedCeiling).
  { unfold randomInstanceSeed. destruct bytes; apply Z.mod_pos_bound; by vm_compute. }
  assert (Ec : seedCeiling = 281474976710656) by (vm_compute; reflexivity). rewrite Ec in *. cbv zeta.
  rewrite add64_small; [|unfold is_u64, two64]; lia.
Qed.

Definition attachStore (reg : registry) : registry := reg <| store := true |>.

(** What a daemon that serves holds. *)
Record serving := mkServing {
  servingListener : nat;
  servingRegistry : registry;
  servingToken : octets
}.

(** [ptycontract.TokenPath] and [ptycontract.ControlSocketPath]. *)
Context (TokenPath ControlSocketPath : string -> string -> string).

(** [run] up to the announcement; the seeds are those [newRegistry] draws. *)
Definition start (me : nat) (home runtimeRoot shell processLabel sidecarName : string) (after seedGeneration seedNext : Z)
    : program (start_error + serving) :=
  orFail (Preparing runtimeRoot) (ask (MkdirAll runtimeRoot)) (fun _ =>
    let* loaded := loadOrCreateToken (TokenPath runtimeRoot sidecarName) in
    match loaded with
    | inl e => Done (inl e)
    | inr token =>
        let dir := (home ++ "/" ++ storeDirName)%string in
        orFail (Preparing dir) (ask (MkdirAll dir)) (fun _ =>
          let* _ := raiseOpenFileLimit me in
          let* (reg, _) := ask (RestoreAll me (attachStore (newRegistry shell after seedGeneration seedNext))) in
          let controlAddress := ControlSocketPath runtimeRoot sidecarName in
          let* control := listen controlAddress in
          match control with
          | inl e => Done (inl e)
          | inr listener =>
              let* _ := ask (Announce me (mkAnnouncement controlAddress processLabel token)) in
              Done (inr (mkServing listener reg token))
          end)
    end).

(** The listener is closed; [Registry.shutdown] is what comes of the sessions. *)
Definition stop (listener : nat) (runtimeRoot sidecarName : string) : program unit :=
  ask (CloseListener listener (ControlSocketPath runtimeRoot sidecarName)).

(** *** The command line *)

(** [controlwire.DefaultProcessLabel] and [controlwire.ParseProcessLabel]. *)
Context (DefaultProcessLabel : string) (ParseProcessLabel : string -> option string).

Inductive refusal := PROCESS_LABEL_INVALID | SIDECAR_NAME_INVALID | NoHome | NoRuntime.

Definition processLabelFromEnvironment (value : string) : option string :=
  if String.eqb value "" then Some DefaultProcessLabel else ParseProcessLabel value.

(** What [main] makes of its flags and the two names in its environment. *)
Definition main (home runtimeRoot shell labelNamed sidecarNamed : string) : refusal + (string * string) :=
  match processLabelFromEnvironment labelNamed with
  | None => inl PROCESS_LABEL_INVALID
  | Some processLabel =>
      match ParseProcessLabel sidecarNamed with
      | None => inl SIDECAR_NAME_INVALID
      | Some sidecarName =>
          if String.eqb home "" then inl NoHome
          else if String.eqb runtimeRoot "" || negb (IsAbs runtimeRoot) then inl NoRuntime
          else inr (processLabel, sidecarName)
      end
  end.

(** ** Rules *)

(** [Q] of where [p] leaves the host and of what it answers, when it runs alone. *)
Definition ends {A} (p : program A) (h : host) (Q : host -> A -> Prop) : Prop :=
  let '(h', x) := Threads.alone run p h in Q h' x.

Lemma ends_andThen {A B} (p : program A) (f : A -> program B) h R Q :
  ends p h R -> (forall h' x, R h' x -> ends (f x) h' Q) -> ends (andThen p f) h Q.
Proof. unfold ends. rewrite alone_andThen. destruct (Threads.alone run p h) as [h' x]. intros Hp Hf. exact (Hf _ _ Hp). Qed.

Lemma ends_mono {A} (p : program A) h (R Q : host -> A -> Prop) : (forall h' x, R h' x -> Q h' x) -> ends p h R -> ends p h Q.
Proof. unfold ends. destruct (Threads.alone run p h). auto. Qed.

Lemma ends_orFail {A B} e (p : program (io_error + A)) (k : A -> program (start_error + B)) h R Q :
  ends p h R -> (forall h' x, R h' (inr x) -> ends (k x) h' Q) -> (forall h' f, R h' (inl f) -> Q h' (inl e)) ->
  ends (orFail e p k) h Q.
Proof. intros Hp Hk He. eapply ends_andThen; [exact Hp|]. intros h' [f|x] HR; [by eapply He|by apply Hk]. Qed.

(** The part of the host that a start changes in view of others. *)
Definition shows (h h' : host) : Prop :=
  nodes h' = nodes h /\ listening h' = listening h /\ opened h' = opened h /\ announced h' = announced h /\
  disk h' = disk h /\ shells h' = shells h.

Lemma shows_refl h : shows h h.
Proof. done. Qed.

Lemma shows_trans h1 h2 h3 : shows h1 h2 -> shows h2 h3 -> shows h1 h3.
Proof. unfold shows. intros (?&?&?&?&?&?) (?&?&?&?&?&?). split_and!; congruence. Qed.

(** A call whose fate is not known. *)
Ltac fated h := unfold ends; cbn [Threads.alone andThen ask run]; unfold next_fault; destruct (faults h) as [|[|?] ?]; cbn.

Lemma mkdir_ends path h : ends (ask (MkdirAll path)) h (fun h' x => shows h h').
Proof. by fated h. Qed.

(** While no call fails. *)
Lemma mkdir_works path h : faults h = [] -> ends (ask (MkdirAll path)) h (fun h' x => shows h h' /\ faults h' = [] /\ x = inr tt).
Proof. intros Hf. unfold ends. cbn [Threads.alone ask run]. unfold next_fault. by rewrite Hf. Qed.

Lemma raise_ends me h : ends (raiseOpenFileLimit me) h (fun h' _ => shows h h' /\
  (limits h' = limits h \/ exists soft hard, limits h !! me = Some (soft, hard) /\ soft < hard /\ limits h' = <[me := (hard, hard)]> (limits h))).
Proof.
  unfold raiseOpenFileLimit. eapply ends_andThen with (R := fun h' x => shows h h' /\ limits h' = limits h /\
    forall l, x = Some l -> limits h !! me = Some l).
  { fated h; (split_and!; [done|done|]); by try intros. }
  intros h1 [[soft hard]|] (Hs & El & Hx); [|by split; [|left]]. specialize (Hx _ eq_refl).
  destruct (Z.leb_spec hard soft); [by split; [|left]|].
  fated h1; (split; [done|]); [right|right|left; done]; rewrite El; by exists soft, hard.
Qed.

Lemma raise_works me h : faults h = [] -> ends (raiseOpenFileLimit me) h (fun h' _ => shows h h' /\ faults h' = []).
Proof.
  intros Hf. unfold ends, raiseOpenFileLimit. cbn [Threads.alone andThen ask run]. unfold next_fault. rewrite Hf.
  destruct (limits h !! me) as [[soft hard]|]; [|done]. destruct (hard <=? soft); [done|].
  cbn [Threads.alone ask run]. unfold next_fault. by rewrite Hf.
Qed.

(** ** The token *)

Lemma hex_length data : zlen (text (hex data)) = 2 * zlen data.
Proof.
  induction data as [|b data IH]; [done|]. cbn [hex]. unfold text in *.
  change (String.list_byte_of_string (String ?a (String ?b ?s))) with (Ascii.byte_of_ascii a :: Ascii.byte_of_ascii b :: String.list_byte_of_string s).
  rewrite !zlen_cons. lia.
Qed.

(** What a write that failed half way leaves. *)
Definition torn (path : string) (token : octets) (h h' : host) : Prop :=
  exists n mode, nodes h' = <[path := RegularFile mode (take n token)]> (nodes h).

(** A new token is in a file of its own. *)
Definition fresh_token (path : string) (h h' : host) (token : octets) : Prop :=
  exists raw, head (draws h) = Some raw /\ token = text (hex raw) /\
    exists mode, nodes h' = <[path := RegularFile mode token]> (nodes h) /\ (nodes h !! path = None -> mode = 384).

Definition loaded (path : string) (h h' : host) (x : start_error + octets) : Prop :=
  listening h' = listening h /\ opened h' = opened h /\ announced h' = announced h /\ disk h' = disk h /\ shells h' = shells h /\
  match x with
  | inr token => (nodes h' = nodes h /\ 0 < zlen token /\ exists mode, nodes h !! path = Some (RegularFile mode token)) \/
      fresh_token path h h' token
  | inl e => nodes h' = nodes h \/ e = WritingToken /\ exists raw, head (draws h) = Some raw /\ torn path (text (hex raw)) h h'
  end.

Lemma load_ends path h : ends (loadOrCreateToken path) h (loaded path h).
Proof.
  unfold loadOrCreateToken. eapply ends_andThen with (R := fun h' x => shows h h' /\ draws h' = draws h /\
    match x with inr content => exists mode, nodes h !! path = Some (RegularFile mode content) | inl _ => True end).
  { fated h; (split_and!; [done|done|]); try done; destruct (nodes h !! path) as [[mode content|]|]; try done; by exists mode. }
  intros h1 x (Hs & Ed & Hx).
  assert (Hcreate : ends (orFail GeneratingToken (ask RandomBytes) (fun raw =>
      orFail WritingToken (ask (WriteFile path (text (hex raw)) 384)) (fun _ => Done (inr (text (hex raw)))))) h1 (loaded path h)).
  { eapply ends_orFail with (R := fun h' y => shows h1 h' /\ match y with inr raw => head (draws h1) = Some raw | inl _ => True end).
    - fated h1; try done; by destruct (draws h1).
    - intros h2 raw (Hs2 & Er). pose proof (shows_trans _ _ _ Hs Hs2) as (E1 & E2 & E3 & E4 & E5 & E6). rewrite Ed in Er.
      unfold orFail, ends. cbn [Threads.alone andThen ask run]. unfold next_fault. destruct (nodes h2 !! path) as [[mode content|mode l]|] eqn:En;
        destruct (faults h2) as [|[|[|n]] ?]; cbn; unfold loaded, fresh_token, torn; cbn; (split_and!; [done..|]); rewrite <- ?E1;
        first [left; congruence
              |right; split; [done|]; exists raw; split; [done|]; by eexists _, _
              |right; exists raw; split_and!; [done|done|]; eexists; split; [reflexivity|congruence]].
    - intros h2 f (Hs2 & _). pose proof (shows_trans _ _ _ Hs Hs2) as (E1 & E2 & E3 & E4 & E5 & E6). split_and!; try done. by left. }
  destruct x as [[]|content]; [exact Hcreate|..]; destruct Hs as (E1 & E2 & E3 & E4 & E5 & E6).
  1-4: by unfold ends; cbn; split_and!; try done; left.
  destruct (Z.ltb_spec 0 (zlen content)); [|exact Hcreate]. unfold ends. cbn. split_and!; try done. left. by split_and!.
Qed.

Lemma token_again path h mode token : faults h = [] -> nodes h !! path = Some (RegularFile mode token) -> 0 < zlen token ->
  Threads.alone run (loadOrCreateToken path) h = (h, inr token).
Proof.
  intros Hf E Hpos. unfold loadOrCreateToken. cbn [Threads.alone andThen ask run].
  unfold next_fault. rewrite Hf, E. by replace (0 <? zlen token) with true by lia.
Qed.

(** The token is made once and kept.  Whatever calls fail, a start that has a token has the
    content of the token file, which is what was there before or the 64 hexadecimal digits of
    32 bytes of randomness in a file that is the owner's alone when there was none; and each
    later start of which no call fails has the same token and changes nothing. *)
Theorem token_is_kept path h : Forall (fun raw => zlen raw = 32) (draws h) ->
  let '(h1, x) := Threads.alone run (loadOrCreateToken path) h in
  match x with
  | inl _ => True
  | inr token => (exists mode, nodes h1 !! path = Some (RegularFile mode token) /\ (nodes h !! path = None -> mode = 384)) /\
      (nodes h1 = nodes h \/ zlen token = 64 /\ exists raw, head (draws h) = Some raw /\ token = text (hex raw)) /\
      forall h2, nodes h2 !! path = nodes h1 !! path -> faults h2 = [] ->
        Threads.alone run (loadOrCreateToken path) h2 = (h2, inr token)
  end.
Proof.
  intros Hdraws. pose proof (load_ends path h) as Hload. unfold ends in Hload.
  destruct (Threads.alone run (loadOrCreateToken path) h) as [h1 [e|token]]; [done|]. destruct Hload as (_ & _ & _ & _ & _ & Hx).
  assert (Hlater : forall mode, nodes h1 !! path = Some (RegularFile mode token) -> 0 < zlen token ->
    forall h2, nodes h2 !! path = nodes h1 !! path -> faults h2 = [] -> Threads.alone run (loadOrCreateToken path) h2 = (h2, inr token)).
  { intros mode E Hpos h2 E2 Hf. apply (token_again path h2 mode); [done|congruence|done]. }
  destruct Hx as [(E & Hpos & mode & Em)|(raw & Er & -> & mode & En & Em)].
  - rewrite <- E in Em. split_and!; [|by left|by apply (Hlater mode)]. exists mode. split; [done|]. rewrite <- E. congruence.
  - assert (Hz : zlen (text (hex raw)) = 64).
    { rewrite hex_length. destruct (draws h); [done|]. injection Er as ->. apply Forall_cons in Hdraws as [-> _]. done. }
    assert (E1 : nodes h1 !! path = Some (RegularFile mode (text (hex raw)))) by (rewrite En; apply lookup_insert_eq).
    split_and!; [by exists mode|right; split; [done|by exists raw]|by apply (Hlater mode); [|lia]].
Qed.

(** ** The socket *)

(** The listeners that are open are among those there were. *)
Definition numbered (h : host) : Prop := forall l, l ∈ listening h -> (l < opened h)%nat.

(** Only what is at [path], and who listens, is changed. *)
Definition elsewhere (path : string) (h h' : host) : Prop :=
  (forall other, other <> path -> nodes h' !! other = nodes h !! other) /\
  announced h' = announced h /\ disk h' = disk h /\ shells h' = shells h.

Lemma elsewhere_shows path h h' : shows h h' -> elsewhere path h h'.
Proof. intros (E1 & E2 & E3 & E4 & E5 & E6). unfold elsewhere. by rewrite E1. Qed.

Definition bound (path : string) (h h' : host) (x : start_error + nat) : Prop :=
  elsewhere path h h' /\
  match x with
  | inr l => nodes h' !! path = Some (SocketFile 384 l) /\ l ∈ listening h'
  | inl e => listening h' = listening h
  end.

Lemma listen_ends path h : numbered h -> ends (listen path) h (bound path h).
Proof.
  intros Hnum. unfold listen.
  eapply ends_andThen with (R := fun h' _ => shows h h'); [by fated h|]. intros h1 answered Ha. pose proof Ha as (_ & El1 & _).
  destruct answered; [by unfold ends; cbn; split; [by apply elsewhere_shows|]|].
  eapply ends_andThen with (R := fun h' x => elsewhere path h h' /\ listening h' = listening h /\ opened h' = opened h).
  { destruct Ha as (E1 & E2 & E3 & E4 & E5 & E6). unfold elsewhere. fated h1; rewrite E1; destruct (nodes h !! path) eqn:En; cbn; rewrite ?E1; split_and!; try done;
      intros other Hne; by rewrite lookup_delete_ne. }
  intros h2 removed (Hb & El2 & Eo2). destruct Hb as (En2 & Ea2 & Ed2 & Es2). clear Ha El1 h1.
  assert (Hstill : forall e, ends (Done (inl e)) h2 (bound path h)) by (intros e; by unfold ends, bound, elsewhere; cbn).
  assert (Hbind : ends (if socketPathLimit <? zlen (text path) then Done (inl PathTooLong)
      else orFail Binding (ask (Listen path)) (fun listener =>
        (let* restricted := ask (Chmod path 384) in
         match restricted with
         | inl _ => let* _ := ask (CloseListener listener path) in Done (inl Restricting)
         | inr _ => Done (inr listener)
         end))) h2 (bound path h)).
  { destruct (socketPathLimit <? zlen (text path)); [apply Hstill|].
    eapply ends_orFail with (R := fun h' x => match x with
      | inr l => elsewhere path h h' /\ nodes h' !! path = Some (SocketFile 511 l) /\ (l ∉ listening h) /\ listening h' = {[l]} ∪ listening h
      | inl _ => elsewhere path h h' /\ listening h' = listening h end).
    - unfold elsewhere. assert (Hnew : opened h2 ∉ listening h) by (rewrite Eo2; intros Hin%Hnum; lia).
      fated h2; destruct (nodes h2 !! path) eqn:En2'; cbn; split_and!; try done; rewrite ?El2; try done;
        first [apply lookup_insert_eq|intros other Hne; rewrite lookup_insert_ne by done; by apply En2].
    - intros h3 l (Hc & E3 & Hl & El3). destruct Hc as (En3 & Ea3 & Ed3 & Es3). unfold bound, elsewhere.
      assert (Hin : l ∈ {[l]} ∪ listening h) by (clear; set_solver).
      assert (Hout : ({[l]} ∪ listening h) ∖ {[l]} = listening h) by (clear -Hl; set_solver).
      fated h3; rewrite ?E3; cbn; split_and!; try done; rewrite ?El3; try done;
        first [apply lookup_insert_eq|intros other Hne; first [rewrite lookup_insert_ne by done|rewrite lookup_delete_ne by done]; by apply En3].
    - intros h3 e (Hc & El3). by split. }
  destruct removed as [[]|[]]; first [exact Hbind|apply Hstill].
Qed.

Lemma listen_refused path h : faults h = [] -> answers_at path h = true -> Threads.alone run (listen path) h = (h, inl AlreadyListening).
Proof. intros Hf Ha. unfold listen. cbn [Threads.alone andThen ask run]. unfold next_fault. by rewrite Hf, Ha. Qed.

Lemma restore_answers reg w : exists reg' outcomes acts,
  snd (restore explain not_started stopping starts clock reg w) = inr (reg', outcomes, acts).
Proof.
  unfold restore. destruct (negb (store reg)); [by eexists _, _, _|]. unfold bind at 1, attempt.
  destruct (list_ids w) as [w1 [e|ids]]; [by eexists _, _, _|]. unfold bind.
  destruct (restore_each_answers explain not_started stopping starts clock ids reg w1) as [[[reg' o] acts] E].
  destruct (restore_each _ _ _ _ _ _ _ w1) as [w2 a]. cbn in E. subst a. by eexists _, _, _.
Qed.

(** ** A whole start *)

Section whole.
Context (me : nat) (home runtimeRoot shell processLabel sidecarName : string) (after seedGeneration seedNext : Z).

Abbreviation tokenPath := (TokenPath runtimeRoot sidecarName).
Abbreviation address := (ControlSocketPath runtimeRoot sidecarName).
Abbreviation started := (start me home runtimeRoot shell processLabel sidecarName after seedGeneration seedNext).

(** The registry before [restore]. *)
Abbreviation before := (attachStore (newRegistry shell after seedGeneration seedNext)).

(** What [restore] made of the store of [h]. *)
Definition stood_up (h h' : host) (reg : registry) : Prop := exists outcomes acts,
  restore explain not_started stopping starts clock before (restarted (disk h)) = (disk h', inr (reg, outcomes, acts)) /\
  shells h' = shells h ++ map (pair me) (started_shells acts).

Lemma restore_ends h : ends (ask (RestoreAll me before)) h (fun h' x =>
  stood_up h h' (fst x) /\ nodes h' = nodes h /\ listening h' = listening h /\ opened h' = opened h /\ announced h' = announced h /\ faults h' = faults h).
Proof.
  unfold ends, stood_up. cbn [Threads.alone ask run]. destruct (restore_answers before (restarted (disk h))) as (reg & outs & acts & E).
  destruct (restore _ _ _ _ _ _ _) as [w a]. cbn in E. subst a. cbn. split_and!; try done. by exists outs, acts.
Qed.

(** Where a start is before its socket, if it gets there: with a token, and restored. *)
Definition ready_for (h h' : host) (token : octets) (reg : registry) : Prop :=
  stood_up h h' reg /\ listening h' = listening h /\ opened h' = opened h /\ announced h' = announced h /\
  exists mode, nodes h' !! tokenPath = Some (RegularFile mode token).

(** A start that did not announce itself. *)
Definition silent (h h' : host) : Prop := announced h' = announced h /\ listening h' = listening h.

Lemma start_ends h Q : numbered h ->
  (forall h' e, silent h h' -> Q h' (inl e)) ->
  (forall h' token reg, ready_for h h' token reg -> numbered h' ->
     ends (let* control := listen address in
           match control with
           | inl e => Done (inl e)
           | inr listener => let* _ := ask (Announce me (mkAnnouncement address processLabel token)) in
                             Done (inr (mkServing listener reg token))
           end) h' Q) ->
  ends started h Q.
Proof.
  intros Hnum Hsilent Hready. unfold start.
  eapply ends_orFail; [apply mkdir_ends| |intros h' f (_ & E2 & _ & E4 & _); by apply Hsilent].
  intros h1 [] S1. eapply ends_andThen; [apply load_ends|]. intros h2 x (L1 & L2 & L3 & L4 & L5 & Hx).
  destruct S1 as (E1 & E2 & E3 & E4 & E5 & E6).
  destruct x as [e|token]; [apply Hsilent; split; congruence|].
  assert (Htoken : exists mode, nodes h2 !! tokenPath = Some (RegularFile mode token)).
  { destruct Hx as [(E & _ & mode & Em)|(raw & _ & -> & mode & En & _)]; exists mode; [by rewrite E|rewrite En; apply lookup_insert_eq]. }
  eapply ends_orFail; [apply mkdir_ends| |intros h' f (_ & F2 & _ & F4 & _); apply Hsilent; split; congruence].
  intros h3 [] (F1 & F2 & F3 & F4 & F5 & F6). eapply ends_andThen; [apply raise_ends|].
  intros h4 [] [(G1 & G2 & G3 & G4 & G5 & G6) _]. eapply ends_andThen; [apply restore_ends|].
  intros h5 [reg outs] ((outcomes & acts & Er & Es) & R1 & R2 & R3 & R4 & _). cbn [fst] in *. apply Hready.
  - split_and!; [exists outcomes, acts; split; [rewrite <- Er; do 2 f_equal; congruence|congruence]|congruence..|].
    destruct Htoken as [mode Em]. exists mode. congruence.
  - unfold numbered. replace (listening h5) with (listening h) by congruence. replace (opened h5) with (opened h) by congruence. done.
Qed.

(** Calls that leave the listeners, the announcements, the sessions and the shells alone, and
    those that leave the sessions and the shells alone. *)
Definition before_serving (B : Type) (c : sys B) : Prop :=
  match c with Listen _ | CloseListener _ _ | Announce _ _ | RestoreAll _ _ => False | _ => True end.

Definition past_restoring (B : Type) (c : sys B) : Prop := match c with RestoreAll _ _ => False | _ => True end.

Lemma before_serving_keeps B (c : sys B) h h' : before_serving B c ->
  silent h h' /\ disk h' = disk h /\ shells h' = shells h ->
  silent h (fst (run B c h')) /\ disk (fst (run B c h')) = disk h /\ shells (fst (run B c h')) = shells h.
Proof.
  intros Hc Hs. unfold silent in *. destruct c; try done; cbn [run]; unfold next_fault; destruct (faults h') as [|[|[|?]] ?]; try done; cbn;
    try (by destruct (nodes h' !! path) as [[]|]); by destruct (draws h').
Qed.

Lemma past_restoring_keeps B (c : sys B) h h' : past_restoring B c -> (exists reg, stood_up h h' reg) ->
  exists reg, stood_up h (fst (run B c h')) reg.
Proof.
  intros Hc [reg Hs]. exists reg. unfold stood_up in *. destruct c; try done; cbn [run]; try done; unfold next_fault;
    destruct (faults h') as [|[|[|?]] ?]; try done; cbn; try (by destruct (nodes h' !! path) as [[]|]); by destruct (draws h').
Qed.

(** Nobody is told and nothing listens until the sessions have been stood up. *)
Definition restored_first (h h' : host) : Prop := silent h h' \/ exists reg, stood_up h h' reg.

Lemma listen_only path : only past_restoring (listen path).
Proof.
  split; [done|]. intros [|]; [done|]. split; [done|]. intros [[]|[]]; try done; cbn;
    (destruct (socketPathLimit <? zlen (text path)); [done|]); (split; [done|]); (intros [e|l]; [done|]); (split; [done|]);
    by intros [e|[]].
Qed.

Lemma load_only path : only before_serving (loadOrCreateToken path).
Proof.
  assert (Hcreate : only before_serving (orFail GeneratingToken (ask RandomBytes) (fun raw =>
      orFail WritingToken (ask (WriteFile path (text (hex raw)) 384)) (fun _ => Done (inr (text (hex raw))))))).
  { split; [done|]. intros [e|raw]; [done|]. split; [done|]. by intros [e|[]]. }
  split; [done|]. intros [[]|content]; cbn; first [exact Hcreate|exact I|idtac].
  destruct (0 <? zlen content); [exact I|exact Hcreate].
Qed.

Lemma raise_only : only before_serving (raiseOpenFileLimit me).
Proof. split; [done|]. intros [[soft hard]|]; [|done]. cbn. by destruct (hard <=? soft). Qed.

Lemma start_passes h : passes run (restored_first h) started h.
Proof.
  set (J h' := silent h h' /\ disk h' = disk h /\ shells h' = shells h).
  assert (HJ : forall h', J h' -> restored_first h h') by (intros h' [? _]; by left).
  assert (HK : forall B (c : sys B) h', before_serving B c -> J h' -> J (fst (run B c h'))) by (intros B c h'; apply before_serving_keeps).
  assert (Hstop : forall e h', J h' -> passes run (restored_first h) (Done (inl e) : program (start_error + serving)) h') by (by intros e h' ?%HJ).
  unfold start, orFail. apply (passes_then run before_serving (restored_first h) J); [done|done|by split| |done].
  intros h1 [e|[]] J1; [by apply Hstop|]. apply (passes_then run before_serving (restored_first h) J); [done|done|apply load_only| |done].
  intros h2 [e|token] J2; [by apply Hstop|]. apply (passes_then run before_serving (restored_first h) J); [done|done|by split| |done].
  intros h3 [e|[]] J3; [by apply Hstop|]. apply (passes_then run before_serving (restored_first h) J); [done|done|apply raise_only| |done].
  intros h4 [] J4. split; [by apply HJ|]. pose proof (restore_ends h4) as Hr. unfold ends in Hr. cbn [Threads.alone andThen ask] in *.
  destruct (run _ (RestoreAll me before) h4) as [h5 [reg outs]]. destruct Hr as [(outcomes & acts & Er & Es) _].
  destruct J4 as (_ & Ed & Esh).
  assert (H5 : exists reg, stood_up h h5 reg) by (exists reg, outcomes, acts; cbn in Er; by rewrite <- Ed, <- Esh).
  apply (passes_then run past_restoring (restored_first h) (fun h' => exists reg, stood_up h h' reg)); [by right|..|done].
  - intros B c h'. apply past_restoring_keeps.
  - apply listen_only.
  - intros h6 [e|l] H6; [split; [by right|done]|].
    apply (passes_only run past_restoring _ (fun h' => exists reg, stood_up h h' reg)); [by right|intros B c h'; apply past_restoring_keeps|by split|done].
Qed.

(** C23: a daemon that announced itself answers, and its sessions were stood up before.
    Whichever calls of a start fail, either it announces nothing and leaves no listener of
    its own behind; or it announces, once, the address of the control socket with the token
    that is in the token file, when that socket is bound to its own listener, is the owner's
    alone and answers whoever dials it.  At each moment of the start, failed or not, either
    nothing was announced and nobody listens anew, or the sessions of the store have been
    stood up already: the restore comes before the socket and the announcement. *)
Theorem announced_daemon_answers h : tokenPath <> address -> numbered h ->
  let '(h1, x) := Threads.alone run started h in
  match x with
  | inr s =>
      announced h1 = announced h ++ [(me, mkAnnouncement address processLabel (servingToken s))] /\
      nodes h1 !! address = Some (SocketFile 384 (servingListener s)) /\ answers_at address h1 = true /\
      (exists mode, nodes h1 !! tokenPath = Some (RegularFile mode (servingToken s))) /\
      stood_up h h1 (servingRegistry s)
  | inl _ => announced h1 = announced h /\ listening h1 = listening h
  end /\
  passes run (restored_first h) started h.
Proof.
  intros Hne Hnum. enough (Hend : ends started h (fun h1 x => match x with
    | inr s =>
      announced h1 = announced h ++ [(me, mkAnnouncement address processLabel (servingToken s))] /\
      nodes h1 !! address = Some (SocketFile 384 (servingListener s)) /\ answers_at address h1 = true /\
      (exists mode, nodes h1 !! tokenPath = Some (RegularFile mode (servingToken s))) /\
      stood_up h h1 (servingRegistry s)
    | inl _ => announced h1 = announced h /\ listening h1 = listening h
    end)).
  { unfold ends in Hend. destruct (Threads.alone run started h). split; [exact Hend|apply start_passes]. }
  apply (start_ends h _ Hnum); [by intros h' e ?|].
  intros h1 token reg ((outcomes & acts & Er & Es) & E1 & E2 & E3 & mode & Em) Hnum1.
  eapply ends_andThen; [by apply listen_ends|]. intros h2 x [(B1 & B2 & B3 & B4) Hx].
  destruct x as [e|l]; [unfold ends; cbn; split; congruence|]. destruct Hx as [Hl Hin].
  unfold ends. cbn. split_and!; [by rewrite B2, E3|done| | |].
  - unfold answers_at. cbn. rewrite Hl. by apply bool_decide_eq_true.
  - exists mode. by rewrite B1.
  - exists outcomes, acts. cbn. by rewrite B3, B4.
Qed.

(** C38: a start beside a daemon that serves is refused, and by then it has stood up the sessions
    of that daemon: [restore] comes before the socket, so the records and the shells are
    those of a start that went through, and nothing takes them back. *)
Theorem refused_start_has_restored h mode token : faults h = [] ->
  nodes h !! tokenPath = Some (RegularFile mode token) -> 0 < zlen token -> answers_at address h = true ->
  let '(h1, x) := Threads.alone run started h in
  x = inl AlreadyListening /\ nodes h1 = nodes h /\ listening h1 = listening h /\
  exists reg, stood_up h h1 reg.
Proof.
  intros Hf Htoken Hpos Halive.
  apply (ends_mono started h (fun h1 x => x = inl AlreadyListening /\ nodes h1 = nodes h /\ listening h1 = listening h /\ exists reg, stood_up h h1 reg)); [done|].
  unfold start. eapply ends_orFail; [by apply mkdir_works| |by intros h' f (_ & _ & ?)].
  intros h1 [] ((E1 & E2 & E3 & E4 & E5 & E6) & F1 & _).
  eapply ends_andThen with (R := fun h2 x => h2 = h1 /\ x = inr token).
  { unfold ends. by rewrite (token_again tokenPath h1 mode token F1 ltac:(congruence) Hpos). }
  intros h2 x [-> ->]. eapply ends_orFail; [by apply mkdir_works| |by intros h' f (_ & _ & ?)].
  intros h3 [] ((G1 & G2 & G3 & G4 & G5 & G6) & F3 & _). eapply ends_andThen; [by apply raise_works|].
  intros h4 [] ((K1 & K2 & K3 & K4 & K5 & K6) & F4). eapply ends_andThen; [apply restore_ends|].
  intros h5 [reg outs] ((outcomes & acts & Er & Es) & R1 & R2 & R3 & R4 & F5).
  assert (En : nodes h5 = nodes h) by congruence. assert (El : listening h5 = listening h) by congruence.
  unfold ends. rewrite alone_andThen, listen_refused by (congruence || (unfold answers_at in *; by rewrite En, El)).
  cbn [fst] in *. split_and!; [done..|]. exists reg, outcomes, acts. split; [rewrite <- Er; do 2 f_equal; congruence|congruence].
Qed.

End whole.

(** ** Several starts at once *)

Section beside.
Context (runtimeRoot sidecarName : string).

Abbreviation tokenPath := (TokenPath runtimeRoot sidecarName).
Abbreviation address := (ControlSocketPath runtimeRoot sidecarName).
Abbreviation start_machine := (machine (act := sys) (lock := Empty_set) (state := host) (kind := nat) (R := start_error + serving)).

(** Daemons of one identity are started at any time, and take turns in any order. *)
Inductive start_step : start_machine -> start_machine -> Prop :=
| daemon_starts me home shell processLabel after seedGeneration seedNext m :
    start_step m (Threads.starts me (start me home runtimeRoot shell processLabel sidecarName after seedGeneration seedNext) m)
| daemon_turn t m m' : turn run t m = Some m' -> start_step m m'.

(** Calls that leave a socket alone, and what a dial answers while it is there. *)
Definition harmless (B : Type) (c : sys B) : Prop :=
  match c with
  | WriteFile path _ _ => path <> address
  | RemoveFile _ | Listen _ | Chmod _ _ | CloseListener _ _ | Announce _ _ => False
  | _ => True
  end.

Definition plausible (B : Type) (c : sys B) : B -> Prop :=
  match c in sys B return B -> Prop with
  | Dial path => fun x => path = address -> x = true
  | _ => fun _ => True
  end.

Fixpoint meek {A} (Q : A -> Prop) (p : program A) : Prop :=
  match p with
  | Done x => Q x
  | Call c k => harmless _ c /\ forall x, plausible _ c x -> meek Q (k x)
  | Acquire _ _ | Release _ _ => False
  end.

Lemma meek_andThen {A B} R Q (p : program A) (f : A -> program B) :
  meek R p -> (forall x, R x -> meek Q (f x)) -> meek Q (andThen p f).
Proof.
  intros Hp Hf. induction p as [x|C c k IH|l k IH|l k IH]; cbn in *; [auto| |done|done].
  destruct Hp as [Hc Hk]. split; [done|]. intros x Hx. by apply IH, Hk.
Qed.

Definition failed {A} (x : start_error + A) : Prop := match x with inl _ => True | inr _ => False end.

Lemma start_meek me home shell processLabel after seedGeneration seedNext : tokenPath <> address ->
  meek failed (start me home runtimeRoot shell processLabel sidecarName after seedGeneration seedNext).
Proof.
  intros Hne. unfold start, orFail. split; [done|]. intros [e|[]] _; [done|].
  apply (meek_andThen (fun _ => True) failed (loadOrCreateToken tokenPath)).
  { assert (Hcreate : meek (fun _ => True) (orFail GeneratingToken (ask RandomBytes) (fun raw =>
      orFail WritingToken (ask (WriteFile tokenPath (text (hex raw)) 384)) (fun _ => Done (inr (text (hex raw))))))).
    { split; [done|]. intros [e|raw] _; [done|]. split; [done|]. by intros [e|[]] _. }
    split; [done|]. intros [[]|content] _; first [exact Hcreate|exact I|idtac].
    cbn. destruct (0 <? zlen content); [exact I|exact Hcreate]. }
  intros [e|token] _; [done|]. split; [done|]. intros [e|[]] _; [done|].
  apply (meek_andThen (fun _ => True) failed (raiseOpenFileLimit me)).
  { split; [done|]. intros [[soft hard]|] _; [|exact I].
    cbn. destruct (hard <=? soft); [exact I|]. split; [done|]. by intros [] _. }
  intros [] _. split; [done|]. intros [reg outs] _. split; [done|]. intros x Hx. by rewrite Hx.
Qed.

(** The daemon that serves: its socket is there and open, and what was announced. *)
Definition serves (mode : Z) (l : nat) (lines : list (nat * announcement)) (h : host) : Prop :=
  faults h = [] /\ nodes h !! address = Some (SocketFile mode l) /\ l ∈ listening h /\ announced h = lines.

Lemma harmless_serves mode l lines B (c : sys B) h : harmless B c -> serves mode l lines h ->
  let '(h', x) := run B c h in serves mode l lines h' /\ plausible B c x.
Proof.
  intros Hc (Hf & Hn & Hl & Ha). destruct c; cbn in *; unfold next_fault; rewrite ?Hf; try done.
  - destruct (draws h); by split.
  - destruct (nodes h !! path) as [[m content|m k]|] eqn:E; cbn; split; try done; unfold serves; cbn; rewrite ?lookup_insert_ne by done; done.
  - split; [done|]. intros ->. unfold answers_at. rewrite Hn. by apply bool_decide_eq_true.
  - by destruct (restore _ _ _ _ _ _ _) as [w [e|[[reg' outs] acts]]].
Qed.

(** C22: a daemon that serves is not disturbed by later starts.  As long as no call fails - a
    dial that fails is taken for an address nobody listens at - however many daemons of its
    identity are started while it serves, and however they take turns, none of them serves:
    each that ends ends in an error, the socket stays its socket and nothing is announced. *)
Theorem later_starts_are_refused mode l lines h m : tokenPath <> address -> serves mode l lines h ->
  rtc start_step (mkMachine h ∅ []) m ->
  serves mode l lines (shared m) /\ forall t me x, threads m !! t = Some (me, Done x) -> exists e, x = inl e.
Proof.
  intros Hne Hserves Hrun.
  assert (Hinv : serves mode l lines (shared m) /\ Forall (fun kp => meek failed kp.2) (threads m)).
  { assert (Hstep : forall m m', start_step m m' ->
      serves mode l lines (shared m) /\ Forall (fun kp => meek failed kp.2) (threads m) ->
      serves mode l lines (shared m') /\ Forall (fun kp => meek failed kp.2) (threads m')).
    { clear m Hrun. intros m m' Hs [Hh Hts]. destruct Hs as [me home shell label a g n m|t m m' Ht].
      - split; [done|]. cbn. apply Forall_app. split; [done|]. constructor; [|done]. by apply start_meek.
      - unfold turn in Ht. destruct (threads m !! t) as [[k [x|B c next|[]|[]]]|] eqn:Et; try done.
        pose proof (Forall_lookup_1 _ _ _ _ Hts Et) as [Hc Hnext]. pose proof (harmless_serves mode l lines B c _ Hc Hh) as Hr.
        destruct (run B c (shared m)) as [h' x]. injection Ht as <-. destruct Hr as [Hh' Hx]. split; [done|].
        cbn. apply Forall_insert; [done|]. by apply Hnext. }
    remember (mkMachine h ∅ []) as m0 eqn:E0. assert (H0' : serves mode l lines (shared m0) /\ Forall (fun kp => meek failed kp.2) (threads m0)) by (by subst m0).
    clear E0. revert H0'. induction Hrun as [m0|m0 m1 m2 Hs _ IH]; [done|]. intros Hm. by apply IH, (Hstep m0). }
  destruct Hinv as [Hh Hts]. split; [done|]. intros t me x Et. pose proof (Forall_lookup_1 _ _ _ _ Hts Et) as Hx. cbn in Hx.
  destruct x as [e|s]; [by exists e|done].
Qed.

End beside.

(** *** Two starts while none serves *)

Abbreviation listen_machine := (machine (act := sys) (lock := Empty_set) (state := host) (kind := nat) (R := start_error + nat)).

(** Two daemons at their sockets. *)
Definition two_listens (path : string) (h : host) : listen_machine := mkMachine h ∅ [(0%nat, listen path); (1%nat, listen path)].

(** Both find nobody; the first binds its socket; the second clears it away and binds its own. *)
Definition both_dial_first : list nat := [0; 1; 0; 0; 0; 1; 1; 1]%nat.

(** C39: two daemons that start at once both serve, and the first cannot be reached.  Each has
    dialled before the other was bound, so each clears the path and binds its own socket; both
    listeners are open, the path leads to the second, and when the first one stops it unlinks
    the path of the second, which then cannot be reached either. *)
Theorem two_starts_orphan_a_daemon path h : faults h = [] -> nodes h !! path = None -> zlen (text path) <= socketPathLimit ->
  let first := opened h in let second := S (opened h) in
  let m := turns run both_dial_first (two_listens path h) in
  threads m = [(0%nat, Done (inr first)); (1%nat, Done (inr second))] /\
  first ∈ listening (shared m) /\ second ∈ listening (shared m) /\
  nodes (shared m) !! path = Some (SocketFile 384 second) /\
  let stopped := fst (run _ (CloseListener first path) (shared m)) in
  second ∈ listening stopped /\ answers_at path stopped = false.
Proof.
  intros Hf Hn Hlen first second m.
  assert (Edial : forall h, faults h = [] -> nodes h !! path = None -> run _ (Dial path) h = (h, false)).
  { intros k Hk En. cbn. unfold next_fault. rewrite Hk. unfold answers_at. by rewrite En. }
  assert (Esmall : (socketPathLimit <? zlen (text path)) = false) by lia.
  set (hb := h <| nodes := <[path := SocketFile 511 first]> (nodes h) |> <| listening := {[first]} ∪ listening h |> <| opened := second |>).
  set (hc := hb <| nodes := <[path := SocketFile 384 first]> (nodes hb) |>).
  set (hd := hc <| nodes := delete path (nodes hc) |>).
  set (he := hd <| nodes := <[path := SocketFile 511 second]> (nodes hd) |> <| listening := {[second]} ∪ listening hd |> <| opened := S second |>).
  set (hf := he <| nodes := <[path := SocketFile 384 second]> (nodes he) |>).
  assert (Em : m = mkMachine hf ∅ [(0%nat, Done (inr first)); (1%nat, Done (inr second))]).
  { subst m. unfold both_dial_first, two_listens.
    erewrite turns_ask; [|reflexivity|by apply Edial]. cbn [shared locks threads list_insert insert andThen ask].
    erewrite turns_ask; [|reflexivity|by apply Edial]. cbn [shared locks threads list_insert insert andThen ask].
    erewrite turns_ask with (s := h) (x := inl NotExist); [|reflexivity|cbn; unfold next_fault; by rewrite Hf, Hn].
    cbn [shared locks threads list_insert insert andThen ask]. rewrite Esmall.
    erewrite turns_ask with (s := hb) (x := inr first); [|reflexivity|cbn; unfold next_fault; by rewrite Hf, Hn].
    cbn [shared locks threads list_insert insert andThen ask].
    erewrite turns_ask with (s := hc) (x := inr tt); [|reflexivity|cbn; unfold next_fault; cbn; rewrite Hf; cbn; by rewrite lookup_insert_eq].
    cbn [shared locks threads list_insert insert andThen ask].
    erewrite turns_ask with (s := hd) (x := inr tt); [|reflexivity|cbn; unfold next_fault; cbn; rewrite Hf; cbn; by rewrite lookup_insert_eq].
    cbn [shared locks threads list_insert insert andThen ask].
    erewrite turns_ask with (s := he) (x := inr second); [|reflexivity|cbn; unfold next_fault; cbn; rewrite Hf; cbn; by rewrite lookup_delete_eq].
    cbn [shared locks threads list_insert insert andThen ask].
    erewrite turns_ask with (s := hf) (x := inr tt); [|reflexivity|cbn; unfold next_fault; cbn; rewrite Hf; cbn; by rewrite lookup_insert_eq].
    done. }
  rewrite Em. clearbody m. cbn [threads shared]. assert (Hne : first <> second) by (unfold first, second; lia).
  assert (El : listening hf = {[second]} ∪ ({[first]} ∪ listening h)) by done.
  split_and!; [done|..].
  - rewrite El. apply elem_of_union_r, elem_of_union_l. by apply elem_of_singleton.
  - rewrite El. apply elem_of_union_l. by apply elem_of_singleton.
  - apply lookup_insert_eq.
  - cbn [fst run]. change (second ∈ listening hf ∖ {[first]}). rewrite El. apply elem_of_difference. split.
    + apply elem_of_union_l. by apply elem_of_singleton.
    + rewrite elem_of_singleton. by intros ->.
  - unfold answers_at. cbn. by rewrite lookup_delete_eq.
Qed.

End start.

(** ** Concrete starts *)

#[local] Existing Instance sample_contract.
#[local] Existing Instance sample_contract_laws.
#[local] Existing Instance Concrete.platform.
#[local] Existing Instance Concrete.laws.

Definition sample_token (root name : string) : string := (root ++ "/" ++ name ++ ".token")%string.
Definition sample_socket (root name : string) : string := (root ++ "/" ++ name ++ ".sock")%string.

Abbreviation sample_run := (run (fun e => match e with NotExist => "not there" | _ => "failed" end) "no shell" "stopping" (fun _ => true) 200).
Abbreviation sample_start := (start sample_token sample_socket 4 "/home/x" "/run/x" "/bin/sh" "label" "pty" 1800 5 9).

Abbreviation sample_restored_first := (restored_first (fun e => match e with NotExist => "not there" | _ => "failed" end) "no shell" "stopping" (fun _ => true) 200
  4 "/bin/sh" 1800 5 9).

(** A session that was stopped. *)
Definition stopped_record : sessionRecord := Concrete.record <| EndedAtUnixMs := Some 50 |>.

(** Nothing is there but the session. *)
Definition first_host : host :=
  mkHost ∅ ∅ ∅ 0 {[4%nat := (256, 4096)]} [replicate 32 Byte.x41] [] (mkWorld (Concrete.directory_of stopped_record) ∅ [] []) [] [].

(** A daemon serves. *)
Definition serving_host : host :=
  first_host <| nodes := {["/run/x/pty.token" := RegularFile 384 (text "secret"); "/run/x/pty.sock" := SocketFile 384 0]} |>
             <| listening := {[0%nat]} |> <| opened := 1%nat |>.

Lemma token_is_kept_witness :
  let '(h1, x) := Threads.alone sample_run (loadOrCreateToken "/run/x/pty.token") first_host in
  match x with
  | inl _ => True
  | inr token => (exists mode, nodes h1 !! "/run/x/pty.token" = Some (RegularFile mode token) /\
                    (nodes first_host !! "/run/x/pty.token" = None -> mode = 384)) /\
      (nodes h1 = nodes first_host \/ zlen token = 64 /\ exists raw, head (draws first_host) = Some raw /\ token = text (hex raw)) /\
      forall h2, nodes h2 !! "/run/x/pty.token" = nodes h1 !! "/run/x/pty.token" -> faults h2 = [] ->
        Threads.alone sample_run (loadOrCreateToken "/run/x/pty.token") h2 = (h2, inr token)
  end.
Proof.
  apply (token_is_kept (fun e => match e with NotExist => "not there" | _ => "failed" end)%string "no shell" "stopping" (fun _ => true) 200 "/run/x/pty.token" first_host).
  by repeat constructor.
Defined.

Lemma announced_daemon_answers_witness :
  let '(h1, x) := Threads.alone sample_run sample_start first_host in
  exists s, x = inr s /\
    announced h1 = [(4%nat, mkAnnouncement "/run/x/pty.sock" "label" (servingToken s))] /\
    answers_at "/run/x/pty.sock" h1 = true /\ is_Some (sessions (servingRegistry s) !! 7) /\
    passes sample_run (sample_restored_first first_host) sample_start first_host.
Proof.
  pose proof (announced_daemon_answers (fun e => match e with NotExist => "not there" | _ => "failed" end)%string "no shell" "stopping" (fun _ => true) 200
    sample_token sample_socket 4 "/home/x" "/run/x" "/bin/sh" "label" "pty" 1800 5 9 first_host ltac:(done) ltac:(by intros l Hl)) as Ha.
  assert (E : match snd (Threads.alone sample_run sample_start first_host) with
    | inr s => bool_decide (is_Some (sessions (servingRegistry s) !! 7)) | inl _ => false end = true) by (vm_compute; reflexivity).
  destruct (Threads.alone sample_run sample_start first_host) as [h1 [e|s]]; [discriminate E|]. apply bool_decide_eq_true in E.
  destruct Ha as ((Ea & _ & Hl & _) & Hp). exists s. split_and!; [done|exact Ea|exact Hl|exact E|exact Hp].
Defined.

(** The record loses the mark of its end, and a shell starts. *)
Lemma refused_start_has_restored_witness :
  let '(h1, x) := Threads.alone sample_run sample_start serving_host in
  x = inl AlreadyListening /\ nodes h1 = nodes serving_host /\ length (shells h1) = 1%nat /\
  (EndedAtUnixMs <$> (fs (disk serving_host) !! recordPath 7 ≫= Unmarshal)) = Some (Some 50) /\
  (EndedAtUnixMs <$> (fs (disk h1) !! recordPath 7 ≫= Unmarshal)) = Some None.
Proof.
  pose proof (refused_start_has_restored (fun e => match e with NotExist => "not there" | _ => "failed" end)%string "no shell" "stopping" (fun _ => true) 200
    sample_token sample_socket 4 "/home/x" "/run/x" "/bin/sh" "label" "pty" 1800 5 9 serving_host 384 (text "secret")
    eq_refl ltac:(vm_compute; reflexivity) ltac:(vm_compute; reflexivity) ltac:(vm_compute; reflexivity)) as Ha.
  assert (E1 : length (shells (fst (Threads.alone sample_run sample_start serving_host))) = 1%nat) by (vm_compute; reflexivity).
  assert (E2 : (EndedAtUnixMs <$> (fs (disk (fst (Threads.alone sample_run sample_start serving_host))) !! recordPath 7 ≫= Unmarshal)) = Some None)
    by (vm_compute; reflexivity).
  destruct (Threads.alone sample_run sample_start serving_host) as [h1 x]. destruct Ha as (Ex & En & _).
  split_and!; [done|done|exact E1|vm_compute; reflexivity|exact E2].
Defined.

(** A start beside the daemon that serves, from its first turn to its end. *)
Abbreviation refused_start := (turns sample_run (replicate 8 0%nat) (Threads.starts 4%nat sample_start (mkMachine serving_host ∅ []))).

Lemma later_starts_are_refused_witness :
  serves sample_socket "/run/x" "pty" 384 0 [] (shared refused_start) /\
  threads refused_start = [(4%nat, Done (inl AlreadyListening))] /\
  forall t me x, threads refused_start !! t = Some (me, Done x) -> exists e, x = inl e.
Proof.
  pose proof (later_starts_are_refused (fun e => match e with NotExist => "not there" | _ => "failed" end)%string "no shell" "stopping" (fun _ => true) 200
    sample_token sample_socket "/run/x" "pty" 384 0 [] serving_host refused_start ltac:(done)) as Hl.
  destruct Hl as [Hs Hd].
  - split_and!; [done|vm_compute; reflexivity|vm_compute; reflexivity|done].
  - eapply rtc_l; [by apply daemon_starts|]. apply (rtc_subrel (moves sample_run)); [|apply turns_moves].
    intros a b [t Ht]. by apply (daemon_turn _ _ _ _ _ _ _ _ _ t).
  - split_and!; [exact Hs|vm_compute; reflexivity|exact Hd].
Defined.

Lemma two_starts_orphan_a_daemon_witness :
  let m := turns sample_run both_dial_first (two_listens "/run/x/pty.sock" first_host) in
  threads m = [(0%nat, Done (inr 0%nat)); (1%nat, Done (inr 1%nat))] /\
  answers_at "/run/x/pty.sock" (fst (sample_run _ (CloseListener 0 "/run/x/pty.sock") (shared m))) = false.
Proof.
  destruct (two_starts_orphan_a_daemon (fun e => match e with NotExist => "not there" | _ => "failed" end)%string "no shell" "stopping" (fun _ => true) 200
    "/run/x/pty.sock" first_host eq_refl eq_refl ltac:(vm_compute; discriminate)) as (Ht & _ & _ & _ & _ & Hn).
  split; [exact Ht|exact Hn].
Defined.

(** A first start whose write of the token fails after five bytes answers an error, and the next
    one takes the five bytes for its token. *)
Example torn_token_is_taken :
  let torn_host := first_host <| faults := [Works; Works; Fails 6] |> in
  let '(h1, x) := Threads.alone sample_run (loadOrCreateToken "/run/x/pty.token") torn_host in
  x = inl WritingToken /\
  snd (Threads.alone sample_run (loadOrCreateToken "/run/x/pty.token") h1) = inr (text "41414").
Proof. vm_compute. done. Qed.
