(* ===== verification/Serving.v ===== *)
(** * A daemon that serves, and its stop (main.go [run], [accept], [sweepAbandoned])

    Once a start announced itself three goroutines are left: one accepts connections and
    gives each a goroutine of its own, one sweeps, and [run] waits for the signal, upon which
    it ends the sweeps, closes the listener and stops the sessions.  A step is one of them at
    its next call, or anything that acts on the daemon ([Daemon.daemon_step]). *)

From S2P Require Import Prelude Contract OutputRing Inventory ProcessWatch Store Session Monitor Registry Control Connection Daemon.

(** ** State *)

(** Where [run] stands: it waits for the signal, has ended the sweeps, has closed the
    listener, or has returned. *)
Inductive run_pc := Waiting | SweepsEnded | ListenerClosed | Returned.

(** [backlog] are the connections the system took and [Accept] did not yet give; those that
    are in it when the listener closes are [reset].  [dialled] is everyone who dialled. *)
Record front W := mkFront {
  core : daemon W;
  listening : bool;
  accepting : bool;
  sweeping : bool;
  run_at : run_pc;
  dialled : list nat;
  serving : list nat;
  backlog : list nat;
  reset : list nat
}.

#[global] Arguments mkFront {_}.
#[global] Arguments core {_}.
#[global] Arguments listening {_}.
#[global] Arguments accepting {_}.
#[global] Arguments sweeping {_}.
#[global] Arguments run_at {_}.
#[global] Arguments dialled {_}.
#[global] Arguments serving {_}.
#[global] Arguments backlog {_}.
#[global] Arguments reset {_}.

#[export] Instance front_settable W : Settable (front W) :=
  fun s => mkFront (core s) (listening s) (accepting s) (sweeping s) (run_at s) (dialled s) (serving s) (backlog s) (reset s).

Section front.
Context `{PtyContractLaws} `{ControlContract} `{Platform} {Raw : Type} `{Wire Raw} {W : Type} `{ProcessTreeWatch W}.
Context (goos : string) (toUpper : string -> string).
Context (identity processLabel : string) (daemonPID : Z).

Abbreviation front := (front W).
Abbreviation around := (around W).
Abbreviation daemon_step := (daemon_step goos toUpper identity processLabel daemonPID).

(** ** The goroutines *)

(** The system takes a connection, unless it has no room for another one that waits. *)
Definition dial (c : nat) (s : front) : option front :=
  if listening s then Some (s <| dialled := dialled s ++ [c] |> <| backlog := backlog s ++ [c] |>) else None.

(** The loop of [accept]; [None] when it waits or has returned.  [ok] is whether the call of
    the system works. *)
Definition accept_turn (ok : bool) (s : front) : option front :=
  if negb (accepting s) then None
  else if negb (listening s) then Some (s <| accepting := false |>)
  else if negb ok then Some (s <| accepting := false |>)
  else match backlog s with
  | [] => None
  | c :: waiting => Some (s <| serving := serving s ++ [c] |> <| backlog := waiting |>)
  end.

(** The loop of [sweepAbandoned].  When the channel is closed and the ticker ticked, either
    may be taken. *)
Definition sweep_turn (ticked : bool) (out : around) (s : front) : option front :=
  if negb (sweeping s) then None
  else if ticked then Some (s <| core := sweep out (core s) |>)
  else match run_at s with
  | Waiting => None
  | _ => Some (s <| sweeping := false |>)
  end.

(** [run] from the wait for the signal on. *)
Definition run_turn (out : around) (s : front) : option front :=
  match run_at s with
  | Waiting => Some (s <| run_at := SweepsEnded |>)
  | SweepsEnded => Some (s <| listening := false |> <| reset := backlog s |> <| backlog := [] |> <| run_at := ListenerClosed |>)
  | ListenerClosed => Some (s <| core := stops out (core s) |> <| run_at := Returned |>)
  | Returned => None
  end.

(** The turns [run] has left. *)
Definition runs_left (s : front) : nat :=
  match run_at s with Waiting => 3 | SweepsEnded => 2 | ListenerClosed => 1 | Returned => 0 end.

Inductive front_step : front -> front -> Prop :=
| f_dials c s s' : dial c s = Some s' -> front_step s s'
| f_accepts ok s s' : accept_turn ok s = Some s' -> front_step s s'
| f_sweeps ticked out s s' : covers (order out) (registry_ (core s)) -> sweep_turn ticked out s = Some s' -> front_step s s'
| f_runs out s s' : covers (order out) (registry_ (core s)) -> run_turn out s = Some s' -> front_step s s'
| f_works d s : daemon_step (core s) d -> front_step s (s <| core := d |>).

(** The daemon as it is when [run] starts the goroutines. *)
Definition announced (d : daemon W) : front := mkFront d true true true Waiting [] [] [] [].

(** ** What a step keeps *)

Record front_ok (s : front) : Prop := {
  front_core : daemon_ok (core s);
  front_dialled : dialled s = serving s ++ backlog s ++ reset s;
  front_listening : listening s = match run_at s with Waiting | SweepsEnded => true | _ => false end;
  front_reset : if listening s then reset s = [] else backlog s = [];
  front_stopped : run_at s = Returned -> stopped (registry_ (core s)) = true /\ Registry.sessions (registry_ (core s)) = ∅
}.

(** A step of the daemon keeps what holds of a stopped one. *)
Lemma core_ok s d : front_ok s -> good (core s) d -> front_ok (s <| core := d |>).
Proof.
  intros Hok (Hd & _ & Hl). constructor; try apply Hok; [exact Hd|]. intros Hr.
  destruct (front_stopped _ Hok Hr) as [Hs He]. destruct (Hl Hs) as [Hs' He']. auto.
Qed.

Lemma stops_empties (out : around) (d : daemon W) : covers (order out) (registry_ d) ->
  stopped (registry_ (stops out d)) = true /\ Registry.sessions (registry_ (stops out d)) = ∅.
Proof.
  intros Hcov. unfold stops, shutdown. cbn. split; [done|].
  assert (Hall : omap (fun sid => (fun v => (sid, v)) <$> Registry.sessions (registry_ d) !! sid) (order out) =
    chosen (fun _ => true) (order out) (registry_ d)).
  { unfold chosen. apply list_omap_ext, Forall_Forall2_diag, Forall_true. intros sid. by destruct (Registry.sessions (registry_ d) !! sid). }
  rewrite Hall. apply map_empty. intros sid. rewrite chosen_deleted by done.
  by destruct (Registry.sessions (registry_ d) !! sid).
Qed.

Lemma front_step_ok s s' : front_ok s -> front_step s s' -> front_ok s'.
Proof.
  intros Hok Hstep. pose proof Hok as [Hc Hd Hl Hr Hs].
  destruct Hstep as [c s s' E|ok s s' E|ticked out s s' Hcov E|out s s' Hcov E|d s Hst].
  - unfold dial in E. destruct (listening s) eqn:El; [|done]. injection E as <-. constructor; cbn; try done.
    + rewrite Hd, Hr, !app_nil_r. by rewrite app_assoc.
    + congruence.
    + by rewrite El.
  - unfold accept_turn in E. destruct (accepting s); cbn [negb] in E; [|done].
    assert (Hdone : front_ok (s <| accepting := false |>)) by (by constructor).
    destruct (listening s) eqn:El; cbn [negb] in E; [|by injection E as <-].
    destruct ok; cbn [negb] in E; [|by injection E as <-].
    destruct (backlog s) as [|c waiting] eqn:Eb; [done|]. injection E as <-. constructor; cbn; try done.
    + rewrite Hd. by rewrite <- !app_assoc.
    + congruence.
    + by rewrite El.
  - unfold sweep_turn in E. destruct (sweeping s); cbn [negb] in E; [|done].
    destruct ticked; [injection E as <-; by apply core_ok, sweep_good|].
    assert (Hdone : front_ok (s <| sweeping := false |>)) by (by constructor).
    destruct (run_at s); try done; by injection E as <-.
  - unfold run_turn in E. destruct (run_at s) eqn:Er; try done; injection E as <-.
    + by constructor.
    + rewrite Hl in Hr. constructor; cbn; try done. by rewrite Hd, Hr, app_nil_r.
    + constructor; cbn; try done. { eapply stops_good; done. } intros _. by apply stops_empties.
  - apply core_ok; [done|]. by eapply daemon_step_good.
Qed.

Lemma front_reachable s s' : rtc front_step s s' -> front_ok s -> front_ok s'.
Proof. induction 1 as [|x y z Hxy _ IH]; [done|]. intros Hx. by apply IH, (front_step_ok x). Qed.

Lemma announced_ok d : daemon_ok d -> front_ok (announced d).
Proof. by constructor. Qed.

(** C4: a stop leaves nothing: once [run] returned the registry is empty and the process
    ledger with it, and no connection that still speaks, no sweep and no shell changes that;
    until then [run] can always go on, and a signal makes it return in three turns.
    Meanwhile each connection is served, waits or was reset, in the order they dialled. *)
Theorem stop_leaves_no_session shell_ secret after seedGeneration seedNext (d : daemon W) s :
  is_u64 seedNext -> rtc daemon_step (newDaemon shell_ secret after seedGeneration seedNext) d ->
  rtc front_step (announced d) s ->
  dialled s = serving s ++ backlog s ++ reset s /\
  (run_at s = Returned -> stopped (registry_ (core s)) = true /\ Registry.sessions (registry_ (core s)) = ∅ /\
     forall m, processes_ (core s) = Some m -> Inventory.sessions (processState m) = ∅) /\
  (run_at s <> Returned -> forall out, exists s', run_turn out s = Some s' /\ S (runs_left s') = runs_left s).
Proof.
  intros Hseed Hd Hrun. assert (Hok : front_ok s).
  { apply (front_reachable _ _ Hrun), announced_ok. eapply reachable_ok; [exact Hd|]. by apply new_ok. }
  split; [apply Hok|]. split.
  - intros Er. destruct (front_stopped _ Hok Er) as [Hs He]. split; [done|]. split; [done|]. intros m Em.
    destruct (ok_ledger _ (front_core _ Hok) m Em) as [Hset Hl]. apply map_empty. intros sid. apply eq_None_not_Some.
    rewrite (settled_ledger _ _ Hset) by done. rewrite Hl. unfold open_in. rewrite He. by intros (v & Hv & _).
  - intros Hr out. unfold run_turn, runs_left. destruct (run_at s); [by eexists..|done].
Qed.

(** C35: one call of [Accept] that fails ends the loop for good, while the daemon goes on:
    the listener stays open and takes every connection that dials, but none of those that
    wait and none that comes is ever served. *)
Theorem failed_accept_deafens s s1 s' : accepting s = true -> listening s = true ->
  accept_turn false s = Some s1 -> rtc front_step s1 s' ->
  listening s1 = true /\ core s1 = core s /\ accepting s' = false /\ serving s' = serving s /\
  (listening s' = true -> backlog s `prefix_of` backlog s' /\
     forall c s2, dial c s' = Some s2 -> backlog s2 = backlog s' ++ [c] /\ forall ok, accept_turn ok s2 = None).
Proof.
  intros Ha Hl. unfold accept_turn at 1. rewrite Ha, Hl. cbn [negb]. intros [= <-] Hrun.
  set (s1 := s <| accepting := false |>) in Hrun |- *. split; [done|]. split; [done|].
  set (deaf := fun x : front => accepting x = false /\ serving x = serving s /\ (listening x = true -> backlog s `prefix_of` backlog x)).
  assert (Hall : forall x y, rtc front_step x y -> deaf x -> deaf y).
  { induction 1 as [|x y z Hxy _ IH]; [done|]. intros (D1 & D2 & D3). apply IH. clear IH Hrun.
    destruct Hxy as [c x y E|ok x y E|ticked out x y _ E|out x y _ E|d x _]; [| | | |done].
    - unfold dial in E. destruct (listening x) eqn:El; [|done]. injection E as <-. split; [done|]. split; [done|]. intros _.
      cbn. apply prefix_app_r. by apply D3.
    - unfold accept_turn in E. by rewrite D1 in E.
    - unfold sweep_turn in E. destruct (sweeping x); cbn [negb] in E; [|done].
      destruct ticked; [by injection E as <-|]. by destruct (run_at x); try done; injection E as <-.
    - unfold run_turn in E. by destruct (run_at x); try done; injection E as <-. }
  destruct (Hall _ _ Hrun ltac:(done)) as (D1 & D2 & D3). split; [done|]. split; [done|]. intros Hl'. split; [by apply D3|].
  intros c s2. unfold dial. rewrite Hl'. intros [= <-]. split; [done|]. intros ok. unfold accept_turn. cbn. by rewrite D1.
Qed.

End front.

(** ** Witnesses *)

Section witnesses.
#[local] Existing Instance sample_contract.
#[local] Existing Instance sample_contract_laws.
#[local] Existing Instance sample_control.
#[local] Existing Instance sample_wire.
#[local] Existing Instance Concrete.platform.

Abbreviation sample_front := (front darwinProcessTreeWatch).
Abbreviation sample_front_step := (front_step "linux" (fun s => s) "pty" "label" 7).

(** One session is open when the signal comes, and a connection waits. *)
Definition stop_around : around darwinProcessTreeWatch :=
  mkAround [10] 200 None [] true true true (fun sid => sid + 1000) (startAnswers sample_around).

Definition goes (t : sample_front -> option sample_front) (s : sample_front) : sample_front := default s (t s).

Definition can (t : sample_front -> option sample_front) (s : sample_front) : bool :=
  match t s with Some _ => true | None => false end.

Lemma front_goes_on t s : can t s = true -> t s = Some (goes t s).
Proof. unfold can, goes. by destruct (t s). Qed.

Definition front0 : sample_front := announced watching_daemon.
Definition front1 : sample_front := goes (dial 0) front0.
Definition front2 : sample_front := goes (accept_turn true) front1.
Definition front3 : sample_front := front2 <| core := serving_daemon |>.
Definition front4 : sample_front := goes (dial 1) front3.
Definition front5 : sample_front := goes (run_turn stop_around) front4.
Definition front6 : sample_front := goes (run_turn stop_around) front5.
Definition front7 : sample_front := goes (run_turn stop_around) front6.

Lemma open_session_covered : covers (order stop_around) (registry_ serving_daemon).
Proof.
  assert (E : bool_decide (dom (Registry.sessions (registry_ serving_daemon)) = {[10]}) = true) by (vm_compute; reflexivity).
  apply bool_decide_eq_true_1 in E. split; [apply NoDup_singleton|]. intros sid.
  rewrite <- elem_of_dom, E. cbn. by rewrite list_elem_of_singleton, elem_of_singleton.
Qed.

Lemma watching_reached : rtc (daemon_step "linux" (fun s => s) "pty" "label" 7) quiet_daemon watching_daemon.
Proof. apply (rtc_l _ _ watching_daemon); [apply step_after; vm_compute; reflexivity|]. apply rtc_refl. Qed.

Lemma front_dials c s : can (dial c) s = true -> sample_front_step s (goes (dial c) s).
Proof. intros E. by apply (f_dials _ _ _ _ _ c), front_goes_on. Qed.

Lemma front_accepts ok s : can (accept_turn ok) s = true -> sample_front_step s (goes (accept_turn ok) s).
Proof. intros E. by apply (f_accepts _ _ _ _ _ ok), front_goes_on. Qed.

Lemma front_runs s : core s = serving_daemon -> can (run_turn stop_around) s = true -> sample_front_step s (goes (run_turn stop_around) s).
Proof.
  intros Ec E. apply (f_runs _ _ _ _ _ stop_around); [rewrite Ec; apply open_session_covered|by apply front_goes_on].
Qed.

Lemma stop_leaves_no_session_witness :
  run_at front7 = Returned /\ dialled front7 = [0; 1]%nat /\ reset front7 = [1]%nat /\
  dialled front7 = serving front7 ++ backlog front7 ++ reset front7 /\
  (run_at front7 = Returned -> stopped (registry_ (core front7)) = true /\ Registry.sessions (registry_ (core front7)) = ∅ /\
     forall m, processes_ (core front7) = Some m -> Inventory.sessions (processState m) = ∅) /\
  (run_at front7 <> Returned -> forall out, exists s', run_turn out front7 = Some s' /\ S (runs_left s') = runs_left front7).
Proof.
  assert (Hr : rtc sample_front_step front0 front7).
  { apply (rtc_l _ _ front1); [apply front_dials; vm_compute; reflexivity|].
    apply (rtc_l _ _ front2); [apply front_accepts; vm_compute; reflexivity|].
    apply (rtc_l _ _ front3); [apply f_works; apply step_after; vm_compute; reflexivity|].
    apply (rtc_l _ _ front4); [apply front_dials; vm_compute; reflexivity|].
    apply (rtc_l _ _ front5); [apply front_runs; [reflexivity|vm_compute; reflexivity]|].
    apply (rtc_l _ _ front6); [apply front_runs; [reflexivity|vm_compute; reflexivity]|].
    apply (rtc_l _ _ front7); [apply front_runs; [reflexivity|vm_compute; reflexivity]|]. apply rtc_refl. }
  split; [vm_compute; reflexivity|]. split; [vm_compute; reflexivity|]. split; [vm_compute; reflexivity|].
  apply (stop_leaves_no_session "linux" (fun s => s) "pty" "label" 7 "/bin/sh" "secret" 1800 5 9 watching_daemon front7);
    [unfold is_u64, two64; lia|exact watching_reached|exact Hr].
Defined.

(** The call that fails for the first connection, and two that dial. *)
Definition deaf0 : sample_front := goes (accept_turn false) front1.
Definition deaf1 : sample_front := goes (dial 1) deaf0.

Lemma failed_accept_deafens_witness :
  backlog deaf1 = [0; 1]%nat /\
  listening deaf0 = true /\ core deaf0 = core front1 /\ accepting deaf1 = false /\ serving deaf1 = serving front1 /\
  (listening deaf1 = true -> backlog front1 `prefix_of` backlog deaf1 /\
     forall c s2, dial c deaf1 = Some s2 -> backlog s2 = backlog deaf1 ++ [c] /\ forall ok, accept_turn ok s2 = None).
Proof.
  assert (Hr : rtc sample_front_step deaf0 deaf1).
  { apply (rtc_l _ _ deaf1); [apply front_dials; vm_compute; reflexivity|]. apply rtc_refl. }
  split; [vm_compute; reflexivity|].
  apply (failed_accept_deafens "linux" (fun s => s) "pty" "label" 7 front1 deaf0 deaf1);
    [vm_compute; reflexivity|vm_compute; reflexivity|apply front_goes_on; vm_compute; reflexivity|exact Hr].
Defined.

End witnesses.
