(* ===== verification/Platforms.v ===== *)
(** * What the builds differ in (process_tree_windows.go, process_tree_events.go,
    process_tree_events_unsupported.go, listen_windows.go, limits_windows.go,
    socket_limit_windows.go)

    A build takes its reader of the process tree and its source of process events from its
    platform.  Only the build for macOS has a source; the others take the one that supports
    nothing, and the build for Windows a reader that answers nobody.  What then becomes of
    the process ledger is proved against [processSessionStarted].  The listener of Windows
    is a named pipe for the user who runs the daemon. *)

From S2P Require Import Prelude Threads Contract OutputRing Observer StoreFeed Inventory ProcessTree ProcessWatch Session Monitor Startup.

(** ** Sources of process events *)

Inductive source_error :=
| ErrProcessObservationUnsupported
| ErrNoWatch.

(** [processTreeEventSource]: what [Supported] answers, and the watch [Observe] gives. *)
Class ProcessTreeEventSource (S W : Type) := {
  Supported : S -> option source_error;
  ObserveTree : S -> Z -> source_error + W
}.

Inductive unsupportedProcessTreeEventSource := Unsupported.

#[export] Instance unsupported_source W : ProcessTreeEventSource unsupportedProcessTreeEventSource W := {
  Supported _ := Some ErrProcessObservationUnsupported;
  ObserveTree _ _ := inl ErrProcessObservationUnsupported
}.

(** The source of the build for macOS over what its kernel answers. *)
Record darwinProcessTreeEventSource := mkDarwinSource { registers : Z -> add_answer }.

#[export] Instance darwin_source : ProcessTreeEventSource darwinProcessTreeEventSource darwinProcessTreeWatch := {
  Supported _ := None;
  ObserveTree source root := match ProcessWatch.Observe (registers source) root with Some w => inr w | None => inl ErrNoWatch end
}.

(** [newProcessTreeEventSource] of every other build. *)
Definition newProcessTreeEventSource : unsupportedProcessTreeEventSource := Unsupported.

(** ** Readers of the process tree *)

(** What the machine answers while a reader asks it. *)
Record machine := mkMachine {
  ps : option string;
  processCWD : Z -> cwd_answer
}.

(** [processTreeReader]; [None] is the walk out of fuel, which does not happen
    ([ProcessTree]). *)
Class ProcessTreeReader (R : Type) := {
  ReadTree : R -> machine -> Z -> option (tree_error + list processTreeEntry)
}.

(** Its fields are the ways a test reads in place of the machine. *)
Record unixProcessTreeReader := mkUnixReader {
  readProcessTable : option (option string);
  readProcessCWD : option (Z -> cwd_answer)
}.

#[export] Instance unix_reader : ProcessTreeReader unixProcessTreeReader := {
  ReadTree reader m root :=
    ProcessTree.Descendants (default (processCWD m) (readProcessCWD reader)) root (default (ps m) (readProcessTable reader))
}.

Definition newUnixProcessTreeReader : unixProcessTreeReader := mkUnixReader None None.

Inductive windowsProcessTreeReader := newWindowsProcessTreeReader.

#[export] Instance windows_reader : ProcessTreeReader windowsProcessTreeReader := {
  ReadTree _ _ _ := Some (inr [])
}.

(** ** What a session's start finds on a build *)

Section build.
Context `{PtyContract} {S W : Type} `{ProcessTreeWatch W} `{!ProcessTreeEventSource S W}.

Definition answers_of (source : S) (found : tree_error + list processTreeEntry) (kernel : Z -> add_answer)
    (pid group : Z) (held takes : bool) (at_ now : Z) : start_answers (W := W) :=
  mkStartAnswers pid at_ (bool_decide (Supported (W := W) source = None))
    (match ObserveTree source pid with inr w => Some w | inl _ => None end)
    (mkSurroundings true found kernel group held takes now).

End build.

(** ** The ledger of a build without a source of events *)

Section unsupported.
Context `{PtyContractLaws} {W : Type} `{ProcessTreeWatch W} (identity : string) (daemonPID : Z).
Context {R : Type} `{ProcessTreeReader R} (reader : R).

Abbreviation monitoring := (@monitoring W).

(** What the one look at a session's start finds: its shell, and what the reader answers. *)
Definition first_look (v : session) (pid : Z) (found : tree_error + list processTreeEntry) : list Process :=
  processRecord identity daemonPID v pid "running" None ::
  match found with inl _ => [] | inr entries => map (descendantRecord identity v) entries end.

(** Starts and ends are all that calls a monitor when no watch was given.  [taken] is kept
    beside them for the statement: what each session's start looked at. *)
Inductive build_step : monitoring * gmap Z (list Process) -> monitoring * gmap Z (list Process) -> Prop :=
| b_start v m found kernel pid group held takes at_ now s taken : ReadTree reader m pid = Some found ->
    build_step (s, taken)
      (processSessionStarted identity daemonPID (Session.closed v) v
         (answers_of newProcessTreeEventSource found kernel pid group held takes at_ now) s,
       if Session.closed v || bool_decide (is_Some (taken !! id v)) then taken else <[id v := first_look v pid found]> taken)
| b_end sid at_ s taken : build_step (s, taken) (processSessionEnded sid at_ s, delete sid taken).

Lemma first_look_shell v pid found : by_id (first_look v pid found) <> ∅.
Proof.
  pose proof (by_id_shell identity daemonPID (mkMonitor (W := W) v pid None false None "" "")) as E.
  unfold first_look, shell_record in *. cbn [session_ pid_] in E.
  destruct found as [e|entries]; [specialize (E [])|specialize (E entries)];
    cbn [map] in E; intros F; by rewrite F, lookup_empty in E.
Qed.

(** The look that a start takes, whatever the terminal and the store answer. *)
Lemma looked out (mon : processSessionMonitor (W := W)) found : hasTree out = true -> tree out = found -> watch mon = None ->
  let '(mon', records, _) := observed identity daemonPID out mon in
  session_ mon' = session_ mon /\ watch mon' = None /\
  match found with inl _ => records = None | inr _ => records = Some (first_look (session_ mon) (pid_ mon) found) end.
Proof.
  intros Ht Htree Hw. unfold observed, first_look. rewrite Ht, Htree, Hw. cbn [negb].
  destruct found as [e|entries]; [done|]. unfold recordForeground.
  destruct (storeHeld out); cbn [negb]; [|done]. destruct (foregroundOf _ _ _) as [c d].
  destruct (_ && _); [done|]. by destruct (storeTakes out).
Qed.

Lemma started_ledger v found kernel pid group held takes at_ now (s : monitoring) sid : ledger_keyed (processState s) ->
  Session.closed v = false -> processSessions s !! id v = None ->
  Inventory.sessions (processState (processSessionStarted identity daemonPID (Session.closed v) v
    (answers_of newProcessTreeEventSource found kernel pid group held takes at_ now) s)) !! sid =
  if decide (sid = id v) then Some (by_id (first_look v pid found)) else Inventory.sessions (processState s) !! sid.
Proof.
  intros Hk -> Hf. unfold processSessionStarted, started_enter. rewrite Hf. cbn [startedPID answers_of].
  set (m := madeMonitors s). set (mon := mkMonitor v pid None false None "" "").
  set (s1 := s <| madeMonitors := S m |> <| monitors := _ |> <| processSessions := _ |>).
  set (s2 := started_commit identity daemonPID m at_ s1). change (startedAt_ _) with at_.
  change (supported_ _) with false. change (started_commit identity daemonPID m at_ s1) with s2.
  assert (E1 : monitors s1 !! m = Some mon) by apply lookup_insert_eq.
  assert (E2 : monitors s2 !! m = Some mon) by (unfold s2; by rewrite committed_monitors).
  assert (K2 : ledger_keyed (processState s2)) by (unfold s2, started_commit; rewrite E1; by apply replaceSession_keyed).
  assert (L2 : Inventory.sessions (processState s2) !! sid =
    if decide (sid = id v) then Some (by_id [shell_record identity daemonPID mon]) else Inventory.sessions (processState s) !! sid).
  { destruct (decide (sid = id v)) as [->|Hne].
    - by apply (committed_record identity daemonPID m at_ s1 mon).
    - unfold s2, started_commit. rewrite E1, replace_sessions by done. by rewrite decide_False. }
  unfold started_watch. rewrite E2. set (mon3 := mon <| lastError := _ |>). set (s3 := set_monitor m mon3 s2).
  unfold reconcile. rewrite (lookup_insert_eq (monitors s2) m mon3 : monitors s3 !! m = Some mon3).
  change (mclosed mon3) with false. cbv iota. set (out := found_ _).
  pose proof (looked out mon3 found eq_refl eq_refl eq_refl) as Hl.
  destruct (observed identity daemonPID out mon3) as [[mon' records] acts]. destruct Hl as (Es & _ & Hr).
  destruct found as [e|entries]; subst records; cbn [fst].
  - change (processState (set_monitor m mon' s3)) with (processState s2). exact L2.
  - rewrite Es. change (session_ mon3) with v. rewrite replace_sessions by done.
    destruct (decide (sid = id v)); [by rewrite decide_False by apply first_look_shell|].
    change (processState (set_monitor _ _ s3)) with (processState s2). exact L2.
Qed.

Lemma ended_ledger k at_ (s : monitoring) sid : settled None s ->
  Inventory.sessions (processState (processSessionEnded k at_ s)) !! sid =
  if decide (sid = k) then None else Inventory.sessions (processState s) !! sid.
Proof.
  intros Hs. pose proof (settled_keyed _ _ Hs) as Hk. unfold processSessionEnded, ended_enter.
  destruct (processSessions s !! k) as [m|] eqn:Ef.
  - destruct (settled_filed _ _ Hs _ _ Ef) as (mon & Em & Eid & Ec). unfold close_locked. cbn [monitors]. cbn.
    rewrite Em, Ec. rewrite replace_sessions by done. by destruct (decide (sid = k)).
  - rewrite replace_sessions by done. by destruct (decide (sid = k)).
Qed.

(** C31: on every build but the one for macOS there is no source of process events, so a
    session's process records are taken once, when it starts: whatever sessions start and
    end, the ledger holds for each live session the shell and the descendants that its own
    start found, none for any other, and no descendant that came later. *)
Theorem ledger_is_the_first_look s taken : rtc build_step (newMonitoring, ∅) (s, taken) ->
  Inventory.sessions (processState s) = by_id <$> taken.
Proof.
  set (ok := fun x : monitoring * gmap Z (list Process) => settled None x.1 /\
    Inventory.sessions (processState x.1) = by_id <$> x.2).
  assert (Hstep : forall x y, build_step x y -> ok x -> ok y).
  { intros x y St [Hs Hl]. cbn [fst snd] in *.
    assert (Hin : forall sid, is_Some (x.2 !! sid) <-> is_Some (processSessions x.1 !! sid)).
    { intros sid. rewrite <- (settled_ledger _ _ Hs sid) by done. by rewrite Hl, lookup_fmap, fmap_is_Some. }
    destruct St as [v mach found kernel pid group held takes at_ now s0 taken0 _|k at_ s0 taken0]; cbn [fst snd] in *.
    - destruct (Session.closed v) eqn:Ec; [done|]. cbn [orb]. destruct (processSessions s0 !! id v) as [m|] eqn:Ef.
      { rewrite bool_decide_true by (apply Hin; by rewrite Ef). unfold processSessionStarted, started_enter. by rewrite Ef. }
      rewrite bool_decide_false by (intros F%Hin; rewrite Ef in F; by destruct F). split; cbn [fst snd].
      + by apply settled_started.
      + apply map_eq. intros sid. rewrite <- Ec. pose proof (settled_keyed _ _ Hs) as Hk.
        rewrite started_ledger by done. rewrite lookup_fmap. destruct (decide (sid = id v)) as [->|Hne]; [by rewrite lookup_insert_eq|].
        by rewrite lookup_insert_ne, Hl, lookup_fmap.
    - split; cbn [fst snd]; [by apply settled_ended|]. apply map_eq. intros sid. rewrite ended_ledger, lookup_fmap by done.
      destruct (decide (sid = k)) as [->|Hne]; [by rewrite lookup_delete_eq|]. by rewrite lookup_delete_ne, Hl, lookup_fmap. }
  assert (Hall : forall x y, rtc build_step x y -> ok x -> ok y) by (induction 1; eauto).
  intros Hr. apply (Hall _ _ Hr). split; [apply settled_new|done].
Qed.

(** On Windows the look finds no descendant, and so no program for the session's record:
    the fallback of [foregroundOf] to the shell's own child has no child to name. *)
Lemma windows_names_no_program (mon : processSessionMonitor (W := W)) out : hasTree out = true -> tree out = inr [] ->
  watch mon = None -> foreground mon = EmptyString -> foregroundCWD mon = EmptyString ->
  snd (observed identity daemonPID out mon) = [].
Proof.
  intros Ht Htree Hw Hf Hc. unfold observed, recordForeground, foregroundOf, first_child. rewrite Ht, Htree, Hw. cbn [negb].
  destruct (storeHeld out); [|done]. cbn [negb]. rewrite Hf, Hc. destruct (group out =? pid_ mon); [done|]. by destruct (negb (group out =? 0)).
Qed.

End unsupported.

(** ** The listener of Windows (listen_windows.go)

    Pipes are the system's: creating one asks for a name and a descriptor.  What the listener
    relies on is that a name is taken until its listener is closed. *)

Class NamedPipes (P : Type) := {
  ListenPipe : string -> string -> P -> P * bool;
  pipe_at : P -> string -> option string
}.

Class NamedPipesLaws (P : Type) `{NamedPipes P} := {
  pipe_created address descriptor p p' : ListenPipe address descriptor p = (p', true) ->
    pipe_at p address = None /\ pipe_at p' address = Some descriptor;
  pipe_kept address descriptor p other held : pipe_at p other = Some held ->
    pipe_at (fst (ListenPipe address descriptor p)) other = Some held
}.

Inductive pipe_error := TokenUnreadable | NoCurrentUser | PipeRefused.

Definition pipe_descriptor (sid : string) : string := ("D:P(A;;GA;;;" ++ sid ++ ")")%string.

(** [user] is the text of the SID of the process's token, [None] when it cannot be read. *)
Definition listen `{NamedPipes P} (user : option string) (address : string) (p : P) : P * (pipe_error + unit) :=
  match user with
  | None => (p, inl TokenUnreadable)
  | Some sid =>
      if String.eqb sid EmptyString then (p, inl NoCurrentUser)
      else let '(p, made) := ListenPipe address (pipe_descriptor sid) p in (p, if made then inr tt else inl PipeRefused)
  end.

(** [raiseOpenFileLimit] of Windows asks the system for nothing. *)
Definition raiseOpenFileLimit : Startup.program unit := Done tt.

Definition socketPathLimit : Z := 104.

Lemma one_limit : socketPathLimit = Startup.socketPathLimit.
Proof. done. Qed.

Section pipes.
Context `{NamedPipesLaws P}.

(** One start after another at the same address, for whatever users. *)
Fixpoint listens (address : string) (users : list (option string)) (p : P) : P * list (pipe_error + unit) :=
  match users with
  | [] => (p, [])
  | user :: users => let '(p, x) := listen user address p in let '(p, xs) := listens address users p in (p, x :: xs)
  end.

Lemma listen_taken user address p held : pipe_at p address = Some held ->
  exists e, (listen user address p).2 = inl e /\ pipe_at (listen user address p).1 address = Some held.
Proof.
  intros Hp. unfold listen. destruct user as [sid|]; [|by exists TokenUnreadable].
  destruct (String.eqb sid EmptyString); [by exists NoCurrentUser|].
  pose proof (pipe_kept address (pipe_descriptor sid) p address held Hp) as Hk.
  destruct (ListenPipe address (pipe_descriptor sid) p) as [p' [|]] eqn:E; [|by exists PipeRefused].
  destruct (pipe_created _ _ _ _ E) as [Hn _]. by rewrite Hp in Hn.
Qed.

Lemma listens_taken address users : forall p held, pipe_at p address = Some held ->
  Forall (fun x => exists e, x = inl e) (listens address users p).2 /\
  pipe_at (listens address users p).1 address = Some held.
Proof.
  induction users as [|user users IH]; intros p held Hp; [by split|]. cbn.
  destruct (listen_taken user address p held Hp) as (e & Hx & Hk). destruct (listen user address p) as [p1 x].
  cbn in Hx, Hk. destruct (IH p1 held Hk) as [Hall Hat]. destruct (listens address users p1) as [p2 xs].
  split; [|done]. constructor; [by exists e|done].
Qed.

(** A pipe answers for one daemon.  Of any starts at one address, at most one gets the
    listener, every start after it is refused and leaves the pipe as it is, and the pipe lets
    in the user of the start that made it and nobody else. *)
Theorem one_listener_per_pipe address users p :
  let '(p', xs) := listens address users p in
  forall i, xs !! i = Some (inr tt) ->
    (exists sid, users !! i = Some (Some sid) /\ sid <> EmptyString /\ pipe_at p' address = Some (pipe_descriptor sid)) /\
    forall j, xs !! j = Some (inr tt) -> j = i.
Proof.
  destruct (listens address users p) as [p' xs] eqn:E. intros i. revert p i xs E.
  induction users as [|user users IH]; intros p i xs E Hi; cbn in E; [by simplify_eq|].
  destruct (listen user address p) as [p1 x] eqn:El. destruct (listens address users p1) as [p2 rest] eqn:Er.
  injection E as -> <-. assert (Htaken : x = inr tt -> Forall (fun y => exists e, y = inl e) rest /\
    exists sid, user = Some sid /\ sid <> EmptyString /\ pipe_at p' address = Some (pipe_descriptor sid)).
  { intros ->. unfold listen in El. destruct user as [sid|]; [|done]. destruct (String.eqb sid EmptyString) eqn:Es; [done|].
    destruct (ListenPipe address (pipe_descriptor sid) p) as [q [|]] eqn:Ep; [|done]. injection El as ->.
    destruct (pipe_created _ _ _ _ Ep) as [_ Hat]. destruct (listens_taken address users p1 _ Hat) as [Hall Hk].
    rewrite Er in Hall, Hk. split; [done|]. exists sid. by apply String.eqb_neq in Es. }
  assert (Hlate : forall k, x = inr tt -> rest !! k = Some (inr tt) -> False).
  { intros k Hx Hk. destruct (Htaken Hx) as [Hall _]. by destruct (Forall_lookup_1 _ _ _ _ Hall Hk). }
  destruct i as [|i]; cbn in Hi.
  - injection Hi as ->. destruct (Htaken eq_refl) as [_ (sid & -> & Hs)]. split; [by exists sid|].
    intros [|j] Hj; [done|]. by destruct (Hlate j eq_refl Hj).
  - destruct (IH _ _ _ Er Hi) as [Hu Hone]. split; [exact Hu|]. intros [|j] Hj; cbn in Hj.
    + injection Hj as ->. by destruct (Hlate i eq_refl Hi).
    + by rewrite (Hone j Hj).
Qed.

End pipes.

(** ** Witnesses *)

Section witness.
#[local] Existing Instance sample_contract.
#[local] Existing Instance sample_contract_laws.

Definition linux_machine : machine := mkMachine (Some ProcessTree.sample_table) ProcessTree.sample_cwd.

Definition linux_look : tree_error + list processTreeEntry :=
  inr [mkEntry 102 101 101 "survivor x" "/work/survivor"].

(** A session of the build for Linux, and one that comes and goes beside it. *)
Definition passing_session : session := Session.sample_session <| id := 8 |>.

Definition linux_start (v : session) (found : tree_error + list processTreeEntry) (s : monitoring (W := darwinProcessTreeWatch)) : monitoring :=
  processSessionStarted "pty" 7 (Session.closed v) v
    (answers_of newProcessTreeEventSource found ProcessWatch.sample_kernel 100 101 true true 50 60) s.

Definition linux1 : monitoring := linux_start Session.sample_session linux_look newMonitoring.
Definition linux2 : monitoring := linux_start passing_session (inl TableUnreadable) linux1.
Definition linux3 : monitoring := processSessionEnded 8 70 linux2.
Definition linux_taken : gmap Z (list Process) := {[7 := first_look "pty" 7 Session.sample_session 100 linux_look]}.

Lemma ledger_is_the_first_look_witness :
  rtc (build_step "pty" 7 newUnixProcessTreeReader) (newMonitoring, ∅) (linux3, linux_taken) /\
  Inventory.sessions (processState linux3) = by_id <$> linux_taken.
Proof.
  assert (Hr : rtc (build_step "pty" 7 newUnixProcessTreeReader) (newMonitoring, ∅) (linux3, linux_taken)).
  { apply (rtc_l _ _ (linux1, linux_taken)).
    { refine (b_start "pty" 7 newUnixProcessTreeReader Session.sample_session linux_machine linux_look
        ProcessWatch.sample_kernel 100 101 true true 50 60 newMonitoring ∅ _); vm_compute; reflexivity. }
    apply (rtc_l _ _ (linux2, <[8 := first_look "pty" 7 passing_session 100 (inl TableUnreadable)]> linux_taken)).
    { refine (b_start "pty" 7 newUnixProcessTreeReader passing_session (mkMachine None ProcessTree.sample_cwd) (inl TableUnreadable)
        ProcessWatch.sample_kernel 100 101 true true 50 60 linux1 linux_taken _); vm_compute; reflexivity. }
    apply (rtc_l _ _ (linux3, linux_taken)); [|apply rtc_refl].
    exact (b_end "pty" 7 newUnixProcessTreeReader 8 70 linux2 (<[8 := first_look "pty" 7 passing_session 100 (inl TableUnreadable)]> linux_taken)). }
  split; [exact Hr|]. exact (ledger_is_the_first_look "pty" 7 newUnixProcessTreeReader linux3 linux_taken Hr).
Defined.

End witness.

(** Pipes as a table of names. *)
Definition table_of_pipes : NamedPipes (gmap string string) := {|
  ListenPipe address descriptor p := match p !! address with Some _ => (p, false) | None => (<[address := descriptor]> p, true) end;
  pipe_at p address := p !! address
|}.

Lemma table_of_pipes_laws : NamedPipesLaws (H := table_of_pipes) (gmap string string).
Proof.
  constructor; cbn.
  - intros address descriptor p p'. destruct (p !! address) eqn:E; [done|]. intros [= <-]. by rewrite lookup_insert_eq.
  - intros address descriptor p other held Hp. destruct (p !! address) eqn:E; [done|]. cbn.
    rewrite lookup_insert_ne; [done|congruence].
Qed.

Lemma one_listener_per_pipe_witness :
  let '(p', xs) := listens (H := table_of_pipes) "pty" [Some "S-1"; None; Some "S-2"]%string ∅ in
  forall i, xs !! i = Some (inr tt) ->
    (exists sid, [Some "S-1"; None; Some "S-2"]%string !! i = Some (Some sid) /\ sid <> EmptyString /\
      @pipe_at _ table_of_pipes p' "pty" = Some (pipe_descriptor sid)) /\
    forall j, xs !! j = Some (inr tt) -> j = i.
Proof. exact (one_listener_per_pipe (H0 := table_of_pipes_laws) "pty" [Some "S-1"; None; Some "S-2"]%string ∅). Defined.
